(* ===== verification/_CoqProject ===== *)
-Q . S2P
Prelude.v
LockType.v
LockImpl.v
Lock.v
Deadlock.v
LockManager.v
LockSystem.v
Bytes.v
Reader.v
Packed.v
Lsn.v
LogEntry.v
Keys.v
LsnRep.v
TargetRep.v
InNode.v
Bin.v
BinMap.v
NodeImage.v
BinLog.v
Acceptor.v
Election.v
RecoveryLog.v
Rollback.v
Analysis.v
Tree.v
TreeRep.v
TreeMap.v
Recovery.v
RecoveryMap.v
Fsync.v
LogFile.v
LogBuffer.v
WriteLog.v
LogSpec.v
LogInv.v
LogRun.v
LogStore.v
TxnOps.v
TxnSystem.v
TxnLocks.v
TxnBooks.v
TxnUndo.v
