(* ===== verification/Prelude.v ===== *)
(** * Noxu DB: a verification development

    Noxu is an embedded transactional key/value store with replication.  A
    transaction locks records through the lock manager ([noxu-txn]); records
    live in the slots of the bottom nodes (BINs) of a B-tree ([noxu-tree])
    that share packed arrays of keys and log sequence numbers; nodes and
    records are written to an append-only log ([noxu-log], [noxu-util]) by the
    checkpointer ([noxu-recovery]) and the evictor ([noxu-evictor]) and read
    back from it; after a crash recovery rebuilds the trees from the log
    ([noxu-recovery]); a group of nodes elects a master ([noxu-rep]).  The
    development models these parts from the sources under src/crates and
    proves what each promises to the others.

    ** Files

    Locking, noxu-txn/src:
    - [LockType]: lock modes, conflict and upgrade matrices (lock_type.rs,
      lock_conflict.rs, lock_upgrade.rs, lock_grant_type.rs).
    - [LockImpl]: the full lock of a record (lock_impl.rs): owner and waiter
      slots, grants, queueing, release with wake-up, demotion, stealing.
    - [Lock]: the thin lock and the enum that mutates it into a full one
      (thin_lock_impl.rs, lock.rs).
    - [Deadlock]: the search of the waits-for graph and the choice of a victim
      (deadlock_detector.rs).
    - [LockManager]: the sharded lock table and its registries
      (lock_manager.rs).
    - [LockSystem]: the wait loop, its timeouts and the interleaving of many
      lockers as a step relation.

    Transactions, noxu-txn/src, noxu-dbi/src and noxu-db/src:
    - [TxnOps]: the books of a transaction, its lock methods, commit, abort and
      prepare (txn.rs, write_lock_info.rs), the locks of a cursor
      (cursor_impl.rs), commit and abort of the public interface
      (transaction.rs), as programs of calls.
    - [TxnSystem]: transactions and other lockers on one lock manager, call by
      call, and what a call changes for its caller and for the others.
    - [TxnLocks]: programs that keep bounds on what their locker owns and holds;
      every method is one.
    - [TxnBooks]: the theorems about the books and the lock table.
    - [TxnUndo]: the before-images that an abort restores.

    Encodings, noxu-util/src and noxu-log/src:
    - [Bytes], [Reader]: machine integers with their wrap-around, byte strings,
      readers and what makes a reader reject cut inputs.
    - [Packed]: packed and order-preserving integers (packed.rs).
    - [Lsn]: log and version sequence numbers (lsn.rs, vlsn.rs).
    - [LogEntry]: types, headers and bodies of log entries (entry_type.rs,
      provisional.rs, entry_header.rs, entry/).
    - [Fsync]: group commit and the durable watermark (fsync_manager.rs, the
      flushes of log_manager.rs), as interleavings of atomic steps.

    The write-ahead log, noxu-log/src:
    - [LogFile]: headers of files, positions, creation, reads, writes and syncs
      of files (file_header.rs, file_manager.rs, file_handle.rs); the class
      [Platform] is the checksum, the clock and the cache of handles.
    - [LogBuffer]: write buffers and their ring (log_buffer.rs,
      log_buffer_pool.rs).
    - [WriteLog]: appends, flushes and reads (log_manager.rs).
    - [LogSpec]: the entries of a log, where they are placed, and the bytes of
      the files that they stand for.
    - [LogInv], [LogRun]: the invariant that ties buffers and files to these
      entries, and that each operation keeps it.
    - [LogStore]: the log as a list of entries, for its clients and after a
      crash.

    The tree, noxu-tree/src:
    - [Keys], [LsnRep], [TargetRep]: key prefixes and the packed arrays of keys,
      LSNs and cached children of a node (key.rs and the representations in
      tree.rs).
    - [InNode]: upper nodes (InNodeStub of tree.rs).
    - [Bin], [BinMap]: bottom nodes (BinStub of tree.rs): searches, insertion
      with key prefixing, deletion, and the map of records they implement.
    - [NodeImage]: the log images of nodes (serialize_full, serialize_delta,
      deserialize_full, write_to_bytes, deserialize_upper_in).
    - [BinLog]: logging a BIN as a full image or a delta (checkpointer.rs,
      evictor.rs) and fetching it back (fetch_node_from_log of tree.rs).
    - [Tree]: the tree over several levels (Tree of tree.rs): descent with
      re-fetching of evicted nodes, insertion with splits on the way down,
      redo insertion, deletion, marks and lookups.
    - [TreeRep]: the representation of a tree by its list of slots, and what
      descent, splits and edits of a bottom node make of it.
    - [TreeMap]: the tree as a map of records.

    Recovery, noxu-recovery/src:
    - [RecoveryLog]: the records that recovery reads and the scanners
      (log_scanner.rs); the class [ScannerOf] says that a scanner reads a log.
    - [Rollback]: rollback periods and the chains of previous versions
      (rollback_tracker.rs, txn_chain.rs).
    - [Analysis]: the analysis pass, the catalog of names and the map of dirty
      nodes (recovery_manager.rs, analysis_result.rs, dirty_in_map.rs,
      catalog_integrity.rs).
    - [Recovery]: the redo and undo of leaf entries and the entries of prepared
      transactions (recovery_manager.rs), over trees behind the class
      [RecordTree].
    - [RecoveryMap]: the laws [TreeLaws] that [Tree] satisfies and recovery
      relies on, and what the passes make of the records.

    Elections, noxu-rep/src:
    - [Acceptor]: ranking of proposals, the acceptor with its state file, the
      commit freeze latch, the tracked master (elections/).
    - [Election]: the group, its quorums, proposer rounds and acceptor sessions
      (rep_group.rs, quorum_policy.rs, elections/paxos.rs), interleaved.

    ** State, errors and effects

    A struct is a record and an enum an inductive type; an operation that
    mutates [self] returns the new state.  [None] of a state-passing operation
    is a panic (an index out of range, a failed [expect]); errors are values of
    [result].  Readers of the log use [may]: the outer [None] is a panic, the
    inner one a rejected input.  Integers are [Z] with the wrap-around of their
    width written out ([as_u], [as_i]).  Hash maps are [gmap].  A lock held over
    a whole operation makes the operation a step; threads are interleavings of
    steps ([LockSystem], [Election], [Fsync]).  A method of a transaction, which
    calls the lock manager and the log many times, is a tree of calls with what
    follows each answer ([Prog]); the order in which a hash table is iterated is
    the class [HashOrder].

    ** What the theorems show

    Locking: mutual exclusion of a lock over any operations, the exact outcome
    of a request, what a release wakes, the thin lock as a refinement of the
    full one; soundness and completeness of the deadlock search; accounting of
    the manager; in every interleaving, a returned grant is held, a returned
    request waits nowhere, no wake-up is lost, and waits are bounded.
    Transactions: in every interleaving of their methods the lock table has no
    lock that its transaction does not list, a committed transaction has none,
    and a write lock stays until the commit entry is in the log or the changes
    are undone, for transactions that take no read lock of a record they have
    write locked; why that is needed is
    [TxnBooks.reread_gives_the_write_lock_away].  An abort undoes each changed
    record once, to the version before the first change.
    Encodings: round trips, order preservation, sizes, and rejection of every
    cut input, through the class [Codec] that the bodies of log entries
    instantiate.  Group commit: in every interleaving a call that returns
    successfully has its entry on stable storage unless an I/O error has
    invalidated the log; with an error that can fail
    ([Fsync.failed_sync_acknowledged]).  Write-ahead log: any sequence of
    appends, flushes, syncs, changes of file and reads behaves as a list of
    entries, whether an entry is in a buffer, in a file or too large for a
    buffer; what was synced is read back from the bytes on stable storage; and
    the links in the headers lead from each entry and each file to the one
    before.  An entry beyond the limit of the reader is accepted and never read
    back ([LogStore.large_entry_unreadable]).  Tree: the packed arrays and nodes
    refine lists of slots, a BIN refines a map of records, its binary searches
    are scans, images are read back, and over any interleaving of updates,
    checkpoints, deltas, evictions and re-fetches the BIN keeps its records; a
    tree of any height refines a map of records through splits, drains and
    fetches.  Recovery: the analysis
    classifies every transaction by the log, the catalog settles to the
    committed names, the loop over dirty levels ends, rollback windows and
    chains answer by the log, and redo followed by undo leaves for every key
    the last write of a committed, prepared or non-transactional entry.  The
    last theorem is about logs without rollback marks and takes the trees after
    the redo of nodes, with conditions on their records that it states; what
    goes wrong for an uncommitted deletion in a checkpoint image is
    [RecoveryMap.undo_loses_drained_deletion].  Elections: an acceptor keeps its
    promises across crashes, two rounds of a term elect one master, the chosen
    value is the best candidate, a durable commit meets the next election, and
    a frozen replay thread is released in bounded time.

    ** Fuel and bounds

    The depth-first search has the number of lockers of the graph plus one as
    fuel, each call visits a new one; the loop of a release has the number of
    waiters; the loop that writes dirty buffers the number of buffers, each is
    visited once; binary searches the number of slots; readers of counted slots the
    number of bytes, a slot takes at least one; the walk along a chain of
    deltas the size of the log, a chain without a cycle is shorter; a descent
    two or three per level of the tree, whose height grows by at most one per
    operation, so that recovery, with at most four operations per entry of the
    log, needs [3 * (height + 4 * entries) + 4].  Each bound is proved to be
    enough where a theorem says that a result is produced.

    ** Not modelled

    Condition variables beyond their handles, latches and memory orderings;
    statistics, memory budgets and messages of errors; failing system calls,
    except for the writes and syncs that [Fsync] lets fail; deletion, truncation
    and memory maps of log files and the sequential readers (recovery sees a
    list of records with their LSNs, the tree a map from LSNs to entries); the
    observer through which the cleaner follows the log; sockets and TLS (the
    file of an acceptor is its bytes, a message a value); checksums, which are
    parameters; concurrent descents, scans, the compressor and the detachment of
    evicted nodes from the tree; the redo of logged nodes; the registry of
    transactions and the two-phase commit of the public interface; cursors beyond
    their locks, databases and environments ([noxu-db], [noxu-dbi]); the cleaner; replication streams;
    the bindings, collections and persistence layers.  They are thin layers over
    library or system calls, or large parts that are still to be done. *)

From stdpp Require Export prelude gmap sets list strings.

#[export] Set Warnings "-clear-no-such-hyp".

#[global] Open Scope Z_scope.
#[global] Open Scope list_scope.

(** ** Automation *)

(** The hint database of the development. *)
Create HintDb noxu.

(** Turns the boolean tests of the code into propositions, in the hypotheses
    and in the goal. *)
Ltac reflect_bools :=
  repeat match goal with
  | H : (_ =? _)%Z = true |- _ => apply Z.eqb_eq in H
  | H : (_ =? _)%Z = false |- _ => apply Z.eqb_neq in H
  | H : (_ <? _)%Z = true |- _ => apply Z.ltb_lt in H
  | H : (_ <? _)%Z = false |- _ => apply Z.ltb_ge in H
  | H : (_ <=? _)%Z = true |- _ => apply Z.leb_le in H
  | H : (_ <=? _)%Z = false |- _ => apply Z.leb_gt in H
  | H : (_ =? _)%nat = true |- _ => apply Nat.eqb_eq in H
  | H : (_ =? _)%nat = false |- _ => apply Nat.eqb_neq in H
  | H : (_ <? _)%nat = true |- _ => apply Nat.ltb_lt in H
  | H : (_ <? _)%nat = false |- _ => apply Nat.ltb_ge in H
  | H : (_ <=? _)%nat = true |- _ => apply Nat.leb_le in H
  | H : (_ <=? _)%nat = false |- _ => apply Nat.leb_gt in H
  | H : (_ && _) = true |- _ => apply andb_true_iff in H as [? ?]
  | H : (_ || _) = false |- _ => apply orb_false_iff in H as [? ?]
  | H : negb _ = true |- _ => apply negb_true_iff in H
  | H : negb _ = false |- _ => apply negb_false_iff in H
  | H : bool_decide _ = true |- _ => apply bool_decide_eq_true in H
  | H : bool_decide _ = false |- _ => apply bool_decide_eq_false in H
  end.

(** Case analysis on the innermost scrutinee of the goal. *)
Ltac split_match :=
  match goal with
  | |- context [match ?x with _ => _ end] =>
      lazymatch x with
      | context [match _ with _ => _ end] => fail
      | _ => let E := fresh "E" in destruct x eqn:E
      end
  end.

(** The same in a hypothesis. *)
Ltac split_match_in H :=
  match type of H with
  | context [match ?x with _ => _ end] =>
      lazymatch x with
      | context [match _ with _ => _ end] => fail
      | _ => let E := fresh "E" in destruct x eqn:E
      end
  end.

(** ** Results of fallible code *)

Inductive result (T E : Type) : Type :=
| Ok (t : T)
| Err (e : E).
Arguments Ok {_ _} _.
Arguments Err {_ _} _.

#[export] Instance Ok_inj {T E} : Inj (=) (=) (@Ok T E).
Proof. by intros ?? [= ->]. Qed.

(** ** Options and lists shared by the components *)

(** The contents of an [Option<T>] as a list of length at most one. *)
Definition opt_list {A} (o : option A) : list A :=
  match o with Some x => [x] | None => [] end.

(** The contents of an [Option<Vec<T>>]: an absent vector holds nothing. *)
Definition opt_vec {A} (o : option (list A)) : list A :=
  match o with Some l => l | None => [] end.

Lemma opt_list_length {A} (o : option A) :
  length (opt_list o) = match o with Some _ => 1%nat | None => 0%nat end.
Proof. by destruct o. Qed.

Lemma elem_of_opt_list {A} (o : option A) x : x ∈ opt_list o ↔ o = Some x.
Proof. destruct o; simpl; [rewrite list_elem_of_singleton | rewrite elem_of_nil]; naive_solver. Qed.

Lemma filter_id {A} (P : A → Prop) `{!∀ x, Decision (P x)} (l : list A) :
  (∀ x, x ∈ l → P x) → filter P l = l.
Proof.
  induction l as [|y l IH]; intros Hall; [done|]. rewrite filter_cons, decide_True.
  - rewrite IH; [done|]. intros x Hx. apply Hall. by right.
  - apply Hall. by left.
Qed.

Lemma filter_ext_in {A} (P Q : A → Prop) `{!∀ x, Decision (P x), !∀ x, Decision (Q x)} (l : list A) :
  (∀ x, x ∈ l → P x ↔ Q x) → filter P l = filter Q l.
Proof.
  induction l as [|y l IH]; intros Hall; [done|].
  assert (P y ↔ Q y) as Hy by (apply Hall; left).
  rewrite !filter_cons, IH by (intros x Hx; apply Hall; by right).
  destruct (decide (P y)), (decide (Q y)); naive_solver.
Qed.

Lemma filter_snoc {A} (P : A → Prop) `{!∀ x, Decision (P x)} (l : list A) x :
  filter P (l ++ [x]) = filter P l ++ (if decide (P x) then [x] else []).
Proof. by rewrite filter_app, filter_cons, filter_nil. Qed.

(** ** Runs of operations *)

Section runs.
Context {Op Out : Type}.

(** A sequence of operations, with its outputs; [None] when one is refused. *)
Fixpoint run_steps {S} (step : S → Op → option (S * Out)) (s : S) (ops : list Op)
    : option (S * list Out) :=
  match ops with
  | [] => Some (s, [])
  | op :: ops' =>
      '(s1, out) ← step s op; '(s2, outs) ← run_steps step s1 ops'; Some (s2, out :: outs)
  end.

(** A simulation of single operations is one of sequences. *)
Lemma run_steps_refine {S A} (R : S → A → Prop)
    (step : S → Op → option (S * Out)) (astep : A → Op → option (A * Out)) :
  (∀ s a op a' out, R s a → astep a op = Some (a', out) →
     ∃ s', step s op = Some (s', out) ∧ R s' a') →
  ∀ ops s a a' outs, R s a → run_steps astep a ops = Some (a', outs) →
  ∃ s', run_steps step s ops = Some (s', outs) ∧ R s' a'.
Proof.
  intros Hstep. induction ops as [|op ops IH]; intros s a a' outs HR Hs; simpl in *.
  { injection Hs as <- <-. by exists s. }
  destruct (astep a op) as [[a1 out]|] eqn:H1; [|done]. simpl in Hs.
  destruct (run_steps astep a1 ops) as [[a2 outs2]|] eqn:H2; [|done]. simpl in Hs.
  injection Hs as <- <-.
  destruct (Hstep _ _ _ _ _ HR H1) as (s1 & -> & HR1). simpl.
  destruct (IH _ _ _ _ HR1 H2) as (s2 & -> & HR2). by exists s2.
Qed.

Lemma run_steps_snoc {S} (step : S → Op → option (S * Out)) ops op : ∀ s s1 s2 outs out,
  run_steps step s ops = Some (s1, outs) → step s1 op = Some (s2, out) →
  run_steps step s (ops ++ [op]) = Some (s2, outs ++ [out]).
Proof.
  induction ops as [|op' ops IH]; intros s s1 s2 outs out Hr Hs; simpl in *.
  { injection Hr as <- <-. by rewrite Hs. }
  destruct (step s op') as [[s' o']|]; [|done]. simpl in *.
  destruct (run_steps step s' ops) as [[s'' os]|] eqn:E; [|done]. injection Hr as <- <-.
  by rewrite (IH _ _ _ _ _ E Hs).
Qed.
End runs.
