(* ===== verification/LockType.v ===== *)
(** * Lock types of the transaction layer (noxu-txn)

    [lock_type.rs], [lock_conflict.rs], [lock_upgrade.rs] and
    [lock_grant_type.rs]: the lock modes, the conflict and the upgrade
    matrices, and the algebraic facts about the two matrices on which the
    mutual exclusion of the lock table rests. *)

From S2P Require Import Prelude.

(** ** Data *)

Inductive LockType :=
| Read | Write | RangeRead | RangeWrite | RangeInsert | NoLock | RestartLock.

Inductive LockConflict := Allow | Block | RestartConflict.

Inductive LockUpgrade :=
| Illegal | ExistingUpgrade | WritePromote | RangeReadImmed | RangeWriteImmed
| RangeWritePromote.

Inductive LockGrantType :=
| New | WaitNew | Promotion | WaitPromotion | Existing | Denied | WaitRestart
| NoneNeeded | IllegalUpgrade.

#[export] Instance LockType_eq_dec : EqDecision LockType.
Proof. solve_decision. Defined.
#[export] Instance LockConflict_eq_dec : EqDecision LockConflict.
Proof. solve_decision. Defined.
#[export] Instance LockUpgrade_eq_dec : EqDecision LockUpgrade.
Proof. solve_decision. Defined.
#[export] Instance LockGrantType_eq_dec : EqDecision LockGrantType.
Proof. solve_decision. Defined.

(** ** Operations *)

Definition is_write_lock (t : LockType) : bool :=
  match t with Write | RangeWrite => true | _ => false end.

Definition causes_restart (t : LockType) : bool :=
  match t with RangeRead | RangeWrite => true | _ => false end.

(** The conflict matrix: the first argument is held, the second requested. *)
Definition get_conflict (held requested : LockType) : LockConflict :=
  match held, requested with
  | Read, Read => Allow
  | Read, Write => Block
  | Read, RangeRead => Allow
  | Read, RangeWrite => Block
  | Read, RangeInsert => Allow
  | Write, Read => Block
  | Write, Write => Block
  | Write, RangeRead => Block
  | Write, RangeWrite => Block
  | Write, RangeInsert => Allow
  | RangeRead, Read => Allow
  | RangeRead, Write => Block
  | RangeRead, RangeRead => Allow
  | RangeRead, RangeWrite => Block
  | RangeRead, RangeInsert => Block
  | RangeWrite, Read => Block
  | RangeWrite, Write => Block
  | RangeWrite, RangeRead => Block
  | RangeWrite, RangeWrite => Block
  | RangeWrite, RangeInsert => Block
  | RangeInsert, Read => Allow
  | RangeInsert, Write => Allow
  | RangeInsert, RangeRead => RestartConflict
  | RangeInsert, RangeWrite => RestartConflict
  | RangeInsert, RangeInsert => Allow
  | _, _ => Allow
  end.

(** The upgrade matrix: what a locker that holds [held] needs in order to be
    granted [requested] as well. *)
Definition get_upgrade (held requested : LockType) : LockUpgrade :=
  match held, requested with
  | Read, Read => ExistingUpgrade
  | Read, Write => WritePromote
  | Read, RangeRead => RangeReadImmed
  | Read, RangeWrite => RangeWritePromote
  | Read, RangeInsert => Illegal
  | Write, Read => ExistingUpgrade
  | Write, Write => ExistingUpgrade
  | Write, RangeRead => RangeWriteImmed
  | Write, RangeWrite => RangeWriteImmed
  | Write, RangeInsert => Illegal
  | RangeRead, Read => ExistingUpgrade
  | RangeRead, Write => RangeWritePromote
  | RangeRead, RangeRead => ExistingUpgrade
  | RangeRead, RangeWrite => RangeWritePromote
  | RangeRead, RangeInsert => Illegal
  | RangeWrite, Read => ExistingUpgrade
  | RangeWrite, Write => ExistingUpgrade
  | RangeWrite, RangeRead => ExistingUpgrade
  | RangeWrite, RangeWrite => ExistingUpgrade
  | RangeWrite, RangeInsert => Illegal
  | RangeInsert, Read => Illegal
  | RangeInsert, Write => Illegal
  | RangeInsert, RangeRead => Illegal
  | RangeInsert, RangeWrite => Illegal
  | RangeInsert, RangeInsert => ExistingUpgrade
  | NoLock, _ => Illegal
  | _, NoLock => ExistingUpgrade
  | RestartLock, _ => Illegal
  | _, RestartLock => Illegal
  end.

Definition lock_type_index (t : LockType) : nat :=
  match t with
  | Read => 0 | Write => 1 | RangeRead => 2 | RangeWrite => 3
  | RangeInsert => 4 | NoLock => 5 | RestartLock => 6
  end.

Definition is_illegal (u : LockUpgrade) : bool :=
  match u with Illegal => true | _ => false end.

Definition get_upgrade_type (u : LockUpgrade) : option LockType :=
  match u with
  | ExistingUpgrade | Illegal => None
  | WritePromote => Some Write
  | RangeReadImmed => Some RangeRead
  | RangeWriteImmed | RangeWritePromote => Some RangeWrite
  end.

Definition is_promotion (u : LockUpgrade) : bool :=
  match u with WritePromote | RangeWritePromote => true | _ => false end.

(** [LockGrantType::is_granted], which is also the [success] field that
    [LockAttemptResult::new] computes. *)
Definition is_granted (g : LockGrantType) : bool :=
  match g with New | Promotion | Existing => true | _ => false end.

Definition must_wait (g : LockGrantType) : bool :=
  match g with WaitNew | WaitPromotion | WaitRestart => true | _ => false end.

(** ** The order of lock strength

    [covers a b]: everything that is refused while a lock of type [b] is held
    is also refused while a lock of type [a] is held, and a locker that holds
    [a] needs no upgrade to use [b]. *)

Definition covers (a b : LockType) : Prop :=
  get_upgrade a b = ExistingUpgrade.

(** The types that name an actual lock. *)
Definition real_type (t : LockType) : bool :=
  match t with NoLock | RestartLock => false | _ => true end.

(** ** Facts about the matrices *)

(** Whether two locks can be held together does not depend on which of the
    two is held and which is requested. *)
Lemma get_conflict_allow_sym a b :
  get_conflict a b = Allow ↔ get_conflict b a = Allow.
Proof. destruct a, b; simpl; split; congruence. Qed.

(** The type a locker ends up with after an upgrade is compatible with every
    other owner, given that the old type was and that the request met no
    conflict; the upgraded type can be stronger than the requested one. *)
Lemma upgrade_keeps_compatible held requested upgraded other :
  get_upgrade_type (get_upgrade held requested) = Some upgraded →
  get_conflict held other = Allow →
  get_conflict other requested = Allow →
  get_conflict upgraded other = Allow.
Proof. destruct held, requested; intros [= <-]; destruct other; simpl; congruence. Qed.

(** The upgraded type serves both the old use of the lock and the new one. *)
Lemma upgrade_covers held requested upgraded :
  get_upgrade_type (get_upgrade held requested) = Some upgraded →
  covers upgraded held ∧ covers upgraded requested.
Proof. destruct held, requested; simpl; intros [=<-]; by split. Qed.

Lemma covers_conflict a b other :
  real_type a = true → real_type b = true →
  covers a b → get_conflict a other = Allow → get_conflict b other = Allow.
Proof. destruct a, b, other; unfold covers; simpl; congruence. Qed.

(** Demotion of a write lock leaves a weaker lock. *)
Lemma demote_keeps_compatible t other :
  is_write_lock t = true →
  get_conflict t other = Allow →
  get_conflict (if decide (t = RangeWrite) then RangeRead else Read) other = Allow.
Proof. destruct t, other; simpl; congruence. Qed.

Lemma covers_trans a b c : covers a b → covers b c → covers a c.
Proof. unfold covers; destruct a, b, c; simpl; congruence. Qed.

Lemma covers_refl t : real_type t = true → covers t t.
Proof. by destruct t. Qed.

(** Locks on the record itself (and not on the gap before it). *)
Definition record_lock (t : LockType) : bool :=
  match t with Read | Write | RangeRead | RangeWrite => true | _ => false end.

Lemma write_excludes_record t1 t2 :
  is_write_lock t1 = true → record_lock t2 = true → get_conflict t1 t2 ≠ Allow.
Proof. by destruct t1, t2. Qed.
