(* ===== verification/LockImpl.v ===== *)
(** * The full lock: owners, waiters, grant and release (noxu-txn)

    [lock_info.rs], [lock_attempt_result.rs] and [lock_impl.rs].  A [LockImpl]
    keeps its first owner and its first waiter in dedicated slots and the
    others in optional vectors; the slots can be empty while the vectors are
    not.  The operations are translated on that representation; the theorems
    are stated on the owner list and the waiter queue it stands for.

    The condition variable of a blocked thread ([WaiterNotify]) is a handle: a
    release returns the handles whose granted flag it sets. *)

From S2P Require Import Prelude LockType.

Record LockInfo := mkLockInfo {
  locker_id : Z;
  lock_type : LockType;
  notify : option nat
}.

#[export] Instance LockInfo_eq_dec : EqDecision LockInfo.
Proof. solve_decision. Defined.

Definition LockInfo_new (id : Z) (t : LockType) : LockInfo := mkLockInfo id t None.

(** Assignments [owner.lock_type = t] and [waiter.notify = Some(n)]. *)
Definition set_type (t : LockType) (o : LockInfo) : LockInfo :=
  mkLockInfo (locker_id o) t (notify o).
Definition set_notify (n : nat) (o : LockInfo) : LockInfo :=
  mkLockInfo (locker_id o) (lock_type o) (Some n).

Record LockAttemptResult := mkAttempt {
  success : bool;
  lock_grant : LockGrantType;
  grant_type : LockGrantType
}.

Definition LockAttemptResult_new (g : LockGrantType) : LockAttemptResult :=
  mkAttempt (is_granted g) g g.

Record LockImpl := mkLockImpl {
  first_owner : option LockInfo;
  owner_set : option (list LockInfo);
  first_waiter : option LockInfo;
  waiter_list : option (list LockInfo)
}.

Definition LockImpl_new : LockImpl := mkLockImpl None None None None.

Definition from_first_owner (o : LockInfo) : LockImpl :=
  mkLockImpl (Some o) None None None.

(** Field assignments. *)
Definition with_first_owner (s : LockImpl) o :=
  mkLockImpl o (owner_set s) (first_waiter s) (waiter_list s).
Definition with_owner_set (s : LockImpl) os :=
  mkLockImpl (first_owner s) os (first_waiter s) (waiter_list s).
Definition with_first_waiter (s : LockImpl) w :=
  mkLockImpl (first_owner s) (owner_set s) w (waiter_list s).
Definition with_waiter_list (s : LockImpl) ws :=
  mkLockImpl (first_owner s) (owner_set s) (first_waiter s) ws.

(** [get_owners_clone] and [get_waiters_clone]. *)
Definition owners (s : LockImpl) : list LockInfo :=
  opt_list (first_owner s) ++ opt_vec (owner_set s).
Definition waiters (s : LockImpl) : list LockInfo :=
  opt_list (first_waiter s) ++ opt_vec (waiter_list s).

Definition n_owners (s : LockImpl) : nat :=
  (match first_owner s with Some _ => 1 | None => 0 end
   + match owner_set s with Some l => length l | None => 0 end)%nat.
Definition n_waiters (s : LockImpl) : nat :=
  (match first_waiter s with Some _ => 1 | None => 0 end
   + match waiter_list s with Some l => length l | None => 0 end)%nat.

(** ** Private helpers *)

Definition add_waiter_to_end_of_list (s : LockImpl) (w : LockInfo) : LockImpl :=
  match waiter_list s with
  | Some l => with_waiter_list s (Some (l ++ [w]))
  | None =>
      match first_waiter s with
      | None => with_first_waiter s (Some w)
      | Some _ => with_waiter_list s (Some [w])
      end
  end.

Definition add_waiter_to_head_of_list (s : LockImpl) (w : LockInfo) : LockImpl :=
  let s' :=
    match first_waiter s with
    | Some cur =>
        with_waiter_list (with_first_waiter s None)
          (Some (cur :: opt_vec (waiter_list s)))
    | None => s
    end in
  with_first_waiter s' (Some w).

Definition add_owner (s : LockImpl) (o : LockInfo) : LockImpl :=
  match first_owner s with
  | None => with_first_owner s (Some o)
  | Some _ => with_owner_set s (Some (opt_vec (owner_set s) ++ [o]))
  end.

(** [set.remove(pos)] at the first position that satisfies the test. *)
Fixpoint remove_first (id : Z) (l : list LockInfo) : option (LockInfo * list LockInfo) :=
  match l with
  | [] => None
  | o :: l' =>
      if decide (locker_id o = id) then Some (o, l')
      else match remove_first id l' with
           | Some (x, r) => Some (x, o :: r)
           | None => None
           end
  end.

Definition flush_owner (s : LockImpl) (id : Z) : LockImpl * option LockInfo :=
  match first_owner s with
  | Some o =>
      if decide (locker_id o = id) then (with_first_owner s None, Some o)
      else match owner_set s with
           | Some l => match remove_first id l with
                       | Some (x, r) => (with_owner_set s (Some r), Some x)
                       | None => (s, None)
                       end
           | None => (s, None)
           end
  | None =>
      match owner_set s with
      | Some l => match remove_first id l with
                  | Some (x, r) => (with_owner_set s (Some r), Some x)
                  | None => (s, None)
                  end
      | None => (s, None)
      end
  end.

(** [iter().find(|o| o.locker_id == id)] *)
Definition find_locker (id : Z) (l : list LockInfo) : option LockInfo :=
  snd <$> list_find (λ o, locker_id o = id) l.

Definition get_owner_lock_info (s : LockImpl) (id : Z) : option LockInfo :=
  match first_owner s with
  | Some o =>
      if decide (locker_id o = id) then Some o
      else match owner_set s with Some l => find_locker id l | None => None end
  | None => match owner_set s with Some l => find_locker id l | None => None end
  end.

(** [iter_mut().find(..)] followed by the assignment of the type. *)
Fixpoint update_first (id : Z) (t : LockType) (l : list LockInfo) : list LockInfo :=
  match l with
  | [] => []
  | o :: l' =>
      if decide (locker_id o = id) then set_type t o :: l'
      else o :: update_first id t l'
  end.

Definition update_owner_type (s : LockImpl) (id : Z) (t : LockType) : LockImpl :=
  match first_owner s with
  | Some o =>
      if decide (locker_id o = id) then with_first_owner s (Some (set_type t o))
      else with_owner_set s (update_first id t <$> owner_set s)
  | None => with_owner_set s (update_first id t <$> owner_set s)
  end.

(** ** Granting *)

(** What the loop over the current owners finds: an early return, or the
    upgrade the requester needs and whether other owners exist and block. *)
Inductive scan_result :=
| ScanReturn (g : LockGrantType)
| ScanDone (upgrade : option LockUpgrade) (owner_exists owner_conflicts : bool).

(** The loop of [try_lock_with_sharing]: first the slot [first_owner] (skipped
    when empty), then the entries of [owner_set]. *)
Fixpoint scan_owners (os : list LockInfo) (id : Z) (request : LockType)
    (shares : Z → bool) (upgrade : option LockUpgrade)
    (owner_exists owner_conflicts : bool) : scan_result :=
  match os with
  | [] => ScanDone upgrade owner_exists owner_conflicts
  | o :: os' =>
      if decide (id = locker_id o) then
        let upg := get_upgrade (lock_type o) request in
        if is_illegal upg then ScanReturn IllegalUpgrade
        else match get_upgrade_type upg with
             | None => ScanReturn Existing
             | Some _ =>
                 scan_owners os' id request shares (Some upg) owner_exists
                   owner_conflicts
             end
      else if shares (locker_id o) then
        scan_owners os' id request shares upgrade owner_exists owner_conflicts
      else
        match get_conflict (lock_type o) request with
        | RestartConflict => ScanReturn WaitRestart
        | Block => scan_owners os' id request shares upgrade true true
        | Allow => scan_owners os' id request shares upgrade true owner_conflicts
        end
  end.

Definition try_lock_with_sharing (s : LockImpl) (new_lock : LockInfo)
    (first_waiter_in_line : bool) (shares : Z → bool) : LockImpl * LockGrantType :=
  if decide (n_owners s = 0%nat) then (add_owner s new_lock, New)
  else
    let id := locker_id new_lock in
    match scan_owners (owners s) id (lock_type new_lock) shares None false false with
    | ScanReturn g => (s, g)
    | ScanDone (Some upg) _ owner_conflicts =>
        if is_illegal upg then (s, IllegalUpgrade)
        else match get_upgrade_type upg with
             | None => (s, Existing)
             | Some upgrade_type =>
                 if owner_conflicts then (s, WaitPromotion)
                 else (update_owner_type s id upgrade_type,
                       if is_promotion upg then Promotion else Existing)
             end
    | ScanDone None owner_exists owner_conflicts =>
        if negb owner_conflicts && (negb owner_exists || first_waiter_in_line)
        then (add_owner s new_lock, New)
        else (s, WaitNew)
    end.

Definition try_lock (s : LockImpl) (new_lock : LockInfo)
    (first_waiter_in_line : bool) : LockImpl * LockGrantType :=
  try_lock_with_sharing s new_lock first_waiter_in_line (λ _, false).

(** The waiters the restart scan of [lock_with_sharing] visits: its loop ends
    at the first empty slot, and the slot of index 0 is [first_waiter]. *)
Definition scanned_waiters (s : LockImpl) : list LockInfo :=
  match first_waiter s with
  | Some w => w :: opt_vec (waiter_list s)
  | None => []
  end.

Definition waiter_restart_conflict (s : LockImpl) (request : LockType) (id : Z)
    (shares : Z → bool) : bool :=
  existsb (λ w,
    negb (bool_decide (lock_type w = RestartLock))
    && negb (bool_decide (id = locker_id w))
    && negb (shares (locker_id w))
    && bool_decide (get_conflict (lock_type w) request = RestartConflict))
    (scanned_waiters s).

Definition lock_with_sharing (s : LockImpl) (request : LockType) (id : Z)
    (non_blocking jump_ahead_of_waiters : bool) (shares : Z → bool)
    : LockImpl * LockAttemptResult :=
  let new_lock := LockInfo_new id request in
  let '(s1, grant) :=
    try_lock_with_sharing s new_lock
      (jump_ahead_of_waiters || (n_waiters s =? 0)%nat) shares in
  if must_wait grant then
    let grant :=
      if causes_restart request && negb (bool_decide (grant = WaitRestart))
         && waiter_restart_conflict s1 request id shares
      then WaitRestart else grant in
    if non_blocking then (s1, LockAttemptResult_new Denied)
    else if decide (grant = WaitPromotion) then
      (add_waiter_to_head_of_list s1 new_lock, LockAttemptResult_new grant)
    else
      let waiter := if decide (grant = WaitRestart) then set_type RestartLock new_lock
                    else new_lock in
      (add_waiter_to_end_of_list s1 waiter, LockAttemptResult_new grant)
  else (s1, LockAttemptResult_new grant).

Definition lock (s : LockImpl) (request : LockType) (id : Z)
    (non_blocking jump_ahead_of_waiters : bool) : LockImpl * LockAttemptResult :=
  lock_with_sharing s request id non_blocking jump_ahead_of_waiters (λ _, false).

(** ** Releasing *)

(** The owners the loop of [range_insert_conflict_with_sharing] visits: like
    the restart scan, it ends at an empty [first_owner] slot. *)
Definition scanned_owners (s : LockImpl) : list LockInfo :=
  match first_owner s with
  | Some o => o :: opt_vec (owner_set s)
  | None => []
  end.

Definition range_insert_conflict_with_sharing (s : LockImpl) (waiter_locker : Z)
    (shares : Z → bool) : bool :=
  existsb (λ o,
    negb (bool_decide (locker_id o = waiter_locker))
    && negb (shares (locker_id o))
    && bool_decide (lock_type o = RangeInsert))
    (scanned_owners s).

(** The slot the index of the release loop designates, and the index after
    the skip over an empty [first_waiter]. *)
Definition release_slot (s : LockImpl) (idx : nat) : nat * option LockInfo :=
  match idx with
  | O => match first_waiter s with
         | Some w => (0%nat, Some w)
         | None => (1%nat, opt_vec (waiter_list s) !! 0%nat)
         end
  | S i => (idx, opt_vec (waiter_list s) !! i)
  end.

Definition remove_waiter_at (s : LockImpl) (idx : nat) : LockImpl :=
  match idx with
  | O => with_first_waiter s None
  | S i => with_waiter_list s ((λ l, delete i l) <$> waiter_list s)
  end.

(** The grant a queued request gets when its turn comes: a restart request
    never becomes an owner, it only waits for the insertions to end. *)
Definition wake_waiter (s : LockImpl) (w : LockInfo) (shares : Z → bool)
    : LockImpl * LockGrantType :=
  if decide (lock_type w = RestartLock) then
    (s, if range_insert_conflict_with_sharing s (locker_id w) shares
        then WaitNew else New)
  else try_lock s w true.

(** One iteration per unit of fuel; [None] when the fuel is exhausted. *)
Fixpoint release_loop (fuel : nat) (s : LockImpl) (idx : nat) (shares : Z → bool)
    (notify_set : list Z) (signalled : list nat)
    : option (LockImpl * list Z * list nat) :=
  match fuel with
  | O => None
  | S fuel' =>
      let '(idx, waiter) := release_slot s idx in
      match waiter with
      | None => Some (s, notify_set, signalled)
      | Some w =>
          let '(s', grant) := wake_waiter s w shares in
          if is_granted grant then
            release_loop fuel' (remove_waiter_at s' idx) idx shares
              (notify_set ++ [locker_id w])
              (signalled ++ opt_list (notify w))
          else Some (s', notify_set, signalled)
      end
  end.

(** Every iteration but the last removes a waiter: the number of waiters plus
    one is enough fuel. *)
Definition release_with_sharing (s : LockImpl) (id : Z) (shares : Z → bool)
    : LockImpl * option (list Z * list nat) :=
  let '(s1, removed) := flush_owner s id in
  match removed with
  | None => (s1, None)
  | Some _ =>
      if (n_waiters s1 =? 0)%nat then (s1, Some ([], []))
      else match release_loop (S (n_waiters s1)) s1 0 shares [] [] with
           | Some (s2, ids, sig) => (s2, Some (ids, sig))
           | None => (s1, None)
           end
  end.

Definition release (s : LockImpl) (id : Z) : LockImpl * option (list Z * list nat) :=
  release_with_sharing s id (λ _, false).

(** ** The other operations *)

Definition demote (s : LockImpl) (id : Z) : LockImpl :=
  match get_owner_lock_info s id with
  | Some o =>
      if is_write_lock (lock_type o) then
        update_owner_type s id
          (if decide (lock_type o = RangeWrite) then RangeRead else Read)
      else s
  | None => s
  end.

Definition preempts (id : Z) (preemptable : Z → bool) (o : LockInfo) : bool :=
  negb (bool_decide (locker_id o = id)) && preemptable (locker_id o).

Definition steal_lock_preemptable (s : LockImpl) (id : Z) (preemptable : Z → bool)
    : LockImpl * list Z :=
  let '(s1, p1) :=
    match first_owner s with
    | Some o => if preempts id preemptable o then (with_first_owner s None, [locker_id o])
                else (s, [])
    | None => (s, [])
    end in
  match owner_set s1 with
  | Some l =>
      (with_owner_set s1 (Some (filter (λ o, preempts id preemptable o = false) l)),
       p1 ++ (locker_id <$> filter (λ o, preempts id preemptable o = true) l))
  | None => (s1, p1)
  end.

Definition steal_lock (s : LockImpl) (id : Z) : LockImpl * list Z :=
  steal_lock_preemptable s id (λ _, true).

Definition flush_waiter (s : LockImpl) (id : Z) : LockImpl :=
  match first_waiter s with
  | Some w =>
      if decide (locker_id w = id) then with_first_waiter s None
      else with_waiter_list s (filter (λ w, locker_id w ≠ id) <$> waiter_list s)
  | None => with_waiter_list s (filter (λ w, locker_id w ≠ id) <$> waiter_list s)
  end.

Fixpoint notify_first (id : Z) (n : nat) (l : list LockInfo) : list LockInfo :=
  match l with
  | [] => []
  | w :: l' => if decide (locker_id w = id) then set_notify n w :: l'
               else w :: notify_first id n l'
  end.

Definition set_waiter_notify (s : LockImpl) (id : Z) (n : nat) : LockImpl :=
  match first_waiter s with
  | Some w =>
      if decide (locker_id w = id) then with_first_waiter s (Some (set_notify n w))
      else with_waiter_list s (notify_first id n <$> waiter_list s)
  | None => with_waiter_list s (notify_first id n <$> waiter_list s)
  end.

Definition is_owner (s : LockImpl) (id : Z) (t : LockType) : bool :=
  match get_owner_lock_info s id with
  | Some o => bool_decide (lock_type o = t)
  | None => false
  end.

Definition is_owned_write_lock (s : LockImpl) (id : Z) : bool :=
  match get_owner_lock_info s id with
  | Some o => is_write_lock (lock_type o)
  | None => false
  end.

Definition get_owned_lock_type (s : LockImpl) (id : Z) : option LockType :=
  lock_type <$> get_owner_lock_info s id.

Definition is_waiter (s : LockImpl) (id : Z) : bool :=
  match first_waiter s with
  | Some w =>
      if decide (locker_id w = id) then true
      else existsb (λ w, bool_decide (locker_id w = id)) (opt_vec (waiter_list s))
  | None => existsb (λ w, bool_decide (locker_id w = id)) (opt_vec (waiter_list s))
  end.

Definition get_write_owner_locker_id (s : LockImpl) : option Z :=
  match first_owner s with
  | Some o =>
      if is_write_lock (lock_type o) then Some (locker_id o)
      else match owner_set s with
           | Some l => locker_id ∘ snd <$> list_find (λ o, is_write_lock (lock_type o) = true) l
           | None => None
           end
  | None =>
      match owner_set s with
      | Some l => locker_id ∘ snd <$> list_find (λ o, is_write_lock (lock_type o) = true) l
      | None => None
      end
  end.

(** * Theorems *)

(** ** The slots and vectors as lists *)

Lemma n_owners_length s : n_owners s = length (owners s).
Proof. unfold n_owners, owners. rewrite length_app. by destruct (first_owner s), (owner_set s). Qed.

Lemma n_waiters_length s : n_waiters s = length (waiters s).
Proof. unfold n_waiters, waiters. rewrite length_app. by destruct (first_waiter s), (waiter_list s). Qed.

Lemma waiters_add_end s w :
  waiters (add_waiter_to_end_of_list s w) = waiters s ++ [w].
Proof.
  unfold add_waiter_to_end_of_list, waiters.
  destruct s as [fo os [fw|] [wl|]]; simpl; by rewrite ?app_nil_r.
Qed.

Lemma waiters_add_head s w :
  waiters (add_waiter_to_head_of_list s w) = w :: waiters s.
Proof. by destruct s as [fo os [fw|] [wl|]]. Qed.

Lemma owners_add_end s w : owners (add_waiter_to_end_of_list s w) = owners s.
Proof. by destruct s as [fo os [fw|] [wl|]]. Qed.

Lemma owners_add_head s w : owners (add_waiter_to_head_of_list s w) = owners s.
Proof. by destruct s as [fo os [fw|] [wl|]]. Qed.

Lemma owners_add_owner s o : owners (add_owner s o) ≡ₚ o :: owners s.
Proof.
  destruct s as [[fo|] os fw wl]; unfold owners; simpl; [|done].
  rewrite (Permutation_app_comm _ [o]); simpl. apply Permutation_swap.
Qed.

Lemma waiters_add_owner s o : waiters (add_owner s o) = waiters s.
Proof. by destruct s as [[fo|] os fw wl]. Qed.

Lemma owners_update_owner_type s id t :
  owners (update_owner_type s id t) = update_first id t (owners s).
Proof.
  destruct s as [[fo|] [os|] fw wl]; unfold owners, update_owner_type; simpl;
    try case_decide; done.
Qed.

Lemma waiters_update_owner_type s id t : waiters (update_owner_type s id t) = waiters s.
Proof. destruct s as [[fo|] os fw wl]; unfold update_owner_type; simpl; try case_decide; done. Qed.

Create Rewrite HintDb lock_repr.
#[export] Hint Rewrite waiters_add_end waiters_add_head owners_add_end owners_add_head
  waiters_add_owner waiters_update_owner_type owners_update_owner_type : lock_repr.

Lemma remove_first_Some id l o r :
  remove_first id l = Some (o, r) → locker_id o = id ∧ l ≡ₚ o :: r.
Proof.
  revert r; induction l as [|x l IH]; intros r H; simplify_eq/=.
  case_decide; simplify_eq/=; [done|].
  destruct (remove_first id l) as [[y r']|] eqn:E; simplify_eq/=.
  destruct (IH r' eq_refl) as [? Hp]; split; [done|].
  rewrite Hp. by rewrite Permutation_swap.
Qed.

Lemma remove_first_None id l :
  remove_first id l = None ↔ id ∉ (locker_id <$> l).
Proof.
  induction l as [|x l IH]; simpl; [set_solver|].
  case_decide; [set_solver|].
  destruct (remove_first id l) as [[y r]|]; set_solver.
Qed.

Lemma flush_owner_spec s id :
  match flush_owner s id with
  | (s', Some o) => locker_id o = id ∧ owners s ≡ₚ o :: owners s'
  | (s', None) => s' = s ∧ id ∉ (locker_id <$> owners s)
  end ∧ waiters (flush_owner s id).1 = waiters s.
Proof.
  pose proof (remove_first_None id (opt_vec (owner_set s))) as HN.
  destruct s as [[fo|] [os|] fw wl]; unfold flush_owner, owners in *; simpl in *;
    try case_decide; simplify_eq/=;
    try (destruct (remove_first id os) as [[x r]|] eqn:E; simpl);
    split; try done; try (split; [done|]); try set_solver.
  - apply remove_first_Some in E as [? ->]. split; [done|]. apply Permutation_swap.
  - by apply remove_first_Some in E.
Qed.

Lemma find_locker_cons id x l :
  find_locker id (x :: l) = if decide (locker_id x = id) then Some x else find_locker id l.
Proof.
  unfold find_locker; simpl. case_decide; [done|].
  by destruct (list_find _ l) as [[]|].
Qed.

Lemma get_owner_lock_info_find s id :
  get_owner_lock_info s id = find_locker id (owners s).
Proof.
  unfold get_owner_lock_info, owners.
  destruct s as [[fo|] [os|] fw wl]; simpl; rewrite ?find_locker_cons; done.
Qed.

Lemma find_locker_Some id l o :
  find_locker id l = Some o → o ∈ l ∧ locker_id o = id.
Proof.
  induction l as [|x l IH]; [done|].
  rewrite find_locker_cons. case_decide; intros H'; simplify_eq; set_solver.
Qed.

Lemma find_locker_elem id l o :
  NoDup (locker_id <$> l) → o ∈ l → locker_id o = id → find_locker id l = Some o.
Proof.
  induction l as [|x l IH]; [set_solver|].
  intros Hnd Hin Hid. rewrite find_locker_cons. csimpl in Hnd.
  apply NoDup_cons in Hnd as [Hx Hnd].
  apply elem_of_cons in Hin as [->|Hin]; [by rewrite decide_True|].
  rewrite decide_False; [by apply IH|].
  intros <-. apply Hx, list_elem_of_fmap. eauto.
Qed.

Lemma find_locker_None id l : find_locker id l = None ↔ id ∉ (locker_id <$> l).
Proof.
  induction l as [|x l IH]; [set_solver|].
  rewrite find_locker_cons; simpl. case_decide; set_solver.
Qed.

Lemma update_first_ids id t l : locker_id <$> update_first id t l = locker_id <$> l.
Proof. induction l as [|x l IH]; simpl; [done|]. case_decide; csimpl; congruence. Qed.

(** On a list without repeated lockers the first match is the only one. *)
Lemma elem_of_update_first id t l o :
  NoDup (locker_id <$> l) →
  o ∈ update_first id t l ↔
  (o ∈ l ∧ locker_id o ≠ id) ∨ (∃ o', o' ∈ l ∧ locker_id o' = id ∧ o = set_type t o').
Proof.
  induction l as [|x l IH]; [set_solver|].
  intros [Hx Hnd]%NoDup_cons; simpl. case_decide as Hid.
  - assert (∀ o', o' ∈ l → locker_id o' ≠ id).
    { intros o' Ho' <-. apply Hx. rewrite Hid. apply list_elem_of_fmap. eauto. }
    set_solver.
  - set_solver.
Qed.

(** ** What the scan of the owners finds *)

(** An owner the requester competes with. *)
Definition foreign (id : Z) (shares : Z → bool) (o : LockInfo) : Prop :=
  locker_id o ≠ id ∧ shares (locker_id o) = false.

#[export] Instance foreign_dec id shares o : Decision (foreign id shares o).
Proof. unfold foreign. apply _. Defined.

(** The result of the scan, read off the owner list. *)
Definition scan_post (os : list LockInfo) (id : Z) (request : LockType)
    (shares : Z → bool) (upg0 : option LockUpgrade) (oe0 oc0 : bool)
    (r : scan_result) : Prop :=
  match r with
  | ScanReturn IllegalUpgrade =>
      ∃ o, o ∈ os ∧ locker_id o = id ∧ get_upgrade (lock_type o) request = Illegal
  | ScanReturn Existing =>
      ∃ o, o ∈ os ∧ locker_id o = id ∧ covers (lock_type o) request
  | ScanReturn WaitRestart =>
      ∃ o, o ∈ os ∧ foreign id shares o ∧
           get_conflict (lock_type o) request = RestartConflict
  | ScanReturn _ => False
  | ScanDone upg oe oc =>
      (∀ o, o ∈ os → foreign id shares o →
            get_conflict (lock_type o) request ≠ RestartConflict) ∧
      (oc = true ↔ oc0 = true ∨
         ∃ o, o ∈ os ∧ foreign id shares o ∧ get_conflict (lock_type o) request = Block) ∧
      (oe = true ↔ oe0 = true ∨ ∃ o, o ∈ os ∧ foreign id shares o) ∧
      ((upg = upg0 ∧ ∀ o, o ∈ os → locker_id o ≠ id) ∨
       (∃ o t, o ∈ os ∧ locker_id o = id ∧
               upg = Some (get_upgrade (lock_type o) request) ∧
               get_upgrade_type (get_upgrade (lock_type o) request) = Some t))
  end.

Lemma get_upgrade_type_None u :
  get_upgrade_type u = None → is_illegal u = false → u = ExistingUpgrade.
Proof. by destruct u. Qed.

(** The early returns are witnessed by an owner of the tail. *)
Lemma scan_post_weaken o os id request shares upg0 oe0 oc0 upg1 oe1 oc1 g :
  scan_post os id request shares upg0 oe0 oc0 (ScanReturn g) →
  scan_post (o :: os) id request shares upg1 oe1 oc1 (ScanReturn g).
Proof. destruct g; simpl; try done; setoid_rewrite elem_of_cons; naive_solver. Qed.

(** A step over the requester's own entry. *)
Lemma scan_post_own o os id request shares upg0 oe0 oc0 t r :
  locker_id o = id →
  get_upgrade_type (get_upgrade (lock_type o) request) = Some t →
  scan_post os id request shares (Some (get_upgrade (lock_type o) request)) oe0 oc0 r →
  scan_post (o :: os) id request shares upg0 oe0 oc0 r.
Proof.
  intros Hid Ht H. destruct r as [g|upg oe oc]; [by eapply scan_post_weaken|].
  destruct H as (HR & HB & HE & HU). simpl. setoid_rewrite elem_of_cons.
  assert (∀ P : LockInfo → Prop,
    (∃ o', (o' = o ∨ o' ∈ os) ∧ foreign id shares o' ∧ P o') ↔
    (∃ o', o' ∈ os ∧ foreign id shares o' ∧ P o')) as Hskip.
  { intros P. split; intros (o' & Ho' & Hf & HP); exists o'; [|by eauto].
    destruct Ho' as [->|?]; [by destruct Hf|done]. }
  assert ((∃ o', (o' = o ∨ o' ∈ os) ∧ foreign id shares o') ↔
          (∃ o', o' ∈ os ∧ foreign id shares o')) as Hskip'.
  { split; intros (o' & Ho' & Hf); exists o'; [|by eauto].
    destruct Ho' as [->|?]; [by destruct Hf|done]. }
  rewrite Hskip, Hskip'. split_and!; [|done|done|].
  - intros o' [->|Ho'] Hf; [by destruct Hf|by apply HR].
  - right. destruct HU as [[-> _]|(o' & t' & ? & ?)]; [exists o, t|exists o', t']; eauto.
Qed.

(** A step over an entry of another locker. *)
Lemma scan_post_other o os id request shares upg0 oe0 oc0 oe1 oc1 r :
  locker_id o ≠ id →
  (foreign id shares o → get_conflict (lock_type o) request ≠ RestartConflict) →
  (oc1 = true ↔ oc0 = true ∨
     (foreign id shares o ∧ get_conflict (lock_type o) request = Block)) →
  (oe1 = true ↔ oe0 = true ∨ foreign id shares o) →
  scan_post os id request shares upg0 oe1 oc1 r →
  scan_post (o :: os) id request shares upg0 oe0 oc0 r.
Proof.
  intros Hid HR1 HB1 HE1 H. destruct r as [g|upg oe oc]; [by eapply scan_post_weaken|].
  destruct H as (HR & HB & HE & HU). simpl. setoid_rewrite elem_of_cons.
  rewrite HB, HB1, HE, HE1. split_and!.
  - intros o' [->|Ho'] Hf; [by apply HR1|by apply HR].
  - split; [intros [[?|[? ?]]|(o' & ? & ?)]|intros [?|(o' & [->|?] & ?)]]; eauto 6.
  - split; [intros [[?|?]|(o' & ? & ?)]|intros [?|(o' & [->|?] & ?)]]; eauto 6.
  - destruct HU as [[-> HU]|(o' & t' & ? & ?)]; [left|right; exists o', t'; eauto].
    split; [done|]. intros o' [->|Ho']; [done|by apply HU].
Qed.

Lemma scan_owners_post os id request shares upg0 oe0 oc0 :
  scan_post os id request shares upg0 oe0 oc0
    (scan_owners os id request shares upg0 oe0 oc0).
Proof.
  revert upg0 oe0 oc0; induction os as [|o os IH]; intros upg0 oe0 oc0; simpl.
  { setoid_rewrite elem_of_nil. naive_solver. }
  case_decide as Hid.
  - destruct (is_illegal _) eqn:Hill.
    { exists o; split_and!; [left|done|]. by destruct (get_upgrade _ _). }
    destruct (get_upgrade_type _) as [t|] eqn:Ht.
    + eapply scan_post_own; eauto.
    + exists o; split_and!; [left|done|]. by apply get_upgrade_type_None.
  - destruct (shares (locker_id o)) eqn:Hsh.
    { eapply scan_post_other; [done|..|apply IH]; unfold foreign; rewrite Hsh; naive_solver. }
    assert (foreign id shares o) as Hf by done.
    destruct (get_conflict (lock_type o) request) eqn:Hc.
    + eapply scan_post_other; [done|..|apply IH]; rewrite ?Hc; naive_solver.
    + eapply scan_post_other; [done|..|apply IH]; rewrite ?Hc; naive_solver.
    + exists o. split_and!; [left|done|done].
Qed.

(** ** Functional behaviour of a grant attempt

    [grant_post s id request fwil shares s' g]: what [try_lock_with_sharing]
    promises about its result, for each grant. *)

Definition blocked_by (s : LockImpl) (id : Z) (request : LockType)
    (shares : Z → bool) : Prop :=
  ∃ o, o ∈ owners s ∧ foreign id shares o ∧
       get_conflict (lock_type o) request ≠ Allow.

Definition grant_post (s : LockImpl) (w : LockInfo) (fwil : bool)
    (shares : Z → bool) (s' : LockImpl) (g : LockGrantType) : Prop :=
  let id := locker_id w in
  let request := lock_type w in
  waiters s' = waiters s ∧
  match g with
  | New =>
      (id ∉ locker_id <$> owners s) ∧ ¬ blocked_by s id request shares ∧
      (fwil = true ∨ ¬ ∃ o, o ∈ owners s ∧ foreign id shares o) ∧
      owners s' ≡ₚ w :: owners s
  | Promotion =>
      ¬ blocked_by s id request shares ∧
      ∃ o t, o ∈ owners s ∧ locker_id o = id ∧
        get_upgrade_type (get_upgrade (lock_type o) request) = Some t ∧
        is_promotion (get_upgrade (lock_type o) request) = true ∧
        owners s' = update_first id t (owners s)
  | Existing =>
      ∃ o, o ∈ owners s ∧ locker_id o = id ∧
        ((covers (lock_type o) request ∧ s' = s) ∨
         (¬ blocked_by s id request shares ∧
          ∃ t, get_upgrade_type (get_upgrade (lock_type o) request) = Some t ∧
            is_promotion (get_upgrade (lock_type o) request) = false ∧
            owners s' = update_first id t (owners s)))
  | WaitNew =>
      s' = s ∧ (id ∉ locker_id <$> owners s) ∧
      (blocked_by s id request shares ∨
       (fwil = false ∧ ∃ o, o ∈ owners s ∧ foreign id shares o))
  | WaitPromotion =>
      s' = s ∧ blocked_by s id request shares ∧
      ∃ o t, o ∈ owners s ∧ locker_id o = id ∧
             get_upgrade_type (get_upgrade (lock_type o) request) = Some t
  | WaitRestart =>
      s' = s ∧ ∃ o, o ∈ owners s ∧ foreign id shares o ∧
                    get_conflict (lock_type o) request = RestartConflict
  | IllegalUpgrade =>
      s' = s ∧ ∃ o, o ∈ owners s ∧ locker_id o = id ∧
                    get_upgrade (lock_type o) request = Illegal
  | Denied | NoneNeeded => False
  end.

Lemma not_blocked_by s id request shares :
  (∀ o, o ∈ owners s → foreign id shares o →
        get_conflict (lock_type o) request ≠ RestartConflict) →
  ¬ (∃ o, o ∈ owners s ∧ foreign id shares o ∧ get_conflict (lock_type o) request = Block) →
  ¬ blocked_by s id request shares.
Proof.
  intros HR HB (o & Ho & Hf & Hne).
  destruct (get_conflict _ _) eqn:E; [done|eauto 6|by eapply HR].
Qed.

Lemma is_illegal_upgrade_type u t : get_upgrade_type u = Some t → is_illegal u = false.
Proof. by destruct u. Qed.

Lemma not_elem_of_ids id (os : list LockInfo) :
  (∀ o, o ∈ os → locker_id o ≠ id) ↔ id ∉ (locker_id <$> os).
Proof.
  split; [intros H (o & -> & Ho)%list_elem_of_fmap; by eapply H|].
  intros H o Ho <-. apply H, list_elem_of_fmap. eauto.
Qed.

Lemma elem_of_ids o (os : list LockInfo) : o ∈ os → locker_id o ∈ (locker_id <$> os).
Proof. intros; apply list_elem_of_fmap; eauto. Qed.

#[export] Hint Resolve elem_of_ids : noxu.

Lemma try_lock_post s w fwil shares :
  let '(s', g) := try_lock_with_sharing s w fwil shares in
  grant_post s w fwil shares s' g.
Proof.
  unfold try_lock_with_sharing, grant_post. case_decide as Hn.
  { rewrite n_owners_length in Hn. apply nil_length_inv in Hn.
    autorewrite with lock_repr. rewrite owners_add_owner, Hn.
    unfold blocked_by. rewrite Hn. set_solver. }
  pose proof (scan_owners_post (owners s) (locker_id w) (lock_type w) shares None false false)
    as H.
  destruct (scan_owners _ _ _ _ _ _ _) as [g|[upg|] oe oc]; simpl in H.
  - destruct g; try done; naive_solver.
  - destruct H as (HR & HB & HE & [[? _]|(o & t & Ho & Hid & [= ->] & Ht)]); [done|].
    rewrite (is_illegal_upgrade_type _ _ Ht), Ht.
    destruct oc.
    + split_and!; [done|done| |by eauto].
      destruct HB as [[?|(o' & ? & ? & E)] _]; [done..|].
      exists o'. by rewrite E.
    + assert (¬ blocked_by s (locker_id w) (lock_type w) shares).
      { apply not_blocked_by; [done|]. naive_solver. }
      destruct (is_promotion _) eqn:Hp; autorewrite with lock_repr; naive_solver.
  - destruct H as (HR & HB & HE & [[_ Hno]|(o & t & Ho & Hid & ? & Ht)]); [|done].
    apply not_elem_of_ids in Hno.
    destruct oc; simpl.
    { split_and!; try done. left.
      destruct HB as [[?|(o' & ? & ? & E)] _]; [done..|]. exists o'. by rewrite E. }
    destruct (negb oe || fwil) eqn:Hf.
    + autorewrite with lock_repr. rewrite owners_add_owner.
      split_and!; try done.
      * apply not_blocked_by; [done|]. naive_solver.
      * apply orb_true_iff in Hf as [Hoe%negb_true_iff | ->]; [|by left].
        right. naive_solver.
    + split_and!; try done. right.
      apply orb_false_iff in Hf as [Hoe%negb_false_iff ->]. naive_solver.
Qed.

(** ** Mutual exclusion *)

(** The owners of a lock: no locker twice, and any two lockers that do not
    share locks hold types that the conflict matrix lets coexist. *)
Definition compatible_owners (sh : Z → Z → bool) (os : list LockInfo) : Prop :=
  NoDup (locker_id <$> os) ∧
  ∀ o1 o2, o1 ∈ os → o2 ∈ os → locker_id o1 ≠ locker_id o2 →
    sh (locker_id o1) (locker_id o2) = true ∨
    get_conflict (lock_type o1) (lock_type o2) = Allow.

Definition lock_inv (sh : Z → Z → bool) (s : LockImpl) : Prop :=
  compatible_owners sh (owners s).

#[export] Instance compatible_owners_Permutation sh :
  Proper ((≡ₚ) ==> iff) (compatible_owners sh).
Proof.
  intros os os' Hp. unfold compatible_owners.
  setoid_rewrite Hp. done.
Qed.

Section exclusion.
Context (sh : Z → Z → bool).
Context (sh_sym : ∀ a b, sh a b = sh b a).

Lemma compatible_owners_nil : compatible_owners sh [].
Proof. split; [constructor|]. intros ?? []%not_elem_of_nil. Qed.

Lemma compatible_owners_cons w os :
  compatible_owners sh os →
  locker_id w ∉ locker_id <$> os →
  (∀ o, o ∈ os → sh (locker_id w) (locker_id o) = true ∨
                 get_conflict (lock_type o) (lock_type w) = Allow) →
  compatible_owners sh (w :: os).
Proof.
  intros [Hnd Hc] Hw Hnew. split; [csimpl; by constructor|].
  intros o1 o2 [->|H1]%elem_of_cons [->|H2]%elem_of_cons Hne; [done|..|by auto].
  - destruct (Hnew o2 H2) as [?|?%get_conflict_allow_sym]; eauto.
  - rewrite sh_sym. eauto.
Qed.

Lemma compatible_owners_tail w os :
  compatible_owners sh (w :: os) → compatible_owners sh os.
Proof.
  intros [[_ Hnd]%NoDup_cons Hc]. split; [done|].
  intros o1 o2 H1 H2. apply Hc; by right.
Qed.

Lemma compatible_owners_filter (P : LockInfo → Prop) `{!∀ o, Decision (P o)} os :
  compatible_owners sh os → compatible_owners sh (filter P os).
Proof.
  intros [Hnd Hc]. split.
  - eapply sublist_NoDup; [done|]. apply fmap_sublist, sublist_filter.
  - intros o1 o2 [_ H1]%list_elem_of_filter [_ H2]%list_elem_of_filter. by apply Hc.
Qed.

(** Changing the type of one owner to a type that suits the others. *)
Lemma compatible_owners_update id t os :
  compatible_owners sh os →
  (∀ o, o ∈ os → locker_id o ≠ id →
     sh id (locker_id o) = true ∨ get_conflict t (lock_type o) = Allow) →
  compatible_owners sh (update_first id t os).
Proof.
  intros [Hnd Hc] Hnew. split; [by rewrite update_first_ids|].
  intros o1 o2 H1 H2 Hne.
  apply elem_of_update_first in H1, H2; [|done..].
  destruct H1 as [[H1 ?]|(p1 & H1 & Hp1 & ->)], H2 as [[H2 ?]|(p2 & H2 & Hp2 & ->)];
    simpl in *.
  - by apply Hc.
  - rewrite Hp2, sh_sym. rewrite get_conflict_allow_sym. by apply Hnew.
  - rewrite Hp1. by apply Hnew.
  - congruence.
Qed.

Lemma not_blocked_allow s id request shares o :
  ¬ blocked_by s id request shares →
  (∀ x, shares x = true → sh id x = true) →
  o ∈ owners s → locker_id o ≠ id →
  sh id (locker_id o) = true ∨ get_conflict (lock_type o) request = Allow.
Proof.
  intros Hb Hsh Ho Hne. destruct (shares (locker_id o)) eqn:E; [eauto|].
  destruct (decide (get_conflict (lock_type o) request = Allow)); [eauto|].
  destruct Hb. by exists o.
Qed.

(** An upgrade that is not blocked keeps the owners compatible. *)
Lemma upgrade_compatible s id request shares o t :
  lock_inv sh s →
  ¬ blocked_by s id request shares →
  (∀ x, shares x = true → sh id x = true) →
  o ∈ owners s → locker_id o = id →
  get_upgrade_type (get_upgrade (lock_type o) request) = Some t →
  compatible_owners sh (update_first id t (owners s)).
Proof.
  intros Hinv Hb Hsh Ho Hid Ht. apply compatible_owners_update; [done|].
  intros o' Ho' Hne.
  destruct (not_blocked_allow s id request shares o') as [?|Hc]; [done..|by left|].
  destruct Hinv as [_ Hc'].
  destruct (Hc' o o' Ho Ho') as [?|?]; [congruence|left; congruence|].
  right. by eapply upgrade_keeps_compatible.
Qed.

Lemma grant_post_inv s w fwil shares s' g :
  lock_inv sh s →
  (∀ x, shares x = true → sh (locker_id w) x = true) →
  grant_post s w fwil shares s' g →
  lock_inv sh s'.
Proof.
  intros Hinv Hsh [_ Hg]. unfold lock_inv in *.
  destruct g; try done; try (by destruct Hg as [-> _]).
  - destruct Hg as (Hid & Hb & _ & ->). apply compatible_owners_cons; [done..|].
    intros o Ho. eapply not_blocked_allow; [done..|].
    intros Heq. apply Hid. rewrite <-Heq. by apply elem_of_ids.
  - destruct Hg as (Hb & o & t & Ho & Hid & Ht & _ & ->). by eapply upgrade_compatible.
  - destruct Hg as (o & Ho & Hid & [[_ ->]|(Hb & t & Ht & _ & ->)]); [done|].
    by eapply upgrade_compatible.
Qed.

Lemma try_lock_inv s w fwil shares :
  lock_inv sh s →
  (∀ x, shares x = true → sh (locker_id w) x = true) →
  lock_inv sh (try_lock_with_sharing s w fwil shares).1.
Proof.
  intros Hinv Hsh. pose proof (try_lock_post s w fwil shares) as Hp.
  destruct (try_lock_with_sharing _ _ _ _). by eapply grant_post_inv.
Qed.
End exclusion.

(** ** Behaviour of [lock] on every branch *)

(** [lock_post s request id nb jump shares s' g]: the state and the grant that
    a request leads to.  A granted request leaves the queue alone; a denied
    or illegal one changes nothing; a blocked one leaves the owners alone and
    queues the requester, at the head when it waits for a promotion and at the
    tail otherwise, a restart being queued under the type [RestartLock]. *)
Definition lock_post (s : LockImpl) (request : LockType) (id : Z)
    (non_blocking jump : bool) (shares : Z → bool) (s' : LockImpl)
    (g : LockGrantType) : Prop :=
  let w := LockInfo_new id request in
  let fwil := jump || (n_waiters s =? 0)%nat in
  match g with
  | New | Promotion | Existing | IllegalUpgrade => grant_post s w fwil shares s' g
  | Denied => non_blocking = true ∧ s' = s ∧
      (blocked_by s id request shares ∨
       (id ∉ locker_id <$> owners s) ∧ fwil = false ∧
       ∃ o, o ∈ owners s ∧ foreign id shares o)
  | WaitNew => non_blocking = false ∧ owners s' = owners s ∧
      waiters s' = waiters s ++ [w] ∧ (id ∉ locker_id <$> owners s) ∧
      (blocked_by s id request shares ∨
       fwil = false ∧ ∃ o, o ∈ owners s ∧ foreign id shares o)
  | WaitPromotion => non_blocking = false ∧ owners s' = owners s ∧
      waiters s' = w :: waiters s ∧ blocked_by s id request shares ∧
      ∃ o t, o ∈ owners s ∧ locker_id o = id ∧
             get_upgrade_type (get_upgrade (lock_type o) request) = Some t
  | WaitRestart => non_blocking = false ∧ owners s' = owners s ∧
      waiters s' = waiters s ++ [LockInfo_new id RestartLock] ∧
      ∃ o, o ∈ owners s ++ waiters s ∧ foreign id shares o ∧
           get_conflict (lock_type o) request = RestartConflict
  | NoneNeeded => False
  end.

Lemma restart_blocked s id request shares o :
  o ∈ owners s → foreign id shares o →
  get_conflict (lock_type o) request = RestartConflict →
  blocked_by s id request shares.
Proof. intros ? ? E. exists o. by rewrite E. Qed.

Lemma waiter_restart_conflict_true s request id shares :
  waiter_restart_conflict s request id shares = true →
  ∃ w, w ∈ waiters s ∧ foreign id shares w ∧
       get_conflict (lock_type w) request = RestartConflict.
Proof.
  unfold waiter_restart_conflict, scanned_waiters, waiters, foreign.
  destruct (first_waiter s) as [w|]; [|done].
  intros (x & Hx & Hc)%existsb_exists. reflect_bools.
  exists x. apply list_elem_of_In in Hx. naive_solver.
Qed.

(** The part of [lock_with_sharing] that runs when the request must wait. *)
Lemma lock_wait_post s request id nb jump shares g :
  let w := LockInfo_new id request in
  must_wait g = true →
  grant_post s w (jump || (n_waiters s =? 0)%nat) shares s g →
  let g' := if causes_restart request && negb (bool_decide (g = WaitRestart))
               && waiter_restart_conflict s request id shares
            then WaitRestart else g in
  lock_post s request id nb jump shares
    (if nb then s
     else if decide (g' = WaitPromotion) then add_waiter_to_head_of_list s w
     else add_waiter_to_end_of_list s
            (if decide (g' = WaitRestart) then set_type RestartLock w else w))
    (if nb then Denied else g').
Proof.
  intros w Hw [_ Hg] g'. destruct nb.
  { unfold lock_post. split_and!; [done..|].
    destruct g; try done; naive_solver eauto using restart_blocked. }
  unfold g'. destruct (causes_restart request && _ && _) eqn:Hr.
  - reflect_bools. simpl. autorewrite with lock_repr. split_and!; [done..|].
    destruct (waiter_restart_conflict_true s request id shares) as (x & ? & ? & ?); [done|].
    exists x. set_solver.
  - destruct g; try done; simpl; autorewrite with lock_repr; try naive_solver.
    destruct Hg as (_ & o & ? & ? & ?). split_and!; [done..|]. exists o. set_solver.
Qed.

Lemma lock_with_sharing_post s request id nb jump shares :
  let '(s', r) := lock_with_sharing s request id nb jump shares in
  success r = is_granted (lock_grant r) ∧
  lock_post s request id nb jump shares s' (lock_grant r).
Proof.
  unfold lock_with_sharing.
  pose proof (try_lock_post s (LockInfo_new id request)
                (jump || (n_waiters s =? 0)%nat) shares) as Hp.
  destruct (try_lock_with_sharing _ _ _ _) as [s1 g].
  destruct (must_wait g) eqn:Hw.
  - assert (s1 = s) as -> by (destruct Hp as [_ Hp]; destruct g; naive_solver).
    pose proof (lock_wait_post s request id nb jump shares g Hw Hp) as Hl.
    destruct nb; [by split|]. revert Hl. cbv zeta. case_decide; by split.
  - split; [done|]. destruct g; first [done | by destruct Hp].
Qed.

(** ** When a request is granted *)

(** The reference condition: the locker already holds enough, or it can be
    upgraded, or it is new, meets no conflict and does not overtake anybody. *)
Definition grantable (s : LockImpl) (request : LockType) (id : Z) (in_line : Prop)
    (shares : Z → bool) : Prop :=
  (∃ o, o ∈ owners s ∧ locker_id o = id ∧ covers (lock_type o) request) ∨
  (¬ blocked_by s id request shares ∧
   ∃ o t, o ∈ owners s ∧ locker_id o = id ∧
          get_upgrade_type (get_upgrade (lock_type o) request) = Some t) ∨
  (¬ blocked_by s id request shares ∧ (id ∉ locker_id <$> owners s) ∧
   (in_line ∨ ¬ ∃ o, o ∈ owners s ∧ foreign id shares o)).

Lemma NoDup_owner_unique (os : list LockInfo) o1 o2 :
  NoDup (locker_id <$> os) → o1 ∈ os → o2 ∈ os → locker_id o1 = locker_id o2 → o1 = o2.
Proof.
  intros Hnd H1 H2 Heq.
  pose proof (find_locker_elem (locker_id o1) os o1 Hnd H1 eq_refl).
  pose proof (find_locker_elem (locker_id o1) os o2 Hnd H2 (eq_sym Heq)). congruence.
Qed.

(** A restart conflict cannot hide a lock that already covers the request. *)
Lemma covered_no_restart sh s id request o o' :
  lock_inv sh s → o ∈ owners s → locker_id o = id → covers (lock_type o) request →
  o' ∈ owners s → foreign id (sh id) o' →
  get_conflict (lock_type o') request ≠ RestartConflict.
Proof.
  intros [_ Hc] Ho Hid Hcov Ho' [Hne Hsh] HR.
  destruct (Hc o o' Ho Ho') as [?|Ha]; [congruence|congruence|].
  destruct (lock_type o), (lock_type o'), request; unfold covers in *; simpl in *; congruence.
Qed.

Lemma fwil_true (s : LockImpl) jump :
  jump || (n_waiters s =? 0)%nat = true ↔ jump = true ∨ waiters s = [].
Proof.
  rewrite n_waiters_length, orb_true_iff, Nat.eqb_eq, length_zero_iff_nil. done.
Qed.

Lemma fwil_false (s : LockImpl) jump :
  jump || (n_waiters s =? 0)%nat = false ↔ jump = false ∧ waiters s ≠ [].
Proof. rewrite <-not_true_iff_false, fwil_true. destruct jump; naive_solver. Qed.

Lemma try_lock_granted_iff sh s w fwil :
  lock_inv sh s →
  is_granted (try_lock_with_sharing s w fwil (sh (locker_id w))).2 = true ↔
  grantable s (lock_type w) (locker_id w) (fwil = true) (sh (locker_id w)).
Proof.
  intros Hinv. pose proof (try_lock_post s w fwil (sh (locker_id w))) as Hp.
  destruct (try_lock_with_sharing _ _ _ _) as [s' g]; simpl.
  destruct Hp as [_ Hp]. unfold grantable.
  assert (∀ o1 o2, o1 ∈ owners s → o2 ∈ owners s → locker_id o1 = locker_id o2 → o1 = o2)
    as Huniq by (intros; eapply NoDup_owner_unique; [apply Hinv|done..]).
  destruct g; simpl; try done.
  - naive_solver.
  - split; [done|]. intros [(o & Ho & Hid & _)|[(Hb & o & t & Ho & Hid & _)|(Hb & _ & Hf)]].
    1,2: exfalso; destruct Hp as (_ & Hn & _); apply Hn; rewrite <-Hid; eauto with noxu.
    naive_solver.
  - naive_solver.
  - split; [done|]. destruct Hp as (_ & Hb & o & t & Ho & Hid & Ht).
    intros [(o' & Ho' & Hid' & Hc)|[[Hb' _]|[Hb' _]]]; [|done..].
    assert (o' = o) as -> by (apply Huniq; congruence).
    unfold covers in Hc. by rewrite Hc in Ht.
  - naive_solver.
  - split; [done|]. destruct Hp as (_ & o & Ho & Hf & HR).
    intros [(o' & Ho' & Hid' & Hc)|[[Hb' _]|[Hb' _]]].
    + by eapply covered_no_restart in HR.
    + destruct Hb'. by eapply restart_blocked.
    + destruct Hb'. by eapply restart_blocked.
  - split; [done|]. destruct Hp as (_ & o & Ho & Hid & Hill).
    intros [(o' & Ho' & Hid' & Hc)|[(_ & o' & t & Ho' & Hid' & Ht)|(_ & Hn & _)]].
    1,2: assert (o' = o) as -> by (apply Huniq; congruence);
      unfold covers in *; rewrite Hill in *; done.
    destruct Hn. rewrite <-Hid. eauto with noxu.
Qed.

Lemma lock_success_try s request id nb jump shares :
  success (lock_with_sharing s request id nb jump shares).2 =
  is_granted (try_lock_with_sharing s (LockInfo_new id request)
                (jump || (n_waiters s =? 0)%nat) shares).2.
Proof.
  unfold lock_with_sharing. destruct (try_lock_with_sharing _ _ _ _) as [s1 g]; simpl.
  destruct g; simpl; try done; destruct nb; try done; by repeat case_match.
Qed.

(** ** Behaviour of [release] *)

(** The granted prefix of the queue: [ws] are woken in order, each against the
    owners its predecessors left. *)
Inductive woken (shares : Z → bool) : LockImpl → list LockInfo → LockImpl → Prop :=
| woken_nil s : woken shares s [] s
| woken_cons s w ws s1 g s2 :
    wake_waiter s w shares = (s1, g) → is_granted g = true →
    woken shares (remove_waiter_at s1 (release_slot s1 0).1) ws s2 →
    woken shares s (w :: ws) s2.

(** The request at the head of the queue cannot be granted. *)
Definition head_blocked (shares : Z → bool) (s : LockImpl) : Prop :=
  match waiters s with
  | [] => True
  | w :: _ => is_granted (wake_waiter s w shares).2 = false
  end.

Lemma try_lock_fields s w fwil shares :
  let s' := (try_lock_with_sharing s w fwil shares).1 in
  first_waiter s' = first_waiter s ∧ waiter_list s' = waiter_list s.
Proof.
  unfold try_lock_with_sharing, add_owner, update_owner_type.
  repeat case_match; done.
Qed.

Lemma wake_waiter_fields s w shares :
  let s' := (wake_waiter s w shares).1 in
  first_waiter s' = first_waiter s ∧ waiter_list s' = waiter_list s.
Proof. unfold wake_waiter. case_decide; [done|]. apply try_lock_fields. Qed.

Lemma wake_waiter_refused s w shares :
  is_granted (wake_waiter s w shares).2 = false → (wake_waiter s w shares).1 = s.
Proof.
  unfold wake_waiter, try_lock. case_decide; [done|].
  pose proof (try_lock_post s w true (λ _, false)) as Hp.
  destruct (try_lock_with_sharing _ _ _ _) as [s' g]; simpl.
  destruct Hp as [_ Hp]; destruct g; try done; intros _; by destruct Hp as [-> _].
Qed.

Lemma release_slot_waiters s :
  (release_slot s 0).2 = head (waiters s).
Proof. destruct s as [fo os [fw|] [[|x wl]|]]; done. Qed.

Lemma waiters_pop s : waiters (remove_waiter_at s (release_slot s 0).1) = tail (waiters s).
Proof. destruct s as [fo os [fw|] [[|x wl]|]]; done. Qed.

Lemma owners_pop s i : owners (remove_waiter_at s i) = owners s.
Proof. by destruct i. Qed.

(** Restarting the loop at the index it stopped at or at 0 is the same. *)
Lemma release_loop_index fuel s shares ns sg :
  release_loop fuel s (release_slot s 0).1 shares ns sg =
  release_loop fuel s 0 shares ns sg.
Proof. destruct fuel, s as [fo os [fw|] wl]; done. Qed.

Lemma release_loop_index_pop fuel s shares ns sg :
  release_loop fuel (remove_waiter_at s (release_slot s 0).1) (release_slot s 0).1 shares ns sg =
  release_loop fuel (remove_waiter_at s (release_slot s 0).1) 0 shares ns sg.
Proof. destruct fuel, s as [fo os [fw|] wl]; done. Qed.

Lemma release_slot_wake s w shares :
  (release_slot (wake_waiter s w shares).1 0).1 = (release_slot s 0).1.
Proof.
  destruct (wake_waiter_fields s w shares) as [H1 H2]. unfold release_slot.
  by rewrite H1, H2.
Qed.

Lemma waiters_wake s w shares : waiters (wake_waiter s w shares).1 = waiters s.
Proof.
  destruct (wake_waiter_fields s w shares) as [H1 H2].
  unfold waiters; simpl in *. by rewrite H1, H2.
Qed.

Lemma release_loop_spec fuel s shares ns sg :
  (n_waiters s < fuel)%nat →
  ∃ ws s',
    release_loop fuel s 0 shares ns sg =
      Some (s', ns ++ (locker_id <$> ws), sg ++ (ws ≫= opt_list ∘ notify)) ∧
    waiters s = ws ++ waiters s' ∧ woken shares s ws s' ∧ head_blocked shares s'.
Proof.
  revert s ns sg; induction fuel as [|fuel IH]; intros s ns sg Hf; [lia|].
  cbn [release_loop].
  pose proof (release_slot_waiters s) as Hslot.
  pose proof (release_slot_wake s) as Hwk.
  destruct (release_slot s 0) as [idx ow]. simpl in Hslot. subst ow.
  rewrite n_waiters_length in Hf.
  destruct (waiters s) as [|w ws0] eqn:Hws; simpl.
  { exists [], s. unfold head_blocked. rewrite Hws. simpl.
    rewrite !app_nil_r. split_and!; done || constructor. }
  destruct (wake_waiter s w shares) as [s1 g] eqn:Hw.
  assert (waiters s1 = w :: ws0) as Hws1.
  { rewrite <-Hws, <-(waiters_wake s w shares). by rewrite Hw. }
  assert (idx = (release_slot s1 0).1) as ->.
  { specialize (Hwk w shares). by rewrite Hw in Hwk. }
  destruct (is_granted g) eqn:Hg.
  - rewrite release_loop_index_pop.
    destruct (IH (remove_waiter_at s1 (release_slot s1 0).1)
                (ns ++ [locker_id w]) (sg ++ opt_list (notify w)))
      as (ws & s' & -> & Hwt & Hwo & Hh).
    { rewrite n_waiters_length, waiters_pop, Hws1. simpl in *. lia. }
    rewrite waiters_pop, Hws1 in Hwt; simpl in Hwt.
    exists (w :: ws), s'. csimpl. rewrite <-!app_assoc.
    split_and!; [done|by rewrite Hwt|by econstructor|done].
  - exists [], s1. csimpl. rewrite !app_nil_r.
    assert (s1 = s) as ->.
    { pose proof (wake_waiter_refused s w shares) as Hr. rewrite Hw in Hr. by apply Hr. }
    split_and!; [done|by rewrite Hws|constructor|].
    unfold head_blocked. by rewrite Hws, Hw.
Qed.

(** The locker holds a lock that serves a request of type [t]. *)
Definition holds (s : LockImpl) (id : Z) (t : LockType) : Prop :=
  ∃ o, o ∈ owners s ∧ locker_id o = id ∧ (lock_type o = t ∨ covers (lock_type o) t).

Lemma holds_owners s s' id t : owners s = owners s' → holds s id t → holds s' id t.
Proof. unfold holds. by intros ->. Qed.

Lemma covers_holds t' t0 t : covers t' t0 → t0 = t ∨ covers t0 t → covers t' t.
Proof. intros H [<-|?]; [done|by eapply covers_trans]. Qed.

(** An upgrade keeps what every locker holds. *)
Lemma holds_update s s' id0 t0 o0 request id t :
  NoDup (locker_id <$> owners s) →
  o0 ∈ owners s → locker_id o0 = id0 →
  get_upgrade_type (get_upgrade (lock_type o0) request) = Some t0 →
  owners s' = update_first id0 t0 (owners s) →
  holds s id t → holds s' id t.
Proof.
  intros Hnd Ho0 Hid0 Ht0 Hs' (o & Ho & Hid & Ht).
  unfold holds. rewrite Hs'. setoid_rewrite elem_of_update_first; [|done].
  destruct (decide (id = id0)) as [->|Hne].
  - assert (o = o0) as -> by (eapply NoDup_owner_unique; eauto; congruence).
    exists (set_type t0 o0). simpl. split_and!; [by right; eauto|done|right].
    eapply covers_holds; [|done]. by eapply upgrade_covers in Ht0 as [? _].
  - exists o. split_and!; [left; split; congruence|done|done].
Qed.

Lemma grant_post_holds_mono s w fwil shares s' g id t :
  NoDup (locker_id <$> owners s) →
  grant_post s w fwil shares s' g → holds s id t → holds s' id t.
Proof.
  intros Hnd [_ Hg] Hh. destruct g; try done; try (by destruct Hg as [-> _]).
  - destruct Hg as (_ & _ & _ & Hp). destruct Hh as (o & Ho & ? & ?).
    exists o. rewrite Hp. set_solver.
  - destruct Hg as (_ & o & t' & ? & ? & ? & _ & ?). by eapply holds_update.
  - destruct Hg as (o & ? & ? & [[_ ->]|(_ & t' & ? & _ & ?)]); [done|].
    by eapply holds_update.
Qed.

(** A granted request is held. *)
Lemma grant_post_holds s w fwil shares s' g :
  NoDup (locker_id <$> owners s) →
  grant_post s w fwil shares s' g → is_granted g = true →
  holds s' (locker_id w) (lock_type w).
Proof.
  intros Hnd [_ Hg] Hgr. destruct g; try done.
  - destruct Hg as (_ & _ & _ & Hp). exists w. rewrite Hp. set_solver.
  - destruct Hg as (_ & o & t' & ? & ? & ? & _ & Hs').
    exists (set_type t' o). rewrite Hs', elem_of_update_first; [|done].
    split_and!; [by right; eauto|done|right]. by eapply upgrade_covers.
  - destruct Hg as (o & ? & ? & [[? ->]|(_ & t' & ? & _ & Hs')]).
    { exists o. eauto. }
    exists (set_type t' o). rewrite Hs', elem_of_update_first; [|done].
    split_and!; [by right; eauto|done|right]. by eapply upgrade_covers.
Qed.

Section release_facts.
Context (sh : Z → Z → bool).
Context (sh_sym : ∀ a b, sh a b = sh b a).

Lemma wake_waiter_inv s w shares :
  lock_inv sh s → lock_inv sh (wake_waiter s w shares).1.
Proof.
  intros Hinv. unfold wake_waiter. case_decide; [done|]. by apply try_lock_inv.
Qed.

Lemma wake_waiter_holds_mono s w shares id t :
  lock_inv sh s → holds s id t → holds (wake_waiter s w shares).1 id t.
Proof.
  intros [Hnd _] Hh. unfold wake_waiter, try_lock. case_decide; [done|].
  pose proof (try_lock_post s w true (λ _, false)) as Hp.
  destruct (try_lock_with_sharing _ _ _ _). by eapply grant_post_holds_mono.
Qed.

Lemma wake_waiter_holds s w shares :
  lock_inv sh s → lock_type w ≠ RestartLock →
  is_granted (wake_waiter s w shares).2 = true →
  holds (wake_waiter s w shares).1 (locker_id w) (lock_type w).
Proof.
  intros [Hnd _] Hr. unfold wake_waiter, try_lock. rewrite decide_False by done.
  pose proof (try_lock_post s w true (λ _, false)) as Hp.
  destruct (try_lock_with_sharing _ _ _ _). by eapply grant_post_holds.
Qed.

Lemma lock_inv_pop s i : lock_inv sh (remove_waiter_at s i) ↔ lock_inv sh s.
Proof. unfold lock_inv. by rewrite owners_pop. Qed.

Lemma woken_inv shares s ws s' : woken shares s ws s' → lock_inv sh s → lock_inv sh s'.
Proof.
  induction 1 as [|s w ws s1 g s2 Hw Hg _ IH]; [done|].
  intros Hinv. apply IH, lock_inv_pop.
  pose proof (wake_waiter_inv s w shares Hinv). by rewrite Hw in *.
Qed.

Lemma woken_holds_mono shares s ws s' id t :
  woken shares s ws s' → lock_inv sh s → holds s id t → holds s' id t.
Proof.
  induction 1 as [|s w ws s1 g s2 Hw Hg _ IH]; [done|]. intros Hinv Hh.
  pose proof (wake_waiter_inv s w shares Hinv).
  pose proof (wake_waiter_holds_mono s w shares id t Hinv Hh). rewrite Hw in *.
  apply IH; [by apply lock_inv_pop|].
  eapply holds_owners; [|done]. by rewrite owners_pop.
Qed.

(** Every woken waiter holds what it waited for, a restart request apart. *)
Lemma woken_holds shares s ws s' w :
  woken shares s ws s' → lock_inv sh s →
  w ∈ ws → lock_type w ≠ RestartLock → holds s' (locker_id w) (lock_type w).
Proof.
  induction 1 as [|s w' ws s1 g s2 Hw Hg Hwo IH]; [set_solver|]. intros Hinv Hin Hr.
  pose proof (wake_waiter_inv s w' shares Hinv) as Hinv1.
  apply elem_of_cons in Hin as [->|Hin].
  - pose proof (wake_waiter_holds s w' shares Hinv Hr) as Hh. rewrite Hw in *.
    eapply woken_holds_mono; [done|by apply lock_inv_pop|].
    eapply holds_owners; [|by apply Hh]. by rewrite owners_pop.
  - rewrite Hw in *. apply IH; [by apply lock_inv_pop|done..].
Qed.
End release_facts.

(** Why the head of the queue is not granted. *)
Definition cannot_be_granted (shares : Z → bool) (s : LockImpl) (w : LockInfo) : Prop :=
  (lock_type w = RestartLock ∧
   range_insert_conflict_with_sharing s (locker_id w) shares = true) ∨
  (lock_type w ≠ RestartLock ∧
   (blocked_by s (locker_id w) (lock_type w) (λ _, false) ∨
    ∃ o, o ∈ owners s ∧ locker_id o = locker_id w ∧
         get_upgrade (lock_type o) (lock_type w) = Illegal)).

Lemma wake_waiter_refused_why s w shares :
  is_granted (wake_waiter s w shares).2 = false → cannot_be_granted shares s w.
Proof.
  unfold wake_waiter, try_lock, cannot_be_granted. case_decide; simpl.
  { destruct (range_insert_conflict_with_sharing _ _ _) eqn:E; [|done]. by left. }
  pose proof (try_lock_post s w true (λ _, false)) as Hp.
  destruct (try_lock_with_sharing _ _ _ _) as [s' g]; simpl.
  destruct Hp as [_ Hp]. intros Hg. right. split; [done|].
  destruct g; try done.
  - left. naive_solver.
  - left. naive_solver.
  - left. destruct Hp as (_ & o & ? & ? & ?). by eapply restart_blocked.
  - right. naive_solver.
Qed.

(** What [release_with_sharing] promises: it refuses a locker that owns
    nothing; otherwise it removes that owner, wakes a prefix of the queue and
    stops only at a request that cannot be granted. *)
Definition release_post (s : LockImpl) (id : Z) (shares : Z → bool)
    (s' : LockImpl) (r : option (list Z * list nat)) : Prop :=
  match r with
  | None => s' = s ∧ (id ∉ locker_id <$> owners s)
  | Some (ids, sig) =>
      ∃ o s1 ws,
        o ∈ owners s ∧ locker_id o = id ∧
        owners s ≡ₚ o :: owners s1 ∧ waiters s1 = waiters s ∧
        woken shares s1 ws s' ∧
        waiters s = ws ++ waiters s' ∧
        ids = locker_id <$> ws ∧ sig = ws ≫= opt_list ∘ notify ∧
        match waiters s' with
        | [] => True
        | w :: _ => cannot_be_granted shares s' w
        end
  end.

Lemma release_with_sharing_post s id shares :
  let '(s', r) := release_with_sharing s id shares in release_post s id shares s' r.
Proof.
  unfold release_with_sharing.
  destruct (flush_owner_spec s id) as [Hf Hw].
  destruct (flush_owner s id) as [s1 [o|]]; simpl in Hf, Hw; [|done].
  destruct Hf as [Hid Hp].
  assert (o ∈ owners s) by (rewrite Hp; set_solver).
  destruct (n_waiters s1 =? 0)%nat eqn:Hn.
  - apply Nat.eqb_eq in Hn. rewrite n_waiters_length in Hn.
    apply nil_length_inv in Hn. exists o, s1, [].
    rewrite Hn in *. split_and!; try done; first [constructor | by rewrite <-Hw].
  - destruct (release_loop_spec (S (n_waiters s1)) s1 shares [] [])
      as (ws & s' & -> & Hws & Hwo & Hh); [lia|].
    exists o, s1, ws. rewrite <-Hw. split_and!; try done.
    unfold head_blocked in Hh. destruct (waiters s'); [done|].
    by apply wake_waiter_refused_why.
Qed.

(** ** Sequences of operations *)

Inductive lock_op :=
| OpLock (request : LockType) (id : Z) (non_blocking jump : bool)
| OpRelease (id : Z)
| OpDemote (id : Z)
| OpSteal (id : Z) (preemptable : Z → bool)
| OpFlushWaiter (id : Z)
| OpSetNotify (id : Z) (n : nat).

Definition apply_op (sh : Z → Z → bool) (s : LockImpl) (op : lock_op) : LockImpl :=
  match op with
  | OpLock request id nb jump => (lock_with_sharing s request id nb jump (sh id)).1
  | OpRelease id => (release_with_sharing s id (sh id)).1
  | OpDemote id => demote s id
  | OpSteal id preemptable => (steal_lock_preemptable s id preemptable).1
  | OpFlushWaiter id => flush_waiter s id
  | OpSetNotify id n => set_waiter_notify s id n
  end.

Definition run_ops (sh : Z → Z → bool) : LockImpl → list lock_op → LockImpl :=
  foldl (apply_op sh).

Lemma owners_steal s id preemptable :
  owners (steal_lock_preemptable s id preemptable).1 =
  filter (λ o, preempts id preemptable o = false) (owners s).
Proof.
  unfold steal_lock_preemptable, owners.
  destruct s as [[fo|] [os|] fw wl]; simpl; try done;
    destruct (preempts id preemptable fo) eqn:E; simpl; rewrite ?filter_cons, ?E; done.
Qed.

Lemma owners_flush_waiter s id : owners (flush_waiter s id) = owners s.
Proof. unfold flush_waiter. by repeat case_match. Qed.

Lemma owners_set_waiter_notify s id n : owners (set_waiter_notify s id n) = owners s.
Proof. unfold set_waiter_notify. by repeat case_match. Qed.

Section reachable.
Context (sh : Z → Z → bool).
Context (sh_sym : ∀ a b, sh a b = sh b a).

Lemma lock_keeps_inv s request id nb jump shares :
  (∀ x, shares x = true → sh id x = true) →
  lock_inv sh s → lock_inv sh (lock_with_sharing s request id nb jump shares).1.
Proof.
  intros Hsh Hinv. pose proof (lock_with_sharing_post s request id nb jump shares) as Hp.
  destruct (lock_with_sharing _ _ _ _ _ _) as [s' r]; simpl. destruct Hp as [_ Hp].
  unfold lock_post in Hp. unfold lock_inv in *.
  destruct (lock_grant r); try (by eapply grant_post_inv in Hp);
    try done; naive_solver congruence.
Qed.

Lemma release_keeps_inv s id shares :
  lock_inv sh s → lock_inv sh (release_with_sharing s id shares).1.
Proof.
  intros Hinv. pose proof (release_with_sharing_post s id shares) as Hp.
  destruct (release_with_sharing s id shares) as [s' [[ids sig]|]]; simpl in *.
  - destruct Hp as (o & s1 & ws & _ & _ & Hp & _ & Hwo & _).
    eapply woken_inv; [done..|]. unfold lock_inv in *.
    rewrite Hp in Hinv. by eapply compatible_owners_tail.
  - by destruct Hp as [-> _].
Qed.

Lemma demote_keeps_inv s id : lock_inv sh s → lock_inv sh (demote s id).
Proof.
  intros Hinv. unfold demote. rewrite get_owner_lock_info_find.
  destruct (find_locker id (owners s)) as [o|] eqn:E; [|done].
  destruct (is_write_lock (lock_type o)) eqn:Hw; [|done].
  apply find_locker_Some in E as [Ho Hid].
  unfold lock_inv. autorewrite with lock_repr.
  apply compatible_owners_update; [done..|]. intros o' Ho' Hne.
  destruct Hinv as [_ Hc]. destruct (Hc o o' Ho Ho') as [?|?]; [congruence| |].
  - left. congruence.
  - right. by apply demote_keeps_compatible.
Qed.

Lemma apply_op_inv s op : lock_inv sh s → lock_inv sh (apply_op sh s op).
Proof.
  intros Hinv. destruct op; simpl.
  - by apply lock_keeps_inv.
  - by apply release_keeps_inv.
  - by apply demote_keeps_inv.
  - unfold lock_inv. rewrite owners_steal. by apply compatible_owners_filter.
  - unfold lock_inv. by rewrite owners_flush_waiter.
  - unfold lock_inv. by rewrite owners_set_waiter_notify.
Qed.

Lemma run_ops_inv s ops : lock_inv sh s → lock_inv sh (run_ops sh s ops).
Proof.
  revert s; induction ops as [|op ops IH]; intros s Hinv; simpl; [done|].
  by apply IH, apply_op_inv.
Qed.

Lemma LockImpl_new_inv : lock_inv sh LockImpl_new.
Proof. apply compatible_owners_nil. Qed.
End reachable.

(** ** The queue *)

Lemma waiters_flush_waiter s id :
  NoDup (locker_id <$> waiters s) →
  waiters (flush_waiter s id) = filter (λ w, locker_id w ≠ id) (waiters s).
Proof.
  unfold flush_waiter, waiters. destruct s as [fo os [fw|] wl]; simpl.
  - intros [Hn _]%NoDup_cons. rewrite filter_cons. case_decide as Hid; simpl.
    + rewrite decide_False by naive_solver. subst id. destruct wl as [wl|]; [|done]. simpl in *.
      symmetry. apply filter_id. intros w Hw Heq.
      apply Hn. rewrite <-Heq. by apply list_elem_of_fmap_2.
    + rewrite decide_True by done. by destruct wl.
  - by destruct wl.
Qed.

Lemma waiters_set_waiter_notify s id n :
  waiters (set_waiter_notify s id n) = notify_first id n (waiters s).
Proof.
  unfold set_waiter_notify, waiters. destruct s as [fo os [fw|] wl]; simpl.
  - by case_decide; simpl; [|destruct wl].
  - by destruct wl.
Qed.

Lemma notify_first_end id n l w :
  (id ∉ locker_id <$> l) → locker_id w = id →
  notify_first id n (l ++ [w]) = l ++ [set_notify n w].
Proof.
  intros Hn Hw. induction l as [|x l IH]; simpl; [by rewrite decide_True|].
  rewrite fmap_cons, not_elem_of_cons in Hn. rewrite decide_False by naive_solver.
  by rewrite IH by naive_solver.
Qed.

Lemma waiters_steal s id preemptable :
  waiters (steal_lock_preemptable s id preemptable).1 = waiters s.
Proof.
  unfold steal_lock_preemptable.
  destruct s as [[fo|] [os|] fw wl]; simpl; try done;
    by destruct (preempts id preemptable fo).
Qed.

Lemma waiters_demote s id : waiters (demote s id) = waiters s.
Proof.
  unfold demote. repeat case_match; rewrite ?waiters_update_owner_type; done.
Qed.

Lemma owners_demote_ids s id : locker_id <$> owners (demote s id) = locker_id <$> owners s.
Proof.
  unfold demote. case_match; [|done]. case_match; [|done].
  by rewrite owners_update_owner_type, update_first_ids.
Qed.

Lemma demote_holds_other s id id' t :
  NoDup (locker_id <$> owners s) → id ≠ id' → holds s id' t → holds (demote s id) id' t.
Proof.
  intros Hnd Hne (o & Ho & Hid & Ht). unfold demote. case_match; [|by exists o].
  case_match; [|by exists o]. exists o. split; [|done].
  rewrite owners_update_owner_type. apply elem_of_update_first; [done|].
  left. split; congruence.
Qed.

Lemma preempted_steal s id preemptable :
  (steal_lock_preemptable s id preemptable).2 =
  locker_id <$> filter (λ o, preempts id preemptable o = true) (owners s).
Proof.
  unfold steal_lock_preemptable, owners.
  destruct s as [[fo|] [os|] fw wl]; simpl; try done;
    destruct (preempts id preemptable fo) eqn:E; simpl; rewrite ?filter_cons, ?E; done.
Qed.

(** No request waits on a lock that nobody owns. *)
Definition attended (s : LockImpl) : Prop := waiters s ≠ [] → owners s ≠ [].

Lemma update_first_nil id t l : update_first id t l = [] → l = [].
Proof. destruct l; simpl; [done|]. by case_decide. Qed.

Lemma elem_ne_nil {A} (x : A) l : x ∈ l → l ≠ [].
Proof. intros Hx ->. by apply elem_of_nil in Hx. Qed.

Lemma grant_post_attended s w fwil shares s' g :
  grant_post s w fwil shares s' g → attended s → attended s'.
Proof.
  intros [Hw Hg] Ha. unfold attended in *. rewrite Hw. intros Hne. specialize (Ha Hne).
  destruct g; try done; try (by destruct Hg as [-> _]).
  - destruct Hg as (_ & _ & _ & Hp). intros Hnil. rewrite Hnil in Hp.
    by apply Permutation_nil_cons in Hp.
  - destruct Hg as (_ & o & t & _ & _ & _ & _ & Hs'). rewrite Hs'.
    by intros ?%update_first_nil.
  - destruct Hg as (o & _ & _ & [[_ ->]|(_ & t & _ & _ & Hs')]); [done|]. rewrite Hs'.
    by intros ?%update_first_nil.
Qed.

Lemma blocked_by_owned s id request shares : blocked_by s id request shares → owners s ≠ [].
Proof. intros (o & Ho & _). by eapply elem_ne_nil. Qed.

Lemma lock_attended s request id nb jump shares :
  attended s → attended (lock_with_sharing s request id nb jump shares).1.
Proof.
  intros Ha. pose proof (lock_with_sharing_post s request id nb jump shares) as Hp.
  destruct (lock_with_sharing _ _ _ _ _ _) as [s' r]; simpl. destruct Hp as [_ Hp].
  unfold lock_post in Hp.
  destruct (lock_grant r); try done; try (by eapply grant_post_attended); unfold attended.
  - destruct Hp as (_ & Ho & _ & _ & [Hb|(_ & o & ? & _)]) ; rewrite Ho; intros _.
    + by eapply blocked_by_owned.
    + by eapply elem_ne_nil.
  - destruct Hp as (_ & Ho & _ & Hb & _). rewrite Ho. intros _. by eapply blocked_by_owned.
  - by destruct Hp as (_ & -> & _).
  - destruct Hp as (_ & Ho & _ & o & [Hin|Hin]%elem_of_app & _); rewrite Ho; intros _.
    + by eapply elem_ne_nil.
    + apply Ha. by apply (elem_ne_nil o).
Qed.

Lemma release_attended s id shares :
  attended s → attended (release_with_sharing s id shares).1.
Proof.
  intros Ha. pose proof (release_with_sharing_post s id shares) as Hp.
  destruct (release_with_sharing s id shares) as [s' [[ids sig]|]]; simpl in *;
    [|by destruct Hp as [-> _]].
  destruct Hp as (o & s1 & ws & _ & _ & _ & _ & _ & _ & _ & _ & Hh).
  intros Hne. destruct (waiters s') as [|w ws']; [done|].
  destruct Hh as [[_ Hr]|[_ [Hb|(o' & ? & _)]]].
  - unfold range_insert_conflict_with_sharing, scanned_owners in Hr. unfold owners.
    by destruct (first_owner s').
  - by eapply blocked_by_owned.
  - by eapply elem_ne_nil.
Qed.

(** On a lock without owners every request is granted. *)
Lemma lock_unowned_granted s request id nb jump shares :
  owners s = [] → owners (lock_with_sharing s request id nb jump shares).1 ≠ [].
Proof.
  intros Hn. unfold lock_with_sharing, try_lock_with_sharing.
  rewrite decide_True by (rewrite n_owners_length, Hn; done). simpl.
  intros Hnil. pose proof (owners_add_owner s (LockInfo_new id request)) as Hp.
  rewrite Hnil in Hp. by apply Permutation_nil_cons in Hp.
Qed.

(** ** Who becomes an owner *)

Lemma elem_of_update_first_other id t l o :
  o ∈ update_first id t l → locker_id o ≠ id → o ∈ l.
Proof.
  induction l as [|x l IH]; simpl; [done|]. case_decide as Hid; intros Hin Hne.
  - apply elem_of_cons in Hin as [->|?]; [done|by right].
  - apply elem_of_cons in Hin as [->|?]; [by left|right; by apply IH].
Qed.

(** A grant changes the entry of its locker only. *)
Lemma grant_post_others s w fwil shares s' g o :
  grant_post s w fwil shares s' g → o ∈ owners s' → locker_id o ≠ locker_id w → o ∈ owners s.
Proof.
  intros [_ Hg] Ho Hne. destruct g; try done; try (by destruct Hg as [-> _]).
  - destruct Hg as (_ & _ & _ & Hp). rewrite Hp in Ho.
    by apply elem_of_cons in Ho as [->|?].
  - destruct Hg as (_ & o' & t & _ & _ & _ & _ & Hs'). rewrite Hs' in Ho.
    by eapply elem_of_update_first_other.
  - destruct Hg as (o' & _ & _ & [[_ ->]|(_ & t & _ & _ & Hs')]); [done|]. rewrite Hs' in Ho.
    by eapply elem_of_update_first_other.
Qed.

Lemma woken_others shares s ws s' o :
  woken shares s ws s' → o ∈ owners s' → (locker_id o ∉ locker_id <$> ws) → o ∈ owners s.
Proof.
  induction 1 as [|s w ws s1 g s2 Hw Hg _ IH]; [done|]. intros Ho Hn.
  rewrite fmap_cons, not_elem_of_cons in Hn. destruct Hn as [Hne Hn].
  specialize (IH Ho Hn). rewrite owners_pop in IH.
  unfold wake_waiter, try_lock in Hw. case_decide; [by injection Hw as <- _|].
  pose proof (try_lock_post s w true (λ _, false)) as Hp. rewrite Hw in Hp.
  by eapply grant_post_others.
Qed.

Lemma lock_post_others s request id nb jump shares s' g o :
  lock_post s request id nb jump shares s' g →
  o ∈ owners s' → locker_id o ≠ id → o ∈ owners s.
Proof.
  intros Hp Ho Hne. destruct g; simpl in Hp; try done;
    try (eapply (grant_post_others _ (LockInfo_new id request)); eassumption);
    try (by destruct Hp as (_ & Heq & _); rewrite Heq in Ho).
Qed.

Lemma demote_others s id o : o ∈ owners (demote s id) → locker_id o ≠ id → o ∈ owners s.
Proof.
  unfold demote. case_match; [|done]. case_match; [|done].
  rewrite owners_update_owner_type. apply elem_of_update_first_other.
Qed.

(** A request that must wait is for a type its locker does not own. *)
Lemma must_wait_not_owned sh s request id nb jump shares o :
  lock_inv sh s → (∀ x, shares x = sh x id) →
  must_wait (lock_grant (lock_with_sharing s request id nb jump shares).2) = true →
  o ∈ owners s → locker_id o = id → lock_type o ≠ request.
Proof.
  intros Hinv Hsh Hmw Ho Hid Ht. unfold lock_with_sharing in Hmw.
  set (fwil := jump || (n_waiters s =? 0)%nat) in *.
  pose proof (try_lock_post s (LockInfo_new id request) fwil shares) as Hp.
  destruct (try_lock_with_sharing s (LockInfo_new id request) fwil shares) as [s1 g].
  destruct Hp as [_ Hp]. simpl in Hp.
  destruct (must_wait g) eqn:Hg; [|simpl in Hmw; congruence].
  destruct Hinv as [Hnd Hc]. destruct g; try done.
  - destruct Hp as (_ & Hn & _). apply Hn. rewrite <-Hid. by apply list_elem_of_fmap_2.
  - destruct Hp as (_ & _ & o' & t & Ho' & Hid' & Hu).
    assert (o' = o) as -> by (eapply NoDup_owner_unique; eauto; congruence).
    rewrite Ht in Hu. by destruct request.
  - destruct Hp as (_ & o' & Ho' & [Hne Hns] & Hr).
    destruct (Hc o' o Ho' Ho) as [H|H]; [congruence| |].
    + rewrite Hsh in Hns. congruence.
    + rewrite Ht in H. congruence.
Qed.

(** * Properties *)

(** C1: mutual exclusion.  After any sequence of requests, releases,
    demotions, steals, waiter removals and notify attachments on a fresh lock,
    a locker that owns a write lock shares the record with no other locker:
    whoever else is an owner either belongs to its lock-sharing group or holds
    no lock on the record itself (at most a range-insert lock on the gap). *)
Theorem mutual_exclusion (sh : Z → Z → bool) (ops : list lock_op) (o1 o2 : LockInfo)
  (sh_sym : ∀ a b, sh a b = sh b a)
  (H1 : o1 ∈ owners (run_ops sh LockImpl_new ops))
  (H2 : o2 ∈ owners (run_ops sh LockImpl_new ops))
  (Hne : locker_id o1 ≠ locker_id o2)
  (Hsh : sh (locker_id o1) (locker_id o2) = false)
  (Hw : is_write_lock (lock_type o1) = true) :
  record_lock (lock_type o2) = false.
Proof.
  destruct (run_ops_inv sh sh_sym LockImpl_new ops (LockImpl_new_inv sh)) as [_ Hc].
  destruct (Hc o1 o2 H1 H2 Hne) as [?|Ha]; [congruence|].
  destruct (record_lock (lock_type o2)) eqn:E; [|done].
  by eapply write_excludes_record in E.
Qed.

Lemma mutual_exclusion_witness :
  record_lock (lock_type (LockInfo_new 2 RangeInsert)) = false.
Proof.
  apply (mutual_exclusion (λ _ _, false)
           [OpLock Write 1 false false; OpLock RangeInsert 2 false true]
           (LockInfo_new 1 Write)).
  - reflexivity.
  - left.
  - right; left.
  - discriminate.
  - reflexivity.
  - reflexivity.
Defined.


(** A request is granted exactly when it should be.  In every state that
    satisfies the owner invariant, a request succeeds if and only if the
    locker already holds enough, or holds a lock whose upgrade no other owner
    blocks, or holds nothing, meets no conflicting owner and overtakes nobody
    (it may jump ahead, or nobody is queued, or it has no competitor). *)
Theorem lock_granted_iff (sh : Z → Z → bool) (s : LockImpl) (request : LockType)
  (id : Z) (non_blocking jump : bool) (Hinv : lock_inv sh s) :
  success (lock_with_sharing s request id non_blocking jump (sh id)).2 = true ↔
  grantable s request id (jump = true ∨ waiters s = []) (sh id).
Proof.
  rewrite lock_success_try.
  pose proof (try_lock_granted_iff sh s (LockInfo_new id request)
                (jump || (n_waiters s =? 0)%nat) Hinv) as H.
  simpl in H. rewrite H. unfold grantable. by rewrite fwil_true.
Qed.

Lemma lock_granted_iff_witness :
  grantable (from_first_owner (LockInfo_new 1 Read)) Read 2
    (false = true ∨ waiters (from_first_owner (LockInfo_new 1 Read)) = []) (λ _, false).
Proof.
  apply (lock_granted_iff (λ _ _, false) _ Read 2 false false).
  - split; [repeat constructor; set_solver|].
    intros o1 o2 ->%list_elem_of_singleton ->%list_elem_of_singleton; done.
  - reflexivity.
Defined.

(** C19: a release wakes the queue as far as it can and no further.  For a
    lock that satisfies the owner invariant, releasing a locker that is not an
    owner changes nothing; otherwise the woken requests are a prefix of the
    queue, the returned lockers and the signalled condition variables are
    theirs, each of them (a restart request apart) holds what it asked for,
    the request left at the head cannot be granted in the resulting state, and
    the resulting owners satisfy the invariant again. *)
Theorem release_wakes_prefix (sh : Z → Z → bool) (s : LockImpl) (id : Z)
  (sh_sym : ∀ a b, sh a b = sh b a) (Hinv : lock_inv sh s) :
  let '(s', r) := release_with_sharing s id (sh id) in
  lock_inv sh s' ∧
  match r with
  | None => s' = s ∧ (id ∉ locker_id <$> owners s)
  | Some (ids, sig) =>
      ∃ ws, waiters s = ws ++ waiters s' ∧
        ids = locker_id <$> ws ∧ sig = ws ≫= opt_list ∘ notify ∧
        (∀ w, w ∈ ws → lock_type w ≠ RestartLock → holds s' (locker_id w) (lock_type w)) ∧
        (∀ w, head (waiters s') = Some w → cannot_be_granted (sh id) s' w)
  end.
Proof.
  pose proof (release_keeps_inv sh sh_sym s id (sh id) Hinv) as Hinv'.
  pose proof (release_with_sharing_post s id (sh id)) as Hp.
  destruct (release_with_sharing s id (sh id)) as [s' [[ids sig]|]]; [|done].
  destruct Hp as (o & s1 & ws & _ & _ & Hp & _ & Hwo & Hws & -> & -> & Hh).
  split; [done|]. exists ws. split_and!; try done.
  - intros w. eapply woken_holds; [done..|].
    unfold lock_inv in *. rewrite Hp in Hinv. by eapply compatible_owners_tail.
  - intros w. destruct (waiters s'); [done|]. by intros [= ->].
Qed.

Lemma release_wakes_prefix_witness :
  let s := run_ops (λ _ _, false) LockImpl_new
             [OpLock Write 1 false false; OpLock Read 2 false false;
              OpLock Read 3 false false; OpLock Write 4 false false] in
  (release_with_sharing s 1 (λ _, false)).2 = Some ([2; 3], []) ∧
  lock_inv (λ _ _, false) (release_with_sharing s 1 (λ _, false)).1.
Proof.
  intros s. split; [reflexivity|].
  assert (lock_inv (λ _ _, false) s) as Hs
    by (apply run_ops_inv; [reflexivity|apply LockImpl_new_inv]).
  pose proof (release_wakes_prefix (λ _ _, false) s 1 (λ _ _, eq_refl) Hs) as H.
  clearbody s. destruct (release_with_sharing s 1 (λ _, false)) as [s' r].
  exact (proj1 H).
Defined.

(** * Deviations of the slot scans

    Two read-only loops stop at an empty first slot instead of falling through
    to the vector, unlike the owner loop of [try_lock_with_sharing]. *)

(** Lockers 1 and 2 hold range-insert locks, locker 3 waits for a restart.
    When locker 1 (in the first slot) releases, locker 3 is woken although
    locker 2 still inserts; when locker 2 releases first, locker 3 waits. *)
Definition two_inserters : LockImpl :=
  run_ops (λ _ _, false) LockImpl_new
    [OpLock RangeInsert 1 false false; OpLock RangeInsert 2 false false;
     OpLock RangeRead 3 false false].

Example restart_woken_early :
  (release two_inserters 1).2 = Some ([3], []) ∧
  owners (release two_inserters 1).1 = [LockInfo_new 2 RangeInsert] ∧
  (release two_inserters 2).2 = Some ([], []).
Proof. done. Qed.

(** Locker 1 reads, lockers 2 and 3 wait to write and locker 4 waits to
    insert.  A range-write request of locker 5 must restart, and does; but when
    locker 2 (in the first slot) has given up, the same request of locker 5
    queues as an ordinary waiter behind the same insertion. *)
Definition queued_inserter : LockImpl :=
  run_ops (λ _ _, false) LockImpl_new
    [OpLock Read 1 false false; OpLock Write 2 false false;
     OpLock Write 3 false false; OpLock RangeInsert 4 false false].

Example restart_missed :
  lock_grant (lock queued_inserter RangeWrite 5 false false).2 = WaitRestart ∧
  waiters (flush_waiter queued_inserter 2) =
    [LockInfo_new 3 Write; LockInfo_new 4 RangeInsert] ∧
  lock_grant (lock (flush_waiter queued_inserter 2) RangeWrite 5 false false).2 = WaitNew.
Proof. done. Qed.
