(* ===== verification/Lock.v ===== *)
(** * Thin and full locks behind one interface (noxu-txn)

    [thin_lock_impl.rs] and [lock.rs].  A lock starts as a [ThinLockImpl], one
    optional owner and no queue, and turns into a [LockImpl] when a second
    locker asks for it.  The interface a client relies on is the class
    [RecordLock]; both representations implement it, and the theorems say that
    a thin lock behaves as the full lock it stands for. *)

From S2P Require Import Prelude LockType LockImpl.

(** ** Thin locks *)

Module Thin.

Record ThinLockImpl := mkThin { owner : option LockInfo }.

Definition ThinLockImpl_new : ThinLockImpl := mkThin None.

(** [Err(MutateToFull { existing_owner })] *)
Record MutateToFull := mkMutate { existing_owner : LockInfo }.

Definition lock (s : ThinLockImpl) (request : LockType) (id : Z)
    (_non_blocking _jump_ahead_of_waiters : bool)
    : ThinLockImpl * result LockAttemptResult MutateToFull :=
  match owner s with
  | Some o =>
      if negb (bool_decide (locker_id o = id)) then (s, Err (mkMutate o))
      else
        let upgrade := get_upgrade (lock_type o) request in
        if is_illegal upgrade then (s, Ok (LockAttemptResult_new IllegalUpgrade))
        else match get_upgrade_type upgrade with
             | Some t =>
                 (mkThin (Some (set_type t o)),
                  Ok (LockAttemptResult_new
                        (if is_promotion upgrade then Promotion else Existing)))
             | None => (s, Ok (LockAttemptResult_new Existing))
             end
  | None => (mkThin (Some (LockInfo_new id request)), Ok (LockAttemptResult_new New))
  end.

Definition release (s : ThinLockImpl) (id : Z) : ThinLockImpl * option (list Z * list nat) :=
  match owner s with
  | Some o => if decide (locker_id o = id) then (mkThin None, Some ([], [])) else (s, None)
  | None => (s, None)
  end.

(** The locker argument is ignored by the code. *)
Definition demote (s : ThinLockImpl) (_id : Z) : ThinLockImpl :=
  match owner s with
  | Some o =>
      if is_write_lock (lock_type o) then
        mkThin (Some (set_type
          (if decide (lock_type o = RangeWrite) then RangeRead else Read) o))
      else s
  | None => s
  end.

Definition steal_lock_preemptable (s : ThinLockImpl) (id : Z) (preemptable : Z → bool)
    : ThinLockImpl * list Z :=
  match owner s with
  | Some o => if preempts id preemptable o then (mkThin None, [locker_id o]) else (s, [])
  | None => (s, [])
  end.

Definition steal_lock (s : ThinLockImpl) (id : Z) : ThinLockImpl * list Z :=
  steal_lock_preemptable s id (λ _, true).

Definition flush_waiter (s : ThinLockImpl) (_id : Z) : ThinLockImpl := s.

Definition is_owner (s : ThinLockImpl) (id : Z) (t : LockType) : bool :=
  match owner s with
  | Some o => bool_decide (locker_id o = id) && bool_decide (lock_type o = t)
  | None => false
  end.

Definition is_owned_write_lock (s : ThinLockImpl) (id : Z) : bool :=
  match owner s with
  | Some o => bool_decide (locker_id o = id) && is_write_lock (lock_type o)
  | None => false
  end.

Definition get_owned_lock_type (s : ThinLockImpl) (id : Z) : option LockType :=
  match owner s with
  | Some o => if decide (locker_id o = id) then Some (lock_type o) else None
  | None => None
  end.

Definition is_waiter (_s : ThinLockImpl) (_id : Z) : bool := false.
Definition n_waiters (_s : ThinLockImpl) : nat := 0.
Definition n_owners (s : ThinLockImpl) : nat :=
  match owner s with Some _ => 1 | None => 0 end.

Definition get_write_owner_locker_id (s : ThinLockImpl) : option Z :=
  match owner s with
  | Some o => if is_write_lock (lock_type o) then Some (locker_id o) else None
  | None => None
  end.

Definition get_owners_clone (s : ThinLockImpl) : list LockInfo := opt_list (owner s).
Definition get_waiters_clone (_s : ThinLockImpl) : list LockInfo := [].

(** The full lock a thin lock stands for. *)
Definition to_full (s : ThinLockImpl) : LockImpl := mkLockImpl (owner s) None None None.

End Thin.

(** ** The unified lock *)

Inductive Lock :=
| ThinLock (t : Thin.ThinLockImpl)
| FullLock (f : LockImpl).

Definition new_thin : Lock := ThinLock Thin.ThinLockImpl_new.
Definition new_full : Lock := FullLock LockImpl_new.

Definition lock_with_sharing (l : Lock) (request : LockType) (id : Z)
    (non_blocking jump_ahead_of_waiters : bool) (shares : Z → bool)
    : Lock * LockAttemptResult :=
  match l with
  | ThinLock thin =>
      match Thin.lock thin request id non_blocking jump_ahead_of_waiters with
      | (thin', Ok r) => (ThinLock thin', r)
      | (_, Err mutation) =>
          let full := from_first_owner (Thin.existing_owner mutation) in
          let '(full', r) :=
            LockImpl.lock_with_sharing full request id non_blocking
              jump_ahead_of_waiters shares in
          (FullLock full', r)
      end
  | FullLock full =>
      let '(full', r) :=
        LockImpl.lock_with_sharing full request id non_blocking
          jump_ahead_of_waiters shares in
      (FullLock full', r)
  end.

Definition lock (l : Lock) (request : LockType) (id : Z)
    (non_blocking jump_ahead_of_waiters : bool) : Lock * LockAttemptResult :=
  match l with
  | ThinLock thin =>
      match Thin.lock thin request id non_blocking jump_ahead_of_waiters with
      | (thin', Ok r) => (ThinLock thin', r)
      | (_, Err mutation) =>
          let full := from_first_owner (Thin.existing_owner mutation) in
          let '(full', r) :=
            LockImpl.lock full request id non_blocking jump_ahead_of_waiters in
          (FullLock full', r)
      end
  | FullLock full =>
      let '(full', r) :=
        LockImpl.lock full request id non_blocking jump_ahead_of_waiters in
      (FullLock full', r)
  end.

Definition release_with_sharing (l : Lock) (id : Z) (shares : Z → bool)
    : Lock * option (list Z * list nat) :=
  match l with
  | ThinLock thin => let '(t, r) := Thin.release thin id in (ThinLock t, r)
  | FullLock full =>
      let '(f, r) := LockImpl.release_with_sharing full id shares in (FullLock f, r)
  end.

Definition release (l : Lock) (id : Z) : Lock * option (list Z * list nat) :=
  match l with
  | ThinLock thin => let '(t, r) := Thin.release thin id in (ThinLock t, r)
  | FullLock full => let '(f, r) := LockImpl.release full id in (FullLock f, r)
  end.

Definition demote (l : Lock) (id : Z) : Lock :=
  match l with
  | ThinLock thin => ThinLock (Thin.demote thin id)
  | FullLock full => FullLock (LockImpl.demote full id)
  end.

Definition steal_lock_preemptable (l : Lock) (id : Z) (preemptable : Z → bool)
    : Lock * list Z :=
  match l with
  | ThinLock thin =>
      let '(t, r) := Thin.steal_lock_preemptable thin id preemptable in (ThinLock t, r)
  | FullLock full =>
      let '(f, r) := LockImpl.steal_lock_preemptable full id preemptable in (FullLock f, r)
  end.

Definition steal_lock (l : Lock) (id : Z) : Lock * list Z :=
  match l with
  | ThinLock thin => let '(t, r) := Thin.steal_lock thin id in (ThinLock t, r)
  | FullLock full => let '(f, r) := LockImpl.steal_lock full id in (FullLock f, r)
  end.

Definition flush_waiter (l : Lock) (id : Z) : Lock :=
  match l with
  | ThinLock thin => ThinLock (Thin.flush_waiter thin id)
  | FullLock full => FullLock (LockImpl.flush_waiter full id)
  end.

Definition set_waiter_notify (l : Lock) (id : Z) (n : nat) : Lock :=
  match l with
  | ThinLock thin => ThinLock thin
  | FullLock full => FullLock (LockImpl.set_waiter_notify full id n)
  end.

Definition get_owners_clone (l : Lock) : list LockInfo :=
  match l with
  | ThinLock thin => Thin.get_owners_clone thin
  | FullLock full => owners full
  end.

Definition get_waiters_clone (l : Lock) : list LockInfo :=
  match l with
  | ThinLock thin => Thin.get_waiters_clone thin
  | FullLock full => waiters full
  end.

Definition get_owner_ids (l : Lock) : list Z := locker_id <$> get_owners_clone l.

Definition is_owner (l : Lock) (id : Z) (t : LockType) : bool :=
  match l with
  | ThinLock thin => Thin.is_owner thin id t
  | FullLock full => LockImpl.is_owner full id t
  end.

Definition is_owned_write_lock (l : Lock) (id : Z) : bool :=
  match l with
  | ThinLock thin => Thin.is_owned_write_lock thin id
  | FullLock full => LockImpl.is_owned_write_lock full id
  end.

Definition get_owned_lock_type (l : Lock) (id : Z) : option LockType :=
  match l with
  | ThinLock thin => Thin.get_owned_lock_type thin id
  | FullLock full => LockImpl.get_owned_lock_type full id
  end.

Definition is_waiter (l : Lock) (id : Z) : bool :=
  match l with
  | ThinLock thin => Thin.is_waiter thin id
  | FullLock full => LockImpl.is_waiter full id
  end.

Definition n_waiters (l : Lock) : nat :=
  match l with
  | ThinLock thin => Thin.n_waiters thin
  | FullLock full => LockImpl.n_waiters full
  end.

Definition n_owners (l : Lock) : nat :=
  match l with
  | ThinLock thin => Thin.n_owners thin
  | FullLock full => LockImpl.n_owners full
  end.

Definition get_write_owner_locker_id (l : Lock) : option Z :=
  match l with
  | ThinLock thin => Thin.get_write_owner_locker_id thin
  | FullLock full => LockImpl.get_write_owner_locker_id full
  end.

(** * Theorems *)

(** ** The interface of a record lock

    What a lock table relies on, whatever the representation [L]: a full lock
    that the representation stands for, and operations that act on it as the
    operations of the full lock do.  Demotion is promised only to a locker
    that is an owner. *)

Class RecordLock (L : Type) := {
  rl_repr : L → LockImpl;
  rl_new : L;
  rl_lock : L → LockType → Z → bool → bool → (Z → bool) → L * LockAttemptResult;
  rl_release : L → Z → (Z → bool) → L * option (list Z * list nat);
  rl_demote : L → Z → L;
  rl_steal : L → Z → (Z → bool) → L * list Z;
  rl_flush_waiter : L → Z → L;
  rl_set_notify : L → Z → nat → L
}.

Class RecordLockLaws (L : Type) `{RecordLock L} : Prop := {
  rl_new_ok : rl_repr rl_new = LockImpl_new;
  rl_lock_ok l request id nb jump shares :
    prod_map rl_repr (λ r, r) (rl_lock l request id nb jump shares) =
    LockImpl.lock_with_sharing (rl_repr l) request id nb jump shares;
  rl_release_ok l id shares :
    prod_map rl_repr (λ r, r) (rl_release l id shares) =
    LockImpl.release_with_sharing (rl_repr l) id shares;
  rl_demote_ok l id :
    id ∈ locker_id <$> owners (rl_repr l) →
    rl_repr (rl_demote l id) = LockImpl.demote (rl_repr l) id;
  rl_steal_ok l id preemptable :
    prod_map rl_repr (λ r, r) (rl_steal l id preemptable) =
    LockImpl.steal_lock_preemptable (rl_repr l) id preemptable;
  rl_flush_ok l id :
    rl_repr (rl_flush_waiter l id) = LockImpl.flush_waiter (rl_repr l) id;
  rl_notify_ok l id n :
    rl_repr (rl_set_notify l id n) = LockImpl.set_waiter_notify (rl_repr l) id n
}.

(** The full lock implements its own interface. *)
#[export] Instance full_RecordLock : RecordLock LockImpl := {
  rl_repr s := s;
  rl_new := LockImpl_new;
  rl_lock := LockImpl.lock_with_sharing;
  rl_release := LockImpl.release_with_sharing;
  rl_demote := LockImpl.demote;
  rl_steal := LockImpl.steal_lock_preemptable;
  rl_flush_waiter := LockImpl.flush_waiter;
  rl_set_notify := LockImpl.set_waiter_notify
}.

#[export] Instance full_RecordLockLaws : RecordLockLaws LockImpl.
Proof.
  split; intros; simpl; try done.
  - by destruct (LockImpl.lock_with_sharing _ _ _ _ _ _).
  - by destruct (LockImpl.release_with_sharing _ _ _).
  - by destruct (LockImpl.steal_lock_preemptable _ _ _).
Qed.

(** The thin-or-full lock. *)
Definition repr (l : Lock) : LockImpl :=
  match l with ThinLock t => Thin.to_full t | FullLock f => f end.

#[export] Instance Lock_RecordLock : RecordLock Lock := {
  rl_repr := repr;
  rl_new := new_thin;
  rl_lock := lock_with_sharing;
  rl_release := release_with_sharing;
  rl_demote := demote;
  rl_steal := steal_lock_preemptable;
  rl_flush_waiter := flush_waiter;
  rl_set_notify := set_waiter_notify
}.

Lemma lock_repr_eq l request id nb jump shares :
  prod_map repr (λ r, r) (lock_with_sharing l request id nb jump shares) =
  LockImpl.lock_with_sharing (repr l) request id nb jump shares.
Proof.
  destruct l as [[[o|]]|f]; simpl.
  - unfold Thin.lock; simpl. case_bool_decide as Hid; simpl.
    + unfold LockImpl.lock_with_sharing, try_lock_with_sharing; simpl.
      rewrite decide_True by done.
      destruct (get_upgrade (lock_type o) request) eqn:Hu; simpl;
        rewrite ?Hu; simpl; unfold update_owner_type; simpl; rewrite ?decide_True by done; done.
    + change (Thin.to_full (Thin.mkThin (Some o))) with (from_first_owner o).
      by destruct (LockImpl.lock_with_sharing _ _ _ _ _ _).
  - done.
  - by destruct (LockImpl.lock_with_sharing _ _ _ _ _ _).
Qed.

Lemma release_repr_eq l id shares :
  prod_map repr (λ r, r) (release_with_sharing l id shares) =
  LockImpl.release_with_sharing (repr l) id shares.
Proof.
  destruct l as [[[o|]]|f]; simpl.
  - unfold LockImpl.release_with_sharing, flush_owner, Thin.release; simpl. by case_decide.
  - done.
  - by destruct (LockImpl.release_with_sharing _ _ _).
Qed.

Lemma steal_repr_eq l id preemptable :
  prod_map repr (λ r, r) (steal_lock_preemptable l id preemptable) =
  LockImpl.steal_lock_preemptable (repr l) id preemptable.
Proof.
  destruct l as [[[o|]]|f]; simpl.
  - unfold LockImpl.steal_lock_preemptable, Thin.steal_lock_preemptable; simpl.
    by destruct (preempts id preemptable o).
  - done.
  - by destruct (LockImpl.steal_lock_preemptable _ _ _).
Qed.

Lemma demote_repr_eq l id :
  id ∈ locker_id <$> owners (repr l) → repr (demote l id) = LockImpl.demote (repr l) id.
Proof.
  destruct l as [[[o|]]|f]; simpl; [|done..].
  intros ->%list_elem_of_singleton.
  unfold LockImpl.demote, LockImpl.get_owner_lock_info, update_owner_type, Thin.demote; simpl.
  destruct (decide (locker_id o = locker_id o)); [|done].
  by destruct (is_write_lock (lock_type o)).
Qed.

#[export] Instance Lock_RecordLockLaws : RecordLockLaws Lock.
Proof.
  split; simpl.
  - done.
  - apply lock_repr_eq.
  - apply release_repr_eq.
  - apply demote_repr_eq.
  - apply steal_repr_eq.
  - intros [[[o|]]|f] id; done.
  - intros [[[o|]]|f] id n; done.
Qed.

(** The observers read the same facts off both representations. *)
Lemma get_owners_clone_repr l : get_owners_clone l = owners (repr l).
Proof. by destruct l as [[[o|]]|f]. Qed.

Lemma get_waiters_clone_repr l : get_waiters_clone l = waiters (repr l).
Proof. by destruct l. Qed.

Lemma n_owners_repr l : n_owners l = length (owners (repr l)).
Proof. destruct l as [[[o|]]|f]; [done..|]. apply n_owners_length. Qed.

Lemma n_waiters_repr l : n_waiters l = length (waiters (repr l)).
Proof. destruct l; [done|]. apply n_waiters_length. Qed.

Lemma get_owned_lock_type_repr l id :
  get_owned_lock_type l id = LockImpl.get_owned_lock_type (repr l) id.
Proof.
  destruct l as [[[o|]]|f]; simpl; [|done..].
  unfold LockImpl.get_owned_lock_type, get_owner_lock_info, Thin.get_owned_lock_type; simpl.
  by destruct (decide (locker_id o = id)).
Qed.

Lemma is_owner_repr l id t : is_owner l id t = LockImpl.is_owner (repr l) id t.
Proof.
  destruct l as [[[o|]]|f]; simpl; [|done..].
  unfold LockImpl.is_owner, get_owner_lock_info, Thin.is_owner; simpl.
  destruct (decide (locker_id o = id)); [rewrite bool_decide_eq_true_2 by done|
    rewrite bool_decide_eq_false_2 by done]; done.
Qed.

Lemma get_write_owner_repr l :
  get_write_owner_locker_id l = LockImpl.get_write_owner_locker_id (repr l).
Proof. by destruct l as [[[o|]]|f]. Qed.

(** ** Clients of the interface *)

Section interface.
Context {L : Type} `{RecordLockLaws L}.
Context (sh : Z → Z → bool).
Context (sh_sym : ∀ a b, sh a b = sh b a).

Definition rl_inv (l : L) : Prop := lock_inv sh (rl_repr l).

Lemma rl_inv_new : rl_inv rl_new.
Proof. unfold rl_inv. rewrite rl_new_ok. apply LockImpl_new_inv. Qed.

Lemma rl_repr_fst {A} (p : L * A) : rl_repr p.1 = (prod_map rl_repr (λ r, r) p).1.
Proof. by destruct p. Qed.

Lemma rl_inv_lock l request id nb jump shares :
  (∀ x, shares x = true → sh id x = true) →
  rl_inv l → rl_inv (rl_lock l request id nb jump shares).1.
Proof.
  unfold rl_inv. rewrite rl_repr_fst, rl_lock_ok. by apply lock_keeps_inv.
Qed.

Lemma rl_inv_release l id shares : rl_inv l → rl_inv (rl_release l id shares).1.
Proof.
  unfold rl_inv. rewrite rl_repr_fst, rl_release_ok. by apply release_keeps_inv.
Qed.

Lemma rl_inv_steal l id preemptable : rl_inv l → rl_inv (rl_steal l id preemptable).1.
Proof.
  unfold rl_inv. rewrite rl_repr_fst, rl_steal_ok. unfold lock_inv. rewrite owners_steal.
  by apply compatible_owners_filter.
Qed.

Lemma rl_inv_flush l id : rl_inv l → rl_inv (rl_flush_waiter l id).
Proof. unfold rl_inv, lock_inv. by rewrite rl_flush_ok, owners_flush_waiter. Qed.

Lemma rl_inv_notify l id n : rl_inv l → rl_inv (rl_set_notify l id n).
Proof. unfold rl_inv, lock_inv. by rewrite rl_notify_ok, owners_set_waiter_notify. Qed.
End interface.

(** ** Runs of a record lock

    The visible results of a sequence of operations, on any representation. *)

Inductive lock_out :=
| OutAttempt (r : LockAttemptResult)
| OutRelease (r : option (list Z * list nat))
| OutSteal (ids : list Z)
| OutUnit.

Section runs.
Context {L : Type} `{RecordLock L}.
Context (sh : Z → Z → bool).

Definition rl_step (l : L) (op : lock_op) : L * lock_out :=
  match op with
  | OpLock request id nb jump => prod_map (λ l, l) OutAttempt (rl_lock l request id nb jump (sh id))
  | OpRelease id => prod_map (λ l, l) OutRelease (rl_release l id (sh id))
  | OpDemote id => (rl_demote l id, OutUnit)
  | OpSteal id preemptable => prod_map (λ l, l) OutSteal (rl_steal l id preemptable)
  | OpFlushWaiter id => (rl_flush_waiter l id, OutUnit)
  | OpSetNotify id n => (rl_set_notify l id n, OutUnit)
  end.

Fixpoint rl_run (l : L) (ops : list lock_op) : L * list lock_out :=
  match ops with
  | [] => (l, [])
  | op :: ops' =>
      let '(l1, out) := rl_step l op in
      let '(l2, outs) := rl_run l1 ops' in (l2, out :: outs)
  end.

(** Every demotion of the sequence is asked for by an owner. *)
Fixpoint demotions_owned (l : L) (ops : list lock_op) : Prop :=
  match ops with
  | [] => True
  | op :: ops' =>
      match op with
      | OpDemote id => id ∈ locker_id <$> owners (rl_repr l)
      | _ => True
      end ∧ demotions_owned (rl_step l op).1 ops'
  end.
End runs.

Lemma rl_step_full {L} `{RecordLockLaws L} sh (l : L) op :
  match op with OpDemote id => id ∈ locker_id <$> owners (rl_repr l) | _ => True end →
  prod_map rl_repr (λ o, o) (rl_step sh l op) = rl_step sh (rl_repr l) op.
Proof.
  intros Hd. destruct op; simpl.
  - rewrite <-rl_lock_ok. by destruct (rl_lock _ _ _ _ _ _).
  - rewrite <-rl_release_ok. by destruct (rl_release _ _ _).
  - by rewrite rl_demote_ok.
  - rewrite <-rl_steal_ok. by destruct (rl_steal _ _ _).
  - by rewrite rl_flush_ok.
  - by rewrite rl_notify_ok.
Qed.

Lemma rl_run_full {L} `{RecordLockLaws L} sh (l : L) ops :
  demotions_owned sh (rl_repr l) ops →
  prod_map rl_repr (λ o, o) (rl_run sh l ops) = rl_run sh (rl_repr l) ops.
Proof.
  revert l; induction ops as [|op ops IH]; intros l; [done|]. intros [Hd Hds].
  pose proof (rl_step_full sh l op Hd) as Hs. simpl in *.
  destruct (rl_step sh l op) as [l1 out]; simpl in Hs.
  rewrite <-Hs in *; simpl in *. rewrite <-(IH l1) by done.
  by destruct (rl_run sh l1 ops).
Qed.

(** * Properties *)


Definition demo_ops : list lock_op :=
  [OpLock Write 1 false false; OpDemote 1; OpLock Read 2 false false;
   OpLock Write 2 false false; OpRelease 1; OpRelease 2].


(** A thin lock demotes its owner on the request of any locker; the full lock
    ignores a demotion that its owner did not ask for. *)
Example thin_demote_ignores_locker :
  get_owned_lock_type (demote (ThinLock (Thin.mkThin (Some (LockInfo_new 1 Write)))) 2) 1
    = Some Read ∧
  get_owned_lock_type (demote (FullLock (from_first_owner (LockInfo_new 1 Write))) 2) 1
    = Some Write.
Proof. done. Qed.
