(* ===== verification/Deadlock.v ===== *)
(** * Deadlock detection (noxu-txn)

    [deadlock_detector.rs].  The waits-for graph maps a locker to the lockers
    it waits for; a [HashSet] is the list of its elements in the order the
    iteration visits them, and the theorems hold for every such order.

    The search is shown to terminate (its fuel is never exhausted), to return
    only real cycles and to miss none. *)

From S2P Require Import Prelude.

Abbreviation graph := (gmap Z (list Z)).

(** ** Operations *)

(** The [for &next in waiting_for] loop of [dfs], for the recursive call
    [rec]. *)
Fixpoint dfs_loop (rec : Z → gset Z → list Z → option (bool * gset Z * list Z))
    (target : Z) (nexts : list Z) (visited : gset Z) (path : list Z)
    : option (bool * gset Z * list Z) :=
  match nexts with
  | [] => Some (false, visited, path)
  | next :: rest =>
      let path' := path ++ [next] in
      if decide (next = target) then Some (true, visited, path')
      else
        match rec next visited path' with
        | None => None
        | Some (true, v, p) => Some (true, v, p)
        | Some (false, v, p) => dfs_loop rec target rest v (removelast p)
        end
  end.

Fixpoint dfs (fuel : nat) (current target : Z) (waits_for : graph)
    (visited : gset Z) (path : list Z) : option (bool * gset Z * list Z) :=
  match fuel with
  | O => None
  | S fuel' =>
      if decide (current ∈ visited) then Some (false, visited, path)
      else
        let visited := {[current]} ∪ visited in
        match waits_for !! current with
        | None => Some (false, visited, path)
        | Some waiting_for =>
            dfs_loop (λ next v p, dfs fuel' next target waits_for v p)
              target waiting_for visited path
        end
  end.

(** Each level of the recursion visits one more waiting locker. *)
Definition dfs_fuel (waits_for : graph) : nat := S (size waits_for).

(** [None] when the fuel of a search is exhausted. *)
Fixpoint detect_fueled (requester : Z) (owner_ids : list Z) (waits_for : graph)
    : option (option (list Z)) :=
  match owner_ids with
  | [] => Some None
  | owner_id :: rest =>
      if decide (owner_id = requester) then detect_fueled requester rest waits_for
      else
        match dfs (dfs_fuel waits_for) owner_id requester waits_for ∅
                [requester; owner_id] with
        | None => None
        | Some (true, _, path) => Some (Some path)
        | Some (false, _, _) => detect_fueled requester rest waits_for
        end
  end.

Definition detect (requester : Z) (owner_ids : list Z) (waits_for : graph)
    : option (list Z) :=
  match detect_fueled requester owner_ids waits_for with
  | Some r => r
  | None => None
  end.

(** [cycle.iter().copied().filter(|id| seen.insert( *id))] *)
Fixpoint dedup (seen : gset Z) (cycle : list Z) : list Z :=
  match cycle with
  | [] => []
  | id :: rest =>
      if decide (id ∈ seen) then dedup seen rest
      else id :: dedup ({[id]} ∪ seen) rest
  end.

Definition lock_count (lock_counts : gmap Z nat) (id : Z) : nat :=
  default 0%nat (lock_counts !! id).

(** The order of the keys [(count, Reverse(id))]. *)
Definition key_lt (lock_counts : gmap Z nat) (a b : Z) : bool :=
  (lock_count lock_counts a <? lock_count lock_counts b)%nat
  || (lock_count lock_counts a =? lock_count lock_counts b)%nat && (b <? a).

(** [min_by_key] keeps the earlier element on a tie. *)
Definition min_by_key (lock_counts : gmap Z nat) (ids : list Z) : option Z :=
  match ids with
  | [] => None
  | id :: rest =>
      Some (foldl (λ best x, if key_lt lock_counts x best then x else best) id rest)
  end.

(** [None] where [cycle[0]] would be out of bounds. *)
Definition select_victim (cycle : list Z) (lock_counts : gmap Z nat) : option Z :=
  match min_by_key lock_counts (dedup ∅ cycle) with
  | Some v => Some v
  | None => head cycle
  end.

(** * Theorems *)

(** ** Paths of the waits-for graph *)

Definition edge (g : graph) (a b : Z) : Prop := ∃ l, g !! a = Some l ∧ b ∈ l.

(** [walk g a p b]: following [p] from [a] ends in [b]. *)
Fixpoint walk (g : graph) (a : Z) (p : list Z) (b : Z) : Prop :=
  match p with
  | [] => a = b
  | x :: p' => edge g a x ∧ walk g x p' b
  end.

Lemma walk_tc g a p b : p ≠ [] → walk g a p b → tc (edge g) a b.
Proof.
  revert a; induction p as [|x p IH]; intros a; [done|]. intros _ [He Hw].
  destruct p as [|y p].
  - simpl in Hw. subst. by apply tc_once.
  - eapply tc_l; [done|]. by apply IH.
Qed.

(** ** The search *)

Section search.
Context (g : graph) (target : Z).

Definition closed_from (vis vis' : gset Z) : Prop :=
  ∀ v w, v ∈ vis' → v ∉ vis → edge g v w → w ∈ vis' ∧ w ≠ target.

Definition dfs_post (cur : Z) (vis : gset Z) (path : list Z)
    (r : bool * gset Z * list Z) : Prop :=
  match r with
  | (true, _, path') => ∃ p, path' = path ++ p ∧ p ≠ [] ∧ walk g cur p target
  | (false, vis', path') =>
      path' = path ∧ vis ⊆ vis' ∧ cur ∈ vis' ∧ closed_from vis vis'
  end.

Lemma closed_from_trans vis0 vis1 vis2 :
  vis1 ⊆ vis2 → closed_from vis0 vis1 → closed_from vis1 vis2 → closed_from vis0 vis2.
Proof.
  intros Hs H1 H2 v w Hv Hn He. destruct (decide (v ∈ vis1)) as [Hv1|Hv1].
  - destruct (H1 v w Hv1 Hn He). split; [by apply Hs|done].
  - by apply (H2 v w).
Qed.

Lemma dfs_loop_post rec cur nexts vis0 path :
  (∀ x vis p, vis0 ⊆ vis → ∃ r, rec x vis p = Some r ∧ dfs_post x vis p r) →
  (∀ x, x ∈ nexts → edge g cur x) →
  ∀ vis, vis0 ⊆ vis →
  ∃ r, dfs_loop rec target nexts vis path = Some r ∧
    match r with
    | (true, _, path') => ∃ p, path' = path ++ p ∧ p ≠ [] ∧ walk g cur p target
    | (false, vis', path') =>
        path' = path ∧ vis ⊆ vis' ∧ closed_from vis vis' ∧
        ∀ x, x ∈ nexts → x ∈ vis' ∧ x ≠ target
    end.
Proof.
  intros Hrec. induction nexts as [|x nexts IH]; intros Hed vis Hvis; simpl.
  { eexists; split; [done|]. split_and!; [done..| |].
    - by intros v w Hv Hn.
    - by intros x ?%not_elem_of_nil. }
  case_decide as Hx.
  { eexists; split; [done|]. exists [x]; split_and!; [done..|]. simpl.
    split; [apply Hed; left|done]. }
  destruct (Hrec x vis (path ++ [x]) Hvis) as ([[[] v1] p1] & -> & Hp).
  - destruct Hp as (p & -> & Hne & Hw). eexists; split; [done|].
    exists (x :: p). rewrite <-app_assoc. split_and!; [done..|].
    split; [apply Hed; left|done].
  - destruct Hp as (-> & Hsub & Hin & Hcl). rewrite removelast_last.
    destruct (IH ltac:(intros; apply Hed; by right) v1 ltac:(set_solver))
      as ([[[] v2] p2] & -> & Hp2); [by eauto|].
    destruct Hp2 as (-> & Hsub2 & Hcl2 & Hall).
    eexists; split; [done|]. split_and!; [done|set_solver| |].
    + by eapply closed_from_trans.
    + intros y [->|Hy]%elem_of_cons; [split; [by apply Hsub2|done]|by apply Hall].
Qed.

Lemma dfs_spec fuel cur vis path :
  (size (dom g ∖ vis) < fuel)%nat →
  ∃ r, dfs fuel cur target g vis path = Some r ∧ dfs_post cur vis path r.
Proof.
  revert cur vis path; induction fuel as [|fuel IH]; intros cur vis path Hf; [lia|].
  simpl. case_decide as Hv.
  { eexists; split; [done|]. split_and!; [done..|]. by intros v w ? Hn. }
  destruct (g !! cur) as [nexts|] eqn:Hg.
  2:{ eexists; split; [done|]. split_and!; [done|set_solver|set_solver|].
      intros v w Hin Hn (l & Hl & _). assert (v = cur) as -> by set_solver. congruence. }
  destruct (dfs_loop_post (λ next v p, dfs fuel next target g v p) cur nexts
              ({[cur]} ∪ vis) path) with (vis := {[cur]} ∪ vis)
    as ([[[] v'] p'] & -> & Hp).
  - intros x vis1 p Hvis1. apply IH.
    assert (dom g ∖ vis1 ⊂ dom g ∖ vis) as Hlt%subset_size; [|lia].
    assert (cur ∈ dom g) by (apply elem_of_dom; eauto). set_solver.
  - intros x Hx. exists nexts. eauto.
  - done.
  - eexists; split; [done|]. done.
  - destruct Hp as (-> & Hsub & Hcl & Hall).
    eexists; split; [done|]. split_and!; [done|set_solver|set_solver|].
    intros v w Hin Hn He. destruct (decide (v = cur)) as [->|Hne].
    + destruct He as (l & Hl & Hw). assert (l = nexts) as -> by congruence. by apply Hall.
    + apply (Hcl v w); [done|set_solver|done].
Qed.

(** A set that is closed under the edges and that no edge leaves for the
    target contains no way to it. *)
Lemma closed_from_unreachable vis a :
  closed_from ∅ vis → a ∈ vis → ¬ tc (edge g) a target.
Proof.
  intros Hcl Ha Htc.
  assert (∀ x y, tc (edge g) x y → x ∈ vis → y ≠ target) as H.
  { clear a Ha Htc. intros x y Htc. induction Htc as [x y He|x y z He Htc IH]; intros Hx.
    - by apply (Hcl x y).
    - apply IH. by apply (Hcl x y). }
  by eapply H.
Qed.
End search.

(** ** The detector *)

(** What a search over a list of owners decides. *)
Definition detect_post (g : graph) (requester : Z) (owner_ids : list Z)
    (r : option (list Z)) : Prop :=
  match r with
  | Some cycle =>
      ∃ o p, cycle = requester :: o :: p ∧ o ∈ owner_ids ∧ o ≠ requester ∧
             p ≠ [] ∧ walk g o p requester
  | None => ∀ o, o ∈ owner_ids → o ≠ requester → ¬ tc (edge g) o requester
  end.

Lemma detect_fueled_post g requester owner_ids :
  ∃ r, detect_fueled requester owner_ids g = Some r ∧
       detect_post g requester owner_ids r.
Proof.
  induction owner_ids as [|o os (r & IHr & IH)]; cbn [detect_fueled].
  { eexists; split; [done|]. by intros o ?%not_elem_of_nil. }
  case_decide as Ho.
  { rewrite IHr. eexists; split; [done|]. destruct r as [cycle|].
    - destruct IH as (o' & p & ? & ? & ?). exists o', p. set_solver.
    - intros o' [->|?]%elem_of_cons; [done|by apply IH]. }
  destruct (dfs_spec g requester (dfs_fuel g) o ∅ [requester; o]) as ([[[] v] p] & -> & Hp).
  { unfold dfs_fuel. rewrite difference_empty_L, size_dom. lia. }
  - destruct Hp as (p' & -> & Hne & Hw). eexists; split; [done|].
    exists o, p'. simpl. set_solver.
  - destruct Hp as (_ & _ & Hin & Hcl). rewrite IHr. eexists; split; [done|].
    destruct r as [cycle|].
    + destruct IH as (o' & p' & ? & ? & ?). exists o', p'. set_solver.
    + intros o' [->|?]%elem_of_cons; [|by apply IH].
      intros _. by eapply closed_from_unreachable.
Qed.

Lemma detect_detect_post g requester owner_ids :
  detect_post g requester owner_ids (detect requester owner_ids g).
Proof.
  unfold detect. by destruct (detect_fueled_post g requester owner_ids) as (r & -> & ?).
Qed.

(** ** The victim *)

Lemma elem_of_dedup seen cycle x : x ∈ dedup seen cycle ↔ x ∈ cycle ∧ x ∉ seen.
Proof.
  revert seen; induction cycle as [|y cycle IH]; intros seen; simpl; [set_solver|].
  case_decide; [rewrite IH; set_solver|]. rewrite elem_of_cons, IH.
  destruct (decide (x = y)); set_solver.
Qed.

(** [b] is not preferred to [a]: it has more locks, or as many and is not
    younger. *)
Definition key_le (lock_counts : gmap Z nat) (a b : Z) : Prop :=
  (lock_count lock_counts a < lock_count lock_counts b)%nat ∨
  lock_count lock_counts a = lock_count lock_counts b ∧ b ≤ a.

Lemma key_lt_le c a b : key_lt c a b = true → key_le c a b.
Proof. unfold key_lt, key_le. intros [?|?]%orb_true_iff; reflect_bools; lia. Qed.

Lemma key_nlt_le c a b : key_lt c a b = false → key_le c b a.
Proof.
  unfold key_lt, key_le. intros [? H]%orb_false_iff. reflect_bools.
  apply andb_false_iff in H as [?|?]; reflect_bools; lia.
Qed.

Lemma key_le_refl c a : key_le c a a.
Proof. right. lia. Qed.

Lemma key_le_trans c a b d : key_le c a b → key_le c b d → key_le c a d.
Proof. unfold key_le. lia. Qed.

Lemma min_by_key_spec c ids v :
  min_by_key c ids = Some v → v ∈ ids ∧ ∀ x, x ∈ ids → key_le c v x.
Proof.
  destruct ids as [|a ids]; [done|]. simpl. intros [= <-].
  revert a; induction ids as [|b ids IH]; intros a; simpl.
  { split; [left|]. intros x ->%list_elem_of_singleton. apply key_le_refl. }
  set (a' := if key_lt c b a then b else a).
  destruct (IH a') as [Hin Hle]. split.
  { apply elem_of_cons in Hin as [->|?]; [unfold a'; case_match|]; set_solver. }
  pose proof (Hle a' ltac:(left)) as Ha'.
  intros x [->|[->|?]%elem_of_cons]%elem_of_cons; [..|by apply Hle; right];
    (eapply key_le_trans; [done|]); unfold a'; destruct (key_lt c b a) eqn:E;
    auto using key_le_refl, key_lt_le, key_nlt_le.
Qed.

(** The example of the documentation: T1 waits for T2, T2 for T3, and T3 asks
    for a lock that T1 holds. *)
Example detect_three : detect 3 [1] {[1 := [2]; 2 := [3]]} = Some [3; 1; 2; 3].
Proof. reflexivity. Qed.

(** * Properties *)

(** C21: the deadlock detector terminates and is exact.  For every waits-for
    graph and every iteration order of its sets, the search from each owner of
    the requested lock ends; it reports a cycle exactly when some owner other
    than the requester waits, directly or through others, for the requester;
    and what it reports is a real cycle of the graph through the requester and
    that owner. *)
Theorem detect_sound_and_complete (requester : Z) (owner_ids : list Z)
  (waits_for : gmap Z (list Z)) :
  is_Some (detect_fueled requester owner_ids waits_for) ∧
  match detect requester owner_ids waits_for with
  | Some cycle =>
      ∃ o p, cycle = requester :: o :: p ∧ o ∈ owner_ids ∧ o ≠ requester ∧
             last p = Some requester ∧ walk waits_for o p requester
  | None =>
      ∀ o, o ∈ owner_ids → o ≠ requester → ¬ tc (edge waits_for) o requester
  end.
Proof.
  split.
  { destruct (detect_fueled_post waits_for requester owner_ids) as (r & -> & _). eauto. }
  pose proof (detect_detect_post waits_for requester owner_ids) as Hp.
  destruct (detect requester owner_ids waits_for) as [cycle|]; [|done].
  destruct Hp as (o & p & -> & Ho & Hne & Hp & Hw).
  exists o, p. split_and!; try done.
  clear Ho Hne. revert o Hw; induction p as [|x p IH]; intros o; [done|].
  intros [_ Hw]. destruct p as [|y p]; [by simpl in Hw; subst|].
  change (last (x :: y :: p)) with (last (y :: p)). by eapply IH.
Qed.

(** The deadlock victim is a member of the cycle that holds no more locks
    than any other member and, among those that hold as few, is the youngest
    (has the highest locker id). *)
Theorem select_victim_minimal (cycle : list Z) (lock_counts : gmap Z nat)
  (Hne : cycle ≠ []) :
  ∃ v, select_victim cycle lock_counts = Some v ∧ v ∈ cycle ∧
    ∀ x, x ∈ cycle →
      (lock_count lock_counts v < lock_count lock_counts x)%nat ∨
      lock_count lock_counts v = lock_count lock_counts x ∧ x ≤ v.
Proof.
  unfold select_victim.
  destruct (min_by_key lock_counts (dedup ∅ cycle)) as [v|] eqn:Hm.
  - apply min_by_key_spec in Hm as [Hin Hle]. exists v.
    rewrite elem_of_dedup in Hin. split_and!; [done|naive_solver|].
    intros x Hx. apply Hle, elem_of_dedup. set_solver.
  - destruct cycle as [|a cycle]; [done|]. simpl in Hm.
    by rewrite decide_False in Hm by set_solver.
Qed.

Lemma select_victim_minimal_witness :
  select_victim [3; 1; 2; 3] {[1 := 2%nat; 2 := 1%nat; 3 := 1%nat]} = Some 3 ∧
  ∃ v, select_victim [3; 1; 2; 3] {[1 := 2%nat; 2 := 1%nat; 3 := 1%nat]} = Some v ∧
       v ∈ [3; 1; 2; 3].
Proof.
  split; [reflexivity|].
  destruct (select_victim_minimal [3; 1; 2; 3] {[1 := 2%nat; 2 := 1%nat; 3 := 1%nat]})
    as (v & H1 & H2 & _); [discriminate|].
  exists v. split; [exact H1|exact H2].
Defined.
