(* ===== verification/LockManager.v ===== *)
(** * The lock manager (noxu-txn)

    [lock_manager.rs].  The sharded lock table, the registries of sharing,
    non-preemptable and preempted lockers, the waits-for graph, and the lock
    and release paths.  Each definition is one critical section of the code
    (or a function that runs inside one); a blocking request is the section
    that queues the locker followed by the sections its wait loop runs, which
    [LockSystem] interleaves with the other lockers.

    A notify pair [Arc<(Mutex<bool>, Condvar)>] is a fresh number, and
    [granted_flags] holds the pairs whose flag is set.  Formatted messages
    carry the locker ids they print.  The lock-table memory counter is an
    unbounded integer: the number of table entries is far below [2^63 / 80]. *)

From S2P Require Import Prelude LockType LockImpl Lock Deadlock.

(** Messages are strings; the wrapped error of the log is its message. *)
Inductive TxnError :=
| LockConflictError (msg : string)
| LockTimeout (timeout_ms lsn : Z) (owner : list Z) (requested_type : LockType) (requester : Z)
| TransactionTimeout (timeout_ms txn_id : Z)
| DeadlockError (cycle : list Z) (victim lsn : Z) (lock_type : LockType)
| InvalidTransaction (txn_id : Z) (state : string)
| LockNotAvailable (lsn : Z)
| LockPreempted (lsn : Z)
| RangeRestart
| IllegalUpgradeError (held requested : LockType)
| StateError (msg : string)
| LogError (msg : string).

Record LockManager := mkLockManager {
  lock_tables : list (gmap Z Lock);
  n_lock_tables : nat;
  lock_requests : Z;
  lock_waits : Z;
  lock_timeouts : Z;
  lock_timeout_ms : Z;
  share_registry : gmap Z Z;
  share_registry_nonempty : bool;
  waiter_graph : gmap Z (list Z);
  non_preemptable : gset Z;
  preempted : gset Z;
  preempted_nonempty : bool;
  lock_memory_counter : Z;
  granted_flags : gset nat;
  next_pair : nat
}.

(** Field assignments. *)
Definition with_tables m t := mkLockManager t (n_lock_tables m) (lock_requests m)
  (lock_waits m) (lock_timeouts m) (lock_timeout_ms m) (share_registry m)
  (share_registry_nonempty m) (waiter_graph m) (non_preemptable m) (preempted m)
  (preempted_nonempty m) (lock_memory_counter m) (granted_flags m) (next_pair m).
Definition with_stats m rq wt tm := mkLockManager (lock_tables m) (n_lock_tables m) rq
  wt tm (lock_timeout_ms m) (share_registry m)
  (share_registry_nonempty m) (waiter_graph m) (non_preemptable m) (preempted m)
  (preempted_nonempty m) (lock_memory_counter m) (granted_flags m) (next_pair m).
Definition with_lock_timeout m t := mkLockManager (lock_tables m) (n_lock_tables m)
  (lock_requests m) (lock_waits m) (lock_timeouts m) t (share_registry m)
  (share_registry_nonempty m) (waiter_graph m) (non_preemptable m) (preempted m)
  (preempted_nonempty m) (lock_memory_counter m) (granted_flags m) (next_pair m).
Definition with_share m r b := mkLockManager (lock_tables m) (n_lock_tables m)
  (lock_requests m) (lock_waits m) (lock_timeouts m) (lock_timeout_ms m) r b
  (waiter_graph m) (non_preemptable m) (preempted m)
  (preempted_nonempty m) (lock_memory_counter m) (granted_flags m) (next_pair m).
Definition with_graph m g := mkLockManager (lock_tables m) (n_lock_tables m)
  (lock_requests m) (lock_waits m) (lock_timeouts m) (lock_timeout_ms m) (share_registry m)
  (share_registry_nonempty m) g (non_preemptable m) (preempted m)
  (preempted_nonempty m) (lock_memory_counter m) (granted_flags m) (next_pair m).
Definition with_non_preemptable m s := mkLockManager (lock_tables m) (n_lock_tables m)
  (lock_requests m) (lock_waits m) (lock_timeouts m) (lock_timeout_ms m) (share_registry m)
  (share_registry_nonempty m) (waiter_graph m) s (preempted m)
  (preempted_nonempty m) (lock_memory_counter m) (granted_flags m) (next_pair m).
Definition with_preempted m s b := mkLockManager (lock_tables m) (n_lock_tables m)
  (lock_requests m) (lock_waits m) (lock_timeouts m) (lock_timeout_ms m) (share_registry m)
  (share_registry_nonempty m) (waiter_graph m) (non_preemptable m) s
  b (lock_memory_counter m) (granted_flags m) (next_pair m).
Definition with_memory m c := mkLockManager (lock_tables m) (n_lock_tables m)
  (lock_requests m) (lock_waits m) (lock_timeouts m) (lock_timeout_ms m) (share_registry m)
  (share_registry_nonempty m) (waiter_graph m) (non_preemptable m) (preempted m)
  (preempted_nonempty m) c (granted_flags m) (next_pair m).
Definition with_flags m f n := mkLockManager (lock_tables m) (n_lock_tables m)
  (lock_requests m) (lock_waits m) (lock_timeouts m) (lock_timeout_ms m) (share_registry m)
  (share_registry_nonempty m) (waiter_graph m) (non_preemptable m) (preempted m)
  (preempted_nonempty m) (lock_memory_counter m) f n.

(** ** Construction, statistics and the memory counter *)

Definition LOCK_ENTRY_MEMORY : Z := 48 + 32.
Definition DEFAULT_N_LOCK_TABLES : nat := 64.

Definition with_config (timeout_ms : Z) (n : nat) : LockManager :=
  let n := (n `max` 1)%nat in
  mkLockManager (replicate n ∅) n 0 0 0 timeout_ms ∅ false ∅ ∅ ∅ false 0 ∅ 0.

Definition charge_lock_entry (m : LockManager) : LockManager :=
  with_memory m (lock_memory_counter m + LOCK_ENTRY_MEMORY).

Definition credit_lock_entry (m : LockManager) : LockManager :=
  with_memory m ((lock_memory_counter m - LOCK_ENTRY_MEMORY) `max` 0).

(** [fetch_add(1)] on an [AtomicU64]. *)
Definition incr_u64 (x : Z) : Z := (x + 1) mod 2 ^ 64.

Definition count_request m :=
  with_stats m (incr_u64 (lock_requests m)) (lock_waits m) (lock_timeouts m).
Definition count_wait m :=
  with_stats m (lock_requests m) (incr_u64 (lock_waits m)) (lock_timeouts m).
Definition count_timeout m :=
  with_stats m (lock_requests m) (lock_waits m) (incr_u64 (lock_timeouts m)).

(** ** The shards *)

Definition get_table_index (m : LockManager) (lsn : Z) : nat :=
  Z.to_nat (Z.land lsn 0x7fffffff mod Z.of_nat (n_lock_tables m)).

Definition table_of (m : LockManager) (lsn : Z) : gmap Z Lock :=
  default ∅ (lock_tables m !! get_table_index m lsn).

Definition get_lock (m : LockManager) (lsn : Z) : option Lock := table_of m lsn !! lsn.

(** Writing a lock back into its shard, and removing its entry. *)
Definition put_lock (m : LockManager) (lsn : Z) (l : Lock) : LockManager :=
  with_tables m (<[get_table_index m lsn := <[lsn := l]> (table_of m lsn)]> (lock_tables m)).
Definition remove_lock (m : LockManager) (lsn : Z) : LockManager :=
  with_tables m (<[get_table_index m lsn := delete lsn (table_of m lsn)]> (lock_tables m)).

(** [table.entry(lsn).or_insert_with(Lock::new_thin)] with the memory charge of
    a new entry. *)
Definition entry_or_new (m : LockManager) (lsn : Z) : LockManager * Lock :=
  match get_lock m lsn with
  | Some l => (m, l)
  | None => (charge_lock_entry (put_lock m lsn new_thin), new_thin)
  end.

(** The removal of an entry without owners and waiters. *)
Definition drop_if_unused (m : LockManager) (lsn : Z) (l : Lock) : LockManager :=
  if ((n_owners l =? 0) && (n_waiters l =? 0))%nat
  then credit_lock_entry (remove_lock m lsn) else m.

(** ** Lock sharing *)

Definition register_locker_sharing (m : LockManager) (locker group : Z) : LockManager :=
  with_share m (<[locker := group]> (share_registry m)) true.

Definition unregister_locker_sharing (m : LockManager) (locker : Z) : LockManager :=
  let reg := delete locker (share_registry m) in
  with_share m reg (negb (bool_decide (reg = ∅))).

Definition same_share_group (m : LockManager) (a b : Z) : bool :=
  match share_registry m !! a, share_registry m !! b with
  | Some ga, Some gb => ga =? gb
  | _, _ => false
  end.

Definition build_shares_fn (m : LockManager) (locker : Z) : Z → bool :=
  let requester_group :=
    if share_registry_nonempty m then share_registry m !! locker else None in
  let registry_snapshot :=
    match requester_group with Some _ => Some (share_registry m) | None => None end in
  λ owner_id,
    match requester_group, registry_snapshot with
    | Some req_group, Some reg => bool_decide (reg !! owner_id = Some req_group)
    | _, _ => false
    end.

(** ** Preemption *)

Definition register_non_preemptable m locker :=
  with_non_preemptable m ({[locker]} ∪ non_preemptable m).
Definition unregister_non_preemptable m locker :=
  with_non_preemptable m (non_preemptable m ∖ {[locker]}).

Definition mark_preempted (m : LockManager) (victims : list Z) : LockManager :=
  match victims with
  | [] => m
  | _ => with_preempted m (list_to_set victims ∪ preempted m) true
  end.

Definition clear_preempted (m : LockManager) (locker : Z) : LockManager :=
  let p := preempted m ∖ {[locker]} in
  with_preempted m p (negb (bool_decide (p = ∅))).

(** ** The waits-for graph *)

Definition record_wait m locker owner_ids :=
  with_graph m (<[locker := owner_ids]> (waiter_graph m)).
Definition clear_wait m locker := with_graph m (delete locker (waiter_graph m)).

(** Occurrences of a locker among the owners of all locks. *)
Definition locks_held (m : LockManager) (id : Z) : nat :=
  sum_list ((λ t : gmap Z Lock,
    sum_list ((λ kl : Z * Lock,
      length (filter (λ o, o = id) (get_owner_ids kl.2))) <$> map_to_list t)) <$> lock_tables m).

Definition compute_lock_counts (m : LockManager) (cycle : list Z) : gmap Z nat :=
  list_to_map ((λ id, (id, locks_held m id)) <$> cycle).

Definition waits_for_snapshot (m : LockManager) (locker : Z) (owner_ids : list Z) : graph :=
  let wf := remove_dups <$> waiter_graph m in
  match wf !! locker with
  | Some _ => wf
  | None => <[locker := remove_dups owner_ids]> wf
  end.

Definition check_deadlock_for_waiter (m : LockManager) (lsn locker : Z) (t : LockType)
    (owner_ids : list Z) : option TxnError :=
  match detect locker owner_ids (waits_for_snapshot m locker owner_ids) with
  | None => None
  | Some cycle =>
      let lock_counts := compute_lock_counts m cycle in
      if existsb (λ id, (default 0 (lock_counts !! id) =? 0)%nat) cycle then None
      else if bool_decide (select_victim cycle lock_counts = Some locker)
           then Some (DeadlockError cycle locker lsn t) else None
  end.

(** ** Acquiring *)

(** The read fast path. *)
Definition probe_read_uncontended (m : LockManager) (lsn requester : Z) : bool :=
  match get_lock m lsn with
  | None => true
  | Some l =>
      if (0 <? n_waiters l)%nat then false
      else match get_write_owner_locker_id l with
           | None => true
           | Some w => w =? requester
           end
  end.

Inductive attempt :=
| Returned (r : result LockGrantType TxnError)
| MustWait (initial_grant : LockGrantType) (owner_ids : list Z) (pair : nat).

(** Phase 1 of [lock_with_timeout_and_txn]: everything up to the release of
    the shard mutex. *)
Definition lock_attempt (m : LockManager) (lsn locker : Z) (t : LockType)
    (non_blocking jump_ahead_of_waiters : bool) : LockManager * attempt :=
  if bool_decide (t = NoLock) then (m, Returned (Ok NoneNeeded))
  else if bool_decide (t = RestartLock) then (m, Returned (Err RangeRestart))
  else if preempted_nonempty m && bool_decide (locker ∈ preempted m)
  then (m, Returned (Err (LockPreempted lsn)))
  else
    let m := count_request m in
    let shares := build_shares_fn m locker in
    let '(m, l) := entry_or_new m lsn in
    let '(l, r) :=
      Lock.lock_with_sharing l t locker non_blocking jump_ahead_of_waiters shares in
    let m := put_lock m lsn l in
    if success r then (m, Returned (Ok (lock_grant r)))
    else if bool_decide (lock_grant r = IllegalUpgrade) then
      (m, Returned (Err (IllegalUpgradeError
             (default NoLock (get_owned_lock_type l locker)) t)))
    else if bool_decide (lock_grant r = Denied) then
      (m, Returned (Err (LockNotAvailable lsn)))
    else
      let m := count_wait m in
      let pair := next_pair m in
      let l' := set_waiter_notify l locker pair in
      (with_flags (put_lock m lsn l') (granted_flags m) (S pair),
       MustWait (lock_grant r) (get_owner_ids l) pair).

(** The grant reported after a wait that ended in a grant. *)
Definition granted_wait_grant (initial_grant : LockGrantType) (t : LockType)
    : result LockGrantType TxnError :=
  match initial_grant with
  | WaitNew => Ok New
  | WaitPromotion => Ok Promotion
  | WaitRestart => Err RangeRestart
  | IllegalUpgrade => Err (IllegalUpgradeError NoLock t)
  | other => Ok other
  end.

Definition validate_ownership_or_flush (m : LockManager) (lsn locker : Z) (t : LockType)
    : LockManager * bool :=
  let '(m, is_owner) :=
    match get_lock m lsn with
    | Some l =>
        if Lock.is_owner l locker t then (m, true)
        else
          let l := flush_waiter l locker in
          (drop_if_unused (put_lock m lsn l) lsn l, false)
    | None => (m, false)
    end in
  (clear_wait m locker, is_owner).

(** ** Releasing *)

Definition set_granted (m : LockManager) (r : option (list Z * list nat)) : LockManager :=
  match r with
  | Some (_, sig) => with_flags m (list_to_set sig ∪ granted_flags m) (next_pair m)
  | None => m
  end.

(** [release], and the body of the loop of [release_all_for_locker]. *)
Definition release_at (m : LockManager) (lsn locker : Z) (shares : Z → bool)
    : LockManager :=
  match get_lock m lsn with
  | None => m
  | Some l =>
      let '(l, r) := Lock.release_with_sharing l locker shares in
      drop_if_unused (set_granted (put_lock m lsn l) r) lsn l
  end.

Definition release (m : LockManager) (lsn locker : Z) : LockManager :=
  release_at m lsn locker (build_shares_fn m locker).

(** The LSNs of one shard that the locker owns. *)
Definition target_lsns (t : gmap Z Lock) (locker : Z) : list Z :=
  omap (λ kl : Z * Lock,
    match get_owned_lock_type kl.2 locker with Some _ => Some kl.1 | None => None end)
    (map_to_list t).

Definition release_all_for_locker (m : LockManager) (locker : Z) : LockManager * nat :=
  let shares := build_shares_fn m locker in
  let '(m, released) :=
    foldl (λ '(m, released) i,
      foldl (λ '(m, released) lsn, (release_at m lsn locker shares, S released))
        (m, released) (target_lsns (default ∅ (lock_tables m !! i)) locker))
      (m, 0%nat) (seq 0 (n_lock_tables m)) in
  (clear_preempted m locker, released).

(** ** Demotion and stealing *)

Definition demote (m : LockManager) (lsn locker : Z) : LockManager :=
  match get_lock m lsn with
  | Some l => put_lock m lsn (Lock.demote l locker)
  | None => m
  end.

Definition steal_lock (m : LockManager) (lsn locker : Z) : LockManager :=
  let '(m, l) := entry_or_new m lsn in
  let '(l, victims) := Lock.steal_lock l locker in
  mark_preempted (put_lock m lsn l) victims.

Definition steal_lock_in_wait (m : LockManager) (lsn locker : Z) (t : LockType)
    : LockManager * bool :=
  let preemptable owner_id := negb (bool_decide (owner_id ∈ non_preemptable m)) in
  let shares := build_shares_fn m locker in
  let '(m, l) := entry_or_new m lsn in
  let l := flush_waiter l locker in
  let '(l, victims) := Lock.steal_lock_preemptable l locker preemptable in
  let m := mark_preempted m victims in
  let '(l, r) := Lock.lock_with_sharing l t locker true false shares in
  (put_lock m lsn l, success r).

(** ** Observers *)

Definition is_owned_write_lock (m : LockManager) (lsn locker : Z) : bool :=
  match get_lock m lsn with
  | Some l => Lock.is_owned_write_lock l locker
  | None => false
  end.

Definition get_owned_lock_type (m : LockManager) (lsn locker : Z) : option LockType :=
  match get_lock m lsn with
  | Some l => Lock.get_owned_lock_type l locker
  | None => None
  end.

Definition get_lock_info (m : LockManager) (lsn : Z) : nat * nat :=
  match get_lock m lsn with
  | Some l => (n_owners l, n_waiters l)
  | None => (0%nat, 0%nat)
  end.

Definition n_total_locks (m : LockManager) : nat :=
  sum_list ((λ t : gmap Z Lock, size t) <$> lock_tables m).

(** * Theorems *)

(** ** The shards behave as one table *)

(** Every entry is kept in the shard its LSN selects. *)
Record mgr_wf (m : LockManager) : Prop := {
  wf_pos : (0 < n_lock_tables m)%nat;
  wf_len : length (lock_tables m) = n_lock_tables m;
  wf_shard i t lsn : lock_tables m !! i = Some t → is_Some (t !! lsn) →
    get_table_index m lsn = i
}.

Lemma get_table_index_lt m lsn :
  (0 < n_lock_tables m)%nat → (get_table_index m lsn < n_lock_tables m)%nat.
Proof.
  intros Hp. unfold get_table_index.
  pose proof (Z.mod_pos_bound (Z.land lsn 0x7fffffff) (Z.of_nat (n_lock_tables m))). lia.
Qed.

Lemma table_of_lookup m lsn :
  mgr_wf m → lock_tables m !! get_table_index m lsn = Some (table_of m lsn).
Proof.
  intros [Hp Hl _]. unfold table_of.
  destruct (lookup_lt_is_Some_2 (lock_tables m) (get_table_index m lsn)) as [t ->]; [|done].
  rewrite Hl. by apply get_table_index_lt.
Qed.

(** Replacing the shard of [lsn] by one that differs only at [lsn]. *)
Section update_shard.
Context (m : LockManager) (lsn : Z) (t' : gmap Z Lock).
Context (Hwf : mgr_wf m) (Ht' : ∀ k, k ≠ lsn → t' !! k = table_of m lsn !! k).

Definition update_shard : LockManager :=
  with_tables m (<[get_table_index m lsn := t']> (lock_tables m)).

Lemma update_shard_wf : mgr_wf update_shard.
Proof.
  pose proof (table_of_lookup m lsn Hwf) as Hlk. destruct Hwf as [Hp Hl Hs].
  split; simpl; [done|by rewrite length_insert|].
  intros i t k Hi Hk. change (get_table_index update_shard k) with (get_table_index m k).
  destruct (decide (i = get_table_index m lsn)) as [->|Hne].
  - rewrite list_lookup_insert_eq in Hi by (eapply lookup_lt_Some; eauto).
    injection Hi as <-. destruct (decide (k = lsn)) as [->|Hk']; [done|].
    rewrite Ht' in Hk by done. by eapply Hs.
  - rewrite list_lookup_insert_ne in Hi by done. by eapply Hs.
Qed.

Lemma get_lock_update_shard k :
  get_lock update_shard k = if decide (k = lsn) then t' !! lsn else get_lock m k.
Proof.
  pose proof (table_of_lookup m lsn Hwf) as Hlk.
  unfold get_lock at 1, table_of; simpl.
  change (get_table_index update_shard k) with (get_table_index m k).
  destruct (decide (get_table_index m k = get_table_index m lsn)) as [He|He].
  - rewrite He, list_lookup_insert_eq by (eapply lookup_lt_Some; eauto). simpl.
    case_decide as Hk; [by subst|]. rewrite Ht' by done.
    unfold get_lock, table_of. by rewrite He.
  - rewrite list_lookup_insert_ne by done. case_decide as Hk; [by subst|done].
Qed.

Lemma n_total_update_shard :
  (n_total_locks update_shard + size (table_of m lsn) = n_total_locks m + size t')%nat.
Proof.
  pose proof (table_of_lookup m lsn Hwf) as Hlk. unfold n_total_locks; simpl.
  revert Hlk. generalize (get_table_index m lsn) as i. generalize (lock_tables m).
  induction l as [|t l IH]; intros [|i]; simpl; try done.
  - intros [= ->]. unfold fmap in *. lia.
  - intros Hi. specialize (IH _ Hi). unfold fmap in *. lia.
Qed.
End update_shard.

Lemma put_lock_wf m lsn l : mgr_wf m → mgr_wf (put_lock m lsn l).
Proof. intros. apply update_shard_wf; [done|]. intros. by rewrite lookup_insert_ne. Qed.

Lemma remove_lock_wf m lsn : mgr_wf m → mgr_wf (remove_lock m lsn).
Proof. intros. apply update_shard_wf; [done|]. intros. by rewrite lookup_delete_ne. Qed.

Lemma get_put_lock m lsn l k :
  mgr_wf m → get_lock (put_lock m lsn l) k = if decide (k = lsn) then Some l else get_lock m k.
Proof.
  intros. change (put_lock m lsn l) with (update_shard m lsn (<[lsn := l]> (table_of m lsn))).
  rewrite get_lock_update_shard; [by rewrite lookup_insert_eq|done|].
  intros. by rewrite lookup_insert_ne.
Qed.

Lemma get_remove_lock m lsn k :
  mgr_wf m → get_lock (remove_lock m lsn) k = if decide (k = lsn) then None else get_lock m k.
Proof.
  intros. change (remove_lock m lsn) with (update_shard m lsn (delete lsn (table_of m lsn))).
  rewrite get_lock_update_shard; [by rewrite lookup_delete_eq|done|].
  intros. by rewrite lookup_delete_ne.
Qed.

Lemma n_total_put_lock m lsn l :
  mgr_wf m →
  n_total_locks (put_lock m lsn l) =
  (match get_lock m lsn with Some _ => 0 | None => 1 end + n_total_locks m)%nat.
Proof.
  intros Hwf.
  pose proof (n_total_update_shard m lsn (<[lsn := l]> (table_of m lsn)) Hwf) as Hn.
  unfold put_lock. unfold update_shard in Hn.
  rewrite map_size_insert in Hn. unfold get_lock.
  destruct (table_of m lsn !! lsn); simpl in *; lia.
Qed.

Lemma n_total_remove_lock m lsn l :
  mgr_wf m → get_lock m lsn = Some l →
  S (n_total_locks (remove_lock m lsn)) = n_total_locks m.
Proof.
  intros Hwf Hl.
  pose proof (n_total_update_shard m lsn (delete lsn (table_of m lsn)) Hwf) as Hn.
  unfold remove_lock. unfold update_shard in Hn.
  rewrite map_size_delete_Some in Hn by (eexists; exact Hl).
  assert (size (table_of m lsn) ≠ 0%nat).
  { apply map_size_ne_0_lookup. exists lsn. eexists; exact Hl. }
  lia.
Qed.

(** ** Accounting *)

(** What holds between any two critical sections: the memory charged for the
    lock table is that of its entries, and the two flags that let the hot path
    skip a registry say whether the registry is empty. *)
Record mgr_inv (m : LockManager) : Prop := {
  inv_wf : mgr_wf m;
  inv_memory : lock_memory_counter m = LOCK_ENTRY_MEMORY * Z.of_nat (n_total_locks m);
  inv_share : share_registry_nonempty m = negb (bool_decide (share_registry m = ∅));
  inv_preempted : preempted_nonempty m = negb (bool_decide (preempted m = ∅))
}.

#[export] Hint Resolve inv_wf : noxu.

Lemma with_config_inv timeout n : mgr_inv (with_config timeout n).
Proof.
  unfold with_config. set (k := (n `max` 1)%nat). assert (0 < k)%nat by lia.
  split; simpl.
  - split; simpl; [done|by rewrite length_replicate|].
    intros i t lsn [-> _]%lookup_replicate [l Hl]. by rewrite lookup_empty in Hl.
  - unfold n_total_locks; simpl. rewrite fmap_replicate.
    replace (sum_list (replicate k (size (∅ : gmap Z Lock)))) with 0%nat; [lia|].
    rewrite map_size_empty. clear. by induction k.
  - by rewrite bool_decide_eq_true_2.
  - by rewrite bool_decide_eq_true_2.
Qed.

(** Writing back an entry of the table. *)
Lemma put_lock_inv m lsn l :
  mgr_inv m → is_Some (get_lock m lsn) → mgr_inv (put_lock m lsn l).
Proof.
  intros [Hwf Hm ? ?] [l0 Hl0]. split; [by apply put_lock_wf| |done..].
  rewrite n_total_put_lock, Hl0 by done. done.
Qed.

Lemma entry_or_new_inv m lsn : mgr_inv m → mgr_inv (entry_or_new m lsn).1.
Proof.
  intros [Hwf Hm ? ?]. unfold entry_or_new.
  destruct (get_lock m lsn) as [l|] eqn:Hl; simpl; [by split|].
  pose proof (put_lock_wf m lsn new_thin Hwf) as [].
  split; [by split| |done..]. simpl. rewrite Hm.
  change (n_total_locks (charge_lock_entry (put_lock m lsn new_thin)))
    with (n_total_locks (put_lock m lsn new_thin)).
  rewrite n_total_put_lock, Hl by done. lia.
Qed.

Lemma entry_or_new_get m lsn k :
  mgr_wf m →
  get_lock (entry_or_new m lsn).1 k =
  if decide (k = lsn) then Some (entry_or_new m lsn).2 else get_lock m k.
Proof.
  intros Hwf. unfold entry_or_new. destruct (get_lock m lsn) as [l|] eqn:Hl; simpl.
  - case_decide; by subst.
  - change (get_lock (charge_lock_entry (put_lock m lsn new_thin)) k)
      with (get_lock (put_lock m lsn new_thin) k). by rewrite get_put_lock.
Qed.

Lemma drop_if_unused_inv m lsn l :
  mgr_inv m → get_lock m lsn = Some l → mgr_inv (drop_if_unused m lsn l).
Proof.
  intros Hinv Hl. unfold drop_if_unused. case_match; [|done].
  destruct Hinv as [Hwf Hm ? ?]. pose proof (remove_lock_wf m lsn Hwf) as [].
  split; [by split| |done..]. simpl.
  change (n_total_locks (credit_lock_entry (remove_lock m lsn)))
    with (n_total_locks (remove_lock m lsn)).
  pose proof (n_total_remove_lock m lsn l Hwf Hl). unfold LOCK_ENTRY_MEMORY in *. lia.
Qed.

Lemma drop_if_unused_get m lsn l k :
  mgr_wf m →
  get_lock (drop_if_unused m lsn l) k =
  if decide (k = lsn ∧ n_owners l = 0%nat ∧ n_waiters l = 0%nat) then None
  else get_lock m k.
Proof.
  intros Hwf. unfold drop_if_unused.
  destruct ((n_owners l =? 0) && (n_waiters l =? 0))%nat eqn:E.
  - reflect_bools.
    change (get_lock (credit_lock_entry (remove_lock m lsn)) k)
      with (get_lock (remove_lock m lsn) k).
    rewrite get_remove_lock by done. repeat case_decide; naive_solver.
  - rewrite decide_False; [done|]. intros (_ & H1 & H2). by rewrite H1, H2 in E.
Qed.

(** The setters that no part of the invariant reads. *)
Lemma with_stats_inv m a b c : mgr_inv m → mgr_inv (with_stats m a b c).
Proof. intros [[] ? ? ?]. by repeat split. Qed.
Lemma with_graph_inv m g : mgr_inv m → mgr_inv (with_graph m g).
Proof. intros [[] ? ? ?]. by repeat split. Qed.
Lemma with_flags_inv m f n : mgr_inv m → mgr_inv (with_flags m f n).
Proof. intros [[] ? ? ?]. by repeat split. Qed.
Lemma with_non_preemptable_inv m s : mgr_inv m → mgr_inv (with_non_preemptable m s).
Proof. intros [[] ? ? ?]. by repeat split. Qed.
Lemma with_preempted_inv m s b :
  b = negb (bool_decide (s = ∅)) → mgr_inv m → mgr_inv (with_preempted m s b).
Proof. intros ? [[] ? ? ?]. by repeat split. Qed.
Lemma with_share_inv m r b :
  b = negb (bool_decide (r = ∅)) → mgr_inv m → mgr_inv (with_share m r b).
Proof. intros ? [[] ? ? ?]. by repeat split. Qed.

#[export] Hint Resolve put_lock_inv entry_or_new_inv drop_if_unused_inv with_stats_inv
  with_graph_inv with_flags_inv with_non_preemptable_inv : noxu.

Lemma mark_preempted_inv m victims : mgr_inv m → mgr_inv (mark_preempted m victims).
Proof.
  intros. unfold mark_preempted. destruct victims as [|v vs]; [done|].
  apply with_preempted_inv; [|done].
  rewrite bool_decide_eq_false_2; [done|]. set_solver.
Qed.

Lemma set_granted_inv m r : mgr_inv m → mgr_inv (set_granted m r).
Proof. intros. destruct r as [[]|]; simpl; auto with noxu. Qed.

#[export] Hint Resolve mark_preempted_inv set_granted_inv : noxu.

(** ** The critical sections keep the accounting *)

Lemma lock_attempt_inv m lsn id t nb jump :
  mgr_inv m → mgr_inv (lock_attempt m lsn id t nb jump).1.
Proof.
  intros Hinv. unfold lock_attempt. do 3 (case_match; [done|]).
  pose proof (with_stats_inv m (incr_u64 (lock_requests m)) (lock_waits m)
                (lock_timeouts m) Hinv) as Hc.
  fold (count_request m) in Hc.
  pose proof (entry_or_new_inv _ lsn Hc) as He.
  pose proof (entry_or_new_get (count_request m) lsn lsn (inv_wf _ Hc)) as Hg.
  rewrite decide_True in Hg by done.
  destruct (entry_or_new (count_request m) lsn) as [m1 l] eqn:E1; simpl in *.
  destruct (Lock.lock_with_sharing _ _ _ _ _ _) as [l' r].
  assert (mgr_inv (put_lock m1 lsn l')) by eauto with noxu.
  do 3 (case_match; [done|]). simpl.
  apply with_flags_inv, put_lock_inv; [by apply with_stats_inv|].
  change (get_lock (count_wait (put_lock m1 lsn l')) lsn)
    with (get_lock (put_lock m1 lsn l') lsn).
  rewrite get_put_lock, decide_True by eauto with noxu. eauto.
Qed.

Lemma put_drop_inv m lsn l l' :
  mgr_inv m → get_lock m lsn = Some l → mgr_inv (drop_if_unused (put_lock m lsn l') lsn l').
Proof.
  intros. apply drop_if_unused_inv; [by eauto with noxu|].
  by rewrite get_put_lock, decide_True by eauto with noxu.
Qed.

Lemma validate_inv m lsn id t : mgr_inv m → mgr_inv (validate_ownership_or_flush m lsn id t).1.
Proof.
  intros. unfold validate_ownership_or_flush. destruct (get_lock m lsn) as [l|] eqn:Hl.
  - destruct (Lock.is_owner l id t); simpl; [by apply with_graph_inv|].
    apply with_graph_inv. by eapply put_drop_inv.
  - by apply with_graph_inv.
Qed.

Lemma release_at_inv m lsn id shares : mgr_inv m → mgr_inv (release_at m lsn id shares).
Proof.
  intros. unfold release_at. destruct (get_lock m lsn) as [l|] eqn:Hl; [|done].
  destruct (Lock.release_with_sharing l id shares) as [l' r].
  apply drop_if_unused_inv; [by eauto with noxu|].
  transitivity (get_lock (put_lock m lsn l') lsn); [by destruct r as [[]|]|].
  by rewrite get_put_lock, decide_True by eauto with noxu.
Qed.

Lemma clear_preempted_inv m id : mgr_inv m → mgr_inv (clear_preempted m id).
Proof. by apply with_preempted_inv. Qed.

(** The two nested loops of [release_all_for_locker] keep what each release
    keeps. *)
Lemma release_all_ind (P : LockManager → Prop) m id :
  P m →
  (∀ m' lsn, P m' → P (release_at m' lsn id (build_shares_fn m id))) →
  (∀ m', P m' → P (clear_preempted m' id)) →
  P (release_all_for_locker m id).1.
Proof.
  intros Hm Hstep Hclear. unfold release_all_for_locker.
  set (shares := build_shares_fn m id) in *.
  assert (∀ (lsns : list Z) m0 n, P m0 →
    P (foldl (λ '(m, released) lsn, (release_at m lsn id shares, S released))
         (m0, n) lsns).1) as Hinner.
  { induction lsns as [|k ks IH]; intros m0 n0 H0; simpl; auto. }
  assert (∀ (ix : list nat) m0 n, P m0 →
    P (foldl (λ '(m, released) i,
        foldl (λ '(m, released) lsn, (release_at m lsn id shares, S released))
          (m, released) (target_lsns (default ∅ (lock_tables m !! i)) id)) (m0, n) ix).1)
    as Houter.
  { induction ix as [|i ix IH]; intros m0 n0 H0; simpl; [done|].
    specialize (Hinner (target_lsns (default ∅ (lock_tables m0 !! i)) id) m0 n0 H0).
    destruct (foldl _ (m0, n0) _). by apply IH. }
  specialize (Houter (seq 0 (n_lock_tables m)) m 0%nat Hm).
  destruct (foldl _ (m, 0%nat) _). by apply Hclear.
Qed.

Lemma release_all_inv m id : mgr_inv m → mgr_inv (release_all_for_locker m id).1.
Proof. intros. apply release_all_ind; auto using release_at_inv, clear_preempted_inv. Qed.

Lemma demote_inv m lsn id : mgr_inv m → mgr_inv (demote m lsn id).
Proof. intros. unfold demote. case_match; [|done]. apply put_lock_inv; eauto. Qed.

Lemma steal_lock_inv m lsn id : mgr_inv m → mgr_inv (steal_lock m lsn id).
Proof.
  intros Hinv. unfold steal_lock. pose proof (entry_or_new_inv m lsn Hinv) as He.
  pose proof (entry_or_new_get m lsn lsn (inv_wf _ Hinv)) as Hg.
  rewrite decide_True in Hg by done.
  destruct (entry_or_new m lsn) as [m1 l]; simpl in *.
  destruct (Lock.steal_lock l id). eauto with noxu.
Qed.

Lemma steal_in_wait_inv m lsn id t : mgr_inv m → mgr_inv (steal_lock_in_wait m lsn id t).1.
Proof.
  intros Hinv. unfold steal_lock_in_wait. pose proof (entry_or_new_inv m lsn Hinv) as He.
  pose proof (entry_or_new_get m lsn lsn (inv_wf _ Hinv)) as Hg.
  rewrite decide_True in Hg by done.
  destruct (entry_or_new m lsn) as [m1 l]; simpl in *.
  destruct (Lock.steal_lock_preemptable _ _ _) as [l1 vs].
  destruct (Lock.lock_with_sharing l1 _ _ _ _ _) as [l2 r]. simpl.
  apply put_lock_inv; [by eauto with noxu|]. by destruct vs; rewrite ?Hg.
Qed.

(** ** Sequences of critical sections *)

Inductive mgr_op :=
| MLock (lsn id : Z) (t : LockType) (non_blocking jump : bool)
| MRecordWait (id : Z) (owner_ids : list Z)
| MClearWait (id : Z)
| MValidate (lsn id : Z) (t : LockType)
| MRelease (lsn id : Z)
| MReleaseAll (id : Z)
| MDemote (lsn id : Z)
| MSteal (lsn id : Z)
| MStealInWait (lsn id : Z) (t : LockType)
| MShare (id group : Z)
| MUnshare (id : Z)
| MNonPreemptable (id : Z)
| MPreemptable (id : Z)
| MClearPreempted (id : Z).

Definition mgr_step (m : LockManager) (op : mgr_op) : LockManager :=
  match op with
  | MLock lsn id t nb jump => (lock_attempt m lsn id t nb jump).1
  | MRecordWait id owner_ids => record_wait m id owner_ids
  | MClearWait id => clear_wait m id
  | MValidate lsn id t => (validate_ownership_or_flush m lsn id t).1
  | MRelease lsn id => release m lsn id
  | MReleaseAll id => (release_all_for_locker m id).1
  | MDemote lsn id => demote m lsn id
  | MSteal lsn id => steal_lock m lsn id
  | MStealInWait lsn id t => (steal_lock_in_wait m lsn id t).1
  | MShare id group => register_locker_sharing m id group
  | MUnshare id => unregister_locker_sharing m id
  | MNonPreemptable id => register_non_preemptable m id
  | MPreemptable id => unregister_non_preemptable m id
  | MClearPreempted id => clear_preempted m id
  end.

Definition mgr_run : LockManager → list mgr_op → LockManager := foldl mgr_step.

Lemma mgr_step_inv m op : mgr_inv m → mgr_inv (mgr_step m op).
Proof.
  intros Hinv. destruct op; simpl.
  - by apply lock_attempt_inv.
  - by apply with_graph_inv.
  - by apply with_graph_inv.
  - by apply validate_inv.
  - by apply release_at_inv.
  - by apply release_all_inv.
  - by apply demote_inv.
  - by apply steal_lock_inv.
  - by apply steal_in_wait_inv.
  - apply with_share_inv; [|done]. rewrite bool_decide_eq_false_2; [done|].
    apply insert_non_empty.
  - by apply with_share_inv.
  - by apply with_non_preemptable_inv.
  - by apply with_non_preemptable_inv.
  - by apply clear_preempted_inv.
Qed.

Lemma mgr_run_inv m ops : mgr_inv m → mgr_inv (mgr_run m ops).
Proof.
  revert m; induction ops as [|op ops IH]; intros m Hinv; [done|].
  by apply IH, mgr_step_inv.
Qed.

(** ** Sharing *)

Lemma same_share_group_sym m a b : same_share_group m a b = same_share_group m b a.
Proof. unfold same_share_group. repeat case_match; try done. apply Z.eqb_sym. Qed.

(** The closure that skips an empty registry decides the sharing group. *)
Lemma build_shares_fn_spec m a b :
  mgr_inv m → build_shares_fn m a b = same_share_group m a b.
Proof.
  intros [_ _ Hs _]. unfold build_shares_fn, same_share_group.
  destruct (share_registry_nonempty m).
  - destruct (share_registry m !! a) as [ga|]; [|done].
    destruct (share_registry m !! b) as [gb|]; [|by rewrite bool_decide_eq_false_2].
    destruct (ga =? gb) eqn:E; reflect_bools.
    + rewrite bool_decide_eq_true_2; congruence.
    + rewrite bool_decide_eq_false_2; congruence.
  - destruct (decide (share_registry m = ∅)) as [->|Hne].
    + by rewrite lookup_empty.
    + by rewrite bool_decide_eq_false_2 in Hs.
Qed.

(** * Properties *)

(** C22: the accounting of the lock manager is exact after any sequence of its
    critical sections.  The memory charged for the lock table is the size of
    an entry times the number of entries (so the clamp at zero never hides an
    error), an entry is kept in no shard but the one its LSN selects, and the
    two flags that let the hot path skip a registry are false exactly when
    that registry is empty. *)
Theorem manager_accounting (timeout_ms : Z) (n : nat) (ops : list mgr_op) :
  let m := mgr_run (with_config timeout_ms n) ops in
  lock_memory_counter m = LOCK_ENTRY_MEMORY * Z.of_nat (n_total_locks m) ∧
  (∀ i t lsn, lock_tables m !! i = Some t → is_Some (t !! lsn) →
     i = get_table_index m lsn ∧ get_lock m lsn = t !! lsn) ∧
  (share_registry_nonempty m = false ↔ share_registry m = ∅) ∧
  (preempted_nonempty m = false ↔ preempted m = ∅).
Proof.
  intros m. destruct (mgr_run_inv _ ops (with_config_inv timeout_ms n))
    as [[_ _ Hs] Hm Hsh Hp]. fold m in Hs, Hm, Hsh, Hp.
  split_and!; [done| |..].
  - intros i t lsn Hi Ht. pose proof (Hs i t lsn Hi Ht) as Heq. split; [done|].
    rewrite <-Heq in Hi. unfold get_lock, table_of. by rewrite Hi.
  - by rewrite Hsh, negb_false_iff, bool_decide_eq_true.
  - by rewrite Hp, negb_false_iff, bool_decide_eq_true.
Qed.
