(* ===== verification/LockSystem.v ===== *)
(** * Concurrent lock requests (noxu-txn)

    [lock_manager.rs]: the wait of [lock_with_timeout_and_txn], and the
    interleaving of many lockers on one manager.

    A blocked request is a small automaton: [wait_step] runs it from one
    critical section (the shard mutex, the mutex of the notify pair, or the
    mutex of the waits-for graph) to the next.  The clock and the condition
    variable are inputs: [elapsed_ms] is the time since the wait began,
    [timed_out] what the condition variable reports.  The deadlock check reads
    the graph and the shards one after the other, without a common lock: it
    runs on a snapshot [snap] that the theorems leave arbitrary.

    [sys_step] interleaves the steps of all lockers in any order.  A locker
    issues one request at a time; the sharing registry is fixed. *)

From S2P Require Import Prelude LockType LockImpl Lock Deadlock LockManager.

(** ** The wait of a blocked request *)

Record request := mkRequest {
  rq_lsn : Z;
  rq_type : LockType;
  rq_timeout_ms : Z;
  rq_txn_remaining : option Z
}.

(** Where a blocked request stands. *)
Inductive wait_pc :=
| Queued                        (** phase 1 has released the shard mutex *)
| Detect                        (** before the first deadlock check *)
| LoopTop                       (** holds the mutex of the pair *)
| Woke (timed_out : bool)       (** the condition variable returned *)
| Recheck (timed_out : bool)    (** released the pair, before the deadlock check *)
| Relock (timed_out : bool)     (** takes the mutex of the pair again *)
| Validate (e : TxnError) (count : bool).  (** about to give up with [e] *)

Record waiting := mkWaiting {
  w_request : request;
  w_initial : LockGrantType;
  w_owner_ids : list Z;
  w_pair : nat;
  w_pc : wait_pc
}.

Definition set_pc (w : waiting) (pc : wait_pc) : waiting :=
  mkWaiting (w_request w) (w_initial w) (w_owner_ids w) (w_pair w) pc.

Definition txn_timeout_error (id : Z) : TxnError := TransactionTimeout 0 id.

Definition txn_expired (txn_timeout_remaining_ms : option Z) (elapsed_ms : Z) : bool :=
  match txn_timeout_remaining_ms with
  | Some budget => budget <=? elapsed_ms
  | None => false
  end.

Definition lock_timeout_error (id : Z) (w : waiting) : TxnError :=
  LockTimeout (rq_timeout_ms (w_request w)) (rq_lsn (w_request w)) (w_owner_ids w)
    (rq_type (w_request w)) id.

(** The time left at the lock level when the deadline has not passed; [0]
    stands for no deadline. *)
Definition lock_remaining_ms (timeout_ms elapsed_ms : Z) : Z :=
  if timeout_ms =? 0 then 0 else timeout_ms - elapsed_ms.

Definition effective_remaining_ms (lock_remaining : Z) (txn_remaining : option Z) : Z :=
  match lock_remaining =? 0, txn_remaining with
  | true, None => 0
  | true, Some t => t
  | false, None => lock_remaining
  | false, Some t => lock_remaining `min` t
  end.

(** How long the condition variable sleeps. *)
Definition slice_ms (timeout_ms : Z) (txn_timeout_remaining_ms : option Z)
    (elapsed_ms : Z) : Z :=
  let txn_remaining :=
    (λ budget, ((budget - elapsed_ms) `max` 0) `max` 1) <$> txn_timeout_remaining_ms in
  let effective :=
    effective_remaining_ms (lock_remaining_ms timeout_ms elapsed_ms) txn_remaining in
  if effective =? 0 then 50 else effective `min` 50.

Definition granted (m : LockManager) (w : waiting) : bool :=
  bool_decide (w_pair w ∈ granted_flags m).

(** The exit through a grant. *)
Definition finish (m : LockManager) (id : Z) (w : waiting)
    : LockManager * (wait_pc + result LockGrantType TxnError) :=
  (clear_wait m id, inr (granted_wait_grant (w_initial w) (rq_type (w_request w)))).

Definition wait_step (m snap : LockManager) (id : Z) (w : waiting)
    (elapsed_ms : Z) (timed_out : bool)
    : LockManager * (wait_pc + result LockGrantType TxnError) :=
  let r := w_request w in
  match w_pc w with
  | Queued =>
      if bool_decide (rq_txn_remaining r = Some 0)
      then (m, inl (Validate (txn_timeout_error id) true))
      else (record_wait m id (w_owner_ids w), inl Detect)
  | Detect =>
      match check_deadlock_for_waiter snap (rq_lsn r) id (rq_type r) (w_owner_ids w) with
      | Some e => (m, inl (Validate e false))
      | None => (m, inl LoopTop)
      end
  | LoopTop =>
      if granted m w then finish m id w
      else if txn_expired (rq_txn_remaining r) elapsed_ms
      then (m, inl (Validate (txn_timeout_error id) true))
      else if negb (rq_timeout_ms r =? 0) && (rq_timeout_ms r <=? elapsed_ms)
      then (m, inl (Validate (lock_timeout_error id w) true))
      else (m, inl (Woke timed_out))
  | Woke to =>
      if granted m w then finish m id w else (m, inl (Recheck to))
  | Recheck to =>
      let cur_owner_ids :=
        match get_lock m (rq_lsn r) with Some l => get_owner_ids l | None => [] end in
      match check_deadlock_for_waiter snap (rq_lsn r) id (rq_type r) cur_owner_ids with
      | Some e => (m, inl (Validate e false))
      | None => (m, inl (Relock to))
      end
  | Relock to =>
      if granted m w then finish m id w
      else if to && txn_expired (rq_txn_remaining r) elapsed_ms
      then (m, inl (Validate (txn_timeout_error id) true))
      else if to && ((0 <? rq_timeout_ms r) && (rq_timeout_ms r <=? elapsed_ms))
      then (m, inl (Validate (lock_timeout_error id w) true))
      else (m, inl LoopTop)
  | Validate e count =>
      let '(m, is_owner) :=
        validate_ownership_or_flush m (rq_lsn r) id (rq_type r) in
      if is_owner then finish m id w
      else (if count then count_timeout m else m, inr (Err e))
  end.

(** ** Many lockers *)

Record sys := mkSys {
  mgr : LockManager;
  pending : gmap Z waiting
}.

(** What an observer sees: the return of a request. *)
Inductive event :=
| Silent
| Returns (id : Z) (r : request) (res : result LockGrantType TxnError).

Inductive sys_step : sys → event → sys → Prop :=
| step_lock_returned m p id r nb jump m' res :
    p !! id = None →
    lock_attempt m (rq_lsn r) id (rq_type r) nb jump = (m', Returned res) →
    sys_step (mkSys m p) (Returns id r res) (mkSys m' p)
| step_lock_waits m p id r nb jump m' g owner_ids pair :
    p !! id = None →
    lock_attempt m (rq_lsn r) id (rq_type r) nb jump = (m', MustWait g owner_ids pair) →
    sys_step (mkSys m p) Silent
      (mkSys m' (<[id := mkWaiting r g owner_ids pair Queued]> p))
| step_wait m p id w snap elapsed_ms timed_out m' pc :
    p !! id = Some w →
    wait_step m snap id w elapsed_ms timed_out = (m', inl pc) →
    sys_step (mkSys m p) Silent (mkSys m' (<[id := set_pc w pc]> p))
| step_wait_ends m p id w snap elapsed_ms timed_out m' res :
    p !! id = Some w →
    wait_step m snap id w elapsed_ms timed_out = (m', inr res) →
    sys_step (mkSys m p) (Returns id (w_request w) res) (mkSys m' (delete id p))
| step_release m p id lsn :
    p !! id = None →
    sys_step (mkSys m p) Silent (mkSys (release m lsn id) p)
| step_demote m p id lsn :
    p !! id = None → is_Some (get_owned_lock_type m lsn id) →
    sys_step (mkSys m p) Silent (mkSys (demote m lsn id) p)
| step_steal m p id lsn t :
    p !! id = None → t ≠ NoLock → t ≠ RestartLock →
    sys_step (mkSys m p) Silent (mkSys (steal_lock_in_wait m lsn id t).1 p)
| step_release_all m p id :
    p !! id = None →
    sys_step (mkSys m p) Silent (mkSys (release_all_for_locker m id).1 p)
| step_clear_preempted m p id :
    p !! id = None →
    sys_step (mkSys m p) Silent (mkSys (clear_preempted m id) p)
| step_register_non_preemptable m p id :
    sys_step (mkSys m p) Silent (mkSys (register_non_preemptable m id) p)
| step_unregister_non_preemptable m p id :
    sys_step (mkSys m p) Silent (mkSys (unregister_non_preemptable m id) p).

(** The states the lockers reach on a new manager with a fixed registry. *)
Inductive reachable (m0 : LockManager) : sys → Prop :=
| reach_init : reachable m0 (mkSys m0 ∅)
| reach_step s e s' : reachable m0 s → sys_step s e s' → reachable m0 s'.

(** * Theorems *)

(** ** The wait slice *)

(** The sleep of one iteration is positive, short enough for the deadlock
    check to run again within 50 ms, and ends at the earlier deadline. *)
Lemma slice_ms_bounds timeout_ms txn elapsed_ms :
  0 ≤ timeout_ms → 0 ≤ elapsed_ms →
  (timeout_ms = 0 ∨ elapsed_ms < timeout_ms) →
  txn_expired txn elapsed_ms = false →
  let s := slice_ms timeout_ms txn elapsed_ms in
  0 < s ≤ 50 ∧
  (timeout_ms ≠ 0 → s ≤ timeout_ms - elapsed_ms) ∧
  (∀ budget, txn = Some budget → s ≤ budget - elapsed_ms).
Proof.
  intros Ht He Hl Hx. unfold slice_ms, effective_remaining_ms, lock_remaining_ms; simpl.
  destruct txn as [budget|]; simpl in *; reflect_bools;
    destruct (timeout_ms =? 0) eqn:E1; reflect_bools; simpl;
    repeat case_match; reflect_bools; repeat split; intros; simplify_eq; lia.
Qed.

(** ** Owners and waiters of the table *)

Definition ow (m : LockManager) (lsn : Z) : list LockInfo :=
  match get_lock m lsn with Some l => get_owners_clone l | None => [] end.
Definition wt (m : LockManager) (lsn : Z) : list LockInfo :=
  match get_lock m lsn with Some l => get_waiters_clone l | None => [] end.

(** [holds] read off a list of owners. *)
Definition holds_in (os : list LockInfo) (id : Z) (t : LockType) : Prop :=
  ∃ o, o ∈ os ∧ locker_id o = id ∧ (lock_type o = t ∨ covers (lock_type o) t).

Definition attended_in (m : LockManager) (lsn : Z) : Prop := wt m lsn ≠ [] → ow m lsn ≠ [].

(** [changes m m' lsn s]: [m'] differs from [m] at most at [lsn], whose owners
    and waiters are now those of [s]. *)
Definition changes (m m' : LockManager) (lsn : Z) (s : LockImpl) : Prop :=
  (∀ k, k ≠ lsn → ow m' k = ow m k ∧ wt m' k = wt m k) ∧
  ow m' lsn = owners s ∧ wt m' lsn = waiters s.

Lemma ow_get m lsn l : get_lock m lsn = Some l → ow m lsn = owners (repr l).
Proof. unfold ow. intros ->. apply get_owners_clone_repr. Qed.
Lemma wt_get m lsn l : get_lock m lsn = Some l → wt m lsn = waiters (repr l).
Proof. unfold wt. intros ->. apply get_waiters_clone_repr. Qed.

Lemma changes_put m lsn l : mgr_wf m → changes m (put_lock m lsn l) lsn (repr l).
Proof.
  intros Hwf. split.
  - intros k Hk. unfold ow, wt. by rewrite !get_put_lock, decide_False by done.
  - split; [apply ow_get|apply wt_get]; by rewrite get_put_lock, decide_True by done.
Qed.

(** A removed entry had no owners and no waiters. *)
Lemma drop_if_unused_lists m lsn l k :
  mgr_wf m → get_lock m lsn = Some l →
  ow (drop_if_unused m lsn l) k = ow m k ∧ wt (drop_if_unused m lsn l) k = wt m k.
Proof.
  intros Hwf Hl. unfold ow, wt. rewrite drop_if_unused_get by done.
  case_decide as Hd; [|done]. destruct Hd as (-> & Ho & Hw). rewrite Hl.
  rewrite n_owners_repr in Ho. rewrite n_waiters_repr in Hw.
  rewrite get_owners_clone_repr, get_waiters_clone_repr.
  by rewrite (nil_length_inv _ Ho), (nil_length_inv _ Hw).
Qed.

(** The entry that a request finds or creates stands for the owners and
    waiters the table had. *)
Lemma entry_or_new_lists m lsn :
  mgr_inv m →
  let '(m1, l) := entry_or_new m lsn in
  mgr_inv m1 ∧ get_lock m1 lsn = Some l ∧
  (∀ k, ow m1 k = ow m k ∧ wt m1 k = wt m k) ∧
  owners (repr l) = ow m lsn ∧ waiters (repr l) = wt m lsn ∧
  share_registry m1 = share_registry m ∧ preempted m1 = preempted m ∧
  granted_flags m1 = granted_flags m ∧ next_pair m1 = next_pair m ∧
  non_preemptable m1 = non_preemptable m ∧
  share_registry_nonempty m1 = share_registry_nonempty m.
Proof.
  intros Hinv. pose proof (entry_or_new_inv m lsn Hinv) as H1.
  pose proof (λ k, entry_or_new_get m lsn k (inv_wf _ Hinv)) as Hg.
  unfold entry_or_new in *. destruct (get_lock m lsn) as [l|] eqn:Hl; simpl in *.
  - rewrite <-(ow_get m lsn l), <-(wt_get m lsn l) by done. by split_and!.
  - assert (ow m lsn = [] ∧ wt m lsn = []) as [Ho Hw] by (unfold ow, wt; by rewrite Hl).
    assert (∀ k, ow (charge_lock_entry (put_lock m lsn new_thin)) k = ow m k ∧
                 wt (charge_lock_entry (put_lock m lsn new_thin)) k = wt m k) as Hk.
    { intros k. unfold ow, wt. rewrite Hg. case_decide as Hd; [|done]. subst. by rewrite Hl. }
    rewrite Hg, decide_True by done. rewrite Ho, Hw. by split_and!.
Qed.

(** ** The invariant of the system *)

(** The queue entry of a blocked request. *)
Definition entry (id : Z) (w : waiting) : LockInfo :=
  mkLockInfo id
    (if decide (w_initial w = WaitRestart) then RestartLock else rq_type (w_request w))
    (Some (w_pair w)).

(** The flag of the request is set: it was granted (or told to restart), and
    unless a steal took it away it holds what it asked for. *)
Definition signalled (m : LockManager) (id : Z) (w : waiting) : Prop :=
  w_pair w ∈ granted_flags m ∧
  (w_initial w = WaitRestart ∨ id ∈ preempted m ∨
   holds_in (ow m (rq_lsn (w_request w))) id (rq_type (w_request w))).

Section invariant.
Context (sh : Z → Z → bool).
Context (sh_sym : ∀ a b, sh a b = sh b a).

Record sys_inv (s : sys) : Prop := {
  si_mgr : mgr_inv (mgr s);
  si_share a b : same_share_group (mgr s) a b = sh a b;
  si_owners lsn : compatible_owners sh (ow (mgr s) lsn);
  si_attended lsn : attended_in (mgr s) lsn;
  si_nodup lsn : NoDup (locker_id <$> wt (mgr s) lsn);
  si_queue lsn e : e ∈ wt (mgr s) lsn →
    ∃ w, pending s !! locker_id e = Some w ∧ rq_lsn (w_request w) = lsn ∧
         e = entry (locker_id e) w ∧ w_pair w ∉ granted_flags (mgr s);
  si_pending id w : pending s !! id = Some w →
    entry id w ∈ wt (mgr s) (rq_lsn (w_request w)) ∨ signalled (mgr s) id w;
  si_fresh id w o : pending s !! id = Some w →
    entry id w ∈ wt (mgr s) (rq_lsn (w_request w)) →
    o ∈ ow (mgr s) (rq_lsn (w_request w)) → locker_id o = id →
    lock_type o ≠ rq_type (w_request w);
  si_request id w : pending s !! id = Some w →
    rq_type (w_request w) ≠ RestartLock ∧ must_wait (w_initial w) = true;
  si_pair id w : pending s !! id = Some w → (w_pair w < next_pair (mgr s))%nat;
  si_flags n : n ∈ granted_flags (mgr s) → (n < next_pair (mgr s))%nat;
  si_unique id1 id2 w1 w2 : pending s !! id1 = Some w1 → pending s !! id2 = Some w2 →
    w_pair w1 = w_pair w2 → id1 = id2
}.

(** A step that leaves the requests alone, changes one lock, signals a prefix
    [ws] of its queue and may preempt lockers. *)
Lemma sys_inv_update m p m' lsn s' ws :
  sys_inv (mkSys m p) →
  mgr_inv m' → share_registry m' = share_registry m →
  changes m m' lsn s' →
  preempted m ⊆ preempted m' → next_pair m' = next_pair m →
  granted_flags m' = list_to_set (ws ≫= opt_list ∘ notify) ∪ granted_flags m →
  compatible_owners sh (owners s') → attended s' →
  wt m lsn = ws ++ waiters s' →
  (∀ e, e ∈ ws → lock_type e ≠ RestartLock →
     holds_in (owners s') (locker_id e) (lock_type e)) →
  (∀ id w, p !! id = Some w → holds_in (ow m lsn) id (rq_type (w_request w)) →
     holds_in (owners s') id (rq_type (w_request w)) ∨ id ∈ preempted m') →
  (∀ o w, p !! locker_id o = Some w → o ∈ owners s' →
     (locker_id o ∉ locker_id <$> ws) → o ∈ ow m lsn) →
  sys_inv (mkSys m' p).
Proof.
  intros [? Hsh Ho Ha Hnd Hq Hp Hfr Hr Hpair Hfl Hu] Hm' Hreg (Hk & Hlo & Hlw) Hpre Hnp Hgf
    Hco Hat Hws Hgrant Hkeep Hoth; simpl in *.
  assert (∀ n, n ∈ granted_flags m' ↔
    n ∈ granted_flags m ∨ ∃ e, e ∈ ws ∧ notify e = Some n) as Hgf'.
  { intros n. rewrite Hgf, elem_of_union, elem_of_list_to_set, list_elem_of_bind.
    setoid_rewrite elem_of_opt_list. naive_solver. }
  assert (∀ e, e ∈ ws → ∃ w, p !! locker_id e = Some w ∧ rq_lsn (w_request w) = lsn ∧
            e = entry (locker_id e) w ∧ w_pair w ∉ granted_flags m) as Hq'.
  { intros e He. apply Hq. rewrite Hws. set_solver. }
  split; simpl; try done.
  - intros a b. rewrite <-Hsh. unfold same_share_group. by rewrite Hreg.
  - intros k. destruct (decide (k = lsn)) as [->|Hne]; [by rewrite Hlo|].
    destruct (Hk k Hne) as [-> _]. apply Ho.
  - intros k. unfold attended_in. destruct (decide (k = lsn)) as [->|Hne].
    + by rewrite Hlo, Hlw.
    + destruct (Hk k Hne) as [-> ->]. apply Ha.
  - intros k. destruct (decide (k = lsn)) as [->|Hne].
    + rewrite Hlw. specialize (Hnd lsn). rewrite Hws, fmap_app in Hnd.
      by apply NoDup_app in Hnd as (_ & _ & ?).
    + destruct (Hk k Hne) as [_ ->]. apply Hnd.
  - intros k e He.
    assert (e ∈ wt m k ∧ (k = lsn → e ∉ ws)) as [He' Hnw].
    { destruct (decide (k = lsn)) as [->|Hne].
      - rewrite Hlw in He. rewrite Hws. split; [set_solver|]. intros _ Hin.
        specialize (Hnd lsn). rewrite Hws, fmap_app in Hnd.
        apply NoDup_app in Hnd as (_ & Hd & _).
        apply (Hd (locker_id e)); by apply list_elem_of_fmap_2.
      - destruct (Hk k Hne) as [_ Hw]. by rewrite Hw in He. }
    destruct (Hq k e He') as (w & Hw & Hl & Heq & Hf). exists w. split_and!; try done.
    rewrite Hgf'. intros [?|(e' & He'' & Hn)]; [done|].
    destruct (Hq' e' He'') as (w' & Hw' & Hl' & Heq' & _).
    rewrite Heq' in Hn. simpl in Hn. injection Hn as Hn.
    assert (locker_id e' = locker_id e) as Hid by (by eapply Hu).
    assert (w' = w) as -> by (rewrite Hid in Hw'; congruence).
    apply Hnw; [congruence|]. by rewrite Heq, <-Hid, <-Heq'.
  - intros id w Hw. destruct (Hp id w Hw) as [Hin|[Hf Hs]].
    + destruct (decide (rq_lsn (w_request w) = lsn)) as [Hl|Hne].
      2:{ left. by destruct (Hk _ Hne) as [_ ->]. }
      rewrite Hl, Hws in Hin. apply elem_of_app in Hin as [Hin|Hin].
      2:{ left. by rewrite Hl, Hlw. }
      right. split; [apply Hgf'; right; by exists (entry id w)|].
      destruct (decide (w_initial w = WaitRestart)) as [|Hne]; [by left|right; right].
      pose proof (Hgrant _ Hin) as Hh. unfold entry in Hh. rewrite decide_False in Hh by done.
      simpl in Hh. rewrite Hl, Hlo. apply Hh. by destruct (Hr id w Hw).
    + right. split; [apply Hgf'; by left|].
      destruct Hs as [?|[?|Hh]]; [by left|right; left; by apply Hpre|].
      destruct (decide (rq_lsn (w_request w) = lsn)) as [Hl|Hne].
      * rewrite Hl in *. destruct (Hkeep id w Hw Hh); [|by right; left].
        right; right. by rewrite Hlo.
      * right; right. by destruct (Hk _ Hne) as [-> _].
  - intros id w o Hw Hin Ho' Hid.
    destruct (decide (rq_lsn (w_request w) = lsn)) as [Hl|Hne].
    + rewrite Hl, Hlw in Hin. rewrite Hl, Hlo in Ho'.
      apply (Hfr id w o Hw); [rewrite Hl, Hws; set_solver| |done].
      rewrite Hl. apply (Hoth o w); [congruence|done|]. rewrite Hid. intros Hws'.
      specialize (Hnd lsn). rewrite Hws, fmap_app in Hnd.
      apply NoDup_app in Hnd as (_ & Hd & _). apply (Hd id Hws').
      by apply (list_elem_of_fmap_2 locker_id _ (entry id w)).
    + destruct (Hk _ Hne) as [Hko Hkw]. rewrite Hko in Ho'. rewrite Hkw in Hin.
      by apply (Hfr id w o).
  - intros id w Hw. rewrite Hnp. eauto.
  - intros n. rewrite Hnp, Hgf'. intros [?|(e & He & Hn)]; [by apply Hfl|].
    destruct (Hq' e He) as (w & Hw & _ & Heq & _). rewrite Heq in Hn. simpl in Hn.
    injection Hn as <-. by eapply Hpair.
Qed.

(** ** Steps that leave the requests alone *)

Lemma lock_inv_in m p lsn l :
  sys_inv (mkSys m p) → get_lock m lsn = Some l → lock_inv sh (repr l).
Proof. intros Hi Hl. unfold lock_inv. rewrite <-(ow_get m lsn l) by done. apply (si_owners _ Hi). Qed.

Lemma attended_repr m p lsn l :
  sys_inv (mkSys m p) → get_lock m lsn = Some l → attended (repr l).
Proof.
  intros Hi Hl. pose proof (si_attended _ Hi lsn) as Ha. unfold attended_in in Ha. simpl in Ha.
  by rewrite (ow_get m lsn l), (wt_get m lsn l) in Ha by done.
Qed.

Lemma changes_set_granted m m' lsn s r :
  changes m m' lsn s → changes m (set_granted m' r) lsn s.
Proof. intros (H1 & H2 & H3). by destruct r as [[]|]. Qed.

Lemma changes_drop m m' lsn l :
  mgr_wf m' → get_lock m' lsn = Some l → changes m m' lsn (repr l) →
  changes m (drop_if_unused m' lsn l) lsn (repr l).
Proof.
  intros Hwf Hl (Hk & Ho & Hw).
  pose proof (λ k, drop_if_unused_lists m' lsn l k Hwf Hl) as Hd. split_and!.
  - intros k Hne. destruct (Hd k) as [-> ->]. by apply Hk.
  - by destruct (Hd lsn) as [-> _].
  - by destruct (Hd lsn) as [_ ->].
Qed.

Lemma drop_if_unused_fields m lsn l :
  let m' := drop_if_unused m lsn l in
  share_registry m' = share_registry m ∧ preempted m' = preempted m ∧
  granted_flags m' = granted_flags m ∧ next_pair m' = next_pair m.
Proof. unfold drop_if_unused. by case_match. Qed.

Lemma set_granted_fields m r :
  let m' := set_granted m r in
  share_registry m' = share_registry m ∧ preempted m' = preempted m ∧
  next_pair m' = next_pair m ∧
  granted_flags m' = list_to_set (default [] (snd <$> r)) ∪ granted_flags m.
Proof. destruct r as [[]|]; simpl; split_and!; set_solver. Qed.

(** What a release at [lsn] changes. *)
Lemma release_at_changes m lsn id shares l l' r :
  mgr_inv m → get_lock m lsn = Some l →
  Lock.release_with_sharing l id shares = (l', r) →
  let m' := release_at m lsn id shares in
  mgr_inv m' ∧ changes m m' lsn (repr l') ∧
  share_registry m' = share_registry m ∧ preempted m' = preempted m ∧
  next_pair m' = next_pair m ∧
  granted_flags m' = list_to_set (default [] (snd <$> r)) ∪ granted_flags m.
Proof.
  intros Hinv Hl Hr m'. split; [by apply release_at_inv|]. unfold m', release_at.
  rewrite Hl, Hr. set (m1 := set_granted (put_lock m lsn l') r).
  assert (get_lock m1 lsn = Some l') as Hg.
  { transitivity (get_lock (put_lock m lsn l') lsn); [by destruct r as [[]|]|].
    by rewrite get_put_lock, decide_True by auto with noxu. }
  destruct (drop_if_unused_fields m1 lsn l') as (-> & -> & -> & ->).
  destruct (set_granted_fields (put_lock m lsn l') r) as (? & ? & ? & ?).
  split; [|done]. apply changes_drop; [|done|].
  - apply inv_wf. unfold m1. eauto with noxu.
  - apply changes_set_granted, changes_put. auto with noxu.
Qed.

Lemma release_at_sys m p lsn id shares :
  p !! id = None → sys_inv (mkSys m p) → sys_inv (mkSys (release_at m lsn id shares) p).
Proof.
  intros Hidle Hi. pose proof (si_mgr _ Hi) as Hm. simpl in Hm.
  destruct (get_lock m lsn) as [l|] eqn:Hl; [|unfold release_at; by rewrite Hl].
  destruct (Lock.release_with_sharing l id shares) as [l' r] eqn:Hr.
  destruct (release_at_changes m lsn id shares l l' r Hm Hl Hr)
    as (Hm' & Hc & Hreg & Hpre & Hnp & Hgf).
  pose proof (lock_inv_in m p lsn l Hi Hl) as Hli.
  pose proof (attended_repr m p lsn l Hi Hl) as Hat.
  pose proof (release_repr_eq l id shares) as Heq. rewrite Hr in Heq. simpl in Heq.
  pose proof (release_keeps_inv sh sh_sym (repr l) id shares Hli) as Hinv'.
  pose proof (release_attended (repr l) id shares Hat) as Hat'.
  pose proof (release_with_sharing_post (repr l) id shares) as Hpost.
  rewrite <-Heq in Hinv', Hat', Hpost. simpl in *.
  assert (ow m lsn = owners (repr l)) as Ho by (by apply ow_get).
  assert (wt m lsn = waiters (repr l)) as Hw by (by apply wt_get).
  destruct r as [[ids sig]|].
  - destruct Hpost as (o & s1 & ws & Hin & Hid & Hperm & Hw1 & Hwo & Hws & _ & Hsig & _).
    assert (lock_inv sh s1) as Hli1.
    { unfold lock_inv in *. rewrite Hperm in Hli. by eapply compatible_owners_tail. }
    eapply (sys_inv_update m p _ lsn (repr l') ws); try done; rewrite ?Hpre; try done; try congruence.
    + by rewrite Hgf, Hsig.
    + intros e He Hne. by eapply woken_holds.
    + intros id' w' Hid' (o' & Ho' & Hl' & Ht'). left.
      eapply woken_holds_mono; [done..|]. exists o'. split; [|done].
      rewrite Ho, Hperm in Ho'. apply elem_of_cons in Ho' as [->|?]; [|done]. congruence.
    + intros o' w' _ Ho' Hn. rewrite Ho, Hperm. right. by eapply woken_others.
  - destruct Hpost as [Hs _].
    eapply (sys_inv_update m p _ lsn (repr l') []); try done; rewrite ?Hpre; simpl; try done; try congruence.
    + intros e He. by apply elem_of_nil in He.
    + intros id' w' _ Hh. left. by rewrite Hs, <-Ho.
Qed.

(** ** Lock requests *)

(** The fields that the invariant reads beside the locks. *)
Definition same_fields (m m' : LockManager) : Prop :=
  share_registry m' = share_registry m ∧ preempted m' = preempted m ∧
  granted_flags m' = granted_flags m ∧ next_pair m' = next_pair m.

Lemma changes_entry m m1 m' lsn s :
  (∀ k, ow m1 k = ow m k ∧ wt m1 k = wt m k) → changes m1 m' lsn s → changes m m' lsn s.
Proof.
  intros Hk (H1 & H2 & H3). split_and!; try done.
  intros k Hne. destruct (Hk k) as [<- <-]. by apply H1.
Qed.

(** The state and the answer of phase 1, in terms of the outcome [g] of the
    request on the lock [s] of the table. *)
Definition attempt_post (m : LockManager) (lsn id : Z) (t : LockType) (nb jump : bool)
    (m' : LockManager) (a : attempt) : Prop :=
  ∃ s s' g,
    owners s = ow m lsn ∧ waiters s = wt m lsn ∧
    lock_post s t id nb jump (build_shares_fn m id) s' g ∧
    s' = (LockImpl.lock_with_sharing s t id nb jump (build_shares_fn m id)).1 ∧
    g = lock_grant (LockImpl.lock_with_sharing s t id nb jump (build_shares_fn m id)).2 ∧
    match a with
    | Returned res =>
        must_wait g = false ∧ changes m m' lsn s' ∧ same_fields m m' ∧
        (∀ g', res = Ok g' → g' = g ∧ is_granted g = true) ∧
        (∀ e, res = Err e → is_granted g = false)
    | MustWait g' owner_ids pr =>
        g' = g ∧ must_wait g = true ∧ pr = next_pair m ∧
        changes m m' lsn (LockImpl.set_waiter_notify s' id pr) ∧
        share_registry m' = share_registry m ∧ preempted m' = preempted m ∧
        granted_flags m' = granted_flags m ∧ next_pair m' = S pr
    end.

Lemma lock_attempt_post m lsn id t nb jump m' a :
  mgr_inv m → lock_attempt m lsn id t nb jump = (m', a) →
  (m' = m ∧ ∃ res, a = Returned res ∧
     (t = NoLock ∧ res = Ok NoneNeeded ∨ ∃ e, res = Err e)) ∨
  t ≠ RestartLock ∧ attempt_post m lsn id t nb jump m' a.
Proof.
  intros Hinv. unfold lock_attempt.
  case_bool_decide; [intros [= <- <-]; left; eauto 10|].
  case_bool_decide; [intros [= <- <-]; left; eauto 10|].
  case_match; [intros [= <- <-]; left; eauto 10|].
  assert (mgr_inv (count_request m)) as Hinv0 by (by apply with_stats_inv).
  pose proof (entry_or_new_lists (count_request m) lsn Hinv0) as He.
  destruct (entry_or_new (count_request m) lsn) as [m1 l].
  destruct He as (Hm1 & Hl & Hk & Ho & Hw & Hf1 & Hf2 & Hf3 & Hf4 & _).
  change (build_shares_fn (count_request m) id) with (build_shares_fn m id).
  pose proof (lock_repr_eq l t id nb jump (build_shares_fn m id)) as Heq.
  pose proof (lock_with_sharing_post (repr l) t id nb jump (build_shares_fn m id)) as Hpost.
  destruct (Lock.lock_with_sharing l t id nb jump (build_shares_fn m id)) as [l' r].
  rewrite <-Heq in Hpost. simpl in Hpost. destruct Hpost as [Hs Hpost].
  assert (changes m (put_lock m1 lsn l') lsn (repr l')) as Hc.
  { eapply changes_entry; [exact Hk|]. apply changes_put. auto with noxu. }
  simpl in Hf1, Hf2, Hf3, Hf4.
  set (m2 := put_lock (count_wait (put_lock m1 lsn l')) lsn
               (set_waiter_notify l' id (next_pair m1))) in *.
  assert (changes m m2 lsn (LockImpl.set_waiter_notify (repr l') id (next_pair m))) as Hc2.
  { pose proof (rl_notify_ok l' id (next_pair m1)) as Hn. simpl in Hn.
    rewrite <-Hf4, <-Hn. destruct (changes_put (count_wait (put_lock m1 lsn l')) lsn
      (set_waiter_notify l' id (next_pair m1))) as (Hc1 & Hc2 & Hc3);
      [apply inv_wf, with_stats_inv; eauto with noxu|].
    split_and!; try done. intros k Hne.
    destruct Hc as (Hc0 & _). destruct (Hc0 k Hne) as [<- <-]. by apply Hc1. }
  intros Hres. right. split; [done|]. exists (repr l), (repr l'), (lock_grant r).
  rewrite <-Heq. split_and!; try done. rewrite Hs in Hres.
  destruct (lock_grant r) eqn:Hg; simpl in Hres;
    repeat case_bool_decide; try done; injection Hres as <- <-;
    split_and!; try done; try (by intros g' [= <-]); try (by intros e [=]); simpl; try congruence;
    rewrite <-Hf4 in Hc2; exact Hc2.
Qed.

Lemma lock_post_waiters s t id nb jump shares s' g :
  lock_post s t id nb jump shares s' g → must_wait g = false → waiters s' = waiters s.
Proof. destruct g; try done; simpl; intros H _; try (by destruct H). by destruct H as (_ & -> & _). Qed.

Lemma lock_post_holds_mono s t id nb jump shares s' g id' t' :
  NoDup (locker_id <$> owners s) →
  lock_post s t id nb jump shares s' g → holds s id' t' → holds s' id' t'.
Proof.
  intros Hnd Hp Hh. destruct g; simpl in Hp; try done;
    try (by eapply grant_post_holds_mono);
    try (eapply holds_owners; [|done]; by destruct Hp as (_ & -> & _)).
Qed.

Lemma lock_post_holds s t id nb jump shares s' g :
  NoDup (locker_id <$> owners s) →
  lock_post s t id nb jump shares s' g → is_granted g = true → holds s' id t.
Proof.
  intros Hnd Hp Hg. destruct g; try done; simpl in Hp;
    by eapply (grant_post_holds s (LockInfo_new id t)).
Qed.

(** The facts about the lock of a request that both outcomes need. *)
Lemma request_lock_facts m p id t nb jump s s' lsn :
  sys_inv (mkSys m p) → owners s = ow m lsn → waiters s = wt m lsn →
  s' = (LockImpl.lock_with_sharing s t id nb jump (build_shares_fn m id)).1 →
  lock_inv sh s ∧ lock_inv sh s' ∧ attended s'.
Proof.
  intros Hi Ho Hw ->.
  assert (lock_inv sh s) as Hli by (unfold lock_inv; rewrite Ho; apply (si_owners _ Hi)).
  split_and!; [done| |].
  - apply lock_keeps_inv; [done| |done]. intros x.
    by rewrite build_shares_fn_spec, (si_share _ Hi) by apply (si_mgr _ Hi).
  - apply lock_attended. pose proof (si_attended _ Hi lsn) as Ha.
    unfold attended_in, attended in *. by rewrite Ho, Hw.
Qed.

Lemma lock_returned_sys m p id r nb jump m' res :
  sys_inv (mkSys m p) → p !! id = None →
  lock_attempt m (rq_lsn r) id (rq_type r) nb jump = (m', Returned res) →
  sys_inv (mkSys m' p).
Proof.
  intros Hi Hidle Hl. pose proof (si_mgr _ Hi) as Hm.
  assert (mgr_inv m') as Hm'
    by (pose proof (lock_attempt_inv m (rq_lsn r) id (rq_type r) nb jump Hm); by rewrite Hl in *).
  apply lock_attempt_post in Hl as [[-> _]|[_ Hl]]; [done| |done].
  destruct Hl as (s & s' & g & Ho & Hw & Hpost & Hs' & _ & Hg & Hc & (Hf1 & Hf2 & Hf3 & Hf4) & _ & _).
  destruct (request_lock_facts m p id _ nb jump s s' _ Hi Ho Hw Hs') as ([Hnd _] & Hli' & Hat').
  eapply (sys_inv_update m p _ (rq_lsn r) s' []); try done.
  - by rewrite Hf2.
  - rewrite Hf3. simpl. set_solver.
  - by rewrite <-Hw, (lock_post_waiters _ _ _ _ _ _ _ _ Hpost).
  - intros e He. by apply elem_of_nil in He.
  - intros id' w _ Hh. left. rewrite <-Ho in Hh. by eapply lock_post_holds_mono.
  - intros o w Hw' Ho' _. rewrite <-Ho. eapply lock_post_others; [done..|]. congruence.
Qed.

(** A request that starts to wait. *)
Lemma sys_inv_enqueue m p m' id w :
  let lsn := rq_lsn (w_request w) in
  sys_inv (mkSys m p) → p !! id = None →
  mgr_inv m' → share_registry m' = share_registry m → preempted m' = preempted m →
  granted_flags m' = granted_flags m → next_pair m' = S (next_pair m) →
  (∀ k, k ≠ lsn → ow m' k = ow m k ∧ wt m' k = wt m k) →
  ow m' lsn = ow m lsn → wt m' lsn ≡ₚ entry id w :: wt m lsn → ow m lsn ≠ [] →
  w_pair w = next_pair m → rq_type (w_request w) ≠ RestartLock →
  must_wait (w_initial w) = true →
  (∀ o, o ∈ ow m lsn → locker_id o = id → lock_type o ≠ rq_type (w_request w)) →
  sys_inv (mkSys m' (<[id := w]> p)).
Proof.
  intros lsn [? Hsh Ho Ha Hnd Hq Hp Hfr Hr Hpair Hfl Hu] Hidle Hm' Hreg Hpre Hgf Hnp Hk Hlo Hlw
    Hne Hwp Hty Hmw Hno; simpl in *.
  assert (∀ k, ow m' k = ow m k) as Hko.
  { intros k. destruct (decide (k = lsn)) as [->|Hk']; [done|]. by apply Hk. }
  assert (∀ k e, e ∈ wt m' k ↔ e ∈ wt m k ∨ k = lsn ∧ e = entry id w) as Hkw.
  { intros k e. destruct (decide (k = lsn)) as [->|Hk'].
    - rewrite Hlw. set_solver.
    - destruct (Hk k Hk') as [_ ->]. naive_solver. }
  assert (∀ k e, e ∈ wt m k → locker_id e ≠ id) as Hnid.
  { intros k e He Hid. destruct (Hq k e He) as (w' & Hw' & _). congruence. }
  split; simpl; try done.
  - intros a b. rewrite <-Hsh. unfold same_share_group. by rewrite Hreg.
  - intros k. rewrite Hko. apply Ho.
  - intros k. unfold attended_in. rewrite Hko. destruct (decide (k = lsn)) as [->|Hk']; [done|].
    destruct (Hk k Hk') as [_ ->]. apply Ha.
  - intros k. destruct (decide (k = lsn)) as [->|Hk'].
    + rewrite Hlw. simpl. apply NoDup_cons. split; [|done].
      intros (e & Heq & He)%list_elem_of_fmap. by apply (Hnid lsn e).
    + destruct (Hk k Hk') as [_ ->]. done.
  - intros k e [He|[-> ->]]%Hkw; simpl.
    + rewrite lookup_insert_ne by (apply not_eq_sym; by eapply Hnid). rewrite Hgf. by apply Hq.
    + rewrite lookup_insert_eq. exists w. split_and!; try done. rewrite Hgf, Hwp.
      intros Hin%Hfl. lia.
  - intros id' w' [[-> ->]|[Hne' Hw']]%lookup_insert_Some; [left; apply Hkw; by right|].
    destruct (Hp id' w' Hw') as [He|[Hf Hs]]; [left; apply Hkw; by left|right].
    unfold signalled. by rewrite Hgf, Hpre, Hko.
  - intros id' w' o [[-> ->]|[Hne' Hw']]%lookup_insert_Some; rewrite Hko.
    + intros _ Ho' Hid. by apply Hno.
    + intros [Hin|[_ Heq]]%Hkw; [by apply Hfr|]. by injection Heq.
  - intros id' w' [[-> ->]|[Hne' Hw']]%lookup_insert_Some; [done|by eapply Hr].
  - intros id' w' [[-> ->]|[Hne' Hw']]%lookup_insert_Some; [lia|].
    specialize (Hpair _ _ Hw'). lia.
  - intros n. rewrite Hgf, Hnp. intros ?%Hfl. lia.
  - intros id1 id2 w1 w2 [[-> <-]|[? Hw1]]%lookup_insert_Some
      [[-> <-]|[? Hw2]]%lookup_insert_Some Heq; [done| | |by eapply Hu].
    + specialize (Hpair _ _ Hw2). lia.
    + specialize (Hpair _ _ Hw1). lia.
Qed.

Lemma lock_post_queue s t id nb jump shares s' g n :
  lock_post s t id nb jump shares s' g → must_wait g = true →
  (id ∉ locker_id <$> waiters s) →
  owners s' = owners s ∧
  notify_first id n (waiters s') ≡ₚ
    mkLockInfo id (if decide (g = WaitRestart) then RestartLock else t) (Some n) :: waiters s.
Proof.
  intros Hp Hg Hn. destruct g; try done; simpl in Hp.
  - destruct Hp as (_ & -> & -> & _). split; [done|].
    rewrite notify_first_end by done. symmetry. apply Permutation_cons_append.
  - destruct Hp as (_ & -> & -> & _). split; [done|]. simpl. by rewrite decide_True.
  - destruct Hp as (_ & -> & -> & _). split; [done|].
    rewrite notify_first_end by done. symmetry. apply Permutation_cons_append.
Qed.

Lemma lock_waits_sys m p id r nb jump m' g owner_ids pr :
  sys_inv (mkSys m p) → p !! id = None →
  lock_attempt m (rq_lsn r) id (rq_type r) nb jump = (m', MustWait g owner_ids pr) →
  sys_inv (mkSys m' (<[id := mkWaiting r g owner_ids pr Queued]> p)).
Proof.
  intros Hi Hidle Hl. pose proof (si_mgr _ Hi) as Hm.
  assert (mgr_inv m') as Hm'
    by (pose proof (lock_attempt_inv m (rq_lsn r) id (rq_type r) nb jump Hm); by rewrite Hl in *).
  apply lock_attempt_post in Hl as [(_ & res & [=] & _)|[Hty Hl]]; [|done].
  destruct Hl as (s & s' & g' & Ho & Hw & Hpost & Hs' & Hgr & -> & Hg & -> & Hc & Hf1 & Hf2 & Hf3 & Hf4).
  destruct (request_lock_facts m p id _ nb jump s s' _ Hi Ho Hw Hs') as (Hli & _ & Hat').
  destruct Hc as (Hk & Hlo & Hlw).
  assert (id ∉ locker_id <$> wt m (rq_lsn r)) as Hn.
  { intros (e & -> & He)%list_elem_of_fmap.
    destruct (si_queue _ Hi _ e He) as (w' & Hw' & _). simpl in Hw'. congruence. }
  rewrite <-Hw in Hn.
  destruct (lock_post_queue _ _ _ _ _ _ _ _ (next_pair m) Hpost Hg Hn) as [Hos Hq].
  rewrite waiters_set_waiter_notify in Hlw. rewrite owners_set_waiter_notify in Hlo.
  apply (sys_inv_enqueue m p m' id); try done; simpl.
  - congruence.
  - by rewrite Hlw, Hq, Hw.
  - rewrite <-Ho, <-Hos. apply Hat'. intros Hnil. rewrite Hnil in Hq. simpl in Hq.
    by apply Permutation_nil_cons in Hq.
  - intros o Hin Hid. rewrite <-Ho in Hin.
    eapply (must_wait_not_owned sh s _ id nb jump (build_shares_fn m id)); try done.
    + intros x. rewrite build_shares_fn_spec, (si_share _ Hi) by done. apply sh_sym.
    + by rewrite <-Hgr.
Qed.

(** ** Demotion, steals and the sweep *)

Lemma demote_sys m p id lsn :
  sys_inv (mkSys m p) → p !! id = None → is_Some (get_owned_lock_type m lsn id) →
  sys_inv (mkSys (demote m lsn id) p).
Proof.
  intros Hi Hidle Hown. pose proof (si_mgr _ Hi) as Hm. simpl in Hm.
  pose proof (demote_inv m lsn id Hm) as Hm'. unfold demote, get_owned_lock_type in *.
  destruct (get_lock m lsn) as [l|] eqn:Hl; [|done].
  pose proof (lock_inv_in m p lsn l Hi Hl) as Hli.
  assert (repr (Lock.demote l id) = LockImpl.demote (repr l) id) as Hd.
  { apply demote_repr_eq. destruct Hown as [t Ht].
    rewrite get_owned_lock_type_repr in Ht. unfold LockImpl.get_owned_lock_type in Ht.
    rewrite get_owner_lock_info_find in Ht.
    destruct (find_locker id (owners (repr l))) as [o|] eqn:Ho; [|done].
    apply find_locker_Some in Ho as [Ho <-]. by apply list_elem_of_fmap_2. }
  eapply (sys_inv_update m p _ lsn (LockImpl.demote (repr l) id) []); try done; simpl.
  - rewrite <-Hd. apply changes_put. auto with noxu.
  - set_solver.
  - by apply demote_keeps_inv.
  - unfold attended. rewrite waiters_demote. intros Hne Hnil.
    apply (attended_repr m p lsn l Hi Hl Hne).
    apply (f_equal (fmap locker_id)) in Hnil. rewrite owners_demote_ids in Hnil.
    by apply fmap_nil_inv in Hnil.
  - by rewrite waiters_demote, (wt_get m lsn l).
  - intros e He. by apply elem_of_nil in He.
  - intros id' w Hw Hh. left. rewrite (ow_get m lsn l) in Hh by done.
    apply demote_holds_other; [apply Hli|congruence|done].
  - intros o w Hw Ho _. rewrite (ow_get m lsn l) by done.
    apply (demote_others _ id); [done|congruence].
Qed.

(** The lock after the owners that a steal may take away are gone. *)
Lemma steal_holds s id preemptable id' t :
  holds s id' t →
  holds (LockImpl.steal_lock_preemptable s id preemptable).1 id' t ∨
  id' ∈ (LockImpl.steal_lock_preemptable s id preemptable).2.
Proof.
  intros (o & Ho & Hid & Ht). rewrite preempted_steal.
  destruct (preempts id preemptable o) eqn:E.
  - right. apply list_elem_of_fmap. exists o. split; [done|]. by apply list_elem_of_filter.
  - left. exists o. rewrite owners_steal. split; [by apply list_elem_of_filter|done].
Qed.

Lemma flush_idle m p id lsn s :
  sys_inv (mkSys m p) → p !! id = None → waiters s = wt m lsn →
  waiters (LockImpl.flush_waiter s id) = waiters s.
Proof.
  intros Hi Hidle Hw. rewrite waiters_flush_waiter by (rewrite Hw; apply (si_nodup _ Hi)).
  apply filter_id. intros e He Hid. rewrite Hw in He.
  destruct (si_queue _ Hi _ e He) as (w & Hp & _). simpl in Hp. congruence.
Qed.

Lemma mark_preempted_fields m vs :
  let m' := mark_preempted m vs in
  share_registry m' = share_registry m ∧ granted_flags m' = granted_flags m ∧
  next_pair m' = next_pair m ∧ preempted m' = list_to_set vs ∪ preempted m ∧
  ∀ k, get_lock m' k = get_lock m k.
Proof. destruct vs; simpl; split_and!; try done. set_solver. Qed.

(** The lock that [steal_lock_in_wait] leaves. *)
Definition stolen (s : LockImpl) (id : Z) (preemptable : Z → bool) (t : LockType)
    (shares : Z → bool) : LockImpl :=
  let s1 := LockImpl.flush_waiter s id in
  let s2 := (LockImpl.steal_lock_preemptable s1 id preemptable).1 in
  (LockImpl.lock_with_sharing s2 t id true false shares).1.

Lemma steal_in_wait_changes m lsn id t :
  mgr_inv m →
  ∃ s preemptable, owners s = ow m lsn ∧ waiters s = wt m lsn ∧
    let m' := (steal_lock_in_wait m lsn id t).1 in
    changes m m' lsn (stolen s id preemptable t (build_shares_fn m id)) ∧
    share_registry m' = share_registry m ∧ granted_flags m' = granted_flags m ∧
    next_pair m' = next_pair m ∧
    preempted m' =
      list_to_set (LockImpl.steal_lock_preemptable (LockImpl.flush_waiter s id) id preemptable).2
      ∪ preempted m ∧
    (steal_lock_in_wait m lsn id t).2 =
      success (LockImpl.lock_with_sharing
        (LockImpl.steal_lock_preemptable (LockImpl.flush_waiter s id) id preemptable).1
        t id true false (build_shares_fn m id)).2.
Proof.
  intros Hinv. unfold steal_lock_in_wait.
  set (pf := λ owner_id, negb (bool_decide (owner_id ∈ non_preemptable m))).
  pose proof (entry_or_new_lists m lsn Hinv) as He.
  destruct (entry_or_new m lsn) as [m1 l].
  destruct He as (Hm1 & Hl & Hk & Ho & Hw & Hf1 & Hf2 & Hf3 & Hf4 & _).
  exists (repr l), pf. split; [done|]. split; [done|].
  pose proof (rl_flush_ok l id) as Hfl. simpl in Hfl. rewrite <-Hfl.
  pose proof (steal_repr_eq (flush_waiter l id) id pf) as Hst.
  unfold stolen. rewrite <-Hfl, <-Hst.
  destruct (Lock.steal_lock_preemptable (flush_waiter l id) id pf) as [l1 vs]. simpl.
  pose proof (lock_repr_eq l1 t id true false (build_shares_fn m id)) as Hlk. rewrite <-Hlk.
  destruct (Lock.lock_with_sharing l1 t id true false _) as [l2 r]. simpl.
  destruct (mark_preempted_fields m1 vs) as (Hp1 & Hp2 & Hp3 & Hp4 & Hp5).
  split_and!; try congruence; try done. eapply changes_entry; [exact Hk|].
  eapply (changes_entry m1 (mark_preempted m1 vs)).
  - intros k. unfold ow, wt. by rewrite Hp5.
  - apply changes_put. auto with noxu.
Qed.

Lemma steal_sys m p id lsn t :
  sys_inv (mkSys m p) → p !! id = None →
  sys_inv (mkSys (steal_lock_in_wait m lsn id t).1 p).
Proof.
  intros Hi Hidle. pose proof (si_mgr _ Hi) as Hm. simpl in Hm.
  destruct (steal_in_wait_changes m lsn id t Hm)
    as (s & pf & Ho & Hw & Hc & Hf1 & Hf2 & Hf3 & Hf4 & _).
  pose proof (flush_idle m p id lsn s Hi Hidle Hw) as Hfl.
  pose proof (owners_flush_waiter s id) as Hfo.
  set (s1 := LockImpl.flush_waiter s id) in *.
  pose proof (owners_steal s1 id pf) as Hso. pose proof (waiters_steal s1 id pf) as Hsw.
  pose proof (steal_holds s1 id pf) as Hsh.
  unfold stolen in Hc. fold s1 in Hc.
  destruct (LockImpl.steal_lock_preemptable s1 id pf) as [s2 vs]. simpl in *.
  assert (lock_inv sh s2) as Hli2.
  { unfold lock_inv. rewrite Hso, Hfo, Ho. apply compatible_owners_filter, (si_owners _ Hi). }
  pose proof (lock_with_sharing_post s2 t id true false (build_shares_fn m id)) as Hpost.
  pose proof (lock_keeps_inv sh sh_sym s2 t id true false (build_shares_fn m id)) as Hli3.
  assert (attended (LockImpl.lock_with_sharing s2 t id true false (build_shares_fn m id)).1)
    as Hat.
  { destruct (decide (owners s2 = [])).
    - intros _. by apply lock_unowned_granted.
    - apply lock_attended. by intros _. }
  destruct (LockImpl.lock_with_sharing s2 t id true false _) as [s3 r]. simpl in *.
  destruct Hpost as [Hsucc Hpost].
  assert (waiters s3 = waiters s2) as Hw3.
  { destruct (must_wait (lock_grant r)) eqn:Hmw; [|by eapply lock_post_waiters].
    by destruct (lock_grant r); try done; destruct Hpost. }
  eapply (sys_inv_update m p _ lsn s3 []); try done.
  - by apply steal_in_wait_inv.
  - set_solver.
  - rewrite Hf2. simpl. set_solver.
  - apply Hli3; [|done]. intros x.
    by rewrite build_shares_fn_spec, (si_share _ Hi) by apply (si_mgr _ Hi).
  - simpl. congruence.
  - intros e He. by apply elem_of_nil in He.
  - intros id' w' _ Hh. rewrite <-Ho, <-Hfo in Hh. apply Hsh in Hh as [Hh|Hin].
    + left. eapply lock_post_holds_mono; [apply Hli2|done..].
    + right. rewrite Hf4. set_solver.
  - intros o w Hp Ho3 _. rewrite <-Ho, <-Hfo.
    assert (o ∈ owners s2) as Ho2 by (eapply lock_post_others; [done..|congruence]).
    rewrite Hso in Ho2. by apply list_elem_of_filter in Ho2 as [_ ?].
Qed.

Lemma clear_preempted_sys m p id :
  sys_inv (mkSys m p) → p !! id = None → sys_inv (mkSys (clear_preempted m id) p).
Proof.
  intros [? Hsh Ho Ha Hnd Hq Hp Hfr Hr Hpair Hfl Hu] Hidle. simpl in *.
  split; simpl; try done; [by apply clear_preempted_inv|].
  intros id' w Hw. destruct (Hp id' w Hw) as [?|[Hf Hs]]; [by left|right].
  split; [done|]. destruct Hs as [?|[?|?]]; [by left| |by right; right].
  right; left. simpl. assert (id' ≠ id) by congruence. set_solver.
Qed.

Lemma release_all_sys m p id :
  sys_inv (mkSys m p) → p !! id = None →
  sys_inv (mkSys (release_all_for_locker m id).1 p).
Proof.
  intros Hi Hidle. apply (release_all_ind (λ m, sys_inv (mkSys m p))); [done| |].
  - intros. by apply release_at_sys.
  - intros. by apply clear_preempted_sys.
Qed.

Lemma non_preemptable_sys m p np :
  sys_inv (mkSys m p) → sys_inv (mkSys (with_non_preemptable m np) p).
Proof. intros []. split; try done. by apply with_non_preemptable_inv. Qed.

(** ** The steps of a wait *)

Lemma with_graph_sys m p g : sys_inv (mkSys m p) → sys_inv (mkSys (with_graph m g) p).
Proof. intros []. split; try done. by apply with_graph_inv. Qed.

Lemma with_stats_sys m p a b c : sys_inv (mkSys m p) → sys_inv (mkSys (with_stats m a b c) p).
Proof. intros []. split; try done. by apply with_stats_inv. Qed.

Lemma set_pc_sys m p id w pc :
  sys_inv (mkSys m p) → p !! id = Some w → sys_inv (mkSys m (<[id := set_pc w pc]> p)).
Proof.
  intros [? Hsh Ho Ha Hnd Hq Hp Hfr Hr Hpair Hfl Hu] Hw. simpl in *.
  assert (∀ id' w', <[id := set_pc w pc]> p !! id' = Some w' →
    ∃ w0, p !! id' = Some w0 ∧ w_request w' = w_request w0 ∧
          w_pair w' = w_pair w0 ∧ w_initial w' = w_initial w0) as Hback.
  { intros id' w' [[<- <-]|[_ ?]]%lookup_insert_Some; eauto 10. }
  split; simpl; try done.
  - intros k e He. destruct (Hq k e He) as (w' & Hw' & H1 & H2 & H3).
    destruct (decide (locker_id e = id)) as [Hid|Hne].
    + rewrite Hid, lookup_insert_eq. exists (set_pc w pc).
      assert (w' = w) as -> by congruence. by rewrite <-Hid.
    + rewrite lookup_insert_ne by done. eauto.
  - intros id' w' (w0 & Hw0 & H1 & H2 & H3)%Hback. unfold signalled, entry.
    rewrite H1, H2, H3. by apply Hp.
  - intros id' w' o (w0 & Hw0 & H1 & H2 & H3)%Hback. unfold entry.
    rewrite H1, H2, H3. by apply Hfr.
  - intros id' w' (w0 & Hw0 & H1 & H2 & H3)%Hback. rewrite H1, H3. by eapply Hr.
  - intros id' w' (w0 & Hw0 & H1 & H2 & H3)%Hback. rewrite H2. by eapply Hpair.
  - intros id1 id2 w1 w2 (v1 & ? & _ & -> & _)%Hback (v2 & ? & _ & -> & _)%Hback. by eapply Hu.
Qed.

(** A request leaves: its queue entry, if it had one, is gone. *)
Lemma sys_inv_leave m p m' id :
  sys_inv (mkSys m p) → mgr_inv m' → same_fields m m' →
  (∀ k, ow m' k = ow m k ∧ wt m' k = filter (λ e, locker_id e ≠ id) (wt m k)) →
  sys_inv (mkSys m' (delete id p)).
Proof.
  intros [? Hsh Ho Ha Hnd Hq Hp Hfr Hr Hpair Hfl Hu] Hm' (Hf1 & Hf2 & Hf3 & Hf4) Hk; simpl in *.
  assert (∀ k e, e ∈ wt m' k ↔ e ∈ wt m k ∧ locker_id e ≠ id) as Hkw.
  { intros k e. destruct (Hk k) as [_ ->]. rewrite list_elem_of_filter. naive_solver. }
  assert (∀ k, ow m' k = ow m k) as Hko by (intros k; by destruct (Hk k)).
  split; simpl; try done.
  - intros a b. rewrite <-Hsh. unfold same_share_group. by rewrite Hf1.
  - intros k. rewrite Hko. apply Ho.
  - intros k Hne. rewrite Hko. apply Ha. intros Hnil. apply Hne.
    destruct (Hk k) as [_ ->]. by rewrite Hnil.
  - intros k. destruct (Hk k) as [_ ->].
    eapply sublist_NoDup; [apply Hnd|]. apply fmap_sublist, sublist_filter.
  - intros k e [He Hne]%Hkw. destruct (Hq k e He) as (w & Hw & H1 & H2 & H3).
    exists w. rewrite lookup_delete_ne, Hf3 by done. done.
  - intros id' w [Hne Hw]%lookup_delete_Some. destruct (Hp id' w Hw) as [He|Hs].
    + left. apply Hkw. done.
    + right. unfold signalled. by rewrite Hf2, Hf3, Hko.
  - intros id' w o [Hne Hw]%lookup_delete_Some [Hin _]%Hkw. rewrite Hko. by apply Hfr.
  - intros id' w [Hne Hw]%lookup_delete_Some. by eapply Hr.
  - intros id' w [Hne Hw]%lookup_delete_Some. rewrite Hf4. by eapply Hpair.
  - intros n. rewrite Hf3, Hf4. apply Hfl.
  - intros id1 id2 w1 w2 [_ H1]%lookup_delete_Some [_ H2]%lookup_delete_Some. by eapply Hu.
Qed.

Lemma signalled_not_queued m p id w k :
  sys_inv (mkSys m p) → p !! id = Some w → w_pair w ∈ granted_flags m →
  wt m k = filter (λ e, locker_id e ≠ id) (wt m k).
Proof.
  intros Hi Hw Hf. symmetry. apply filter_id. intros e He Hid.
  destruct (si_queue _ Hi k e He) as (w' & Hw' & _ & _ & Hn). simpl in *.
  rewrite Hid in Hw'. congruence.
Qed.

Lemma queued_elsewhere m p id w k :
  sys_inv (mkSys m p) → p !! id = Some w → k ≠ rq_lsn (w_request w) →
  wt m k = filter (λ e, locker_id e ≠ id) (wt m k).
Proof.
  intros Hi Hw Hk. symmetry. apply filter_id. intros e He Hid.
  destruct (si_queue _ Hi k e He) as (w' & Hw' & Hl & _). simpl in *.
  rewrite Hid in Hw'. congruence.
Qed.

Lemma is_owner_elem m p lsn l id t :
  sys_inv (mkSys m p) → get_lock m lsn = Some l →
  Lock.is_owner l id t = true ↔ ∃ o, o ∈ ow m lsn ∧ locker_id o = id ∧ lock_type o = t.
Proof.
  intros Hi Hl. pose proof (lock_inv_in m p lsn l Hi Hl) as [Hnd _].
  rewrite (ow_get m lsn l Hl), is_owner_repr. unfold LockImpl.is_owner.
  rewrite get_owner_lock_info_find.
  destruct (find_locker id (owners (repr l))) as [o|] eqn:Ho.
  - apply find_locker_Some in Ho as [Ho Hid]. rewrite bool_decide_eq_true.
    split; [eauto|]. intros (o' & Ho' & Hid' & Ht).
    assert (o = o') as -> by (eapply NoDup_owner_unique; eauto; congruence). done.
  - apply find_locker_None in Ho. split; [done|]. intros (o' & Ho' & Hid' & _).
    exfalso. apply Ho. rewrite <-Hid'. by apply list_elem_of_fmap_2.
Qed.

(** Removing a queue entry, with the removal of a lock left unused. *)
Lemma flush_drop_lists m lsn l id k :
  mgr_inv m → get_lock m lsn = Some l → NoDup (locker_id <$> wt m lsn) →
  let l' := flush_waiter l id in
  let m' := drop_if_unused (put_lock m lsn l') lsn l' in
  ow m' k = ow m k ∧
  wt m' k = if decide (k = lsn) then filter (λ e, locker_id e ≠ id) (wt m k) else wt m k.
Proof.
  intros Hm Hl Hnd l' m'.
  assert (get_lock (put_lock m lsn l') lsn = Some l') as Hg
    by (by rewrite get_put_lock, decide_True by auto with noxu).
  destruct (drop_if_unused_lists (put_lock m lsn l') lsn l' k) as [Hdo Hdw];
    [by eauto with noxu|done|].
  unfold m'. rewrite Hdo, Hdw.
  destruct (changes_put m lsn l' (inv_wf _ Hm)) as (Hk & Hlo & Hlw).
  pose proof (rl_flush_ok l id) as Hfl. simpl in Hfl. case_decide as Hd; [|by apply Hk].
  subst k. rewrite (wt_get m lsn l) in * by done.
  rewrite Hlo, Hlw; unfold l'; rewrite Hfl, owners_flush_waiter, waiters_flush_waiter, (ow_get m lsn l) by done.
  done.
Qed.

(** The check that closes the race between a grant and a timeout. *)
Lemma validate_spec m p id w :
  sys_inv (mkSys m p) → p !! id = Some w →
  let lsn := rq_lsn (w_request w) in
  let t := rq_type (w_request w) in
  let '(m', b) := validate_ownership_or_flush m lsn id t in
  same_fields m m' ∧
  (∀ k, ow m' k = ow m k ∧ wt m' k = filter (λ e, locker_id e ≠ id) (wt m k)) ∧
  (b = true ↔ ∃ o, o ∈ ow m lsn ∧ locker_id o = id ∧ lock_type o = t).
Proof.
  intros Hi Hw lsn t. pose proof (si_mgr _ Hi) as Hm. simpl in Hm.
  unfold validate_ownership_or_flush. destruct (get_lock m lsn) as [l|] eqn:Hl.
  - pose proof (is_owner_elem m p lsn l id t Hi Hl) as Hown.
    destruct (Lock.is_owner l id t) eqn:Ho.
    + split; [done|split; [|done]]. intros k. split; [done|].
      destruct Hown as [Hown _]. destruct (Hown eq_refl) as (o & Hin & Hid & Hty).
      apply (signalled_not_queued m p id w); [done..|].
      destruct (si_pending _ Hi id w Hw) as [He|[? _]]; [|done].
      by destruct (si_fresh _ Hi id w o Hw He Hin Hid).
    + pose proof (λ k, flush_drop_lists m lsn l id k Hm Hl (si_nodup _ Hi lsn)) as Hd.
      simpl in Hd. set (l' := flush_waiter l id) in *.
      destruct (drop_if_unused_fields (put_lock m lsn l') lsn l') as (? & ? & ? & ?).
      split; [done|]. split; [|done]. intros k. destruct (Hd k) as [Hdo Hdw].
      unfold ow, wt in *; simpl in *. split; [exact Hdo|]. etransitivity; [exact Hdw|].
      case_decide; [done|]. by apply (queued_elsewhere m p id w).
  - split; [done|]. assert (ow m lsn = [] ∧ wt m lsn = []) as [Ho0 Hw0]
      by (unfold ow, wt; by rewrite Hl).
    split.
    + intros k. change (wt (clear_wait m id) k) with (wt m k). split; [done|].
      destruct (decide (k = lsn)) as [->|Hne]; [by rewrite Hw0|]. by eapply queued_elsewhere.
    + split; [done|]. rewrite Ho0. intros (o & Hin & _). by apply elem_of_nil in Hin.
Qed.

Lemma finish_sys m p id w :
  sys_inv (mkSys m p) → p !! id = Some w → granted m w = true →
  sys_inv (mkSys (clear_wait m id) (delete id p)).
Proof.
  intros Hi Hw Hg. unfold granted in Hg. reflect_bools.
  eapply sys_inv_leave; [done|apply with_graph_inv, (si_mgr _ Hi)|done|].
  intros k. split; [done|]. change (wt (clear_wait m id) k) with (wt m k).
  by eapply signalled_not_queued.
Qed.

Lemma validate_sys m p id w m' b :
  sys_inv (mkSys m p) → p !! id = Some w →
  validate_ownership_or_flush m (rq_lsn (w_request w)) id (rq_type (w_request w)) = (m', b) →
  sys_inv (mkSys m' (delete id p)).
Proof.
  intros Hi Hw Hv. pose proof (validate_spec m p id w Hi Hw) as Hs. simpl in Hs.
  pose proof (validate_inv m (rq_lsn (w_request w)) id (rq_type (w_request w)) (si_mgr _ Hi)) as Hm.
  rewrite Hv in Hs, Hm. destruct Hs as (Hf & Hk & _). by eapply sys_inv_leave.
Qed.

(** What a blocked request ends with. *)
Definition ends_well (m' : LockManager) (id : Z) (r : request)
    (res : result LockGrantType TxnError) : Prop :=
  ∀ g, res = Ok g →
    id ∈ preempted m' ∨ holds_in (ow m' (rq_lsn r)) id (rq_type r).

Lemma granted_ends_well m p id w :
  sys_inv (mkSys m p) → p !! id = Some w → granted m w = true →
  ends_well m id (w_request w) (granted_wait_grant (w_initial w) (rq_type (w_request w))).
Proof.
  intros Hi Hw Hg g. unfold granted in Hg. reflect_bools. simpl.
  destruct (si_request _ Hi id w Hw) as [_ Hmw].
  destruct (si_pending _ Hi id w Hw) as [He|[_ Hs]].
  - destruct (si_queue _ Hi _ _ He) as (w' & Hw' & _ & _ & Hn). simpl in *. congruence.
  - destruct Hs as [Hr|[?|?]]; [|by left|by right]. by rewrite Hr.
Qed.

Lemma wait_step_sys m snap p id w elapsed_ms timed_out m' out :
  sys_inv (mkSys m p) → p !! id = Some w →
  wait_step m snap id w elapsed_ms timed_out = (m', out) →
  match out with
  | inl pc => sys_inv (mkSys m' (<[id := set_pc w pc]> p))
  | inr res => sys_inv (mkSys m' (delete id p)) ∧ ends_well m' id (w_request w) res
  end.
Proof.
  intros Hi Hw Hs.
  assert (∀ pc, sys_inv (mkSys m (<[id := set_pc w pc]> p))) as Hgo
    by (intros; by apply set_pc_sys).
  assert (granted m w = true → finish m id w = (m', out) →
    match out with
    | inl pc => sys_inv (mkSys m' (<[id := set_pc w pc]> p))
    | inr res => sys_inv (mkSys m' (delete id p)) ∧ ends_well m' id (w_request w) res
    end) as Hfin.
  { unfold finish. intros Hg [= <- <-]. split; [by eapply finish_sys|].
    exact (granted_ends_well m p id w Hi Hw Hg). }
  unfold wait_step in Hs. destruct (w_pc w).
  - case_bool_decide; injection Hs as <- <-; [done|]. apply set_pc_sys; [|done].
    by apply with_graph_sys.
  - destruct (check_deadlock_for_waiter _ _ _ _ _); injection Hs as <- <-; done.
  - destruct (granted m w); [by apply Hfin|]. repeat split_match_in Hs; injection Hs as <- <-; done.
  - destruct (granted m w); [by apply Hfin|]. by injection Hs as <- <-.
  - destruct (check_deadlock_for_waiter _ _ _ _ _); injection Hs as <- <-; done.
  - destruct (granted m w); [by apply Hfin|]. repeat split_match_in Hs; injection Hs as <- <-; done.
  - destruct (validate_ownership_or_flush m (rq_lsn (w_request w)) id (rq_type (w_request w)))
      as [m1 b] eqn:Hv.
    pose proof (validate_sys m p id w m1 b Hi Hw Hv) as Hi1.
    pose proof (validate_spec m p id w Hi Hw) as Hsp. simpl in Hsp. rewrite Hv in Hsp.
    destruct Hsp as (_ & Hk & Hb). destruct b.
    + unfold finish in Hs. injection Hs as <- <-. split; [by apply with_graph_sys|].
      intros g _. right. destruct Hb as [Hb _]. destruct (Hb eq_refl) as (o & Ho & Hid & Ht).
      exists o. change (ow (clear_wait m1 id)) with (ow m1). destruct (Hk (rq_lsn (w_request w))) as [-> _].
      by eauto.
    + injection Hs as <- <-. split; [|by intros g [=]].
      case_match; [by apply with_stats_sys|done].
Qed.

(** Every step keeps the invariant, and what it returns is well. *)
Lemma sys_step_inv s e s' : sys_inv s → sys_step s e s' → sys_inv s'.
Proof.
  intros Hi Hs. destruct Hs.
  - by eapply lock_returned_sys.
  - by eapply lock_waits_sys.
  - by eapply (wait_step_sys _ _ _ _ _ _ _ _ (inl pc)).
  - by eapply (wait_step_sys _ _ _ _ _ _ _ _ (inr res)).
  - by apply release_at_sys.
  - by apply demote_sys.
  - by apply steal_sys.
  - by apply release_all_sys.
  - by apply clear_preempted_sys.
  - by apply non_preemptable_sys.
  - by apply non_preemptable_sys.
Qed.

Lemma sys_step_returns s id r g s' :
  sys_inv s → sys_step s (Returns id r (Ok g)) s' → rq_type r ≠ NoLock →
  id ∈ preempted (mgr s') ∨ holds_in (ow (mgr s') (rq_lsn r)) id (rq_type r).
Proof.
  intros Hi Hs Hne. inversion Hs as [m p ? ? nb jump m' ? Hidle Hl|
    | |m p ? w snap el to m' ? Hw Hst| | | | | | |]; subst; simpl.
  - pose proof (si_mgr _ Hi) as Hm.
    apply lock_attempt_post in Hl as [(_ & res & [= <-] & [[? _]|(? & [=])])|[_ Hl]]; [done| |done].
    right. destruct Hl as (s & s' & g' & Ho & Hw & Hpost & Hs' & _ & _ & (_ & Hlo & _) & _ & Hok & _).
    destruct (request_lock_facts m p id _ nb jump s s' _ Hi Ho Hw Hs') as ([Hnd _] & _).
    destruct (Hok g eq_refl) as [-> Hgr]. unfold holds_in. rewrite Hlo.
    by eapply lock_post_holds.
  - eapply wait_step_sys in Hst as [_ He]; [|done..]. by eapply He.
Qed.
End invariant.

(** ** Reachable states *)

(** A new manager, with the sharing groups of its lockers registered. *)
Definition configured (timeout_ms : Z) (n : nat) (groups : list (Z * Z)) : LockManager :=
  foldl (λ m ig, register_locker_sharing m ig.1 ig.2) (with_config timeout_ms n) groups.

Lemma configured_facts timeout_ms n groups :
  let m := configured timeout_ms n groups in
  mgr_inv m ∧ (∀ lsn, get_lock m lsn = None) ∧ granted_flags m = ∅.
Proof.
  unfold configured.
  assert (∀ m, mgr_inv m ∧ (∀ lsn, get_lock m lsn = None) ∧ granted_flags m = ∅ →
    let m' := foldl (λ m ig, register_locker_sharing m ig.1 ig.2) m groups in
    mgr_inv m' ∧ (∀ lsn, get_lock m' lsn = None) ∧ granted_flags m' = ∅) as H.
  { induction groups as [|[id g] groups IH]; intros m (H1 & H2 & H3); simpl; [done|].
    apply IH. split_and!; [|done..]. by apply (mgr_step_inv m (MShare id g)). }
  apply H. split_and!; [apply with_config_inv| |done]. intros lsn.
  unfold get_lock, table_of; simpl.
  destruct (replicate _ _ !! _) as [t|] eqn:Ht; simpl; [|done].
  apply lookup_replicate in Ht as [-> _]. done.
Qed.

Lemma configured_inv timeout_ms n groups :
  let m := configured timeout_ms n groups in
  sys_inv (same_share_group m) (mkSys m ∅).
Proof.
  intros m. destruct (configured_facts timeout_ms n groups) as (H1 & H2 & H3). fold m in H1, H2, H3.
  assert (∀ k, ow m k = [] ∧ wt m k = []) as Hk by (intros k; unfold ow, wt; by rewrite H2).
  split; simpl; try done.
  - intros k. destruct (Hk k) as [-> _]. apply compatible_owners_nil.
  - intros k Hne. by destruct (Hk k) as [_ ?].
  - intros k. destruct (Hk k) as [_ ->]. apply NoDup_nil_2.
  - intros k e. destruct (Hk k) as [_ ->]. by intros ?%elem_of_nil.
  - intros n0. rewrite H3. set_solver.
Qed.

Lemma reachable_inv timeout_ms n groups s :
  let m := configured timeout_ms n groups in
  reachable m s → sys_inv (same_share_group m) s.
Proof.
  intros m Hr. induction Hr as [|s e s' _ IH Hs]; [apply configured_inv|].
  eapply sys_step_inv; [|done..]. intros a b. apply same_share_group_sym.
Qed.

Lemma holds_in_owned sh m p lsn id t :
  sys_inv sh (mkSys m p) → holds_in (ow m lsn) id t →
  ∃ t', get_owned_lock_type m lsn id = Some t' ∧ (t' = t ∨ covers t' t).
Proof.
  intros Hi (o & Ho & Hid & Ht). unfold get_owned_lock_type.
  destruct (get_lock m lsn) as [l|] eqn:Hl.
  2:{ unfold ow in Ho. rewrite Hl in Ho. by apply elem_of_nil in Ho. }
  destruct (lock_inv_in sh m p lsn l Hi Hl) as [Hnd _].
  rewrite get_owned_lock_type_repr. unfold LockImpl.get_owned_lock_type.
  rewrite get_owner_lock_info_find. rewrite (ow_get m lsn l) in Ho by done.
  destruct (find_locker id (owners (repr l))) as [o'|] eqn:Hf.
  - apply find_locker_Some in Hf as [Ho' Hid'].
    assert (o' = o) as -> by (eapply NoDup_owner_unique; eauto; congruence). simpl. eauto.
  - apply find_locker_None in Hf. exfalso. apply Hf. rewrite <-Hid. by apply list_elem_of_fmap_2.
Qed.

(** A run of two lockers: 1 takes a write lock, 2 asks for it, enters its wait
    loop, and 1 releases. *)
Definition demo_request : request := mkRequest 100 Write 500 None.
Definition demo_m0 : LockManager := configured 500 4 [(7, 1); (8, 1)].
Definition demo_m1 : LockManager := (lock_attempt demo_m0 100 1 Write false false).1.
Definition demo_m2 : LockManager := (lock_attempt demo_m1 100 2 Write false false).1.
Definition demo_w (pc : wait_pc) : waiting := mkWaiting demo_request WaitNew [1] 0 pc.
Definition demo_m3 : LockManager := record_wait demo_m2 2 [1].
Definition demo_m4 : LockManager := release demo_m3 100 1.

Definition demo_m2' : LockManager := (lock_attempt demo_m1 100 2 RangeInsert false true).1.

Lemma step_wait_single m id w snap elapsed_ms timed_out m' pc :
  wait_step m snap id w elapsed_ms timed_out = (m', inl pc) →
  sys_step (mkSys m {[id := w]}) Silent (mkSys m' {[id := set_pc w pc]}).
Proof.
  intros H. rewrite <-(insert_singleton_eq id (set_pc w pc) w).
  eapply step_wait; [apply lookup_singleton_eq|exact H].
Qed.

Lemma step_ends_single m id w snap elapsed_ms timed_out m' res :
  wait_step m snap id w elapsed_ms timed_out = (m', inr res) →
  sys_step (mkSys m {[id := w]}) (Returns id (w_request w) res) (mkSys m' ∅).
Proof.
  intros H. rewrite <-(delete_singleton_eq id w).
  eapply step_wait_ends; [apply lookup_singleton_eq|exact H].
Qed.

Lemma demo_locked : reachable demo_m0 (mkSys demo_m1 ∅).
Proof.
  eapply reach_step; [apply reach_init|].
  apply (step_lock_returned demo_m0 ∅ 1 demo_request false false demo_m1 (Ok New));
    vm_compute; reflexivity.
Qed.

Lemma demo_inserter : reachable demo_m0 (mkSys demo_m2' ∅).
Proof.
  eapply reach_step; [apply demo_locked|].
  apply (step_lock_returned demo_m1 ∅ 2 (mkRequest 100 RangeInsert 0 None) false true demo_m2'
    (Ok New)); vm_compute; reflexivity.
Qed.

Lemma demo_waiting : reachable demo_m0 (mkSys demo_m3 {[2 := demo_w LoopTop]}).
Proof.
  assert (reachable demo_m0 (mkSys demo_m2 {[2 := demo_w Queued]})) as H2.
  { eapply reach_step; [apply demo_locked|].
    apply (step_lock_waits demo_m1 ∅ 2 demo_request false false demo_m2 WaitNew [1] 0);
      vm_compute; reflexivity. }
  assert (reachable demo_m0 (mkSys demo_m3 {[2 := demo_w Detect]})) as H3.
  { eapply reach_step; [exact H2|].
    apply (step_wait_single demo_m2 2 (demo_w Queued) demo_m2 0 false demo_m3 Detect);
      vm_compute; reflexivity. }
  eapply reach_step; [exact H3|].
  apply (step_wait_single demo_m3 2 (demo_w Detect) demo_m3 0 false demo_m3 LoopTop);
    vm_compute; reflexivity.
Qed.

Lemma demo_released : reachable demo_m0 (mkSys demo_m4 {[2 := demo_w LoopTop]}).
Proof.
  eapply reach_step; [apply demo_waiting|].
  apply (step_release demo_m3 {[2 := demo_w LoopTop]} 1 100). vm_compute; reflexivity.
Qed.

Lemma demo_returns :
  sys_step (mkSys demo_m4 {[2 := demo_w LoopTop]}) (Returns 2 demo_request (Ok New))
    (mkSys (clear_wait demo_m4 2) ∅).
Proof.
  apply (step_ends_single demo_m4 2 (demo_w LoopTop) demo_m4 3 false (clear_wait demo_m4 2)
    (Ok New)); vm_compute; reflexivity.
Qed.

Lemma demo_times_out :
  sys_step (mkSys demo_m3 {[2 := demo_w (Validate (lock_timeout_error 2 (demo_w LoopTop)) true)]})
    (Returns 2 demo_request (Err (LockTimeout 500 100 [1] Write 2)))
    (mkSys (count_timeout
       (validate_ownership_or_flush demo_m3 100 2 Write).1) ∅).
Proof.
  apply (step_ends_single demo_m3
    2 (demo_w (Validate (lock_timeout_error 2 (demo_w LoopTop)) true)) demo_m3 501 false
    _ (Err (LockTimeout 500 100 [1] Write 2))); vm_compute; reflexivity.
Qed.

Lemma demo_giving_up :
  reachable demo_m0
    (mkSys demo_m3 {[2 := demo_w (Validate (lock_timeout_error 2 (demo_w LoopTop)) true)]}).
Proof.
  eapply reach_step; [apply demo_waiting|].
  apply (step_wait_single demo_m3 2 (demo_w LoopTop) demo_m3 501 false demo_m3
    (Validate (lock_timeout_error 2 (demo_w LoopTop)) true)); vm_compute; reflexivity.
Qed.

(** * Properties *)

(** C23: a granted request is really held.  In every interleaving of lockers
    on a lock manager, when a request returns a grant (at once, after a
    wake-up, or because the ownership check won a race against a timeout or
    a deadlock verdict), its locker owns the record in a type that is the
    requested one or covers it, unless an importunate steal has marked the
    locker as preempted. *)
Theorem returned_grant_is_held (timeout_ms : Z) (n : nat) (groups : list (Z * Z))
  (s s' : sys) (id : Z) (r : request) (g : LockGrantType)
  (Hr : reachable (configured timeout_ms n groups) s)
  (Hs : sys_step s (Returns id r (Ok g)) s')
  (Hne : rq_type r ≠ NoLock) :
  id ∈ preempted (mgr s') ∨
  ∃ t, get_owned_lock_type (mgr s') (rq_lsn r) id = Some t ∧
       (t = rq_type r ∨ covers t (rq_type r)).
Proof.
  pose proof (reachable_inv _ _ _ _ Hr) as Hi.
  pose proof (same_share_group_sym (configured timeout_ms n groups)) as Hsym.
  pose proof (sys_step_inv _ Hsym _ _ _ Hi Hs) as Hi'.
  destruct (sys_step_returns _ Hsym _ _ _ _ _ Hi Hs Hne) as [?|Hh]; [by left|right].
  destruct s' as [m' p']. by eapply holds_in_owned.
Qed.

Lemma returned_grant_is_held_witness :
  2 ∈ preempted (clear_wait demo_m4 2) ∨
  ∃ t, get_owned_lock_type (clear_wait demo_m4 2) 100 2 = Some t ∧ (t = Write ∨ covers t Write).
Proof.
  apply (returned_grant_is_held 500 4 [(7, 1); (8, 1)] (mkSys demo_m4 {[2 := demo_w LoopTop]})
    (mkSys (clear_wait demo_m4 2) ∅) 2 demo_request New).
  - exact demo_released.
  - exact demo_returns.
  - discriminate.
Defined.

(** A request that has returned, with a grant or with an error (timeout,
    deadlock, restart, preemption), is in the queue of no lock, and nothing
    of its wait is left in the system. *)
Theorem returned_request_leaves_no_waiter (timeout_ms : Z) (n : nat)
  (groups : list (Z * Z)) (s s' : sys) (id : Z) (r : request)
  (res : result LockGrantType TxnError)
  (Hr : reachable (configured timeout_ms n groups) s)
  (Hs : sys_step s (Returns id r res) s') :
  pending s' !! id = None ∧
  ∀ lsn l, get_lock (mgr s') lsn = Some l → (id ∉ locker_id <$> get_waiters_clone l).
Proof.
  pose proof (reachable_inv _ _ _ _ Hr) as Hi.
  pose proof (same_share_group_sym (configured timeout_ms n groups)) as Hsym.
  pose proof (sys_step_inv _ Hsym _ _ _ Hi Hs) as Hi'.
  assert (pending s' !! id = None) as Hp by (inversion Hs; subst; simpl; [done|apply lookup_delete_eq]).
  split; [done|]. intros lsn l Hl (e & Hid & He)%list_elem_of_fmap.
  assert (e ∈ wt (mgr s') lsn) as He' by (unfold wt; by rewrite Hl).
  destruct (si_queue _ _ Hi' lsn e He') as (w & Hw & _). congruence.
Qed.

Lemma returned_request_leaves_no_waiter_witness :
  let m := count_timeout (validate_ownership_or_flush demo_m3 100 2 Write).1 in
  (2 ∉ locker_id <$> get_waiters_clone (default new_thin (get_lock m 100))).
Proof.
  refine (proj2 (returned_request_leaves_no_waiter 500 4 [(7, 1); (8, 1)]
    (mkSys demo_m3 {[2 := demo_w (Validate (lock_timeout_error 2 (demo_w LoopTop)) true)]})
    (mkSys (count_timeout (validate_ownership_or_flush demo_m3 100 2 Write).1) ∅) 2 demo_request
    (Err (LockTimeout 500 100 [1] Write 2)) demo_giving_up demo_times_out) 100 _ _).
  vm_compute. reflexivity.
Defined.

(** C24: no wake-up is lost.  In every reachable state a blocked request is
    either still queued at the record it asked for, with its notify pair
    attached and unset and with somebody owning the record (whose release
    will serve the queue), or its flag is set, and then it holds what it
    asked for, or must restart its scan, or was preempted. *)
Theorem blocked_request_is_queued_or_signalled (timeout_ms : Z) (n : nat)
  (groups : list (Z * Z)) (s : sys) (id : Z) (w : waiting)
  (Hr : reachable (configured timeout_ms n groups) s)
  (Hw : pending s !! id = Some w) :
  let lsn := rq_lsn (w_request w) in
  (∃ l e, get_lock (mgr s) lsn = Some l ∧ e ∈ get_waiters_clone l ∧ locker_id e = id ∧
          notify e = Some (w_pair w) ∧ (w_pair w ∉ granted_flags (mgr s)) ∧
          get_owner_ids l ≠ []) ∨
  (w_pair w ∈ granted_flags (mgr s) ∧
   (w_initial w = WaitRestart ∨ id ∈ preempted (mgr s) ∨
    ∃ t, get_owned_lock_type (mgr s) lsn id = Some t ∧
         (t = rq_type (w_request w) ∨ covers t (rq_type (w_request w))))).
Proof.
  intros lsn. pose proof (reachable_inv _ _ _ _ Hr) as Hi.
  destruct (si_pending _ _ Hi id w Hw) as [He|[Hf Hs]]; [left|right].
  - destruct (si_queue _ _ Hi _ _ He) as (w' & Hw' & _ & _ & Hn). simpl in Hw'.
    assert (w' = w) as -> by congruence.
    pose proof (si_attended _ _ Hi lsn) as Ha. unfold attended_in in Ha. unfold wt, ow in He, Ha.
    fold lsn in He. destruct (get_lock (mgr s) lsn) as [l|]; [|by apply elem_of_nil in He].
    exists l, (entry id w). split_and!; try done. unfold get_owner_ids.
    intros Hnil%fmap_nil_inv. apply Ha; [by eapply elem_ne_nil|done].
  - split; [done|]. destruct Hs as [?|[?|Hh]]; [by left|by right; left|right; right].
    destruct s as [m p]. by eapply holds_in_owned.
Qed.

Lemma blocked_request_is_queued_or_signalled_witness :
  (∃ l e, get_lock demo_m3 100 = Some l ∧ e ∈ get_waiters_clone l ∧ locker_id e = 2 ∧
          notify e = Some 0%nat ∧ (0%nat ∉ granted_flags demo_m3) ∧ get_owner_ids l ≠ []) ∨
  (0%nat ∈ granted_flags demo_m3 ∧
   (WaitNew = WaitRestart ∨ 2 ∈ preempted demo_m3 ∨
    ∃ t, get_owned_lock_type demo_m3 100 2 = Some t ∧ (t = Write ∨ covers t Write))).
Proof.
  exact (blocked_request_is_queued_or_signalled 500 4 [(7, 1); (8, 1)]
    (mkSys demo_m3 {[2 := demo_w LoopTop]}) 2 (demo_w LoopTop) demo_waiting eq_refl).
Defined.

(** C11: mutual exclusion of transactions.  In every reachable state of the
    lock manager, two lockers of different sharing groups never own one
    record when one of them owns it for writing. *)
Theorem no_conflicting_owners (timeout_ms : Z) (n : nat) (groups : list (Z * Z))
  (s : sys) (lsn : Z) (l : Lock) (o1 o2 : LockInfo)
  (Hr : reachable (configured timeout_ms n groups) s)
  (Hl : get_lock (mgr s) lsn = Some l)
  (H1 : o1 ∈ get_owners_clone l) (H2 : o2 ∈ get_owners_clone l)
  (Hne : locker_id o1 ≠ locker_id o2)
  (Hsh : same_share_group (mgr s) (locker_id o1) (locker_id o2) = false)
  (Hw : is_write_lock (lock_type o1) = true) :
  record_lock (lock_type o2) = false.
Proof.
  pose proof (reachable_inv _ _ _ _ Hr) as Hi.
  pose proof (si_owners _ _ Hi lsn) as Ho. unfold ow in Ho. rewrite Hl in Ho.
  destruct Ho as [_ Hc]. destruct (Hc o1 o2 H1 H2 Hne) as [Hs|Ha].
  - rewrite <-(si_share _ _ Hi) in Hs. congruence.
  - destruct (record_lock (lock_type o2)) eqn:E; [|done].
    by eapply write_excludes_record in E.
Qed.

Lemma no_conflicting_owners_witness :
  record_lock (lock_type (LockInfo_new 2 RangeInsert)) = false.
Proof.
  refine (no_conflicting_owners 500 4 [(7, 1); (8, 1)] (mkSys demo_m2' ∅) 100
    (default new_thin (get_lock demo_m2' 100)) (LockInfo_new 1 Write) (LockInfo_new 2 RangeInsert)
    demo_inserter _ _ _ _ _ _).
  - vm_compute; reflexivity.
  - vm_compute. left.
  - vm_compute. right. left.
  - discriminate.
  - vm_compute; reflexivity.
  - reflexivity.
Defined.

(** C25: the sleep of one iteration of the wait loop.  When neither deadline
    has passed, the slice is at least 1 ms (no busy loop), at most 50 ms (the
    deadlock check runs again in time), and does not sleep past the lock
    timeout nor past the transaction's remaining time. *)
Theorem wait_slice_bounds (timeout_ms elapsed_ms : Z) (txn : option Z)
  (Ht : 0 ≤ timeout_ms) (He : 0 ≤ elapsed_ms)
  (Hl : timeout_ms = 0 ∨ elapsed_ms < timeout_ms)
  (Hx : txn_expired txn elapsed_ms = false) :
  let s := slice_ms timeout_ms txn elapsed_ms in
  1 ≤ s ≤ 50 ∧
  (timeout_ms ≠ 0 → elapsed_ms + s ≤ timeout_ms) ∧
  (∀ budget, txn = Some budget → elapsed_ms + s ≤ budget).
Proof.
  pose proof (slice_ms_bounds timeout_ms txn elapsed_ms Ht He Hl Hx) as (H1 & H2 & H3).
  split_and!; [lia..| |].
  - intros H0. specialize (H2 H0). lia.
  - intros b Hb. specialize (H3 b Hb). lia.
Qed.

Lemma wait_slice_bounds_witness :
  slice_ms 500 (Some 30) 10 = 20 ∧ 1 ≤ slice_ms 500 (Some 30) 10 ≤ 50.
Proof.
  split; [reflexivity|].
  apply (wait_slice_bounds 500 10 (Some 30)); [lia|lia|right; lia|reflexivity].
Defined.

(** The ownership check compares types exactly: a locker that owns a range
    read and waits for a write is granted a range write, which the check does
    not take for a grant when it races with the timeout. *)
Definition race_m : LockManager :=
  let m := (lock_attempt demo_m0 100 2 RangeRead false false).1 in
  let m := (lock_attempt m 100 1 Read false false).1 in
  let m := (lock_attempt m 100 2 Write false false).1 in
  release m 100 1.

Example upgrade_race_reported_as_timeout :
  get_owned_lock_type race_m 100 2 = Some RangeWrite ∧
  (validate_ownership_or_flush race_m 100 2 Write).2 = false.
Proof. vm_compute. done. Qed.
