(* ===== verification/Bytes.v ===== *)
(** * Machine integers and byte strings

    A byte is a [Z] in [0, 256), an integer of width [w] a [Z] in its range.
    Arithmetic of the code is written with the wrap-around of its width.  A
    buffer is a list of bytes, a reader the bytes that are left: [None] is the
    [UnexpectedEof] of [read_exact].  [lex_cmp] is the order of byte slices. *)

From S2P Require Import Prelude.

(** ** Widths *)

(** [x as u<w>] and [x as i<w>]. *)
Definition as_u (w x : Z) : Z := x mod 2 ^ w.
Definition as_i (w x : Z) : Z :=
  let y := x mod 2 ^ w in if y <? 2 ^ (w - 1) then y else y - 2 ^ w.

Definition in_u (w x : Z) : Prop := 0 ≤ x < 2 ^ w.
Definition in_i (w x : Z) : Prop := - 2 ^ (w - 1) ≤ x < 2 ^ (w - 1).

Lemma pow2_half w : 0 < w → 2 ^ w = 2 * 2 ^ (w - 1).
Proof. intros. rewrite <-Z.pow_succ_r by lia. f_equal. lia. Qed.

Lemma as_u_id w x : in_u w x → as_u w x = x.
Proof. intros. by apply Z.mod_small. Qed.

Lemma as_i_id w x : 0 < w → in_i w x → as_i w x = x.
Proof.
  intros Hw [H1 H2]. unfold as_i. pose proof (pow2_half w Hw) as Hp.
  destruct (decide (0 ≤ x)) as [Hx|Hx].
  - rewrite Z.mod_small by lia. by rewrite (proj2 (Z.ltb_lt _ _)) by lia.
  - rewrite <-(Z.mod_add x 1), Z.mod_small by lia.
    rewrite (proj2 (Z.ltb_ge _ _)) by lia. lia.
Qed.

Lemma as_i_as_u w x : 0 < w → as_i w (as_u w x) = as_i w x.
Proof. intros. unfold as_i, as_u. by rewrite Z.mod_mod by lia. Qed.

(** Drops the wrap-around of the terms that are in range, innermost first. *)
Ltac drop_wraps :=
  repeat match goal with
  | |- context [as_i ?w ?x] =>
      lazymatch x with
      | context [as_i _ _] => fail
      | context [as_u _ _] => fail
      | _ => rewrite (as_i_id w x) by (unfold in_i in *; simpl in *; lia)
      end
  | |- context [as_u ?w ?x] =>
      lazymatch x with
      | context [as_i _ _] => fail
      | context [as_u _ _] => fail
      | _ => rewrite (as_u_id w x) by (unfold in_u in *; simpl in *; lia)
      end
  end.

(** ** Byte strings *)

Definition is_byte (b : Z) : Prop := 0 ≤ b < 256.
Abbreviation bytes_ok := (Forall is_byte).

(** [to_le_bytes] and [to_be_bytes] of an integer of [n] bytes. *)
Fixpoint le_bytes (n : nat) (x : Z) : list Z :=
  match n with
  | O => []
  | S n' => x mod 256 :: le_bytes n' (x / 256)
  end.
Definition be_bytes (n : nat) (x : Z) : list Z := reverse (le_bytes n x).

(** [from_le_bytes] and [from_be_bytes]. *)
Fixpoint le_val (l : list Z) : Z :=
  match l with
  | [] => 0
  | b :: l' => b + 256 * le_val l'
  end.
Definition be_val (l : list Z) : Z := le_val (reverse l).

Lemma length_le_bytes n x : length (le_bytes n x) = n.
Proof. revert x; induction n; intros; simpl; auto. Qed.

Lemma length_be_bytes n x : length (be_bytes n x) = n.
Proof. unfold be_bytes. by rewrite length_reverse, length_le_bytes. Qed.

Lemma le_bytes_ok n x : bytes_ok (le_bytes n x).
Proof.
  revert x; induction n as [|n IH]; intros x; simpl; constructor; auto.
  pose proof (Z.mod_pos_bound x 256). unfold is_byte. lia.
Qed.

Lemma be_bytes_ok n x : bytes_ok (be_bytes n x).
Proof. apply Forall_reverse, le_bytes_ok. Qed.

Lemma pow256_succ n : 256 ^ Z.of_nat (S n) = 256 * 256 ^ Z.of_nat n.
Proof. rewrite Nat2Z.inj_succ, Z.pow_succ_r by lia. done. Qed.

Lemma le_val_bytes n x : 0 ≤ x < 256 ^ Z.of_nat n → le_val (le_bytes n x) = x.
Proof.
  revert x; induction n as [|n IH]; intros x Hx; cbn [le_bytes le_val].
  - change (256 ^ Z.of_nat 0) with 1 in Hx. lia.
  - rewrite pow256_succ in Hx. rewrite IH.
    + pose proof (Z.div_mod x 256). lia.
    + split; [apply Z.div_pos; lia|]. apply Z.div_lt_upper_bound; lia.
Qed.

Lemma be_val_bytes n x : 0 ≤ x < 256 ^ Z.of_nat n → be_val (be_bytes n x) = x.
Proof. intros. unfold be_val, be_bytes. rewrite reverse_involutive. by apply le_val_bytes. Qed.

Lemma le_val_bounds l : bytes_ok l → 0 ≤ le_val l < 256 ^ Z.of_nat (length l).
Proof.
  induction 1 as [|b l Hb Hl IH]; cbn [le_val length]; [lia|].
  rewrite pow256_succ. unfold is_byte in Hb. lia.
Qed.

Lemma le_bytes_val l : bytes_ok l → le_bytes (length l) (le_val l) = l.
Proof.
  induction 1 as [|b l Hb Hl IH]; cbn [le_val length le_bytes]; [done|].
  unfold is_byte in Hb. rewrite (Z.mul_comm 256), Z.mod_add, Z.div_add by lia.
  rewrite Z.mod_small, Z.div_small by lia. by rewrite Z.add_0_l, IH.
Qed.

Lemma be_bytes_val l : bytes_ok l → be_bytes (length l) (be_val l) = l.
Proof.
  intros Hl. unfold be_bytes, be_val. rewrite <-length_reverse, le_bytes_val.
  - apply reverse_involutive.
  - by apply Forall_reverse.
Qed.

(** ** The order of byte strings *)

Fixpoint lex_cmp (a b : list Z) : comparison :=
  match a, b with
  | [], [] => Eq
  | [], _ :: _ => Lt
  | _ :: _, [] => Gt
  | x :: a', y :: b' =>
      match x ?= y with
      | Eq => lex_cmp a' b'
      | c => c
      end
  end.

Lemma lex_cmp_refl a : lex_cmp a a = Eq.
Proof. induction a as [|x a IH]; simpl; [done|]. by rewrite Z.compare_refl. Qed.

Lemma lex_cmp_eq a b : lex_cmp a b = Eq ↔ a = b.
Proof.
  split; [|intros ->; apply lex_cmp_refl].
  revert b; induction a as [|x a IH]; intros [|y b]; simpl; try done.
  destruct (x ?= y) eqn:E; try done. apply Z.compare_eq in E as ->. intros. f_equal. auto.
Qed.

Lemma lex_cmp_antisym a b : lex_cmp b a = CompOpp (lex_cmp a b).
Proof.
  revert b; induction a as [|x a IH]; intros [|y b]; simpl; try done.
  rewrite (Z.compare_antisym x y). destruct (x ?= y); simpl; auto.
Qed.

Lemma lex_cmp_cons x a b : lex_cmp (x :: a) (x :: b) = lex_cmp a b.
Proof. simpl. by rewrite Z.compare_refl. Qed.

Lemma lex_cmp_app p a b : lex_cmp (p ++ a) (p ++ b) = lex_cmp a b.
Proof. induction p as [|x p IH]; [done|]. by rewrite <-!app_comm_cons, lex_cmp_cons. Qed.

Lemma lex_cmp_lt_trans a b c : lex_cmp a b = Lt → lex_cmp b c = Lt → lex_cmp a c = Lt.
Proof.
  revert b c; induction a as [|x a IH]; intros [|y b] [|z c]; simpl; try done.
  destruct (x ?= y) eqn:E1; try done.
  - apply Z.compare_eq in E1 as ->. destruct (y ?= z); try done. intros. by eapply IH.
  - intros _. destruct (y ?= z) eqn:E2; try done; intros.
    + apply Z.compare_eq in E2 as ->. by rewrite E1.
    + rewrite Z.compare_lt_iff in E1, E2. by rewrite (proj2 (Z.compare_lt_iff x z)) by lia.
Qed.

(** Strings of one length that differ are ordered whatever follows them. *)
Lemma lex_cmp_same_length a b r1 r2 :
  length a = length b → lex_cmp a b ≠ Eq → lex_cmp (a ++ r1) (b ++ r2) = lex_cmp a b.
Proof.
  revert b; induction a as [|x a IH]; intros [|y b]; simpl; try done.
  intros [= Hl]. destruct (x ?= y); auto.
Qed.

(** Big-endian strings of one length are ordered as their values. *)
Lemma lex_cmp_be n x y :
  0 ≤ x < 256 ^ Z.of_nat n → 0 ≤ y < 256 ^ Z.of_nat n →
  lex_cmp (be_bytes n x) (be_bytes n y) = (x ?= y).
Proof.
  revert x y; induction n as [|n IH]; intros x y Hx Hy.
  { change (256 ^ Z.of_nat 0) with 1 in *. assert (x = 0) as -> by lia.
    by assert (y = 0) as -> by lia. }
  rewrite pow256_succ in Hx, Hy. unfold be_bytes in *. cbn [le_bytes].
  rewrite !reverse_cons.
  assert (∀ z, 0 ≤ z < 256 * 256 ^ Z.of_nat n → 0 ≤ z / 256 < 256 ^ Z.of_nat n) as Hd.
  { intros z Hz. split; [apply Z.div_pos; lia|]. apply Z.div_lt_upper_bound; lia. }
  specialize (IH _ _ (Hd x Hx) (Hd y Hy)).
  pose proof (Z.div_mod x 256 ltac:(lia)) as Hmx. pose proof (Z.div_mod y 256 ltac:(lia)) as Hmy.
  pose proof (Z.mod_pos_bound x 256 ltac:(lia)). pose proof (Z.mod_pos_bound y 256 ltac:(lia)).
  destruct (x / 256 ?= y / 256) eqn:E.
  - apply Z.compare_eq in E as E'. rewrite E', lex_cmp_app. simpl.
    destruct (x mod 256 ?= y mod 256) eqn:E2; symmetry.
    + apply Z.compare_eq in E2. apply Z.compare_eq_iff. lia.
    + rewrite Z.compare_lt_iff in E2. apply Z.compare_lt_iff. lia.
    + rewrite Z.compare_gt_iff in E2. apply Z.compare_gt_iff. lia.
  - rewrite lex_cmp_same_length, IH by (rewrite ?IH, ?length_reverse, ?length_le_bytes; done).
    symmetry. rewrite Z.compare_lt_iff in E. apply Z.compare_lt_iff. lia.
  - rewrite lex_cmp_same_length, IH by (rewrite ?IH, ?length_reverse, ?length_le_bytes; done).
    symmetry. rewrite Z.compare_gt_iff in E. apply Z.compare_gt_iff. lia.
Qed.

(** ** Reading *)

(** [read_exact] of [n] bytes. *)
Definition read_exact (n : nat) (r : list Z) : option (list Z * list Z) :=
  if (n <=? length r)%nat then Some (take n r, drop n r) else None.

Lemma read_exact_app l r : read_exact (length l) (l ++ r) = Some (l, r).
Proof.
  unfold read_exact. rewrite length_app, (proj2 (Nat.leb_le _ _)) by lia.
  by rewrite take_app_length, drop_app_length.
Qed.

Lemma read_exact_app' n l r : length l = n → read_exact n (l ++ r) = Some (l, r).
Proof. intros <-. apply read_exact_app. Qed.

Lemma read_exact_short n r : (length r < n)%nat → read_exact n r = None.
Proof. intros. unfold read_exact. by rewrite (proj2 (Nat.leb_gt _ _)). Qed.
