(* ===== verification/Reader.v ===== *)
(** * Readers of byte strings

    A reader takes the bytes that are left and returns a value with what
    follows it, or [None] where the code reports a short or malformed input.
    [local] readers look at nothing beyond what they consume, so that an input
    they consume in full is rejected when it is cut short.  [parse_slots] is a
    loop of a counted number of rounds; its fuel is a number of bytes. *)

From S2P Require Import Prelude Bytes.

(** ** Readers that may reject or panic *)

Abbreviation may A := (option (option A)).
Abbreviation rejected := (Some None) (only parsing).

(** [?] on a reader: a rejection or a panic is passed on. *)
Definition may_bind {A B} (m : may A) (f : A → may B) : may B :=
  match m with
  | None => None
  | Some None => Some None
  | Some (Some x) => f x
  end.
Notation "'let?' x := e 'in' k" := (may_bind e (λ x, k))
  (at level 10, x name, e at level 200, k at level 200).

(** [n] more bytes of a slice, as [bytes[pos..pos + n]] after its check. *)
Definition read_len (n : Z) (r : list Z) : option (list Z * list Z) :=
  if n <=? Z.of_nat (length r) then Some (take (Z.to_nat n) r, drop (Z.to_nat n) r) else None.

(** A loop of [n] rounds over a slice. *)
Fixpoint parse_slots {A} (parse : list Z → option (A * list Z)) (fuel : nat) (n : Z) (r : list Z)
    : option (list A * list Z) :=
  if n <=? 0 then Some ([], r)
  else
    match fuel with
    | O => None
    | S fuel =>
        '(s, r) ← parse r;
        '(rest, r) ← parse_slots parse fuel (n - 1) r;
        Some (s :: rest, r)
    end.

(** ** Reading what was written *)

Lemma read_len_app l r n : n = Z.of_nat (length l) → read_len n (l ++ r) = Some (l, r).
Proof.
  intros ->. unfold read_len. rewrite length_app, (proj2 (Z.leb_le _ _)) by lia.
  by rewrite Nat2Z.id, take_app_length, drop_app_length.
Qed.

(** Reading back what [be_bytes] wrote. *)
Lemma read_be n x r : read_exact n (be_bytes n x ++ r) = Some (be_bytes n x, r).
Proof. apply read_exact_app', length_be_bytes. Qed.

Lemma read_byte x r : read_exact 1 (x :: r) = Some ([x], r).
Proof. unfold read_exact. simpl. by rewrite drop_0. Qed.

Lemma be_val_u w n x : 2 ^ w = 256 ^ Z.of_nat n → in_u w x → be_val (be_bytes n x) = x.
Proof. intros Hw Hx. apply be_val_bytes. unfold in_u in Hx. by rewrite <-Hw. Qed.

Lemma be_val_as_u w n x : 2 ^ w = 256 ^ Z.of_nat n → in_u w x → be_val (be_bytes n (as_u w x)) = x.
Proof. intros Hw Hx. rewrite as_u_id by done. by eapply be_val_u. Qed.

(** Mapping over the indices of a list is mapping over the list. *)
Lemma mapM_indices {A B} (f : nat → option B) (g : A → B) (xs : list A) :
  (∀ i x, xs !! i = Some x → f i = Some (g x)) →
  mapM f (seq 0 (length xs)) = Some (g <$> xs).
Proof.
  intros Hf. apply mapM_Some, Forall2_same_length_lookup_2.
  { by rewrite length_seq, length_fmap. }
  intros i j y [-> Hi]%lookup_seq Hy. rewrite list_lookup_fmap in Hy.
  destruct (xs !! i) as [x|] eqn:Hx; [|done]. injection Hy as <-. by apply Hf.
Qed.

(** ** Counted loops *)

Lemma parse_slots_concat {A} (parse : list Z → option (A * list Z)) imgs ys fuel r :
  Forall2 (λ img y, ∀ r, parse (img ++ r) = Some (y, r)) imgs ys → (length ys ≤ fuel)%nat →
  parse_slots parse fuel (Z.of_nat (length ys)) (concat imgs ++ r) = Some (ys, r).
Proof.
  intros Hp. revert fuel; induction Hp as [|img y imgs ys Hy Hp IH]; intros fuel Hf; [by destruct fuel|].
  destruct fuel as [|fuel]; [simpl in Hf; lia|]. cbn [parse_slots concat].
  rewrite (proj2 (Z.leb_gt _ _)) by (simpl; lia). rewrite <-app_assoc, Hy. cbn [mbind option_bind].
  replace (Z.of_nat (length (y :: ys)) - 1) with (Z.of_nat (length ys)) by (simpl; lia).
  rewrite IH; [done|simpl in Hf; lia].
Qed.

(** The fuel never decides: a larger one changes nothing. *)
Lemma parse_slots_fuel {A} (parse : list Z → option (A * list Z)) :
  (∀ r x r', parse r = Some (x, r') → (length r' < length r)%nat) →
  ∀ fuel fuel' n r, (length r < fuel)%nat → (fuel ≤ fuel')%nat →
  parse_slots parse fuel n r = parse_slots parse fuel' n r.
Proof.
  intros Hp fuel. induction fuel as [|fuel IH]; intros [|fuel'] n r Hr Hf; try lia; cbn [parse_slots].
  destruct (n <=? 0); [done|]. destruct (parse r) as [[x r']|] eqn:E; [|done]. cbn [mbind option_bind].
  apply Hp in E. by rewrite (IH fuel') by lia.
Qed.

Lemma length_concat_ge {A} (imgs : list (list A)) :
  Forall (λ img, 0 < length img)%nat imgs → (length imgs ≤ length (concat imgs))%nat.
Proof. induction 1 as [|img imgs Hi Hs IH]; simpl; [lia|]. rewrite length_app. lia. Qed.

(** ** Local readers *)

(** A reader that looks at what it consumes and at nothing else. *)
Definition local {A} (parse : list Z → option (A * list Z)) : Prop :=
  ∀ r x r', parse r = Some (x, r') → ∃ w, r = w ++ r' ∧ ∀ r2, parse (w ++ r2) = Some (x, r2).

Lemma local_read_exact n : local (read_exact n).
Proof.
  intros r x r' H. unfold read_exact in H. destruct (n <=? length r)%nat eqn:E; [|done].
  injection H as <- <-. reflect_bools. exists (take n r). split; [by rewrite take_drop|].
  intros r2. apply read_exact_app'. rewrite length_take. lia.
Qed.

Lemma local_read_len n : local (read_len n).
Proof.
  intros r x r' H. unfold read_len in H. destruct (n <=? _) eqn:E; [|done]. reflect_bools.
  injection H as <- <-. exists (take (Z.to_nat n) r). split; [by rewrite take_drop|]. intros r2.
  unfold read_len. rewrite length_app, length_take. rewrite (proj2 (Z.leb_le _ _)) by lia.
  f_equal. f_equal.
  - rewrite take_app_le by (rewrite length_take; lia). by rewrite take_take, Nat.min_id.
  - rewrite drop_app_length'; [done|]. rewrite length_take. lia.
Qed.

Lemma local_ret {A} (x : A) : local (λ r, Some (x, r)).
Proof. intros r y r' [= <- <-]. by exists []. Qed.

Lemma local_bind {A B} (p : list Z → option (A * list Z)) (q : A → list Z → option (B * list Z)) :
  local p → (∀ x, local (q x)) → local (λ r, '(x, r) ← p r; q x r).
Proof.
  intros Hp Hq r y r' H. destruct (p r) as [[x r1]|] eqn:E; [|done]. cbn [mbind option_bind] in H.
  apply Hp in E as (w1 & -> & H1). apply Hq in H as (w2 & -> & H2).
  exists (w1 ++ w2). split; [by rewrite app_assoc|]. intros r2. rewrite <-app_assoc, H1. apply H2.
Qed.
#[export] Hint Resolve local_read_exact local_read_len local_ret : noxu.

(** A local reader that consumes all of its input rejects what is cut short. *)
Lemma local_truncated {A} (parse : list Z → option (A * list Z)) w x n :
  local parse → parse w = Some (x, []) → (n < length w)%nat → parse (take n w) = None.
Proof.
  intros Hl Hw Hn. destruct (parse (take n w)) as [[y r]|] eqn:E; [|done].
  destruct (Hl _ _ _ E) as (w1 & Hw1 & H1). specialize (H1 (r ++ drop n w)).
  rewrite app_assoc, <-Hw1, take_drop, Hw in H1. injection H1 as _ Hnil.
  symmetry in Hnil. apply app_nil in Hnil as [_ Hd].
  apply (f_equal length) in Hd. rewrite length_drop in Hd. simpl in Hd. lia.
Qed.

Lemma local_parse_slots {A} (parse : list Z → option (A * list Z)) fuel n :
  local parse → local (parse_slots parse fuel n).
Proof.
  intros Hp. revert n; induction fuel as [|fuel IH]; intros n r x r'; cbn [parse_slots];
    (destruct (n <=? 0); [apply local_ret|]); [done|].
  apply (local_bind parse (λ s r, '(rest, r) ← parse_slots parse fuel (n - 1) r; Some (s :: rest, r)) Hp).
  intros s. apply (local_bind (parse_slots parse fuel (n - 1)) (λ rest r, Some (s :: rest, r)) (IH _)).
  intros rest. apply local_ret.
Qed.

(** A local reader that rejects the empty input takes at least one byte. *)
Lemma local_consumes {A} (parse : list Z → option (A * list Z)) :
  local parse → parse [] = None →
  ∀ r x r', parse r = Some (x, r') → (length r' < length r)%nat.
Proof.
  intros Hl He r x r' H. destruct (Hl _ _ _ H) as (w & -> & Hw). destruct w as [|b w].
  - specialize (Hw []). simpl in Hw. congruence.
  - rewrite length_app. simpl. lia.
Qed.

(** The same with the number of bytes as the fuel. *)
Lemma local_parse_bytes {A} (parse : list Z → option (A * list Z)) n :
  local parse → parse [] = None → local (λ r, parse_slots parse (S (length r)) n r).
Proof.
  intros Hl He r x r' H. pose proof (local_consumes parse Hl He) as Hc.
  destruct (local_parse_slots parse (S (length r)) n Hl _ _ _ H) as (w & -> & _).
  exists w. split; [done|]. intros r2. set (fuel := S (length (w ++ r') + length (w ++ r2))).
  rewrite (parse_slots_fuel parse Hc _ fuel) in H by (unfold fuel; lia).
  rewrite (parse_slots_fuel parse Hc _ fuel) by (unfold fuel; lia).
  destruct (local_parse_slots parse fuel n Hl _ _ _ H) as (w' & Hw & H').
  apply app_inv_tail in Hw as <-. apply H'.
Qed.

Lemma parse_slots_truncated {A} (parse : list Z → option (A * list Z)) fuel n xs body k fuel' :
  local parse → parse [] = None → parse_slots parse fuel n body = Some (xs, []) →
  (length body < fuel)%nat → (k < length body)%nat → (k < fuel')%nat →
  parse_slots parse fuel' n (take k body) = None.
Proof.
  intros Hl He Hp Hf Hk Hf'. pose proof (local_consumes parse Hl He) as Hc.
  assert (length (take k body) = k) as Ht by (rewrite length_take; lia).
  rewrite (parse_slots_fuel parse Hc fuel' (fuel' + fuel) n (take k body)) by lia.
  eapply local_truncated; [by apply local_parse_slots| |done].
  rewrite <-(parse_slots_fuel parse Hc fuel (fuel' + fuel) n body) by lia. done.
Qed.

(** A reader of [n] slots needs at least [n] bytes. *)
Lemma parse_slots_bound {A} (parse : list Z → option (A * list Z)) fuel n r xs r' :
  local parse → parse [] = None → parse_slots parse fuel n r = Some (xs, r') →
  n ≤ 0 ∨ n ≤ Z.of_nat (length r).
Proof.
  intros Hl He. pose proof (local_consumes parse Hl He) as Hc. revert n r xs r'.
  induction fuel as [|fuel IH]; intros n r xs r' H; cbn [parse_slots] in H;
    destruct (n <=? 0) eqn:E; reflect_bools; try (by left).
  destruct (parse r) as [[x r1]|] eqn:Hp; [|done]. cbn [mbind option_bind] in H.
  destruct (parse_slots parse fuel (n - 1) r1) as [[ys r2]|] eqn:Hps; [|done].
  apply Hc in Hp. apply IH in Hps. lia.
Qed.

