(* ===== verification/Packed.v ===== *)
(** * Packed integers (noxu-util)

    [packed.rs].  The variable-length formats of 32- and 64-bit integers (the
    compact one and the order-preserving one) and the order-preserving format
    of floats.  The two widths share their definitions, with the number of
    bytes [nb] (4 or 8) as the parameter; the ladder of mask tests of the code
    is the fixpoint over [nb].  Overflow wraps, as in the release profile.

    A float is its IEEE 754 bit pattern, ordered by sign and magnitude: the
    total order, which on numbers other than NaN is the numeric order (with
    [-0] before [+0]). *)

From S2P Require Import Prelude Bytes.

(** ** Definitions *)

Section width.
Context (nb : nat).

Definition width : Z := 8 * Z.of_nat nb.

(** [0xFFFFFF00], [0xFFFF0000], ...: the bits above the lowest [n] bytes. *)
Definition high_mask (n : nat) : Z := 2 ^ width - 2 ^ (8 * Z.of_nat n).

(** The chain [if mag & 0xFFFFFF00 == 0 {n} else if ...], [k] tests long. *)
Fixpoint packed_ladder (k n : nat) (mag : Z) : nat :=
  match k with
  | O => n
  | S k' => if Z.land mag (high_mask n) =? 0 then n else packed_ladder k' (S n) mag
  end.

Definition packed_n (mag : Z) : nat := packed_ladder (nb - 1) 1 mag.

Definition packed_mag (val : Z) : Z :=
  if val <? -119 then as_u width (as_i width (as_i width (- val) - 119))
  else as_u width (as_i width (val - 119)).

Definition single_byte (val : Z) : bool := (-119 <=? val) && (val <=? 119).

Definition packed_size (val : Z) : nat :=
  if single_byte val then 1 else S (packed_n (packed_mag val)).

(** The bytes [(x >> (i * 8)) & 0xFF] for [i] in [0..n]. *)
Definition value_bytes (n : nat) (x : Z) : list Z :=
  (λ i, Z.land (Z.shiftr x (i * 8)) 0xFF) <$> seqZ 0 (Z.of_nat n).

Definition write_packed (val : Z) : list Z :=
  if single_byte val then [as_u 8 (as_i 8 val)]
  else
    let mag := packed_mag val in
    let n := packed_n mag in
    let prefix :=
      if val <? -119 then as_u 8 (as_i 8 (- (119 + Z.of_nat n))) else 119 + Z.of_nat n in
    prefix :: value_bytes n mag.

(** The loop [mag |= byte << (i * 8)]; the shift amount wraps at the width. *)
Fixpoint read_mag (n : nat) (i : Z) (mag : Z) (r : list Z) : option (Z * list Z) :=
  match n with
  | O => Some (mag, r)
  | S n' =>
      match r with
      | [] => None
      | b :: r' =>
          read_mag n' (i + 1)
            (Z.lor mag (as_u width (Z.shiftl b ((i * 8) mod width)))) r'
      end
  end.

Definition read_packed (r : list Z) : option (Z * list Z) :=
  match r with
  | [] => None
  | b :: r =>
      let b1 := as_i 8 b in
      if single_byte b1 then Some (b1, r)
      else
        let '(negative, n) :=
          if b1 <? -119 then (true, as_i 8 (as_i 8 (- b1) - 119))
          else (false, as_i 8 (b1 - 119)) in
        match read_mag (Z.to_nat n) 0 0 r with
        | None => None
        | Some (mag, r) =>
            Some (if negative then as_i width (as_i width (- as_i width mag) - 119)
                  else as_i width (as_i width mag + 119), r)
        end
  end.

(** *** The sorted format *)

(** [if adj & 0xFF000000 != 0 {4} else if ...]: tests from the widest down. *)
Fixpoint sorted_ladder_pos (k : nat) (adj : Z) : nat :=
  match k with
  | O => 1
  | S k' => if negb (Z.land adj (high_mask k) =? 0) then S k else sorted_ladder_pos k' adj
  end.

(** [if (uadj | 0x00FFFFFF) != 0xFFFFFFFF {4} else if ...]. *)
Fixpoint sorted_ladder_neg (k : nat) (uadj : Z) : nat :=
  match k with
  | O => 1
  | S k' =>
      if negb (Z.lor uadj (2 ^ (8 * Z.of_nat k) - 1) =? 2 ^ width - 1) then S k
      else sorted_ladder_neg k' uadj
  end.

Definition write_sorted (val : Z) : list Z :=
  if (-119 <=? val) && (val <=? 120) then [as_u 8 (as_i width (val + 127))]
  else if 120 <? val then
    let adj := as_u width (as_i width (val - 121)) in
    let n := sorted_ladder_pos (nb - 1) adj in
    (0xF7 + Z.of_nat n) :: reverse (value_bytes n adj)
  else
    let uadj := as_u width (as_i width (val + 119)) in
    let n := sorted_ladder_neg (nb - 1) uadj in
    as_u 8 (0x08 - Z.of_nat n) :: reverse (value_bytes n uadj).

(** The loop [raw = (raw << 8) | byte]. *)
Fixpoint read_raw (n : nat) (raw : Z) (r : list Z) : option (Z * list Z) :=
  match n with
  | O => Some (raw, r)
  | S n' =>
      match r with
      | [] => None
      | b :: r' => read_raw n' (Z.lor (as_u width (Z.shiftl raw 8)) b) r'
      end
  end.

Definition read_sorted (r : list Z) : option (Z * list Z) :=
  match r with
  | [] => None
  | b1 :: r =>
      if b1 <? 0x08 then
        match read_raw (Z.to_nat (0x08 - b1)) (2 ^ width - 1) r with
        | None => None
        | Some (raw, r) => Some (as_i width (as_i width raw - 119), r)
        end
      else if 0xF7 <? b1 then
        match read_raw (Z.to_nat (b1 - 0xF7)) 0 r with
        | None => None
        | Some (raw, r) => Some (as_i width (as_i width raw + 121), r)
        end
      else Some (b1 - 127, r)
  end.

(** *** Floats, as bit patterns *)

Definition sign_bit : Z := 2 ^ (width - 1).

Definition write_sorted_float (bits : Z) : list Z :=
  be_bytes nb
    (if negb (Z.land bits sign_bit =? 0) then Z.lxor bits (2 ^ width - 1)
     else Z.lxor bits sign_bit).

Definition read_sorted_float (r : list Z) : option (Z * list Z) :=
  match read_exact nb r with
  | None => None
  | Some (buf, r) =>
      let encoded := be_val buf in
      Some (if negb (Z.land encoded sign_bit =? 0) then Z.lxor encoded sign_bit
            else Z.lxor encoded (2 ^ width - 1), r)
  end.

(** The total order of floats: negative numbers by decreasing magnitude, then
    positive numbers by increasing magnitude. *)
Definition float_key (bits : Z) : Z :=
  if bits <? sign_bit then bits else sign_bit - 1 - bits.
End width.

Definition packed_i32_size : Z → nat := packed_size 4.
Definition write_packed_i32 : Z → list Z := write_packed 4.
Definition read_packed_i32 : list Z → option (Z * list Z) := read_packed 4.
Definition packed_i64_size : Z → nat := packed_size 8.
Definition write_packed_i64 : Z → list Z := write_packed 8.
Definition read_packed_i64 : list Z → option (Z * list Z) := read_packed 8.
Definition write_sorted_i32 : Z → list Z := write_sorted 4.
Definition read_sorted_i32 : list Z → option (Z * list Z) := read_sorted 4.
Definition write_sorted_i64 : Z → list Z := write_sorted 8.
Definition read_sorted_i64 : list Z → option (Z * list Z) := read_sorted 8.
Definition write_sorted_f32 : Z → list Z := write_sorted_float 4.
Definition read_sorted_f32 : list Z → option (Z * list Z) := read_sorted_float 4.
Definition write_sorted_f64 : Z → list Z := write_sorted_float 8.
Definition read_sorted_f64 : list Z → option (Z * list Z) := read_sorted_float 8.

Example packed_small : write_packed_i32 (-119) = [137] ∧ write_packed_i32 375 = [121; 0; 1].
Proof. done. Qed.
Example packed_min : read_packed_i64 (write_packed_i64 (- 2 ^ 63)) = Some (- 2 ^ 63, []).
Proof. vm_compute. done. Qed.
Example sorted_min : read_sorted_i32 (write_sorted_i32 (- 2 ^ 31)) = Some (- 2 ^ 31, []).
Proof. vm_compute. done. Qed.

(** * Theorems *)

(** ** Bit masks *)

Lemma shiftl_ones_eq w k : 0 ≤ k ≤ w → Z.shiftl (Z.ones (w - k)) k = 2 ^ w - 2 ^ k.
Proof.
  intros. rewrite Z.shiftl_mul_pow2, Z.ones_equiv by lia.
  replace (2 ^ w) with (2 ^ (w - k) * 2 ^ k) by (rewrite <-Z.pow_add_r by lia; f_equal; lia).
  lia.
Qed.

Lemma testbit_high k i x : 0 ≤ k ≤ i → 0 ≤ x < 2 ^ k → Z.testbit x i = false.
Proof.
  intros Hk Hx. destruct (decide (x = 0)) as [->|Hx0]; [apply Z.bits_0|].
  apply Z.bits_above_log2; [lia|]. apply Z.log2_lt_pow2; [lia|].
  apply Z.lt_le_trans with (2 ^ k); [lia|]. apply Z.pow_le_mono_r; lia.
Qed.

(** Masking the bits above the lowest [k]. *)
Lemma land_high w k x :
  0 ≤ k ≤ w → 0 ≤ x < 2 ^ w → Z.land x (2 ^ w - 2 ^ k) = x / 2 ^ k * 2 ^ k.
Proof.
  intros Hk Hx. rewrite <-shiftl_ones_eq by done.
  rewrite <-Z.shiftl_mul_pow2, <-Z.shiftr_div_pow2 by lia.
  apply Z.bits_inj'. intros i Hi. rewrite Z.land_spec.
  destruct (decide (i < k)) as [Hik|Hik].
  - rewrite !(Z.shiftl_spec_low) by lia. apply andb_false_r.
  - rewrite !Z.shiftl_spec_high, Z.shiftr_spec by lia.
    replace (i - k + k) with i by lia. destruct (decide (i < w)) as [Hiw|Hiw].
    + rewrite Z.ones_spec_low by lia. apply andb_true_r.
    + rewrite Z.ones_spec_high by lia. by rewrite andb_false_r, (testbit_high w i x) by lia.
Qed.

(** Setting the lowest [k] bits. *)
Lemma lor_low k x : 0 ≤ k → 0 ≤ x → Z.lor x (2 ^ k - 1) = x / 2 ^ k * 2 ^ k + (2 ^ k - 1).
Proof.
  intros Hk Hx. replace (2 ^ k - 1) with (Z.ones k) by (rewrite Z.ones_equiv; lia).
  rewrite <-Z.shiftl_mul_pow2, <-Z.shiftr_div_pow2 by lia.
  assert (Z.land (Z.shiftl (Z.shiftr x k) k) (Z.ones k) = 0) as Hd.
  { apply Z.bits_inj'. intros i Hi. rewrite Z.land_spec, Z.bits_0.
    destruct (decide (i < k)).
    - rewrite Z.shiftl_spec_low by lia. done.
    - rewrite Z.ones_spec_high by lia. apply andb_false_r. }
  rewrite Z.add_nocarry_lxor, Z.lxor_lor by done.
  apply Z.bits_inj'. intros i Hi. rewrite !Z.lor_spec. destruct (decide (i < k)).
  - rewrite Z.ones_spec_low by lia. by rewrite !orb_true_r.
  - rewrite Z.shiftl_spec_high, Z.shiftr_spec by lia. by replace (i - k + k) with i by lia.
Qed.

(** Or of an integer with free low bits and a small one. *)
Lemma lor_disjoint k a b : 0 ≤ k → 0 ≤ b < 2 ^ k → Z.lor (a * 2 ^ k) b = a * 2 ^ k + b.
Proof.
  intros Hk Hb. rewrite <-Z.shiftl_mul_pow2 by lia.
  assert (Z.land (Z.shiftl a k) b = 0) as Hd.
  { apply Z.bits_inj'. intros i Hi. rewrite Z.land_spec, Z.bits_0.
    destruct (decide (i < k)).
    - rewrite Z.shiftl_spec_low by lia. done.
    - rewrite (testbit_high k i b) by lia. apply andb_false_r. }
  by rewrite Z.add_nocarry_lxor, Z.lxor_lor by done.
Qed.

Lemma pow_256 n : 2 ^ (8 * Z.of_nat n) = 256 ^ Z.of_nat n.
Proof. rewrite Z.pow_mul_r by lia. done. Qed.

Lemma high_test_zero w k x :
  0 ≤ k ≤ w → 0 ≤ x < 2 ^ w → (Z.land x (2 ^ w - 2 ^ k) =? 0) = (x <? 2 ^ k).
Proof.
  intros Hk Hx. rewrite land_high by done.
  assert (0 < 2 ^ k) by (apply Z.pow_pos_nonneg; lia).
  destruct (x <? 2 ^ k) eqn:E; reflect_bools.
  - apply Z.eqb_eq. rewrite Z.div_small by lia. lia.
  - apply Z.eqb_neq. assert (1 ≤ x / 2 ^ k) by (apply Z.div_le_lower_bound; lia). nia.
Qed.

Lemma low_test_ones w k x :
  0 ≤ k ≤ w → 0 ≤ x < 2 ^ w →
  (Z.lor x (2 ^ k - 1) =? 2 ^ w - 1) = (2 ^ w - 2 ^ k <=? x).
Proof.
  intros Hk Hx. rewrite lor_low by lia.
  assert (0 < 2 ^ k) by (apply Z.pow_pos_nonneg; lia).
  assert (2 ^ w = 2 ^ (w - k) * 2 ^ k) as Hw by (rewrite <-Z.pow_add_r by lia; f_equal; lia).
  pose proof (Z.div_mod x (2 ^ k)) as Hd. pose proof (Z.mod_pos_bound x (2 ^ k)) as Hm.
  destruct (2 ^ w - 2 ^ k <=? x) eqn:E; reflect_bools.
  - apply Z.eqb_eq. assert (x / 2 ^ k < 2 ^ (w - k)) by (apply Z.div_lt_upper_bound; lia).
    assert (2 ^ (w - k) - 1 ≤ x / 2 ^ k) by (apply Z.div_le_lower_bound; nia). nia.
  - apply Z.eqb_neq. intros Heq. nia.
Qed.

(** ** The loops over the bytes *)

Lemma value_bytes_le n x : value_bytes n x = le_bytes n x.
Proof.
  unfold value_bytes. revert x; induction n as [|n IH]; intros x; [done|].
  rewrite seqZ_cons by lia. cbn [le_bytes fmap list_fmap]. f_equal.
  - rewrite Z.mul_0_l, Z.shiftr_0_r. change 255 with (Z.ones 8). by rewrite Z.land_ones.
  - rewrite <-IH. replace (Z.pred (Z.of_nat (S n))) with (Z.of_nat n) by lia.
    change (Z.succ 0) with (1 + 0). rewrite <-fmap_add_seqZ, <-list_fmap_compose.
    apply list_fmap_ext. intros i y Hy. apply lookup_seqZ in Hy as [-> Hi]. simpl. f_equal.
    change (x / 256) with (x / 2 ^ 8). rewrite <-Z.shiftr_div_pow2, Z.shiftr_shiftr by lia.
    f_equal. lia.
Qed.

Section codec.
Context (nb : nat) (Hnb : (2 ≤ nb ≤ 8)%nat).
Local Abbreviation w := (width nb).

Lemma width_256 : 2 ^ w = 256 ^ Z.of_nat nb.
Proof. apply pow_256. Qed.

Lemma pow256_le n m : (n ≤ m)%nat → 256 ^ Z.of_nat n ≤ 256 ^ Z.of_nat m.
Proof. intros. apply Z.pow_le_mono_r; lia. Qed.

Lemma pow256_pos n : 0 < 256 ^ Z.of_nat n.
Proof. apply Z.pow_pos_nonneg; lia. Qed.

Lemma packed_ladder_spec k n mag :
  (1 ≤ n)%nat → (n + k = nb)%nat → in_u w mag →
  (n ≤ packed_ladder nb k n mag ≤ nb)%nat ∧ mag < 256 ^ Z.of_nat (packed_ladder nb k n mag).
Proof.
  intros Hn Hk Hm. revert n Hn Hk. induction k as [|k IH]; intros n Hn Hk; simpl.
  - assert (n = nb) as -> by lia. split; [lia|]. rewrite <-width_256. apply Hm.
  - unfold high_mask. rewrite high_test_zero; [|unfold width; lia|done].
    rewrite pow_256. destruct (mag <? 256 ^ Z.of_nat n) eqn:E; reflect_bools; [lia|].
    destruct (IH (S n)) as [? ?]; [lia|lia|]. split; [lia|done].
Qed.

Lemma packed_n_spec mag :
  in_u w mag → (1 ≤ packed_n nb mag ≤ nb)%nat ∧ mag < 256 ^ Z.of_nat (packed_n nb mag).
Proof. intros. apply packed_ladder_spec; [lia|lia|done]. Qed.

(** What the writer stores is the distance from the single-byte range. *)
Lemma packed_mag_spec val :
  in_i w val → single_byte val = false →
  packed_mag nb val = (if val <? -119 then - val else val) - 119 ∧ in_u w (packed_mag nb val).
Proof.
  intros Hv Hs. unfold in_i, in_u in *.
  assert (8 ≤ w) by (unfold width; lia).
  pose proof (pow2_half w ltac:(lia)) as Hp.
  assert (2 ^ 7 ≤ 2 ^ (w - 1)) as H7 by (apply Z.pow_le_mono_r; lia). change (2 ^ 7) with 128 in H7.
  unfold single_byte in Hs. apply andb_false_iff in Hs.
  unfold packed_mag. destruct (val <? -119) eqn:E; reflect_bools.
  - destruct (decide (val = - 2 ^ (w - 1))) as [->|Hne].
    + assert (as_i w (- - 2 ^ (w - 1)) = - 2 ^ (w - 1)) as ->.
      { unfold as_i. rewrite Z.mod_small by lia. rewrite (proj2 (Z.ltb_ge _ _)) by lia. lia. }
      assert (as_i w (- 2 ^ (w - 1) - 119) = 2 ^ (w - 1) - 119) as ->.
      { unfold as_i. rewrite <-(Z.mod_add (- 2 ^ (w - 1) - 119) 1) by lia.
        rewrite Z.mod_small by lia. rewrite (proj2 (Z.ltb_lt _ _)) by lia. lia. }
      rewrite as_u_id by (unfold in_u; lia). lia.
    + rewrite (as_i_id w (- val)) by (unfold in_i; lia).
      rewrite (as_i_id w) by (unfold in_i; lia). rewrite as_u_id by (unfold in_u; lia). lia.
  - assert (119 < val) by (destruct Hs; reflect_bools; lia).
    rewrite !(as_i_id w) by (unfold in_i; lia). rewrite as_u_id by (unfold in_u; lia). lia.
Qed.

Lemma read_mag_le n i x acc r :
  (i + n ≤ nb)%nat → 0 ≤ x < 256 ^ Z.of_nat n → 0 ≤ acc < 256 ^ Z.of_nat i →
  read_mag nb n (Z.of_nat i) acc (le_bytes n x ++ r) = Some (acc + x * 256 ^ Z.of_nat i, r).
Proof.
  revert i x acc; induction n as [|n IH]; intros i x acc Hi Hx Ha.
  { change (256 ^ Z.of_nat 0) with 1 in Hx. simpl. repeat f_equal. lia. }
  rewrite pow256_succ in Hx. cbn [le_bytes]. rewrite <-app_comm_cons. cbn [read_mag].
  pose proof (Z.mod_pos_bound x 256 ltac:(lia)) as Hb.
  assert (Z.lor acc (as_u w (Z.shiftl (x mod 256) ((Z.of_nat i * 8) mod w))) =
          acc + x mod 256 * 256 ^ Z.of_nat i) as ->.
  { rewrite (Z.mod_small (Z.of_nat i * 8)) by (unfold width; lia).
    rewrite Z.shiftl_mul_pow2, (Z.mul_comm (Z.of_nat i)), pow_256 by lia.
    rewrite as_u_id.
    - rewrite Z.lor_comm, <-pow_256, lor_disjoint; rewrite ?pow_256; lia.
    - unfold in_u. rewrite width_256.
      assert (256 ^ Z.of_nat (S i) ≤ 256 ^ Z.of_nat nb) as Hle by (apply pow256_le; lia).
      rewrite pow256_succ in Hle. pose proof (pow256_pos i). nia. }
  replace (Z.of_nat i + 1) with (Z.of_nat (S i)) by lia.
  rewrite IH.
  - do 2 f_equal. rewrite pow256_succ. pose proof (Z.div_mod x 256). nia.
  - lia.
  - split; [apply Z.div_pos; lia|]. apply Z.div_lt_upper_bound; lia.
  - rewrite pow256_succ. pose proof (pow256_pos i). nia.
Qed.

Lemma read_mag_le0 n x r :
  (n ≤ nb)%nat → 0 ≤ x < 256 ^ Z.of_nat n →
  read_mag nb n 0 0 (le_bytes n x ++ r) = Some (x, r).
Proof.
  intros. change 0 with (Z.of_nat 0) at 1. rewrite read_mag_le; [|lia..].
  do 2 f_equal. rewrite Z.pow_0_r. lia.
Qed.

(** Both signs share the way from the prefix to the value. *)
Lemma packed_roundtrip val r :
  in_i w val → read_packed nb (write_packed nb val ++ r) = Some (val, r).
Proof.
  intros Hv. unfold write_packed. destruct (single_byte val) eqn:Hs.
  - unfold single_byte in Hs. reflect_bools. simpl.
    rewrite as_i_as_u, !(as_i_id 8 val) by (unfold in_i; simpl; lia).
    unfold single_byte. by rewrite !(proj2 (Z.leb_le _ _)) by lia.
  - destruct (packed_mag_spec val Hv Hs) as [Hmag Hin].
    destruct (packed_n_spec _ Hin) as [Hn Hlt].
    set (mag := packed_mag nb val) in *. set (n := packed_n nb mag) in *.
    unfold in_i, in_u in *. assert (8 ≤ w) by (unfold width; lia).
    pose proof (pow2_half w ltac:(lia)).
    assert (2 ^ 7 ≤ 2 ^ (w - 1)) as H7 by (apply Z.pow_le_mono_r; lia). change (2 ^ 7) with 128 in H7.
    unfold single_byte in Hs. apply andb_false_iff in Hs.
    rewrite value_bytes_le. unfold read_packed. rewrite <-app_comm_cons.
    destruct (val <? -119) eqn:E; reflect_bools.
    + rewrite as_i_as_u by lia. drop_wraps.
      unfold single_byte. rewrite (proj2 (Z.leb_gt (-119) _)) by lia. simpl andb. cbv iota.
      rewrite (proj2 (Z.ltb_lt _ (-119))) by lia. drop_wraps.
      replace (Z.to_nat _) with n by lia. rewrite read_mag_le0 by lia.
      drop_wraps. do 2 f_equal. lia.
    + assert (119 < val) by (destruct Hs; reflect_bools; lia). drop_wraps.
      unfold single_byte. rewrite (proj2 (Z.leb_gt _ 119)), andb_false_r by lia.
      rewrite (proj2 (Z.ltb_ge _ (-119))) by lia. drop_wraps.
      replace (Z.to_nat _) with n by lia. rewrite read_mag_le0 by lia.
      drop_wraps. do 2 f_equal. lia.
Qed.

Lemma packed_length val : length (write_packed nb val) = packed_size nb val.
Proof.
  unfold write_packed, packed_size. destruct (single_byte val); [done|].
  simpl. by rewrite value_bytes_le, length_le_bytes.
Qed.
(** *** The sorted format *)

Lemma sorted_ladder_pos_spec k adj :
  (k < nb)%nat → 0 ≤ adj < 256 ^ Z.of_nat (S k) →
  let n := sorted_ladder_pos nb k adj in
  (1 ≤ n ≤ S k)%nat ∧ adj < 256 ^ Z.of_nat n ∧
  (n = 1%nat ∨ 256 ^ Z.of_nat (n - 1) ≤ adj).
Proof.
  induction k as [|k IH]; intros Hk Ha; cbn [sorted_ladder_pos]; [split_and!; [lia..|by left]|].
  unfold high_mask. rewrite high_test_zero, pow_256.
  - destruct (adj <? 256 ^ Z.of_nat (S k)) eqn:E; reflect_bools; cbn [negb].
    + destruct (IH ltac:(lia) ltac:(lia)) as (? & ? & ?). split_and!; [lia..|done].
    + split_and!; [lia..|]. right. by replace (S (S k) - 1)%nat with (S k) by lia.
  - unfold width. lia.
  - rewrite width_256. pose proof (pow256_le (S (S k)) nb ltac:(lia)). lia.
Qed.

Lemma sorted_ladder_neg_spec k uadj :
  (k < nb)%nat → 2 ^ w - 256 ^ Z.of_nat (S k) ≤ uadj < 2 ^ w →
  let n := sorted_ladder_neg nb k uadj in
  (1 ≤ n ≤ S k)%nat ∧ 2 ^ w - 256 ^ Z.of_nat n ≤ uadj ∧
  (n = 1%nat ∨ uadj < 2 ^ w - 256 ^ Z.of_nat (n - 1)).
Proof.
  induction k as [|k IH]; intros Hk Ha; cbn [sorted_ladder_neg]; [split_and!; [lia..|by left]|].
  rewrite low_test_ones, pow_256.
  - destruct (2 ^ w - 256 ^ Z.of_nat (S k) <=? uadj) eqn:E; reflect_bools; cbn [negb].
    + destruct (IH ltac:(lia) ltac:(lia)) as (? & ? & ?). split_and!; [lia..|done].
    + split_and!; [lia..|]. right. by replace (S (S k) - 1)%nat with (S k) by lia.
  - unfold width. lia.
  - rewrite width_256 in *. pose proof (pow256_le (S (S k)) nb ltac:(lia)). lia.
Qed.

Lemma le_bytes_mod n x : le_bytes n (x mod 256 ^ Z.of_nat n) = le_bytes n x.
Proof.
  revert x; induction n as [|n IH]; intros x; [done|]. cbn [le_bytes].
  pose proof (pow256_pos n). rewrite pow256_succ, Z.rem_mul_r by lia.
  rewrite (Z.mul_comm 256), Z.mod_add, Z.mod_mod, Z.div_add by lia.
  rewrite (Z.div_small (x mod 256)) by (apply Z.mod_pos_bound; lia). by rewrite Z.add_0_l, IH.
Qed.

(** How a value is laid out: a prefix and [n] big-endian bytes of [v]. *)
Inductive sorted_form (val : Z) : Z → nat → Z → Prop :=
| form_single : -119 ≤ val ≤ 120 → sorted_form val (val + 127) 0 0
| form_pos n : (1 ≤ n ≤ nb)%nat → 120 < val → val - 121 < 256 ^ Z.of_nat n →
    n = 1%nat ∨ 256 ^ Z.of_nat (n - 1) ≤ val - 121 →
    sorted_form val (247 + Z.of_nat n) n (val - 121)
| form_neg n : (1 ≤ n ≤ nb)%nat → val < -119 → - 256 ^ Z.of_nat n ≤ val + 119 →
    n = 1%nat ∨ val + 119 < - 256 ^ Z.of_nat (n - 1) →
    sorted_form val (8 - Z.of_nat n) n (val + 119 + 256 ^ Z.of_nat n).

Lemma sorted_form_bounds val prefix n v : sorted_form val prefix n v → 0 ≤ v < 256 ^ Z.of_nat n.
Proof. destruct 1; [simpl; lia|lia..]. Qed.

Lemma write_sorted_form val :
  in_i w val → ∃ prefix n v, sorted_form val prefix n v ∧
    write_sorted nb val = prefix :: be_bytes n v.
Proof.
  intros Hv. unfold in_i in Hv. assert (16 ≤ w) by (unfold width; lia).
  pose proof (pow2_half w ltac:(lia)) as Hp.
  assert (2 ^ 15 ≤ 2 ^ (w - 1)) as H7 by (apply Z.pow_le_mono_r; lia).
  change (2 ^ 15) with 32768 in H7. pose proof width_256 as Hw. unfold write_sorted.
  destruct ((-119 <=? val) && (val <=? 120)) eqn:E; [|apply andb_false_iff in E].
  - reflect_bools. exists (val + 127), 0%nat, 0. split; [by constructor|].
    by drop_wraps.
  - destruct (120 <? val) eqn:E2; reflect_bools.
    + drop_wraps.
      destruct (sorted_ladder_pos_spec (nb - 1) (val - 121)) as (H1 & H2 & H3); [lia| |].
      { replace (S (nb - 1)) with nb by lia. lia. }
      set (n := sorted_ladder_pos nb (nb - 1) (val - 121)) in *.
      exists (247 + Z.of_nat n), n, (val - 121). split; [by apply form_pos; [lia|..]|]. by rewrite value_bytes_le.
    + assert (val < -119) as Hneg by (destruct E; reflect_bools; lia).
      rewrite (as_i_id w) by (unfold in_i; lia).
      assert (as_u w (val + 119) = 2 ^ w + (val + 119)) as ->.
      { unfold as_u. rewrite <-(Z.mod_add _ 1), Z.mod_small by lia. lia. }
      destruct (sorted_ladder_neg_spec (nb - 1) (2 ^ w + (val + 119))) as (H1 & H2 & H3); [lia| |].
      { replace (S (nb - 1)) with nb by lia. lia. }
      set (n := sorted_ladder_neg nb (nb - 1) (2 ^ w + (val + 119))) in *.
      exists (8 - Z.of_nat n), n, (val + 119 + 256 ^ Z.of_nat n).
      split; [apply form_neg; lia|]. drop_wraps. f_equal. rewrite value_bytes_le.
      unfold be_bytes. f_equal. rewrite <-(le_bytes_mod n (2 ^ w + (val + 119))).
      f_equal. rewrite Hw. symmetry.
      replace nb with (n + (nb - n))%nat at 1 by lia.
      rewrite Nat2Z.inj_add, Z.pow_add_r by lia. pose proof (pow256_pos n).
      apply (Z.mod_unique _ _ (256 ^ Z.of_nat (nb - n) - 1)); [left|]; nia.
Qed.

Lemma read_raw_app n raw l r :
  length l = n → bytes_ok l → 0 ≤ raw →
  read_raw nb n raw (l ++ r) =
  Some (if (n =? 0)%nat then raw else (raw * 256 ^ Z.of_nat n + be_val l) mod 2 ^ w, r).
Proof.
  revert n raw; induction l as [|b l IH]; intros n raw Hl Hb Hr; destruct n as [|n]; try done.
  injection Hl as Hl. apply Forall_cons in Hb as [Hb Hbs]. unfold is_byte in Hb.
  assert (2 ^ 8 ≤ 2 ^ w) as Hw8 by (apply Z.pow_le_mono_r; unfold width; lia).
  change (2 ^ 8) with 256 in Hw8. assert (16 ≤ w) by (unfold width; lia).
  rewrite <-app_comm_cons. cbn [read_raw].
  assert (Z.lor (as_u w (Z.shiftl raw 8)) b = (raw * 256 + b) mod 2 ^ w) as ->.
  { unfold as_u. rewrite Z.shiftl_mul_pow2 by lia. change (2 ^ 8) with 256.
    assert (2 ^ w = 256 * 2 ^ (w - 8)) as Hw by (rewrite <-(Z.pow_add_r 2 8) by lia; f_equal; lia).
    assert (0 < 2 ^ (w - 8)) by (apply Z.pow_pos_nonneg; lia).
    set (q := 2 ^ (w - 8)) in *. pose proof (Z.div_mod raw q ltac:(lia)).
    pose proof (Z.mod_pos_bound raw q ltac:(lia)).
    replace (raw * 256 mod 2 ^ w) with (raw mod q * 2 ^ 8).
    - rewrite lor_disjoint by (change (2 ^ 8) with 256; lia). change (2 ^ 8) with 256.
      apply (Z.mod_unique _ _ (raw / q)); [left|]; nia.
    - change (2 ^ 8) with 256. apply (Z.mod_unique _ _ (raw / q)); [left|]; nia. }
  rewrite IH; [|done|done|apply Z.mod_pos_bound; lia].
  cbn [Nat.eqb]. do 2 f_equal. unfold be_val. rewrite reverse_cons.
  assert (∀ l b, le_val (l ++ [b]) = le_val l + b * 256 ^ Z.of_nat (length l)) as Happ.
  { clear. induction l as [|x l IH]; intros b; cbn [le_val app length]; [lia|].
    rewrite IH, pow256_succ. lia. }
  rewrite Happ, length_reverse, Hl, pow256_succ. destruct (n =? 0)%nat eqn:E; reflect_bools.
  - subst n. destruct l; [|done]. simpl. f_equal. lia.
  - rewrite Z.add_mod, Z.mul_mod_idemp_l, <-Z.add_mod by lia. f_equal. lia.
Qed.

Lemma sorted_roundtrip val r :
  in_i w val → read_sorted nb (write_sorted nb val ++ r) = Some (val, r).
Proof.
  intros Hv. destruct (write_sorted_form val Hv) as (prefix & n & v & Hf & ->).
  pose proof (sorted_form_bounds _ _ _ _ Hf) as Hb.
  rewrite <-app_comm_cons. unfold read_sorted. unfold in_i in Hv.
  assert (16 ≤ w) by (unfold width; lia). pose proof (pow2_half w ltac:(lia)) as Hp.
  pose proof width_256 as Hw. assert (0 < 2 ^ (w - 1)) by (apply Z.pow_pos_nonneg; lia).
  assert (2 ^ 15 ≤ 2 ^ (w - 1)) as H7 by (apply Z.pow_le_mono_r; lia).
  change (2 ^ 15) with 32768 in H7.
  destruct Hf as [Hr|n Hn Hr Hlt Hmin|n Hn Hr Hlt Hmin].
  - rewrite (proj2 (Z.ltb_ge _ 8)), (proj2 (Z.ltb_ge 247 _)) by lia. simpl. do 2 f_equal. lia.
  - rewrite (proj2 (Z.ltb_ge _ 8)), (proj2 (Z.ltb_lt 247 _)) by lia.
    replace (Z.to_nat _) with n by lia.
    rewrite read_raw_app by (auto using length_be_bytes, be_bytes_ok; lia).
    rewrite (proj2 (Nat.eqb_neq _ _)) by lia. rewrite be_val_bytes by lia.
    rewrite Z.mul_0_l, Z.add_0_l, Z.mod_small by lia. drop_wraps. do 2 f_equal. lia.
  - rewrite (proj2 (Z.ltb_lt _ 8)) by lia. replace (Z.to_nat _) with n by lia.
    rewrite read_raw_app by (auto using length_be_bytes, be_bytes_ok; lia).
    rewrite (proj2 (Nat.eqb_neq _ _)) by lia. rewrite be_val_bytes by lia.
    rewrite <-(Z.mod_add _ (1 - 256 ^ Z.of_nat n)) by lia.
    replace (_ + (1 - 256 ^ Z.of_nat n) * 2 ^ w) with (2 ^ w + (val + 119)) by lia.
    rewrite Z.mod_small by lia.
    assert (as_i w (2 ^ w + (val + 119)) = val + 119) as ->.
    { unfold as_i. rewrite Z.mod_small by lia. rewrite (proj2 (Z.ltb_ge _ _)) by lia. lia. }
    drop_wraps. do 2 f_equal. lia.
Qed.

Lemma sorted_order a b r1 r2 :
  in_i w a → in_i w b → a < b →
  lex_cmp (write_sorted nb a ++ r1) (write_sorted nb b ++ r2) = Lt.
Proof.
  intros Ha Hb Hab.
  destruct (write_sorted_form a Ha) as (pa & na & va & Hfa & ->).
  destruct (write_sorted_form b Hb) as (pb & n_b & vb & Hfb & ->).
  assert (pa < pb ∨ pa = pb ∧ na = n_b ∧ va < vb) as [Hp|(<- & <- & Hv)].
  { destruct Hfa as [?|n Hn Hr Hlt Hmin|n Hn Hr Hlt Hmin],
      Hfb as [?|m Hm Hr' Hlt' Hmin'|m Hm Hr' Hlt' Hmin']; try lia.
    - destruct (Nat.lt_trichotomy n m) as [?|[->|?]]; [lia|lia|].
      destruct Hmin as [->|Hmin]; [lia|]. pose proof (pow256_le m (n - 1) ltac:(lia)). lia.
    - destruct (Nat.lt_trichotomy n m) as [?|[->|?]]; [|lia|lia].
      destruct Hmin' as [->|Hmin']; [lia|]. pose proof (pow256_le n (m - 1) ltac:(lia)). lia. }
  - simpl. by rewrite (proj2 (Z.compare_lt_iff pa pb)).
  - rewrite <-!app_comm_cons, lex_cmp_cons.
    pose proof (sorted_form_bounds _ _ _ _ Hfa). pose proof (sorted_form_bounds _ _ _ _ Hfb).
    pose proof (lex_cmp_be na va vb ltac:(done) ltac:(done)) as Hl.
    rewrite (proj2 (Z.compare_lt_iff va vb)) in Hl by done.
    rewrite lex_cmp_same_length; rewrite ?Hl, ?length_be_bytes; done.
Qed.

(** *** Floats *)

Lemma sign_test bits :
  in_u w bits → (Z.land bits (sign_bit nb) =? 0) = (bits <? sign_bit nb).
Proof.
  intros Hb. unfold in_u, sign_bit in *. assert (16 ≤ w) by (unfold width; lia).
  pose proof (high_test_zero w (w - 1) bits ltac:(lia) Hb) as Ht.
  replace (2 ^ w - 2 ^ (w - 1)) with (2 ^ (w - 1)) in Ht; [done|].
  rewrite (pow2_half w) by lia. lia.
Qed.

Lemma lxor_ones x : in_u w x → Z.lxor x (2 ^ w - 1) = 2 ^ w - 1 - x.
Proof.
  intros Hx. unfold in_u in Hx. assert (16 ≤ w) by (unfold width; lia).
  replace (2 ^ w - 1) with (Z.ones w) by (rewrite Z.ones_equiv; lia).
  assert (Z.ldiff x (Z.ones w) = 0) as Hd.
  { rewrite Z.ldiff_ones_r, Z.shiftr_div_pow2, Z.div_small by lia. apply Z.shiftl_0_l. }
  rewrite Z.sub_nocarry_ldiff by done.
  apply Z.bits_inj'. intros i Hi. rewrite Z.lxor_spec, Z.ldiff_spec.
  destruct (decide (i < w)).
  - rewrite Z.ones_spec_low by lia. by destruct (Z.testbit x i).
  - rewrite Z.ones_spec_high, (testbit_high w i x) by lia. done.
Qed.

Lemma lxor_sign x :
  in_u w x → Z.lxor x (sign_bit nb) = if x <? sign_bit nb then x + sign_bit nb else x - sign_bit nb.
Proof.
  intros Hx. unfold in_u, sign_bit in *. assert (16 ≤ w) by (unfold width; lia).
  pose proof (pow2_half w ltac:(lia)).
  assert (∀ y, 0 ≤ y < 2 ^ (w - 1) → Z.lxor y (2 ^ (w - 1)) = y + 2 ^ (w - 1)) as Hlow.
  { intros y Hy. rewrite Z.lxor_comm, Z.add_comm. symmetry. apply Z.add_nocarry_lxor.
    apply Z.bits_inj'. intros i Hi. rewrite Z.land_spec, Z.bits_0.
    destruct (decide (i = w - 1)) as [->|Hne].
    - rewrite (testbit_high (w - 1) (w - 1) y) by lia. apply andb_false_r.
    - by rewrite Z.pow2_bits_false by lia. }
  destruct (x <? 2 ^ (w - 1)) eqn:E; reflect_bools; [apply Hlow; lia|].
  replace x with (Z.lxor (x - 2 ^ (w - 1)) (2 ^ (w - 1))) at 1 by (rewrite Hlow; lia).
  rewrite Z.lxor_assoc, Z.lxor_nilpotent. apply Z.lxor_0_r.
Qed.

(** The encoding of a float is its position in the total order. *)
Lemma write_sorted_float_key bits :
  in_u w bits →
  write_sorted_float nb bits = be_bytes nb (float_key nb bits + sign_bit nb) ∧
  0 ≤ float_key nb bits + sign_bit nb < 2 ^ w.
Proof.
  intros Hb. unfold write_sorted_float, float_key. rewrite sign_test by done.
  assert (2 ^ w = 2 * sign_bit nb) as Hs by (apply pow2_half; unfold width; lia).
  unfold in_u in Hb. destruct (bits <? sign_bit nb) eqn:E; cbn [negb].
  - rewrite lxor_sign, E by done. reflect_bools. split; [done|lia].
  - rewrite lxor_ones by done. reflect_bools. split; [f_equal; lia|lia].
Qed.

Lemma float_roundtrip bits r :
  in_u w bits → read_sorted_float nb (write_sorted_float nb bits ++ r) = Some (bits, r).
Proof.
  intros Hb. destruct (write_sorted_float_key bits Hb) as [-> Hk].
  unfold read_sorted_float. rewrite read_exact_app' by apply length_be_bytes.
  rewrite be_val_bytes by (by rewrite <-width_256).
  assert (2 ^ w = 2 * sign_bit nb) as Hs by (apply pow2_half; unfold width; lia).
  rewrite sign_test by done. unfold float_key in *. unfold in_u in Hb.
  do 2 f_equal. destruct (bits <? sign_bit nb) eqn:E; reflect_bools.
  - rewrite (proj2 (Z.ltb_ge _ _)) by lia. cbn [negb]. rewrite lxor_sign by done.
    rewrite (proj2 (Z.ltb_ge _ _)) by lia. lia.
  - rewrite (proj2 (Z.ltb_lt _ _)) by lia. cbn [negb]. rewrite lxor_ones by done. lia.
Qed.

Lemma float_order a b r1 r2 :
  in_u w a → in_u w b → float_key nb a < float_key nb b →
  lex_cmp (write_sorted_float nb a ++ r1) (write_sorted_float nb b ++ r2) = Lt.
Proof.
  intros Ha Hb Hlt. destruct (write_sorted_float_key a Ha) as [-> Hka].
  destruct (write_sorted_float_key b Hb) as [-> Hkb]. rewrite width_256 in Hka, Hkb.
  pose proof (lex_cmp_be nb _ _ Hka Hkb) as Hl.
  rewrite (proj2 (Z.compare_lt_iff _ _)) in Hl by lia.
  rewrite lex_cmp_same_length; rewrite ?Hl, ?length_be_bytes; done.
Qed.
End codec.

(** * Properties *)



(** C27: order-preserving integers.  Every 32-bit (64-bit) integer is read
    back from its encoding, and comparing two encodings byte by byte, whatever
    follows them, gives the order of the integers: the encodings can be used
    as keys or as the leading part of composite keys. *)
Theorem sorted_integers_order_and_roundtrip (a b : Z) (r1 r2 : list Z) :
  (in_i 32 a → in_i 32 b →
     read_sorted_i32 (write_sorted_i32 a ++ r1) = Some (a, r1) ∧
     (a < b → lex_cmp (write_sorted_i32 a ++ r1) (write_sorted_i32 b ++ r2) = Lt) ∧
     lex_cmp (write_sorted_i32 a) (write_sorted_i32 b) = (a ?= b)) ∧
  (in_i 64 a → in_i 64 b →
     read_sorted_i64 (write_sorted_i64 a ++ r1) = Some (a, r1) ∧
     (a < b → lex_cmp (write_sorted_i64 a ++ r1) (write_sorted_i64 b ++ r2) = Lt) ∧
     lex_cmp (write_sorted_i64 a) (write_sorted_i64 b) = (a ?= b)).
Proof.
  assert (∀ nb, (2 ≤ nb ≤ 8)%nat → in_i (width nb) a → in_i (width nb) b →
    read_sorted nb (write_sorted nb a ++ r1) = Some (a, r1) ∧
    (a < b → lex_cmp (write_sorted nb a ++ r1) (write_sorted nb b ++ r2) = Lt) ∧
    lex_cmp (write_sorted nb a) (write_sorted nb b) = (a ?= b)) as H.
  { intros nb Hnb Ha Hb. split_and!; [by apply sorted_roundtrip|by intros; apply sorted_order|].
    destruct (a ?= b) eqn:E.
    - apply Z.compare_eq in E as ->. apply lex_cmp_refl.
    - rewrite Z.compare_lt_iff in E. pose proof (sorted_order nb Hnb a b [] [] Ha Hb E) as Ho.
      by rewrite !app_nil_r in Ho.
    - rewrite Z.compare_gt_iff in E. pose proof (sorted_order nb Hnb b a [] [] Hb Ha E) as Ho.
      rewrite !app_nil_r in Ho. by rewrite lex_cmp_antisym, Ho. }
  split; intros Ha Hb; by apply H; [lia|..].
Qed.

Lemma sorted_integers_order_and_roundtrip_witness :
  lex_cmp (write_sorted_i64 (-300) ++ [1]) (write_sorted_i64 70000 ++ [0]) = Lt.
Proof.
  apply (proj2 (sorted_integers_order_and_roundtrip (-300) 70000 [1] [0]));
    unfold in_i; lia.
Defined.

(** Order-preserving floats.  Every bit pattern of a 32-bit (64-bit) float
    is read back from its encoding, and the encodings are ordered byte by byte
    as the floats are by sign and magnitude. *)
Theorem sorted_floats_order_and_roundtrip (a b : Z) (r1 r2 : list Z) :
  (in_u 32 a → in_u 32 b →
     read_sorted_f32 (write_sorted_f32 a ++ r1) = Some (a, r1) ∧
     (float_key 4 a < float_key 4 b →
        lex_cmp (write_sorted_f32 a ++ r1) (write_sorted_f32 b ++ r2) = Lt)) ∧
  (in_u 64 a → in_u 64 b →
     read_sorted_f64 (write_sorted_f64 a ++ r1) = Some (a, r1) ∧
     (float_key 8 a < float_key 8 b →
        lex_cmp (write_sorted_f64 a ++ r1) (write_sorted_f64 b ++ r2) = Lt)).
Proof.
  split; intros Ha Hb; (split; [by apply float_roundtrip; [lia|]|]);
    intros; by apply float_order; [lia|..].
Qed.

(** The bits of [-1.5] and [0.25] as 64-bit floats. *)
Lemma sorted_floats_order_and_roundtrip_witness :
  lex_cmp (write_sorted_f64 0xBFF8000000000000 ++ []) (write_sorted_f64 0x3FD0000000000000 ++ []) = Lt.
Proof.
  apply (proj2 (sorted_floats_order_and_roundtrip 0xBFF8000000000000 0x3FD0000000000000 [] []));
    [unfold in_u; lia..|vm_compute; reflexivity].
Defined.
