(* ===== verification/Lsn.v ===== *)
(** * Log positions (noxu-util)

    [lsn.rs] and [vlsn.rs].  An LSN is a 64-bit integer, the file number in
    its upper half and the offset in its lower half; a VLSN is the sequence
    number of a replicated entry.  A comparison that would panic on the null
    LSN is [None]. *)

From S2P Require Import Prelude Bytes Packed.

(** ** LSNs *)

Definition NULL_LSN : Z := 2 ^ 64 - 1.
Definition MAX_FILE_NUM : Z := 2 ^ 32 - 1.

Definition Lsn_new (file_number file_offset : Z) : Z :=
  Z.lor (Z.shiftl file_number 32) file_offset.

Definition transient_lsn (offset : Z) : Z := Lsn_new MAX_FILE_NUM offset.

Definition file_number (lsn : Z) : Z := as_u 32 (Z.shiftr lsn 32).
Definition file_offset (lsn : Z) : Z := as_u 32 lsn.
Definition is_null (lsn : Z) : bool := lsn =? NULL_LSN.
Definition is_transient (lsn : Z) : bool := file_number lsn =? MAX_FILE_NUM.
Definition is_transient_or_null (lsn : Z) : bool := is_null lsn || is_transient lsn.

Definition abs_diff (a b : Z) : Z := Z.abs (a - b).

Definition calc_diff (file_distance log_file_size later_offset earlier_offset : Z) : Z :=
  as_u 64 (file_distance * log_file_size + later_offset - earlier_offset).

Definition no_cleaning_distance (self other log_file_size : Z) : Z :=
  if is_null self then 0
  else
    let my_file := file_number self in
    let other_file := if is_null other then 0 else file_number other in
    let other_offset := if is_null other then 0 else file_offset other in
    if my_file =? other_file then abs_diff (file_offset self) other_offset
    else if other_file <? my_file then
      calc_diff (my_file - other_file) log_file_size (file_offset self) other_offset
    else
      calc_diff (other_file - my_file) log_file_size other_offset (file_offset self).

Definition lsn_distance (self other : Z) : Z := abs_diff self other.

Definition lsn_cmp (self other : Z) : option comparison :=
  if is_null self || is_null other then None
  else Some match file_number self ?= file_number other with
            | Eq => file_offset self ?= file_offset other
            | c => c
            end.

(** [self < other] and its three relatives; [None] is the panic of a
    comparison with the null LSN. *)
Definition lsn_lt (self other : Z) : option bool :=
  c ← lsn_cmp self other; Some (match c with Lt => true | _ => false end).
Definition lsn_le (self other : Z) : option bool :=
  c ← lsn_cmp self other; Some (match c with Gt => false | _ => true end).
Definition lsn_gt (self other : Z) : option bool := lsn_lt other self.
Definition lsn_ge (self other : Z) : option bool := lsn_le other self.

(** *** Synthetic lock ids *)

Definition FNV_OFFSET : Z := 0x811c9dc5.
Definition FNV_PRIME : Z := 0x01000193.

(** [h ^= b; h = h.wrapping_mul(FNV_PRIME)] for every byte. *)
Definition fnv1a (h : Z) (bs : list Z) : Z :=
  foldl (λ h b, as_u 32 (Z.lxor h b * FNV_PRIME)) h bs.

Definition avoid_max (h : Z) : Z := if h =? 2 ^ 32 - 1 then 0 else h.

Definition synthetic_key_lock_id (db_id : Z) (key : list Z) : Z :=
  Lsn_new MAX_FILE_NUM (avoid_max (fnv1a (fnv1a FNV_OFFSET (le_bytes 8 db_id)) key)).

Definition eof_lock_lsn (db_id : Z) : Z :=
  Lsn_new 0xFFFFFFFE (avoid_max (fnv1a FNV_OFFSET (le_bytes 8 db_id))).

Definition name_lock_id (name : list Z) : Z :=
  Lsn_new 0xFFFFFFFD (avoid_max (fnv1a FNV_OFFSET name)).

(** ** VLSNs *)

Definition NULL_VLSN : Z := -1.
Definition FIRST_VLSN : Z := 1.
Definition vlsn_is_null (v : Z) : bool := v =? NULL_VLSN.

Definition vlsn_next (v : Z) : Z :=
  if vlsn_is_null v then FIRST_VLSN else as_i 64 (v + 1).
Definition vlsn_prev (v : Z) : Z :=
  if vlsn_is_null v || (v =? 1) then NULL_VLSN else as_i 64 (v - 1).
Definition vlsn_follows (self other : Z) : bool :=
  (vlsn_is_null other && (self =? 1))
  || (negb (vlsn_is_null other) && (other =? as_i 64 (self - 1))).

Definition vlsn_cmp (self other : Z) : comparison :=
  if vlsn_is_null self && vlsn_is_null other then Eq
  else if vlsn_is_null self then Lt
  else if vlsn_is_null other then Gt
  else self ?= other.

Definition vlsn_min (a b : Z) : Z :=
  if vlsn_is_null a then b
  else if vlsn_is_null b then a
  else match vlsn_cmp a b with Gt => b | _ => a end.

Definition vlsn_write_to_log (v : Z) : list Z := le_bytes 8 (as_u 64 v).
Definition vlsn_read_from_log (r : list Z) : option (Z * list Z) :=
  match read_exact 8 r with
  | Some (buf, r) => Some (as_i 64 (le_val buf), r)
  | None => None
  end.

(** * Theorems *)

Lemma Lsn_new_add f o : in_u 32 f → in_u 32 o → Lsn_new f o = f * 2 ^ 32 + o.
Proof.
  intros Hf Ho. unfold Lsn_new. rewrite Z.shiftl_mul_pow2 by lia. by apply lor_disjoint.
Qed.

Lemma Lsn_new_range f o : in_u 32 f → in_u 32 o → in_u 64 (Lsn_new f o).
Proof. intros Hf Ho. rewrite Lsn_new_add by done. unfold in_u in *. lia. Qed.

Lemma file_number_div lsn : in_u 64 lsn → file_number lsn = lsn / 2 ^ 32.
Proof.
  intros H. unfold file_number. rewrite Z.shiftr_div_pow2 by lia. apply as_u_id.
  unfold in_u in *. split; [apply Z.div_pos; lia|]. apply Z.div_lt_upper_bound; lia.
Qed.

Lemma file_number_new f o : in_u 32 f → in_u 32 o → file_number (Lsn_new f o) = f.
Proof.
  intros Hf Ho. rewrite file_number_div by by apply Lsn_new_range.
  rewrite Lsn_new_add by done. unfold in_u in *.
  rewrite Z.div_add_l, Z.div_small by lia. lia.
Qed.

Lemma file_offset_new f o : in_u 32 f → in_u 32 o → file_offset (Lsn_new f o) = o.
Proof.
  intros Hf Ho. rewrite Lsn_new_add by done. unfold file_offset, as_u, in_u in *.
  rewrite Z.add_comm, Z.mod_add, Z.mod_small by lia. done.
Qed.

Lemma Lsn_new_parts lsn : in_u 64 lsn → Lsn_new (file_number lsn) (file_offset lsn) = lsn.
Proof.
  intros H. assert (in_u 32 (file_number lsn)) by (apply Z.mod_pos_bound; lia).
  assert (in_u 32 (file_offset lsn)) by (apply Z.mod_pos_bound; lia).
  rewrite Lsn_new_add, file_number_div by done. unfold file_offset, as_u.
  pose proof (Z.div_mod lsn (2 ^ 32)). lia.
Qed.

Lemma fnv1a_range h bs : in_u 32 h → in_u 32 (fnv1a h bs).
Proof.
  revert h; induction bs as [|b bs IH]; intros h Hh; [done|]. apply IH.
  apply Z.mod_pos_bound. lia.
Qed.

Lemma avoid_max_range h : in_u 32 h → in_u 32 (avoid_max h) ∧ avoid_max h ≠ 2 ^ 32 - 1.
Proof.
  unfold avoid_max, in_u. intros Hh. destruct (h =? 2 ^ 32 - 1) eqn:E; reflect_bools; lia.
Qed.

(** A synthetic id built from a reserved file number. *)
Lemma synthetic_id f h :
  in_u 32 f → in_u 32 h →
  file_number (Lsn_new f (avoid_max h)) = f ∧ Lsn_new f (avoid_max h) ≠ NULL_LSN.
Proof.
  intros Hf Hh. destruct (avoid_max_range h Hh) as [Ha Hne].
  split; [by apply file_number_new|]. rewrite Lsn_new_add by done.
  unfold NULL_LSN, in_u in *. lia.
Qed.

(** The order of file numbers and offsets is the order of the integers. *)
Lemma lsn_cmp_compare a b :
  in_u 64 a → in_u 64 b →
  lsn_cmp a b = if is_null a || is_null b then None else Some (a ?= b).
Proof.
  intros Ha Hb. unfold lsn_cmp. destruct (is_null a || is_null b); [done|]. f_equal.
  rewrite !file_number_div by done. unfold file_offset, as_u.
  pose proof (Z.div_mod a (2 ^ 32) ltac:(lia)). pose proof (Z.div_mod b (2 ^ 32) ltac:(lia)).
  pose proof (Z.mod_pos_bound a (2 ^ 32) ltac:(lia)).
  pose proof (Z.mod_pos_bound b (2 ^ 32) ltac:(lia)).
  destruct (a / 2 ^ 32 ?= b / 2 ^ 32) eqn:E; symmetry.
  + apply Z.compare_eq in E. destruct (a mod 2 ^ 32 ?= b mod 2 ^ 32) eqn:E2.
    * apply Z.compare_eq in E2. apply Z.compare_eq_iff. lia.
    * rewrite Z.compare_lt_iff in E2. apply Z.compare_lt_iff. lia.
    * rewrite Z.compare_gt_iff in E2. apply Z.compare_gt_iff. lia.
  + rewrite Z.compare_lt_iff in E. apply Z.compare_lt_iff. lia.
  + rewrite Z.compare_gt_iff in E. apply Z.compare_gt_iff. lia.
Qed.

(** A valid LSN: a 64-bit integer that is not the null LSN. *)
Definition valid_lsn (l : Z) : Prop := 0 ≤ l < NULL_LSN.

Lemma valid_lsn_u64 l : valid_lsn l → in_u 64 l ∧ is_null l = false.
Proof. unfold valid_lsn, in_u, is_null, NULL_LSN. intros. split; [|apply Z.eqb_neq]; lia. Qed.

Lemma u64_valid_lsn l : in_u 64 l → is_null l = false → valid_lsn l.
Proof. unfold valid_lsn, in_u, is_null, NULL_LSN. intros Hu Hn%Z.eqb_neq. lia. Qed.

Lemma lsn_lt_valid a b : valid_lsn a → valid_lsn b → lsn_lt a b = Some (a <? b).
Proof.
  intros [Ha Na]%valid_lsn_u64 [Hb Nb]%valid_lsn_u64. unfold lsn_lt.
  by rewrite lsn_cmp_compare, Na, Nb.
Qed.

Lemma lsn_le_valid a b : valid_lsn a → valid_lsn b → lsn_le a b = Some (a <=? b).
Proof.
  intros [Ha Na]%valid_lsn_u64 [Hb Nb]%valid_lsn_u64. unfold lsn_le.
  by rewrite lsn_cmp_compare, Na, Nb.
Qed.

(** * Properties *)

(** LSNs are file number and offset.  Building an LSN and taking it apart
    are inverse, only the last offset of the last file is the null LSN, and
    comparing two LSNs by file and offset is comparing them as integers,
    except that it refuses the null LSN. *)
Theorem lsn_is_file_and_offset (f o a b : Z) (Hf : in_u 32 f) (Ho : in_u 32 o)
  (Ha : in_u 64 a) (Hb : in_u 64 b) :
  file_number (Lsn_new f o) = f ∧ file_offset (Lsn_new f o) = o ∧
  Lsn_new (file_number a) (file_offset a) = a ∧
  (is_null (Lsn_new f o) = true ↔ f = 2 ^ 32 - 1 ∧ o = 2 ^ 32 - 1) ∧
  lsn_cmp a b = if is_null a || is_null b then None else Some (a ?= b).
Proof.
  split_and!; [by apply file_number_new|by apply file_offset_new|by apply Lsn_new_parts| |].
  - unfold is_null. rewrite Z.eqb_eq, Lsn_new_add by done. unfold NULL_LSN, in_u in *. lia.
  - by apply lsn_cmp_compare.
Qed.

Lemma lsn_is_file_and_offset_witness :
  lsn_cmp (Lsn_new 3 17) (Lsn_new 4 2) = Some Lt ∧ file_number (Lsn_new 3 17) = 3.
Proof.
  assert (in_u 64 (Lsn_new 3 17)) as Ha by (unfold in_u; vm_compute; done).
  assert (in_u 64 (Lsn_new 4 2)) as Hb by (unfold in_u; vm_compute; done).
  destruct (lsn_is_file_and_offset 3 17 (Lsn_new 3 17) (Lsn_new 4 2)) as (H1 & _ & _ & _ & H2);
    [unfold in_u; lia..|exact Ha|exact Hb|].
  split; [rewrite H2; vm_compute; reflexivity|exact H1].
Defined.

(** The synthetic lock ids of keys, of ends of ranges and of database
    names never clash with each other, with the LSN of a logged record (whose
    file number is below the three reserved ones), or with the null LSN. *)
Theorem synthetic_lock_ids_disjoint (db db' : Z) (key name : list Z) (f o : Z)
  (Hf : 0 ≤ f < 0xFFFFFFFD) (Ho : in_u 32 o) :
  NoDup [synthetic_key_lock_id db key; eof_lock_lsn db'; name_lock_id name;
         Lsn_new f o; NULL_LSN].
Proof.
  assert (in_u 32 FNV_OFFSET) as H0 by (unfold in_u, FNV_OFFSET; lia).
  destruct (synthetic_id MAX_FILE_NUM (fnv1a (fnv1a FNV_OFFSET (le_bytes 8 db)) key))
    as [H1 H1']; [unfold in_u, MAX_FILE_NUM; lia|by apply fnv1a_range, fnv1a_range|].
  destruct (synthetic_id 0xFFFFFFFE (fnv1a FNV_OFFSET (le_bytes 8 db')))
    as [H2 H2']; [unfold in_u; lia|by apply fnv1a_range|].
  destruct (synthetic_id 0xFFFFFFFD (fnv1a FNV_OFFSET name))
    as [H3 H3']; [unfold in_u; lia|by apply fnv1a_range|].
  assert (file_number (Lsn_new f o) = f) as H4 by (apply file_number_new; [unfold in_u; lia|done]).
  assert (file_number NULL_LSN = 2 ^ 32 - 1) as H5 by (vm_compute; done).
  unfold synthetic_key_lock_id, eof_lock_lsn, name_lock_id. unfold MAX_FILE_NUM in *.
  rewrite !NoDup_cons, !not_elem_of_cons.
  split_and!; try apply not_elem_of_nil; try apply NoDup_nil_2; try done;
    intros Heq; apply (f_equal file_number) in Heq; lia.
Qed.

Lemma synthetic_lock_ids_disjoint_witness :
  NoDup [synthetic_key_lock_id 7 [1; 2]; eof_lock_lsn 7; name_lock_id [97]; Lsn_new 3 17; NULL_LSN].
Proof. apply synthetic_lock_ids_disjoint; [lia|unfold in_u; lia]. Defined.

(** VLSNs are a sequence.  Every VLSN is read back from its eight bytes in
    the log; the null VLSN is the least element of the order; the VLSN after
    [v] is the least one above it, directly follows it and has [v] as its
    predecessor. *)
Theorem vlsn_sequence (v u : Z) (r : list Z)
  (Hv : v = NULL_VLSN ∨ 1 ≤ v < 2 ^ 63 - 1) (Hu : u = NULL_VLSN ∨ 1 ≤ u < 2 ^ 63) :
  vlsn_read_from_log (vlsn_write_to_log v ++ r) = Some (v, r) ∧
  (vlsn_cmp v u = Lt ↔ vlsn_cmp (vlsn_next v) u ≠ Gt) ∧
  vlsn_prev (vlsn_next v) = v ∧
  (vlsn_follows u v = true ↔ u = vlsn_next v) ∧
  (vlsn_min v u = v ∨ vlsn_min v u = u) ∧
  (v ≠ NULL_VLSN → u ≠ NULL_VLSN → vlsn_min v u = v `min` u).
Proof.
  unfold NULL_VLSN in *. split.
  { unfold vlsn_read_from_log, vlsn_write_to_log.
    rewrite read_exact_app' by apply length_le_bytes.
    rewrite le_val_bytes by (apply Z.mod_pos_bound; lia).
    rewrite as_i_as_u, as_i_id by (unfold in_i; lia). done. }
  assert (vlsn_next v = if v =? -1 then 1 else v + 1) as Hn.
  { unfold vlsn_next, vlsn_is_null, NULL_VLSN. destruct (v =? -1) eqn:E; [done|].
    reflect_bools. apply as_i_id; unfold in_i; lia. }
  rewrite Hn. unfold vlsn_follows, vlsn_prev, vlsn_min, vlsn_cmp, vlsn_is_null, NULL_VLSN.
  rewrite (as_i_id 64 (u - 1)) by (unfold in_i; lia).
  destruct Hv as [->|Hv].
  - change (-1 =? -1) with true. cbn [negb andb orb]. change (1 =? -1) with false.
    change (1 =? 1) with true. cbn [negb andb orb].
    destruct Hu as [->|Hu].
    { cbn. split_and!; [split; [done|by intros []]|done|split; [done|lia]|by left|done]. }
    rewrite (proj2 (Z.eqb_neq u (-1))) by lia.
    split_and!; [|done| |by right|done].
    + split; [|done]. intros _. rewrite Z.compare_gt_iff. lia.
    + rewrite orb_false_r, Z.eqb_eq. done.
  - rewrite (proj2 (Z.eqb_neq v (-1))), (proj2 (Z.eqb_neq (v + 1) (-1))) by lia.
    cbn [negb andb orb]. rewrite (proj2 (Z.eqb_neq (v + 1) 1)) by lia.
    rewrite (as_i_id 64 (v + 1 - 1)) by (unfold in_i; lia). rewrite Z.eqb_eq.
    destruct Hu as [->|Hu].
    + change (-1 =? -1) with true. cbn [negb andb orb].
      split_and!; [done|lia|lia|by left|done].
    + rewrite (proj2 (Z.eqb_neq u (-1))) by lia. rewrite Z.compare_lt_iff, Z.compare_gt_iff.
      split_and!; [lia|lia|lia|destruct (v ?= u); auto|].
      intros _ _. destruct (v ?= u) eqn:E.
      * apply Z.compare_eq in E. lia.
      * rewrite Z.compare_lt_iff in E. lia.
      * rewrite Z.compare_gt_iff in E. lia.
Qed.

Lemma vlsn_sequence_witness :
  vlsn_read_from_log (vlsn_write_to_log (-1) ++ [5]) = Some (-1, [5]) ∧
  vlsn_prev (vlsn_next (-1)) = -1.
Proof.
  destruct (vlsn_sequence (-1) 1 [5]) as (H1 & _ & H2 & _); [left; reflexivity|right; lia|].
  split; [exact H1|exact H2].
Defined.
