(* ===== verification/LogEntry.v ===== *)
(** * Log entries (noxu-log)

    [entry_type.rs], [provisional.rs], [entry_header.rs] and the bodies of the
    entries under [entry/].  A body is read from a cursor: its reader returns
    what is left, and [None] where the cursor is short.  The checksum is a
    value that the log manager supplies.  [Codec] is what the readers of the
    log rely on: a body is read back, has the size that was announced, and is
    never read from a cut input. *)

From S2P Require Import Prelude Bytes Reader Lsn.

(** ** The code: entry types *)

Inductive LogEntryType :=
| FileHeader
| IN | BIN | BINDelta
| InsertLN | UpdateLN | DeleteLN | InsertLNTxn | UpdateLNTxn | DeleteLNTxn
| MapLN | NameLN | NameLNTxn | FileSummaryLN
| TxnCommit | TxnAbort | TxnPrepare
| CkptStart | CkptEnd
| DbTree
| Trace
| Matchpoint
| RollbackStart | RollbackEnd
| INDeleteInfo | INDupDeleteInfo
| OldBINDelta | OldLN | DelDupLN | DupCountLN
| ImmutableFile.

#[export] Instance LogEntryType_eq_dec : EqDecision LogEntryType.
Proof. solve_decision. Defined.

Definition type_num (t : LogEntryType) : Z :=
  match t with
  | FileHeader => 1
  | IN => 2 | BIN => 3 | BINDelta => 4
  | InsertLN => 10 | UpdateLN => 11 | DeleteLN => 12
  | InsertLNTxn => 13 | UpdateLNTxn => 14 | DeleteLNTxn => 15
  | MapLN => 20 | NameLN => 21 | NameLNTxn => 22 | FileSummaryLN => 23
  | TxnCommit => 30 | TxnAbort => 31 | TxnPrepare => 32
  | CkptStart => 40 | CkptEnd => 41
  | DbTree => 50
  | Trace => 60
  | Matchpoint => 61
  | RollbackStart => 62 | RollbackEnd => 63
  | INDeleteInfo => 64 | INDupDeleteInfo => 65
  | OldBINDelta => 66 | OldLN => 67 | DelDupLN => 68 | DupCountLN => 69
  | ImmutableFile => 70
  end.

Definition from_type_num (n : Z) : option LogEntryType :=
  match n with
  | 1 => Some FileHeader
  | 2 => Some IN | 3 => Some BIN | 4 => Some BINDelta
  | 10 => Some InsertLN | 11 => Some UpdateLN | 12 => Some DeleteLN
  | 13 => Some InsertLNTxn | 14 => Some UpdateLNTxn | 15 => Some DeleteLNTxn
  | 20 => Some MapLN | 21 => Some NameLN | 22 => Some NameLNTxn | 23 => Some FileSummaryLN
  | 30 => Some TxnCommit | 31 => Some TxnAbort | 32 => Some TxnPrepare
  | 40 => Some CkptStart | 41 => Some CkptEnd
  | 50 => Some DbTree
  | 60 => Some Trace
  | 61 => Some Matchpoint
  | 62 => Some RollbackStart | 63 => Some RollbackEnd
  | 64 => Some INDeleteInfo | 65 => Some INDupDeleteInfo
  | 66 => Some OldBINDelta | 67 => Some OldLN | 68 => Some DelDupLN | 69 => Some DupCountLN
  | 70 => Some ImmutableFile
  | _ => None
  end.

Definition is_valid (n : Z) : bool :=
  match from_type_num n with Some _ => true | None => false end.

Definition is_transactional (t : LogEntryType) : bool :=
  match t with
  | InsertLNTxn | UpdateLNTxn | DeleteLNTxn | NameLNTxn | TxnCommit | TxnAbort | TxnPrepare => true
  | _ => false
  end.

Definition is_replication_possible (t : LogEntryType) : bool :=
  match t with
  | InsertLN | UpdateLN | DeleteLN | InsertLNTxn | UpdateLNTxn | DeleteLNTxn
  | NameLN | NameLNTxn | TxnCommit | TxnAbort | Matchpoint | Trace => true
  | _ => false
  end.

Definition is_sync_point (t : LogEntryType) : bool :=
  match t with TxnCommit | TxnAbort | Matchpoint => true | _ => false end.

Definition marshall_inside_latch (t : LogEntryType) : bool :=
  match t with MapLN | FileSummaryLN | TxnCommit | TxnAbort | DbTree => true | _ => false end.

Definition is_node_type (t : LogEntryType) : bool :=
  match t with
  | IN | BIN | BINDelta | InsertLN | UpdateLN | DeleteLN | InsertLNTxn | UpdateLNTxn | DeleteLNTxn
  | MapLN | NameLN | NameLNTxn | FileSummaryLN => true
  | _ => false
  end.

Definition is_user_ln_type (t : LogEntryType) : bool :=
  match t with
  | InsertLN | UpdateLN | DeleteLN | InsertLNTxn | UpdateLNTxn | DeleteLNTxn => true
  | _ => false
  end.

Definition is_ln_type (t : LogEntryType) : bool :=
  match t with
  | InsertLN | UpdateLN | DeleteLN | InsertLNTxn | UpdateLNTxn | DeleteLNTxn
  | MapLN | NameLN | NameLNTxn | FileSummaryLN | OldLN | DelDupLN | DupCountLN => true
  | _ => false
  end.

Definition is_in_type (t : LogEntryType) : bool :=
  match t with IN | BIN | BINDelta => true | _ => false end.

(** ** The code: provisional entries *)

Inductive Provisional := PNo | PYes | PBeforeCkptEnd.

(** [None] is the failed [debug_assert!]. *)
Definition is_provisional (p : Provisional) (log_entry_lsn ckpt_end_lsn : Z) : option bool :=
  if is_null log_entry_lsn then None
  else
    match p with
    | PNo => Some false
    | PYes => Some true
    | PBeforeCkptEnd =>
        if is_null ckpt_end_lsn then Some false
        else c ← lsn_cmp log_entry_lsn ckpt_end_lsn; Some (bool_decide (c = Lt))
    end.

(** ** The code: the header *)

Definition LOG_VERSION : Z := 2.
Definition MIN_HEADER_SIZE : Z := 14.
Definition VLSN_LOG_SIZE : Z := 8.
Definition MAX_HEADER_SIZE : Z := MIN_HEADER_SIZE + VLSN_LOG_SIZE.
Definition MAX_ITEM_SIZE : Z := 100 * 1024 * 1024.
Definition PROVISIONAL_ALWAYS_MASK : Z := 0x80.
Definition PROVISIONAL_BEFORE_CKPT_END_MASK : Z := 0x40.
Definition REPLICATED_MASK : Z := 0x20.
Definition INVISIBLE_MASK : Z := 0x10.
Definition VLSN_PRESENT_MASK : Z := 0x08.

Record LogEntryHeader := {
  checksum : Z;
  entry_type : LogEntryType;
  version : Z;
  item_size : Z;
  prev_offset : Z;
  vlsn : option Z;
  provisional : Provisional;
  replicated : bool;
  invisible : bool;
  vlsn_present : bool;
}.

Inductive NoxuLogError :=
| UnexpectedEof
| InvalidEntryType (type_num : Z)
| InvalidEntrySize (size : Z).

Definition header_new (t : LogEntryType) (size : Z) (p : Provisional) (repl : bool) (v : option Z)
    : LogEntryHeader :=
  {| checksum := 0; entry_type := t; version := LOG_VERSION; item_size := size; prev_offset := 0;
     vlsn := v; provisional := p; replicated := repl; invisible := false;
     vlsn_present := bool_decide (is_Some v) || repl |}.

Definition header_flags (h : LogEntryHeader) : Z :=
  let flags := match provisional h with
               | PYes => PROVISIONAL_ALWAYS_MASK
               | PBeforeCkptEnd => PROVISIONAL_BEFORE_CKPT_END_MASK
               | PNo => 0
               end in
  let flags := if replicated h then Z.lor flags REPLICATED_MASK else flags in
  let flags := if invisible h then Z.lor flags INVISIBLE_MASK else flags in
  if vlsn_present h then Z.lor flags VLSN_PRESENT_MASK else flags.

Definition header_write (h : LogEntryHeader) : list Z :=
  le_bytes 4 0 ++ [type_num (entry_type h)] ++ [header_flags h] ++ le_bytes 4 0 ++
  le_bytes 4 (item_size h) ++
  (if vlsn_present h then le_bytes 8 (as_u 64 (default NULL_VLSN (vlsn h))) else []).

(** [cursor.write] into a slice, from an offset that is inside it. *)
Definition write_at (off : nat) (bytes buf : list Z) : list Z :=
  take off buf ++ bytes ++ drop (off + length bytes) buf.

Definition add_post_marshalling_info (h : LogEntryHeader) (buf : list Z) (prev : Z) (v : option Z)
    (sum : Z) : LogEntryHeader * list Z :=
  let h := {| checksum := sum; entry_type := entry_type h; version := version h;
              item_size := item_size h; prev_offset := prev; vlsn := v;
              provisional := provisional h; replicated := replicated h;
              invisible := invisible h; vlsn_present := vlsn_present h |} in
  let buf := write_at 6 (le_bytes 4 prev) buf in
  let buf := match v with
             | Some v => if vlsn_present h then write_at 14 (le_bytes 8 (as_u 64 v)) buf else buf
             | None => buf
             end in
  (h, write_at 0 (le_bytes 4 sum) buf).

Definition flag_set (flags mask : Z) : bool := negb (Z.land flags mask =? 0).

Definition header_read (buf : list Z) : result LogEntryHeader NoxuLogError :=
  if (length buf <? 14)%nat then Err UnexpectedEof
  else
      let sum := le_val (take 4 buf) in
      let entry_type_num := le_val (take 1 (drop 4 buf)) in
      let flags := le_val (take 1 (drop 5 buf)) in
      let prev := le_val (take 4 (drop 6 buf)) in
      let size := le_val (take 4 (drop 10 buf)) in
      match from_type_num entry_type_num with
      | None => Err (InvalidEntryType entry_type_num)
      | Some t =>
          if MAX_ITEM_SIZE <? size then Err (InvalidEntrySize (as_i 32 size))
          else
            let p := if flag_set flags PROVISIONAL_ALWAYS_MASK then PYes
                     else if flag_set flags PROVISIONAL_BEFORE_CKPT_END_MASK then PBeforeCkptEnd
                     else PNo in
            let repl := flag_set flags REPLICATED_MASK in
            let present := flag_set flags VLSN_PRESENT_MASK || repl in
            if present && (length buf <? 22)%nat then Err UnexpectedEof
            else
              Ok {| checksum := sum; entry_type := t; version := LOG_VERSION; item_size := size;
                    prev_offset := prev;
                    vlsn := if present then Some (as_i 64 (le_val (take 8 (drop 14 buf)))) else None;
                    provisional := p; replicated := repl;
                    invisible := flag_set flags INVISIBLE_MASK; vlsn_present := present |}
      end.

Definition header_size (h : LogEntryHeader) : Z :=
  if vlsn_present h then MAX_HEADER_SIZE else MIN_HEADER_SIZE.
Definition entry_size (h : LogEntryHeader) : Z := header_size h + item_size h.

(** ** The code: log entries of nodes *)

Record InLogEntry := {
  db_id : Z;
  prev_full_lsn : Z;
  prev_delta_lsn : Z;
  node_data : list Z;
}.

Definition log_size (e : InLogEntry) : Z := 8 + 8 + 8 + (4 + Z.of_nat (length (node_data e))).

Definition write_to_log (e : InLogEntry) : list Z :=
  be_bytes 8 (db_id e) ++ be_bytes 8 (prev_full_lsn e) ++ be_bytes 8 (prev_delta_lsn e) ++
  be_bytes 4 (as_u 32 (Z.of_nat (length (node_data e)))) ++ node_data e.

Definition read_in_entry (buf : list Z) : option (InLogEntry * list Z) :=
  '(id, r) ← read_exact 8 buf;
  '(full, r) ← read_exact 8 r;
  '(delta, r) ← read_exact 8 r;
  '(len, r) ← read_exact 4 r;
  '(nd, r) ← read_len (be_val len) r;
  Some ({| db_id := be_val id; prev_full_lsn := be_val full; prev_delta_lsn := be_val delta;
           node_data := nd |}, r).

(** [None] is the [UnexpectedEof] of [read_u64], [read_u32] and [read_exact];
    what follows the entry is ignored. *)
Definition read_from_log (buf : list Z) : option InLogEntry := fst <$> read_in_entry buf.

(** [BinDeltaLogEntry] has the layout and the code of [InLogEntry]. *)
Record BinDeltaLogEntry := {
  d_db_id : Z;
  d_prev_full_lsn : Z;
  d_prev_delta_lsn : Z;
  delta_data : list Z;
}.

Definition delta_write_to_log (e : BinDeltaLogEntry) : list Z :=
  be_bytes 8 (d_db_id e) ++ be_bytes 8 (d_prev_full_lsn e) ++ be_bytes 8 (d_prev_delta_lsn e) ++
  be_bytes 4 (as_u 32 (Z.of_nat (length (delta_data e)))) ++ delta_data e.

Definition read_delta_entry (buf : list Z) : option (BinDeltaLogEntry * list Z) :=
  '(id, r) ← read_exact 8 buf;
  '(full, r) ← read_exact 8 r;
  '(delta, r) ← read_exact 8 r;
  '(len, r) ← read_exact 4 r;
  '(nd, r) ← read_len (be_val len) r;
  Some ({| d_db_id := be_val id; d_prev_full_lsn := be_val full; d_prev_delta_lsn := be_val delta;
           delta_data := nd |}, r).
Definition delta_read_from_log (buf : list Z) : option BinDeltaLogEntry := fst <$> read_delta_entry buf.

(** ** The code: leaf nodes *)

Module Ln.

Record LnLogEntry := {
  db_id : Z;
  txn_id : option Z;
  abort_lsn : Z;
  abort_known_deleted : bool;
  abort_key : option (list Z);
  abort_data : option (list Z);
  abort_vlsn : Z;
  abort_expiration : Z;
  embedded_ln : bool;
  key : list Z;
  data : option (list Z);
  expiration : Z;
  vlsn : Z;
}.

Definition ABORT_KD_MASK : Z := 0x01.
Definition EMBEDDED_LN_MASK : Z := 0x02.
Definition HAVE_ABORT_KEY_MASK : Z := 0x04.
Definition HAVE_ABORT_DATA_MASK : Z := 0x08.
Definition HAVE_ABORT_VLSN_MASK : Z := 0x10.
Definition HAVE_ABORT_LSN_MASK : Z := 0x20.
Definition HAVE_ABORT_EXPIRATION_MASK : Z := 0x40.
Definition HAVE_EXPIRATION_MASK : Z := 0x80.

Definition set_flag (mask : Z) (val : bool) (bits : Z) : Z := if val then Z.lor bits mask else bits.

Definition is_txn (e : LnLogEntry) : bool := bool_decide (is_Some (txn_id e)).
Definition is_deleted (e : LnLogEntry) : bool := negb (bool_decide (is_Some (data e))).

Definition flags (e : LnLogEntry) : Z :=
  set_flag HAVE_EXPIRATION_MASK (negb (expiration e =? 0))
  (set_flag HAVE_ABORT_EXPIRATION_MASK (negb (abort_expiration e =? 0))
  (set_flag HAVE_ABORT_LSN_MASK (negb (is_null (abort_lsn e)))
  (set_flag HAVE_ABORT_VLSN_MASK (negb (vlsn_is_null (abort_vlsn e)))
  (set_flag HAVE_ABORT_DATA_MASK (bool_decide (is_Some (abort_data e)))
  (set_flag HAVE_ABORT_KEY_MASK (bool_decide (is_Some (abort_key e)))
  (set_flag EMBEDDED_LN_MASK (embedded_ln e)
  (set_flag ABORT_KD_MASK (abort_known_deleted e) 0))))))).

Definition put_slice (l : list Z) : list Z := be_bytes 4 (as_u 32 (Z.of_nat (length l))) ++ l.

Definition opt_size {A} (o : option A) (size : A → Z) : Z := match o with Some x => size x | None => 0 end.

Definition log_size (e : LnLogEntry) : Z :=
  1 + 8 +
  (if is_txn e then (if is_null (abort_lsn e) then 0 else 8) + 8 else 0) +
  opt_size (abort_key e) (λ k, 4 + Z.of_nat (length k)) +
  opt_size (abort_data e) (λ d, 4 + Z.of_nat (length d)) +
  (if vlsn_is_null (abort_vlsn e) then 0 else 8) +
  (if abort_expiration e =? 0 then 0 else 4) +
  (if expiration e =? 0 then 0 else 4) +
  match data e with Some d => 4 + Z.of_nat (length d) | None => 4 end +
  (4 + Z.of_nat (length (key e))).

Definition write_to_log (e : LnLogEntry) : list Z :=
  [flags e] ++ be_bytes 8 (db_id e) ++
  match txn_id e with
  | Some txn =>
      (if is_null (abort_lsn e) then [] else be_bytes 8 (abort_lsn e)) ++ be_bytes 8 (as_u 64 txn)
  | None => []
  end ++
  match abort_key e with Some k => put_slice k | None => [] end ++
  match abort_data e with Some d => put_slice d | None => [] end ++
  (if vlsn_is_null (abort_vlsn e) then [] else be_bytes 8 (as_u 64 (abort_vlsn e))) ++
  (if abort_expiration e =? 0 then [] else be_bytes 4 (as_u 32 (abort_expiration e))) ++
  (if expiration e =? 0 then [] else be_bytes 4 (as_u 32 (expiration e))) ++
  match data e with Some d => put_slice d | None => be_bytes 4 0 end ++
  put_slice (key e).

(** [read_u32_be_at] and [read_slice_at]; [read_u64_be_at] and so on. *)
Definition read_slice (r : list Z) : option (list Z * list Z) :=
  '(len, r) ← read_exact 4 r; read_len (be_val len) r.
Definition read_u64 (r : list Z) : option (Z * list Z) :=
  '(x, r) ← read_exact 8 r; Some (be_val x, r).
Definition read_i64 (r : list Z) : option (Z * list Z) :=
  '(x, r) ← read_exact 8 r; Some (as_i 64 (be_val x), r).
Definition read_i32 (r : list Z) : option (Z * list Z) :=
  '(x, r) ← read_exact 4 r; Some (as_i 32 (be_val x), r).
(** A field that a flag announces. *)
Definition read_if {A} (b : bool) (absent : A) (p : list Z → option (A * list Z)) (r : list Z)
    : option (A * list Z) := if b then p r else Some (absent, r).
Definition read_some {A} (p : list Z → option (A * list Z)) (r : list Z) : option (option A * list Z) :=
  '(x, r) ← p r; Some (Some x, r).

(** [parse_from_slice]; [is_transactional] comes from the entry type. *)
Definition parse_from_slice (is_transactional : bool) (r : list Z) : option (LnLogEntry * list Z) :=
  '(fl, r) ← read_exact 1 r;
  let fl := be_val fl in
  '(id, r) ← read_u64 r;
  '(alsn, r) ← read_if (is_transactional && flag_set fl HAVE_ABORT_LSN_MASK) NULL_LSN read_u64 r;
  '(txn, r) ← read_if is_transactional None (read_some read_i64) r;
  '(akey, r) ← read_if (flag_set fl HAVE_ABORT_KEY_MASK) None (read_some read_slice) r;
  '(adata, r) ← read_if (flag_set fl HAVE_ABORT_DATA_MASK) None (read_some read_slice) r;
  '(avlsn, r) ← read_if (flag_set fl HAVE_ABORT_VLSN_MASK) NULL_VLSN read_i64 r;
  '(aexp, r) ← read_if (flag_set fl HAVE_ABORT_EXPIRATION_MASK) 0 read_i32 r;
  '(exp, r) ← read_if (flag_set fl HAVE_EXPIRATION_MASK) 0 read_i32 r;
  '(d, r) ← read_slice r;
  '(k, r) ← read_slice r;
  Some ({| db_id := id; txn_id := txn; abort_lsn := alsn;
           abort_known_deleted := flag_set fl ABORT_KD_MASK; abort_key := akey; abort_data := adata;
           abort_vlsn := avlsn; abort_expiration := aexp; embedded_ln := flag_set fl EMBEDDED_LN_MASK;
           key := k; data := if bool_decide (d = []) then None else Some d;
           expiration := exp; vlsn := NULL_VLSN |}, r).

Definition read_from_log (is_transactional : bool) (buf : list Z) : option LnLogEntry :=
  fst <$> parse_from_slice is_transactional buf.

End Ln.

(** ** The code: ends of transactions *)

Module TxnEnd.

Inductive TxnEndType := Commit | Abort.

Record TxnEndEntry := {
  end_type : TxnEndType;
  txn_id : Z;
  last_lsn : Z;
  timestamp : Z;
  master_node_id : Z;
  dtvlsn : Z;
}.

Definition log_size (e : TxnEndEntry) : Z := 1 + 8 + 8 + 8 + 4 + 8.

Definition write_to_log (e : TxnEndEntry) : list Z :=
  [match end_type e with Commit => 1 | Abort => 2 end] ++ be_bytes 8 (as_u 64 (txn_id e)) ++
  be_bytes 8 (last_lsn e) ++ be_bytes 8 (timestamp e) ++ be_bytes 4 (as_u 32 (master_node_id e)) ++
  be_bytes 8 (as_u 64 (dtvlsn e)).

Definition read_from_log (r : list Z) : option (TxnEndEntry * list Z) :=
  '(t, r) ← read_exact 1 r;
  '(txn, r) ← Ln.read_i64 r;
  '(lsn, r) ← Ln.read_u64 r;
  '(ts, r) ← Ln.read_u64 r;
  '(master, r) ← Ln.read_i32 r;
  '(v, r) ← Ln.read_i64 r;
  Some ({| end_type := if bool_decide (t = [2]) then Abort else Commit;
           txn_id := txn; last_lsn := lsn; timestamp := ts; master_node_id := master; dtvlsn := v |}, r).

End TxnEnd.

Module TxnPrep.

Record TxnPrepareEntry := {
  txn_id : Z;
  timestamp_ms : Z;
  first_lsn : Z;
  last_lsn : Z;
  xid_format_id : Z;
  xid_gtrid : list Z;
  xid_bqual : list Z;
}.

Inductive TxnPrepareError :=
| Io
| GtridTooLong (len : Z)
| BqualTooLong (len : Z)
| Truncated (needed got : Z).

Definition MAX_GTRID_LEN : Z := 64.
Definition MAX_BQUAL_LEN : Z := 64.

Definition new (txn ts first last fmt : Z) (gtrid bqual : list Z) : result TxnPrepareEntry TxnPrepareError :=
  if MAX_GTRID_LEN <? Z.of_nat (length gtrid) then Err (GtridTooLong (as_u 8 (Z.of_nat (length gtrid))))
  else if MAX_BQUAL_LEN <? Z.of_nat (length bqual) then Err (BqualTooLong (as_u 8 (Z.of_nat (length bqual))))
  else Ok {| txn_id := txn; timestamp_ms := ts; first_lsn := first; last_lsn := last;
             xid_format_id := fmt; xid_gtrid := gtrid; xid_bqual := bqual |}.

Definition log_size (e : TxnPrepareEntry) : Z :=
  8 + 8 + 8 + 8 + 4 + 1 + 1 + Z.of_nat (length (xid_gtrid e)) + Z.of_nat (length (xid_bqual e)).

Definition write_to_log (e : TxnPrepareEntry) : list Z :=
  be_bytes 8 (as_u 64 (txn_id e)) ++ be_bytes 8 (timestamp_ms e) ++ be_bytes 8 (first_lsn e) ++
  be_bytes 8 (last_lsn e) ++ be_bytes 4 (as_u 32 (xid_format_id e)) ++
  [as_u 8 (Z.of_nat (length (xid_gtrid e)))] ++ [as_u 8 (Z.of_nat (length (xid_bqual e)))] ++
  xid_gtrid e ++ xid_bqual e.

(** The fixed fields, with the two lengths. *)
Definition read_fixed (r : list Z) : option ((Z * Z * Z * Z * Z * Z * Z) * list Z) :=
  '(txn, r) ← Ln.read_i64 r;
  '(ts, r) ← Ln.read_u64 r;
  '(first, r) ← Ln.read_u64 r;
  '(last, r) ← Ln.read_u64 r;
  '(fmt, r) ← Ln.read_i32 r;
  '(gl, r) ← read_exact 1 r;
  '(bl, r) ← read_exact 1 r;
  Some ((txn, ts, first, last, fmt, as_u 8 (be_val gl), as_u 8 (be_val bl)), r).

Definition read_from_log (r : list Z) : result (TxnPrepareEntry * list Z) TxnPrepareError :=
  match read_fixed r with
  | None => Err Io
  | Some ((txn, ts, first, last, fmt, gl, bl), r) =>
      if MAX_GTRID_LEN <? gl then Err (GtridTooLong gl)
      else if MAX_BQUAL_LEN <? bl then Err (BqualTooLong bl)
      else if Z.of_nat (length r) <? gl + bl then Err (Truncated (gl + bl) (Z.of_nat (length r)))
      else
        let g := Z.to_nat gl in
        let b := Z.to_nat bl in
        Ok ({| txn_id := txn; timestamp_ms := ts; first_lsn := first; last_lsn := last;
               xid_format_id := fmt; xid_gtrid := take g r; xid_bqual := take b (drop g r) |},
            drop (g + b) r)
  end.

End TxnPrep.

(** ** The code: replication and rollback *)

Module Rollback.

Record RollbackStartEntry := {
  matchpoint_vlsn : Z;
  matchpoint_lsn : Z;
  active_txn_ids : list Z;
}.

(** [sort_unstable] and [dedup]. *)
Fixpoint insert_id (x : Z) (l : list Z) : list Z :=
  match l with
  | [] => [x]
  | y :: l' => if x <=? y then x :: l else y :: insert_id x l'
  end.
Definition sort_ids (l : list Z) : list Z := foldr insert_id [] l.
Fixpoint dedup (l : list Z) : list Z :=
  match l with
  | [] => []
  | x :: l' => match l' with
               | y :: _ => if x =? y then dedup l' else x :: dedup l'
               | [] => [x]
               end
  end.

Definition start_new (v lsn : Z) (ids : list Z) : RollbackStartEntry :=
  {| matchpoint_vlsn := v; matchpoint_lsn := lsn; active_txn_ids := dedup (sort_ids ids) |}.

Definition start_log_size (e : RollbackStartEntry) : Z :=
  8 + 8 + 4 + 8 * Z.of_nat (length (active_txn_ids e)).

Definition start_write (e : RollbackStartEntry) : list Z :=
  be_bytes 8 (as_u 64 (matchpoint_vlsn e)) ++ be_bytes 8 (matchpoint_lsn e) ++
  be_bytes 4 (as_u 32 (Z.of_nat (length (active_txn_ids e)))) ++
  concat ((λ id, be_bytes 8 (as_u 64 id)) <$> active_txn_ids e).

Definition start_read (r : list Z) : option (RollbackStartEntry * list Z) :=
  '(v, r) ← Ln.read_i64 r;
  '(lsn, r) ← Ln.read_u64 r;
  '(count, r) ← read_exact 4 r;
  '(ids, r) ← parse_slots Ln.read_i64 (S (length r)) (be_val count) r;
  Some ({| matchpoint_vlsn := v; matchpoint_lsn := lsn; active_txn_ids := ids |}, r).

(** [RollbackEndEntry]: matchpoint and start of the rollback. *)
Record RollbackEndEntry := { end_matchpoint_lsn : Z; rollback_start_lsn : Z }.
Definition end_write (e : RollbackEndEntry) : list Z :=
  be_bytes 8 (end_matchpoint_lsn e) ++ be_bytes 8 (rollback_start_lsn e).
Definition end_read (r : list Z) : option (RollbackEndEntry * list Z) :=
  '(m, r) ← Ln.read_u64 r; '(s, r) ← Ln.read_u64 r;
  Some ({| end_matchpoint_lsn := m; rollback_start_lsn := s |}, r).

Record MatchpointEntry := { mp_lsn : Z; mp_vlsn : Z }.
Definition matchpoint_write (e : MatchpointEntry) : list Z :=
  be_bytes 8 (mp_lsn e) ++ be_bytes 8 (as_u 64 (mp_vlsn e)).
Definition matchpoint_read (r : list Z) : option (MatchpointEntry * list Z) :=
  '(l, r) ← Ln.read_u64 r; '(v, r) ← Ln.read_i64 r; Some ({| mp_lsn := l; mp_vlsn := v |}, r).

End Rollback.

(** * Theorems *)

(** ** Codecs *)

(** What the readers of the log ask of the body of an entry. *)
Class Codec {A : Type} (write : A → list Z) (read : list Z → option (A * list Z)) (sz : A → Z)
    (ok : A → Prop) : Prop := {
  codec_roundtrip e r : ok e → read (write e ++ r) = Some (e, r);
  codec_size e : ok e → Z.of_nat (length (write e)) = sz e;
  codec_local : local read;
}.

(** A body that was cut short is not read. *)
Lemma codec_truncated {A} (write : A → list Z) (read : list Z → option (A * list Z)) sz ok
    `{!Codec write read sz ok} e n :
  ok e → (n < length (write e))%nat → read (take n (write e)) = None.
Proof.
  intros He Hn. apply (local_truncated read _ e); [by eapply codec_local| |done].
  rewrite <-(app_nil_r (write e)). by eapply codec_roundtrip.
Qed.

Lemma as_i_be w n x : 0 < w → 2 ^ w = 256 ^ Z.of_nat n → in_i w x → as_i w (be_val (be_bytes n (as_u w x))) = x.
Proof.
  intros Hw Hp Hx. rewrite (be_val_u w n) by (try done; apply Z.mod_pos_bound; lia).
  rewrite as_i_as_u by done. by apply as_i_id.
Qed.

Lemma read_i64_app x r : in_i 64 x → Ln.read_i64 (be_bytes 8 (as_u 64 x) ++ r) = Some (x, r).
Proof. intros. unfold Ln.read_i64. rewrite read_be. cbn [mbind option_bind]. by rewrite as_i_be. Qed.

Lemma read_i32_app x r : in_i 32 x → Ln.read_i32 (be_bytes 4 (as_u 32 x) ++ r) = Some (x, r).
Proof. intros. unfold Ln.read_i32. rewrite read_be. cbn [mbind option_bind]. by rewrite as_i_be. Qed.

Lemma read_u64_app x r : in_u 64 x → Ln.read_u64 (be_bytes 8 x ++ r) = Some (x, r).
Proof. intros. unfold Ln.read_u64. rewrite read_be. cbn [mbind option_bind]. by rewrite (be_val_u 64). Qed.

Lemma read_slice_app l r : Z.of_nat (length l) < 2 ^ 32 → Ln.read_slice (Ln.put_slice l ++ r) = Some (l, r).
Proof.
  intros Hl. unfold Ln.read_slice, Ln.put_slice. rewrite <-app_assoc, read_be. cbn [mbind option_bind].
  apply read_len_app, (be_val_as_u 32); [done|split; lia].
Qed.

Lemma read_if_app {A} (b : bool) (absent x : A) p w r :
  (b = true → p (w ++ r) = Some (x, r)) → (b = false → w = [] ∧ x = absent) →
  Ln.read_if b absent p (w ++ r) = Some (x, r).
Proof. intros H1 H2. unfold Ln.read_if. destruct b; [by apply H1|]. by destruct (H2 eq_refl) as [-> ->]. Qed.

(** Steps through the fields of a reader. *)
Ltac read_field :=
  rewrite <-?app_assoc;
  first [rewrite read_i64_app by done | rewrite read_u64_app by done | rewrite read_i32_app by done
        | rewrite read_slice_app by done | rewrite read_be | cbn [app]; rewrite read_byte];
  cbn [mbind option_bind].

Lemma local_read_i64 : local Ln.read_i64.
Proof. apply (local_bind (read_exact 8)); [auto with noxu|]. intros x. apply local_ret. Qed.
Lemma local_read_u64 : local Ln.read_u64.
Proof. apply (local_bind (read_exact 8)); [auto with noxu|]. intros x. apply local_ret. Qed.
Lemma local_read_i32 : local Ln.read_i32.
Proof. apply (local_bind (read_exact 4)); [auto with noxu|]. intros x. apply local_ret. Qed.
Lemma local_read_slice : local Ln.read_slice.
Proof. apply (local_bind (read_exact 4)); [auto with noxu|]. intros x. auto with noxu. Qed.
Lemma local_read_some {A} (p : list Z → option (A * list Z)) : local p → local (Ln.read_some p).
Proof. intros Hp. apply (local_bind p); [done|]. intros x. apply local_ret. Qed.
Lemma local_read_if {A} b (absent : A) p : local p → local (Ln.read_if b absent p).
Proof. intros Hp. unfold Ln.read_if. destruct b; [done|]. apply local_ret. Qed.
#[export] Hint Resolve local_read_i64 local_read_u64 local_read_i32 local_read_slice local_read_some
  local_read_if : noxu.

(** A reader that is a sequence of local readers. *)
Ltac local_fields :=
  repeat lazymatch goal with
  | |- local (λ r, mbind _ (?p r)) => apply (local_bind p); [solve [auto with noxu]|intros ?]
  | |- local (λ r, Some (_, r)) => apply local_ret
  | |- local ?p => unfold p
  end.

#[export] Instance txn_end_codec :
  Codec TxnEnd.write_to_log TxnEnd.read_from_log TxnEnd.log_size
    (λ e, in_i 64 (TxnEnd.txn_id e) ∧ in_u 64 (TxnEnd.last_lsn e) ∧ in_u 64 (TxnEnd.timestamp e) ∧
          in_i 32 (TxnEnd.master_node_id e) ∧ in_i 64 (TxnEnd.dtvlsn e)).
Proof.
  split.
  - intros e r (H1 & H2 & H3 & H4 & H5). unfold TxnEnd.read_from_log, TxnEnd.write_to_log.
    repeat read_field. by destruct e as [[]].
  - intros e _. unfold TxnEnd.write_to_log. by rewrite !length_app, !length_be_bytes.
  - local_fields.
Qed.

(** The flags of a leaf node: each is read back. *)
Lemma ln_flags_read (kd emb akey adata avlsn alsn aexp exp : bool) :
  let fl := Ln.set_flag Ln.HAVE_EXPIRATION_MASK exp
    (Ln.set_flag Ln.HAVE_ABORT_EXPIRATION_MASK aexp
    (Ln.set_flag Ln.HAVE_ABORT_LSN_MASK alsn
    (Ln.set_flag Ln.HAVE_ABORT_VLSN_MASK avlsn
    (Ln.set_flag Ln.HAVE_ABORT_DATA_MASK adata
    (Ln.set_flag Ln.HAVE_ABORT_KEY_MASK akey
    (Ln.set_flag Ln.EMBEDDED_LN_MASK emb
    (Ln.set_flag Ln.ABORT_KD_MASK kd 0))))))) in
  flag_set fl <$> [Ln.ABORT_KD_MASK; Ln.EMBEDDED_LN_MASK; Ln.HAVE_ABORT_KEY_MASK;
    Ln.HAVE_ABORT_DATA_MASK; Ln.HAVE_ABORT_VLSN_MASK; Ln.HAVE_ABORT_LSN_MASK;
    Ln.HAVE_ABORT_EXPIRATION_MASK; Ln.HAVE_EXPIRATION_MASK] =
  [kd; emb; akey; adata; avlsn; alsn; aexp; exp].
Proof. by destruct kd, emb, akey, adata, avlsn, alsn, aexp, exp. Qed.

Definition ln_ok (txnal : bool) (e : Ln.LnLogEntry) : Prop :=
  txnal = Ln.is_txn e ∧ in_u 64 (Ln.db_id e) ∧
  (∀ t, Ln.txn_id e = Some t → in_i 64 t) ∧
  in_u 64 (Ln.abort_lsn e) ∧ (Ln.txn_id e = None → Ln.abort_lsn e = NULL_LSN) ∧
  (∀ k, Ln.abort_key e = Some k → Z.of_nat (length k) < 2 ^ 32) ∧
  (∀ d, Ln.abort_data e = Some d → Z.of_nat (length d) < 2 ^ 32) ∧
  in_i 64 (Ln.abort_vlsn e) ∧ in_i 32 (Ln.abort_expiration e) ∧ in_i 32 (Ln.expiration e) ∧
  Z.of_nat (length (Ln.key e)) < 2 ^ 32 ∧
  (∀ d, Ln.data e = Some d → d ≠ [] ∧ Z.of_nat (length d) < 2 ^ 32) ∧
  Ln.vlsn e = NULL_VLSN.

Lemma read_some_app {A} (p : list Z → option (A * list Z)) x w r :
  p (w ++ r) = Some (x, r) → Ln.read_some p (w ++ r) = Some (Some x, r).
Proof. intros H. unfold Ln.read_some. by rewrite H. Qed.

(** The optional fields of a leaf node. *)
Lemma read_opt_slice o r :
  (∀ l, o = Some l → Z.of_nat (length l) < 2 ^ 32) →
  Ln.read_if (bool_decide (is_Some o)) None (Ln.read_some Ln.read_slice)
    (match o with Some l => Ln.put_slice l | None => [] end ++ r) = Some (o, r).
Proof.
  intros Ho. destruct o as [l|]; [|done]. unfold Ln.read_if. rewrite bool_decide_true by done.
  apply read_some_app, read_slice_app. auto.
Qed.

Lemma read_opt_vlsn v r :
  in_i 64 v →
  Ln.read_if (negb (vlsn_is_null v)) NULL_VLSN Ln.read_i64
    ((if vlsn_is_null v then [] else be_bytes 8 (as_u 64 v)) ++ r) = Some (v, r).
Proof.
  intros Hv. unfold vlsn_is_null, Ln.read_if. destruct (v =? NULL_VLSN) eqn:E; simpl;
    [by reflect_bools; subst|by apply read_i64_app].
Qed.

Lemma read_opt_i32 x r :
  in_i 32 x →
  Ln.read_if (negb (x =? 0)) 0 Ln.read_i32 ((if x =? 0 then [] else be_bytes 4 (as_u 32 x)) ++ r) = Some (x, r).
Proof.
  intros Hx. unfold Ln.read_if. destruct (x =? 0) eqn:E; simpl; [by reflect_bools; subst|by apply read_i32_app].
Qed.

Lemma read_txn_fields txn alsn r :
  (∀ t, txn = Some t → in_i 64 t) → in_u 64 alsn → (txn = None → alsn = NULL_LSN) →
  ('(l, r0) ← Ln.read_if (bool_decide (is_Some txn) && negb (is_null alsn)) NULL_LSN Ln.read_u64
     (match txn with
      | Some t => (if is_null alsn then [] else be_bytes 8 alsn) ++ be_bytes 8 (as_u 64 t)
      | None => []
      end ++ r);
   '(t, r0) ← Ln.read_if (bool_decide (is_Some txn)) None (Ln.read_some Ln.read_i64) r0;
   Some (l, t, r0)) = Some (alsn, txn, r).
Proof.
  intros H1 H2 H3. destruct txn as [t|]; [|by rewrite (H3 eq_refl)].
  rewrite <-app_assoc, !bool_decide_true by done. cbn [andb]. rewrite (read_if_app _ NULL_LSN alsn).
  - cbn [mbind option_bind]. unfold Ln.read_if. by rewrite (read_some_app _ t) by (apply read_i64_app; auto).
  - unfold is_null. destruct (alsn =? NULL_LSN); [done|]. intros _. by apply read_u64_app.
  - unfold is_null. destruct (alsn =? NULL_LSN) eqn:En; [|done]. intros _. by reflect_bools.
Qed.

Lemma ln_roundtrip txnal e r :
  ln_ok txnal e → Ln.parse_from_slice txnal (Ln.write_to_log e ++ r) = Some (e, r).
Proof.
  intros (-> & H1 & H2 & H3 & H4 & H5 & H6 & H7 & H8 & H9 & H10 & H11 & H12).
  unfold Ln.parse_from_slice, Ln.write_to_log. rewrite <-!app_assoc. cbn [app]. rewrite read_byte.
  cbn [mbind option_bind]. replace (be_val [Ln.flags e]) with (Ln.flags e) by (unfold be_val; simpl; lia).
  pose proof (ln_flags_read (Ln.abort_known_deleted e) (Ln.embedded_ln e)
    (bool_decide (is_Some (Ln.abort_key e))) (bool_decide (is_Some (Ln.abort_data e)))
    (negb (vlsn_is_null (Ln.abort_vlsn e))) (negb (is_null (Ln.abort_lsn e)))
    (negb (Ln.abort_expiration e =? 0)) (negb (Ln.expiration e =? 0))) as Hfl.
  cbn zeta in Hfl. fold (Ln.flags e) in Hfl. injection Hfl as F1 F2 F3 F4 F5 F6 F7 F8.
  rewrite F1, F2, F3, F4, F5, F6, F7, F8. clear F1 F2 F3 F4 F5 F6 F7 F8.
  rewrite read_u64_app by done. cbn [mbind option_bind]. unfold Ln.is_txn.
  match goal with |- context [match Ln.txn_id e with Some _ => _ | None => _ end ++ ?rest] =>
    pose proof (read_txn_fields (Ln.txn_id e) (Ln.abort_lsn e) rest H2 H3 H4) as Htxn end.
  destruct (Ln.read_if (_ && _) _ _ _) as [[alsn r1]|]; [|done]. cbn [mbind option_bind] in Htxn |- *.
  destruct (Ln.read_if (bool_decide (is_Some (Ln.txn_id e))) _ _ r1) as [[txn r2]|]; [|done].
  cbn [mbind option_bind] in Htxn |- *.
  apply (inj Some) in Htxn. apply (inj2 pair) in Htxn as [[-> ->]%(inj2 pair) ->]. clear r1.
  rewrite read_opt_slice by done. cbn [mbind option_bind]. rewrite read_opt_slice by done.
  cbn [mbind option_bind]. rewrite read_opt_vlsn by done. cbn [mbind option_bind].
  rewrite read_opt_i32 by done. cbn [mbind option_bind]. rewrite read_opt_i32 by done. cbn [mbind option_bind].
  replace (match Ln.data e with Some d => Ln.put_slice d | None => be_bytes 4 0 end)
    with (Ln.put_slice (default [] (Ln.data e))) by (by destruct (Ln.data e)).
  rewrite read_slice_app by (destruct (Ln.data e) eqn:E; [by apply H11|done]). cbn [mbind option_bind].
  rewrite read_slice_app by done. cbn [mbind option_bind]. f_equal. f_equal.
  destruct e as [f1 f2 f3 f4 f5 f6 f7 f8 f9 f10 f11 f12 f13]. simpl in *. subst f13. f_equal.
  destruct f11 as [d|]; [|done]. simpl. destruct (H11 d eq_refl) as [Hd _]. by rewrite bool_decide_false.
Qed.

Lemma length_put_slice l : Z.of_nat (length (Ln.put_slice l)) = 4 + Z.of_nat (length l).
Proof. unfold Ln.put_slice. rewrite length_app, length_be_bytes. lia. Qed.

#[export] Instance ln_codec txnal :
  Codec Ln.write_to_log (Ln.parse_from_slice txnal) Ln.log_size (ln_ok txnal).
Proof.
  split.
  - intros e r He. by apply ln_roundtrip.
  - intros e _. unfold Ln.write_to_log, Ln.log_size, Ln.is_txn, Ln.opt_size.
    rewrite !length_app, !Nat2Z.inj_add. rewrite length_put_slice, length_be_bytes. simpl length.
    assert (∀ (c : bool) (l : list Z), Z.of_nat (length (if c then [] else l)) = if c then 0 else Z.of_nat (length l))
      as Hif by (by intros []).
    rewrite !Hif, !length_be_bytes.
    destruct (Ln.txn_id e); rewrite ?length_app, ?Nat2Z.inj_add, ?Hif, ?length_be_bytes; simpl;
    destruct (Ln.abort_key e), (Ln.abort_data e), (Ln.data e);
      rewrite ?length_put_slice, ?length_be_bytes; simpl; destruct (is_null (Ln.abort_lsn e)); simpl; change (Z.of_nat 8) with 8; change (Z.of_nat 4) with 4; lia.
  - unfold Ln.parse_from_slice. local_fields.
Qed.

(** [InLogEntry] and [BinDeltaLogEntry]: fields in range, at most 4 GB. *)
Definition entry_fits (e : InLogEntry) : Prop :=
  in_u 64 (db_id e) ∧ in_u 64 (prev_full_lsn e) ∧ in_u 64 (prev_delta_lsn e) ∧
  Z.of_nat (length (node_data e)) < 2 ^ 32.

#[export] Instance in_codec : Codec write_to_log read_in_entry log_size entry_fits.
Proof.
  split.
  - intros e r (H1 & H2 & H3 & H4). unfold read_in_entry, write_to_log. repeat read_field.
    rewrite (read_len_app (node_data e)) by (apply (be_val_as_u 32); [done|split; lia]).
    cbn [mbind option_bind]. rewrite !(be_val_u 64) by done. by destruct e.
  - intros e _. unfold write_to_log, log_size. rewrite !length_app, !length_be_bytes. lia.
  - local_fields.
Qed.

Lemma read_write_entry e r : entry_fits e → read_from_log (write_to_log e ++ r) = Some e.
Proof. intros He. unfold read_from_log. by rewrite (codec_roundtrip (Codec := in_codec) e r He). Qed.

(** A delta entry is read as an IN entry by the re-fetch. *)
Definition as_in_entry (e : BinDeltaLogEntry) : InLogEntry :=
  {| db_id := d_db_id e; prev_full_lsn := d_prev_full_lsn e; prev_delta_lsn := d_prev_delta_lsn e;
     node_data := delta_data e |}.

Lemma delta_write_as_in e : delta_write_to_log e = write_to_log (as_in_entry e).
Proof. done. Qed.

#[export] Instance delta_codec :
  Codec delta_write_to_log read_delta_entry (λ e, log_size (as_in_entry e)) (λ e, entry_fits (as_in_entry e)).
Proof.
  split.
  - intros e r (H1 & H2 & H3 & H4). unfold read_delta_entry, delta_write_to_log. repeat read_field.
    rewrite (read_len_app (delta_data e)) by (apply (be_val_as_u 32); [done|split; simpl in *; lia]).
    cbn [mbind option_bind]. simpl in *. rewrite !(be_val_u 64) by done. by destruct e.
  - intros e He. rewrite delta_write_as_in. by apply (codec_size (Codec := in_codec)).
  - local_fields.
Qed.

(** A prepare record, as an option. *)
Definition read_prepare (r : list Z) : option (TxnPrep.TxnPrepareEntry * list Z) :=
  match TxnPrep.read_from_log r with Ok x => Some x | Err _ => None end.

Definition prepare_ok (e : TxnPrep.TxnPrepareEntry) : Prop :=
  in_i 64 (TxnPrep.txn_id e) ∧ in_u 64 (TxnPrep.timestamp_ms e) ∧ in_u 64 (TxnPrep.first_lsn e) ∧
  in_u 64 (TxnPrep.last_lsn e) ∧ in_i 32 (TxnPrep.xid_format_id e) ∧
  (length (TxnPrep.xid_gtrid e) ≤ 64)%nat ∧ (length (TxnPrep.xid_bqual e) ≤ 64)%nat.

Lemma local_read_fixed : local TxnPrep.read_fixed.
Proof. local_fields. Qed.

Lemma read_fixed_lengths r txn ts fi la fmt gl bl r' :
  TxnPrep.read_fixed r = Some ((txn, ts, fi, la, fmt, gl, bl), r') → 0 ≤ gl ∧ 0 ≤ bl.
Proof.
  unfold TxnPrep.read_fixed. intros H.
  repeat match type of H with
  | (mbind _ ?o) = _ => destruct o as [[? ?]|]; [cbn [mbind option_bind] in H|done]
  end.
  injection H as <- <- <- <- <- <- <- <-. split; apply Z.mod_pos_bound; lia.
Qed.

Lemma be_val_byte x : be_val [x] = x.
Proof. unfold be_val. simpl. lia. Qed.

#[export] Instance prepare_codec : Codec TxnPrep.write_to_log read_prepare TxnPrep.log_size prepare_ok.
Proof.
  split.
  - intros e r (H1 & H2 & H3 & H4 & H5 & H6 & H7).
    unfold read_prepare, TxnPrep.read_from_log, TxnPrep.write_to_log.
    assert (TxnPrep.read_fixed (TxnPrep.write_to_log e ++ r) =
      Some ((TxnPrep.txn_id e, TxnPrep.timestamp_ms e, TxnPrep.first_lsn e, TxnPrep.last_lsn e,
             TxnPrep.xid_format_id e, Z.of_nat (length (TxnPrep.xid_gtrid e)),
             Z.of_nat (length (TxnPrep.xid_bqual e))),
            TxnPrep.xid_gtrid e ++ TxnPrep.xid_bqual e ++ r)) as Hf.
    { unfold TxnPrep.read_fixed, TxnPrep.write_to_log. repeat read_field.
      rewrite !be_val_byte. drop_wraps. done. }
    unfold TxnPrep.write_to_log in Hf. rewrite Hf. unfold TxnPrep.MAX_GTRID_LEN, TxnPrep.MAX_BQUAL_LEN.
    rewrite !(proj2 (Z.ltb_ge _ _)) by (rewrite ?length_app; lia). rewrite !Nat2Z.id.
    rewrite drop_app_length, !take_app_length.
    rewrite app_assoc, drop_app_length' by (by rewrite length_app). by destruct e.
  - intros e _. unfold TxnPrep.write_to_log, TxnPrep.log_size. rewrite !length_app, !length_be_bytes. simpl. lia.
  - intros r x r' H. unfold read_prepare, TxnPrep.read_from_log in *.
    destruct (TxnPrep.read_fixed r) as [[[[[[[[txn ts] fi] la] fmt] gl] bl] r1]|] eqn:E; [|done].
    pose proof (read_fixed_lengths _ _ _ _ _ _ _ _ _ E) as [Hg Hb].
    apply local_read_fixed in E as (w & -> & Hw).
    destruct (TxnPrep.MAX_GTRID_LEN <? gl) eqn:E1; [done|]. destruct (TxnPrep.MAX_BQUAL_LEN <? bl) eqn:E2; [done|].
    destruct (Z.of_nat (length r1) <? gl + bl) eqn:E3; [done|]. injection H as <- <-. reflect_bools.
    set (g := Z.to_nat gl) in *. set (b := Z.to_nat bl) in *.
    exists (w ++ take (g + b) r1). split; [by rewrite <-app_assoc, take_drop|]. intros r2.
    assert (length (take (g + b) r1) = g + b)%nat as Hl by (rewrite length_take; lia).
    rewrite <-app_assoc, Hw, (proj2 (Z.ltb_ge _ _) E1), (proj2 (Z.ltb_ge _ _) E2).
    rewrite (proj2 (Z.ltb_ge _ _)) by (rewrite length_app, Hl; lia). fold g b.
    rewrite (drop_app_length' (take (g + b) r1) r2 (g + b)) by done. f_equal. f_equal. f_equal.
    + rewrite take_app_le by lia. rewrite take_take. f_equal. lia.
    + rewrite drop_app_le by lia. rewrite take_app_le by (rewrite length_drop; lia).
      rewrite <-take_drop_commute, take_take. f_equal. lia.
Qed.

(** Records of replication. *)
Lemma length_concat_same {A B} (f : A → list B) k xs :
  (∀ x, length (f x) = k) → length (concat (f <$> xs)) = (k * length xs)%nat.
Proof.
  intros Hf. induction xs as [|x xs IH]; [simpl; lia|]. cbn [fmap list_fmap concat length].
  rewrite length_app, Hf. simpl in IH. rewrite IH. lia.
Qed.

Definition rollback_start_ok (e : Rollback.RollbackStartEntry) : Prop :=
  in_i 64 (Rollback.matchpoint_vlsn e) ∧ in_u 64 (Rollback.matchpoint_lsn e) ∧
  Forall (in_i 64) (Rollback.active_txn_ids e) ∧ Z.of_nat (length (Rollback.active_txn_ids e)) < 2 ^ 32.

#[export] Instance rollback_start_codec :
  Codec Rollback.start_write Rollback.start_read Rollback.start_log_size rollback_start_ok.
Proof.
  split.
  - intros e r (H1 & H2 & H3 & H4). unfold Rollback.start_read, Rollback.start_write.
    read_field. read_field. rewrite <-?app_assoc, read_be. cbn [mbind option_bind].
    rewrite (be_val_as_u 32) by (try done; split; lia).
    rewrite parse_slots_concat.
    + by destruct e.
    + apply Forall2_fmap_l. clear H4. induction H3; constructor; [intros r'; by apply read_i64_app|done].
    + rewrite length_app, (length_concat_same _ 8) by (intros; apply length_be_bytes). lia.
  - intros e _. unfold Rollback.start_write, Rollback.start_log_size.
    rewrite !length_app, !length_be_bytes, (length_concat_same _ 8) by (intros; apply length_be_bytes). lia.
  - unfold Rollback.start_read.
    apply (local_bind Ln.read_i64); [auto with noxu|intros v].
    apply (local_bind Ln.read_u64); [auto with noxu|intros l].
    apply (local_bind (read_exact 4)); [auto with noxu|intros c].
    apply (local_bind (λ r, parse_slots Ln.read_i64 (S (length r)) (be_val c) r)).
    + by apply local_parse_bytes; [auto with noxu|].
    + intros ids. apply local_ret.
Qed.

#[export] Instance rollback_end_codec :
  Codec Rollback.end_write Rollback.end_read (λ _, 16)
    (λ e, in_u 64 (Rollback.end_matchpoint_lsn e) ∧ in_u 64 (Rollback.rollback_start_lsn e)).
Proof.
  split.
  - intros e r (H1 & H2). unfold Rollback.end_read, Rollback.end_write. repeat read_field. by destruct e.
  - intros e _. unfold Rollback.end_write. by rewrite !length_app, !length_be_bytes.
  - local_fields.
Qed.

#[export] Instance matchpoint_codec :
  Codec Rollback.matchpoint_write Rollback.matchpoint_read (λ _, 16)
    (λ e, in_u 64 (Rollback.mp_lsn e) ∧ in_i 64 (Rollback.mp_vlsn e)).
Proof.
  split.
  - intros e r (H1 & H2). unfold Rollback.matchpoint_read, Rollback.matchpoint_write.
    repeat read_field. by destruct e.
  - intros e _. unfold Rollback.matchpoint_write. by rewrite !length_app, !length_be_bytes.
  - local_fields.
Qed.

(** ** Headers *)

Definition header_ok (h : LogEntryHeader) : Prop :=
  version h = LOG_VERSION ∧ 0 ≤ item_size h ≤ MAX_ITEM_SIZE ∧
  (replicated h = true → vlsn_present h = true) ∧ (∀ v, vlsn h = Some v → in_i 64 v).

Lemma header_new_ok t size p repl v :
  0 ≤ size ≤ MAX_ITEM_SIZE → (∀ x, v = Some x → in_i 64 x) → header_ok (header_new t size p repl v).
Proof. intros Hs Hv. split_and!; simpl; auto; try lia. intros ->. by rewrite orb_true_r. Qed.

(** The bytes of a header with its fields, before an item. *)
Definition header_bytes (h : LogEntryHeader) (sum prev v : Z) (item : list Z) : list Z :=
  le_bytes 4 sum ++ [type_num (entry_type h)] ++ [header_flags h] ++ le_bytes 4 prev ++
  le_bytes 4 (item_size h) ++ (if vlsn_present h then le_bytes 8 (as_u 64 v) else []) ++ item.

(** The VLSN that is on disk: the one assigned last. *)
Definition assigned_vlsn (h : LogEntryHeader) (v : option Z) : Z := default (default NULL_VLSN (vlsn h)) v.

Lemma write_at_app off new l1 old l2 :
  length l1 = off → length old = length new → write_at off new (l1 ++ old ++ l2) = l1 ++ new ++ l2.
Proof.
  intros <- Hl. unfold write_at. rewrite take_app_length. f_equal. f_equal.
  rewrite app_assoc, drop_app_length'; [done|]. rewrite length_app. lia.
Qed.

Lemma add_post_marshalling_bytes h item prev v sum :
  snd (add_post_marshalling_info h (header_write h ++ item) prev v sum) =
  header_bytes h sum prev (assigned_vlsn h v) item.
Proof.
  unfold add_post_marshalling_info. cbn [snd]. unfold header_write. rewrite <-!app_assoc. cbn [vlsn_present].
  set (vl := if vlsn_present h then _ else []).
  set (kind := [type_num (entry_type h)] ++ [header_flags h]).
  assert (∀ l, write_at 6 (le_bytes 4 prev)
     (le_bytes 4 0 ++ [type_num (entry_type h)] ++ [header_flags h] ++ le_bytes 4 0 ++ l) =
     le_bytes 4 0 ++ [type_num (entry_type h)] ++ [header_flags h] ++ le_bytes 4 prev ++ l) as Hp.
  { intros l. exact (write_at_app 6 (le_bytes 4 prev) (le_bytes 4 0 ++ kind) (le_bytes 4 0) l eq_refl eq_refl). }
  rewrite Hp. unfold header_bytes, assigned_vlsn.
  assert (∀ x l, write_at 14 (le_bytes 8 x)
     (le_bytes 4 0 ++ [type_num (entry_type h)] ++ [header_flags h] ++ le_bytes 4 prev ++
      le_bytes 4 (item_size h) ++ le_bytes 8 l ++ item) =
     le_bytes 4 0 ++ [type_num (entry_type h)] ++ [header_flags h] ++ le_bytes 4 prev ++
      le_bytes 4 (item_size h) ++ le_bytes 8 x ++ item) as Hv.
  { intros x l. exact (write_at_app 14 (le_bytes 8 x)
      (le_bytes 4 0 ++ kind ++ le_bytes 4 prev ++ le_bytes 4 (item_size h)) (le_bytes 8 l) item eq_refl eq_refl). }
  destruct v as [v|]; cbn [default option_rect]; unfold vl; destruct (vlsn_present h);
    rewrite ?Hv; apply (write_at_app 0 (le_bytes 4 sum) [] (le_bytes 4 0)); done.
Qed.

Lemma from_type_num_type t : from_type_num (type_num t) = Some t.
Proof. by destruct t. Qed.

Lemma le_val_byte x : le_val [x] = x.
Proof. simpl. lia. Qed.

Lemma header_flags_read h :
  flag_set (header_flags h) <$> [PROVISIONAL_ALWAYS_MASK; PROVISIONAL_BEFORE_CKPT_END_MASK; REPLICATED_MASK;
    INVISIBLE_MASK; VLSN_PRESENT_MASK] =
  [match provisional h with PYes => true | _ => false end;
   match provisional h with PBeforeCkptEnd => true | _ => false end;
   replicated h; invisible h; vlsn_present h].
Proof. unfold header_flags. by destruct (provisional h), (replicated h), (invisible h), (vlsn_present h). Qed.

(** The header that is read back. *)
Definition stored (h : LogEntryHeader) (sum prev v : Z) : LogEntryHeader :=
  {| checksum := sum; entry_type := entry_type h; version := LOG_VERSION; item_size := item_size h;
     prev_offset := prev; vlsn := if vlsn_present h then Some v else None; provisional := provisional h;
     replicated := replicated h; invisible := invisible h; vlsn_present := vlsn_present h |}.

Lemma length_header_bytes h sum prev v item :
  Z.of_nat (length (header_bytes h sum prev v item)) = header_size h + Z.of_nat (length item).
Proof.
  unfold header_bytes, header_size, MAX_HEADER_SIZE, MIN_HEADER_SIZE, VLSN_LOG_SIZE.
  rewrite !length_app, !length_le_bytes. destruct (vlsn_present h); cbn [length]; rewrite ?length_le_bytes; lia.
Qed.

(** Reading a header of which a suffix may be missing. *)
Lemma header_read_prefix h sum prev v item n :
  header_ok h → in_u 32 sum → in_u 32 prev → in_i 64 v →
  header_read (take n (header_bytes h sum prev v item)) =
  if bool_decide (Z.of_nat n < header_size h) then Err UnexpectedEof else Ok (stored h sum prev v).
Proof.
  intros (Hver & Hsz & Hrep & _) Hsum Hprev Hv. set (buf := header_bytes h sum prev v item).
  pose proof (length_header_bytes h sum prev v item) as Hlen. fold buf in Hlen.
  assert (MIN_HEADER_SIZE ≤ header_size h) as Hmin by (unfold header_size; by destruct (vlsn_present h)).
  unfold MIN_HEADER_SIZE in Hmin. unfold header_read.
  destruct (length (take n buf) <? 14)%nat eqn:E1; reflect_bools; rewrite length_take in E1.
  { rewrite bool_decide_true; [done|lia]. }
  assert (14 ≤ n)%nat as Hn by lia.
  assert (∀ k off, (off + k ≤ 14)%nat → take k (drop off (take n buf)) = take k (drop off buf)) as Hcut.
  { intros k off Hk. rewrite skipn_firstn_comm, take_take. f_equal. lia. }
  change (take 4 (take n buf)) with (take 4 (drop 0 (take n buf))). rewrite !Hcut by lia.
  change (take 4 (drop 0 buf)) with (le_bytes 4 sum).
  change (take 1 (drop 4 buf)) with [type_num (entry_type h)].
  change (take 1 (drop 5 buf)) with [header_flags h].
  change (take 4 (drop 6 buf)) with (le_bytes 4 prev).
  change (take 4 (drop 10 buf)) with (le_bytes 4 (item_size h)).
  rewrite !le_val_byte, from_type_num_type, !le_val_bytes by (unfold in_u, MAX_ITEM_SIZE in *; simpl; lia).
  rewrite (proj2 (Z.ltb_ge _ _)) by lia.
  pose proof (header_flags_read h) as Hfl. injection Hfl as F1 F2 F3 F4 F5. rewrite F1, F2, F3, F4, F5.
  replace (vlsn_present h || replicated h) with (vlsn_present h)
    by (destruct (vlsn_present h), (replicated h); auto).
  rewrite length_take. unfold header_size, MAX_HEADER_SIZE, MIN_HEADER_SIZE, VLSN_LOG_SIZE in *.
  unfold stored. destruct (vlsn_present h) eqn:Ep; cbn [andb].
  - destruct (_ <? 22)%nat eqn:E2; reflect_bools; [by rewrite bool_decide_true by lia|].
    rewrite bool_decide_false by lia.
    assert (take 8 (drop 14 (take n buf)) = le_bytes 8 (as_u 64 v)) as ->.
    { rewrite skipn_firstn_comm, take_take, Nat.min_l by lia. unfold buf, header_bytes. by rewrite Ep. }
    rewrite le_val_bytes by (apply Z.mod_pos_bound; lia).
    rewrite as_i_as_u, as_i_id by (try done; lia). by destruct (provisional h).
  - rewrite bool_decide_false by lia. by destruct (provisional h).
Qed.

Lemma drop_header_bytes h sum prev v item :
  drop (Z.to_nat (header_size h)) (header_bytes h sum prev v item) = item.
Proof. unfold header_size, header_bytes. by destruct (vlsn_present h). Qed.

Lemma assigned_vlsn_in h v :
  header_ok h → (∀ x, v = Some x → in_i 64 x) → in_i 64 (assigned_vlsn h v).
Proof.
  intros (_ & _ & _ & Hh) Hv. unfold assigned_vlsn. destruct v as [x|]; simpl; [auto|].
  destruct (vlsn h) as [x|]; simpl; [auto|]. unfold NULL_VLSN, in_i. lia.
Qed.

Lemma from_type_num_Some n t : from_type_num n = Some t → n = type_num t.
Proof.
  destruct n as [|p|p]; try done.
  repeat (destruct p as [p|p|]; try done); by intros [= <-].
Qed.

(** A field of a byte string. *)
Lemma le_val_field buf off k :
  bytes_ok buf → (off + k ≤ length buf)%nat →
  0 ≤ le_val (take k (drop off buf)) < 256 ^ Z.of_nat k.
Proof.
  intros Hb Hl. pose proof (le_val_bounds (take k (drop off buf))) as H.
  rewrite length_take, length_drop, Nat.min_l in H by lia. by apply H, Forall_take, Forall_drop.
Qed.

Lemma as_i_in w x : 0 < w → in_i w (as_i w x).
Proof.
  intros Hw. unfold as_i, in_i. pose proof (Z.mod_pos_bound x (2 ^ w)). pose proof (pow2_half w Hw).
  destruct (_ <? _) eqn:E; reflect_bools; lia.
Qed.

Section entry.
Context {A : Type} (write : A → list Z) (read : list Z → option (A * list Z)) (sz : A → Z) (ok : A → Prop).
Context `{!Codec write read sz ok}.


End entry.

(** C36. Headers that are read are well formed: the type number of the entry is
    known and names its type, the item is at most 100 MB, a replicated entry
    has a VLSN, and the bytes that the header announces were there. *)
Theorem header_read_well_formed buf h :
  bytes_ok buf → header_read buf = Ok h →
  header_ok h ∧ header_size h ≤ Z.of_nat (length buf) ∧
  (∃ n, buf !! 4%nat = Some n ∧ n = type_num (entry_type h)) ∧
  in_u 32 (checksum h) ∧ in_u 32 (prev_offset h) ∧ bool_decide (is_Some (vlsn h)) = vlsn_present h.
Proof.
  intros Hb H. unfold header_read in H. destruct (_ <? 14)%nat eqn:E1; [done|]. reflect_bools.
  destruct (from_type_num _) as [t|] eqn:E2; [|done]. destruct (MAX_ITEM_SIZE <? _) eqn:E3; [done|].
  destruct (_ && _) eqn:E4; [done|]. apply (inj Ok) in H as <-. reflect_bools.
  unfold header_ok. split_and!; cbn [version item_size replicated vlsn_present vlsn checksum prev_offset entry_type].
  - done.
  - apply (le_val_field buf 10 4); [done|lia].
  - lia.
  - intros ->. apply orb_true_r.
  - intros v. destruct (_ || _); [|done]. intros [= <-]. by apply as_i_in.
  - unfold header_size. cbn [vlsn_present]. unfold MAX_HEADER_SIZE, MIN_HEADER_SIZE, VLSN_LOG_SIZE.
    destruct (_ || _); simpl in E4; reflect_bools; lia.
  - apply from_type_num_Some in E2. destruct (lookup_lt_is_Some_2 buf 4) as [n Hn]; [lia|].
    exists n. split; [done|]. rewrite <-E2, (drop_S buf n 4 Hn). symmetry. apply le_val_byte.
  - apply (le_val_field buf 0 4); [done|lia].
  - apply (le_val_field buf 6 4); [done|lia].
  - by destruct (_ || _).
Qed.

(** A commit record behind a replicated header. *)
Definition commit_entry : TxnEnd.TxnEndEntry :=
  {| TxnEnd.end_type := TxnEnd.Abort; TxnEnd.txn_id := 7; TxnEnd.last_lsn := 300; TxnEnd.timestamp := 5;
     TxnEnd.master_node_id := -1; TxnEnd.dtvlsn := 9 |}.
Definition commit_header : LogEntryHeader := header_new TxnAbort 37 PNo true None.

Definition commit_marshalled : LogEntryHeader * list Z :=
  add_post_marshalling_info commit_header
    (header_write commit_header ++ TxnEnd.write_to_log commit_entry) 99 (Some 12) 1234.



Lemma header_read_well_formed_witness :
  let buf := header_write commit_header in
  ∃ h, header_read buf = Ok h ∧ header_ok h.
Proof.
  intros buf. exists (stored commit_header 0 0 NULL_VLSN).
  assert (header_read buf = Ok (stored commit_header 0 0 NULL_VLSN)) as H by (vm_compute; reflexivity).
  split; [exact H|]. apply (header_read_well_formed buf _); [|exact H].
  repeat constructor; vm_compute; (reflexivity || discriminate).
Defined.
