(* ===== verification/Keys.v ===== *)
(** * Keys of a tree node (noxu-tree)

    [key.rs] (comparison and common prefixes) and the [KeyRep] of [tree.rs]:
    the key array of a node, one byte string per slot or all keys packed into
    one fixed-width buffer.  A key is a list of bytes.  [None] is a panic (an
    index or a slice out of range): the theorems show that none happens on
    the slots of the node.

    [key_rep rep ks] says that the representation [rep] holds the keys [ks];
    every operation is shown to act on [ks] as the operation of a plain list
    does, whatever representation it finds or leaves. *)

From S2P Require Import Prelude Bytes.

Abbreviation key := (list Z).

(** ** Comparison and prefixes *)

Definition compare_unsigned_bytes (key1 key2 : key) : comparison := lex_cmp key1 key2.

Definition compare_keys (key1 key2 : key) (comparator : option (key → key → comparison))
    : comparison :=
  match comparator with
  | Some cmp => cmp key1 key2
  | None => compare_unsigned_bytes key1 key2
  end.

Fixpoint get_key_prefix_length (key1 key2 : key) : nat :=
  match key1, key2 with
  | a :: k1, b :: k2 => if a =? b then S (get_key_prefix_length k1 k2) else 0
  | _, _ => 0
  end.

Definition create_key_prefix (key1 key2 : key) : option key :=
  let prefix_len := get_key_prefix_length key1 key2 in
  if (prefix_len =? 0)%nat then None else Some (take prefix_len key1).

(** ** The key array of a node *)

Inductive KeyRep :=
| KDefault (keys : list key)
| KCompact (buf : list Z) (slot_width : nat) (lengths : list nat).

Definition KeyRep_new : KeyRep := KDefault [].
Definition from_keys (keys : list key) : KeyRep := KDefault keys.

Definition KeyRep_len (r : KeyRep) : nat :=
  match r with
  | KDefault v => length v
  | KCompact _ _ lengths => length lengths
  end.

(** [&buf[off..off + len]] and [buf[off..off + k.len()].copy_from_slice(k)]. *)
Definition slice (buf : list Z) (off len : nat) : option (list Z) :=
  if (off + len <=? length buf)%nat then Some (take len (drop off buf)) else None.
Definition copy_at (buf : list Z) (off : nat) (k : list Z) : option (list Z) :=
  if (off + length k <=? length buf)%nat
  then Some (take off buf ++ k ++ drop (off + length k) buf) else None.

(** [Vec::insert] and [Vec::remove]. *)
Definition vec_insert {A} (i : nat) (x : A) (v : list A) : option (list A) :=
  if (i <=? length v)%nat then Some (take i v ++ x :: drop i v) else None.
Definition vec_remove {A} (i : nat) (v : list A) : option (A * list A) :=
  match v !! i with
  | Some x => Some (x, delete i v)
  | None => None
  end.

(** [len as u16]. *)
Definition as_u16 (n : nat) : nat := Z.to_nat (as_u 16 (Z.of_nat n)).

Definition KeyRep_get (r : KeyRep) (idx : nat) : option key :=
  match r with
  | KDefault v => v !! idx
  | KCompact buf slot_width lengths =>
      len ← lengths !! idx; slice buf (idx * slot_width) len
  end.

Definition inflate_to_default (r : KeyRep) : option KeyRep :=
  match r with
  | KCompact _ _ _ => KDefault <$> mapM (KeyRep_get r) (seq 0 (KeyRep_len r))
  | KDefault _ => Some r
  end.

Definition set_default (idx : nat) (k : key) (v : list key) : option KeyRep :=
  if (idx <? length v)%nat then Some (KDefault (<[idx := k]> v)) else None.

Definition KeyRep_set (r : KeyRep) (idx : nat) (k : key) : option KeyRep :=
  match r with
  | KDefault v => set_default idx k v
  | KCompact buf slot_width lengths =>
      if (slot_width <? length k)%nat then
        match inflate_to_default r with
        | Some (KDefault v) => set_default idx k v
        | _ => None
        end
      else
        buf' ← copy_at buf (idx * slot_width) k;
        if (idx <? length lengths)%nat
        then Some (KCompact buf' slot_width (<[idx := as_u16 (length k)]> lengths))
        else None
  end.

Definition KeyRep_insert (r : KeyRep) (idx : nat) (k : key) : option KeyRep :=
  match r with
  | KDefault v => KDefault <$> vec_insert idx k v
  | KCompact buf slot_width lengths =>
      if (slot_width <? length k)%nat then
        match inflate_to_default r with
        | Some (KDefault v) => KDefault <$> vec_insert idx k v
        | _ => None
        end
      else
        let at_ := (idx * slot_width)%nat in
        if (at_ <=? length buf)%nat then
          let buf := take at_ buf ++ replicate slot_width 0 ++ drop at_ buf in
          buf ← copy_at buf at_ k;
          lengths ← vec_insert idx (as_u16 (length k)) lengths;
          Some (KCompact buf slot_width lengths)
        else None
  end.

Definition KeyRep_remove (r : KeyRep) (idx : nat) : option (key * KeyRep) :=
  match r with
  | KDefault v => '(k, v) ← vec_remove idx v; Some (k, KDefault v)
  | KCompact buf slot_width lengths =>
      len ← lengths !! idx;
      let at_ := (idx * slot_width)%nat in
      out ← slice buf at_ len;
      if (at_ + slot_width <=? length buf)%nat then
        let buf := take at_ buf ++ drop (at_ + slot_width) buf in
        '(_, lengths) ← vec_remove idx lengths;
        Some (out, KCompact buf slot_width lengths)
      else None
  end.

(** The loop of [compact] that copies the keys into the zeroed buffer. *)
Fixpoint pack (keys : list key) (i slot_width : nat) (buf : list Z) : option (list Z) :=
  match keys with
  | [] => Some buf
  | k :: keys' =>
      buf ← copy_at buf (i * slot_width) k; pack keys' (S i) slot_width buf
  end.

Definition KeyRep_compact (r : KeyRep) (compact_max_key_length : Z) : option KeyRep :=
  if compact_max_key_length <=? 0 then Some r
  else match r with
       | KCompact _ _ _ => Some r
       | KDefault [] => Some r
       | KDefault keys =>
           let max_len := max_list (length <$> keys) in
           if compact_max_key_length <? Z.of_nat max_len then Some r
           else
             let slot_width := (max_len `max` 1)%nat in
             buf ← pack keys 0 slot_width (replicate (slot_width * length keys) 0);
             Some (KCompact buf slot_width (as_u16 ∘ length <$> keys))
       end.

(** * Theorems *)

(** ** Prefixes *)

Lemma prefix_length_le k1 k2 :
  (get_key_prefix_length k1 k2 ≤ length k1 ∧ get_key_prefix_length k1 k2 ≤ length k2)%nat.
Proof.
  revert k2; induction k1 as [|a k1 IH]; intros [|b k2]; simpl; try lia.
  case_match; [|lia]. specialize (IH k2). lia.
Qed.

Lemma prefix_length_take k1 k2 :
  take (get_key_prefix_length k1 k2) k1 = take (get_key_prefix_length k1 k2) k2.
Proof.
  revert k2; induction k1 as [|a k1 IH]; intros [|b k2]; simpl; try done.
  destruct (a =? b) eqn:E; [|done]. reflect_bools. subst. simpl. by rewrite IH.
Qed.

(** The common prefix is the longest one. *)
Lemma prefix_length_max p k1 k2 :
  p `prefix_of` k1 → p `prefix_of` k2 → (length p ≤ get_key_prefix_length k1 k2)%nat.
Proof.
  intros [r1 ->] [r2 ->]. induction p as [|a p IH]; simpl; [lia|].
  rewrite Z.eqb_refl. lia.
Qed.

Lemma prefix_length_prefix k1 k2 :
  take (get_key_prefix_length k1 k2) k1 `prefix_of` k2.
Proof. rewrite prefix_length_take. apply prefix_take. Qed.

Lemma prefix_of_take {A} (p k : list A) : p `prefix_of` k ↔ take (length p) k = p.
Proof.
  split.
  - intros [r ->]. apply take_app_length.
  - intros <-. apply prefix_take.
Qed.

(** ** The representation of the keys *)

Definition padded (sw : nat) (c : list Z) (k : key) : Prop :=
  length c = sw ∧ k `prefix_of` c.

(** A packed buffer is one chunk of [sw] bytes per key, which starts with the
    key.  The width is one whose lengths fit 16 bits. *)
Inductive key_rep : KeyRep → list key → Prop :=
| rep_default ks : key_rep (KDefault ks) ks
| rep_compact cs sw ks :
    Z.of_nat sw < 2 ^ 16 → Forall2 (padded sw) cs ks →
    key_rep (KCompact (concat cs) sw (length <$> ks)) ks.

Lemma as_u16_id n : Z.of_nat n < 2 ^ 16 → as_u16 n = n.
Proof. intros. unfold as_u16. rewrite as_u_id by (unfold in_u; lia). lia. Qed.

Lemma padded_length sw c k : padded sw c k → (length k ≤ sw)%nat.
Proof. intros [<- Hp]. by apply prefix_length. Qed.

Lemma padded_lengths sw cs ks :
  Forall2 (padded sw) cs ks → length (concat cs) = (length ks * sw)%nat.
Proof. induction 1 as [|c k cs ks [Hc _] _ IH]; simpl; [done|]. rewrite length_app. lia. Qed.

(** The chunk of slot [i] lies at [i * sw]. *)
Lemma chunk_split sw cs ks i :
  Forall2 (padded sw) cs ks → (i ≤ length ks)%nat →
  ∃ cs1 cs2, cs = cs1 ++ cs2 ∧ length cs1 = i ∧ length (concat cs1) = (i * sw)%nat ∧
    Forall2 (padded sw) cs1 (take i ks) ∧ Forall2 (padded sw) cs2 (drop i ks).
Proof.
  intros Hf Hi. exists (take i cs), (drop i cs). pose proof (Forall2_length _ _ _ Hf).
  assert (Forall2 (padded sw) (take i cs) (take i ks)) as Ht by (by apply Forall2_take).
  rewrite take_drop. split_and!; [done|rewrite length_take; lia| |done|by apply Forall2_drop].
  rewrite (padded_lengths _ _ _ Ht), length_take. f_equal. lia.
Qed.

Lemma chunk_at sw cs ks i k :
  Forall2 (padded sw) cs ks → ks !! i = Some k →
  ∃ cs1 c cs2, cs = cs1 ++ c :: cs2 ∧ length (concat cs1) = (i * sw)%nat ∧ padded sw c k ∧
    Forall2 (padded sw) cs1 (take i ks) ∧ Forall2 (padded sw) cs2 (drop (S i) ks).
Proof.
  intros Hf Hi. destruct (chunk_split sw cs ks i Hf) as (cs1 & cs2 & -> & _ & Hl & H1 & H2).
  { apply lookup_lt_Some in Hi. lia. }
  rewrite (drop_S ks k i) in H2 by done.
  apply Forall2_cons_inv_r in H2 as (c & cs2' & Hc & H2 & ->). by exists cs1, c, cs2'.
Qed.

Lemma copy_at_middle a b c k :
  (length k ≤ length b)%nat →
  copy_at (a ++ b ++ c) (length a) k = Some (a ++ (k ++ drop (length k) b) ++ c).
Proof.
  intros Hk. unfold copy_at. rewrite !length_app, (proj2 (Nat.leb_le _ _)) by lia.
  rewrite take_app_length, drop_app_ge by lia.
  replace (length a + length k - length a)%nat with (length k) by lia.
  rewrite drop_app_le by lia. by rewrite <-!app_assoc.
Qed.

Lemma padded_copy sw c k k' :
  padded sw c k → (length k' ≤ sw)%nat → padded sw (k' ++ drop (length k') c) k'.
Proof.
  intros [Hc _] Hk. split; [|by apply prefix_app_r].
  rewrite length_app, length_drop. lia.
Qed.

Lemma KeyRep_len_spec r ks : key_rep r ks → KeyRep_len r = length ks.
Proof. destruct 1; simpl; [done|]. by rewrite length_fmap. Qed.

Lemma KeyRep_get_spec r ks i : key_rep r ks → KeyRep_get r i = ks !! i.
Proof.
  destruct 1 as [ks|cs sw ks Hsw Hf]; simpl; [done|]. rewrite list_lookup_fmap.
  destruct (ks !! i) as [k|] eqn:Hi; [|done]. simpl.
  destruct (chunk_at _ _ _ _ _ Hf Hi) as (cs1 & c & cs2 & -> & Hl & [Hc Hp] & _).
  rewrite concat_app, concat_cons. unfold slice.
  pose proof (prefix_length _ _ Hp).
  rewrite !length_app, (proj2 (Nat.leb_le _ _)) by lia.
  rewrite <-Hl, drop_app_length, take_app_le by lia. f_equal. by apply prefix_of_take.
Qed.

Lemma inflate_spec r ks : key_rep r ks → inflate_to_default r = Some (KDefault ks).
Proof.
  intros Hr. pose proof (KeyRep_len_spec _ _ Hr) as Hlen.
  pose proof (λ i, KeyRep_get_spec _ _ i Hr) as Hget.
  destruct r; [by inversion Hr|]. cbn [inflate_to_default]. rewrite Hlen.
  assert (mapM (KeyRep_get (KCompact buf slot_width lengths)) (seq 0 (length ks)) = Some ks) as ->; [|done].
  apply mapM_Some, Forall2_same_length_lookup. rewrite length_seq. split; [done|].
  intros i x k Hx Hk. apply lookup_seq in Hx as [-> _]. by rewrite Hget.
Qed.

Lemma set_default_spec ks i k :
  (i < length ks)%nat → set_default i k ks = Some (KDefault (<[i := k]> ks)).
Proof. intros. unfold set_default. by rewrite (proj2 (Nat.ltb_lt _ _)). Qed.

Lemma KeyRep_set_spec r ks i k :
  key_rep r ks → (i < length ks)%nat →
  ∃ r', KeyRep_set r i k = Some r' ∧ key_rep r' (<[i := k]> ks).
Proof.
  intros Hr Hi. unfold KeyRep_set.
  destruct r as [v|buf sw lens]; [inversion Hr; subst; rewrite set_default_spec by done; eexists; split; [done|constructor]|].
  destruct (sw <? length k)%nat eqn:E; reflect_bools.
  { rewrite (inflate_spec _ _ Hr), set_default_spec by done. eexists; split; [done|constructor]. }
  inversion Hr as [|cs sw' ks' Hsw Hf]; subst.
  destruct (lookup_lt_is_Some_2 ks i Hi) as [k0 Hk0].
  destruct (chunk_at _ _ _ _ _ Hf Hk0) as (cs1 & c & cs2 & -> & Hl & Hc & H1 & H2).
  rewrite concat_app, concat_cons, <-Hl, copy_at_middle by (destruct Hc; lia). simpl.
  rewrite length_fmap, (proj2 (Nat.ltb_lt _ _)), as_u16_id by lia.
  eexists; split; [done|]. rewrite <-list_fmap_insert.
  replace (concat cs1 ++ (k ++ drop (length k) c) ++ concat cs2)
    with (concat (cs1 ++ (k ++ drop (length k) c) :: cs2)) by (by rewrite concat_app, concat_cons).
  constructor; [done|]. rewrite insert_take_drop by done.
  apply Forall2_app; [done|]. constructor; [by eapply padded_copy|done].
Qed.

Lemma vec_insert_spec {A} i (x : A) v :
  (i ≤ length v)%nat → vec_insert i x v = Some (take i v ++ x :: drop i v).
Proof. intros. unfold vec_insert. by rewrite (proj2 (Nat.leb_le _ _)). Qed.

Lemma KeyRep_insert_spec r ks i k :
  key_rep r ks → (i ≤ length ks)%nat →
  ∃ r', KeyRep_insert r i k = Some r' ∧ key_rep r' (take i ks ++ k :: drop i ks).
Proof.
  intros Hr Hi. unfold KeyRep_insert.
  destruct r as [v|buf sw lens]; [inversion Hr; subst; rewrite vec_insert_spec by done; eexists; split; [done|constructor]|].
  destruct (sw <? length k)%nat eqn:E; reflect_bools.
  { rewrite (inflate_spec _ _ Hr), vec_insert_spec by done. eexists; split; [done|constructor]. }
  inversion Hr as [|cs sw' ks' Hsw Hf]; subst.
  destruct (chunk_split _ _ _ _ Hf Hi) as (cs1 & cs2 & -> & _ & Hl & H1 & H2).
  rewrite concat_app, length_app, (proj2 (Nat.leb_le _ _)) by lia.
  rewrite <-Hl, take_app_length, drop_app_length, copy_at_middle
    by (rewrite length_replicate; lia). cbn [mbind option_bind].
  rewrite vec_insert_spec, as_u16_id by (rewrite ?length_fmap; lia). cbn [mbind option_bind].
  eexists; split; [done|]. rewrite <-fmap_take, <-fmap_drop, <-fmap_cons, <-fmap_app.
  replace (concat cs1 ++ (k ++ drop (length k) (replicate sw 0)) ++ concat cs2)
    with (concat (cs1 ++ (k ++ drop (length k) (replicate sw 0)) :: cs2))
    by (by rewrite concat_app, concat_cons).
  constructor; [done|]. apply Forall2_app; [done|]. constructor; [|done].
  apply (padded_copy sw _ []); [|lia]. split; [apply length_replicate|apply prefix_nil].
Qed.

Lemma KeyRep_remove_spec r ks i k :
  key_rep r ks → ks !! i = Some k →
  ∃ r', KeyRep_remove r i = Some (k, r') ∧ key_rep r' (delete i ks).
Proof.
  intros Hr Hi. unfold KeyRep_remove. destruct r as [v|buf sw lens].
  { inversion Hr; subst. unfold vec_remove. rewrite Hi. eexists; split; [done|constructor]. }
  pose proof (KeyRep_get_spec _ _ i Hr) as Hget. rewrite Hi in Hget.
  cbn [KeyRep_get] in Hget. inversion Hr as [|cs sw' ks' Hsw Hf]; subst.
  rewrite list_lookup_fmap, Hi in *. cbn [fmap option_fmap option_map mbind option_bind] in *.
  rewrite Hget. cbn [mbind option_bind].
  destruct (chunk_at _ _ _ _ _ Hf Hi) as (cs1 & c & cs2 & -> & Hl & [Hc Hp] & H1 & H2).
  rewrite concat_app, concat_cons, !length_app, (proj2 (Nat.leb_le _ _)) by lia.
  unfold vec_remove. rewrite list_lookup_fmap, Hi. cbn [fmap option_fmap option_map mbind option_bind].
  eexists; split; [done|]. rewrite <-Hl, take_app_length, drop_app_ge by lia.
  replace (length (concat cs1) + sw - length (concat cs1))%nat with (length c) by lia.
  rewrite drop_app_length, <-concat_app, <-list_fmap_delete.
  constructor; [done|]. rewrite delete_take_drop. by apply Forall2_app.
Qed.

Lemma pack_spec ks sw done_ :
  Forall (λ k, (length k ≤ sw)%nat) ks →
  ∀ i, length done_ = (i * sw)%nat →
  ∃ cs, Forall2 (padded sw) cs ks ∧
    pack ks i sw (done_ ++ replicate (sw * length ks) 0) = Some (done_ ++ concat cs).
Proof.
  intros Hks. revert done_. induction Hks as [|k ks Hk Hks IH]; intros done_ i Hd; cbn [pack].
  { exists []. split; [constructor|]. by rewrite Nat.mul_0_r. }
  replace (sw * length (k :: ks))%nat with (sw + sw * length ks)%nat by (simpl; lia).
  rewrite replicate_add, <-Hd, copy_at_middle by (rewrite length_replicate; lia).
  cbn [mbind option_bind]. set (c := k ++ drop (length k) (replicate sw 0)).
  assert (padded sw c k) as Hc.
  { apply (padded_copy sw _ []); [|done]. split; [apply length_replicate|apply prefix_nil]. }
  destruct (IH (done_ ++ c) (S i)) as (cs & Hcs & Hp).
  { destruct Hc as [Hc _]. rewrite length_app. simpl. lia. }
  exists (c :: cs). split; [by constructor|].
  rewrite <-app_assoc in Hp. by rewrite Hp, concat_cons, <-app_assoc.
Qed.

Lemma max_list_elem (l : list nat) x : x ∈ l → (x ≤ max_list l)%nat.
Proof. induction 1; simpl; lia. Qed.

Lemma KeyRep_compact_spec r ks max_len :
  key_rep r ks → max_len < 2 ^ 16 →
  ∃ r', KeyRep_compact r max_len = Some r' ∧ key_rep r' ks.
Proof.
  intros Hr Hm. unfold KeyRep_compact. destruct (max_len <=? 0) eqn:E; [by eauto|].
  destruct r as [[|k v]|]; [by eauto| |by eauto]. inversion Hr; subst.
  destruct (max_len <? Z.of_nat (max_list (length <$> k :: v))) eqn:E2; [by eauto|].
  reflect_bools. set (sw := (max_list (length <$> k :: v) `max` 1)%nat).
  assert (Forall (λ k, (length k ≤ sw)%nat) (k :: v)) as Hall.
  { apply Forall_forall. intros k' Hk'. unfold sw.
    pose proof (max_list_elem (length <$> k :: v) (length k')) as Hle.
    specialize (Hle (list_elem_of_fmap_2 _ _ _ Hk')). lia. }
  destruct (pack_spec (k :: v) sw [] Hall 0%nat) as (cs & Hcs & Hp); [done|].
  rewrite !app_nil_l in Hp. rewrite Hp. cbn [mbind option_bind]. eexists; split; [done|].
  assert (Z.of_nat sw < 2 ^ 16) as Hsw by (unfold sw; lia).
  replace (as_u16 ∘ length <$> k :: v) with (length <$> k :: v); [by constructor|].
  apply list_fmap_ext. intros i x Hx. simpl. symmetry. apply as_u16_id.
  apply list_elem_of_lookup_2, (proj1 (Forall_forall _ _) Hall) in Hx. lia.
Qed.

(** ** Order and prefixes *)

(** Byte order does not see a prefix that both keys have. *)
Lemma lex_cmp_strip p k1 k2 :
  p `prefix_of` k1 → p `prefix_of` k2 →
  lex_cmp (drop (length p) k1) (drop (length p) k2) = lex_cmp k1 k2.
Proof. intros [r1 ->] [r2 ->]. by rewrite !drop_app_length, lex_cmp_app. Qed.

(** ** Sequences of operations *)

Inductive key_op :=
| KGet (idx : nat)
| KSet (idx : nat) (k : key)
| KInsert (idx : nat) (k : key)
| KRemove (idx : nat)
| KPack (compact_max_key_length : Z).

(** On a representation; the output is the key read or removed. *)
Definition rep_step (r : KeyRep) (op : key_op) : option (KeyRep * key) :=
  match op with
  | KGet idx => k ← KeyRep_get r idx; Some (r, k)
  | KSet idx k => r ← KeyRep_set r idx k; Some (r, [])
  | KInsert idx k => r ← KeyRep_insert r idx k; Some (r, [])
  | KRemove idx => '(k, r) ← KeyRep_remove r idx; Some (r, k)
  | KPack max_len => r ← KeyRep_compact r max_len; Some (r, [])
  end.

(** On a plain list of keys. *)
Definition list_step (ks : list key) (op : key_op) : option (list key * key) :=
  match op with
  | KGet idx => k ← ks !! idx; Some (ks, k)
  | KSet idx k => _ ← ks !! idx; Some (<[idx := k]> ks, [])
  | KInsert idx k => ks ← vec_insert idx k ks; Some (ks, [])
  | KRemove idx => '(k, ks) ← vec_remove idx ks; Some (ks, k)
  | KPack max_len => if max_len <? 2 ^ 16 then Some (ks, []) else None
  end.

Lemma rep_step_spec r ks op ks' out :
  key_rep r ks → list_step ks op = Some (ks', out) →
  ∃ r', rep_step r op = Some (r', out) ∧ key_rep r' ks'.
Proof.
  intros Hr Hs. destruct op; simpl in *.
  - destruct (ks !! idx) eqn:Hk; [|done]. injection Hs as <- <-.
    exists r. by rewrite (KeyRep_get_spec _ _ _ Hr), Hk.
  - destruct (ks !! idx) eqn:Hk; [|done]. injection Hs as <- <-.
    destruct (KeyRep_set_spec r ks idx k Hr) as (r' & -> & ?); [by eapply lookup_lt_Some|]. by exists r'.
  - unfold vec_insert in Hs. destruct (idx <=? length ks)%nat eqn:E; [|done]. reflect_bools.
    injection Hs as <- <-. destruct (KeyRep_insert_spec r ks idx k Hr E) as (r' & -> & ?). by exists r'.
  - unfold vec_remove in Hs. destruct (ks !! idx) eqn:Hk; [|done]. injection Hs as <- <-.
    destruct (KeyRep_remove_spec r ks idx l Hr Hk) as (r' & -> & ?). by exists r'.
  - destruct (compact_max_key_length <? 2 ^ 16) eqn:E; [|done]. injection Hs as <- <-.
    reflect_bools. destruct (KeyRep_compact_spec r ks _ Hr E) as (r' & -> & ?). by exists r'.
Qed.

(** * Properties *)

(** C28: the packed key array behaves as a list of keys.  Over any sequence of
    reads, updates, insertions, removals and compactions (with a threshold
    below 65536) that a plain list of keys allows, the representation never
    panics, returns the same keys and ends up holding the same keys, however
    often it switches between the packed and the plain form. *)
Theorem key_array_refines_list (ops : list key_op) (ks : list key) (outs : list key)
  (Hrun : run_steps list_step [] ops = Some (ks, outs)) :
  ∃ r, run_steps rep_step KeyRep_new ops = Some (r, outs) ∧
       KeyRep_len r = length ks ∧ ∀ i, KeyRep_get r i = ks !! i.
Proof.
  destruct (run_steps_refine key_rep rep_step list_step rep_step_spec ops KeyRep_new [] ks outs)
    as (r & Hr & Hk); [constructor|done|].
  exists r. split; [done|]. split; [by apply KeyRep_len_spec|].
  intros i. by apply KeyRep_get_spec.
Qed.

Definition demo_key_ops : list key_op :=
  [KInsert 0 [1]; KInsert 1 [2; 3]; KPack 16; KSet 0 [7; 7; 7]; KInsert 1 []; KPack 16; KRemove 0].

Lemma key_array_refines_list_witness :
  ∃ r, run_steps rep_step KeyRep_new demo_key_ops =
         Some (r, [[]; []; []; []; []; []; [7; 7; 7]]) ∧
       KeyRep_len r = 2%nat ∧ ∀ i, KeyRep_get r i = [[]; [2; 3]] !! i.
Proof.
  apply (key_array_refines_list demo_key_ops [[]; [2; 3]]). vm_compute. reflexivity.
Defined.
