(* ===== verification/LsnRep.v ===== *)
(** * The packed LSN array of a node (noxu-tree, [LsnRep] of [tree.rs])

    One LSN per slot, stored as nothing while every slot is null, as four
    bytes per slot relative to a base file number, or as whole LSNs once a
    difference or an offset does not fit.  [None] is a panic.

    [lsn_rep r ls] says that the array [r] holds the LSNs [ls], one per slot
    of the node; every operation is shown to act on [ls] as a list does. *)

From S2P Require Import Prelude Bytes Packed Lsn Keys.

(** ** The code *)

Inductive LsnRep :=
| LEmpty
| LCompact (base_file_number : Z) (bytes : list Z)
| LLong (v : list Z).

Definition BYTES_PER_LSN_ENTRY : nat := 4.
Definition MAX_FILE_OFFSET : Z := 0x00fffffe.
Definition THREE_BYTE_NEGATIVE_ONE : Z := 0x00ffffff.
Definition MAX_FILE_NUMBER_OFFSET : Z := 127.

(** [v[i] = x]. *)
Definition vec_set {A} (i : nat) (x : A) (v : list A) : option (list A) :=
  if (i <? length v)%nat then Some (<[i := x]> v) else None.

(** [v.copy_within(a..b, dest)]. *)
Definition copy_within (a b dest : nat) (v : list Z) : option (list Z) :=
  if ((a <=? b) && (b <=? length v) && (dest + (b - a) <=? length v))%nat
  then Some (take dest v ++ take (b - a) (drop a v) ++ drop (dest + (b - a)) v) else None.

Definition put_3byte (bytes : list Z) (offset : nat) (value : Z) : option (list Z) :=
  bytes ← vec_set offset (Z.land value 0xFF) bytes;
  bytes ← vec_set (offset + 1) (Z.land (Z.shiftr value 8) 0xFF) bytes;
  vec_set (offset + 2) (Z.land (Z.shiftr value 16) 0xFF) bytes.

Definition get_3byte (bytes : list Z) (offset : nat) : option Z :=
  b0 ← bytes !! offset; b1 ← bytes !! (offset + 1)%nat; b2 ← bytes !! (offset + 2)%nat;
  Some (Z.lor (Z.lor b0 (Z.shiftl b1 8)) (Z.shiftl b2 16)).

Definition self_get_compact (base_file_number : Z) (bytes : list Z) (idx : nat) : option Z :=
  let off := (idx * BYTES_PER_LSN_ENTRY)%nat in
  file_offset ← get_3byte bytes (off + 1);
  if file_offset =? THREE_BYTE_NEGATIVE_ONE then Some NULL_LSN
  else b ← bytes !! off; Some (Lsn_new (as_u 32 (base_file_number + b)) file_offset).

Definition LsnRep_get (r : LsnRep) (idx : nat) : option Z :=
  match r with
  | LEmpty => Some NULL_LSN
  | LLong v => Some (default NULL_LSN (v !! idx))
  | LCompact base bytes =>
      let off := (idx * BYTES_PER_LSN_ENTRY)%nat in
      if (length bytes <? off + BYTES_PER_LSN_ENTRY)%nat then Some NULL_LSN
      else self_get_compact base bytes idx
  end.

(** The offsets at which the [while] loops over the slots stop. *)
Definition slot_offsets (len : nat) : list nat :=
  (λ s, s * BYTES_PER_LSN_ENTRY)%nat <$>
    seq 0 ((len + BYTES_PER_LSN_ENTRY - 1) / BYTES_PER_LSN_ENTRY).

(** The first pass: does every slot fit above [new_base]? *)
Fixpoint adjust_check (bytes : list Z) (old_base new_base : Z) (offs : list nat) : option bool :=
  match offs with
  | [] => Some true
  | i :: offs =>
      o ← get_3byte bytes (i + 1);
      if o =? THREE_BYTE_NEGATIVE_ONE then adjust_check bytes old_base new_base offs
      else b ← bytes !! i;
           if MAX_FILE_NUMBER_OFFSET <? as_u 32 (as_u 32 (old_base + b) - new_base) then Some false
           else adjust_check bytes old_base new_base offs
  end.

(** The second pass. *)
Fixpoint adjust_apply (bytes : list Z) (old_base new_base : Z) (offs : list nat)
    : option (list Z) :=
  match offs with
  | [] => Some bytes
  | i :: offs =>
      o ← get_3byte bytes (i + 1);
      if o =? THREE_BYTE_NEGATIVE_ONE then adjust_apply bytes old_base new_base offs
      else b ← bytes !! i;
           bytes ← vec_set i (as_u 8 (as_u 32 (as_u 32 (old_base + b) - new_base))) bytes;
           adjust_apply bytes old_base new_base offs
  end.

Definition adjust_file_numbers (bytes : list Z) (old_base new_base : Z)
    : option (bool * list Z) :=
  ok ← adjust_check bytes old_base new_base (slot_offsets (length bytes));
  if ok : bool then
    bytes ← adjust_apply bytes old_base new_base (slot_offsets (length bytes));
    Some (true, bytes)
  else Some (false, bytes).

(** [put_3byte(bytes, s * 4 + 1, 0xffffff)] for the slots [ss]. *)
Fixpoint mark_null (bytes : list Z) (ss : list nat) : option (list Z) :=
  match ss with
  | [] => Some bytes
  | s :: ss =>
      bytes ← put_3byte bytes (s * BYTES_PER_LSN_ENTRY + 1) THREE_BYTE_NEGATIVE_ONE;
      mark_null bytes ss
  end.

(** The growth of the byte array to hold slot [idx]. *)
Definition grow_compact (bytes : list Z) (idx : nat) : option (list Z) :=
  let need := ((idx + 1) * BYTES_PER_LSN_ENTRY)%nat in
  if (length bytes <? need)%nat then
    let old := (length bytes / BYTES_PER_LSN_ENTRY)%nat in
    mark_null (resize need 0 bytes) (seq old (idx + 1 - old))
  else Some bytes.

(** [mutateToLongArray]. *)
Definition mutate_to_long (base : Z) (bytes : list Z) (idx : nat) (lsn : Z) : option LsnRep :=
  let nelts := (length bytes / BYTES_PER_LSN_ENTRY)%nat in
  got ← mapM (self_get_compact base bytes) (seq 0 nelts);
  longs ← vec_set idx lsn (got ++ replicate (idx + 1 - nelts) NULL_LSN);
  Some (LLong longs).

Definition set_compact (base : Z) (bytes : list Z) (idx : nat) (lsn : Z) : option LsnRep :=
  bytes ← grow_compact bytes idx;
  let off := (idx * BYTES_PER_LSN_ENTRY)%nat in
  if is_null lsn then
    bytes ← vec_set off 0 bytes;
    bytes ← put_3byte bytes (off + 1) THREE_BYTE_NEGATIVE_ONE;
    Some (LCompact base bytes)
  else
    let this_file_number := file_number lsn in
    let this_file_offset := file_offset lsn in
    '(mutate, bytes) ←
      (if MAX_FILE_OFFSET <? this_file_offset then Some (true, bytes)
       else if this_file_number <? base then
         '(ok, bytes) ← adjust_file_numbers bytes base this_file_number;
         Some (negb ok, bytes)
       else Some (MAX_FILE_NUMBER_OFFSET <? this_file_number - base, bytes));
    if mutate : bool then mutate_to_long base bytes idx lsn
    else
      let base := if this_file_number <? base then this_file_number else base in
      bytes ← vec_set off (as_u 8 (this_file_number - base)) bytes;
      bytes ← put_3byte bytes (off + 1) this_file_offset;
      Some (LCompact base bytes).

Definition LsnRep_set (r : LsnRep) (idx : nat) (lsn : Z) (n : nat) : option LsnRep :=
  match r with
  | LEmpty =>
      if is_null lsn then Some LEmpty
      else
        let cap := (n `max` (idx + 1))%nat in
        bytes ← mark_null (replicate (cap * BYTES_PER_LSN_ENTRY) 0)
                          (filter (λ s, s ≠ idx) (seq 0 cap));
        set_compact (file_number lsn) bytes idx lsn
  | LLong v =>
      v ← vec_set idx lsn (if (length v <=? idx)%nat then resize (idx + 1) NULL_LSN v else v);
      Some (LLong v)
  | LCompact base bytes => set_compact base bytes idx lsn
  end.

Fixpoint set_all (r : LsnRep) (i n : nat) (lsns : list Z) : option LsnRep :=
  match lsns with
  | [] => Some r
  | lsn :: lsns => r ← LsnRep_set r i lsn n; set_all r (S i) n lsns
  end.

Definition from_lsns (lsns : list Z) : option LsnRep := set_all LEmpty 0 (length lsns) lsns.

Definition LsnRep_insert_shift (r : LsnRep) (idx n : nat) : option LsnRep :=
  match r with
  | LEmpty => Some LEmpty
  | LLong v =>
      if (idx <=? length v)%nat then LLong <$> vec_insert idx NULL_LSN v else Some r
  | LCompact base bytes =>
      let stride := BYTES_PER_LSN_ENTRY in
      let cap := ((n `max` (length bytes / stride + 1)) * stride)%nat in
      let bytes := resize cap 0 bytes in
      let at_ := (idx * stride)%nat in
      bytes ← copy_within at_ (cap - stride) (at_ + stride) bytes;
      bytes ← put_3byte bytes (at_ + 1) THREE_BYTE_NEGATIVE_ONE;
      Some (LCompact base bytes)
  end.

Definition LsnRep_remove_shift (r : LsnRep) (idx : nat) : option LsnRep :=
  match r with
  | LEmpty => Some LEmpty
  | LLong v => Some (LLong (if (idx <? length v)%nat then delete idx v else v))
  | LCompact base bytes =>
      let stride := BYTES_PER_LSN_ENTRY in
      let at_ := (idx * stride)%nat in
      if (at_ + stride <=? length bytes)%nat then
        bytes' ← copy_within (at_ + stride) (length bytes) at_ bytes;
        Some (LCompact base (take (length bytes - stride) bytes'))
      else Some r
  end.

(** * Theorems *)

(** ** Four-byte slots *)

Abbreviation slots4 := (Forall (λ c : list Z, length c = 4%nat)).

Lemma length_slots cs : slots4 cs → length (concat cs) = (length cs * 4)%nat.
Proof. induction 1 as [|c cs Hc _ IH]; simpl; [done|]. rewrite length_app. lia. Qed.

Lemma lookup_slots cs i j :
  slots4 cs → (j < 4)%nat → concat cs !! (i * 4 + j)%nat = c ← cs !! i; c !! j.
Proof.
  intros Hs Hj. revert i; induction Hs as [|c cs Hc Hs IH]; intros i; [done|]. simpl.
  destruct i as [|i]; simpl.
  - rewrite lookup_app_l by lia. done.
  - rewrite lookup_app_r by lia. rewrite <-IH. f_equal. lia.
Qed.

Lemma insert_slots cs i j c x :
  slots4 cs → (j < 4)%nat → cs !! i = Some c →
  vec_set (i * 4 + j) x (concat cs) = Some (concat (<[i := <[j := x]> c]> cs)).
Proof.
  intros Hs Hj Hc. unfold vec_set. pose proof (lookup_lt_Some _ _ _ Hc).
  rewrite length_slots, (proj2 (Nat.ltb_lt _ _)) by (done || lia). f_equal.
  revert i Hc H; induction Hs as [|d cs Hd Hs IH]; intros i Hc Hi; [done|].
  destruct i as [|i]; simpl in *.
  - injection Hc as ->. rewrite insert_app_l by lia. done.
  - replace (S (S (S (S (i * 4 + j)))))%nat with (length d + (i * 4 + j))%nat by lia.
    rewrite insert_app_r. by rewrite IH by (done || lia).
Qed.

Lemma slots4_insert cs i c : slots4 cs → length c = 4%nat → slots4 (<[i := c]> cs).
Proof. intros. by apply Forall_insert. Qed.
#[export] Hint Resolve slots4_insert : noxu.

Lemma three_bytes v :
  le_bytes 3 v =
  [Z.land v 0xFF; Z.land (Z.shiftr v 8) 0xFF; Z.land (Z.shiftr v 16) 0xFF].
Proof.
  change 0xFF with (Z.ones 8). rewrite !Z.land_ones, !Z.shiftr_div_pow2 by lia.
  cbn [le_bytes]. by rewrite Z.div_div by lia.
Qed.

Lemma put_3byte_spec cs i b t v :
  slots4 cs → cs !! i = Some (b :: t) → 0 ≤ v < 2 ^ 24 →
  put_3byte (concat cs) (i * 4 + 1) v = Some (concat (<[i := b :: le_bytes 3 v]> cs)).
Proof.
  intros Hs Hc Hv. unfold put_3byte.
  assert (length t = 3%nat) as Ht.
  { pose proof (Forall_lookup_1 _ _ _ _ Hs Hc) as Hl. simpl in Hl. lia. }
  destruct t as [|t0 [|t1 [|t2 [|]]]]; try done. pose proof (lookup_lt_Some _ _ _ Hc).
  rewrite (insert_slots cs i 1 _ _ Hs ltac:(lia) Hc). cbn [mbind option_bind].
  replace (i * 4 + 1 + 1)%nat with (i * 4 + 2)%nat by lia.
  replace (i * 4 + 1 + 2)%nat with (i * 4 + 3)%nat by lia.
  erewrite insert_slots; [|by auto with noxu|lia|by rewrite list_lookup_insert_eq by (rewrite ?length_insert; lia)].
  cbn [mbind option_bind].
  erewrite insert_slots; [|by auto with noxu|lia|by rewrite list_lookup_insert_eq by (rewrite ?length_insert; lia)].
  rewrite !list_insert_insert_eq, three_bytes. done.
Qed.

Lemma get_3byte_spec cs i b x :
  slots4 cs → cs !! i = Some (b :: le_bytes 3 x) → 0 ≤ x < 2 ^ 24 →
  get_3byte (concat cs) (i * 4 + 1) = Some x.
Proof.
  intros Hs Hc Hx. unfold get_3byte.
  replace (i * 4 + 1 + 1)%nat with (i * 4 + 2)%nat by lia.
  replace (i * 4 + 1 + 2)%nat with (i * 4 + 3)%nat by lia.
  rewrite !lookup_slots, !Hc by (done || lia). cbn -[Z.div Z.modulo Z.lor Z.shiftl].
  pose proof (le_val_bytes 3 x ltac:(lia)) as Hv. pose proof (le_bytes_ok 3 x) as Hb.
  cbn [le_bytes le_val] in Hv, Hb. apply Forall_cons in Hb as [H0 Hb].
  apply Forall_cons in Hb as [H1 Hb]. apply Forall_cons in Hb as [H2 _]. unfold is_byte in *.
  f_equal. rewrite !Z.shiftl_mul_pow2, (Z.lor_comm _ (_ * 2 ^ 16)), (Z.lor_comm _ (_ * 2 ^ 8)) by lia.
  rewrite (lor_disjoint 8 (x / 256 mod 256) (x mod 256)), (lor_disjoint 16) by lia. lia.
Qed.

(** ** The representation *)

(** Four bytes that stand for an LSN above the base file. *)
Inductive slot_is (base : Z) : list Z → Z → Prop :=
| slot_null b : slot_is base (b :: le_bytes 3 THREE_BYTE_NEGATIVE_ONE) NULL_LSN
| slot_lsn b x :
    is_byte b → base + b < 2 ^ 32 → 0 ≤ x ≤ MAX_FILE_OFFSET →
    slot_is base (b :: le_bytes 3 x) (Lsn_new (base + b) x).

Inductive lsn_rep : LsnRep → list Z → Prop :=
| rep_empty n : lsn_rep LEmpty (replicate n NULL_LSN)
| rep_long v : lsn_rep (LLong v) v
| rep_packed base cs ls :
    in_u 32 base → Forall2 (slot_is base) cs ls → lsn_rep (LCompact base (concat cs)) ls.

Lemma slot_is_length base c l : slot_is base c l → length c = 4%nat.
Proof. destruct 1; done. Qed.

Lemma slots_are4 base cs ls : Forall2 (slot_is base) cs ls → slots4 cs.
Proof. induction 1; constructor; eauto using slot_is_length. Qed.

(** What the three bytes of a slot say. *)
Lemma slot_is_inv base c l :
  slot_is base c l →
  ∃ b x, c = b :: le_bytes 3 x ∧ 0 ≤ x < 2 ^ 24 ∧
    if x =? THREE_BYTE_NEGATIVE_ONE then l = NULL_LSN
    else is_byte b ∧ base + b < 2 ^ 32 ∧ 0 ≤ x ≤ MAX_FILE_OFFSET ∧ l = Lsn_new (base + b) x.
Proof.
  destruct 1 as [b|b x Hb Hs Hx]; unfold THREE_BYTE_NEGATIVE_ONE, MAX_FILE_OFFSET in *.
  - exists b, 0xffffff. split_and!; [done|lia..|done].
  - exists b, x. split_and!; [done|lia..|]. by rewrite (proj2 (Z.eqb_neq _ _)) by lia.
Qed.

Lemma self_get_compact_spec base cs ls i l :
  in_u 32 base → Forall2 (slot_is base) cs ls → ls !! i = Some l →
  self_get_compact base (concat cs) i = Some l.
Proof.
  intros Hbase Hf Hl. pose proof (slots_are4 _ _ _ Hf) as Hs.
  destruct (Forall2_lookup_r _ _ _ _ _ Hf Hl) as (c & Hc & Hsl).
  destruct (slot_is_inv _ _ _ Hsl) as (b & x & -> & Hx & Hif). unfold self_get_compact.
  change BYTES_PER_LSN_ENTRY with 4%nat. rewrite (get_3byte_spec _ _ _ _ Hs Hc Hx). simpl.
  destruct (x =? THREE_BYTE_NEGATIVE_ONE); [by subst|].
  destruct Hif as (Hb & Hsum & _ & ->).
  pose proof (lookup_slots cs i 0 Hs ltac:(lia)) as Hb0.
  rewrite Nat.add_0_r, Hc in Hb0. rewrite Hb0. simpl.
  unfold in_u, is_byte in *. by drop_wraps.
Qed.

Lemma LsnRep_get_spec r ls i :
  lsn_rep r ls → LsnRep_get r i = Some (default NULL_LSN (ls !! i)).
Proof.
  destruct 1 as [n|v|base cs ls Hb Hf]; simpl.
  - destruct (replicate n NULL_LSN !! i) eqn:E; [|done].
    apply lookup_replicate in E as [-> _]. done.
  - done.
  - change BYTES_PER_LSN_ENTRY with 4%nat. pose proof (Forall2_length _ _ _ Hf) as Hl.
    rewrite length_slots by by eapply slots_are4.
    destruct (ls !! i) as [l|] eqn:E.
    + pose proof (lookup_lt_Some _ _ _ E). rewrite (proj2 (Nat.ltb_ge _ _)) by lia.
      by eapply self_get_compact_spec.
    + apply lookup_ge_None in E. by rewrite (proj2 (Nat.ltb_lt _ _)) by lia.
Qed.

(** ** Null marks *)

Definition nullify (c : list Z) : list Z :=
  match c with
  | b :: _ => b :: le_bytes 3 THREE_BYTE_NEGATIVE_ONE
  | [] => []
  end.

Lemma mark_null_spec cs ss :
  slots4 cs → Forall (λ s, s < length cs)%nat ss →
  ∃ cs', mark_null (concat cs) ss = Some (concat cs') ∧ slots4 cs' ∧ length cs' = length cs ∧
    ∀ i c, cs !! i = Some c → cs' !! i = Some (if decide (i ∈ ss) then nullify c else c).
Proof.
  intros Hs Hss. revert cs Hs Hss; induction ss as [|s ss IH]; intros cs Hs Hss.
  { exists cs. split_and!; auto. }
  apply Forall_cons in Hss as [Hlt Hss]. destruct (lookup_lt_is_Some_2 cs s Hlt) as [c Hc].
  destruct c as [|b t]; [by pose proof (Forall_lookup_1 _ _ _ _ Hs Hc)|].
  cbn [mark_null]. change BYTES_PER_LSN_ENTRY with 4%nat.
  rewrite (put_3byte_spec _ _ _ _ _ Hs Hc) by (unfold THREE_BYTE_NEGATIVE_ONE; lia).
  cbn [mbind option_bind].
  destruct (IH (<[s := b :: le_bytes 3 THREE_BYTE_NEGATIVE_ONE]> cs)) as (cs' & -> & H4 & Hl & Hi);
    [by auto with noxu|by rewrite length_insert|].
  rewrite length_insert in Hl. exists cs'. split_and!; [done..|]. intros i c Hic.
  destruct (decide (i = s)) as [->|Hne].
  - rewrite Hc in Hic. injection Hic as <-.
    rewrite (Hi s (b :: le_bytes 3 THREE_BYTE_NEGATIVE_ONE)) by by apply list_lookup_insert_eq.
    rewrite (decide_True (P := s ∈ s :: ss)) by left. by case_decide.
  - rewrite (Hi i c) by by rewrite list_lookup_insert_ne.
    destruct (decide (i ∈ ss)); [rewrite decide_True by (by right)|rewrite decide_False by (by rewrite not_elem_of_cons)]; done.
Qed.

Lemma slot_is_nullify base c : length c = 4%nat → slot_is base (nullify c) NULL_LSN.
Proof. destruct c; [done|]. intros _. constructor. Qed.

(** ** Moving the base *)

Definition fits (old_base new_base : Z) (c : list Z) : Prop :=
  ∀ b x, c = b :: le_bytes 3 x → 0 ≤ x < 2 ^ 24 → x ≠ THREE_BYTE_NEGATIVE_ONE →
  old_base + b - new_base ≤ MAX_FILE_NUMBER_OFFSET.

Lemma le_bytes_inj n x y :
  0 ≤ x < 256 ^ Z.of_nat n → 0 ≤ y < 256 ^ Z.of_nat n → le_bytes n x = le_bytes n y → x = y.
Proof. intros Hx Hy E. rewrite <-(le_val_bytes n x), <-(le_val_bytes n y), E by done. done. Qed.

Lemma slot_bytes_inj b b' x x' :
  b :: le_bytes 3 x = b' :: le_bytes 3 x' → 0 ≤ x < 2 ^ 24 → 0 ≤ x' < 2 ^ 24 → b = b' ∧ x = x'.
Proof.
  intros E Hx Hx'. split; [congruence|]. apply (le_bytes_inj 3); [lia..|].
  by apply (f_equal tail) in E.
Qed.

Section adjust.
Context (old_base new_base : Z).
Context (Hnew : 0 ≤ new_base < old_base).

Lemma adjust_check_spec cs ls ss :
  Forall2 (slot_is old_base) cs ls → Forall (λ s, s < length cs)%nat ss →
  ∃ ok, adjust_check (concat cs) old_base new_base ((λ s, s * 4)%nat <$> ss) = Some ok ∧
    (ok = true → ∀ s c, s ∈ ss → cs !! s = Some c → fits old_base new_base c).
Proof.
  intros Hf. pose proof (slots_are4 _ _ _ Hf) as Hs.
  induction ss as [|s ss IH]; intros Hss; [exists true; split; [done|by intros _ s c ?%elem_of_nil]|].
  apply Forall_cons in Hss as [Hlt Hss]. specialize (IH Hss) as (ok & IH & Hok).
  destruct (lookup_lt_is_Some_2 cs s Hlt) as [c Hc].
  destruct (Forall2_lookup_l _ _ _ _ _ Hf Hc) as (l & Hl & Hsl).
  destruct (slot_is_inv _ _ _ Hsl) as (b & x & -> & Hx & Hif).
  cbn [fmap list_fmap adjust_check]. rewrite (get_3byte_spec _ _ _ _ Hs Hc Hx). simpl.
  assert (∀ s' c', s' ∈ s :: ss → cs !! s' = Some c' →
          s' = s ∧ c' = b :: le_bytes 3 x ∨ s' ∈ ss) as Hin.
  { intros s' c' [->|]%elem_of_cons Hc'; [left|by right]. split; [done|]. congruence. }
  destruct (x =? THREE_BYTE_NEGATIVE_ONE) eqn:Ex; reflect_bools.
  { exists ok. split; [done|]. intros -> s' c' Hs' Hc'.
    destruct (Hin s' c' Hs' Hc') as [[_ ->]|]; [|by eapply Hok].
    intros b' x' Heq Hx' Hne. apply slot_bytes_inj in Heq as [_ ->]; done. }
  destruct Hif as (Hb & Hsum & _). pose proof (lookup_slots cs s 0 Hs ltac:(lia)) as Hb0.
  rewrite Nat.add_0_r, Hc in Hb0. rewrite Hb0. simpl. unfold in_u, is_byte in *. drop_wraps.
  destruct (MAX_FILE_NUMBER_OFFSET <? old_base + b - new_base) eqn:E; reflect_bools;
    [by exists false|].
  exists ok. split; [done|]. intros -> s' c' Hs' Hc'.
  destruct (Hin s' c' Hs' Hc') as [[_ ->]|]; [|by eapply Hok].
  intros b' x' Heq Hx' _. apply slot_bytes_inj in Heq as [<- _]; done.
Qed.

Lemma adjust_apply_spec cs ls ss :
  Forall2 (slot_is old_base) cs ls → Forall (λ s, s < length cs)%nat ss → NoDup ss →
  (∀ s c, s ∈ ss → cs !! s = Some c → fits old_base new_base c) →
  ∃ cs', adjust_apply (concat cs) old_base new_base ((λ s, s * 4)%nat <$> ss) =
           Some (concat cs') ∧ length cs' = length cs ∧
    (∀ i, i ∉ ss → cs' !! i = cs !! i) ∧
    (∀ i l, i ∈ ss → ls !! i = Some l → ∃ c, cs' !! i = Some c ∧ slot_is new_base c l).
Proof.
  intros Hf. pose proof (slots_are4 _ _ _ Hf) as Hs.
  enough (∀ cs0, slots4 cs0 → length cs0 = length cs → (∀ i, i ∈ ss → cs0 !! i = cs !! i) →
    Forall (λ s, s < length cs)%nat ss → NoDup ss →
    (∀ s c, s ∈ ss → cs !! s = Some c → fits old_base new_base c) →
    ∃ cs', adjust_apply (concat cs0) old_base new_base ((λ s, s * 4)%nat <$> ss) =
           Some (concat cs') ∧ length cs' = length cs ∧
    (∀ i, i ∉ ss → cs' !! i = cs0 !! i) ∧
    (∀ i l, i ∈ ss → ls !! i = Some l → ∃ c, cs' !! i = Some c ∧ slot_is new_base c l)) as H
    by (intros; by apply H).
  induction ss as [|s ss IH]; intros cs0 H0 Hlen Hsame Hss Hnd Hfit.
  { exists cs0. split_and!; [done..|by intros i l ?%elem_of_nil]. }
  apply Forall_cons in Hss as [Hlt Hss]. apply NoDup_cons in Hnd as [Hnin Hnd].
  destruct (lookup_lt_is_Some_2 cs s Hlt) as [c Hc].
  destruct (Forall2_lookup_l _ _ _ _ _ Hf Hc) as (l & Hl & Hsl).
  pose proof (Hfit s c ltac:(left) Hc) as Hfc.
  destruct (slot_is_inv _ _ _ Hsl) as (b & x & -> & Hx & Hif).
  assert (cs0 !! s = Some (b :: le_bytes 3 x)) as Hc0 by (rewrite Hsame; [done|left]).
  cbn [fmap list_fmap adjust_apply]. rewrite (get_3byte_spec _ _ _ _ H0 Hc0 Hx). simpl.
  destruct (x =? THREE_BYTE_NEGATIVE_ONE) eqn:Ex; reflect_bools.
  - destruct (IH cs0) as (cs' & -> & Hl' & Ho & Hi); try done.
    { intros i Hin. apply Hsame. by right. } { intros s' c' Hin. apply Hfit. by right. }
    exists cs'. split_and!; [done..| |].
    + intros i [_ Hni]%not_elem_of_cons. by apply Ho.
    + intros i l' [->|Hin]%elem_of_cons Hl0; [|by eapply Hi].
      rewrite Ho by done. rewrite Hc0. eexists; split; [done|]. rewrite Hl in Hl0.
      injection Hl0 as <-. subst x l. constructor.
  - destruct Hif as (Hb & Hsum & Hmax & ->). specialize (Hfc b x eq_refl Hx Ex).
    pose proof (lookup_slots cs0 s 0 H0 ltac:(lia)) as Hb0.
    rewrite Nat.add_0_r, Hc0 in Hb0. rewrite Hb0. simpl.
    unfold in_u, is_byte, MAX_FILE_NUMBER_OFFSET in *. drop_wraps.
    pose proof (insert_slots cs0 s 0 _ (old_base + b - new_base) H0 ltac:(lia) Hc0) as Hset.
    rewrite Nat.add_0_r in Hset. rewrite Hset. cbn [mbind option_bind].
    destruct (IH (<[s := <[0%nat := old_base + b - new_base]> (b :: le_bytes 3 x)]> cs0))
      as (cs' & -> & Hl' & Ho & Hi); try done.
    { by auto with noxu. } { by rewrite length_insert. }
    { intros i Hin. rewrite list_lookup_insert_ne by set_solver. apply Hsame. by right. }
    { intros s' c' Hin. apply Hfit. by right. }
    exists cs'. split_and!; [done..| |].
    + intros i [Hne Hni]%not_elem_of_cons. rewrite Ho, list_lookup_insert_ne by done. done.
    + intros i l' [->|Hin]%elem_of_cons Hl0; [|by eapply Hi].
      rewrite Ho, list_lookup_insert_eq by (done || lia). eexists; split; [done|].
      rewrite Hl in Hl0. injection Hl0 as <-.
      replace (old_base + b) with (new_base + (old_base + b - new_base)) at 2 by lia.
      constructor; [unfold is_byte; lia|lia|done].
Qed.
End adjust.

Lemma slot_offsets_spec cs :
  slots4 cs → slot_offsets (length (concat cs)) = (λ s, s * 4)%nat <$> seq 0 (length cs).
Proof.
  intros Hs. unfold slot_offsets. change BYTES_PER_LSN_ENTRY with 4%nat.
  rewrite length_slots by done. do 2 f_equal.
  replace (length cs * 4 + 4 - 1)%nat with (3 + length cs * 4)%nat by lia.
  by rewrite Nat.div_add by lia.
Qed.

Lemma slots_in_range n : Forall (λ s, s < n)%nat (seq 0 n).
Proof. apply Forall_forall. intros s Hs. apply elem_of_seq in Hs. lia. Qed.

Lemma adjust_spec old_base new_base cs ls :
  in_u 32 old_base → 0 ≤ new_base < old_base → Forall2 (slot_is old_base) cs ls →
  adjust_file_numbers (concat cs) old_base new_base = Some (false, concat cs) ∨
  ∃ cs', adjust_file_numbers (concat cs) old_base new_base = Some (true, concat cs') ∧
    Forall2 (slot_is new_base) cs' ls.
Proof.
  intros Hold Hnew Hf. unfold adjust_file_numbers.
  rewrite slot_offsets_spec by by eapply slots_are4.
  destruct (adjust_check_spec old_base new_base Hnew cs ls (seq 0 (length cs)) Hf)
    as ([] & -> & Hok); [apply slots_in_range| |by left].
  right. simpl.
  destruct (adjust_apply_spec old_base new_base Hnew cs ls (seq 0 (length cs)) Hf)
    as (cs' & -> & Hlen & _ & Hin); [apply slots_in_range|apply NoDup_seq|by apply Hok|].
  exists cs'. split; [done|]. pose proof (Forall2_length _ _ _ Hf) as Hl.
  apply Forall2_same_length_lookup_2; [lia|]. intros i c l Hc Hil.
  destruct (Hin i l) as (c' & Hc' & Hsl); [apply elem_of_seq|done|congruence].
  apply lookup_lt_Some in Hil. lia.
Qed.

(** ** Updates *)

(** Overwriting the four bytes of a slot. *)
Lemma write_slot_spec base cs ls i l b x :
  Forall2 (slot_is base) cs ls → (i < length ls)%nat → 0 ≤ x < 2 ^ 24 →
  slot_is base (b :: le_bytes 3 x) l →
  ∃ cs', (bytes ← vec_set (i * 4) b (concat cs); put_3byte bytes (i * 4 + 1) x) =
           Some (concat cs') ∧ Forall2 (slot_is base) cs' (<[i := l]> ls).
Proof.
  intros Hf Hi Hx Hsl. pose proof (slots_are4 _ _ _ Hf) as Hs.
  pose proof (Forall2_length _ _ _ Hf) as Hlen.
  destruct (lookup_lt_is_Some_2 cs i ltac:(lia)) as [c Hc].
  pose proof (Forall_lookup_1 _ _ _ _ Hs Hc) as Hc4. destruct c as [|b0 t]; [done|].
  pose proof (insert_slots cs i 0 _ b Hs ltac:(lia) Hc) as Hset.
  rewrite Nat.add_0_r in Hset. rewrite Hset. cbn [mbind option_bind insert list_insert].
  erewrite put_3byte_spec; [|by auto with noxu|by rewrite list_lookup_insert_eq by lia|done].
  eexists; split; [done|]. rewrite list_insert_insert_eq. by apply Forall2_insert.
Qed.

Lemma write_lsn_spec base cs ls i lsn :
  in_u 32 base → in_u 64 lsn → Forall2 (slot_is base) cs ls → (i < length ls)%nat →
  file_offset lsn ≤ MAX_FILE_OFFSET → 0 ≤ file_number lsn - base ≤ 127 →
  ∃ r, (bytes ← vec_set (i * 4) (as_u 8 (file_number lsn - base)) (concat cs);
        bytes ← put_3byte bytes (i * 4 + 1) (file_offset lsn);
        Some (LCompact base bytes)) = Some r ∧ lsn_rep r (<[i := lsn]> ls).
Proof.
  intros Hb Hlsn Hf Hi Ho Hd.
  assert (in_u 32 (file_number lsn)) as Hfn by (apply Z.mod_pos_bound; lia).
  assert (in_u 32 (file_offset lsn)) as Hfo by (apply Z.mod_pos_bound; lia).
  unfold in_u, MAX_FILE_OFFSET in *.
  assert (slot_is base (file_number lsn - base :: le_bytes 3 (file_offset lsn)) lsn) as Hsl.
  { rewrite <-(Lsn_new_parts lsn) at 3 by done.
    replace (file_number lsn) with (base + (file_number lsn - base)) at 2 by lia.
    constructor; unfold is_byte, MAX_FILE_OFFSET; lia. }
  drop_wraps.
  destruct (write_slot_spec base cs ls i lsn _ (file_offset lsn) Hf Hi ltac:(lia) Hsl)
    as (cs2 & Hw & Hf2).
  destruct (vec_set (i * 4) _ (concat cs)); [|done]. cbn [mbind option_bind] in Hw |- *.
  rewrite Hw. eexists; split; [done|]. by constructor.
Qed.

Lemma mutate_to_long_spec base cs ls i lsn :
  in_u 32 base → Forall2 (slot_is base) cs ls → (i < length ls)%nat →
  mutate_to_long base (concat cs) i lsn = Some (LLong (<[i := lsn]> ls)).
Proof.
  intros Hb Hf Hi. unfold mutate_to_long. change BYTES_PER_LSN_ENTRY with 4%nat.
  rewrite length_slots, Nat.div_mul by (done || by eapply slots_are4).
  pose proof (Forall2_length _ _ _ Hf) as Hlen.
  assert (mapM (self_get_compact base (concat cs)) (seq 0 (length cs)) = Some ls) as ->.
  { apply mapM_Some, Forall2_same_length_lookup. rewrite length_seq. split; [done|].
    intros j s l Hj Hl. apply lookup_seq in Hj as [-> _]. by eapply self_get_compact_spec. }
  cbn [mbind option_bind]. replace (i + 1 - length cs)%nat with 0%nat by lia.
  unfold vec_set. simpl. rewrite app_nil_r, (proj2 (Nat.ltb_lt _ _)) by done. done.
Qed.

Lemma set_compact_spec base cs ls i lsn :
  in_u 32 base → Forall2 (slot_is base) cs ls → (i < length ls)%nat → in_u 64 lsn →
  ∃ r, set_compact base (concat cs) i lsn = Some r ∧ lsn_rep r (<[i := lsn]> ls).
Proof.
  intros Hb Hf Hi Hlsn. unfold set_compact, grow_compact. change BYTES_PER_LSN_ENTRY with 4%nat.
  pose proof (Forall2_length _ _ _ Hf) as Hlen.
  rewrite length_slots, (proj2 (Nat.ltb_ge _ _)) by (lia || by eapply slots_are4).
  cbn [mbind option_bind]. destruct (is_null lsn) eqn:En.
  { destruct (write_slot_spec base cs ls i NULL_LSN 0 THREE_BYTE_NEGATIVE_ONE) as (cs' & Hw & Hf');
      [done..|unfold THREE_BYTE_NEGATIVE_ONE; lia|constructor|].
    destruct (vec_set (i * 4) 0 (concat cs)); [|done]. cbn [mbind option_bind] in Hw |- *.
    rewrite Hw. eexists; split; [done|]. unfold is_null in En. reflect_bools. subst. by constructor. }
  assert (in_u 32 (file_number lsn)) as Hfn by (apply Z.mod_pos_bound; lia).
  assert (in_u 32 (file_offset lsn)) as Hfo by (apply Z.mod_pos_bound; lia).
  assert (∀ bytes, mutate_to_long base (concat cs) i lsn = bytes → ∃ r, bytes = Some r ∧ lsn_rep r (<[i := lsn]> ls))
    as Hmut by (intros ? <-; rewrite mutate_to_long_spec with (ls := ls) by done; eexists; split; [done|constructor]).
  destruct (MAX_FILE_OFFSET <? file_offset lsn) eqn:Eo; reflect_bools; [by apply Hmut|].
  unfold in_u, MAX_FILE_OFFSET in *.
  destruct (file_number lsn <? base) eqn:Ef; reflect_bools.
  - destruct (adjust_spec base (file_number lsn) cs ls) as [->|(cs' & -> & Hf')];
      [unfold in_u; lia|lia|done|by apply Hmut|]. cbn [mbind option_bind negb].
    apply write_lsn_spec; unfold in_u; (done || lia).
  - cbn [mbind option_bind]. unfold MAX_FILE_NUMBER_OFFSET.
    destruct (127 <? file_number lsn - base) eqn:Ed; reflect_bools; [by apply Hmut|].
    apply write_lsn_spec; unfold in_u; (done || lia).
Qed.

(** A zeroed array in which every slot but [i] is marked null. *)
Lemma mark_others_spec base n i :
  in_u 32 base → (i < n)%nat →
  ∃ cs, mark_null (replicate (n * 4) 0) (filter (λ s, s ≠ i) (seq 0 n)) = Some (concat cs) ∧
    Forall2 (slot_is base) cs (<[i := Lsn_new (base + 0) 0]> (replicate n NULL_LSN)).
Proof.
  intros Hb Hi. assert (replicate (n * 4) 0 = concat (replicate n (replicate 4 0))) as ->.
  { clear. induction n; simpl; [done|]. by rewrite IHn. }
  destruct (mark_null_spec (replicate n (replicate 4 0)) (filter (λ s, s ≠ i) (seq 0 n)))
    as (cs & -> & H4 & Hlen & Hcs).
  { by apply Forall_replicate. }
  { rewrite length_replicate. apply Forall_forall.
    intros s [_ ?%elem_of_seq]%list_elem_of_filter. lia. }
  rewrite length_replicate in Hlen. exists cs. split; [done|].
  apply Forall2_same_length_lookup_2; [by rewrite length_insert, length_replicate|].
  intros j c l Hc Hl. pose proof (lookup_lt_Some _ _ _ Hc) as Hj. rewrite Hlen in Hj.
  rewrite (Hcs j (replicate 4 0)) in Hc by (by apply lookup_replicate). injection Hc as <-.
  destruct (decide (j = i)) as [->|Hne].
  - rewrite list_lookup_insert_eq in Hl by (by rewrite length_replicate). injection Hl as <-.
    rewrite decide_False by (intros [? _]%list_elem_of_filter; done).
    apply (slot_lsn _ 0 0); unfold is_byte, in_u, MAX_FILE_OFFSET in *; lia.
  - rewrite list_lookup_insert_ne in Hl by done. apply lookup_replicate in Hl as [-> _].
    rewrite decide_True; [apply (slot_null base 0)|].
    apply list_elem_of_filter. rewrite elem_of_seq. split; [done|lia].
Qed.

Lemma LsnRep_set_spec r ls i lsn :
  lsn_rep r ls → (i < length ls)%nat → in_u 64 lsn →
  ∃ r', LsnRep_set r i lsn (length ls) = Some r' ∧ lsn_rep r' (<[i := lsn]> ls).
Proof.
  intros Hr Hi Hlsn. destruct Hr as [n|v|base cs ls Hb Hf]; simpl.
  - rewrite length_replicate in *. destruct (is_null lsn) eqn:En.
    { unfold is_null in En. reflect_bools. subst. eexists; split; [done|].
      rewrite list_insert_id; [constructor|by apply lookup_replicate]. }
    replace (n `max` (i + 1))%nat with n by lia. change BYTES_PER_LSN_ENTRY with 4%nat.
    assert (in_u 32 (file_number lsn)) as Hfn by (apply Z.mod_pos_bound; lia).
    destruct (mark_others_spec (file_number lsn) n i Hfn Hi) as (cs & -> & Hcs).
    cbn [mbind option_bind].
    rewrite <-(list_insert_insert_eq (replicate n NULL_LSN) i lsn (Lsn_new (file_number lsn + 0) 0)).
    apply set_compact_spec; [done..|by rewrite length_insert, length_replicate|done].
  - rewrite (proj2 (Nat.leb_gt _ _)) by done. unfold vec_set.
    rewrite (proj2 (Nat.ltb_lt _ _)) by done. eexists; split; [done|constructor].
  - by apply set_compact_spec.
Qed.

Lemma slots_split base cs ls i :
  Forall2 (slot_is base) cs ls → (i ≤ length ls)%nat →
  ∃ cs1 cs2, cs = cs1 ++ cs2 ∧ length cs1 = i ∧ length (concat cs1) = (i * 4)%nat ∧
    slots4 cs1 ∧ slots4 cs2 ∧
    Forall2 (slot_is base) cs1 (take i ls) ∧ Forall2 (slot_is base) cs2 (drop i ls).
Proof.
  intros Hf Hi. exists (take i cs), (drop i cs). pose proof (Forall2_length _ _ _ Hf).
  pose proof (slots_are4 _ _ _ Hf) as Hs.
  assert (length (take i cs) = i) as Hl by (rewrite length_take; lia).
  split_and!; [by rewrite take_drop|done| |by apply Forall_take|by apply Forall_drop
    |by apply Forall2_take|by apply Forall2_drop].
  rewrite length_slots by by apply Forall_take. lia.
Qed.

(** Shifting the tail [C] up by the length of [d]. *)
Lemma copy_within_insert (A C z d rest : list Z) a b e :
  C ++ z = d ++ rest → length z = length d →
  a = length A → b = (length A + length C)%nat → e = (length A + length d)%nat →
  copy_within a b e (A ++ C ++ z) = Some (A ++ d ++ C).
Proof.
  intros HB Hz -> -> ->. unfold copy_within.
  rewrite !length_app, !(proj2 (Nat.leb_le _ _)) by lia. cbn [andb].
  replace (length A + length C - length A)%nat with (length C) by lia.
  rewrite drop_app_length, take_app_length.
  assert (take (length A + length d) (A ++ C ++ z) = A ++ d) as ->.
  { rewrite HB, app_assoc. apply take_app_length'. by rewrite length_app. }
  rewrite drop_ge by (rewrite !length_app; lia). by rewrite app_nil_r, <-app_assoc.
Qed.

Lemma LsnRep_insert_shift_spec r ls i :
  lsn_rep r ls → (i ≤ length ls)%nat →
  ∃ r', LsnRep_insert_shift r i (S (length ls)) = Some r' ∧
    lsn_rep r' (take i ls ++ NULL_LSN :: drop i ls).
Proof.
  intros Hr Hi. destruct Hr as [n|v|base cs ls Hb Hf]; cbn [LsnRep_insert_shift].
  - rewrite length_replicate in Hi. eexists; split; [done|].
    rewrite take_replicate, drop_replicate, <-replicate_S, <-replicate_add. constructor.
  - rewrite (proj2 (Nat.leb_le _ _)), vec_insert_spec by done. eexists; split; [done|constructor].
  - change BYTES_PER_LSN_ENTRY with 4%nat. cbn zeta. pose proof (slots_are4 _ _ _ Hf) as Hs.
    pose proof (Forall2_length _ _ _ Hf) as Hlen.
    rewrite (length_slots cs Hs), Nat.div_mul by lia.
    replace (S (length ls) `max` (length cs + 1))%nat with (length cs + 1)%nat by lia.
    rewrite resize_ge by (rewrite length_slots by done; lia). rewrite length_slots by done.
    replace ((length cs + 1) * 4 - length cs * 4)%nat with 4%nat by lia.
    destruct (slots_split base cs ls i Hf Hi) as (cs1 & cs2 & -> & Hi1 & H1 & Hs1 & Hs2 & Hf1 & Hf2).
    assert (∃ d rest, cs2 ++ [replicate 4 0] = d :: rest ∧ length d = 4%nat) as (d & rest & Hd & Hd4).
    { destruct cs2 as [|d cs2]; [by eexists _, []|]. exists d, (cs2 ++ [replicate 4 0]).
      split; [done|]. by apply Forall_cons in Hs2 as [? _]. }
    assert (concat (cs1 ++ cs2) ++ replicate 4 0 = concat cs1 ++ d ++ concat rest) as HB.
    { rewrite <-concat_cons, <-Hd, concat_app, concat_app, app_assoc. by rewrite concat_cons, app_nil_r. }
    assert (concat cs2 ++ replicate 4 0 = d ++ concat rest) as HC.
    { rewrite concat_app, <-app_assoc in HB. by apply app_inv_head in HB. }
    rewrite concat_app, <-app_assoc.
    rewrite (copy_within_insert (concat cs1) (concat cs2) (replicate 4 0) d (concat rest));
      [|done|done|lia|rewrite H1, (length_slots cs2), length_app by done; lia|lia].
    cbn [mbind option_bind].
    replace (concat cs1 ++ d ++ concat cs2) with (concat (cs1 ++ d :: cs2)) by by rewrite concat_app.
    destruct d as [|b t]; [done|].
    erewrite (put_3byte_spec _ i b t); [| |by rewrite <-Hi1, list_lookup_middle|unfold THREE_BYTE_NEGATIVE_ONE; lia].
    2:{ apply Forall_app; split; [done|by constructor]. }
    eexists; split; [done|]. constructor; [done|]. rewrite insert_app_r_alt, Hi1, Nat.sub_diag by lia.
    apply Forall2_app; [done|]. constructor; [constructor|done].
Qed.

Lemma copy_within_remove A c C :
  copy_within (length A + length c) (length (A ++ c ++ C)) (length A) (A ++ c ++ C) =
  Some (A ++ C ++ drop (length A + length C) (A ++ c ++ C)).
Proof.
  unfold copy_within. rewrite !length_app, !(proj2 (Nat.leb_le _ _)) by lia. cbn [andb].
  replace (length A + (length c + length C) - (length A + length c))%nat with (length C) by lia.
  rewrite take_app_length. do 2 f_equal.
  rewrite (app_assoc A c), drop_app_length' by (by rewrite length_app).
  by rewrite take_ge by done.
Qed.

Lemma LsnRep_remove_shift_spec r ls i :
  lsn_rep r ls → (i < length ls)%nat →
  ∃ r', LsnRep_remove_shift r i = Some r' ∧ lsn_rep r' (delete i ls).
Proof.
  intros Hr Hi. destruct Hr as [n|v|base cs ls Hb Hf]; cbn [LsnRep_remove_shift].
  - rewrite length_replicate in Hi. eexists; split; [done|].
    rewrite delete_take_drop, take_replicate, drop_replicate, <-replicate_add. constructor.
  - rewrite (proj2 (Nat.ltb_lt _ _)) by done. eexists; split; [done|constructor].
  - change BYTES_PER_LSN_ENTRY with 4%nat. pose proof (slots_are4 _ _ _ Hf) as Hs.
    pose proof (Forall2_length _ _ _ Hf) as Hlen. cbn zeta.
    rewrite (proj2 (Nat.leb_le _ _)) by (rewrite length_slots by done; lia).
    destruct (slots_split base cs ls i Hf ltac:(lia)) as (cs1 & cs2 & -> & Hi1 & H1 & Hs1 & Hs2 & Hf1 & Hf2).
    destruct (lookup_lt_is_Some_2 ls i Hi) as [l Hl]. rewrite (drop_S ls l i Hl) in Hf2.
    apply Forall2_cons_inv_r in Hf2 as (c & cs2' & Hc & Hf2 & ->).
    rewrite concat_app, concat_cons. pose proof (slot_is_length _ _ _ Hc) as Hc4.
    replace (i * 4 + 4)%nat with (length (concat cs1) + length c)%nat by lia.
    rewrite <-H1, copy_within_remove. cbn [mbind option_bind]. eexists; split; [done|].
    rewrite (app_assoc _ (concat cs2')), take_app_length' by (rewrite !length_app; lia).
    rewrite <-concat_app. constructor; [done|]. rewrite delete_take_drop. by apply Forall2_app.
Qed.

Lemma set_all_spec r ls done_ n :
  n = length (done_ ++ ls) → Forall (in_u 64) ls →
  lsn_rep r (done_ ++ replicate (length ls) NULL_LSN) →
  ∃ r', set_all r (length done_) n ls = Some r' ∧ lsn_rep r' (done_ ++ ls).
Proof.
  intros -> Hls. revert r done_; induction Hls as [|l ls Hl Hls IH]; intros r done_ Hr.
  { by exists r. }
  cbn [set_all]. pose proof (LsnRep_set_spec _ _ (length done_) l Hr) as Hset.
  rewrite !length_app, length_replicate in Hset. rewrite length_app.
  destruct Hset as (r' & -> & Hr'); [simpl; lia|done|]. cbn [mbind option_bind].
  rewrite insert_app_r_alt, Nat.sub_diag in Hr' by lia. cbn in Hr'.
  destruct (IH r' (done_ ++ [l])) as (r2 & Hr2 & Hrep); [by rewrite <-app_assoc|].
  rewrite !length_app, <-app_assoc in *. simpl in *. rewrite Nat.add_1_r in Hr2.
  replace (length done_ + S (length ls))%nat with (S (length done_ + length ls))%nat in Hr2 |- * by lia.
  exists r2. split; [|done]. rewrite <-Hr2. f_equal. lia.
Qed.

Lemma from_lsns_spec ls :
  Forall (in_u 64) ls → ∃ r, from_lsns ls = Some r ∧ lsn_rep r ls.
Proof. intros Hls. apply (set_all_spec LEmpty ls []); [done..|constructor]. Qed.

(** ** Sequences of operations *)

Inductive lsn_op :=
| LGet (idx : nat)
| LSet (idx : nat) (lsn : Z)
| LInsert (idx : nat) (lsn : Z)
| LRemove (idx : nat).

(** On the array of a node of [n] slots: an insertion shifts and then sets, as
    [insert_entry] does. *)
Definition lsn_array_step (s : nat * LsnRep) (op : lsn_op) : option ((nat * LsnRep) * Z) :=
  let '(n, r) := s in
  match op with
  | LGet idx => lsn ← LsnRep_get r idx; Some (s, lsn)
  | LSet idx lsn => r ← LsnRep_set r idx lsn n; Some ((n, r), 0)
  | LInsert idx lsn =>
      r ← LsnRep_insert_shift r idx (S n); r ← LsnRep_set r idx lsn (S n); Some ((S n, r), 0)
  | LRemove idx => r ← LsnRep_remove_shift r idx; Some ((pred n, r), 0)
  end.

(** On a plain list of LSNs. *)
Definition lsn_list_step (ls : list Z) (op : lsn_op) : option (list Z * Z) :=
  match op with
  | LGet idx => Some (ls, default NULL_LSN (ls !! idx))
  | LSet idx lsn =>
      _ ← ls !! idx;
      if (0 <=? lsn) && (lsn <? 2 ^ 64) then Some (<[idx := lsn]> ls, 0) else None
  | LInsert idx lsn =>
      if (0 <=? lsn) && (lsn <? 2 ^ 64)
      then ls ← vec_insert idx lsn ls; Some (ls, 0) else None
  | LRemove idx => '(_, ls) ← vec_remove idx ls; Some (ls, 0)
  end.

Definition lsn_array_rep (s : nat * LsnRep) (ls : list Z) : Prop :=
  s.1 = length ls ∧ lsn_rep s.2 ls.

Lemma lsn_insert_spec r ls i lsn :
  lsn_rep r ls → (i ≤ length ls)%nat → in_u 64 lsn →
  ∃ r1 r2, LsnRep_insert_shift r i (S (length ls)) = Some r1 ∧
    LsnRep_set r1 i lsn (S (length ls)) = Some r2 ∧ lsn_rep r2 (take i ls ++ lsn :: drop i ls).
Proof.
  intros Hr Hi Hlsn. destruct (LsnRep_insert_shift_spec r ls i Hr Hi) as (r1 & -> & Hr1).
  assert (length (take i ls ++ NULL_LSN :: drop i ls) = S (length ls)) as Hlen
    by (rewrite length_app, length_take; simpl; rewrite length_drop; lia).
  destruct (LsnRep_set_spec r1 _ i lsn Hr1) as (r2 & Hr2 & Hrep); [lia|done|].
  rewrite Hlen in Hr2. exists r1, r2. split_and!; [done..|].
  rewrite insert_app_r_alt in Hrep by (rewrite length_take; lia).
  rewrite length_take_le, Nat.sub_diag in Hrep by done. done.
Qed.

Lemma lsn_array_step_spec s ls op ls' out :
  lsn_array_rep s ls → lsn_list_step ls op = Some (ls', out) →
  ∃ s', lsn_array_step s op = Some (s', out) ∧ lsn_array_rep s' ls'.
Proof.
  destruct s as [n r]. intros [Hn Hr] Hs. simpl in Hn, Hr. subst n.
  destruct op as [idx|idx lsn|idx lsn|idx]; simpl in *.
  - injection Hs as <- <-. rewrite (LsnRep_get_spec _ _ _ Hr). by eexists.
  - destruct (ls !! idx) eqn:Hk; [|done]. simpl in Hs.
    destruct ((0 <=? lsn) && (lsn <? 2 ^ 64)) eqn:Hu; [|done]. injection Hs as <- <-. reflect_bools.
    destruct (LsnRep_set_spec r ls idx lsn Hr) as (r' & -> & Hr'); [by eapply lookup_lt_Some|done|].
    eexists; split; [done|]. split; [by rewrite length_insert|done].
  - destruct ((0 <=? lsn) && (lsn <? 2 ^ 64)) eqn:Hu; [|done]. reflect_bools.
    unfold vec_insert in Hs. destruct (idx <=? length ls)%nat eqn:E; [|done]. reflect_bools.
    injection Hs as <- <-. destruct (lsn_insert_spec r ls idx lsn Hr E) as (r1 & r2 & -> & H2 & Hr2);
      [done|]. simpl. rewrite H2. eexists; split; [done|]. split; [|done].
    simpl. rewrite length_app, length_take. simpl. rewrite length_drop. lia.
  - unfold vec_remove in Hs. destruct (ls !! idx) eqn:Hk; [|done]. injection Hs as <- <-.
    pose proof (lookup_lt_Some _ _ _ Hk) as Hlt.
    destruct (LsnRep_remove_shift_spec r ls idx Hr Hlt) as (r' & -> & Hr').
    eexists; split; [done|]. split; [|done]. simpl. rewrite length_delete by done. lia.
Qed.

(** * Properties *)

(** C29: the packed LSN array behaves as a list of LSNs.  Built from any LSNs
    and taken through any sequence of reads, updates, insertions and removals
    that a plain list allows, it never panics and reads every slot as the list
    does (null past its end), however often it rebases its file numbers or
    falls back to whole LSNs. *)
Theorem lsn_array_refines_list (ls0 : list Z) (ops : list lsn_op) (ls outs : list Z)
  (H0 : Forall (in_u 64) ls0) (Hrun : run_steps lsn_list_step ls0 ops = Some (ls, outs)) :
  ∃ r0 r, from_lsns ls0 = Some r0 ∧
    run_steps lsn_array_step (length ls0, r0) ops = Some ((length ls, r), outs) ∧
    ∀ i, LsnRep_get r i = Some (default NULL_LSN (ls !! i)).
Proof.
  destruct (from_lsns_spec ls0 H0) as (r0 & Hr0 & Hrep0).
  destruct (run_steps_refine lsn_array_rep lsn_array_step lsn_list_step lsn_array_step_spec
              ops (length ls0, r0) ls0 ls outs) as ([n r] & Hr & Hn & Hrep); [done..|].
  simpl in Hn, Hrep. subst n. exists r0, r. split_and!; [done..|].
  intros i. by apply LsnRep_get_spec.
Qed.

(** Rebased below file 5, shifted, and then widened by an LSN of file 500. *)
Definition demo_lsn_ops : list lsn_op :=
  [LInsert 1 (Lsn_new 3 7); LSet 0 NULL_LSN; LGet 2; LInsert 0 (Lsn_new 500 9); LGet 2; LRemove 1].

Lemma lsn_array_refines_list_witness :
  ∃ r0 r, from_lsns [Lsn_new 5 100; Lsn_new 5 200] = Some r0 ∧
    run_steps lsn_array_step (2%nat, r0) demo_lsn_ops =
      Some ((3%nat, r), [0; 0; Lsn_new 5 200; 0; Lsn_new 3 7; 0]) ∧
    ∀ i, LsnRep_get r i =
      Some (default NULL_LSN ([Lsn_new 500 9; Lsn_new 3 7; Lsn_new 5 200] !! i)).
Proof.
  apply (lsn_array_refines_list [Lsn_new 5 100; Lsn_new 5 200] demo_lsn_ops
           [Lsn_new 500 9; Lsn_new 3 7; Lsn_new 5 200]).
  - repeat constructor; vm_compute; done.
  - vm_compute. reflexivity.
Defined.
