(* ===== verification/TargetRep.v ===== *)
(** * The cached children of a node (noxu-tree, [TargetRep] of [tree.rs])

    The children of an internal node that are in memory: none, a short list of
    (slot, child) pairs, or one optional child per slot.  A child is a handle
    of any type.  [None] as the result of an operation is a panic (an index
    out of range or an overflow of a 16-bit slot index).

    A node of [n] slots is represented well when the indices are below [n]
    ([targets_wf]); on such a node each operation is shown to have its effect
    on the partial map from slots to children that [TargetRep_get] reads. *)

From S2P Require Import Prelude Bytes Keys LsnRep.

Section targets.
Context {A : Type}.

Inductive TargetRep :=
| TNone
| TSparse (v : list (nat * A))
| TDefault (v : list (option A)).

Definition SPARSE_MAX_ENTRIES : nat := 4.

(** [v.iter().position(|(i, _)| *i as usize == idx)]. *)
Fixpoint position (idx : nat) (v : list (nat * A)) : option nat :=
  match v with
  | [] => None
  | (i, _) :: v => if (i =? idx)%nat then Some 0%nat else S <$> position idx v
  end.

(** [v.swap_remove(pos)]: the last element takes the place of the removed one. *)
Definition swap_remove {B} (pos : nat) (v : list B) : option (B * list B) :=
  x ← v !! pos; y ← last v; Some (x, take (pred (length v)) (<[pos := y]> v)).

Definition TargetRep_get (t : TargetRep) (idx : nat) : option A :=
  match t with
  | TNone => None
  | TSparse v => pos ← position idx v; snd <$> v !! pos
  | TDefault v => o ← v !! idx; o
  end.

(** [for (i, c) in v.drain(..) { def[i as usize] = Some(c); }]. *)
Fixpoint fill (v : list (nat * A)) (def : list (option A)) : option (list (option A)) :=
  match v with
  | [] => Some def
  | (i, c) :: v => def ← vec_set i (Some c) def; fill v def
  end.

Definition TargetRep_set (t : TargetRep) (idx : nat) (node : option A) : option TargetRep :=
  match t with
  | TNone =>
      match node with
      | Some child => Some (TSparse [(as_u16 idx, child)])
      | None => Some TNone
      end
  | TSparse v =>
      match position idx v with
      | Some pos =>
          match node with
          | Some child => '(i, _) ← v !! pos; Some (TSparse (<[pos := (i, child)]> v))
          | None => '(_, v) ← swap_remove pos v; Some (TSparse v)
          end
      | None =>
          match node with
          | None => Some t
          | Some child =>
              if (length v <? SPARSE_MAX_ENTRIES)%nat
              then Some (TSparse (v ++ [(as_u16 idx, child)]))
              else
                let cap := (max_list (fst <$> v) `max` idx + 1)%nat in
                def ← fill v (replicate cap None);
                def ← vec_set idx (Some child) def;
                Some (TDefault def)
          end
      end
  | TDefault v =>
      if (length v <=? idx)%nat then
        match node with
        | None => Some t
        | Some _ => v ← vec_set idx node (resize (idx + 1) None v); Some (TDefault v)
        end
      else v ← vec_set idx node v; Some (TDefault v)
  end.

Definition TargetRep_take (t : TargetRep) (idx : nat) : option (option A * TargetRep) :=
  match t with
  | TNone => Some (None, t)
  | TSparse v =>
      match position idx v with
      | Some pos => '((_, c), v) ← swap_remove pos v; Some (Some c, TSparse v)
      | None => Some (None, t)
      end
  | TDefault v =>
      match v !! idx with
      | Some o => Some (o, TDefault (<[idx := None]> v))
      | None => Some (None, t)
      end
  end.

(** [*i += 1] on a [u16]: an overflow panics. *)
Definition shift_up (idx : nat) (p : nat * A) : option (nat * A) :=
  let '(i, c) := p in
  if (idx <=? i)%nat then if Z.of_nat (S i) <? 2 ^ 16 then Some (S i, c) else None else Some (i, c).

Definition TargetRep_insert_shift (t : TargetRep) (idx : nat) : option TargetRep :=
  match t with
  | TNone => Some t
  | TSparse v => TSparse <$> mapM (shift_up idx) v
  | TDefault v => if (idx <=? length v)%nat then TDefault <$> vec_insert idx None v else Some t
  end.

Definition shift_down (idx : nat) (p : nat * A) : nat * A :=
  let '(i, c) := p in (if (idx <? i)%nat then pred i else i, c).

Definition TargetRep_remove_shift (t : TargetRep) (idx : nat) : TargetRep :=
  match t with
  | TNone => t
  | TSparse v => TSparse (shift_down idx <$> filter (λ p, p.1 ≠ idx) v)
  | TDefault v => if (idx <? length v)%nat then TDefault (delete idx v) else t
  end.

Definition resident_count (t : TargetRep) : nat :=
  match t with
  | TNone => 0
  | TSparse v => length v
  | TDefault v => length (omap id v)
  end.

Definition iter_children (t : TargetRep) : list A :=
  match t with
  | TNone => []
  | TSparse v => snd <$> v
  | TDefault v => omap id v
  end.

(** [v.iter().enumerate().filter_map(..)]: the resident children with their slots. *)
Fixpoint enumerate_from (i : nat) (v : list (option A)) : list (nat * A) :=
  match v with
  | [] => []
  | Some c :: v => (as_u16 i, c) :: enumerate_from (S i) v
  | None :: v => enumerate_from (S i) v
  end.

Definition TargetRep_compact (t : TargetRep) : TargetRep :=
  let count := resident_count t in
  if (count =? 0)%nat then TNone
  else if (count <=? SPARSE_MAX_ENTRIES)%nat then
    match t with
    | TDefault v => TSparse (enumerate_from 0 v)
    | _ => t
    end
  else t.

(** * Theorems *)

(** The indices of a node of [n] slots. *)
Inductive targets_wf (n : nat) : TargetRep → Prop :=
| wf_none : targets_wf n TNone
| wf_sparse v :
    NoDup v.*1 → Forall (λ i, i < n)%nat v.*1 → (length v ≤ SPARSE_MAX_ENTRIES)%nat →
    targets_wf n (TSparse v)
| wf_default v : (length v ≤ n)%nat → targets_wf n (TDefault v).

(** The child of a slot in a list of pairs. *)
Lemma sparse_get idx c v :
  NoDup v.*1 → (TargetRep_get (TSparse v) idx = Some c ↔ (idx, c) ∈ v).
Proof.
  simpl. induction v as [|[i d] v IH]; intros Hnd; [by rewrite elem_of_nil|].
  rewrite fmap_cons, NoDup_cons in Hnd. destruct Hnd as [Hni Hnd]. specialize (IH Hnd).
  rewrite elem_of_cons. simpl. destruct (i =? idx)%nat eqn:E; reflect_bools; simpl.
  - subst. split; [intros [= ->]; by left|]. intros [[= ->]|Hin]; [done|]. destruct Hni.
    by apply (list_elem_of_fmap_2 fst) in Hin.
  - destruct (position idx v) as [pos|] eqn:Hp; simpl in *; rewrite IH; naive_solver.
Qed.

Lemma sparse_get_none idx v :
  NoDup v.*1 → (TargetRep_get (TSparse v) idx = None ↔ idx ∉ v.*1).
Proof.
  intros Hnd. split.
  - intros Hn Hin. apply list_elem_of_fmap in Hin as ([i c] & -> & Hin). simpl in *.
    apply (sparse_get i c v Hnd) in Hin. simpl in *. congruence.
  - intros Hni. destruct (TargetRep_get (TSparse v) idx) as [c|] eqn:E; [|done].
    apply sparse_get in E; [|done]. destruct Hni. by apply (list_elem_of_fmap_2 fst) in E.
Qed.

Lemma position_spec idx v :
  match position idx v with
  | Some pos => ∃ c v1 v2, v = v1 ++ (idx, c) :: v2 ∧ pos = length v1 ∧ idx ∉ v1.*1
  | None => idx ∉ v.*1
  end.
Proof.
  induction v as [|[i d] v IH]; simpl; [apply not_elem_of_nil|].
  destruct (i =? idx)%nat eqn:E; reflect_bools; simpl.
  - subst. exists d, [], v. split_and!; [done..|apply not_elem_of_nil].
  - destruct (position idx v) as [pos|]; simpl.
    + destruct IH as (c & v1 & v2 & -> & -> & Hni). exists c, ((i, d) :: v1), v2.
      split_and!; [done..|]. simpl. rewrite not_elem_of_cons. naive_solver.
    + rewrite not_elem_of_cons. naive_solver.
Qed.

(** [swap_remove] keeps the other elements, in another order. *)
Lemma swap_remove_spec {B} (v1 v2 : list B) x :
  ∃ v', swap_remove (length v1) (v1 ++ x :: v2) = Some (x, v') ∧ v' ≡ₚ v1 ++ v2.
Proof.
  unfold swap_remove. rewrite list_lookup_middle by done. simpl.
  destruct v2 as [|y v2 _] using rev_ind.
  - rewrite last_snoc. simpl. rewrite length_app. simpl. eexists; split; [done|].
    replace (pred (length v1 + 1)) with (length v1) by lia.
    rewrite insert_app_r_alt, Nat.sub_diag by lia. simpl. by rewrite take_app_length, app_nil_r.
  - rewrite app_comm_cons, app_assoc, last_snoc. simpl. eexists; split; [done|].
    rewrite insert_app_l by (rewrite length_app; simpl; lia).
    rewrite insert_app_r_alt, Nat.sub_diag by lia. simpl.
    rewrite take_app_length' by (rewrite !length_app; simpl; lia).
    rewrite <-Permutation_middle, (app_assoc v1 v2), (Permutation_app_comm (v1 ++ v2)). done.
Qed.

(** Two lists with the same pairs read the same. *)
Lemma sparse_get_perm v v' idx :
  NoDup v.*1 → v ≡ₚ v' → TargetRep_get (TSparse v) idx = TargetRep_get (TSparse v') idx.
Proof.
  intros Hnd Hp. assert (NoDup v'.*1) as Hnd' by by rewrite <-Hp.
  apply option_eq. intros c. by rewrite !sparse_get, Hp.
Qed.

Lemma sparse_get_ext v v' idx idx' :
  NoDup v.*1 → NoDup v'.*1 → (∀ c, (idx, c) ∈ v ↔ (idx', c) ∈ v') →
  TargetRep_get (TSparse v) idx = TargetRep_get (TSparse v') idx'.
Proof. intros Hnd Hnd' H. apply option_eq. intros c. by rewrite !sparse_get, H. Qed.

Lemma default_get v idx : TargetRep_get (TDefault v) idx = v !! idx ≫= id.
Proof. done. Qed.

Lemma fill_spec v def :
  NoDup v.*1 → Forall (λ i, i < length def)%nat v.*1 →
  ∃ def', fill v def = Some def' ∧ length def' = length def ∧
    ∀ j, def' !! j = if decide (j ∈ v.*1) then Some (TargetRep_get (TSparse v) j) else def !! j.
Proof.
  revert def; induction v as [|[i c] v IH]; intros def Hnd Hlt.
  { exists def. split_and!; [done..|]. intros j. rewrite decide_False by apply not_elem_of_nil. done. }
  rewrite fmap_cons in *. apply NoDup_cons in Hnd as [Hni Hnd]. apply Forall_cons in Hlt as [Hi Hlt].
  cbn [fill]. unfold vec_set. simpl in Hi. rewrite (proj2 (Nat.ltb_lt _ _)) by done.
  cbn [mbind option_bind].
  destruct (IH (<[i := Some c]> def) Hnd) as (def' & -> & Hlen & Hget); [by rewrite length_insert|].
  exists def'. split_and!; [done|by rewrite Hlen, length_insert|]. intros j. rewrite Hget.
  simpl in *. destruct (decide (j = i)) as [->|Hne].
  - rewrite decide_False, decide_True by (done || left). rewrite Nat.eqb_refl. simpl.
    by apply list_lookup_insert_eq.
  - rewrite (proj2 (Nat.eqb_neq i j)), list_lookup_insert_ne by done.
    destruct (decide (j ∈ v.*1)).
    + rewrite decide_True by (by right). by destruct (position j v).
    + by rewrite decide_False by (rewrite not_elem_of_cons; naive_solver).
Qed.

Lemma as_u16_slot n i : Z.of_nat n ≤ 2 ^ 16 → (i < n)%nat → as_u16 i = i.
Proof. intros. apply as_u16_id. lia. Qed.

Lemma max_list_lt (l : list nat) n : (0 < n)%nat → (∀ x, x ∈ l → x < n)%nat → (max_list l < n)%nat.
Proof.
  intros Hn. induction l as [|x l IH]; intros Hl; simpl; [done|].
  pose proof (Hl x ltac:(left)). assert (max_list l < n)%nat; [|lia].
  apply IH. intros y Hy. apply Hl. by right.
Qed.

(** Replacing, dropping and adding a pair. *)
Lemma sparse_replace v1 v2 idx c d j :
  NoDup (v1 ++ (idx, c) :: v2).*1 →
  TargetRep_get (TSparse (v1 ++ (idx, d) :: v2)) j =
  if decide (j = idx) then Some d else TargetRep_get (TSparse (v1 ++ (idx, c) :: v2)) j.
Proof.
  intros Hnd. assert (NoDup (v1 ++ (idx, d) :: v2).*1) as Hnd' by (by rewrite fmap_app in *).
  case_decide; subst.
  - apply sparse_get; [done|]. apply elem_of_app. right. left.
  - apply sparse_get_ext; [done..|]. intros x. rewrite !elem_of_app, !elem_of_cons. naive_solver.
Qed.

Lemma sparse_drop v1 v2 idx c v' j :
  NoDup (v1 ++ (idx, c) :: v2).*1 → v' ≡ₚ v1 ++ v2 →
  TargetRep_get (TSparse v') j =
  if decide (j = idx) then None else TargetRep_get (TSparse (v1 ++ (idx, c) :: v2)) j.
Proof.
  intros Hnd Hp. pose proof Hnd as Hnd1.
  rewrite <-Permutation_middle, fmap_cons, NoDup_cons in Hnd1. destruct Hnd1 as [Hni Hnd1].
  assert (NoDup v'.*1) as Hnd' by by rewrite Hp. case_decide; subst.
  - apply sparse_get_none; [done|]. by rewrite Hp.
  - apply sparse_get_ext; [done..|]. intros x. rewrite Hp, !elem_of_app, !elem_of_cons. naive_solver.
Qed.

Lemma sparse_add v idx c :
  NoDup v.*1 → idx ∉ v.*1 →
  NoDup (v ++ [(idx, c)]).*1 ∧
  ∀ j, TargetRep_get (TSparse (v ++ [(idx, c)])) j =
       if decide (j = idx) then Some c else TargetRep_get (TSparse v) j.
Proof.
  intros Hnd Hni. assert (NoDup (v ++ [(idx, c)]).*1) as Hnd'.
  { rewrite fmap_app. apply NoDup_app. split_and!; [done| |apply NoDup_singleton].
    intros x Hx ->%list_elem_of_singleton. done. }
  split; [done|]. intros j. case_decide; subst.
  - apply sparse_get; [done|]. apply elem_of_app. right. left.
  - apply sparse_get_ext; [done..|]. intros x. rewrite elem_of_app, list_elem_of_singleton.
    naive_solver.
Qed.

(** The list of pairs laid out in an array that has room for slot [idx]. *)
Lemma sparse_inflate n v idx (c : A) :
  NoDup v.*1 → Forall (λ i, i < n)%nat v.*1 → (idx < n)%nat →
  ∃ def, fill v (replicate (max_list v.*1 `max` idx + 1) None) = Some def ∧
    (idx < length def ≤ n)%nat ∧
    ∀ j, TargetRep_get (TDefault def) j = TargetRep_get (TSparse v) j.
Proof.
  intros Hnd Hlt Hi. set (cap := (max_list v.*1 `max` idx + 1)%nat).
  destruct (fill_spec v (replicate cap None) Hnd) as (def & -> & Hdl & Hget).
  { rewrite length_replicate. apply Forall_forall. intros i Hin%max_list_elem. unfold cap. lia. }
  rewrite length_replicate in *. exists def. split; [done|]. split.
  - rewrite Hdl. unfold cap. assert (max_list v.*1 < n)%nat; [|lia].
    apply max_list_lt; [lia|]. by apply Forall_forall.
  - intros j. rewrite default_get, Hget. case_decide; [done|].
    rewrite (proj2 (sparse_get_none j v Hnd)) by done.
    destruct (replicate cap None !! j) as [o|] eqn:Hr; [|done].
    by apply lookup_replicate in Hr as [-> _].
Qed.

Lemma sparse_set_spec n v idx node :
  Z.of_nat n ≤ 2 ^ 16 → (idx < n)%nat → targets_wf n (TSparse v) →
  ∃ t', TargetRep_set (TSparse v) idx node = Some t' ∧ targets_wf n t' ∧
    ∀ j, TargetRep_get t' j = if decide (j = idx) then node else TargetRep_get (TSparse v) j.
Proof.
  intros Hn Hi Hwf. inversion Hwf as [|? Hnd Hlt Hlen|]; subst. cbn [TargetRep_set].
  pose proof (position_spec idx v) as Hpos. destruct (position idx v) as [pos|].
  - destruct Hpos as (c & v1 & v2 & -> & -> & Hni). destruct node as [child|].
    + rewrite list_lookup_middle by done. cbn [mbind option_bind].
      rewrite insert_app_r_alt, Nat.sub_diag by lia. eexists; split; [done|]. split.
      * constructor; [by rewrite fmap_app in *..|by rewrite length_app in *].
      * intros j. by apply sparse_replace.
    + destruct (swap_remove_spec v1 v2 (idx, c)) as (v' & -> & Hp). eexists; split; [done|].
      rewrite <-Permutation_middle, fmap_cons in *. split.
      * apply NoDup_cons in Hnd as [_ Hnd]. apply Forall_cons in Hlt as [_ Hlt].
        constructor; [by rewrite Hp..|rewrite Hp]. simpl in Hlen. lia.
      * intros j. apply sparse_drop; [|done]. by rewrite <-Permutation_middle, fmap_cons.
  - destruct node as [child|].
    2:{ eexists; split; [done|]. split; [done|]. intros j. case_decide; subst; [|done].
        by apply sparse_get_none. }
    destruct (length v <? SPARSE_MAX_ENTRIES)%nat eqn:E; reflect_bools.
    + rewrite (as_u16_slot n) by done. eexists; split; [done|].
      destruct (sparse_add v idx child Hnd Hpos) as [Hnd' Hget]. split; [|done].
      constructor; [done| |rewrite length_app; simpl; lia].
      rewrite fmap_app. apply Forall_app. split; [done|]. by constructor.
    + destruct (sparse_inflate n v idx child Hnd Hlt Hi) as (def & -> & Hdl & Hget).
      cbn [mbind option_bind]. unfold vec_set.
      rewrite (proj2 (Nat.ltb_lt _ _)) by lia. eexists; split; [done|].
      split; [constructor; rewrite length_insert; lia|].
      intros j. rewrite default_get. case_decide; subst.
      * by rewrite list_lookup_insert_eq by lia.
      * rewrite list_lookup_insert_ne by done. apply Hget.
Qed.

Lemma default_set_get v idx o j :
  (idx < length v)%nat →
  TargetRep_get (TDefault (<[idx := o]> v)) j =
  if decide (j = idx) then o else TargetRep_get (TDefault v) j.
Proof.
  intros Hi. rewrite !default_get. case_decide; subst.
  - by rewrite list_lookup_insert_eq.
  - by rewrite list_lookup_insert_ne.
Qed.

Lemma default_resize_get v m j :
  (length v ≤ m)%nat → TargetRep_get (TDefault (resize m None v)) j = TargetRep_get (TDefault v) j.
Proof.
  intros Hm. rewrite !default_get, resize_ge by done.
  destruct (decide (j < length v)%nat) as [Hj|Hj]; [by rewrite lookup_app_l|].
  rewrite lookup_app_r, (lookup_ge_None_2 v) by lia.
  destruct (replicate _ None !! _) eqn:E; [|done]. by apply lookup_replicate in E as [-> _].
Qed.

(** Setting a slot. *)
Lemma TargetRep_set_spec n t idx node :
  Z.of_nat n ≤ 2 ^ 16 → (idx < n)%nat → targets_wf n t →
  ∃ t', TargetRep_set t idx node = Some t' ∧ targets_wf n t' ∧
    ∀ j, TargetRep_get t' j = if decide (j = idx) then node else TargetRep_get t j.
Proof.
  intros Hn Hi Hwf. destruct t as [|v|v]; [|by apply sparse_set_spec|]; cbn [TargetRep_set].
  - destruct node as [c|]; [|exists TNone; split_and!; [done..|]; intros; by case_decide].
    rewrite (as_u16_slot n) by done. eexists; split; [done|].
    destruct (sparse_add [] idx c) as [Hnd Hget]; [constructor|apply not_elem_of_nil|].
    split; [|done]. constructor; [done|by constructor|unfold SPARSE_MAX_ENTRIES; simpl; lia].
  - inversion Hwf as [| |? Hl]; subst. unfold vec_set.
    destruct (length v <=? idx)%nat eqn:E; reflect_bools.
    + destruct node as [c|].
      * rewrite length_resize, (proj2 (Nat.ltb_lt _ _)) by lia. eexists; split; [done|].
        split; [constructor; rewrite length_insert, length_resize; lia|].
        intros j. rewrite default_set_get by (rewrite length_resize; lia).
        by rewrite default_resize_get by lia.
      * eexists; split_and!; [done..|]. intros j. case_decide; subst; [|done].
        by rewrite default_get, lookup_ge_None_2.
    + rewrite (proj2 (Nat.ltb_lt _ _)) by done. eexists; split; [done|].
      split; [constructor; by rewrite length_insert|]. intros j. by apply default_set_get.
Qed.

(** Taking a child is reading and clearing its slot. *)
Lemma TargetRep_take_spec n t idx :
  targets_wf n t →
  ∃ t', TargetRep_take t idx = Some (TargetRep_get t idx, t') ∧ targets_wf n t' ∧
    ∀ j, TargetRep_get t' j = if decide (j = idx) then None else TargetRep_get t j.
Proof.
  intros Hwf. destruct t as [|v|v]; cbn [TargetRep_take].
  - exists TNone. split_and!; [done..|]. intros; by case_decide.
  - inversion Hwf as [|? Hnd Hlt Hlen|]; subst. pose proof (position_spec idx v) as Hpos.
    destruct (position idx v) as [pos|] eqn:E.
    + destruct Hpos as (c & v1 & v2 & -> & -> & Hni). cbn [TargetRep_get]. rewrite E.
      destruct (swap_remove_spec v1 v2 (idx, c)) as (v' & -> & Hp). cbn [mbind option_bind].
      rewrite list_lookup_middle by done. eexists; split; [done|].
      split; [|intros j; rewrite (sparse_drop v1 v2 idx c v' j) by done; done].
      rewrite <-Permutation_middle, fmap_cons in *.
      apply NoDup_cons in Hnd as [_ Hnd]. apply Forall_cons in Hlt as [_ Hlt].
      constructor; [by rewrite Hp..|rewrite Hp]. simpl in Hlen. lia.
    + exists (TSparse v). cbn [TargetRep_get]. rewrite E. split_and!; [done..|].
      intros j. case_decide; [|done]. subst. by rewrite E.
  - inversion Hwf as [| |? Hl]; subst. destruct (v !! idx) as [o|] eqn:E.
    + pose proof (lookup_lt_Some _ _ _ E). eexists. rewrite default_get, E. split; [done|].
      split; [constructor; by rewrite length_insert|]. intros j. by apply default_set_get.
    + eexists. rewrite default_get, E. split_and!; [done..|]. intros j. case_decide; subst; [|done].
      by rewrite default_get, E.
Qed.

(** ** Shifts *)

(** The slot that slot [j] was before an insertion at [idx], if it was one. *)
Definition before_insert (idx j : nat) : option nat :=
  if (j <? idx)%nat then Some j else if (j =? idx)%nat then None else Some (pred j).

Definition moved_up (idx i : nat) : nat := if (idx <=? i)%nat then S i else i.

Lemma shift_up_spec n idx v :
  Z.of_nat n < 2 ^ 16 → Forall (λ i, i < n)%nat v.*1 →
  mapM (shift_up idx) v =
  Some ((λ p : nat * A, (moved_up idx p.1, p.2)) <$> v).
Proof.
  intros Hn. induction v as [|[i c] v IH]; intros Hlt; [done|].
  apply Forall_cons in Hlt as [Hi Hlt]. simpl in Hi. cbn [mapM fmap list_fmap shift_up fst snd].
  rewrite (IH Hlt). unfold moved_up. destruct (idx <=? i)%nat; [|done].
  by rewrite (proj2 (Z.ltb_lt _ _)) by lia.
Qed.

Lemma map_index_NoDup (f : nat → nat) (v : list (nat * A)) :
  (∀ i j, i ∈ v.*1 → j ∈ v.*1 → f i = f j → i = j) → NoDup v.*1 →
  NoDup ((λ p, (f p.1, p.2)) <$> v).*1.
Proof.
  intros Hinj. rewrite <-list_fmap_compose.
  change ((fst ∘ (λ p : nat * A, (f p.1, p.2))) <$> v) with ((f ∘ fst) <$> v).
  rewrite list_fmap_compose. intros Hnd. apply NoDup_fmap_2_strong; [|done].
  intros i j Hi Hj. by apply Hinj.
Qed.

Lemma elem_of_map_index (f : nat → nat) (v : list (nat * A)) j c :
  (j, c) ∈ (λ p, (f p.1, p.2)) <$> v ↔ ∃ i, f i = j ∧ (i, c) ∈ v.
Proof.
  rewrite list_elem_of_fmap. split.
  - intros ([i d] & [= -> ->] & Hin). by exists i.
  - intros (i & <- & Hin). by exists (i, c).
Qed.

Lemma sparse_insert_shift n v idx :
  Z.of_nat n < 2 ^ 16 → (idx ≤ n)%nat → targets_wf n (TSparse v) →
  ∃ t', TargetRep_insert_shift (TSparse v) idx = Some t' ∧ targets_wf (S n) t' ∧
    ∀ j, TargetRep_get t' j = i ← before_insert idx j; TargetRep_get (TSparse v) i.
Proof.
  intros Hn Hi Hwf. cbn [TargetRep_insert_shift].
  inversion Hwf as [|? Hnd Hlt Hlen|]; subst. rewrite (shift_up_spec n) by done.
  eexists; split; [done|]. set (f := moved_up idx).
  assert (NoDup ((λ p : nat * A, (f p.1, p.2)) <$> v).*1) as Hnd'.
  { apply map_index_NoDup; [|done]. intros i j _ _. unfold f, moved_up. repeat split_match; reflect_bools; lia. }
  split.
  + constructor; [done| |by rewrite length_fmap]. apply Forall_fmap, Forall_forall.
    intros [j c] Hin%elem_of_map_index. destruct Hin as (i & <- & Hin).
    apply (list_elem_of_fmap_2 fst), (proj1 (Forall_forall _ _) Hlt) in Hin. simpl in *.
    unfold f, moved_up. split_match; lia.
  + intros j. unfold before_insert.
    destruct (j <? idx)%nat eqn:E1; [|destruct (j =? idx)%nat eqn:E2]; reflect_bools;
      cbn [mbind option_bind].
    * apply sparse_get_ext; [done..|]. intros c. rewrite elem_of_map_index. unfold f, moved_up. split.
      -- intros (i & Hf & Hin). revert Hf. split_match; reflect_bools; intros; subst; [lia|done].
      -- intros Hin. exists j. split; [|done]. split_match; reflect_bools; lia.
    * apply sparse_get_none; [done|]. intros ([? c] & Hj & Hin)%list_elem_of_fmap. simpl in Hj. subst.
      apply elem_of_map_index in Hin as (i & Hf & _). revert Hf. unfold f, moved_up.
      split_match; reflect_bools; lia.
    * apply sparse_get_ext; [done..|]. intros c. rewrite elem_of_map_index. unfold f, moved_up. split.
      -- intros (i & Hf & Hin). revert Hf. split_match; reflect_bools; intros; subst; [done|lia].
      -- intros Hin. exists (pred j). split; [|done]. split_match; reflect_bools; lia.
Qed.

Lemma default_insert_shift n v idx :
  Z.of_nat n < 2 ^ 16 → (idx ≤ n)%nat → targets_wf n (TDefault v) →
  ∃ t', TargetRep_insert_shift (TDefault v) idx = Some t' ∧ targets_wf (S n) t' ∧
    ∀ j, TargetRep_get t' j = i ← before_insert idx j; TargetRep_get (TDefault v) i.
Proof.
  intros Hn Hi Hwf. cbn [TargetRep_insert_shift].
  inversion Hwf as [| |? Hl]; subst. destruct (idx <=? length v)%nat eqn:E; reflect_bools.
  + rewrite vec_insert_spec by done. eexists; split; [done|].
    split; [constructor; rewrite length_app, length_take; simpl; rewrite length_drop; lia|].
    intros j. rewrite default_get. unfold before_insert.
    destruct (j <? idx)%nat eqn:E1; [|destruct (j =? idx)%nat eqn:E2]; reflect_bools;
      cbn [mbind option_bind]; rewrite ?default_get.
    * by rewrite lookup_app_l, lookup_take_lt by (rewrite ?length_take; lia).
    * subst. rewrite lookup_app_r, length_take_le, Nat.sub_diag by (rewrite ?length_take; lia). done.
    * rewrite lookup_app_r, length_take_le by (rewrite ?length_take; lia).
      destruct (j - idx)%nat as [|k] eqn:Ek; [lia|]. simpl. rewrite lookup_drop.
      by replace (idx + k)%nat with (pred j) by lia.
  + eexists; split; [done|]. split; [constructor; lia|]. intros j. rewrite default_get.
    unfold before_insert. destruct (j <? idx)%nat eqn:E1; [done|]. reflect_bools.
    rewrite lookup_ge_None_2 by lia. destruct (j =? idx)%nat; [done|]. cbn [mbind option_bind].
    by rewrite default_get, lookup_ge_None_2 by lia.
Qed.

Lemma TargetRep_insert_shift_spec n t idx :
  Z.of_nat n < 2 ^ 16 → (idx ≤ n)%nat → targets_wf n t →
  ∃ t', TargetRep_insert_shift t idx = Some t' ∧ targets_wf (S n) t' ∧
    ∀ j, TargetRep_get t' j = i ← before_insert idx j; TargetRep_get t i.
Proof.
  intros Hn Hi Hwf. destruct t as [|v|v];
    [|by apply sparse_insert_shift|by apply default_insert_shift].
  exists TNone. split_and!; [done|constructor|]. intros j. simpl. by destruct (before_insert idx j).
Qed.

(** The slot that slot [j] was before the removal of [idx]. *)
Definition before_remove (idx j : nat) : nat := if (j <? idx)%nat then j else S j.

Lemma TargetRep_remove_shift_spec n t idx :
  (idx < n)%nat → targets_wf n t →
  targets_wf (pred n) (TargetRep_remove_shift t idx) ∧
  ∀ j, TargetRep_get (TargetRep_remove_shift t idx) j = TargetRep_get t (before_remove idx j).
Proof.
  intros Hi Hwf. destruct t as [|v|v]; cbn [TargetRep_remove_shift].
  - split; [constructor|done].
  - inversion Hwf as [|? Hnd Hlt Hlen|]; subst.
    set (f := λ i, if (idx <? i)%nat then pred i else i). set (w := filter (λ p, p.1 ≠ idx) v).
    assert (shift_down idx <$> w = (λ p : nat * A, (f p.1, p.2)) <$> w) as ->
      by (apply list_fmap_ext; by intros ? []).
    assert (∀ i c, (i, c) ∈ w ↔ i ≠ idx ∧ (i, c) ∈ v) as Hw
      by (intros; unfold w; by rewrite list_elem_of_filter).
    assert (NoDup w.*1) as Hndw.
    { apply (sublist_NoDup _ v.*1); [done|]. apply fmap_sublist, sublist_filter. }
    assert (NoDup ((λ p : nat * A, (f p.1, p.2)) <$> w).*1) as Hnd'.
    { apply map_index_NoDup; [|done].
      intros i j ([? ?] & -> & [? _]%Hw)%list_elem_of_fmap ([? ?] & -> & [? _]%Hw)%list_elem_of_fmap.
      unfold f. simpl in *. repeat split_match; reflect_bools; lia. }
    split.
    + constructor; [done| |].
      * apply Forall_fmap, Forall_forall. intros [j c] (i & <- & [Hne Hin]%Hw)%elem_of_map_index.
        apply (list_elem_of_fmap_2 fst), (proj1 (Forall_forall _ _) Hlt) in Hin. simpl in *.
        unfold f. split_match; reflect_bools; lia.
      * rewrite length_fmap. pose proof (length_filter (λ p : nat * A, p.1 ≠ idx) v). unfold w. lia.
    + intros j. apply sparse_get_ext; [done..|]. intros c. rewrite elem_of_map_index. unfold f, before_remove.
      split.
      * intros (i & Hf & [Hne Hin]%Hw). revert Hf. repeat split_match; reflect_bools; intros; subst; try lia; try done.
        by replace (S (pred i)) with i by lia.
      * intros Hin. eexists. rewrite Hw. split; [|split; [|exact Hin]];
          repeat split_match; reflect_bools; lia.
  - inversion Hwf as [| |? Hl]; subst. destruct (idx <? length v)%nat eqn:E; reflect_bools.
    + split; [constructor; rewrite length_delete by (by apply lookup_lt_is_Some_2); lia|].
      intros j. rewrite !default_get. unfold before_remove. destruct (j <? idx)%nat eqn:E1; reflect_bools.
      * by rewrite list_lookup_delete_lt.
      * by rewrite list_lookup_delete_ge.
    + split; [constructor; lia|]. intros j. unfold before_remove.
      destruct (j <? idx)%nat eqn:E1; [done|]. reflect_bools.
      by rewrite !default_get, !lookup_ge_None_2 by lia.
Qed.

(** ** Compaction *)

Lemma enumerate_spec v : ∀ i, Z.of_nat (i + length v) ≤ 2 ^ 16 →
  Forall (λ p : nat * A, i ≤ p.1 < i + length v)%nat (enumerate_from i v) ∧
  NoDup (enumerate_from i v).*1 ∧ (enumerate_from i v).*2 = omap id v ∧
  ∀ j c, (j, c) ∈ enumerate_from i v ↔ (i ≤ j)%nat ∧ v !! (j - i)%nat = Some (Some c).
Proof.
  induction v as [|o v IH]; intros i Hi.
  { simpl. split_and!; [constructor..|done|]. intros j c. rewrite elem_of_nil.
    split; [done|]. by intros [_ ?]. }
  simpl in Hi. destruct (IH (S i) ltac:(lia)) as (Hr & Hnd & H2 & Hin).
  assert (∀ j c, (i ≤ j)%nat ∧ (o :: v) !! (j - i)%nat = Some (Some c) ↔
          (j = i ∧ o = Some c) ∨ ((S i ≤ j)%nat ∧ v !! (j - S i)%nat = Some (Some c))) as Hstep.
  { intros j c. destruct (decide (j = i)) as [->|Hne].
    - rewrite Nat.sub_diag. simpl. split; [intros [_ [= ->]]; by left|].
      intros [[_ ->]|[? _]]; [done|lia].
    - split.
      + intros [Hle Hl]. right. split; [lia|]. by replace (j - i)%nat with (S (j - S i)) in Hl by lia.
      + intros [[? _]|[Hle Hl]]; [done|]. split; [lia|]. by replace (j - i)%nat with (S (j - S i)) by lia. }
  assert (Forall (λ p : nat * A, i ≤ p.1 < i + S (length v))%nat (enumerate_from (S i) v)) as Hr'
    by (eapply Forall_impl; [done|]; intros [? ?]; simpl; lia).
  destruct o as [c|]; simpl.
  - rewrite as_u16_id by lia. split_and!; [constructor; [simpl; lia|done]| |f_equal; exact H2|].
    + apply NoDup_cons. split; [|done]. intros ([j d] & Hj & Hd)%list_elem_of_fmap. simpl in Hj. subst.
      apply Hin in Hd as [? _]. lia.
    + intros j d. rewrite elem_of_cons, Hin, Hstep. naive_solver.
  - split_and!; [done..|]. intros j d. rewrite Hin, Hstep. naive_solver.
Qed.

Lemma TargetRep_compact_spec n t :
  Z.of_nat n ≤ 2 ^ 16 → targets_wf n t →
  targets_wf n (TargetRep_compact t) ∧
  (∀ j, TargetRep_get (TargetRep_compact t) j = TargetRep_get t j).
Proof.
  intros Hn Hwf. unfold TargetRep_compact.
  destruct (resident_count t =? 0)%nat eqn:E0; reflect_bools.
  - split; [constructor|]. intros j. destruct t as [|v|v]; [done| |]; simpl in E0.
    + by apply nil_length_inv in E0 as ->.
    + apply nil_length_inv in E0. rewrite default_get.
      destruct (v !! j) as [[c|]|] eqn:Hj; [|done..]. apply list_elem_of_lookup_2 in Hj.
      assert (c ∈ omap id v) as Hin by (apply list_elem_of_omap; by exists (Some c)).
      rewrite E0 in Hin. by apply elem_of_nil in Hin.
  - destruct (resident_count t <=? SPARSE_MAX_ENTRIES)%nat eqn:E4; [|done].
    destruct t as [|v|v]; [done..|]. reflect_bools. inversion Hwf as [| |? Hl]; subst.
    destruct (enumerate_spec v 0) as (Hr & Hnd & H2 & Hin); [lia|]. split.
    + constructor; [done| |].
      * apply Forall_fmap. eapply Forall_impl; [done|]. intros [? ?]. simpl. lia.
      * rewrite <-(length_fmap snd), H2. done.
    + intros j. apply option_eq. intros c. rewrite sparse_get, Hin by done.
      rewrite default_get, Nat.sub_0_r. destruct (v !! j) as [[d|]|]; simpl; split; try done.
      * by intros [_ [= ->]]. * intros [= ->]. split; [lia|done]. * by intros [_ ?]. * by intros [_ ?].
Qed.

(** The count is the number of children listed. *)
Lemma resident_count_iter t : resident_count t = length (iter_children t).
Proof. destruct t; simpl; [done|by rewrite length_fmap|done]. Qed.
End targets.
Arguments TargetRep : clear implicits.
