(* ===== verification/InNode.v ===== *)
(** * Internal nodes (noxu-tree, [InNodeStub] of [tree.rs])

    An internal node keeps its slots in three places: the keys, the packed
    array of the children's LSNs and the representation of the children that
    are in memory.  Every insertion and removal has to move all three.

    [in_node nd slots] says that the node [nd] holds the list [slots] of whole
    slots (key, LSN, cached child); the operations are shown to act on that
    list.  The weak pointer to the parent is not modelled. *)

From S2P Require Import Prelude Bytes Packed Lsn Keys LsnRep TargetRep.

Section node.
Context {Child : Type}.

Record InNodeStub := {
  node_id : Z;
  level : Z;
  entries : list key;
  targets : TargetRep Child;
  in_dirty : bool;
  generation : Z;
  lsns : LsnRep;
  last_full_lsn : Z;
}.

Definition with_slots (nd : InNodeStub) (es : list key) (t : TargetRep Child) (l : LsnRep)
    : InNodeStub :=
  {| node_id := node_id nd; level := level nd; entries := es; targets := t;
     in_dirty := in_dirty nd; generation := generation nd; lsns := l;
     last_full_lsn := last_full_lsn nd |}.

Definition get_child (nd : InNodeStub) (idx : nat) : option Child :=
  TargetRep_get (targets nd) idx.

Definition child_is_none (nd : InNodeStub) (idx : nat) : bool :=
  match TargetRep_get (targets nd) idx with Some _ => false | None => true end.

Definition set_child (nd : InNodeStub) (idx : nat) (node : option Child) : option InNodeStub :=
  t ← TargetRep_set (targets nd) idx node; Some (with_slots nd (entries nd) t (lsns nd)).

Definition take_child (nd : InNodeStub) (idx : nat) : option (option Child * InNodeStub) :=
  '(c, t) ← TargetRep_take (targets nd) idx;
  Some (c, with_slots nd (entries nd) t (lsns nd)).

Definition get_lsn (nd : InNodeStub) (idx : nat) : option Z := LsnRep_get (lsns nd) idx.

Definition set_lsn (nd : InNodeStub) (idx : nat) (lsn : Z) : option InNodeStub :=
  l ← LsnRep_set (lsns nd) idx lsn (length (entries nd));
  Some (with_slots nd (entries nd) (targets nd) l).

Definition insert_entry (nd : InNodeStub) (idx : nat) (k : key) (lsn : Z) (child : option Child)
    : option InNodeStub :=
  es ← vec_insert idx k (entries nd);
  let n := length es in
  l ← LsnRep_insert_shift (lsns nd) idx n;
  l ← LsnRep_set l idx lsn n;
  t ← TargetRep_insert_shift (targets nd) idx;
  t ← match child with
      | Some _ => TargetRep_set t idx child
      | None => Some t
      end;
  Some (with_slots nd es t l).

Definition remove_entry (nd : InNodeStub) (idx : nat) : option (key * InNodeStub) :=
  '(e, es) ← vec_remove idx (entries nd);
  l ← LsnRep_remove_shift (lsns nd) idx;
  Some (e, with_slots nd es (TargetRep_remove_shift (targets nd) idx) l).

Definition resident_children (nd : InNodeStub) : list Child := iter_children (targets nd).

Definition first_resident_child (nd : InNodeStub) : option (nat * Child) :=
  head (omap (λ i, pair i <$> TargetRep_get (targets nd) i) (seq 0 (length (entries nd)))).

(** * Theorems *)

(** A whole slot: key, LSN and cached child. *)
Abbreviation slot := (key * Z * option Child)%type.
Abbreviation slot_key := (λ s : slot, s.1.1).
Abbreviation slot_lsn := (λ s : slot, s.1.2).
Abbreviation slot_child := (λ s : slot, s.2).

Record in_node (nd : InNodeStub) (slots : list slot) : Prop := {
  in_keys : entries nd = slot_key <$> slots;
  in_lsns : lsn_rep (lsns nd) (slot_lsn <$> slots);
  in_targets : targets_wf (length slots) (targets nd);
  in_children : ∀ i, TargetRep_get (targets nd) i = slots !! i ≫= slot_child;
  in_u16 : Z.of_nat (length slots) < 2 ^ 16;
}.

Lemma lookup_insert_middle {A} (l : list A) i j x :
  (i ≤ length l)%nat →
  (take i l ++ x :: drop i l) !! j =
  match before_insert i j with Some j' => l !! j' | None => Some x end.
Proof.
  intros Hi. unfold before_insert. destruct (j <? i)%nat eqn:E; reflect_bools.
  { by rewrite lookup_app_l, lookup_take_lt by (rewrite ?length_take; lia). }
  rewrite lookup_app_r, length_take_le by (rewrite ?length_take; lia).
  destruct (j =? i)%nat eqn:E2; reflect_bools; [subst; by rewrite Nat.sub_diag|].
  replace (j - i)%nat with (S (pred j - i)) by lia. simpl. rewrite lookup_drop. f_equal. lia.
Qed.

Lemma length_insert_middle {A} (l : list A) i x :
  (i ≤ length l)%nat → length (take i l ++ x :: drop i l) = S (length l).
Proof. intros. rewrite length_app, length_take. simpl. rewrite length_drop. lia. Qed.

Lemma lookup_delete_before {A} (l : list A) i j : delete i l !! j = l !! before_remove i j.
Proof.
  unfold before_remove. destruct (j <? i)%nat eqn:E; reflect_bools;
    [by rewrite list_lookup_delete_lt|by rewrite list_lookup_delete_ge].
Qed.

Lemma list_omap_ext_seq {B} (f g : nat → option B) n :
  (∀ i, i < n → f i = g i)%nat → omap f (seq 0 n) = omap g (seq 0 n).
Proof.
  induction n as [|n IH]; intros H; [done|]. rewrite seq_S, !omap_app, IH by auto with lia.
  simpl. by rewrite H by lia.
Qed.

Lemma list_omap_seq_imap {A B} (f : A → option B) (l : list A) :
  omap (λ i, pair i <$> (l !! i ≫= f)) (seq 0 (length l)) =
  omap (λ '(i, x), pair i <$> f x) (imap pair l).
Proof.
  induction l as [|x l IH] using rev_ind; [done|].
  rewrite length_app, Nat.add_1_r, seq_S, omap_app, imap_app, omap_app. simpl. f_equal.
  - rewrite <-IH. apply list_omap_ext_seq. intros i Hi. by rewrite lookup_app_l.
  - rewrite list_lookup_middle by done. simpl. by rewrite Nat.add_0_r.
Qed.

Lemma set_child_spec nd slots idx s c :
  in_node nd slots → slots !! idx = Some s →
  ∃ nd', set_child nd idx c = Some nd' ∧ in_node nd' (<[idx := (s.1, c)]> slots).
Proof.
  intros [Hk Hl Ht Hc Hu] Hs. pose proof (lookup_lt_Some _ _ _ Hs) as Hlt. unfold set_child.
  destruct (TargetRep_set_spec (length slots) (targets nd) idx c) as (t & -> & Hwf & Hget);
    [lia|done..|]. eexists; split; [done|]. split; simpl; rewrite ?length_insert; try done.
  - rewrite Hk, list_fmap_insert, list_insert_id; [done|]. by rewrite list_lookup_fmap, Hs.
  - rewrite list_fmap_insert, list_insert_id; [done|]. by rewrite list_lookup_fmap, Hs.
  - intros i. rewrite Hget. case_decide; subst; [by rewrite list_lookup_insert_eq|].
    by rewrite list_lookup_insert_ne.
Qed.

Lemma take_child_spec nd slots idx s :
  in_node nd slots → slots !! idx = Some s →
  ∃ nd', take_child nd idx = Some (s.2, nd') ∧ in_node nd' (<[idx := (s.1, None)]> slots).
Proof.
  intros [Hk Hl Ht Hc Hu] Hs. pose proof (lookup_lt_Some _ _ _ Hs) as Hlt. unfold take_child.
  destruct (TargetRep_take_spec (length slots) (targets nd) idx) as (t & -> & Hwf & Hget); [done|].
  rewrite Hc, Hs. eexists; split; [done|]. split; simpl; rewrite ?length_insert; try done.
  - rewrite Hk, list_fmap_insert, list_insert_id; [done|]. by rewrite list_lookup_fmap, Hs.
  - rewrite list_fmap_insert, list_insert_id; [done|]. by rewrite list_lookup_fmap, Hs.
  - intros i. rewrite Hget. case_decide; subst; [by rewrite list_lookup_insert_eq|].
    by rewrite list_lookup_insert_ne.
Qed.

Lemma set_lsn_spec nd slots idx s lsn :
  in_node nd slots → slots !! idx = Some s → in_u 64 lsn →
  ∃ nd', set_lsn nd idx lsn = Some nd' ∧ in_node nd' (<[idx := (s.1.1, lsn, s.2)]> slots).
Proof.
  intros [Hk Hl Ht Hc Hu] Hs Hlsn. pose proof (lookup_lt_Some _ _ _ Hs) as Hlt. unfold set_lsn.
  destruct (LsnRep_set_spec _ _ idx lsn Hl) as (l & Hset & Hrep); [by rewrite length_fmap|done|].
  rewrite length_fmap in Hset. rewrite Hk, length_fmap, Hset.
  eexists; split; [done|]. split; simpl; rewrite ?length_insert; try done.
  - rewrite list_fmap_insert, list_insert_id; [done|]. by rewrite list_lookup_fmap, Hs.
  - by rewrite list_fmap_insert.
  - intros i. rewrite Hc. destruct (decide (i = idx)) as [->|];
      [by rewrite list_lookup_insert_eq, Hs|by rewrite list_lookup_insert_ne].
Qed.

Lemma insert_entry_spec nd slots idx k lsn c :
  in_node nd slots → (idx ≤ length slots)%nat → Z.of_nat (S (length slots)) < 2 ^ 16 →
  in_u 64 lsn →
  ∃ nd', insert_entry nd idx k lsn c = Some nd' ∧
    in_node nd' (take idx slots ++ (k, lsn, c) :: drop idx slots).
Proof.
  intros [Hk Hl Ht Hc Hu] Hi HS Hlsn. unfold insert_entry.
  rewrite Hk, vec_insert_spec by (by rewrite length_fmap). cbn [mbind option_bind].
  rewrite length_insert_middle, length_fmap by (by rewrite length_fmap).
  destruct (lsn_insert_spec (lsns nd) _ idx lsn Hl) as (l1 & l2 & H1 & H2 & Hrep);
    [by rewrite length_fmap|done|]. rewrite length_fmap in H1, H2. rewrite H1.
  cbn [mbind option_bind]. rewrite H2. cbn [mbind option_bind].
  destruct (TargetRep_insert_shift_spec (length slots) (targets nd) idx) as (t & -> & Hwf & Hget);
    [lia|done..|]. cbn [mbind option_bind].
  assert (∃ t', match c with Some _ => TargetRep_set t idx c | None => Some t end = Some t' ∧
    targets_wf (S (length slots)) t' ∧
    ∀ j, TargetRep_get t' j = if decide (j = idx) then c else TargetRep_get t j)
    as (t' & -> & Hwf' & Hget').
  { destruct c as [c|]; [apply TargetRep_set_spec; (lia || done)|]. exists t. split_and!; [done..|].
    intros j. case_decide; [|done]. subst. rewrite Hget. unfold before_insert.
    by rewrite Nat.ltb_irrefl, Nat.eqb_refl. }
  eexists; split; [done|]. split; simpl; rewrite ?length_insert_middle by done; try done.
  - by rewrite fmap_app, fmap_cons, fmap_take, fmap_drop.
  - by rewrite fmap_app, fmap_cons, fmap_take, fmap_drop.
  - intros j. rewrite Hget', Hget, lookup_insert_middle by done. case_decide; subst.
    + unfold before_insert. by rewrite Nat.ltb_irrefl, Nat.eqb_refl.
    + destruct (before_insert idx j) as [j'|] eqn:E; [apply Hc|].
      unfold before_insert in E. repeat split_match_in E; try done. by reflect_bools.
Qed.

Lemma remove_entry_spec nd slots idx s :
  in_node nd slots → slots !! idx = Some s →
  ∃ nd', remove_entry nd idx = Some (s.1.1, nd') ∧ in_node nd' (delete idx slots).
Proof.
  intros [Hk Hl Ht Hc Hu] Hs. pose proof (lookup_lt_Some _ _ _ Hs) as Hlt. unfold remove_entry, vec_remove.
  rewrite Hk, list_lookup_fmap, Hs. cbn [mbind option_bind fmap option_fmap option_map].
  destruct (LsnRep_remove_shift_spec _ _ idx Hl) as (l & -> & Hrep); [by rewrite length_fmap|].
  destruct (TargetRep_remove_shift_spec _ _ idx Hlt Ht) as [Hwf Hget].
  eexists; split; [done|]. split; simpl; rewrite ?length_delete by done; rewrite ?Nat.sub_1_r; try done.
  - by rewrite list_fmap_delete.
  - by rewrite list_fmap_delete.
  - intros j. by rewrite Hget, Hc, lookup_delete_before.
  - lia.
Qed.

(** The children listed are those of the slots. *)
Lemma first_resident_child_spec nd slots :
  in_node nd slots →
  first_resident_child nd = head (omap (λ '(i, s), pair i <$> slot_child s) (imap pair slots)).
Proof.
  intros [Hk _ _ Hc _]. unfold first_resident_child. f_equal. rewrite Hk, length_fmap.
  rewrite <-(list_omap_seq_imap slot_child). apply list_omap_ext_seq. intros i _. by rewrite Hc.
Qed.

(** ** Sequences of operations *)

Inductive in_op :=
| NChild (idx : nat)
| NLsn (idx : nat)
| NFirst
| NSetChild (idx : nat) (c : option Child)
| NTakeChild (idx : nat)
| NSetLsn (idx : nat) (lsn : Z)
| NInsert (idx : nat) (k : key) (lsn : Z) (c : option Child)
| NRemove (idx : nat)
| NCompact.

Inductive in_out :=
| ODone
| OChild (c : option Child)
| OFirst (c : option (nat * Child))
| OLsn (lsn : Z)
| OKey (k : key).

Definition in_node_step (nd : InNodeStub) (op : in_op) : option (InNodeStub * in_out) :=
  match op with
  | NChild idx => Some (nd, OChild (get_child nd idx))
  | NLsn idx => lsn ← get_lsn nd idx; Some (nd, OLsn lsn)
  | NFirst => Some (nd, OFirst (first_resident_child nd))
  | NSetChild idx c => nd ← set_child nd idx c; Some (nd, ODone)
  | NTakeChild idx => '(c, nd) ← take_child nd idx; Some (nd, OChild c)
  | NSetLsn idx lsn => nd ← set_lsn nd idx lsn; Some (nd, ODone)
  | NInsert idx k lsn c => nd ← insert_entry nd idx k lsn c; Some (nd, ODone)
  | NRemove idx => '(k, nd) ← remove_entry nd idx; Some (nd, OKey k)
  | NCompact =>
      Some (with_slots nd (entries nd) (TargetRep_compact (targets nd)) (lsns nd), ODone)
  end.

(** The same on a plain list of slots, of at most 65535 slots. *)
Definition slots_step (slots : list slot) (op : in_op) : option (list slot * in_out) :=
  match op with
  | NChild idx => Some (slots, OChild (slots !! idx ≫= slot_child))
  | NLsn idx => Some (slots, OLsn (default NULL_LSN (slot_lsn <$> slots !! idx)))
  | NFirst =>
      Some (slots, OFirst (head (omap (λ '(i, s), pair i <$> slot_child s) (imap pair slots))))
  | NSetChild idx c => s ← slots !! idx; Some (<[idx := (s.1, c)]> slots, ODone)
  | NTakeChild idx => s ← slots !! idx; Some (<[idx := (s.1, None)]> slots, OChild s.2)
  | NSetLsn idx lsn =>
      s ← slots !! idx;
      if (0 <=? lsn) && (lsn <? 2 ^ 64)
      then Some (<[idx := (s.1.1, lsn, s.2)]> slots, ODone) else None
  | NInsert idx k lsn c =>
      if (0 <=? lsn) && (lsn <? 2 ^ 64) && (Z.of_nat (S (length slots)) <? 2 ^ 16)
      then slots ← vec_insert idx (k, lsn, c) slots; Some (slots, ODone) else None
  | NRemove idx => '(s, slots) ← vec_remove idx slots; Some (slots, OKey s.1.1)
  | NCompact => Some (slots, ODone)
  end.

Lemma in_node_step_spec nd slots op slots' out :
  in_node nd slots → slots_step slots op = Some (slots', out) →
  ∃ nd', in_node_step nd op = Some (nd', out) ∧ in_node nd' slots'.
Proof.
  intros Hn Hs. pose proof Hn as [Hk Hl Ht Hc Hu].
  destruct op as [idx|idx| |idx c|idx|idx lsn|idx k lsn c|idx|]; simpl in *.
  - injection Hs as <- <-. exists nd. unfold get_child. by rewrite Hc.
  - injection Hs as <- <-. exists nd. unfold get_lsn.
    by rewrite (LsnRep_get_spec _ _ _ Hl), list_lookup_fmap.
  - injection Hs as <- <-. exists nd. by rewrite (first_resident_child_spec _ _ Hn).
  - destruct (slots !! idx) as [s|] eqn:E; [|done]. injection Hs as <- <-.
    destruct (set_child_spec nd slots idx s c Hn E) as (nd' & -> & ?). by exists nd'.
  - destruct (slots !! idx) as [s|] eqn:E; [|done]. injection Hs as <- <-.
    destruct (take_child_spec nd slots idx s Hn E) as (nd' & -> & ?). by exists nd'.
  - destruct (slots !! idx) as [s|] eqn:E; [|done]. simpl in Hs.
    destruct ((0 <=? lsn) && (lsn <? 2 ^ 64)) eqn:Hlsn; [|done]. injection Hs as <- <-. reflect_bools.
    destruct (set_lsn_spec nd slots idx s lsn Hn E) as (nd' & -> & ?); [done|]. by exists nd'.
  - destruct ((0 <=? lsn) && (lsn <? 2 ^ 64) && _) eqn:Hlsn; [|done]. reflect_bools.
    unfold vec_insert in Hs. destruct (idx <=? length slots)%nat eqn:E; [|done]. reflect_bools.
    injection Hs as <- <-.
    destruct (insert_entry_spec nd slots idx k lsn c Hn) as (nd' & -> & ?); [done..|]. by exists nd'.
  - unfold vec_remove in Hs. destruct (slots !! idx) as [s|] eqn:E; [|done]. injection Hs as <- <-.
    destruct (remove_entry_spec nd slots idx s Hn E) as (nd' & -> & ?). by exists nd'.
  - injection Hs as <- <-. eexists; split; [done|].
    destruct (TargetRep_compact_spec (length slots) (targets nd)) as [Hwf Hget]; [lia|done|].
    split; simpl; try done. intros i. by rewrite Hget.
Qed.

(** A fresh node: no entries, no cached children, all LSNs null. *)
Definition empty_node (id lvl : Z) : InNodeStub :=
  {| node_id := id; level := lvl; entries := []; targets := TNone; in_dirty := false;
     generation := 0; lsns := LEmpty; last_full_lsn := NULL_LSN |}.

Lemma empty_node_spec id lvl : in_node (empty_node id lvl) [].
Proof. split; simpl; [done|apply (rep_empty 0)|constructor|done|lia]. Qed.
End node.
Arguments InNodeStub : clear implicits.
Arguments in_op : clear implicits.
Arguments in_out : clear implicits.

(** * Properties *)

(** C30: an internal node behaves as a list of whole slots.  Over any sequence
    of insertions, removals, updates of LSNs and children, detachments and
    compactions that a list of at most 65535 (key, LSN, child) triples allows,
    the node never panics, returns the same results, and its key array, its
    packed LSNs and its cached children stay aligned slot by slot. *)
Theorem in_node_refines_slots {Child : Type} (id lvl : Z) (ops : list (in_op Child))
  (slots : list (key * Z * option Child)) (outs : list (in_out Child))
  (Hrun : run_steps slots_step [] ops = Some (slots, outs)) :
  ∃ nd, run_steps in_node_step (empty_node id lvl) ops = Some (nd, outs) ∧
    entries nd = (λ s, s.1.1) <$> slots ∧
    (∀ i, get_lsn nd i = Some (default NULL_LSN ((λ s, s.1.2) <$> slots !! i))) ∧
    (∀ i, get_child nd i = slots !! i ≫= snd).
Proof.
  destruct (run_steps_refine in_node in_node_step slots_step in_node_step_spec
              ops (empty_node id lvl) [] slots outs) as (nd & Hr & [Hk Hl Ht Hc Hu]);
    [apply empty_node_spec|done|].
  exists nd. split_and!; [done..| |done].
  intros i. unfold get_lsn. by rewrite (LsnRep_get_spec _ _ _ Hl), list_lookup_fmap.
Qed.

(** Five cached children inflate the sparse form; then slots move both ways. *)
Definition demo_in_ops : list (in_op Z) :=
  [NInsert 0 [1] (Lsn_new 1 10) (Some 11); NInsert 1 [5] (Lsn_new 1 50) (Some 15);
   NInsert 1 [3] (Lsn_new 200 30) None; NSetChild 1 (Some 13); NInsert 0 [] NULL_LSN (Some 10);
   NInsert 2 [2] (Lsn_new 1 20) (Some 12); NTakeChild 4; NRemove 1; NCompact; NFirst; NChild 2; NLsn 2].

Lemma in_node_refines_slots_witness :
  ∃ nd, run_steps in_node_step (empty_node 7 2) demo_in_ops =
     Some (nd, [ODone; ODone; ODone; ODone; ODone; ODone; OChild (Some 15); OKey [1]; ODone;
                OFirst (Some (0%nat, 10)); OChild (Some 13); OLsn (Lsn_new 200 30)]) ∧
    entries nd = [[]; [2]; [3]; [5]] ∧
    (∀ i, get_lsn nd i = Some (default NULL_LSN ((λ s, s.1.2) <$>
       [([], NULL_LSN, Some 10); ([2], Lsn_new 1 20, Some 12);
        ([3], Lsn_new 200 30, Some 13); ([5], Lsn_new 1 50, None)] !! i))) ∧
    (∀ i, get_child nd i =
       [([], NULL_LSN, Some 10); ([2], Lsn_new 1 20, Some 12);
        ([3], Lsn_new 200 30, Some 13); ([5], Lsn_new 1 50, None)] !! i ≫= snd).
Proof.
  apply (in_node_refines_slots 7 2 demo_in_ops
    [([], NULL_LSN, Some 10); ([2], Lsn_new 1 20, Some 12);
     ([3], Lsn_new 200 30, Some 13); ([5], Lsn_new 1 50, None)]).
  vm_compute. reflexivity.
Defined.
