(* ===== verification/Bin.v ===== *)
(** * Bottom internal nodes (noxu-tree, [BinStub] of [tree.rs])

    A BIN holds the records of a range of keys: the keys in a [KeyRep], without
    the prefix they share, the LSNs in an [LsnRep], and per slot the cached
    data and the state flags.  [None] as a result is a panic, a failed
    [debug_assert!] included.  [Bytes] is a list of bytes.  The weak pointer to
    the parent is not modelled; the time is a parameter, in milliseconds. *)

From stdpp Require Import sorting.
From S2P Require Import Prelude Bytes Packed Lsn Keys LsnRep.

(** ** The code: slots *)

Record BinEntry := {
  data : option (list Z);
  known_deleted : bool;
  pending_deleted : bool;
  e_dirty : bool;
  expiration_time : Z;
}.

Definition is_deleted (e : BinEntry) : bool := known_deleted e || pending_deleted e.

Definition deleted_state_byte (e : BinEntry) : Z :=
  Z.lor (if known_deleted e then 0x01 else 0) (if pending_deleted e then 0x08 else 0).

Definition decode_deleted_state_byte (byte : Z) : bool * bool :=
  let known_deleted := negb (Z.land byte 0x01 =? 0) in
  let pending_deleted := negb (Z.land byte 0x08 =? 0) in
  if negb known_deleted && negb pending_deleted && negb (byte =? 0)
  then (true, false) else (known_deleted, pending_deleted).

Record BinStub := {
  bin_node_id : Z;
  bin_level : Z;
  bin_entries : list BinEntry;
  key_prefix : key;
  bin_dirty : bool;
  is_delta : bool;
  bin_last_full_lsn : Z;
  last_delta_lsn : Z;
  bin_generation : Z;
  expiration_in_hours : bool;
  cursor_count : Z;
  prohibit_next_delta : bool;
  bin_lsns : LsnRep;
  bin_keys : KeyRep;
  compact_max_key_length : Z;
  expiration_enabled : bool;
  max_embedded_ln : Z;
  key_prefixing : bool;
}.

(** Replaces the slots: the prefix and the three parallel arrays. *)
Definition with_slots (b : BinStub) (p : key) (es : list BinEntry) (ks : KeyRep) (ls : LsnRep)
    : BinStub :=
  {| bin_node_id := bin_node_id b; bin_level := bin_level b; bin_entries := es;
     key_prefix := p; bin_dirty := bin_dirty b; is_delta := is_delta b;
     bin_last_full_lsn := bin_last_full_lsn b; last_delta_lsn := last_delta_lsn b;
     bin_generation := bin_generation b; expiration_in_hours := expiration_in_hours b;
     cursor_count := cursor_count b; prohibit_next_delta := prohibit_next_delta b;
     bin_lsns := ls; bin_keys := ks; compact_max_key_length := compact_max_key_length b;
     expiration_enabled := expiration_enabled b; max_embedded_ln := max_embedded_ln b;
     key_prefixing := key_prefixing b |}.

(** Replaces the flags and LSNs of the node itself that logging depends on. *)
Definition with_state (b : BinStub) (d : bool) (full delta : Z) (prohibit : bool) : BinStub :=
  {| bin_node_id := bin_node_id b; bin_level := bin_level b; bin_entries := bin_entries b;
     key_prefix := key_prefix b; bin_dirty := d; is_delta := is_delta b;
     bin_last_full_lsn := full; last_delta_lsn := delta;
     bin_generation := bin_generation b; expiration_in_hours := expiration_in_hours b;
     cursor_count := cursor_count b; prohibit_next_delta := prohibit;
     bin_lsns := bin_lsns b; bin_keys := bin_keys b;
     compact_max_key_length := compact_max_key_length b;
     expiration_enabled := expiration_enabled b; max_embedded_ln := max_embedded_ln b;
     key_prefixing := key_prefixing b |}.

Definition with_entries (b : BinStub) (es : list BinEntry) : BinStub :=
  with_slots b (key_prefix b) es (bin_keys b) (bin_lsns b).
Definition with_keys (b : BinStub) (ks : KeyRep) : BinStub :=
  with_slots b (key_prefix b) (bin_entries b) ks (bin_lsns b).

Definition bin_get_lsn (b : BinStub) (idx : nat) : option Z := LsnRep_get (bin_lsns b) idx.

Definition bin_set_lsn (b : BinStub) (idx : nat) (lsn : Z) : option BinStub :=
  ls ← LsnRep_set (bin_lsns b) idx lsn (length (bin_entries b));
  Some (with_slots b (key_prefix b) (bin_entries b) (bin_keys b) ls).

Definition is_embedded (b : BinStub) (idx : nat) : bool :=
  match bin_entries b !! idx ≫= data with
  | Some d => Z.of_nat (length d) <=? max_embedded_ln b
  | None => false
  end.

(** [ttl::is_expired], at a time in milliseconds since the epoch. *)
Definition is_expired (now_ms expiration : Z) (in_hours : bool) : bool :=
  if expiration =? 0 then false
  else
    let now := if in_hours then as_u 32 (now_ms / 1000 / 3600) else as_u 32 (now_ms / 1000) in
    expiration <=? now.

Definition slot_expired (b : BinStub) (now_ms : Z) (e : BinEntry) : bool :=
  expiration_enabled b && negb (expiration_time e =? 0) &&
  is_expired now_ms (expiration_time e) (expiration_in_hours b).

Definition slot_is_live (b : BinStub) (now_ms : Z) (idx : nat) : bool :=
  match bin_entries b !! idx with
  | Some e => negb (is_deleted e || slot_expired b now_ms e)
  | None => false
  end.

Definition slot_is_known_deleted (b : BinStub) (idx : nat) : bool :=
  match bin_entries b !! idx with Some e => known_deleted e | None => false end.

Definition slot_is_pending_deleted (b : BinStub) (idx : nat) : bool :=
  match bin_entries b !! idx with
  | Some e => pending_deleted e && negb (known_deleted e)
  | None => false
  end.

Definition slot_scan_skippable (b : BinStub) (now_ms : Z) (idx : nat) : bool :=
  match bin_entries b !! idx with
  | Some e => known_deleted e || slot_expired b now_ms e
  | None => false
  end.

Definition slot_expired_not_deleted (b : BinStub) (now_ms : Z) (idx : nat) : bool :=
  match bin_entries b !! idx with
  | Some e => negb (is_deleted e) && slot_expired b now_ms e
  | None => false
  end.

(** ** Keys and prefixes *)

Definition decompress_key (b : BinStub) (suffix : key) : key := key_prefix b ++ suffix.

Definition get_full_key (b : BinStub) (idx : nat) : option key :=
  if (KeyRep_len (bin_keys b) <=? idx)%nat then None
  else suffix ← KeyRep_get (bin_keys b) idx; Some (decompress_key b suffix).

Definition compress_key (b : BinStub) (full_key : key) : option key :=
  if bool_decide (key_prefix b `prefix_of` full_key)
  then Some (drop (length (key_prefix b)) full_key) else None.

(** The loop of [compute_key_prefix]; [None] is the early return of no prefix. *)
Fixpoint common_prefix_len (b : BinStub) (exclude_idx : option nat) (seed : key)
    (prefix_len : nat) (idxs : list nat) : option nat :=
  match idxs with
  | [] => Some prefix_len
  | i :: idxs =>
      if bool_decide (exclude_idx = Some i)
      then common_prefix_len b exclude_idx seed prefix_len idxs
      else match get_full_key b i with
           | None => common_prefix_len b exclude_idx seed prefix_len idxs
           | Some full_key =>
               let new_len := get_key_prefix_length (take prefix_len seed) full_key in
               let prefix_len := if (new_len <? prefix_len)%nat then new_len else prefix_len in
               if (prefix_len =? 0)%nat then None
               else common_prefix_len b exclude_idx seed prefix_len idxs
           end
  end.

Definition compute_key_prefix (b : BinStub) (exclude_idx : option nat) : key :=
  if negb (key_prefixing b) then []
  else
    let n := KeyRep_len (bin_keys b) in
    if (n <? 2)%nat then []
    else
      let first_idx := if bool_decide (exclude_idx = Some 0%nat) then 1%nat else 0%nat in
      match get_full_key b first_idx with
      | None => []
      | Some seed_full =>
          match common_prefix_len b exclude_idx seed_full (length seed_full)
                  (seq (S first_idx) (n - S first_idx)) with
          | Some prefix_len => take prefix_len seed_full
          | None => []
          end
      end.

(** The loop of [apply_new_prefix] that re-encodes every suffix. *)
Fixpoint set_suffixes (b : BinStub) (i : nat) (full_keys : list key) (ks : KeyRep)
    : option KeyRep :=
  match full_keys with
  | [] => Some ks
  | full_key :: full_keys =>
      suffix ← compress_key b full_key;
      ks ← KeyRep_set ks i suffix;
      set_suffixes b (S i) full_keys ks
  end.

Definition apply_new_prefix (b : BinStub) (new_prefix : key) : option BinStub :=
  let full_keys := default [] ∘ get_full_key b <$> seq 0 (KeyRep_len (bin_keys b)) in
  let b := with_slots b new_prefix (bin_entries b) (bin_keys b) (bin_lsns b) in
  ks ← set_suffixes b 0 full_keys (bin_keys b);
  ks ← KeyRep_compact ks (compact_max_key_length b);
  Some (with_keys b ks).

Definition recompute_key_prefix (b : BinStub) : option BinStub :=
  apply_new_prefix b (compute_key_prefix b None).

(** ** Search *)

(** [key_binary_search_by]: [Ok] the slot for which [f] says [Eq], [Err] the
    place where it would be.  The outer option is a panic or lack of fuel. *)
Fixpoint bsearch_by (ks : KeyRep) (f : key → comparison) (fuel lo hi : nat)
    : option (result nat nat) :=
  if (lo <? hi)%nat then
    match fuel with
    | O => None
    | S fuel =>
        let mid := (lo + (hi - lo) / 2)%nat in
        s ← KeyRep_get ks mid;
        match f s with
        | Lt => bsearch_by ks f fuel (mid + 1) hi
        | Gt => bsearch_by ks f fuel lo mid
        | Eq => Some (Ok mid)
        end
    end
  else Some (Err lo).

Definition key_binary_search_by (b : BinStub) (f : key → comparison) : option (result nat nat) :=
  let n := KeyRep_len (bin_keys b) in bsearch_by (bin_keys b) f n 0 n.

Definition key_binary_search (b : BinStub) (suffix : key) : option (result nat nat) :=
  key_binary_search_by b (λ s, compare_unsigned_bytes s suffix).

Fixpoint partition_loop (ks : KeyRep) (pred : key → bool) (fuel lo hi : nat) : option nat :=
  if (lo <? hi)%nat then
    match fuel with
    | O => None
    | S fuel =>
        let mid := (lo + (hi - lo) / 2)%nat in
        s ← KeyRep_get ks mid;
        if pred s then partition_loop ks pred fuel (mid + 1) hi
        else partition_loop ks pred fuel lo mid
    end
  else Some lo.

Definition key_partition_point (b : BinStub) (pred : key → bool) : option nat :=
  let n := KeyRep_len (bin_keys b) in partition_loop (bin_keys b) pred n 0 n.

Definition key_lt (a b : key) : bool :=
  match compare_unsigned_bytes a b with Lt => true | _ => false end.

Definition found (r : result nat nat) : nat * bool :=
  match r with Ok idx => (idx, true) | Err idx => (idx, false) end.

Definition find_entry_compressed (b : BinStub) (full_key : key) : option (nat * bool) :=
  let plen := length (key_prefix b) in
  if (0 <? plen)%nat && ((length full_key <? plen)%nat ||
                         negb (bool_decide (take plen full_key = key_prefix b)))
  then pos ← key_partition_point b (λ s, key_lt (decompress_key b s) full_key); Some (pos, false)
  else found <$> key_binary_search b (drop plen full_key).

(** The search of [find_entry_cmp], [insert_cmp] and [delete_cmp]. *)
Definition search_cmp (b : BinStub) (full_key : key) (cmp : key → key → comparison)
    : option (result nat nat) :=
  match key_prefix b with
  | [] => key_binary_search_by b (λ s, cmp s full_key)
  | prefix => key_binary_search_by b (λ s, cmp (prefix ++ s) full_key)
  end.

Definition find_entry_cmp (b : BinStub) (full_key : key) (cmp : key → key → comparison)
    : option (nat * bool) :=
  found <$> search_cmp b full_key cmp.

Definition redo_slot_lsn (b : BinStub) (full_key : key)
    (cmp : option (key → key → comparison)) (prefixing : bool) : option (option Z) :=
  '(idx, hit) ← match cmp with
                | Some c => find_entry_cmp b full_key c
                | None => if prefixing then find_entry_compressed b full_key
                          else found <$> key_binary_search b full_key
                end;
  if hit : bool then lsn ← bin_get_lsn b idx; Some (Some lsn) else Some None.

(** ** Updates *)

(** The loop that shortens a candidate prefix to the slots' keys. *)
Fixpoint narrow (b : BinStub) (candidate : key) (idxs : list nat) : key :=
  match idxs with
  | [] => candidate
  | i :: idxs =>
      match candidate with
      | [] => []
      | _ =>
          match get_full_key b i with
          | Some fk => narrow b (take (get_key_prefix_length candidate fk) candidate) idxs
          | None => narrow b candidate idxs
          end
      end
  end.

(** The first part of every insertion: a key that does not have the prefix
    makes it shrink, and every suffix is encoded again. *)
Definition shrink_prefix (b : BinStub) (full_key : key) : option BinStub :=
  let plen := length (key_prefix b) in
  let new_len := if (0 <? plen)%nat then get_key_prefix_length (key_prefix b) full_key else 0%nat in
  if (0 <? plen)%nat && (new_len <? plen)%nat then
    let candidate := compute_key_prefix b None in
    let candidate :=
      match candidate with
      | [] =>
          match bin_entries b, get_full_key b 0 with
          | _ :: _, Some first_full =>
              narrow b (default [] (create_key_prefix first_full full_key))
                     (seq 1 (length (bin_entries b) - 1))
          | _, _ => []
          end
      | _ => take (get_key_prefix_length candidate full_key) candidate
      end in
    apply_new_prefix b candidate
  else Some b.

Definition new_entry (d : option (list Z)) : BinEntry :=
  {| data := d; known_deleted := false; pending_deleted := false; e_dirty := true;
     expiration_time := 0 |}.

(** A slot that takes a record again: data set, dirty, not deleted. *)
Definition reused_entry (e : BinEntry) (d : option (list Z)) : BinEntry :=
  {| data := d; known_deleted := false; pending_deleted := false; e_dirty := true;
     expiration_time := expiration_time e |}.

Definition insert_slot (b : BinStub) (idx : nat) (suffix : key) (lsn : Z) (d : option (list Z))
    : option BinStub :=
  es ← vec_insert idx (new_entry d) (bin_entries b);
  ks ← KeyRep_insert (bin_keys b) idx suffix;
  let n := length es in
  ls ← LsnRep_insert_shift (bin_lsns b) idx n;
  ls ← LsnRep_set ls idx lsn n;
  Some (with_slots b (key_prefix b) es ks ls).

(** The update of an existing slot; the flag says that it held no record. *)
Definition update_slot (b : BinStub) (idx : nat) (lsn : Z) (d : option (list Z))
    : option (BinStub * (nat * bool)) :=
  b ← bin_set_lsn b idx lsn;
  e ← bin_entries b !! idx;
  Some (with_entries b (<[idx := reused_entry e d]> (bin_entries b)), (idx, is_deleted e)).

(** The end of [insert_with_prefix] and [insert_cmp] for a new key. *)
Definition insert_new (b : BinStub) (idx : nat) (suffix : key) (lsn : Z) (d : option (list Z))
    : option (BinStub * (nat * bool)) :=
  b ← insert_slot b idx suffix lsn d;
  b ← (if bool_decide (key_prefix b = []) && (2 <=? length (bin_entries b))%nat
       then recompute_key_prefix b else Some b);
  Some (b, (idx, true)).

Definition insert_with_prefix (b : BinStub) (full_key : key) (lsn : Z) (d : option (list Z))
    : option (BinStub * (nat * bool)) :=
  b ← shrink_prefix b full_key;
  suffix ← compress_key b full_key;
  r ← key_binary_search b suffix;
  match r with
  | Ok idx => update_slot b idx lsn d
  | Err idx => insert_new b idx suffix lsn d
  end.

(** The copy of [insert_with_prefix] that takes slices. *)
Definition insert_with_prefix_slice := insert_with_prefix.

Definition insert_raw (b : BinStub) (full_key : key) (lsn : Z) (d : option (list Z))
    : option (BinStub * (nat * bool)) :=
  r ← key_binary_search b full_key;
  match r with
  | Ok idx => update_slot b idx lsn d
  | Err idx => b ← insert_slot b idx full_key lsn d; Some (b, (idx, true))
  end.

Definition insert_cmp (b : BinStub) (full_key : key) (lsn : Z) (d : option (list Z))
    (cmp : key → key → comparison) : option (BinStub * (nat * bool)) :=
  b ← shrink_prefix b full_key;
  r ← search_cmp b full_key cmp;
  match r with
  | Ok idx =>
      b ← (if bool_decide (get_full_key b idx = Some full_key) then Some b
           else suffix ← compress_key b full_key;
                ks ← KeyRep_set (bin_keys b) idx suffix;
                let b := with_keys b ks in
                Some (with_state b (bin_dirty b) (bin_last_full_lsn b) (last_delta_lsn b) true));
      update_slot b idx lsn d
  | Err idx => suffix ← compress_key b full_key; insert_new b idx suffix lsn d
  end.

Definition remove_slot (b : BinStub) (idx : nat) : option BinStub :=
  '(_, es) ← vec_remove idx (bin_entries b);
  '(_, ks) ← KeyRep_remove (bin_keys b) idx;
  ls ← LsnRep_remove_shift (bin_lsns b) idx;
  let b := with_slots b (key_prefix b) es ks ls in
  Some (with_state b true (bin_last_full_lsn b) (last_delta_lsn b) true).

Definition delete_cmp (b : BinStub) (full_key : key) (cmp : key → key → comparison)
    : option (BinStub * bool) :=
  r ← search_cmp b full_key cmp;
  match r with
  | Ok idx =>
      e ← bin_entries b !! idx;
      b ← remove_slot b idx;
      Some (b, negb (is_deleted e))
  | Err _ => Some (b, false)
  end.

Definition strip_entry (b : BinStub) (st : option (list BinEntry * Z)) (idx : nat)
    : option (list BinEntry * Z) :=
  '(es, freed) ← st;
  lsn ← bin_get_lsn b idx;
  if lsn =? NULL_LSN then Some (es, freed)
  else
    e ← es !! idx;
    match data e with
    | Some d =>
        Some (<[idx := {| data := None; known_deleted := known_deleted e;
                          pending_deleted := pending_deleted e; e_dirty := e_dirty e;
                          expiration_time := expiration_time e |}]> es,
              Z.min (freed + Z.of_nat (length d)) (2 ^ 64 - 1))
    | None => Some (es, freed)
    end.

Definition strip_lns (b : BinStub) : option (BinStub * Z) :=
  if 0 <? cursor_count b then Some (b, 0)
  else
    '(es, freed) ← foldl (strip_entry b) (Some (bin_entries b, 0))
                         (seq 0 (length (bin_entries b)));
    Some (with_entries b es, freed).

(** ** Logging decisions *)

Definition dirty_count (b : BinStub) : nat := length (filter e_dirty (bin_entries b)).

Definition should_log_delta (b : BinStub) (bin_delta_percent : Z) : bool :=
  if is_delta b then negb (bin_last_full_lsn b =? NULL_LSN) && negb (prohibit_next_delta b)
  else if prohibit_next_delta b || (bin_last_full_lsn b =? NULL_LSN) then false
  else
    let num_deltas := as_i 32 (Z.of_nat (dirty_count b)) in
    if num_deltas <=? 0 then false
    else
      let delta_limit :=
        Z.quot (as_i 32 (as_i 32 (Z.of_nat (length (bin_entries b))) * bin_delta_percent)) 100 in
      num_deltas <=? delta_limit.

Definition clear_dirty (e : BinEntry) : BinEntry :=
  {| data := data e; known_deleted := known_deleted e; pending_deleted := pending_deleted e;
     e_dirty := false; expiration_time := expiration_time e |}.

Definition clear_dirty_after_full_log (b : BinStub) (logged_at : Z) : BinStub :=
  with_state (with_entries b (clear_dirty <$> bin_entries b)) false logged_at NULL_LSN false.

(** ** The operations of the tree on a BIN *)

(** The BIN part of an insertion: by the comparator of the database, else with
    or without prefix compression. *)
Definition insert_in_bin (key_comparator : option (key → key → comparison)) (prefixing : bool)
    (b : BinStub) (k : key) (lsn : Z) (d : list Z) : option (BinStub * bool) :=
  '(b, (_, is_new)) ←
    match key_comparator with
    | Some cmp => insert_cmp b k lsn (Some d) cmp
    | None => if prefixing then insert_with_prefix b k lsn (Some d)
              else insert_raw b k lsn (Some d)
    end;
  Some (with_state b true (bin_last_full_lsn b) (last_delta_lsn b) (prohibit_next_delta b), is_new).

(** The BIN part of a deletion. *)
Definition delete_in_bin (key_comparator : option (key → key → comparison))
    (b : BinStub) (k : key) : option (BinStub * bool) :=
  match key_comparator with
  | Some cmp => delete_cmp b k cmp
  | None =>
      if negb (bool_decide (key_prefix b = [])) && negb (bool_decide (key_prefix b `prefix_of` k))
      then Some (b, false)
      else
        suffix ← compress_key b k;
        r ← key_binary_search b suffix;
        match r with
        | Ok idx =>
            e ← bin_entries b !! idx;
            b ← remove_slot b idx;
            Some (b, negb (is_deleted e))
        | Err _ => Some (b, false)
        end
  end.

(** The BIN part of a lookup. *)
Definition find_in_bin (key_comparator : option (key → key → comparison))
    (b : BinStub) (k : key) : option (nat * bool) :=
  match key_comparator with
  | Some cmp => find_entry_cmp b k cmp
  | None => find_entry_compressed b k
  end.

(** The BIN part of [mark_deleted]: the slot stays, without its data. *)
Definition mark_deleted_in_bin (key_comparator : option (key → key → comparison))
    (b : BinStub) (k : key) (del_lsn : Z) (pending : bool) : option (BinStub * bool) :=
  '(idx, exact) ← find_in_bin key_comparator b k;
  if negb exact then Some (b, false)
  else
    e ← bin_entries b !! idx;
    if is_deleted e then Some (b, false)
    else
      b ← bin_set_lsn b idx del_lsn;
      let e := {| data := None; known_deleted := negb pending; pending_deleted := pending;
                  e_dirty := true; expiration_time := expiration_time e |} in
      let b := with_entries b (<[idx := e]> (bin_entries b)) in
      Some (with_state b true (bin_last_full_lsn b) (last_delta_lsn b) (prohibit_next_delta b),
            true).

(** The BIN part of [redo_advance_deleted_slot_lsn]. *)
Definition redo_advance_in_bin (key_comparator : option (key → key → comparison))
    (b : BinStub) (k : key) (del_lsn : Z) : option (BinStub * bool) :=
  '(idx, exact) ← find_in_bin key_comparator b k;
  if negb exact then Some (b, false)
  else
    e ← bin_entries b !! idx;
    if negb (is_deleted e) then Some (b, false)
    else
      cur ← bin_get_lsn b idx;
      ahead ← (if is_null cur then Some false
               else c ← lsn_cmp del_lsn cur;
                    Some (match c with Gt => false | _ => true end));
      if ahead : bool then Some (b, false)
      else
        b ← bin_set_lsn b idx del_lsn;
        let e := {| data := data e; known_deleted := known_deleted e;
                    pending_deleted := pending_deleted e; e_dirty := true;
                    expiration_time := expiration_time e |} in
        let b := with_entries b (<[idx := e]> (bin_entries b)) in
        Some (with_state b true (bin_last_full_lsn b) (last_delta_lsn b) (prohibit_next_delta b),
              true).

(** The backward walk of [drain_known_deleted_for_split] over the slots below [j]. *)
Fixpoint drain_loop (is_locked : option (Z → bool)) (b : BinStub) (j : nat) : option BinStub :=
  match j with
  | O => Some b
  | S j =>
      e ← bin_entries b !! j;
      if is_deleted e then
        slot_lsn ← bin_get_lsn b j;
        if match is_locked with
           | Some is_locked => negb (is_null slot_lsn) && is_locked slot_lsn
           | None => false
           end
        then drain_loop is_locked b j
        else b ← remove_slot b j; drain_loop is_locked b j
      else drain_loop is_locked b j
  end.

Definition drain_known_deleted_for_split (prefixing : bool) (is_locked : option (Z → bool))
    (b : BinStub) : option (BinStub * bool) :=
  if is_delta b then Some (b, false)
  else
    let before := length (bin_entries b) in
    b ← drain_loop is_locked b before;
    b ← (if prefixing then recompute_key_prefix b
         else if bool_decide (key_prefix b = []) then Some b else apply_new_prefix b []);
    Some (b, (length (bin_entries b) <? before)%nat).

(** * Theorems *)

(** ** Orders of keys *)

(** What the tree asks of a key comparator: a total preorder.  Keys that
    compare equal may differ, as with a partial comparator. *)
Class KeyOrder (cmp : key → key → comparison) : Prop := {
  cmp_antisym a b : cmp b a = CompOpp (cmp a b);
  cmp_lt_trans a b c : cmp a b = Lt → cmp b c = Lt → cmp a c = Lt;
  cmp_eq_l a b c : cmp a b = Eq → cmp a c = cmp b c;
}.

#[export] Instance bytes_order : KeyOrder compare_unsigned_bytes.
Proof.
  split; unfold compare_unsigned_bytes.
  - apply lex_cmp_antisym.
  - apply lex_cmp_lt_trans.
  - by intros a b c ->%lex_cmp_eq.
Qed.

Section order.
Context `{KeyOrder cmp}.

Lemma cmp_refl a : cmp a a = Eq.
Proof. pose proof (cmp_antisym (cmp := cmp) a a). by destruct (cmp a a). Qed.

Lemma cmp_gt_lt a b : cmp a b = Gt ↔ cmp b a = Lt.
Proof. rewrite (cmp_antisym (cmp := cmp) a b). by destruct (cmp a b). Qed.

Lemma cmp_eq_sym a b : cmp a b = Eq → cmp b a = Eq.
Proof. intros E. by rewrite (cmp_antisym (cmp := cmp) a b), E. Qed.

Lemma cmp_eq_r a b c : cmp a b = Eq → cmp c a = cmp c b.
Proof.
  intros E. rewrite (cmp_antisym (cmp := cmp) a c), (cmp_antisym (cmp := cmp) b c).
  by rewrite (cmp_eq_l (cmp := cmp) a b c E).
Qed.

Abbreviation key_sorted := (StronglySorted (λ a b, cmp a b = Lt)).

(** What a search relies on: seen through [f], the keys are below, then at
    most one equal, then above. *)
Definition partitioned (f : key → comparison) (ks : list key) : Prop :=
  ∀ i j a b, (i < j)%nat → ks !! i = Some a → ks !! j = Some b → f a = Lt ∨ f b = Gt.

Lemma StronglySorted_lookup {A} (R : A → A → Prop) l i j a b :
  StronglySorted R l → (i < j)%nat → l !! i = Some a → l !! j = Some b → R a b.
Proof.
  intros Hs. revert i j; induction Hs as [|x l Hs IH Hx]; intros i j Hij Ha Hb; [done|].
  destruct i as [|i], j as [|j]; simpl in *; try lia.
  - injection Ha as ->. by eapply Forall_lookup_1 in Hx.
  - by eapply (IH i j); [lia|..].
Qed.

Lemma sorted_partitioned k ks : key_sorted ks → partitioned (λ k', cmp k' k) ks.
Proof.
  intros Hs i j a b Hij Ha Hb. pose proof (StronglySorted_lookup _ _ _ _ _ _ Hs Hij Ha Hb) as Hab.
  simpl in Hab. destruct (cmp a k) eqn:E; [right|by left|right].
  - rewrite <-(cmp_eq_r a k b E). by apply cmp_gt_lt.
  - apply cmp_gt_lt. apply cmp_gt_lt in E. by eapply cmp_lt_trans.
Qed.
End order.
Abbreviation key_sorted cmp := (StronglySorted (λ a b, cmp a b = Lt)).

(** ** Binary search *)

(** The reference: a scan from the left. *)
Fixpoint ref_search (f : key → comparison) (ks : list key) : result nat nat :=
  match ks with
  | [] => Err 0%nat
  | k :: ks =>
      match f k with
      | Eq => Ok 0%nat
      | Gt => Err 0%nat
      | Lt => match ref_search f ks with Ok i => Ok (S i) | Err i => Err (S i) end
      end
  end.

Lemma partitioned_tail f k ks : partitioned f (k :: ks) → partitioned f ks.
Proof. intros Hp i j a b Hij. apply (Hp (S i) (S j)). lia. Qed.

Lemma ref_search_ok f ks i k :
  partitioned f ks → ks !! i = Some k → f k = Eq → ref_search f ks = Ok i.
Proof.
  revert i; induction ks as [|x ks IH]; intros i Hp Hi Hf; [done|]. simpl.
  destruct i as [|i]; simpl in Hi; [injection Hi as ->; by rewrite Hf|].
  destruct (Hp 0%nat (S i) x k) as [->|?]; [lia|done..| |congruence].
  by rewrite (IH i) by eauto using partitioned_tail.
Qed.

Lemma ref_search_err f ks i :
  (i ≤ length ks)%nat → (∀ j k, (j < i)%nat → ks !! j = Some k → f k = Lt) →
  (∀ k, ks !! i = Some k → f k = Gt) → ref_search f ks = Err i.
Proof.
  revert i; induction ks as [|x ks IH]; intros i Hi Hlt Hgt; simpl in *; [f_equal; lia|].
  destruct i as [|i]; [by rewrite Hgt|]. rewrite (Hlt 0%nat x) by (done || lia).
  rewrite (IH i); [done|lia| |done]. intros j k Hj. apply (Hlt (S j)). lia.
Qed.

(** What the reference returns. *)
Lemma ref_search_inv f ks :
  match ref_search f ks with
  | Ok i => ∃ k, ks !! i = Some k ∧ f k = Eq
  | Err i => (i ≤ length ks)%nat ∧ ∀ k, ks !! i = Some k → f k = Gt
  end ∧ ∀ i j k, (ref_search f ks = Ok i ∨ ref_search f ks = Err i) → (j < i)%nat →
        ks !! j = Some k → f k = Lt.
Proof.
  induction ks as [|x ks [IH1 IH2]]; simpl.
  { split; [split; [lia|done]|]. intros i j k _ _. by rewrite lookup_nil. }
  destruct (f x) eqn:E; simpl.
  - split; [by exists x|]. intros i j k [[= <-]|?]; [lia|done].
  - destruct (ref_search f ks) as [m|m]; split; simpl;
      try (destruct IH1 as [? ?]; split; [lia|done]); try done;
      intros i [|j] k [[= <-]|[= <-]] Hj Hk; simpl in Hk; try (by injection Hk as ->);
      try (eapply (IH2 m j); [by eauto|lia|done]); done.
  - split; [split; [lia|]; by intros ? [= <-]|]. intros i j k [?|[= <-]]; [done|lia].
Qed.

Lemma mid_bounds lo hi : (lo < hi → lo ≤ lo + (hi - lo) / 2 < hi)%nat.
Proof. intros. pose proof (Nat.Div0.div_lt_upper_bound (hi - lo) 2 (hi - lo)). lia. Qed.

(** The loop keeps the place of [f] between [lo] and [hi]. *)
Lemma bsearch_by_spec r ks f fuel lo hi :
  key_rep r ks → partitioned f ks →
  (lo ≤ hi ≤ length ks)%nat → (hi - lo ≤ fuel)%nat →
  (∀ j k, (j < lo)%nat → ks !! j = Some k → f k = Lt) →
  (∀ j k, (hi ≤ j)%nat → ks !! j = Some k → f k = Gt) →
  bsearch_by r f fuel lo hi = Some (ref_search f ks).
Proof.
  intros Hr Hp. revert lo hi; induction fuel as [|fuel IH]; intros lo hi Hb Hfuel Hlo Hhi;
    cbn [bsearch_by partition_loop].
  { rewrite (proj2 (Nat.ltb_ge _ _)) by lia. f_equal. symmetry.
    apply ref_search_err; [lia|done|]. intros k. apply Hhi. lia. }
  destruct (lo <? hi)%nat eqn:E; reflect_bools.
  2:{ f_equal. symmetry. apply ref_search_err; [lia|done|]. intros k. apply Hhi. lia. }
  set (mid := (lo + (hi - lo) / 2)%nat).
  assert (lo ≤ mid < hi)%nat as Hmid by by apply mid_bounds.
  rewrite (KeyRep_get_spec _ _ mid Hr).
  destruct (lookup_lt_is_Some_2 ks mid ltac:(lia)) as [s Hs]. rewrite Hs. cbn [mbind option_bind].
  destruct (f s) eqn:Ef.
  - f_equal. symmetry. by eapply ref_search_ok.
  - apply IH; [lia..| |done]. intros j k Hj Hk.
    destruct (decide (j = mid)) as [->|Hne]; [congruence|].
    destruct (decide (j < mid)%nat) as [Hlt|]; [|lia].
    destruct (Hp j mid k s Hlt Hk Hs) as [?|?]; [done|congruence].
  - apply IH; [lia..|done|]. intros j k Hj Hk.
    destruct (decide (j = mid)) as [->|Hne]; [congruence|].
    destruct (Hp mid j s k ltac:(lia) Hs Hk) as [?|?]; [congruence|done].
Qed.

Lemma partition_loop_spec r ks (f : key → comparison) pred fuel lo hi :
  key_rep r ks → partitioned f ks → (∀ k, k ∈ ks → f k ≠ Eq) →
  (∀ k, k ∈ ks → pred k = match f k with Lt => true | _ => false end) →
  (lo ≤ hi ≤ length ks)%nat → (hi - lo ≤ fuel)%nat →
  (∀ j k, (j < lo)%nat → ks !! j = Some k → f k = Lt) →
  (∀ j k, (hi ≤ j)%nat → ks !! j = Some k → f k = Gt) →
  ∃ p, partition_loop r pred fuel lo hi = Some p ∧ ref_search f ks = Err p.
Proof.
  intros Hr Hp Hne Hpred. revert lo hi; induction fuel as [|fuel IH]; intros lo hi Hb Hfuel Hlo Hhi;
    cbn [bsearch_by partition_loop].
  { rewrite (proj2 (Nat.ltb_ge _ _)) by lia. exists lo. split; [done|].
    apply ref_search_err; [lia|done|]. intros k. apply Hhi. lia. }
  destruct (lo <? hi)%nat eqn:E; reflect_bools.
  2:{ exists lo. split; [done|]. apply ref_search_err; [lia|done|]. intros k. apply Hhi. lia. }
  set (mid := (lo + (hi - lo) / 2)%nat).
  assert (lo ≤ mid < hi)%nat as Hmid by by apply mid_bounds.
  rewrite (KeyRep_get_spec _ _ mid Hr).
  destruct (lookup_lt_is_Some_2 ks mid ltac:(lia)) as [s Hs]. rewrite Hs. cbn [mbind option_bind].
  pose proof (list_elem_of_lookup_2 _ _ _ Hs) as Hin. rewrite (Hpred s Hin).
  destruct (f s) eqn:Ef; [by destruct (Hne s Hin)| |].
  - apply IH; [lia..| |done]. intros j k Hj Hk.
    destruct (decide (j = mid)) as [->|Hjm]; [congruence|].
    destruct (Hp j mid k s ltac:(lia) Hk Hs) as [?|?]; [done|congruence].
  - apply IH; [lia..|done|]. intros j k Hj Hk.
    destruct (decide (j = mid)) as [->|Hjm]; [congruence|].
    destruct (Hp mid j s k ltac:(lia) Hs Hk) as [?|?]; [congruence|done].
Qed.

(** ** The records of a BIN *)

(** A whole slot: full key, LSN and entry. *)
Abbreviation slot := (key * Z * BinEntry)%type.
Abbreviation slot_key := (λ s : slot, s.1.1).
Abbreviation slot_lsn := (λ s : slot, s.1.2).
Abbreviation slot_entry := (λ s : slot, s.2).

Record bin_rep (b : BinStub) (slots : list slot) : Prop := {
  br_prefix : Forall (λ s : slot, key_prefix b `prefix_of` slot_key s) slots;
  br_keys : key_rep (bin_keys b) ((λ s, drop (length (key_prefix b)) (slot_key s)) <$> slots);
  br_entries : bin_entries b = slot_entry <$> slots;
  br_lsns : lsn_rep (bin_lsns b) (slot_lsn <$> slots);
  br_compact : compact_max_key_length b < 2 ^ 16;
}.

Lemma bin_len b slots : bin_rep b slots → KeyRep_len (bin_keys b) = length slots.
Proof. intros Hb. by rewrite (KeyRep_len_spec _ _ (br_keys _ _ Hb)), length_fmap. Qed.

Lemma bin_entries_len b slots : bin_rep b slots → length (bin_entries b) = length slots.
Proof. intros Hb. by rewrite (br_entries _ _ Hb), length_fmap. Qed.

Lemma prefix_drop (p k : key) : p `prefix_of` k → p ++ drop (length p) k = k.
Proof. intros [r ->]. by rewrite drop_app_length. Qed.

Lemma get_full_key_spec b slots i :
  bin_rep b slots → get_full_key b i = slot_key <$> slots !! i.
Proof.
  intros Hb. unfold get_full_key. rewrite (bin_len _ _ Hb).
  destruct (length slots <=? i)%nat eqn:E; reflect_bools; [by rewrite lookup_ge_None_2|].
  rewrite (KeyRep_get_spec _ _ _ (br_keys _ _ Hb)), list_lookup_fmap.
  destruct (lookup_lt_is_Some_2 slots i E) as [s Hs]. rewrite Hs. simpl. unfold decompress_key.
  rewrite prefix_drop; [done|]. by apply (Forall_lookup_1 _ _ _ _ (br_prefix _ _ Hb) Hs).
Qed.

Lemma compress_key_spec b k :
  key_prefix b `prefix_of` k → compress_key b k = Some (drop (length (key_prefix b)) k).
Proof. intros. unfold compress_key. by rewrite bool_decide_true. Qed.

(** ** Prefixes *)

Lemma take_prefix_length_prefix (p k : key) : take (get_key_prefix_length p k) p `prefix_of` k.
Proof. apply prefix_length_prefix. Qed.

Lemma common_prefix_len_spec b slots ex seed idxs len :
  bin_rep b slots → (len ≤ length seed)%nat →
  match common_prefix_len b ex seed len idxs with
  | Some len' => (len' ≤ len)%nat ∧
      ∀ i s, i ∈ idxs → ex ≠ Some i → slots !! i = Some s → take len' seed `prefix_of` slot_key s
  | None => True
  end.
Proof.
  intros Hb. revert len; induction idxs as [|i idxs IH]; intros len Hlen; simpl.
  { split; [lia|]. by intros i s ?%elem_of_nil. }
  destruct (bool_decide (ex = Some i)) eqn:Ex; reflect_bools.
  { specialize (IH len Hlen). destruct (common_prefix_len b ex seed len idxs); [|done].
    destruct IH as [? IH]. split; [done|]. intros j s [->|Hj]%elem_of_cons; [done|by apply IH]. }
  rewrite (get_full_key_spec _ _ _ Hb). destruct (slots !! i) as [s|] eqn:Hs; simpl.
  2:{ specialize (IH len Hlen). destruct (common_prefix_len b ex seed len idxs); [|done].
      destruct IH as [? IH]. split; [done|].
      intros j s [->|Hj]%elem_of_cons ? ?; [congruence|by eapply IH]. }
  set (nl := get_key_prefix_length (take len seed) (slot_key s)).
  set (len2 := if (nl <? len)%nat then nl else len).
  assert (len2 ≤ len ∧ len2 ≤ nl)%nat as [Hl1 Hl2].
  { destruct (prefix_length_le (take len seed) (slot_key s)) as [H1 _].
    rewrite length_take in H1. unfold len2, nl in *. split_match; reflect_bools; lia. }
  destruct (len2 =? 0)%nat; [done|].
  specialize (IH len2 ltac:(lia)). destruct (common_prefix_len b ex seed len2 idxs) as [len3|]; [|done].
  destruct IH as [Hl3 IH]. split; [lia|].
  intros j s' [->|Hj]%elem_of_cons ? Hs'; [|by eapply IH].
  rewrite Hs in Hs'. injection Hs' as <-.
  pose proof (take_prefix_length_prefix (take len seed) (slot_key s)) as Hpre. fold nl in Hpre.
  rewrite take_take in Hpre. etrans; [|exact Hpre].
  replace len3 with (len3 `min` (nl `min` len))%nat by lia. rewrite <-take_take. apply prefix_take.
Qed.

Lemma seq_cover {A} (l : list A) i x :
  l !! i = Some x → i = 0%nat ∨ i ∈ seq 1 (length l - 1).
Proof.
  intros Hi. apply lookup_lt_Some in Hi. destruct i; [by left|right]. apply elem_of_seq. lia.
Qed.

Lemma compute_key_prefix_spec b slots :
  bin_rep b slots → Forall (λ s : slot, compute_key_prefix b None `prefix_of` slot_key s) slots.
Proof.
  intros Hb. apply Forall_lookup. intros i s Hi. unfold compute_key_prefix.
  destruct (negb (key_prefixing b)); [apply prefix_nil|]. rewrite (bin_len _ _ Hb).
  destruct (length slots <? 2)%nat; [apply prefix_nil|]. rewrite bool_decide_false by done.
  rewrite (get_full_key_spec _ _ _ Hb). destruct (slots !! 0%nat) as [s0|] eqn:H0; [|apply prefix_nil].
  cbn [fmap option_fmap option_map].
  pose proof (common_prefix_len_spec b slots None (slot_key s0) (seq 1 (length slots - 1))
                (length (slot_key s0)) Hb ltac:(lia)) as Hc.
  destruct (common_prefix_len _ _ _ _ _) as [len|]; [|apply prefix_nil].
  destruct Hc as [Hlen Hc]. destruct (seq_cover _ _ _ Hi) as [->|Hin]; [|by eapply Hc].
  rewrite H0 in Hi. injection Hi as <-. apply prefix_take.
Qed.

Lemma narrow_spec b slots c idxs :
  bin_rep b slots →
  narrow b c idxs `prefix_of` c ∧
  ∀ i s, i ∈ idxs → slots !! i = Some s → narrow b c idxs `prefix_of` slot_key s.
Proof.
  intros Hb. revert c; induction idxs as [|i idxs IH]; intros c; simpl.
  { split; [done|]. by intros i s ?%elem_of_nil. }
  destruct c as [|x c]; [split; [done|]; intros; apply prefix_nil|].
  rewrite (get_full_key_spec _ _ _ Hb). destruct (slots !! i) as [s|] eqn:Hs; cbn [fmap option_fmap option_map].
  - set (c2 := take _ (x :: c)). destruct (IH c2) as [IH1 IH2].
    assert (c2 `prefix_of` x :: c) by apply prefix_take. split; [by etrans|].
    intros j s' [->|Hj]%elem_of_cons Hs'; [|by eapply IH2]. rewrite Hs in Hs'. injection Hs' as <-.
    etrans; [exact IH1|]. apply take_prefix_length_prefix.
  - destruct (IH (x :: c)) as [IH1 IH2]. split; [done|].
    intros j s' [->|Hj]%elem_of_cons Hs'; [congruence|by eapply IH2].
Qed.

(** A node that differs in its prefix and its key array only. *)
Definition rekeyed (b b' : BinStub) : Prop :=
  ∃ p ks, b' = with_slots b p (bin_entries b) ks (bin_lsns b).

Lemma rekeyed_refl b : rekeyed b b.
Proof. exists (key_prefix b), (bin_keys b). by destruct b. Qed.

Lemma set_suffixes_spec b fks done_ ks :
  Forall (λ k, key_prefix b `prefix_of` k) fks → length ks = length fks →
  ∀ r, key_rep r (done_ ++ ks) →
  ∃ r', set_suffixes b (length done_) fks r = Some r' ∧
    key_rep r' (done_ ++ (drop (length (key_prefix b)) <$> fks)).
Proof.
  intros Hfk. revert done_ ks; induction Hfk as [|k fks Hk Hfk IH]; intros done_ ks Hlen r Hr.
  { destruct ks; [|done]. by exists r. }
  destruct ks as [|k0 ks]; [done|]. cbn [set_suffixes].
  rewrite compress_key_spec by done. cbn [mbind option_bind].
  destruct (KeyRep_set_spec r (done_ ++ k0 :: ks) (length done_) (drop (length (key_prefix b)) k) Hr)
    as (r1 & -> & Hr1); [rewrite length_app; simpl; lia|]. cbn [mbind option_bind].
  rewrite insert_app_r_alt, Nat.sub_diag in Hr1 by lia. cbn [insert list_insert] in Hr1.
  destruct (IH (done_ ++ [drop (length (key_prefix b)) k]) ks ltac:(simpl in Hlen; lia) r1)
    as (r' & Hset & Hr'); [by rewrite <-app_assoc|].
  rewrite length_app, Nat.add_1_r in Hset. exists r'. split; [done|]. by rewrite <-app_assoc in Hr'.
Qed.

Lemma full_keys_spec b slots :
  bin_rep b slots →
  default [] ∘ get_full_key b <$> seq 0 (KeyRep_len (bin_keys b)) = slot_key <$> slots.
Proof.
  intros Hb. apply list_eq. intros i. rewrite !list_lookup_fmap, (bin_len _ _ Hb).
  destruct (slots !! i) as [s|] eqn:Hs.
  - rewrite lookup_seq_lt by (by eapply lookup_lt_Some). simpl.
    by rewrite (get_full_key_spec _ _ _ Hb), Hs.
  - by rewrite lookup_seq_ge by (by apply lookup_ge_None).
Qed.

Lemma apply_new_prefix_spec b slots p :
  bin_rep b slots → Forall (λ s : slot, p `prefix_of` slot_key s) slots →
  ∃ b', apply_new_prefix b p = Some b' ∧ rekeyed b b' ∧ key_prefix b' = p ∧ bin_rep b' slots.
Proof.
  intros Hb Hp. unfold apply_new_prefix. rewrite (full_keys_spec _ _ Hb).
  set (b1 := with_slots b p (bin_entries b) (bin_keys b) (bin_lsns b)).
  destruct (set_suffixes_spec b1 (slot_key <$> slots) []
             ((λ s, drop (length (key_prefix b)) (slot_key s)) <$> slots))
    with (r := bin_keys b) as (r1 & Hset & Hr1);
    [by apply Forall_fmap|by rewrite !length_fmap|apply (br_keys _ _ Hb)|].
  cbn zeta. fold b1. change (bin_keys b1) with (bin_keys b).
  cbn [length app] in Hset, Hr1. rewrite Hset. cbn [mbind option_bind].
  destruct (KeyRep_compact_spec r1 _ (compact_max_key_length b) Hr1 (br_compact _ _ Hb))
    as (r2 & Hc & Hr2). simpl. rewrite Hc. cbn [mbind option_bind].
  eexists; split; [done|]. split_and!; [by exists p, r2|done|].
  destruct Hb as [_ _ He Hl Hm]. split; simpl; [done| |done..].
  by rewrite <-list_fmap_compose in Hr2.
Qed.

Lemma prefix_length_full p k : get_key_prefix_length p k = length p → p `prefix_of` k.
Proof. intros E. pose proof (prefix_length_prefix p k) as H. by rewrite E, take_ge in H. Qed.

Lemma create_key_prefix_spec k1 k2 :
  default [] (create_key_prefix k1 k2) `prefix_of` k1 ∧
  default [] (create_key_prefix k1 k2) `prefix_of` k2.
Proof.
  unfold create_key_prefix. destruct (get_key_prefix_length k1 k2 =? 0)%nat;
    [split; apply prefix_nil|]. split; [apply prefix_take|apply prefix_length_prefix].
Qed.

Lemma shrink_prefix_spec b slots k :
  bin_rep b slots →
  ∃ b', shrink_prefix b k = Some b' ∧ rekeyed b b' ∧ bin_rep b' slots ∧ key_prefix b' `prefix_of` k.
Proof.
  intros Hb. unfold shrink_prefix. destruct ((0 <? length (key_prefix b))%nat && _) eqn:E.
  2:{ exists b. split_and!; [done|apply rekeyed_refl|done|].
      destruct (0 <? length (key_prefix b))%nat eqn:E0; simpl in E; reflect_bools.
      - apply prefix_length_full. pose proof (prefix_length_le (key_prefix b) k). lia.
      - destruct (key_prefix b); [apply prefix_nil|simpl in *; lia]. }
  clear E. set (c := match compute_key_prefix b None with [] => _ | _ => _ end).
  assert (Forall (λ s : slot, c `prefix_of` slot_key s) slots ∧ c `prefix_of` k) as [Hall Hck].
  { pose proof (compute_key_prefix_spec b slots Hb) as Hcomp.
    destruct (compute_key_prefix b None) as [|x p] eqn:Ep.
    - subst c. rewrite (br_entries _ _ Hb), length_fmap, (get_full_key_spec _ _ _ Hb).
      destruct slots as [|s0 slots]; [simpl; split; [done|apply prefix_nil]|].
      cbn [fmap list_fmap lookup list_lookup option_fmap option_map].
      destruct (create_key_prefix_spec (slot_key s0) k) as [H1 H2].
      destruct (narrow_spec b (s0 :: slots) (default [] (create_key_prefix (slot_key s0) k))
                  (seq 1 (length (s0 :: slots) - 1)) Hb) as [N1 N2].
      split; [|by etrans]. apply Forall_lookup. intros i s Hi.
      destruct (seq_cover _ _ _ Hi) as [->|Hin]; [|by eapply N2].
      injection Hi as <-. by etrans.
    - split; [|apply prefix_length_prefix]. eapply Forall_impl; [exact Hcomp|].
      intros s Hs. etrans; [apply prefix_take|done]. }
  destruct (apply_new_prefix_spec b slots c Hb Hall) as (b' & -> & Hrek & Hp & Hb').
  exists b'. split_and!; [done..|]. by rewrite Hp.
Qed.

(** ** Searches on the records *)

Lemma partitioned_fmap (g : key → key) f ks :
  partitioned f (g <$> ks) ↔ partitioned (f ∘ g) ks.
Proof.
  split; intros Hp i j a b Hij Ha Hb.
  - apply (Hp i j (g a) (g b) Hij); by rewrite list_lookup_fmap, ?Ha, ?Hb.
  - rewrite list_lookup_fmap in Ha, Hb.
    destruct (ks !! i) as [a'|] eqn:Ea; [|done]. destruct (ks !! j) as [b'|] eqn:Eb; [|done].
    injection Ha as <-. injection Hb as <-. by apply (Hp i j a' b').
Qed.

Lemma ref_search_fmap (g : key → key) f ks :
  ref_search f (g <$> ks) = ref_search (f ∘ g) ks.
Proof.
  induction ks as [|k ks IH]; [done|]. rewrite fmap_cons. cbn [ref_search].
  rewrite IH. done.
Qed.

Lemma ref_search_ext f g ks :
  (∀ k, k ∈ ks → f k = g k) → ref_search f ks = ref_search g ks.
Proof.
  induction ks as [|k ks IH]; intros Hfg; simpl; [done|].
  rewrite (Hfg k) by left. rewrite IH; [done|]. intros k' Hk'. apply Hfg. by right.
Qed.

Lemma partitioned_ext f g ks :
  (∀ k, k ∈ ks → f k = g k) → partitioned f ks → partitioned g ks.
Proof.
  intros Hfg Hp i j a b Hij Ha Hb. rewrite <-!Hfg by (by eapply list_elem_of_lookup_2).
  by apply (Hp i j).
Qed.

Abbreviation keys_of slots := (slot_key <$> slots).

(** A search that looks at whole keys through the prefix. *)
Lemma key_binary_search_by_spec b slots f g :
  bin_rep b slots → partitioned f (keys_of slots) →
  (∀ s, s ∈ slots → g (drop (length (key_prefix b)) (slot_key s)) = f (slot_key s)) →
  key_binary_search_by b g = Some (ref_search f (keys_of slots)).
Proof.
  intros Hb Hp Hfg. unfold key_binary_search_by. rewrite (bin_len _ _ Hb).
  set (d := λ k : key, drop (length (key_prefix b)) k).
  assert (∀ k, k ∈ keys_of slots → (g ∘ d) k = f k) as Hext.
  { intros k (s & -> & Hs)%list_elem_of_fmap. by apply Hfg. }
  assert (key_rep (bin_keys b) (d <$> keys_of slots)) as Hr
    by (rewrite <-list_fmap_compose; apply (br_keys _ _ Hb)).
  rewrite (bsearch_by_spec _ (d <$> keys_of slots) g).
  - rewrite ref_search_fmap. f_equal. by apply ref_search_ext.
  - done.
  - apply partitioned_fmap. eapply partitioned_ext; [|exact Hp]. intros k Hk. symmetry. by apply Hext.
  - rewrite !length_fmap. lia.
  - lia.
  - intros j k Hj. lia.
  - intros j k Hj Hk. apply lookup_lt_Some in Hk. rewrite !length_fmap in Hk. lia.
Qed.

Lemma search_cmp_spec `{KeyOrder cmp} b slots k :
  bin_rep b slots → key_sorted cmp (keys_of slots) →
  search_cmp b k cmp = Some (ref_search (λ k', cmp k' k) (keys_of slots)).
Proof.
  intros Hb Hs. pose proof (sorted_partitioned k _ Hs) as Hp.
  pose proof (br_prefix _ _ Hb) as Hpre. rewrite Forall_forall in Hpre.
  unfold search_cmp. destruct (key_prefix b) as [|x p] eqn:Ep.
  - apply key_binary_search_by_spec; [done..|]. intros s Hin. by rewrite Ep.
  - apply key_binary_search_by_spec; [done..|]. intros s Hin.
    rewrite <-Ep in *. by rewrite prefix_drop by (by apply Hpre).
Qed.

Lemma key_binary_search_spec b slots k :
  bin_rep b slots → key_sorted compare_unsigned_bytes (keys_of slots) →
  key_prefix b `prefix_of` k →
  key_binary_search b (drop (length (key_prefix b)) k) =
  Some (ref_search (λ k', compare_unsigned_bytes k' k) (keys_of slots)).
Proof.
  intros Hb Hs Hk. apply key_binary_search_by_spec; [done|by apply sorted_partitioned|].
  intros s Hin. apply lex_cmp_strip; [|done].
  pose proof (br_prefix _ _ Hb) as Hpre. rewrite Forall_forall in Hpre. by apply Hpre.
Qed.

Lemma prefix_test (p k : key) :
  ((0 <? length p)%nat && ((length k <? length p)%nat ||
     negb (bool_decide (take (length p) k = p)))) = negb (bool_decide (p `prefix_of` k)).
Proof.
  destruct (decide (p `prefix_of` k)) as [Hp|Hp].
  - rewrite (bool_decide_true (p `prefix_of` k)) by done. pose proof (prefix_length _ _ Hp).
    rewrite (proj2 (Nat.ltb_ge (length k) _)) by lia.
    rewrite bool_decide_true by by apply prefix_of_take. simpl. by rewrite andb_false_r.
  - rewrite (bool_decide_false (p `prefix_of` k)) by done.
    rewrite bool_decide_false by (by rewrite <-prefix_of_take).
    rewrite orb_true_r, andb_true_r. apply Nat.ltb_lt.
    destruct p; [by destruct Hp; apply prefix_nil|simpl; lia].
Qed.

Lemma find_entry_compressed_spec b slots k :
  bin_rep b slots → key_sorted compare_unsigned_bytes (keys_of slots) →
  find_entry_compressed b k =
  Some (found (ref_search (λ k', compare_unsigned_bytes k' k) (keys_of slots))).
Proof.
  intros Hb Hs. unfold find_entry_compressed. rewrite prefix_test.
  destruct (decide (key_prefix b `prefix_of` k)) as [Hk|Hk].
  { rewrite bool_decide_true by done. simpl. by rewrite (key_binary_search_spec b slots k Hb Hs Hk). }
  rewrite bool_decide_false by done. cbn [negb]. unfold key_partition_point. rewrite (bin_len _ _ Hb).
  pose proof (br_prefix _ _ Hb) as Hpre. rewrite Forall_forall in Hpre.
  set (d := λ k0 : key, drop (length (key_prefix b)) k0).
  assert (key_rep (bin_keys b) (d <$> keys_of slots)) as Hr
    by (rewrite <-list_fmap_compose; apply (br_keys _ _ Hb)).
  set (f := λ s, compare_unsigned_bytes (key_prefix b ++ s) k).
  assert (∀ k', k' ∈ keys_of slots → (f ∘ d) k' = compare_unsigned_bytes k' k) as Hext.
  { intros k' (s & -> & Hin)%list_elem_of_fmap. unfold f, d. simpl.
    by rewrite prefix_drop by (by apply Hpre). }
  destruct (partition_loop_spec (bin_keys b) (d <$> keys_of slots) f
    (λ s, key_lt (decompress_key b s) k) (length slots) 0 (length slots)) as (p & -> & Hp).
  - done.
  - apply partitioned_fmap. eapply partitioned_ext; [|by apply (sorted_partitioned k _ Hs)].
    intros k' Hk'. symmetry. by apply Hext.
  - intros s Hin Heq. apply lex_cmp_eq in Heq as <-. destruct Hk. by apply prefix_app_r.
  - done.
  - rewrite !length_fmap. lia.
  - lia.
  - intros j s Hj. lia.
  - intros j s Hj Hl. apply lookup_lt_Some in Hl. rewrite !length_fmap in Hl. lia.
  - cbn [mbind option_bind]. rewrite ref_search_fmap in Hp.
    rewrite <-(ref_search_ext _ _ _ Hext), Hp. done.
Qed.

(** ** Insertion and removal on the records *)

Definition slots_only (b b' : BinStub) : Prop :=
  ∃ p es ks ls, b' = with_slots b p es ks ls.

Lemma rekeyed_slots_only b b' : rekeyed b b' → slots_only b b'.
Proof. intros (p & ks & ->). by eexists _, _, _, _. Qed.

(** What an update leaves alone of the state that logging depends on.  The
    prohibition of deltas is only ever raised. *)
Record log_frame (b b' : BinStub) : Prop := {
  lf_id : bin_node_id b' = bin_node_id b;
  lf_delta : is_delta b' = is_delta b;
  lf_full : bin_last_full_lsn b' = bin_last_full_lsn b;
  lf_last_delta : last_delta_lsn b' = last_delta_lsn b;
  lf_embed : max_embedded_ln b' = max_embedded_ln b;
  lf_prefixing : key_prefixing b' = key_prefixing b;
  lf_cursors : cursor_count b' = cursor_count b;
  lf_prohibit : prohibit_next_delta b = true → prohibit_next_delta b' = true;
  lf_dirty : bin_dirty b = true → bin_dirty b' = true;
}.

Lemma log_frame_refl b : log_frame b b.
Proof. by split. Qed.

Lemma log_frame_trans b1 b2 b3 : log_frame b1 b2 → log_frame b2 b3 → log_frame b1 b3.
Proof. intros [] []. split; try congruence; auto. Qed.

(** A node whose next log entry exists and is a full image. *)
Definition must_relog (b : BinStub) : Prop := prohibit_next_delta b = true ∧ bin_dirty b = true.

Lemma must_relog_frame b b' : log_frame b b' → must_relog b → must_relog b'.
Proof. intros [] [? ?]. split; auto. Qed.

Lemma slots_only_frame b b' : slots_only b b' → log_frame b b'.
Proof. by intros (? & ? & ? & ? & ->). Qed.

Lemma rekeyed_frame b b' : rekeyed b b' → log_frame b b'.
Proof. intros. by apply slots_only_frame, rekeyed_slots_only. Qed.

Lemma with_state_frame b d p :
  (prohibit_next_delta b = true → p = true) → (bin_dirty b = true → d = true) →
  log_frame b (with_state b d (bin_last_full_lsn b) (last_delta_lsn b) p).
Proof. by intros. Qed.
#[local] Hint Resolve log_frame_refl slots_only_frame rekeyed_frame with_state_frame : noxu.

Lemma slots_only_trans b1 b2 b3 : slots_only b1 b2 → slots_only b2 b3 → slots_only b1 b3.
Proof. intros (? & ? & ? & ? & ->) (? & ? & ? & ? & ->). by eexists _, _, _, _. Qed.

(** The reference insertion and removal. *)
Definition abs_insert (cmp : key → key → comparison) (slots : list slot) (k : key) (lsn : Z)
    (d : option (list Z)) : list slot * (nat * bool) :=
  match ref_search (λ k', cmp k' k) (keys_of slots) with
  | Ok i =>
      match slots !! i with
      | Some s => (<[i := (k, lsn, reused_entry (slot_entry s) d)]> slots,
                   (i, is_deleted (slot_entry s)))
      | None => (slots, (i, false))
      end
  | Err i => (take i slots ++ (k, lsn, new_entry d) :: drop i slots, (i, true))
  end.

Definition abs_delete (cmp : key → key → comparison) (slots : list slot) (k : key)
    : list slot * bool :=
  match ref_search (λ k', cmp k' k) (keys_of slots) with
  | Ok i => (delete i slots,
             match slots !! i with Some s => negb (is_deleted (slot_entry s)) | None => false end)
  | Err _ => (slots, false)
  end.

Lemma length_insert_at {A} (l : list A) i x :
  (i ≤ length l)%nat → length (take i l ++ x :: drop i l) = S (length l).
Proof. intros. rewrite length_app, length_take. simpl. rewrite length_drop. lia. Qed.

Lemma insert_slot_spec b slots i k lsn d :
  bin_rep b slots → (i ≤ length slots)%nat → key_prefix b `prefix_of` k → in_u 64 lsn →
  ∃ b', insert_slot b i (drop (length (key_prefix b)) k) lsn d = Some b' ∧ slots_only b b' ∧
    key_prefix b' = key_prefix b ∧
    bin_rep b' (take i slots ++ (k, lsn, new_entry d) :: drop i slots).
Proof.
  intros Hb Hi Hk Hlsn. pose proof Hb as [Hp Hks He Hl Hm]. unfold insert_slot.
  rewrite vec_insert_spec by (by rewrite He, length_fmap). cbn [mbind option_bind].
  destruct (KeyRep_insert_spec _ _ i (drop (length (key_prefix b)) k) Hks) as (ks & -> & Hks');
    [by rewrite length_fmap|]. cbn [mbind option_bind].
  rewrite length_insert_at by (by rewrite He, length_fmap). rewrite He, length_fmap.
  destruct (lsn_insert_spec _ _ i lsn Hl) as (l1 & l2 & H1 & H2 & Hl2); [by rewrite length_fmap|done|].
  rewrite length_fmap in H1, H2. rewrite H1. cbn [mbind option_bind]. rewrite H2.
  eexists; split; [done|]. split_and!; [by eexists _, _, _, _|done|].
  split; simpl; rewrite ?fmap_app, ?fmap_cons, ?fmap_take, ?fmap_drop; try done.
  apply Forall_app. split; [by apply Forall_take|]. constructor; [done|by apply Forall_drop].
Qed.

Lemma bin_set_lsn_spec b slots i s lsn :
  bin_rep b slots → slots !! i = Some s → in_u 64 lsn →
  ∃ ls, bin_set_lsn b i lsn = Some (with_slots b (key_prefix b) (bin_entries b) (bin_keys b) ls) ∧
    lsn_rep ls (slot_lsn <$> <[i := (slot_key s, lsn, slot_entry s)]> slots).
Proof.
  intros Hb Hs Hlsn. unfold bin_set_lsn.
  destruct (LsnRep_set_spec _ _ i lsn (br_lsns _ _ Hb)) as (ls & Hset & Hls);
    [rewrite length_fmap; by eapply lookup_lt_Some|done|].
  rewrite length_fmap in Hset. rewrite (bin_entries_len _ _ Hb), Hset. exists ls.
  split; [done|]. by rewrite list_fmap_insert.
Qed.

(** An update in place, whose key may already have been replaced. *)
Lemma update_slot_spec b slots i s lsn d :
  bin_rep b slots → slots !! i = Some s → in_u 64 lsn →
  ∃ b', update_slot b i lsn d = Some (b', (i, is_deleted (slot_entry s))) ∧ slots_only b b' ∧
    key_prefix b' = key_prefix b ∧
    bin_rep b' (<[i := (slot_key s, lsn, reused_entry (slot_entry s) d)]> slots).
Proof.
  intros Hb Hs Hlsn. destruct (bin_set_lsn_spec b slots i s lsn Hb Hs Hlsn) as (ls & Hset & Hls).
  unfold update_slot. rewrite Hset. cbn [mbind option_bind bin_entries with_slots].
  rewrite (br_entries _ _ Hb), list_lookup_fmap, Hs. cbn [fmap option_fmap option_map mbind option_bind].
  eexists; split; [done|]. split_and!; [by eexists _, _, _, _|done|].
  pose proof Hb as [Hp Hks He Hl Hm]. split; simpl.
  - apply Forall_insert; [done|]. simpl. by apply (Forall_lookup_1 _ _ _ _ Hp Hs).
  - rewrite list_fmap_insert, list_insert_id; [done|]. by rewrite list_lookup_fmap, Hs.
  - by rewrite list_fmap_insert.
  - rewrite list_fmap_insert in *. done.
  - done.
Qed.

Lemma recompute_key_prefix_spec b slots :
  bin_rep b slots →
  ∃ b', recompute_key_prefix b = Some b' ∧ rekeyed b b' ∧ bin_rep b' slots.
Proof.
  intros Hb. destruct (apply_new_prefix_spec b slots _ Hb (compute_key_prefix_spec b slots Hb))
    as (b' & H1 & H2 & _ & H3). by exists b'.
Qed.

Lemma insert_new_spec b slots i k lsn d :
  bin_rep b slots → (i ≤ length slots)%nat → key_prefix b `prefix_of` k → in_u 64 lsn →
  ∃ b', insert_new b i (drop (length (key_prefix b)) k) lsn d = Some (b', (i, true)) ∧
    slots_only b b' ∧ bin_rep b' (take i slots ++ (k, lsn, new_entry d) :: drop i slots).
Proof.
  intros Hb Hi Hk Hlsn. unfold insert_new.
  destruct (insert_slot_spec b slots i k lsn d Hb Hi Hk Hlsn) as (b1 & -> & Hso & _ & Hb1).
  cbn [mbind option_bind].
  destruct (bool_decide (key_prefix b1 = []) && (2 <=? length (bin_entries b1))%nat).
  - destruct (recompute_key_prefix_spec b1 _ Hb1) as (b2 & -> & Hrk & Hb2).
    exists b2. split_and!; [done| |done]. eauto using slots_only_trans, rekeyed_slots_only.
  - by exists b1.
Qed.

Lemma insert_with_prefix_spec b slots k lsn d :
  bin_rep b slots → key_sorted compare_unsigned_bytes (keys_of slots) → in_u 64 lsn →
  ∃ b', insert_with_prefix b k lsn d =
          Some (b', (abs_insert compare_unsigned_bytes slots k lsn d).2) ∧ slots_only b b' ∧
    bin_rep b' (abs_insert compare_unsigned_bytes slots k lsn d).1.
Proof.
  intros Hb Hs Hlsn. unfold insert_with_prefix, abs_insert.
  destruct (shrink_prefix_spec b slots k Hb) as (b1 & -> & Hrk & Hb1 & Hk). cbn [mbind option_bind].
  rewrite compress_key_spec by done. cbn [mbind option_bind].
  rewrite (key_binary_search_spec b1 slots k Hb1 Hs Hk). cbn [mbind option_bind].
  destruct (ref_search_inv (λ k', compare_unsigned_bytes k' k) (keys_of slots)) as [Hinv _].
  destruct (ref_search _ _) as [i|i].
  - destruct Hinv as (k' & Hk' & Heq). rewrite list_lookup_fmap in Hk'.
    destruct (slots !! i) as [s|] eqn:Hi; [|done]. injection Hk' as <-.
    destruct (update_slot_spec b1 slots i s lsn d Hb1 Hi Hlsn) as (b2 & -> & Hso & _ & Hb2).
    exists b2. split_and!; [done|by eauto using slots_only_trans, rekeyed_slots_only|].
    apply lex_cmp_eq in Heq. simpl in *. by rewrite <-Heq.
  - destruct Hinv as [Hi _]. rewrite length_fmap in Hi.
    destruct (insert_new_spec b1 slots i k lsn d Hb1 Hi Hk Hlsn) as (b2 & -> & Hso & Hb2).
    exists b2. split_and!; [done|by eauto using slots_only_trans, rekeyed_slots_only|done].
Qed.

Lemma insert_raw_spec b slots k lsn d :
  bin_rep b slots → key_prefix b = [] → key_sorted compare_unsigned_bytes (keys_of slots) →
  in_u 64 lsn →
  ∃ b', insert_raw b k lsn d =
          Some (b', (abs_insert compare_unsigned_bytes slots k lsn d).2) ∧ slots_only b b' ∧
    key_prefix b' = [] ∧ bin_rep b' (abs_insert compare_unsigned_bytes slots k lsn d).1.
Proof.
  intros Hb Hp Hs Hlsn. unfold insert_raw, abs_insert.
  assert (key_prefix b `prefix_of` k) as Hk by (rewrite Hp; apply prefix_nil).
  assert (drop (length (key_prefix b)) k = k) as Hd by by rewrite Hp.
  pose proof (key_binary_search_spec b slots k Hb Hs Hk) as Hsearch. rewrite Hd in Hsearch.
  rewrite Hsearch. cbn [mbind option_bind].
  destruct (ref_search_inv (λ k', compare_unsigned_bytes k' k) (keys_of slots)) as [Hinv _].
  destruct (ref_search _ _) as [i|i].
  - destruct Hinv as (k' & Hk' & Heq). rewrite list_lookup_fmap in Hk'.
    destruct (slots !! i) as [s|] eqn:Hi; [|done]. injection Hk' as <-.
    destruct (update_slot_spec b slots i s lsn d Hb Hi Hlsn) as (b2 & -> & Hso & Hp2 & Hb2).
    exists b2. split_and!; [done..|by rewrite Hp2|]. apply lex_cmp_eq in Heq. simpl in *. by rewrite <-Heq.
  - destruct Hinv as [Hi _]. rewrite length_fmap in Hi.
    destruct (insert_slot_spec b slots i k lsn d Hb Hi Hk Hlsn) as (b2 & Hins & Hso & Hp2 & Hb2).
    rewrite Hd in Hins. rewrite Hins. exists b2. split_and!; [done..|by rewrite Hp2|done].
Qed.

Lemma bin_rep_with_state b slots d f l p : bin_rep b slots → bin_rep (with_state b d f l p) slots.
Proof. by intros []. Qed.

(** Replacing the bytes of a key that compares equal. *)
Lemma replace_key_spec b slots i s k :
  bin_rep b slots → slots !! i = Some s → key_prefix b `prefix_of` k →
  ∃ ks, KeyRep_set (bin_keys b) i (drop (length (key_prefix b)) k) = Some ks ∧
    bin_rep (with_keys b ks) (<[i := (k, slot_lsn s, slot_entry s)]> slots).
Proof.
  intros [Hp Hks He Hl Hm] Hs Hk.
  destruct (KeyRep_set_spec _ _ i (drop (length (key_prefix b)) k) Hks) as (ks & -> & Hks');
    [rewrite length_fmap; by eapply lookup_lt_Some|].
  exists ks. split; [done|]. split; simpl; try done.
  - by apply Forall_insert.
  - by rewrite list_fmap_insert.
  - rewrite He, list_fmap_insert, list_insert_id; [done|]. by rewrite list_lookup_fmap, Hs.
  - rewrite list_fmap_insert, list_insert_id; [done|]. by rewrite list_lookup_fmap, Hs.
Qed.

Lemma insert_cmp_spec `{KeyOrder cmp} b slots k lsn d :
  bin_rep b slots → key_sorted cmp (keys_of slots) → in_u 64 lsn →
  ∃ b', insert_cmp b k lsn d cmp = Some (b', (abs_insert cmp slots k lsn d).2) ∧
    log_frame b b' ∧ bin_rep b' (abs_insert cmp slots k lsn d).1.
Proof.
  intros Hb Hs Hlsn. unfold insert_cmp, abs_insert.
  destruct (shrink_prefix_spec b slots k Hb) as (b1 & -> & Hrk & Hb1 & Hk). cbn [mbind option_bind].
  apply rekeyed_frame in Hrk.
  rewrite (search_cmp_spec b1 slots k Hb1 Hs). cbn [mbind option_bind].
  destruct (ref_search_inv (λ k', cmp k' k) (keys_of slots)) as [Hinv _].
  destruct (ref_search _ _) as [i|i].
  - destruct Hinv as (k' & Hk' & Heq). rewrite list_lookup_fmap in Hk'.
    destruct (slots !! i) as [s|] eqn:Hi; [|done]. injection Hk' as <-.
    rewrite (get_full_key_spec _ _ _ Hb1), Hi. cbn [fmap option_fmap option_map].
    case_bool_decide as Hsame.
    + injection Hsame as Hsame. cbn [mbind option_bind].
      destruct (update_slot_spec b1 slots i s lsn d Hb1 Hi Hlsn) as (b2 & -> & Hso & _ & Hb2).
      exists b2. split_and!; [done|by eauto using log_frame_trans with noxu|]. by rewrite Hsame in Hb2.
    + rewrite compress_key_spec by done. cbn [mbind option_bind].
      destruct (replace_key_spec b1 slots i s k Hb1 Hi Hk) as (ks & -> & Hb2). cbn [mbind option_bind].
      apply (bin_rep_with_state _ _ (bin_dirty (with_keys b1 ks)) (bin_last_full_lsn (with_keys b1 ks))
               (last_delta_lsn (with_keys b1 ks)) true) in Hb2.
      destruct (update_slot_spec _ _ i (k, slot_lsn s, slot_entry s) lsn d Hb2)
        as (b3 & -> & Hso & _ & Hb3);
        [apply list_lookup_insert_eq; by eapply lookup_lt_Some|done|].
      exists b3. split_and!; [done| |].
      { eapply log_frame_trans; [exact Hrk|]. apply slots_only_frame in Hso.
        eapply log_frame_trans; [|exact Hso]. by split. }
      by rewrite list_insert_insert_eq in Hb3.
  - destruct Hinv as [Hi _]. rewrite length_fmap in Hi. rewrite compress_key_spec by done.
    cbn [mbind option_bind].
    destruct (insert_new_spec b1 slots i k lsn d Hb1 Hi Hk Hlsn) as (b2 & -> & Hso & Hb2).
    exists b2. split_and!; [done|by eauto using log_frame_trans with noxu|done].
Qed.

Lemma remove_slot_spec b slots i :
  bin_rep b slots → (i < length slots)%nat →
  ∃ b', remove_slot b i = Some b' ∧ bin_rep b' (delete i slots) ∧
    must_relog b' ∧ log_frame b b' ∧ key_prefix b' = key_prefix b.
Proof.
  intros Hb Hi. pose proof Hb as [Hp Hks He Hl Hm].
  destruct (lookup_lt_is_Some_2 slots i Hi) as [s Hs]. unfold remove_slot, vec_remove.
  rewrite He, list_lookup_fmap, Hs. cbn [fmap option_fmap option_map mbind option_bind].
  destruct (KeyRep_remove_spec _ _ i (drop (length (key_prefix b)) (slot_key s)) Hks)
    as (ks & -> & Hks'); [by rewrite list_lookup_fmap, Hs|]. cbn [mbind option_bind].
  destruct (LsnRep_remove_shift_spec _ _ i Hl) as (ls & -> & Hls); [by rewrite length_fmap|].
  eexists; split; [done|]. split_and!; [|done..]. apply bin_rep_with_state.
  split; simpl; rewrite ?list_fmap_delete; try done. by apply Forall_delete.
Qed.

Lemma delete_cmp_spec `{KeyOrder cmp} b slots k :
  bin_rep b slots → key_sorted cmp (keys_of slots) →
  ∃ b', delete_cmp b k cmp = Some (b', (abs_delete cmp slots k).2) ∧
    log_frame b b' ∧ (must_relog b' ∨ (abs_delete cmp slots k).1 = slots) ∧
    key_prefix b' = key_prefix b ∧ bin_rep b' (abs_delete cmp slots k).1.
Proof.
  intros Hb Hs. unfold delete_cmp, abs_delete. rewrite (search_cmp_spec b slots k Hb Hs).
  cbn [mbind option_bind]. destruct (ref_search_inv (λ k', cmp k' k) (keys_of slots)) as [Hinv _].
  destruct (ref_search _ _) as [i|i]; [|exists b; split_and!; by auto with noxu].
  destruct Hinv as (k' & Hk' & _). rewrite list_lookup_fmap in Hk'.
  destruct (slots !! i) as [s|] eqn:Hi; [|done].
  rewrite (br_entries _ _ Hb), list_lookup_fmap, Hi. cbn [fmap option_fmap option_map mbind option_bind].
  destruct (remove_slot_spec b slots i Hb) as (b' & -> & Hb' & Hno & Hd' & Hp'); [by eapply lookup_lt_Some|].
  exists b'. split_and!; try done. by left.
Qed.

Lemma delete_in_bin_bytes b slots k :
  bin_rep b slots → key_sorted compare_unsigned_bytes (keys_of slots) →
  ∃ b', delete_in_bin None b k = Some (b', (abs_delete compare_unsigned_bytes slots k).2) ∧
    log_frame b b' ∧
    (must_relog b' ∨ (abs_delete compare_unsigned_bytes slots k).1 = slots) ∧
    key_prefix b' = key_prefix b ∧ bin_rep b' (abs_delete compare_unsigned_bytes slots k).1.
Proof.
  intros Hb Hs. unfold delete_in_bin, abs_delete.
  destruct (ref_search_inv (λ k', compare_unsigned_bytes k' k) (keys_of slots)) as [Hinv _].
  destruct (decide (key_prefix b `prefix_of` k)) as [Hk|Hk].
  - rewrite (bool_decide_true (_ `prefix_of` _)), andb_false_r, compress_key_spec by done.
    cbn [mbind option_bind]. rewrite (key_binary_search_spec b slots k Hb Hs Hk). cbn [mbind option_bind].
    destruct (ref_search _ _) as [i|i]; [|exists b; split_and!; by auto with noxu].
    destruct Hinv as (k' & Hk' & _). rewrite list_lookup_fmap in Hk'.
    destruct (slots !! i) as [s|] eqn:Hi; [|done].
    rewrite (br_entries _ _ Hb), list_lookup_fmap, Hi. cbn [fmap option_fmap option_map mbind option_bind].
    destruct (remove_slot_spec b slots i Hb) as (b' & -> & Hb' & Hno & Hd' & Hp'); [by eapply lookup_lt_Some|].
    exists b'. split_and!; try done. by left.
  - assert (key_prefix b ≠ []) as Hne by (intros E; rewrite E in Hk; by destruct Hk; apply prefix_nil).
    rewrite !bool_decide_false by done. cbn [negb andb]. exists b.
    destruct (ref_search _ _) as [i|i]; [|split_and!; by auto with noxu].
    destruct Hinv as (k' & Hk' & Heq). rewrite list_lookup_fmap in Hk'.
    destruct (slots !! i) as [s|] eqn:Hi; [|done]. injection Hk' as <-.
    apply lex_cmp_eq in Heq. destruct Hk. simpl in Heq. rewrite <-Heq.
    by apply (Forall_lookup_1 _ _ _ _ (br_prefix _ _ Hb) Hi).
Qed.

(** Rewriting the entry and the LSN of a slot. *)
Lemma rewrite_slot_spec b slots i s lsn e :
  bin_rep b slots → slots !! i = Some s → in_u 64 lsn →
  ∃ ls, bin_set_lsn b i lsn = Some (with_slots b (key_prefix b) (bin_entries b) (bin_keys b) ls) ∧
    bin_rep (with_slots b (key_prefix b) (<[i := e]> (bin_entries b)) (bin_keys b) ls)
            (<[i := (slot_key s, lsn, e)]> slots).
Proof.
  intros Hb Hs Hlsn. destruct (bin_set_lsn_spec b slots i s lsn Hb Hs Hlsn) as (ls & -> & Hls).
  exists ls. split; [done|]. pose proof Hb as [Hp Hks He Hl Hm]. split; simpl.
  - apply Forall_insert; [done|]. simpl. by apply (Forall_lookup_1 _ _ _ _ Hp Hs).
  - rewrite list_fmap_insert, list_insert_id; [done|]. by rewrite list_lookup_fmap, Hs.
  - by rewrite He, list_fmap_insert.
  - rewrite list_fmap_insert in *. done.
  - done.
Qed.

Lemma bin_lookup b slots i s :
  bin_rep b slots → slots !! i = Some s →
  bin_entries b !! i = Some (slot_entry s) ∧ bin_get_lsn b i = Some (slot_lsn s).
Proof.
  intros Hb Hs. split.
  - by rewrite (br_entries _ _ Hb), list_lookup_fmap, Hs.
  - unfold bin_get_lsn. by rewrite (LsnRep_get_spec _ _ _ (br_lsns _ _ Hb)), list_lookup_fmap, Hs.
Qed.

(** The slots that a drain leaves. *)
Definition drain_keeps (is_locked : option (Z → bool)) (s : slot) : bool :=
  negb (is_deleted (slot_entry s)) ||
  match is_locked with
  | Some is_locked => negb (is_null (slot_lsn s)) && is_locked (slot_lsn s)
  | None => false
  end.

Lemma drain_loop_spec is_locked slots0 j : ∀ b rest,
  bin_rep b (take j slots0 ++ rest) → (j ≤ length slots0)%nat →
  ∃ b', drain_loop is_locked b j = Some b' ∧ log_frame b b' ∧
    (must_relog b' ∨ filter (drain_keeps is_locked) (take j slots0) = take j slots0) ∧
    key_prefix b' = key_prefix b ∧
    bin_rep b' (filter (drain_keeps is_locked) (take j slots0) ++ rest).
Proof.
  induction j as [|j IH]; intros b rest Hb Hj;
    [exists b; split_and!; by auto with noxu|].
  destruct (lookup_lt_is_Some_2 slots0 j Hj) as [s Hs]. rewrite (take_S_r _ _ s Hs) in *.
  rewrite <-app_assoc in Hb. simpl in Hb.
  assert ((take j slots0 ++ s :: rest) !! j = Some s) as Hl.
  { rewrite lookup_app_r by (rewrite length_take; lia). by rewrite length_take_le, Nat.sub_diag by lia. }
  assert (drain_loop is_locked b (S j) =
          if drain_keeps is_locked s then drain_loop is_locked b j
          else b ← remove_slot b j; drain_loop is_locked b j) as ->.
  { destruct (bin_lookup _ _ _ _ Hb Hl) as [He Hlsn]. cbn [drain_loop]. rewrite He, Hlsn.
    unfold drain_keeps. cbn [mbind option_bind]. destruct (is_deleted _); [|done]. simpl.
    by destruct (match is_locked with Some _ => _ | None => false end). }
  rewrite filter_app, filter_cons, filter_nil. destruct (drain_keeps is_locked s).
  - rewrite decide_True by done. rewrite <-app_assoc.
    destruct (IH b (s :: rest) Hb ltac:(lia)) as (b' & ? & ? & Hno & ? & ?). exists b'.
    split_and!; try done. destruct Hno as [|Hno]; [by left|right]. by rewrite Hno.
  - rewrite decide_False by (by intros ?). rewrite app_nil_r.
    destruct (remove_slot_spec b _ j Hb) as (b1 & -> & Hb1 & Hno & Hf1 & Hp1); [by eapply lookup_lt_Some|].
    assert (delete j (take j slots0 ++ s :: rest) = take j slots0 ++ rest) as Hdel.
    { rewrite delete_take_drop, take_app_length' by (rewrite length_take; lia).
      rewrite drop_app_ge by (rewrite length_take; lia). rewrite length_take_le by lia.
      by replace (S j - j)%nat with 1%nat by lia. }
    rewrite Hdel in Hb1. cbn [mbind option_bind]. rewrite <-Hp1.
    destruct (IH b1 rest Hb1 ltac:(lia)) as (b' & ? & Hf' & _ & ? & ?). exists b'.
    split_and!; try done; [by eapply log_frame_trans|]. left. by eapply must_relog_frame.
Qed.

Lemma drain_spec prefixing is_locked b slots :
  bin_rep b slots → is_delta b = false →
  ∃ b', drain_known_deleted_for_split prefixing is_locked b =
          Some (b', (length (filter (drain_keeps is_locked) slots) <? length slots)%nat) ∧
    log_frame b b' ∧
    (must_relog b' ∨ filter (drain_keeps is_locked) slots = slots) ∧
    (prefixing = false → key_prefix b' = []) ∧ bin_rep b' (filter (drain_keeps is_locked) slots).
Proof.
  intros Hb Hd. unfold drain_known_deleted_for_split. rewrite Hd, (bin_entries_len _ _ Hb).
  destruct (drain_loop_spec is_locked slots (length slots) b []) as (b1 & -> & Hf1 & Hno & _ & Hb1);
    [by rewrite app_nil_r, take_ge|done|]. rewrite app_nil_r, take_ge in Hb1 by done.
  rewrite take_ge in Hno by done. cbn [mbind option_bind].
  assert (∃ b2, (if prefixing then recompute_key_prefix b1
                 else if bool_decide (key_prefix b1 = []) then Some b1 else apply_new_prefix b1 []) = Some b2 ∧
    rekeyed b1 b2 ∧ (prefixing = false → key_prefix b2 = []) ∧
    bin_rep b2 (filter (drain_keeps is_locked) slots)) as (b2 & -> & Hrk & Hp2 & Hb2).
  { destruct prefixing; [|case_bool_decide].
    - destruct (recompute_key_prefix_spec b1 _ Hb1) as (b2 & ? & ? & ?). by exists b2.
    - exists b1. by auto using rekeyed_refl.
    - destruct (apply_new_prefix_spec b1 _ [] Hb1) as (b2 & ? & ? & ? & ?);
        [apply Forall_true; intros; apply prefix_nil|]. by exists b2. }
  exists b2. cbn [mbind option_bind]. rewrite (bin_entries_len _ _ Hb2).
  apply rekeyed_frame in Hrk. split_and!; [done|by eapply log_frame_trans| |done..].
  destruct Hno as [Hno|Hno]; [left|by right]. by eapply must_relog_frame.
Qed.

(** ** Dispatch on the comparator of the database *)

Definition order_of (key_comparator : option (key → key → comparison)) : key → key → comparison :=
  default compare_unsigned_bytes key_comparator.

Lemma find_in_bin_spec kc b slots k :
  KeyOrder (order_of kc) → bin_rep b slots → key_sorted (order_of kc) (keys_of slots) →
  find_in_bin kc b k = Some (found (ref_search (λ k', order_of kc k' k) (keys_of slots))).
Proof.
  intros HK Hb Hs. destruct kc as [cmp|]; simpl in *.
  - unfold find_entry_cmp. by rewrite (search_cmp_spec b slots k Hb Hs).
  - by apply find_entry_compressed_spec.
Qed.

(** A full BIN of a database: neither prefixing nor a comparator means no prefix. *)
Definition mode_ok (kc : option (key → key → comparison)) (prefixing : bool) (b : BinStub) : Prop :=
  is_delta b = false ∧ (prefixing = false → kc = None → key_prefix b = []).

(** The dispatch of an insertion, with the slot it used. *)
Definition insert_any (kc : option (key → key → comparison)) (prefixing : bool)
    (b : BinStub) (k : key) (lsn : Z) (d : option (list Z)) : option (BinStub * (nat * bool)) :=
  match kc with
  | Some cmp => insert_cmp b k lsn d cmp
  | None => if prefixing then insert_with_prefix b k lsn d else insert_raw b k lsn d
  end.

Lemma insert_any_spec kc prefixing b slots k lsn d :
  KeyOrder (order_of kc) → bin_rep b slots → key_sorted (order_of kc) (keys_of slots) →
  mode_ok kc prefixing b → in_u 64 lsn →
  ∃ b', insert_any kc prefixing b k lsn d = Some (b', (abs_insert (order_of kc) slots k lsn d).2) ∧
    log_frame b b' ∧ mode_ok kc prefixing b' ∧ bin_rep b' (abs_insert (order_of kc) slots k lsn d).1.
Proof.
  intros HK Hb Hs [Hd Hm] Hlsn. unfold mode_ok.
  assert (∀ b', log_frame b b' → is_delta b' = false) as Hfd by (by intros b' [? -> _ _ _ _ _ _ _]).
  destruct kc as [cmp|]; cbn [insert_any].
  - change (order_of (Some cmp)) with cmp in *.
    destruct (insert_cmp_spec b slots k lsn d Hb Hs Hlsn) as (b' & -> & Hf & Hb').
    exists b'. split_and!; first [by auto | done].
  - change (order_of None) with compare_unsigned_bytes in *. destruct prefixing.
    + destruct (insert_with_prefix_spec b slots k lsn d Hb Hs Hlsn) as (b' & -> & Hso & Hb').
      apply slots_only_frame in Hso. exists b'. split_and!; first [by auto | done].
    + destruct (insert_raw_spec b slots k lsn d Hb (Hm eq_refl eq_refl) Hs Hlsn)
        as (b' & -> & Hso & Hp' & Hb').
      apply slots_only_frame in Hso. exists b'. split_and!; first [by auto | done].
Qed.

Lemma insert_in_bin_any kc prefixing b k lsn d :
  insert_in_bin kc prefixing b k lsn d =
  ('(b, (_, is_new)) ← insert_any kc prefixing b k lsn (Some d);
   Some (with_state b true (bin_last_full_lsn b) (last_delta_lsn b) (prohibit_next_delta b), is_new)).
Proof. done. Qed.

Lemma insert_in_bin_spec kc prefixing b slots k lsn d :
  KeyOrder (order_of kc) → bin_rep b slots → key_sorted (order_of kc) (keys_of slots) →
  mode_ok kc prefixing b → in_u 64 lsn →
  ∃ b', insert_in_bin kc prefixing b k lsn d =
          Some (b', (abs_insert (order_of kc) slots k lsn (Some d)).2.2) ∧
    log_frame b b' ∧ bin_dirty b' = true ∧ mode_ok kc prefixing b' ∧
    bin_rep b' (abs_insert (order_of kc) slots k lsn (Some d)).1.
Proof.
  intros HK Hb Hs Hm Hlsn. rewrite insert_in_bin_any.
  destruct (insert_any_spec kc prefixing b slots k lsn (Some d) HK Hb Hs Hm Hlsn)
    as (b' & -> & Hf & Hm' & Hb').
  destruct (abs_insert _ _ _ _ _) as [slots' [i new]]. cbn [mbind option_bind fst snd] in *.
  eexists; split; [done|]. split_and!; [|done|done|by apply bin_rep_with_state].
  eapply log_frame_trans; [exact Hf|by apply with_state_frame].
Qed.

Lemma delete_in_bin_spec kc prefixing b slots k :
  KeyOrder (order_of kc) → bin_rep b slots → key_sorted (order_of kc) (keys_of slots) →
  mode_ok kc prefixing b →
  ∃ b', delete_in_bin kc b k = Some (b', (abs_delete (order_of kc) slots k).2) ∧
    log_frame b b' ∧
    (must_relog b' ∨ (abs_delete (order_of kc) slots k).1 = slots) ∧
    mode_ok kc prefixing b' ∧ bin_rep b' (abs_delete (order_of kc) slots k).1.
Proof.
  intros HK Hb Hs [Hd Hm]. unfold mode_ok. destruct kc as [cmp|].
  - change (order_of (Some cmp)) with cmp in *. cbn [delete_in_bin].
    destruct (delete_cmp_spec b slots k Hb Hs) as (b' & -> & Hf & Hno & Hp' & Hb'). exists b'.
    rewrite (lf_delta _ _ Hf), Hp'. by split_and!.
  - change (order_of None) with compare_unsigned_bytes in *.
    destruct (delete_in_bin_bytes b slots k Hb Hs) as (b' & -> & Hf & Hno & Hp' & Hb'). exists b'.
    rewrite (lf_delta _ _ Hf), Hp'. by split_and!.
Qed.

Definition marked_entry (pending : bool) (e : BinEntry) : BinEntry :=
  {| data := None; known_deleted := negb pending; pending_deleted := pending; e_dirty := true;
     expiration_time := expiration_time e |}.

Definition abs_mark (cmp : key → key → comparison) (slots : list slot) (k : key) (lsn : Z)
    (pending : bool) : list slot * bool :=
  match ref_search (λ k', cmp k' k) (keys_of slots) with
  | Ok i =>
      match slots !! i with
      | Some s =>
          if is_deleted (slot_entry s) then (slots, false)
          else (<[i := (slot_key s, lsn, marked_entry pending (slot_entry s))]> slots, true)
      | None => (slots, false)
      end
  | Err _ => (slots, false)
  end.

Lemma mark_deleted_spec kc prefixing b slots k lsn pending :
  KeyOrder (order_of kc) → bin_rep b slots → key_sorted (order_of kc) (keys_of slots) →
  mode_ok kc prefixing b → in_u 64 lsn →
  ∃ b', mark_deleted_in_bin kc b k lsn pending =
          Some (b', (abs_mark (order_of kc) slots k lsn pending).2) ∧
    log_frame b b' ∧ (bin_dirty b' = true ∨ (abs_mark (order_of kc) slots k lsn pending).1 = slots) ∧
    mode_ok kc prefixing b' ∧ bin_rep b' (abs_mark (order_of kc) slots k lsn pending).1.
Proof.
  intros HK Hb Hs Hm Hlsn. unfold mark_deleted_in_bin, abs_mark.
  rewrite (find_in_bin_spec kc b slots k HK Hb Hs). cbn [mbind option_bind].
  destruct (ref_search_inv (λ k', order_of kc k' k) (keys_of slots)) as [Hinv _].
  destruct (ref_search _ _) as [i|i]; cbn [found negb]; [|exists b; by auto with noxu].
  destruct Hinv as (k' & Hk' & _). rewrite list_lookup_fmap in Hk'.
  destruct (slots !! i) as [s|] eqn:Hi; [|done].
  rewrite (proj1 (bin_lookup _ _ _ _ Hb Hi)). cbn [mbind option_bind].
  destruct (is_deleted (slot_entry s)); [exists b; by auto with noxu|].
  destruct (rewrite_slot_spec b slots i s lsn (marked_entry pending (slot_entry s)) Hb Hi Hlsn)
    as (ls & -> & Hb'). cbn [mbind option_bind].
  eexists; split; [done|]. split_and!; [by split|by left|apply Hm..|by apply bin_rep_with_state].
Qed.
