(* ===== verification/BinMap.v ===== *)
(** * A BIN as a map of records

    The reference for the BIN component: the slots of a BIN are a list sorted
    by the order of the database, on which insertion, deletion, marking and
    draining are shown to change exactly the records of the keys they name.
    The properties at the end are about the operations of [Bin] themselves. *)

From stdpp Require Import sorting.
From S2P Require Import Prelude Bytes Packed Lsn Keys LsnRep Bin.

(** ** The sorted list of records *)

Section records.
Context `{KeyOrder cmp}.

Lemma sorted_lookup_inj slots i j s t :
  key_sorted cmp (keys_of slots) → slots !! i = Some s → slots !! j = Some t →
  cmp (slot_key s) (slot_key t) = Eq → i = j.
Proof.
  intros Hs Hi Hj Heq.
  destruct (Nat.lt_trichotomy i j) as [Hlt|[->|Hlt]]; [|done|].
  - pose proof (StronglySorted_lookup _ _ i j (slot_key s) (slot_key t) Hs Hlt) as Hst.
    rewrite !list_lookup_fmap, Hi, Hj in Hst. specialize (Hst eq_refl eq_refl). simpl in *. congruence.
  - pose proof (StronglySorted_lookup _ _ j i (slot_key t) (slot_key s) Hs Hlt) as Hst.
    rewrite !list_lookup_fmap, Hi, Hj in Hst. specialize (Hst eq_refl eq_refl). simpl in *.
    apply cmp_eq_sym in Heq. simpl in *. congruence.
Qed.

(** What the list stores under a key. *)
Definition abs_find (slots : list slot) (k : key) : option slot :=
  match ref_search (λ k', cmp k' k) (keys_of slots) with
  | Ok i => slots !! i
  | Err _ => None
  end.

Lemma abs_find_iff slots k s :
  key_sorted cmp (keys_of slots) →
  (abs_find slots k = Some s ↔ s ∈ slots ∧ cmp (slot_key s) k = Eq).
Proof.
  intros Hs. unfold abs_find. split.
  - destruct (ref_search_inv (λ k', cmp k' k) (keys_of slots)) as [Hinv _].
    destruct (ref_search _ _) as [i|i]; [|done]. destruct Hinv as (k' & Hk' & Heq).
    intros Hi. rewrite list_lookup_fmap, Hi in Hk'. injection Hk' as <-.
    split; [by eapply list_elem_of_lookup_2|done].
  - intros [(i & Hi)%list_elem_of_lookup Heq].
    by rewrite (ref_search_ok _ _ i (slot_key s) (sorted_partitioned k _ Hs)
                 ltac:(by rewrite list_lookup_fmap, Hi) Heq).
Qed.

Lemma sorted_app_iff (l1 l2 : list key) :
  key_sorted cmp (l1 ++ l2) ↔
  key_sorted cmp l1 ∧ key_sorted cmp l2 ∧ ∀ a b, a ∈ l1 → b ∈ l2 → cmp a b = Lt.
Proof.
  induction l1 as [|x l1 IH]; simpl.
  { split; [intros; split_and!; [constructor|done|by intros ? ? ?%elem_of_nil]|by intros (_ & ? & _)]. }
  split.
  - intros [Hs Hx]%StronglySorted_inv. apply IH in Hs as (H1 & H2 & H12).
    apply Forall_app in Hx as [Hx1 Hx2]. split_and!; [by constructor|done|].
    intros a b [->|Ha]%elem_of_cons Hb; [by apply (proj1 (Forall_forall _ _) Hx2)|by apply H12].
  - intros ([H1 Hx]%StronglySorted_inv & H2 & H12). constructor.
    + apply IH. split_and!; [done..|]. intros a b Ha. apply H12. by right.
    + apply Forall_app. split; [done|]. apply Forall_forall. intros b Hb. apply H12; [left|done].
Qed.

Lemma take_drop_keys (slots : list slot) i :
  keys_of slots = keys_of (take i slots) ++ keys_of (drop i slots).
Proof. by rewrite <-fmap_app, take_drop. Qed.

(** The records around the place where a key is missing. *)
Lemma ref_search_err_split slots k i :
  key_sorted cmp (keys_of slots) →
  ref_search (λ k', cmp k' k) (keys_of slots) = Err i →
  (∀ s, s ∈ take i slots → cmp (slot_key s) k = Lt) ∧
  (∀ s, s ∈ drop i slots → cmp (slot_key s) k = Gt).
Proof.
  intros Hs E. destruct (ref_search_inv (λ k', cmp k' k) (keys_of slots)) as [Hinv Hlt].
  rewrite E in Hinv. destruct Hinv as [Hi Hgt]. split.
  - intros s (j & Hj)%list_elem_of_lookup. pose proof (lookup_lt_Some _ _ _ Hj) as Hjlt.
    rewrite length_take in Hjlt. rewrite lookup_take_lt in Hj by lia.
    eapply (Hlt i j); [by right|lia|]. by rewrite list_lookup_fmap, Hj.
  - intros s (j & Hj)%list_elem_of_lookup. rewrite lookup_drop in Hj.
    destruct (decide (j = 0%nat)) as [->|Hne].
    { apply Hgt. rewrite Nat.add_0_r in Hj. by rewrite list_lookup_fmap, Hj. }
    destruct (lookup_lt_is_Some_2 slots i) as [t Ht]; [apply lookup_lt_Some in Hj; lia|].
    assert (cmp (slot_key t) k = Gt) as Ht' by (apply Hgt; by rewrite list_lookup_fmap, Ht).
    assert (cmp (slot_key t) (slot_key s) = Lt) as Hts.
    { apply (StronglySorted_lookup _ _ i (i + j)%nat _ _ Hs ltac:(lia)); by rewrite list_lookup_fmap, ?Ht, ?Hj. }
    apply cmp_gt_lt in Ht'. apply cmp_gt_lt. by eapply cmp_lt_trans.
Qed.

(** Replacing a record by one whose key compares equal. *)
Lemma sorted_replace slots i t x :
  key_sorted cmp (keys_of slots) → slots !! i = Some t → cmp (slot_key t) (slot_key x) = Eq →
  key_sorted cmp (keys_of (<[i := x]> slots)) ∧
  ∀ s, s ∈ <[i := x]> slots ↔ (s ∈ slots ∧ cmp (slot_key s) (slot_key x) ≠ Eq) ∨ s = x.
Proof.
  intros Hs Hi Heq. pose proof (lookup_lt_Some _ _ _ Hi) as Hlt. split.
  - rewrite insert_take_drop by done. rewrite (take_drop_keys slots i), (drop_S slots t i Hi) in Hs.
    rewrite fmap_app, fmap_cons in *.
    apply sorted_app_iff in Hs as (H1 & [H2 Ht]%StronglySorted_inv & H12).
    apply sorted_app_iff. split_and!; [done| |].
    + constructor; [done|]. eapply Forall_impl; [exact Ht|]. intros b Hb. simpl in *.
      by rewrite <-(cmp_eq_l _ _ b Heq).
    + intros a b Ha [->|Hb]%elem_of_cons; [|apply H12; [done|by right]].
      rewrite <-(cmp_eq_r _ _ a Heq). apply H12; [done|left].
  - intros s. rewrite list_elem_of_lookup. split.
    + intros (j & Hj). destruct (decide (j = i)) as [->|Hne].
      { rewrite list_lookup_insert_eq in Hj by done. injection Hj as <-. by right. }
      rewrite list_lookup_insert_ne in Hj by done. left. split; [by eapply list_elem_of_lookup_2|].
      intros Hse. destruct Hne. eapply (sorted_lookup_inj slots j i s t Hs Hj Hi).
      by rewrite (cmp_eq_r _ _ (slot_key s) Heq).
    + intros [[(j & Hj)%list_elem_of_lookup Hne]| ->].
      * exists j. rewrite list_lookup_insert_ne; [done|]. intros ->. congruence.
      * exists i. by apply list_lookup_insert_eq.
Qed.

Lemma abs_insert_spec slots k lsn d :
  key_sorted cmp (keys_of slots) →
  key_sorted cmp (keys_of (abs_insert cmp slots k lsn d).1) ∧
  ∀ s, s ∈ (abs_insert cmp slots k lsn d).1 ↔
       (s ∈ slots ∧ cmp (slot_key s) k ≠ Eq) ∨
       s = (k, lsn, match abs_find slots k with
                    | Some t => reused_entry (slot_entry t) d
                    | None => new_entry d
                    end).
Proof.
  intros Hs. unfold abs_insert, abs_find.
  destruct (ref_search (λ k', cmp k' k) (keys_of slots)) as [i|i] eqn:E.
  - destruct (ref_search_inv (λ k', cmp k' k) (keys_of slots)) as [Hinv _]. rewrite E in Hinv.
    destruct Hinv as (k' & Hk' & Heq). rewrite list_lookup_fmap in Hk'.
    destruct (slots !! i) as [t|] eqn:Hi; [|done]. injection Hk' as <-.
    apply (sorted_replace slots i t (k, lsn, reused_entry (slot_entry t) d) Hs Hi Heq).
  - simpl. destruct (ref_search_err_split slots k i Hs E) as [Hlt Hgt].
    rewrite (take_drop_keys slots i) in Hs. apply sorted_app_iff in Hs as (H1 & H2 & H12). split.
    + rewrite fmap_app, fmap_cons. apply sorted_app_iff. split_and!; [done| |].
      * constructor; [done|]. apply Forall_fmap, Forall_forall. intros s Hin. simpl.
        by apply cmp_gt_lt, Hgt.
      * intros a b (s & -> & Hin)%list_elem_of_fmap [->|Hb]%elem_of_cons; [by apply Hlt|].
        apply H12; [apply list_elem_of_fmap; by exists s|done].
    + intros s. rewrite elem_of_app, elem_of_cons.
      assert (s ∈ slots ↔ s ∈ take i slots ∨ s ∈ drop i slots) as Hin
        by (by rewrite <-elem_of_app, take_drop).
      split; [|rewrite Hin; naive_solver]. rewrite Hin.
      intros [Ht|[->|Hd]]; [left|by right|left]; (split; [naive_solver|]).
      * by rewrite (Hlt s Ht). * by rewrite (Hgt s Hd).
Qed.

Lemma abs_delete_spec slots k :
  key_sorted cmp (keys_of slots) →
  key_sorted cmp (keys_of (abs_delete cmp slots k).1) ∧
  ∀ s, s ∈ (abs_delete cmp slots k).1 ↔ s ∈ slots ∧ cmp (slot_key s) k ≠ Eq.
Proof.
  intros Hs. unfold abs_delete.
  destruct (ref_search (λ k', cmp k' k) (keys_of slots)) as [i|i] eqn:E; simpl.
  - destruct (ref_search_inv (λ k', cmp k' k) (keys_of slots)) as [Hinv _]. rewrite E in Hinv.
    destruct Hinv as (k' & Hk' & Heq). rewrite list_lookup_fmap in Hk'.
    destruct (slots !! i) as [t|] eqn:Hi; [|done]. injection Hk' as <-. split.
    + rewrite (take_drop_keys slots i), (drop_S slots t i Hi), fmap_cons in Hs.
      rewrite delete_take_drop, fmap_app.
      apply sorted_app_iff in Hs as (H1 & [H2 _]%StronglySorted_inv & H12).
      apply sorted_app_iff. split_and!; [done..|]. intros a b Ha Hb. apply H12; [done|by right].
    + intros s. split.
      * intros (j & Hj)%list_elem_of_lookup.
        assert (∃ j', j' ≠ i ∧ slots !! j' = Some s) as (j' & Hne & Hj').
        { destruct (decide (j < i)%nat); [exists j|exists (S j)]; (split; [lia|]).
          - by rewrite list_lookup_delete_lt in Hj by lia.
          - by rewrite list_lookup_delete_ge in Hj by lia. }
        split; [by eapply list_elem_of_lookup_2|]. intros Hse. destruct Hne.
        eapply (sorted_lookup_inj slots j' i s t Hs Hj' Hi). by rewrite (cmp_eq_r _ _ (slot_key s) Heq).
      * intros [(j & Hj)%list_elem_of_lookup Hne]. rewrite delete_take_drop, elem_of_app.
        destruct (decide (j = i)) as [->|]; [congruence|].
        destruct (decide (j < i)%nat).
        -- left. eapply (list_elem_of_lookup_2 _ j). by rewrite lookup_take_lt.
        -- right. eapply (list_elem_of_lookup_2 _ (j - S i)). rewrite lookup_drop.
           by replace (S i + (j - S i))%nat with j by lia.
  - split; [done|]. intros s. split; [|by intros [? _]]. intros Hin. split; [done|]. intros Heq.
    destruct (ref_search_err_split slots k i Hs E) as [Hlt Hgt].
    rewrite <-(take_drop i slots), elem_of_app in Hin.
    destruct Hin as [Hin|Hin]; [rewrite (Hlt s Hin) in Heq|rewrite (Hgt s Hin) in Heq]; done.
Qed.

(** ** What each operation does to the record of a key *)

Lemma abs_find_cmp_eq slots k k' :
  key_sorted cmp (keys_of slots) → cmp k k' = Eq → abs_find slots k' = abs_find slots k.
Proof. intros Hs E. apply option_eq. intros s. rewrite !abs_find_iff by done. by rewrite (cmp_eq_r _ _ (s.1.1) E). Qed.

Lemma abs_find_insert slots k lsn d k' :
  key_sorted cmp (keys_of slots) →
  abs_find (abs_insert cmp slots k lsn d).1 k' =
  match cmp k k' with
  | Eq => Some (k, lsn, match abs_find slots k with
                        | Some t => reused_entry (slot_entry t) d
                        | None => new_entry d
                        end)
  | _ => abs_find slots k'
  end.
Proof.
  intros Hs. destruct (abs_insert_spec slots k lsn d Hs) as [Hs' Hin].
  assert (cmp k k' ≠ Eq → abs_find (abs_insert cmp slots k lsn d).1 k' = abs_find slots k') as Hother.
  { intros Hne. apply option_eq. intros s. rewrite !abs_find_iff, Hin by done. split.
    - intros [[[Hsl _]| ->] Hse]; [done|]. by destruct Hne.
    - intros [Hsl Hse]. split; [left|done]. split; [done|]. intros Hsk. destruct Hne.
      by rewrite <-(cmp_eq_l _ _ k' Hsk). }
  destruct (cmp k k') eqn:E; [|by apply Hother..].
  apply abs_find_iff; [done|]. rewrite Hin. split; [by right|done].
Qed.

Lemma abs_find_delete slots k k' :
  key_sorted cmp (keys_of slots) →
  abs_find (abs_delete cmp slots k).1 k' =
  match cmp k k' with Eq => None | _ => abs_find slots k' end.
Proof.
  intros Hs. destruct (abs_delete_spec slots k Hs) as [Hs' Hin].
  assert (∀ s, abs_find (abs_delete cmp slots k).1 k' = Some s ↔
               abs_find slots k' = Some s ∧ cmp k k' ≠ Eq) as Hfind.
  { intros s. rewrite !abs_find_iff, Hin by done.
    assert (cmp (slot_key s) k' = Eq → (cmp (slot_key s) k ≠ Eq ↔ cmp k k' ≠ Eq)) as Heq.
    { intros Hse. rewrite <-(cmp_eq_r _ _ k Hse). split; intros Hne Hc; apply Hne; by apply cmp_eq_sym. }
    naive_solver. }
  apply option_eq. intros s. rewrite Hfind. destruct (cmp k k'); naive_solver.
Qed.

Lemma abs_find_unchanged slots k s :
  key_sorted cmp (keys_of slots) → abs_find slots k = Some s →
  ∃ i, ref_search (λ k', cmp k' k) (keys_of slots) = Ok i ∧ slots !! i = Some s ∧ cmp (slot_key s) k = Eq.
Proof.
  intros Hs Hf. pose proof (proj1 (abs_find_iff _ _ _ Hs) Hf) as [_ Heq].
  unfold abs_find in Hf. destruct (ref_search _ _) as [i|]; [|done]. by exists i.
Qed.

(** A slot replaced by one with its key. *)
Lemma abs_find_replace slots k i s x k' :
  key_sorted cmp (keys_of slots) → slots !! i = Some s → cmp (slot_key s) k = Eq →
  slot_key x = slot_key s →
  key_sorted cmp (keys_of (<[i := x]> slots)) ∧
  abs_find (<[i := x]> slots) k' = match cmp k k' with Eq => Some x | _ => abs_find slots k' end.
Proof.
  intros Hs Hi Heq Hx.
  destruct (sorted_replace slots i s x Hs Hi) as [Hs' Hin]; [rewrite Hx; apply cmp_refl|].
  split; [done|]. apply option_eq. intros u. rewrite abs_find_iff, Hin, Hx by done.
  rewrite (cmp_eq_r _ _ (slot_key u) Heq). destruct (cmp k k') eqn:E.
  - rewrite <-(cmp_eq_r _ _ (slot_key u) E). split; [intros [[[_ Hn]| ->] He]; [done|done]|].
    intros [= <-]. split; [by right|]. by rewrite Hx.
  - rewrite abs_find_iff by done. split.
    + intros [[[Hu _]| ->] He]; [done|]. rewrite Hx, (cmp_eq_l _ _ k' Heq) in He. congruence.
    + intros [Hu He]. split; [left|done]. split; [done|]. intros Hk. rewrite (cmp_eq_l _ _ k' Hk) in He. congruence.
  - rewrite abs_find_iff by done. split.
    + intros [[[Hu _]| ->] He]; [done|]. rewrite Hx, (cmp_eq_l _ _ k' Heq) in He. congruence.
    + intros [Hu He]. split; [left|done]. split; [done|]. intros Hk. rewrite (cmp_eq_l _ _ k' Hk) in He. congruence.
Qed.

Lemma abs_mark_spec slots k lsn pending k' :
  key_sorted cmp (keys_of slots) →
  key_sorted cmp (keys_of (abs_mark cmp slots k lsn pending).1) ∧
  abs_find (abs_mark cmp slots k lsn pending).1 k' =
  match cmp k k', abs_find slots k with
  | Eq, Some s => Some (if is_deleted (slot_entry s) then s
                        else (slot_key s, lsn, marked_entry pending (slot_entry s)))
  | _, _ => abs_find slots k'
  end.
Proof.
  intros Hs. destruct (abs_find slots k) as [s|] eqn:Ef.
  2:{ unfold abs_mark. unfold abs_find in Ef. destruct (ref_search _ _) as [i|];
      [rewrite Ef|]; split; try done; by destruct (cmp k k'). }
  destruct (abs_find_unchanged slots k s Hs Ef) as (i & Er & Hi & Heq).
  unfold abs_mark. rewrite Er, Hi. destruct (is_deleted (slot_entry s)); cbn [fst].
  - split; [done|]. destruct (cmp k k') eqn:E; [|done..]. by rewrite (abs_find_cmp_eq slots k k' Hs E).
  - by apply (abs_find_replace slots k i s).
Qed.

Lemma sorted_filter (P : slot → bool) slots :
  key_sorted cmp (keys_of slots) → key_sorted cmp (keys_of (filter P slots)).
Proof.
  induction slots as [|s slots IH]; [done|]. rewrite fmap_cons. intros [Hs Hx]%StronglySorted_inv.
  rewrite filter_cons. case_decide; [|by apply IH]. rewrite fmap_cons. constructor; [by apply IH|].
  apply Forall_fmap, Forall_forall. intros t [_ Ht]%list_elem_of_filter.
  apply (proj1 (Forall_forall _ _) Hx). apply list_elem_of_fmap. by exists t.
Qed.

Lemma abs_find_filter (P : slot → bool) slots k :
  key_sorted cmp (keys_of slots) →
  abs_find (filter P slots) k =
  match abs_find slots k with Some s => if P s then Some s else None | None => None end.
Proof.
  intros Hs. pose proof (sorted_filter P slots Hs) as Hs'. apply option_eq. intros t.
  rewrite abs_find_iff, list_elem_of_filter by done. split.
  - intros [[HP Ht] Hte]. rewrite (proj2 (abs_find_iff slots k t Hs)) by done.
    by destruct (P t).
  - destruct (abs_find slots k) as [s|] eqn:Ef; [|done]. destruct (P s) eqn:EP; [|done].
    intros [= <-]. apply abs_find_iff in Ef as [? ?]; [|done]. split; [split; [|done]|done].
    by rewrite EP.
Qed.
End records.

(** ** Sequences of operations *)

Inductive bin_op :=
| BPut (k : key) (lsn : Z) (d : list Z)
| BDel (k : key)
| BMark (k : key) (lsn : Z) (pending : bool)
| BDrain (is_locked : option (Z → bool)).

Definition bin_step (kc : option (key → key → comparison)) (prefixing : bool)
    (b : BinStub) (op : bin_op) : option (BinStub * bool) :=
  match op with
  | BPut k lsn d => insert_in_bin kc prefixing b k lsn d
  | BDel k => delete_in_bin kc b k
  | BMark k lsn pending => mark_deleted_in_bin kc b k lsn pending
  | BDrain is_locked =>
      '(b, _) ← drain_known_deleted_for_split prefixing is_locked b; Some (b, true)
  end.

(** The record of a key: its LSN, its data, and whether it is known or
    pending deleted. *)
Definition record : Type := Z * option (list Z) * bool * bool.

Definition slot_record (s : slot) : record :=
  (slot_lsn s, data (slot_entry s), known_deleted (slot_entry s), pending_deleted (slot_entry s)).

Definition live (r : option record) : bool :=
  match r with Some (_, _, kd, pd) => negb (kd || pd) | None => false end.

(** What an operation does to the record of [k], given the record it finds. *)
Definition record_step (cmp : key → key → comparison) (op : bin_op) (k : key) (r : option record)
    : option record :=
  match op with
  | BPut k' lsn d => match cmp k' k with Eq => Some (lsn, Some d, false, false) | _ => r end
  | BDel k' => match cmp k' k with Eq => None | _ => r end
  | BMark k' lsn pending =>
      match cmp k' k with
      | Eq => if live r then Some (lsn, None, negb pending, pending) else r
      | _ => r
      end
  | BDrain is_locked =>
      match r with
      | Some (lsn, _, kd, pd) =>
          if (kd || pd) && negb match is_locked with
                                | Some is_locked => negb (is_null lsn) && is_locked lsn
                                | None => false
                                end
          then None else r
      | None => None
      end
  end.

(** A map of records: the abstract BIN.  LSNs are 64-bit integers. *)
Definition map_step (cmp : key → key → comparison) (m : key → option record) (op : bin_op)
    : option ((key → option record) * bool) :=
  let m' := λ k, record_step cmp op k (m k) in
  let ok lsn := (0 <=? lsn) && (lsn <? 2 ^ 64) in
  match op with
  | BPut k lsn _ => if ok lsn then Some (m', negb (live (m k))) else None
  | BDel k => Some (m', live (m k))
  | BMark k lsn _ => if ok lsn then Some (m', live (m k)) else None
  | BDrain _ => Some (m', true)
  end.

(** A lookup in a BIN. *)
Definition read_record (kc : option (key → key → comparison)) (b : BinStub) (k : key)
    : option (option record) :=
  '(idx, exact) ← find_in_bin kc b k;
  if exact : bool then
    e ← bin_entries b !! idx;
    lsn ← bin_get_lsn b idx;
    Some (Some (lsn, data e, known_deleted e, pending_deleted e))
  else Some None.

Section refinement.
Context (kc : option (key → key → comparison)) (prefixing : bool) `{!KeyOrder (order_of kc)}.

(** The BIN [b] stores the map [m]. *)
Definition bin_map (b : BinStub) (m : key → option record) : Prop :=
  mode_ok kc prefixing b ∧
  ∃ slots, bin_rep b slots ∧ key_sorted (order_of kc) (keys_of slots) ∧
    ∀ k, m k = slot_record <$> abs_find (cmp := order_of kc) slots k.

Lemma read_record_spec b m k : bin_map b m → read_record kc b k = Some (m k).
Proof.
  intros (_ & slots & Hb & Hs & Hm). unfold read_record.
  rewrite (find_in_bin_spec kc b slots k _ Hb Hs), Hm. cbn [mbind option_bind]. unfold abs_find.
  destruct (ref_search_inv (λ k', order_of kc k' k) (keys_of slots)) as [Hinv _].
  destruct (ref_search _ _) as [i|i]; [|done]. destruct Hinv as (k' & Hk' & _).
  rewrite list_lookup_fmap in Hk'. destruct (slots !! i) as [s|] eqn:Hi; [|done]. simpl.
  destruct (bin_lookup _ _ _ _ Hb Hi) as [-> Hlsn]. cbn [mbind option_bind]. by rewrite Hlsn.
Qed.

(** The outputs of the list operations, read off the record of the key. *)
Lemma abs_outputs slots k lsn d pending :
  key_sorted (order_of kc) (keys_of slots) →
  let r := slot_record <$> abs_find (cmp := order_of kc) slots k in
  (abs_insert (order_of kc) slots k lsn d).2.2 = negb (live r) ∧
  (abs_delete (order_of kc) slots k).2 = live r ∧
  (abs_mark (order_of kc) slots k lsn pending).2 = live r.
Proof.
  intros Hs. unfold abs_insert, abs_delete, abs_mark, abs_find.
  destruct (ref_search_inv (λ k', order_of kc k' k) (keys_of slots)) as [Hinv _].
  destruct (ref_search _ _) as [i|i]; [|done]. destruct Hinv as (k' & Hk' & _).
  rewrite list_lookup_fmap in Hk'. destruct (slots !! i) as [s|] eqn:Hi; [|done]. simpl.
  unfold is_deleted. destruct (known_deleted _), (pending_deleted _); done.
Qed.

(** The same step on the list of slots. *)
Definition slots_step (slots : list slot) (op : bin_op) : list slot :=
  match op with
  | BPut k lsn d => (abs_insert (order_of kc) slots k lsn (Some d)).1
  | BDel k => (abs_delete (order_of kc) slots k).1
  | BMark k lsn pending => (abs_mark (order_of kc) slots k lsn pending).1
  | BDrain is_locked => filter (drain_keeps is_locked) slots
  end.

Definition removes (op : bin_op) : bool :=
  match op with BDel _ | BDrain _ => true | BPut _ _ _ | BMark _ _ _ => false end.

Lemma slots_step_spec slots op :
  key_sorted (order_of kc) (keys_of slots) →
  key_sorted (order_of kc) (keys_of (slots_step slots op)) ∧
  ∀ k, slot_record <$> abs_find (cmp := order_of kc) (slots_step slots op) k =
       record_step (order_of kc) op k (slot_record <$> abs_find (cmp := order_of kc) slots k).
Proof.
  intros Hs. destruct op as [k lsn d|k|k lsn pending|is_locked]; cbn [slots_step record_step].
  - split; [by apply abs_insert_spec|]. intros k'. rewrite abs_find_insert by done.
    destruct (order_of kc k k'); [|done..]. by destruct (abs_find (cmp := order_of kc) slots k).
  - split; [by apply abs_delete_spec|]. intros k'. rewrite abs_find_delete by done.
    by destruct (order_of kc k k').
  - split; [by apply (abs_mark_spec slots k lsn pending k)|]. intros k'.
    rewrite (proj2 (abs_mark_spec slots k lsn pending k' Hs)).
    destruct (order_of kc k k') eqn:E; [|done..]. rewrite (abs_find_cmp_eq slots k k' Hs E).
    destruct (abs_find (cmp := order_of kc) slots k) as [s|]; [|done]. simpl. unfold is_deleted.
    by destruct (known_deleted _), (pending_deleted _).
  - split; [by apply sorted_filter|]. intros k. rewrite abs_find_filter by done.
    destruct (abs_find (cmp := order_of kc) slots k) as [s|]; [|done]. simpl.
    unfold drain_keeps, is_deleted. destruct (known_deleted _ || pending_deleted _); simpl; [|done].
    by destruct (match is_locked with Some _ => _ | None => false end).
Qed.

(** A step on a BIN is the step on its slots; what it changes has to be logged
    again, and in full when it removes a slot. *)
Lemma bin_step_slots b slots m op m' out :
  mode_ok kc prefixing b → bin_rep b slots → key_sorted (order_of kc) (keys_of slots) →
  (∀ k, m k = slot_record <$> abs_find (cmp := order_of kc) slots k) →
  map_step (order_of kc) m op = Some (m', out) →
  ∃ b', bin_step kc prefixing b op = Some (b', out) ∧ log_frame b b' ∧
    (bin_dirty b' = true ∨ slots_step slots op = slots) ∧
    (removes op = true → must_relog b' ∨ slots_step slots op = slots) ∧
    mode_ok kc prefixing b' ∧ bin_rep b' (slots_step slots op).
Proof.
  intros Hmode Hb Hs Hm Hop.
  assert (∀ b' slots', must_relog b' ∨ slots' = slots → bin_dirty b' = true ∨ slots' = slots) as Hrel
    by (intros ? ? [[_ ?]|?]; auto).
  destruct op as [k lsn d|k|k lsn pending|is_locked]; simpl in Hop; cbn [bin_step slots_step removes].
  - destruct ((0 <=? lsn) && (lsn <? 2 ^ 64)) eqn:Hlsn; [|done]. injection Hop as <- <-. reflect_bools.
    destruct (insert_in_bin_spec kc prefixing b slots k lsn d _ Hb Hs Hmode)
      as (b' & -> & Hf & Hd & Hmode' & Hb'); [done|].
    destruct (abs_outputs slots k lsn (Some d) false Hs) as (-> & _). rewrite Hm. exists b'.
    split_and!; by auto.
  - injection Hop as <- <-. destruct (abs_outputs slots k 0 None false Hs) as (_ & Hout & _).
    destruct (delete_in_bin_spec kc prefixing b slots k _ Hb Hs Hmode)
      as (b' & -> & Hf & Hr & Hmode' & Hb'). rewrite Hout, Hm. exists b'. split_and!; by auto.
  - destruct ((0 <=? lsn) && (lsn <? 2 ^ 64)) eqn:Hlsn; [|done]. injection Hop as <- <-. reflect_bools.
    destruct (mark_deleted_spec kc prefixing b slots k lsn pending _ Hb Hs Hmode)
      as (b' & -> & Hf & Hd & Hmode' & Hb'); [done|].
    destruct (abs_outputs slots k lsn None pending Hs) as (_ & _ & ->). rewrite Hm. exists b'.
    split_and!; by auto.
  - injection Hop as <- <-. destruct Hmode as [Hdelta _].
    destruct (drain_spec prefixing is_locked b slots Hb Hdelta) as (b' & -> & Hf & Hr & Hp' & Hb').
    exists b'. split_and!; [done|done|by auto|done| |done].
    split; [by rewrite (lf_delta _ _ Hf)|]. intros. by apply Hp'.
Qed.

Lemma bin_step_spec b m op m' out :
  bin_map b m → map_step (order_of kc) m op = Some (m', out) →
  ∃ b', bin_step kc prefixing b op = Some (b', out) ∧ bin_map b' m'.
Proof.
  intros (Hmode & slots & Hb & Hs & Hm) Hop.
  destruct (bin_step_slots b slots m op m' out Hmode Hb Hs Hm Hop) as (b' & Hstep & _ & _ & _ & Hmode' & Hb').
  destruct (slots_step_spec slots op Hs) as [Hs' Hr]. exists b'. split; [done|]. split; [done|].
  eexists; split_and!; [done..|]. intros k. rewrite Hr, <-Hm.
  unfold map_step in Hop. destruct op; try destruct (_ && _); by simplify_eq.
Qed.
End refinement.

(** A BIN without slots. *)
Definition new_bin (id max_len embed : Z) (prefixing : bool) : BinStub :=
  {| bin_node_id := id; bin_level := 0x10001; bin_entries := []; key_prefix := [];
     bin_dirty := false; is_delta := false; bin_last_full_lsn := NULL_LSN;
     last_delta_lsn := NULL_LSN; bin_generation := 0; expiration_in_hours := true;
     cursor_count := 0; prohibit_next_delta := false; bin_lsns := LEmpty; bin_keys := KeyRep_new;
     compact_max_key_length := max_len; expiration_enabled := true; max_embedded_ln := embed;
     key_prefixing := prefixing |}.

Lemma new_bin_map kc prefixing id max_len embed :
  max_len < 2 ^ 16 → bin_map kc prefixing (new_bin id max_len embed prefixing) (λ _, None).
Proof.
  intros Hm. split; [done|]. exists []. split_and!; [|constructor|done].
  split; simpl; [constructor|constructor|done|apply (rep_empty 0)|done].
Qed.

(** * Properties *)

(** C31: searching a BIN.  On the slots of a BIN sorted by the order of the
    database, the binary searches (by bytes over the stored suffixes, with or
    without a shared prefix, and by a comparator over rebuilt keys) terminate,
    never leave the key array, and return what a scan of the full keys from
    the left returns: the slot of a key that compares equal, or the place
    where the key belongs. *)
Theorem bin_search_is_scan (kc : option (key → key → comparison)) (b : BinStub)
  (slots : list slot) (k : key) (HK : KeyOrder (order_of kc))
  (Hb : bin_rep b slots) (Hs : key_sorted (order_of kc) (keys_of slots)) :
  find_in_bin kc b k = Some (found (ref_search (λ k', order_of kc k' k) (keys_of slots))).
Proof. by apply find_in_bin_spec. Qed.

(** Two records under the prefix [1; 2]. *)
Definition demo_bin : BinStub :=
  with_slots (new_bin 7 16 16 true) [1; 2]
    [new_entry (Some [9]); new_entry None]
    (KDefault [[3]; [4; 5]]) (LLong [Lsn_new 1 10; Lsn_new 1 20]).
Definition demo_slots : list slot :=
  [([1; 2; 3], Lsn_new 1 10, new_entry (Some [9])); ([1; 2; 4; 5], Lsn_new 1 20, new_entry None)].

Lemma bin_search_is_scan_witness :
  find_in_bin None demo_bin [1; 2; 4; 5] = Some (1%nat, true) ∧
  find_in_bin None demo_bin [1; 2; 4] = Some (1%nat, false) ∧
  find_in_bin None demo_bin [2] = Some (2%nat, false).
Proof.
  assert (bin_rep demo_bin demo_slots) as Hb.
  { split; [repeat constructor; by eexists|constructor|done|constructor|done]. }
  assert (key_sorted (order_of None) (keys_of demo_slots)) as Hs by repeat constructor.
  split_and!; rewrite (bin_search_is_scan None demo_bin demo_slots _ bytes_order Hb Hs);
    vm_compute; reflexivity.
Defined.

(** C32: a BIN is a map of records.  Starting from an empty BIN, over any
    sequence of insertions, deletions, delete marks (pending or known) and
    drains of deleted slots (that spare the locked ones), under any key order
    and with or without prefix compression, no operation panics, each returns
    what the map of records returns, and afterwards a lookup of any key finds
    exactly the record of the map: last write wins, keys that compare equal
    share one record. *)
Theorem bin_refines_record_map (kc : option (key → key → comparison)) (prefixing : bool)
  (id max_len embed : Z) (ops : list bin_op) (m : key → option record) (outs : list bool)
  (HK : KeyOrder (order_of kc)) (Hmax : max_len < 2 ^ 16)
  (Hrun : run_steps (map_step (order_of kc)) (λ _, None) ops = Some (m, outs)) :
  ∃ b, run_steps (bin_step kc prefixing) (new_bin id max_len embed prefixing) ops = Some (b, outs) ∧
    ∀ k, read_record kc b k = Some (m k).
Proof.
  destruct (run_steps_refine (bin_map kc prefixing) (bin_step kc prefixing) (map_step (order_of kc))
              (bin_step_spec kc prefixing) ops (new_bin id max_len embed prefixing) (λ _, None) m outs)
    as (b & Hr & Hb); [by apply new_bin_map|done|].
  exists b. split; [done|]. intros k. by apply (read_record_spec kc prefixing).
Qed.

(** The prefix [1; 1] appears, shrinks and grows again. *)
Definition demo_bin_ops : list bin_op :=
  [BPut [1; 1; 5] (Lsn_new 1 10) [50]; BPut [1; 1; 3] (Lsn_new 1 20) [30];
   BPut [1; 2] (Lsn_new 1 30) [20]; BMark [1; 2] (Lsn_new 1 40) true;
   BPut [1; 1; 5] (Lsn_new 1 50) [51]; BMark [1; 1; 3] (Lsn_new 1 60) false;
   BDrain (Some (λ lsn, lsn =? Lsn_new 1 40)); BDel [7]].

Lemma bin_refines_record_map_witness :
  ∃ b, run_steps (bin_step None true) (new_bin 7 16 16 true) demo_bin_ops =
         Some (b, [true; true; true; true; false; true; true; false]) ∧
    read_record None b [1; 1; 5] = Some (Some (Lsn_new 1 50, Some [51], false, false)) ∧
    read_record None b [1; 1; 3] = Some None ∧
    read_record None b [1; 2] = Some (Some (Lsn_new 1 40, None, false, true)).
Proof.
  destruct (bin_refines_record_map None true 7 16 16 demo_bin_ops
    (λ k, foldl (λ r op, record_step (order_of None) op k r) None demo_bin_ops)
    [true; true; true; true; false; true; true; false]) as (b & Hr & Hb);
    [exact bytes_order|done|reflexivity|].
  exists b. split; [exact Hr|]. rewrite !Hb. split_and!; reflexivity.
Defined.
