(* ===== verification/NodeImage.v ===== *)
(** * The log images of nodes (noxu-tree, noxu-log)

    [serialize_full] and [serialize_delta] write a BIN, [write_to_bytes] an
    upper IN; [deserialize_full], [parse_delta_entries] and
    [deserialize_upper_in] read them back.  Readers return a [may]: the
    outer [None] is a panic, the inner one a rejected input.  A reader of [n]
    slots has the number of bytes as fuel; a slot takes at least one. *)

From S2P Require Import Prelude Bytes Reader Packed Lsn LogEntry Keys LsnRep TargetRep InNode Bin.

(** ** The code: BINs *)

Definition MAIN_LEVEL : Z := 0x10000.
Definition BIN_LEVEL : Z := Z.lor MAIN_LEVEL 1.
Definition INKeyRep_DEFAULT_MAX_KEY_LENGTH : Z := 16.
Definition TREE_MAX_EMBEDDED_LN_DEFAULT : Z := 16.

Definition data_image (max_embedded : Z) (d : option (list Z)) : list Z :=
  match d with
  | Some d =>
      if Z.of_nat (length d) <=? max_embedded
      then 1 :: be_bytes 4 (as_u 32 (Z.of_nat (length d))) ++ d
      else [0]
  | None => [0]
  end.

(** The body of the loops of [serialize_full] and [serialize_delta]. *)
Definition slot_image (b : BinStub) (idx : nat) : option (list Z) :=
  let full_key := default [] (get_full_key b idx) in
  lsn ← bin_get_lsn b idx;
  e ← bin_entries b !! idx;
  Some (be_bytes 4 (as_u 32 (Z.of_nat (length full_key))) ++ full_key ++ be_bytes 8 lsn ++
        data_image (max_embedded_ln b) (data e) ++ [deleted_state_byte e]).

Definition serialize_full (b : BinStub) : option (list Z) :=
  imgs ← mapM (slot_image b) (seq 0 (length (bin_entries b)));
  Some (be_bytes 8 (bin_node_id b) ++
        be_bytes 4 (as_u 32 (Z.of_nat (length (bin_entries b)))) ++ concat imgs).

Definition serialize_delta (b : BinStub) : option (list Z) :=
  let dirty := filter (λ idx, e_dirty <$> bin_entries b !! idx = Some true)
                      (seq 0 (length (bin_entries b))) in
  imgs ← mapM (λ idx, img ← slot_image b idx; Some (be_bytes 4 (as_u 32 (Z.of_nat idx)) ++ img))
              dirty;
  Some (be_bytes 8 (bin_node_id b) ++
        be_bytes 4 (as_u 32 (Z.of_nat (length dirty))) ++ concat imgs).

(** A slot as it is read: full key, LSN, data, known and pending deleted. *)
Definition image : Type := key * Z * option (list Z) * (bool * bool).

Definition parse_slot (r : list Z) : option (image * list Z) :=
  '(key_len, r) ← read_exact 4 r;
  '(k, r) ← read_len (be_val key_len) r;
  '(lsn, r) ← read_exact 8 r;
  '(has_data, r) ← read_exact 1 r;
  '(d, r) ← (if bool_decide (has_data = [0]) then Some (None, r)
             else '(data_len, r) ← read_exact 4 r;
                  '(d, r) ← read_len (be_val data_len) r;
                  Some (Some d, r));
  '(state, r) ← read_exact 1 r;
  Some ((k, be_val lsn, d, decode_deleted_state_byte (be_val state)), r).

Definition image_key (i : image) : key := i.1.1.1.
Definition image_lsn (i : image) : Z := i.1.1.2.
Definition image_entry (i : image) : BinEntry :=
  let '(_, _, d, (kd, pd)) := i in
  {| data := d; known_deleted := kd; pending_deleted := pd; e_dirty := false; expiration_time := 0 |}.
Definition image_slot (i : image) : slot := (image_key i, image_lsn i, image_entry i).

Definition deserialize_full (bytes : list Z) : may BinStub :=
  if (length bytes <? 12)%nat then rejected
  else
    let node_id := be_val (take 8 bytes) in
    let num_entries := be_val (take 4 (drop 8 bytes)) in
    match parse_slots parse_slot (length bytes) num_entries (drop 12 bytes) with
    | None => rejected
    | Some (imgs, _) =>
        lsns ← from_lsns (image_lsn <$> imgs);
        let bin :=
          {| bin_node_id := node_id; bin_level := BIN_LEVEL; bin_entries := image_entry <$> imgs;
             key_prefix := []; bin_dirty := false; is_delta := false;
             bin_last_full_lsn := NULL_LSN; last_delta_lsn := NULL_LSN; bin_generation := 0;
             expiration_in_hours := true; cursor_count := 0; prohibit_next_delta := false;
             bin_lsns := lsns; bin_keys := from_keys (image_key <$> imgs);
             compact_max_key_length := INKeyRep_DEFAULT_MAX_KEY_LENGTH;
             expiration_enabled := true; max_embedded_ln := TREE_MAX_EMBEDDED_LN_DEFAULT;
             key_prefixing := false |} in
        bin ← (if (2 <=? length (bin_entries bin))%nat then recompute_key_prefix bin
               else ks ← KeyRep_compact (bin_keys bin) (compact_max_key_length bin);
                    Some (with_keys bin ks));
        Some (Some bin)
    end.

Definition deserialize_bin (bytes : list Z) : may BinStub :=
  let? bin := deserialize_full bytes in
  Some (Some (with_state bin false (bin_last_full_lsn bin) (last_delta_lsn bin)
                (prohibit_next_delta bin))).

(** The slot index that precedes an image in a delta is skipped. *)
Definition parse_delta_slot (r : list Z) : option (image * list Z) :=
  '(_, r) ← read_exact 4 r; parse_slot r.

Definition parse_delta_entries (delta_bytes : list Z) : option (list image) :=
  if (length delta_bytes <? 12)%nat then None
  else fst <$> parse_slots parse_delta_slot (length delta_bytes)
                 (be_val (take 4 (drop 8 delta_bytes))) (drop 12 delta_bytes).

(** ** The code: upper INs *)

Definition in_slot_image {Child} (nd : InNodeStub Child) (idx : nat) : option (list Z) :=
  k ← entries nd !! idx;
  lsn ← get_lsn nd idx;
  Some (be_bytes 2 (as_u 16 (Z.of_nat (length k))) ++ k ++ be_bytes 8 lsn).

(** [write_to_bytes] of a [TreeNode::Internal]. *)
Definition write_in_to_bytes {Child} (nd : InNodeStub Child) : option (list Z) :=
  imgs ← mapM (in_slot_image nd) (seq 0 (length (entries nd)));
  Some (be_bytes 8 (node_id nd) ++ be_bytes 4 (as_u 32 (level nd)) ++
        be_bytes 4 (as_u 32 (Z.of_nat (length (entries nd)))) ++
        [if in_dirty nd then 1 else 0] ++ concat imgs).

(** [write_to_bytes] of a [TreeNode::Bottom]: stored suffixes, no data. *)
Definition write_bin_to_bytes (b : BinStub) : option (list Z) :=
  imgs ← mapM (λ idx, k ← KeyRep_get (bin_keys b) idx;
                      lsn ← bin_get_lsn b idx;
                      Some (be_bytes 2 (as_u 16 (Z.of_nat (length k))) ++ k ++ be_bytes 8 lsn))
              (seq 0 (length (bin_entries b)));
  Some (be_bytes 8 (bin_node_id b) ++ be_bytes 4 (as_u 32 (bin_level b)) ++
        be_bytes 4 (as_u 32 (Z.of_nat (length (bin_entries b)))) ++
        [if bin_dirty b then 1 else 0] ++ concat imgs).

Definition parse_in_slot (r : list Z) : option ((key * Z) * list Z) :=
  '(key_len, r) ← read_exact 2 r;
  '(k, r) ← read_len (be_val key_len) r;
  '(lsn, r) ← read_exact 8 r;
  Some ((k, be_val lsn), r).

Definition deserialize_upper_in {Child} (bytes : list Z) : may (InNodeStub Child) :=
  if (length bytes <? 13)%nat then rejected
  else if (length bytes <? 16)%nat then None (* bytes[12..16] *)
  else
    let node_id := be_val (take 8 bytes) in
    let level := as_i 32 (be_val (take 4 (drop 8 bytes))) in
    let n_entries := be_val (take 4 (drop 12 bytes)) in
    if (length bytes <? 17)%nat then rejected
    else
      match parse_slots parse_in_slot (length bytes) n_entries (drop 17 bytes) with
      | None => rejected
      | Some (slots, _) =>
          lsns ← from_lsns (slots.*2);
          Some (Some {| node_id := node_id; level := level; entries := slots.*1; targets := TNone;
                        in_dirty := false; generation := 0; lsns := lsns;
                        last_full_lsn := NULL_LSN |})
      end.

(** * Theorems *)

(** ** Slots *)

Lemma decode_deleted_state e :
  decode_deleted_state_byte (deleted_state_byte e) = (known_deleted e, pending_deleted e).
Proof. by destruct e as [d [] [] dirty ex]. Qed.

Lemma deleted_state_is_byte e : 0 ≤ deleted_state_byte e < 256.
Proof. destruct e as [d [] [] dirty ex]; by vm_compute. Qed.

(** What a log image keeps of a slot: data longer than the bound is left in
    the record's own log entry. *)
Definition embedded_data (m : Z) (d : option (list Z)) : option (list Z) :=
  match d with
  | Some d => if Z.of_nat (length d) <=? m then Some d else None
  | None => None
  end.
Definition image_of (m : Z) (s : slot) : image :=
  (slot_key s, slot_lsn s, embedded_data m (data (slot_entry s)),
   (known_deleted (slot_entry s), pending_deleted (slot_entry s))).

(** The bytes of a slot. *)
Definition slot_bytes (m : Z) (s : slot) : list Z :=
  be_bytes 4 (as_u 32 (Z.of_nat (length (slot_key s)))) ++ slot_key s ++ be_bytes 8 (slot_lsn s) ++
  data_image m (data (slot_entry s)) ++ [deleted_state_byte (slot_entry s)].

(** A slot that fits the wire format. *)
Definition slot_fits (s : slot) : Prop :=
  Z.of_nat (length (slot_key s)) < 2 ^ 32 ∧ in_u 64 (slot_lsn s).

Lemma parse_slot_bytes m s r :
  m < 2 ^ 32 → slot_fits s → parse_slot (slot_bytes m s ++ r) = Some (image_of m s, r).
Proof.
  intros Hm [Hk Hl]. unfold parse_slot, slot_bytes, image_of. rewrite <-!app_assoc, read_be.
  cbn [mbind option_bind]. rewrite (read_len_app (slot_key s)) by (apply (be_val_as_u 32); [done|split; lia]).
  cbn [mbind option_bind]. rewrite read_be. cbn [mbind option_bind].
  rewrite (be_val_u 64 8 _ eq_refl Hl).
  set (d := data (slot_entry s)). set (st := deleted_state_byte (slot_entry s)).
  assert (∀ rest, ('(state, r) ← read_exact 1 ([st] ++ rest);
    Some ((slot_key s, slot_lsn s, embedded_data m d, decode_deleted_state_byte (be_val state)), r)) =
    Some ((slot_key s, slot_lsn s, embedded_data m d,
      (known_deleted (slot_entry s), pending_deleted (slot_entry s))), rest)) as Hend.
  { intros rest. rewrite (read_exact_app' 1) by done. cbn [mbind option_bind].
    replace (be_val [st]) with st by (unfold be_val; simpl; lia).
    unfold st. by rewrite decode_deleted_state. }
  unfold data_image, embedded_data in *. destruct d as [d|]; [destruct (_ <=? m) eqn:E; reflect_bools|].
  - rewrite <-app_comm_cons, <-app_assoc, read_byte. cbn [mbind option_bind].
    rewrite read_be. cbn [mbind option_bind].
    rewrite (read_len_app d) by (apply (be_val_as_u 32); [done|split; lia]).
    cbn [mbind option_bind]. apply Hend.
  - cbn [app]. rewrite read_byte. cbn [mbind option_bind]. apply Hend.
  - cbn [app]. rewrite read_byte. cbn [mbind option_bind]. apply Hend.
Qed.

(** ** Sequences of slots *)

Lemma slot_image_spec b slots i s :
  bin_rep b slots → slots !! i = Some s → slot_image b i = Some (slot_bytes (max_embedded_ln b) s).
Proof.
  intros Hb Hi. unfold slot_image. rewrite (get_full_key_spec b slots i Hb), Hi.
  destruct (bin_lookup b slots i s Hb Hi) as [-> ->]. done.
Qed.

(** The indices that a test selects, beside what they select. *)
Lemma filter_indices {A} (P : A → bool) (xs : list A) :
  Forall2 (λ i x, xs !! i = Some x)
    (filter (λ i, P <$> xs !! i = Some true) (seq 0 (length xs))) (filter P xs).
Proof.
  induction xs as [|x xs IH] using rev_ind; [constructor|].
  rewrite length_app, Nat.add_1_r, seq_S, !filter_app. apply Forall2_app.
  - replace (filter _ (seq 0 (length xs))) with
      (filter (λ i, P <$> xs !! i = Some true) (seq 0 (length xs))).
    + eapply Forall2_impl; [exact IH|]. intros i y Hy. by apply lookup_app_l_Some.
    + apply filter_ext_in. intros i [_ Hi]%elem_of_seq. by rewrite lookup_app_l.
  - rewrite !filter_cons, !filter_nil. cbn [Nat.add]. rewrite list_lookup_middle by done. cbn [fmap option_fmap].
    change (option_map P (Some x)) with (Some (P x)).
    destruct (P x) eqn:E; repeat case_decide; try done; repeat constructor. by apply list_lookup_middle.
Qed.

(** ** BINs *)

Definition image_header (id : Z) (n : nat) : list Z :=
  be_bytes 8 id ++ be_bytes 4 (as_u 32 (Z.of_nat n)).

Lemma serialize_full_spec b slots :
  bin_rep b slots →
  serialize_full b = Some (image_header (bin_node_id b) (length slots) ++
                           concat (slot_bytes (max_embedded_ln b) <$> slots)).
Proof.
  intros Hb. unfold serialize_full, image_header. rewrite (bin_entries_len b slots Hb).
  rewrite (mapM_indices _ (slot_bytes (max_embedded_ln b)) slots).
  - cbn [mbind option_bind]. by rewrite <-app_assoc.
  - intros i s. by apply slot_image_spec.
Qed.

Abbreviation dirty_slots := (filter (λ s : slot, Is_true (e_dirty (slot_entry s)))).

Lemma Forall_dirty (P : slot → Prop) slots : Forall P slots → Forall P (dirty_slots slots).
Proof. rewrite !Forall_forall. intros HP s [_ Hs]%list_elem_of_filter. by apply HP. Qed.

Lemma serialize_delta_spec b slots :
  bin_rep b slots →
  ∃ imgs, serialize_delta b = Some (image_header (bin_node_id b) (length (dirty_slots slots)) ++ concat imgs) ∧
    Forall2 (λ img s, ∃ i, img = be_bytes 4 i ++ slot_bytes (max_embedded_ln b) s) imgs (dirty_slots slots).
Proof.
  intros Hb. unfold serialize_delta. rewrite (bin_entries_len b slots Hb).
  pose proof (filter_indices (λ s : slot, e_dirty (slot_entry s)) slots) as Hi.
  replace (filter (λ i, (λ s : slot, e_dirty (slot_entry s)) <$> slots !! i = Some true) (seq 0 (length slots)))
    with (filter (λ i, e_dirty <$> bin_entries b !! i = Some true) (seq 0 (length slots))) in Hi.
  2:{ apply filter_ext_in. intros i _. rewrite (br_entries _ _ Hb), list_lookup_fmap.
      by destruct (slots !! i). }
  set (idxs := filter _ (seq 0 _)) in *.
  set (w := λ idx, img ← slot_image b idx; Some (be_bytes 4 (as_u 32 (Z.of_nat idx)) ++ img)).
  assert (∃ imgs, mapM w idxs = Some imgs ∧
    Forall2 (λ img s, ∃ i, img = be_bytes 4 i ++ slot_bytes (max_embedded_ln b) s) imgs (dirty_slots slots))
    as (imgs & -> & Himgs).
  { clear -Hi Hb. induction Hi as [|i s idxs ss His Hi IH]; [exists []; by split|].
    destruct IH as (imgs & HM & Himgs). cbn [mapM].
    assert (w i = Some (be_bytes 4 (as_u 32 (Z.of_nat i)) ++ slot_bytes (max_embedded_ln b) s)) as ->
      by (unfold w; by rewrite (slot_image_spec b slots i s Hb His)).
    cbn [mbind option_bind]. rewrite HM. eexists; split; [done|]. constructor; [by eexists|done]. }
  cbn [mbind option_bind]. exists imgs. split; [|done].
  unfold image_header. by rewrite (Forall2_length _ _ _ Hi), <-app_assoc.
Qed.

(** The node of a freshly read BIN, before its slots. *)
Definition loaded_bin (id : Z) : BinStub :=
  {| bin_node_id := id; bin_level := BIN_LEVEL; bin_entries := []; key_prefix := [];
     bin_dirty := false; is_delta := false; bin_last_full_lsn := NULL_LSN;
     last_delta_lsn := NULL_LSN; bin_generation := 0; expiration_in_hours := true;
     cursor_count := 0; prohibit_next_delta := false; bin_lsns := LEmpty; bin_keys := KeyRep_new;
     compact_max_key_length := INKeyRep_DEFAULT_MAX_KEY_LENGTH; expiration_enabled := true;
     max_embedded_ln := TREE_MAX_EMBEDDED_LN_DEFAULT; key_prefixing := false |}.

Lemma parse_image_header id n rest :
  in_u 64 id → Z.of_nat n < 2 ^ 32 →
  (length (image_header id n ++ rest) <? 12)%nat = false ∧
  be_val (take 8 (image_header id n ++ rest)) = id ∧
  be_val (take 4 (drop 8 (image_header id n ++ rest))) = Z.of_nat n ∧
  drop 12 (image_header id n ++ rest) = rest ∧
  length (image_header id n ++ rest) = (12 + length rest)%nat.
Proof.
  intros Hid Hn. unfold image_header.
  assert (length (be_bytes 8 id) = 8%nat) as H8 by apply length_be_bytes.
  assert (length (be_bytes 4 (as_u 32 (Z.of_nat n))) = 4%nat) as H4 by apply length_be_bytes.
  rewrite !length_app, H8, H4. rewrite <-app_assoc. split_and!.
  - apply Nat.ltb_ge. lia.
  - rewrite take_app_length' by done. by apply (be_val_u 64).
  - rewrite drop_app_length', take_app_length' by done. apply (be_val_as_u 32); [done|split; lia].
  - rewrite app_assoc, drop_app_length'; [done|by rewrite length_app, H8, H4].
  - lia.
Qed.

(** The bodies, read with the whole entry's length as fuel. *)
Lemma parse_full_body h m slots :
  m < 2 ^ 32 → Forall slot_fits slots →
  parse_slots parse_slot (length (h ++ concat (slot_bytes m <$> slots))) (Z.of_nat (length slots))
    (concat (slot_bytes m <$> slots)) = Some (image_of m <$> slots, []).
Proof.
  intros Hm Hf. rewrite <-(app_nil_r (concat _)) at 2. rewrite <-(length_fmap (image_of m) slots) at 1.
  apply parse_slots_concat.
  - apply Forall2_fmap_l, Forall2_fmap_r, Forall_Forall2_diag. eapply Forall_impl; [exact Hf|].
    intros s Hs r. by apply parse_slot_bytes.
  - rewrite length_fmap, length_app. transitivity (length (concat (slot_bytes m <$> slots))); [|lia].
    rewrite <-(length_fmap (slot_bytes m) slots) at 1. apply length_concat_ge, Forall_fmap, Forall_true.
    intros s. change (0 < length (slot_bytes m s))%nat. unfold slot_bytes.
    rewrite length_app, length_be_bytes. lia.
Qed.

Lemma parse_delta_body h m slots imgs :
  m < 2 ^ 32 → Forall slot_fits slots →
  Forall2 (λ img s, ∃ i, img = be_bytes 4 i ++ slot_bytes m s) imgs slots →
  parse_slots parse_delta_slot (length (h ++ concat imgs)) (Z.of_nat (length slots)) (concat imgs) =
  Some (image_of m <$> slots, []).
Proof.
  intros Hm Hf Hi. pose proof (Forall2_length _ _ _ Hi) as Hlen.
  rewrite <-(app_nil_r (concat imgs)) at 2. rewrite <-(length_fmap (image_of m) slots) at 1.
  apply parse_slots_concat.
  - apply Forall2_fmap_r. clear Hlen. induction Hi as [|img s imgs slots [i ->] Hi IH]; [constructor|].
    inversion Hf; subst. constructor; [|by apply IH]. intros r. unfold parse_delta_slot.
    rewrite <-app_assoc, read_be. cbn [mbind option_bind]. by apply parse_slot_bytes.
  - rewrite length_fmap, <-Hlen, length_app. transitivity (length (concat imgs)); [|lia].
    apply length_concat_ge, Forall_forall. intros img (j & Hj)%list_elem_of_lookup.
    destruct (Forall2_lookup_l _ _ _ _ _ Hi Hj) as (s & _ & i & ->).
    rewrite length_app, length_be_bytes. lia.
Qed.

Lemma deserialize_full_spec id m slots :
  in_u 64 id → m < 2 ^ 32 → Z.of_nat (length slots) < 2 ^ 32 → Forall slot_fits slots →
  let imgs := image_of m <$> slots in
  ∃ ks ls,
    let b := with_slots (loaded_bin id) [] (image_entry <$> imgs) ks ls in
    deserialize_full (image_header id (length slots) ++ concat (slot_bytes m <$> slots)) =
      Some (Some b) ∧ bin_rep b (image_slot <$> imgs).
Proof.
  intros Hid Hm Hn Hf imgs. unfold deserialize_full.
  destruct (parse_image_header id (length slots) (concat (slot_bytes m <$> slots)) Hid Hn)
    as (-> & -> & -> & -> & Hlen).
  rewrite parse_full_body by done. fold imgs.
  assert (Forall (in_u 64) (image_lsn <$> imgs)) as Hls.
  { unfold imgs. rewrite <-list_fmap_compose. apply Forall_fmap. eapply Forall_impl; [exact Hf|]. by intros s []. }
  destruct (from_lsns_spec _ Hls) as (ls & -> & Hrls). cbn [mbind option_bind].
  set (b0 := with_slots (loaded_bin id) [] (image_entry <$> imgs) (from_keys (image_key <$> imgs)) ls).
  change {| bin_node_id := _ |} with b0. cbn zeta.
  assert (bin_rep b0 (image_slot <$> imgs)) as Hb0.
  { split; simpl; [| | |by rewrite <-list_fmap_compose|done].
    - apply Forall_true. intros s. apply prefix_nil.
    - rewrite <-list_fmap_compose. constructor.
    - by rewrite <-list_fmap_compose. }
  destruct (2 <=? length (bin_entries b0))%nat.
  - destruct (apply_new_prefix_spec b0 _ [] Hb0) as (b1 & Hr & (p & ks & ->) & Hp & Hb1).
    { apply Forall_true. intros s. apply prefix_nil. }
    change (recompute_key_prefix b0) with (apply_new_prefix b0 []). rewrite Hr. cbn [mbind option_bind].
    simpl in Hp. subst p. by exists ks, ls.
  - destruct (KeyRep_compact_spec (bin_keys b0) _ (compact_max_key_length b0) (br_keys _ _ Hb0)
                (br_compact _ _ Hb0)) as (ks & -> & Hks). cbn [mbind option_bind].
    exists ks, ls. split; [done|]. destruct Hb0. by split.
Qed.

Lemma parse_delta_spec id m slots imgs :
  in_u 64 id → m < 2 ^ 32 → Z.of_nat (length slots) < 2 ^ 32 → Forall slot_fits slots →
  Forall2 (λ img s, ∃ i, img = be_bytes 4 i ++ slot_bytes m s) imgs slots →
  parse_delta_entries (image_header id (length slots) ++ concat imgs) = Some (image_of m <$> slots).
Proof.
  intros Hid Hm Hn Hf Hi. unfold parse_delta_entries.
  destruct (parse_image_header id (length slots) (concat imgs) Hid Hn) as (-> & _ & -> & -> & Hlen).
  rewrite (parse_delta_body _ m slots imgs) by done. done.
Qed.

(** ** Upper INs and log entries *)

Definition in_slot_bytes (k : key) (lsn : Z) : list Z :=
  be_bytes 2 (as_u 16 (Z.of_nat (length k))) ++ k ++ be_bytes 8 lsn.

Definition in_header (id lvl : Z) (n : nat) (dirty : bool) : list Z :=
  be_bytes 8 id ++ be_bytes 4 (as_u 32 lvl) ++ be_bytes 4 (as_u 32 (Z.of_nat n)) ++
  [if dirty then 1 else 0].

Lemma write_in_to_bytes_spec {Child} (nd : InNodeStub Child) slots :
  in_node nd slots →
  write_in_to_bytes nd =
  Some (in_header (node_id nd) (level nd) (length slots) (in_dirty nd) ++
        concat ((λ s, in_slot_bytes s.1.1 s.1.2) <$> slots)).
Proof.
  intros Hn. unfold write_in_to_bytes, in_header. rewrite (in_keys _ _ Hn), length_fmap.
  rewrite (mapM_indices _ (λ s, in_slot_bytes s.1.1 s.1.2) slots).
  - cbn [mbind option_bind]. by rewrite <-!app_assoc.
  - intros i s Hi. unfold in_slot_image, get_lsn.
    rewrite (in_keys _ _ Hn), (LsnRep_get_spec _ _ _ (in_lsns _ _ Hn)), !list_lookup_fmap, Hi. done.
Qed.

Lemma parse_in_slot_bytes k lsn r :
  Z.of_nat (length k) < 2 ^ 16 → in_u 64 lsn →
  parse_in_slot (in_slot_bytes k lsn ++ r) = Some ((k, lsn), r).
Proof.
  intros Hk Hl. unfold parse_in_slot, in_slot_bytes. rewrite <-!app_assoc, read_be.
  cbn [mbind option_bind]. rewrite (read_len_app k) by (apply (be_val_as_u 16); [done|split; lia]).
  cbn [mbind option_bind]. rewrite read_be. cbn [mbind option_bind]. by rewrite (be_val_u 64).
Qed.

Lemma parse_in_header id lvl n dirty rest :
  in_u 64 id → in_i 32 lvl → Z.of_nat n < 2 ^ 32 →
  let bytes := in_header id lvl n dirty ++ rest in
  be_val (take 8 bytes) = id ∧ as_i 32 (be_val (take 4 (drop 8 bytes))) = lvl ∧
  be_val (take 4 (drop 12 bytes)) = Z.of_nat n ∧ drop 17 bytes = rest ∧
  length bytes = (17 + length rest)%nat.
Proof.
  intros Hid Hlvl Hn bytes. unfold bytes, in_header. clear bytes.
  assert (length (be_bytes 8 id) = 8%nat) as H8 by apply length_be_bytes.
  assert (∀ x, length (be_bytes 4 x) = 4%nat) as H4 by (intros; apply length_be_bytes).
  rewrite !length_app, H8, !H4. rewrite <-!app_assoc. split_and!.
  - rewrite take_app_length' by done. by apply (be_val_u 64).
  - rewrite drop_app_length', take_app_length' by done.
    rewrite (be_val_u 32) by (try done; apply Z.mod_pos_bound; lia).
    rewrite as_i_as_u by lia. by apply as_i_id.
  - rewrite (app_assoc (be_bytes 8 id)), drop_app_length' by (by rewrite length_app, H8, H4).
    rewrite take_app_length' by done. apply (be_val_as_u 32); [done|split; lia].
  - rewrite !app_assoc, drop_app_length'; [done|]. by rewrite !length_app, H8, !H4.
  - simpl. lia.
Qed.

(** ** Truncated input *)

Lemma local_parse_slot : local parse_slot.
Proof.
  unfold parse_slot.
  apply (local_bind (read_exact 4)); [auto with noxu|]. intros key_len.
  apply (local_bind (read_len _)); [auto with noxu|]. intros k.
  apply (local_bind (read_exact 8)); [auto with noxu|]. intros lsn.
  apply (local_bind (read_exact 1)); [auto with noxu|]. intros has.
  apply (local_bind (λ r, if bool_decide (has = [0]) then Some (None, r) else
     '(data_len, r) ← read_exact 4 r; '(d, r) ← read_len (be_val data_len) r; Some (Some d, r))).
  { destruct (bool_decide (has = [0])); [apply local_ret|].
    apply (local_bind (read_exact 4)); [auto with noxu|]. intros len.
    apply (local_bind (read_len _)); [auto with noxu|]. intros d. apply local_ret. }
  intros d. apply (local_bind (read_exact 1)); [auto with noxu|]. intros st. apply local_ret.
Qed.

Lemma local_parse_delta_slot : local parse_delta_slot.
Proof. apply (local_bind (read_exact 4)); [auto with noxu|]. intros _. apply local_parse_slot. Qed.

Lemma local_parse_in_slot : local parse_in_slot.
Proof.
  apply (local_bind (read_exact 2)); [auto with noxu|]. intros len.
  apply (local_bind (read_len _)); [auto with noxu|]. intros k.
  apply (local_bind (read_exact 8)); [auto with noxu|]. intros lsn. apply local_ret.
Qed.

(** The slots behind a header: cut within them, they are not read. *)
Lemma image_truncated {A} (parse : list Z → option (A * list Z)) h body n xs k :
  local parse → parse [] = None →
  parse_slots parse (length (h ++ body)) n body = Some (xs, []) →
  (0 < length h ≤ k)%nat → (k < length (h ++ body))%nat →
  take k (h ++ body) = h ++ take (k - length h) body ∧
  parse_slots parse (length (take k (h ++ body))) n (take (k - length h) body) = None.
Proof.
  intros Hl He Hp Hh Hk. rewrite length_app in Hk, Hp. split.
  { rewrite take_app_ge by lia. done. }
  eapply parse_slots_truncated; [done..| | |]; rewrite ?length_take, ?length_app; lia.
Qed.

Lemma length_image_header id n : length (image_header id n) = 12%nat.
Proof. unfold image_header. by rewrite length_app, !length_be_bytes. Qed.

Lemma deserialize_full_truncated id slots m k :
  in_u 64 id → m < 2 ^ 32 → Z.of_nat (length slots) < 2 ^ 32 → Forall slot_fits slots →
  let bytes := image_header id (length slots) ++ concat (slot_bytes m <$> slots) in
  (k < length bytes)%nat → deserialize_full (take k bytes) = rejected.
Proof.
  intros Hid Hm Hn Hf bytes Hk. unfold deserialize_full.
  destruct (length (take k bytes) <? 12)%nat eqn:E; [done|]. reflect_bools. rewrite length_take in E.
  destruct (image_truncated parse_slot (image_header id (length slots)) (concat (slot_bytes m <$> slots))
              (Z.of_nat (length slots)) (image_of m <$> slots) k) as [Ht Hp];
    [apply local_parse_slot|done| |rewrite length_image_header; lia|done|].
  - by apply parse_full_body.
  - fold bytes in Ht, Hp. rewrite Ht in *. rewrite length_image_header in *.
    destruct (parse_image_header id (length slots) (take (k - 12) (concat (slot_bytes m <$> slots))) Hid Hn)
      as (_ & _ & Hnum & Hdrop & _). by rewrite Hnum, Hdrop, Hp.
Qed.

Lemma parse_delta_truncated id m slots imgs k :
  in_u 64 id → m < 2 ^ 32 → Z.of_nat (length slots) < 2 ^ 32 → Forall slot_fits slots →
  Forall2 (λ img s, ∃ i, img = be_bytes 4 i ++ slot_bytes m s) imgs slots →
  let bytes := image_header id (length slots) ++ concat imgs in
  (k < length bytes)%nat → parse_delta_entries (take k bytes) = None.
Proof.
  intros Hid Hm Hn Hf Hi bytes Hk. unfold parse_delta_entries.
  destruct (length (take k bytes) <? 12)%nat eqn:E; [done|]. reflect_bools. rewrite length_take in E.
  destruct (image_truncated parse_delta_slot (image_header id (length slots)) (concat imgs)
              (Z.of_nat (length slots)) (image_of m <$> slots) k) as [Ht Hp];
    [apply local_parse_delta_slot|done|by apply parse_delta_body|rewrite length_image_header; lia|done|].
  fold bytes in Ht, Hp. rewrite Ht in *. rewrite length_image_header in *.
  destruct (parse_image_header id (length slots) (take (k - 12) (concat imgs)) Hid Hn)
    as (_ & _ & Hnum & Hdrop & _). by rewrite Hnum, Hdrop, Hp.
Qed.

(** An upper IN that fits the wire format: 16-bit key lengths. *)
Definition in_slot_fits {Child} (s : key * Z * option Child) : Prop :=
  Z.of_nat (length s.1.1) < 2 ^ 16 ∧ in_u 64 s.1.2.

Lemma parse_in_body {Child} h (slots : list (key * Z * option Child)) :
  Forall in_slot_fits slots →
  let body := concat ((λ s, in_slot_bytes s.1.1 s.1.2) <$> slots) in
  parse_slots parse_in_slot (length (h ++ body)) (Z.of_nat (length slots)) body = Some (slots.*1, []).
Proof.
  intros Hf body. rewrite <-(app_nil_r body) at 2. rewrite <-(length_fmap fst slots) at 1.
  apply parse_slots_concat.
  - apply Forall2_fmap_l, Forall2_fmap_r, Forall_Forall2_diag. eapply Forall_impl; [exact Hf|].
    intros [[k lsn] c] [Hk Hl] r. by apply parse_in_slot_bytes.
  - rewrite length_fmap, length_app. transitivity (length body); [|lia]. unfold body.
    rewrite <-(length_fmap (λ s : key * Z * option Child, in_slot_bytes s.1.1 s.1.2) slots) at 1.
    apply length_concat_ge, Forall_fmap, Forall_true.
    intros s. change (0 < length (in_slot_bytes s.1.1 s.1.2))%nat. unfold in_slot_bytes.
    rewrite length_app, length_be_bytes. lia.
Qed.

(** * Properties *)

(** C33: a full BIN image restores the BIN.  A BIN that holds [slots] is
    written without a panic, and reading the bytes gives a clean full BIN of
    the same node id that holds the same keys, LSNs and deletion states in the
    same order, and the data of every slot whose length is within the
    embedding bound of the writer; longer data is left to the record's own log
    entry. *)
Theorem bin_image_roundtrip (b : BinStub) (slots : list slot) (Hb : bin_rep b slots)
  (Hid : in_u 64 (bin_node_id b)) (Hm : max_embedded_ln b < 2 ^ 32)
  (Hn : Z.of_nat (length slots) < 2 ^ 32) (Hf : Forall slot_fits slots) :
  ∃ bytes b', serialize_full b = Some bytes ∧ deserialize_bin bytes = Some (Some b') ∧
    bin_node_id b' = bin_node_id b ∧ is_delta b' = false ∧ bin_dirty b' = false ∧
    dirty_count b' = 0%nat ∧
    bin_rep b' ((λ s, (slot_key s, slot_lsn s,
       {| data := embedded_data (max_embedded_ln b) (data (slot_entry s));
          known_deleted := known_deleted (slot_entry s);
          pending_deleted := pending_deleted (slot_entry s);
          e_dirty := false; expiration_time := 0 |})) <$> slots).
Proof.
  destruct (deserialize_full_spec (bin_node_id b) (max_embedded_ln b) slots Hid Hm Hn Hf)
    as (ks & ls & Hd & Hr).
  eexists _, _. split; [by apply serialize_full_spec|]. unfold deserialize_bin. rewrite Hd.
  split; [done|]. split_and!; [done..| |].
  - unfold dirty_count. simpl. clear. induction slots as [|s slots IH]; [done|].
    rewrite !fmap_cons, filter_cons, decide_False by (by intros []). done.
  - apply bin_rep_with_state. by rewrite <-(list_fmap_compose (image_of _) image_slot) in Hr.
Qed.

(** Two records, one with data longer than the bound, one marked deleted. *)
Definition demo_logged_bin : BinStub :=
  with_slots (loaded_bin 7) [1; 2]
    [new_entry (Some (replicate 20 9)); marked_entry true (new_entry None); new_entry (Some [5])]
    (KDefault [[3]; [4; 5]; [6]]) (LLong [Lsn_new 1 10; Lsn_new 1 20; Lsn_new 2 30]).
Definition demo_logged_slots : list slot :=
  [([1; 2; 3], Lsn_new 1 10, new_entry (Some (replicate 20 9)));
   ([1; 2; 4; 5], Lsn_new 1 20, marked_entry true (new_entry None));
   ([1; 2; 6], Lsn_new 2 30, new_entry (Some [5]))].

Lemma demo_logged_rep : bin_rep demo_logged_bin demo_logged_slots.
Proof. split; [repeat constructor; by eexists|constructor|done|constructor|done]. Qed.

Lemma demo_logged_fits : Forall slot_fits demo_logged_slots.
Proof. repeat constructor; done. Qed.

Lemma bin_image_roundtrip_witness :
  ∃ bytes b', serialize_full demo_logged_bin = Some bytes ∧ deserialize_bin bytes = Some (Some b') ∧
    bin_node_id b' = 7 ∧ is_delta b' = false ∧ bin_dirty b' = false ∧ dirty_count b' = 0%nat ∧
    bin_rep b'
      [([1; 2; 3], Lsn_new 1 10, image_entry ([1; 2; 3], Lsn_new 1 10, None, (false, false)));
       ([1; 2; 4; 5], Lsn_new 1 20, image_entry ([1; 2; 4; 5], Lsn_new 1 20, None, (false, true)));
       ([1; 2; 6], Lsn_new 2 30, image_entry ([1; 2; 6], Lsn_new 2 30, Some [5], (false, false)))].
Proof.
  apply (bin_image_roundtrip demo_logged_bin demo_logged_slots demo_logged_rep);
    [done|done|done|exact demo_logged_fits].
Defined.

(** An upper IN and its log entry round trip.  Written to bytes, wrapped
    in an [InLogEntry] and read back, with whatever follows in the log buffer,
    an upper IN keeps its node id, level, keys and LSNs, and has no cached
    child; keys are bounded by the 16-bit length of the format. *)
Theorem upper_in_entry_roundtrip {Child : Type} (nd : InNodeStub Child)
  (slots : list (key * Z * option Child)) (e : InLogEntry) (junk bytes : list Z)
  (Hn : in_node nd slots) (Hf : Forall in_slot_fits slots)
  (Hid : in_u 64 (node_id nd)) (Hlvl : in_i 32 (level nd))
  (Hw : write_in_to_bytes nd = Some bytes) (Hb : node_data e = bytes) (He : entry_fits e) :
  read_from_log (write_to_log e ++ junk) = Some e ∧
  ∃ nd' : InNodeStub Child, deserialize_upper_in (node_data e) = Some (Some nd') ∧
    node_id nd' = node_id nd ∧ level nd' = level nd ∧ in_dirty nd' = false ∧
    in_node nd' ((λ s, (s.1.1, s.1.2, None)) <$> slots).
Proof.
  split; [by apply read_write_entry|]. rewrite Hb.
  rewrite (write_in_to_bytes_spec nd slots Hn) in Hw. apply (inj Some) in Hw as <-. clear Hb He.
  assert (Z.of_nat (length slots) < 2 ^ 32) as Hlen by (pose proof (in_u16 _ _ Hn); lia).
  pose proof (parse_in_body (in_header (node_id nd) (level nd) (length slots) (in_dirty nd)) slots Hf) as Hp.
  cbn zeta in Hp. set (body := concat _) in *.
  destruct (parse_in_header (node_id nd) (level nd) (length slots) (in_dirty nd) body Hid Hlvl Hlen)
    as (E1 & E2 & E3 & E4 & E5).
  unfold deserialize_upper_in. rewrite E1, E2, E3, E4, Hp, E5. clear E1 E2 E3 E4 Hp.
  cbn [Nat.add Nat.ltb Nat.leb].
  assert (Forall (in_u 64) (slots.*1.*2)) as Hls.
  { rewrite <-list_fmap_compose. apply Forall_fmap. eapply Forall_impl; [exact Hf|]. by intros s []. }
  destruct (from_lsns_spec _ Hls) as (ls & -> & Hrls). cbn [mbind option_bind].
  eexists; split; [done|]. split_and!; [done..|].
  split; cbn [InNode.entries InNode.lsns InNode.targets].
  - by rewrite <-!list_fmap_compose.
  - by rewrite <-!list_fmap_compose in *.
  - constructor.
  - intros i. rewrite list_lookup_fmap. by destruct (slots !! i).
  - rewrite length_fmap. apply (in_u16 _ _ Hn).
Qed.

Definition demo_in : InNodeStub Z :=
  {| node_id := 3; level := 2; entries := [[]; [7; 8]]; targets := TNone; in_dirty := true;
     generation := 0; lsns := LLong [Lsn_new 1 10; Lsn_new 4 5]; last_full_lsn := NULL_LSN |}.
Definition demo_in_entry : InLogEntry :=
  {| db_id := 9; prev_full_lsn := NULL_LSN; prev_delta_lsn := NULL_LSN;
     node_data := default [] (write_in_to_bytes demo_in) |}.

Lemma upper_in_entry_roundtrip_witness :
  read_from_log (write_to_log demo_in_entry ++ [1; 2]) = Some demo_in_entry ∧
  ∃ nd' : InNodeStub Z, deserialize_upper_in (node_data demo_in_entry) = Some (Some nd') ∧
    node_id nd' = 3 ∧ level nd' = 2 ∧ in_dirty nd' = false ∧
    in_node nd' [([], Lsn_new 1 10, None); ([7; 8], Lsn_new 4 5, None)].
Proof.
  apply (upper_in_entry_roundtrip demo_in
           [([], Lsn_new 1 10, None); ([7; 8], Lsn_new 4 5, None)] demo_in_entry [1; 2]
           (node_data demo_in_entry)).
  - split; simpl; [done|constructor|constructor|by intros [|[|[|]]]|lia].
  - repeat constructor; done.
  - done.
  - done.
  - vm_compute. reflexivity.
  - reflexivity.
  - repeat split; try done; vm_compute; reflexivity.
Defined.

(** Node images cut short are rejected.  Every strict prefix of a full
    image of a BIN and of a delta image of it is refused by the reader, without a
    panic: a torn log entry never yields a node with fewer slots. *)
Theorem truncated_bin_images_rejected (b : BinStub) (slots : list slot) (full delta : list Z)
  (n : nat) (Hb : bin_rep b slots)
  (Hid : in_u 64 (bin_node_id b)) (Hm : max_embedded_ln b < 2 ^ 32)
  (Hn : Z.of_nat (length slots) < 2 ^ 32) (Hf : Forall slot_fits slots)
  (Hfull : serialize_full b = Some full) (Hdelta : serialize_delta b = Some delta) :
  ((n < length full)%nat → deserialize_full (take n full) = Some None) ∧
  ((n < length delta)%nat → parse_delta_entries (take n delta) = None).
Proof.
  rewrite (serialize_full_spec b slots Hb) in Hfull. apply (inj Some) in Hfull as <-.
  destruct (serialize_delta_spec b slots Hb) as (imgs & Hd & Hi). rewrite Hd in Hdelta.
  apply (inj Some) in Hdelta as <-. split; intros Hlt.
  - by apply deserialize_full_truncated.
  - apply (parse_delta_truncated _ (max_embedded_ln b) (dirty_slots slots)); [done|done| | |done|done].
    + assert (length (dirty_slots slots) ≤ length slots)%nat by apply length_filter. lia.
    + by apply Forall_dirty.
Qed.

Lemma truncated_bin_images_rejected_witness :
  deserialize_full (take 30 (default [] (serialize_full demo_logged_bin))) = Some None ∧
  parse_delta_entries (take 30 (default [] (serialize_delta demo_logged_bin))) = None.
Proof.
  destruct (truncated_bin_images_rejected demo_logged_bin demo_logged_slots
    (default [] (serialize_full demo_logged_bin)) (default [] (serialize_delta demo_logged_bin)) 30
    demo_logged_rep) as [H1 H2];
    [done|done|done|exact demo_logged_fits|vm_compute; reflexivity|vm_compute; reflexivity|].
  split; [apply H1|apply H2]; vm_compute; lia.
Defined.

(** A node read from the log has forgotten when its records expire.
    Whatever full image it is read from, no slot of the BIN carries an
    expiration time, so none expires at any later time, the ones written with
    a time to live included. *)
Theorem restored_bin_never_expires (bytes : list Z) (b : BinStub)
  (H : deserialize_full bytes = Some (Some b)) (now_ms : Z) (e : BinEntry) (He : e ∈ bin_entries b) :
  expiration_time e = 0 ∧ slot_expired b now_ms e = false.
Proof.
  assert (expiration_time e = 0) as Hz.
  { unfold deserialize_full in H. destruct (length bytes <? 12)%nat; [done|].
    destruct (parse_slots _ _ _ _) as [[imgs r]|]; [|done].
    destruct (from_lsns _) as [ls|]; [|done]. cbn [mbind option_bind] in H.
    set (b0 := {| bin_node_id := _ |}) in H. cbn zeta in H.
    assert (bin_entries b = image_entry <$> imgs) as Hes.
    { destruct (2 <=? length (bin_entries b0))%nat.
      - unfold recompute_key_prefix, apply_new_prefix in H. cbn zeta in H.
        destruct (set_suffixes _ _ _ _) as [ks1|]; [|done]. cbn [mbind option_bind] in H.
        destruct (KeyRep_compact ks1 _) as [ks2|]; [|done]. cbn [mbind option_bind] in H.
        by injection H as <-.
      - destruct (KeyRep_compact (bin_keys b0) _) as [ks|]; [|done]. cbn [mbind option_bind] in H.
        by injection H as <-. }
    rewrite Hes in He. apply list_elem_of_fmap in He as ([[[k lsn] d] [kd pd]] & -> & _). done. }
  split; [done|]. unfold slot_expired. rewrite Hz. by rewrite andb_false_r.
Qed.

(** A record written with a time to live of one hour, and its restored image. *)
Definition demo_ttl_bin : BinStub :=
  with_slots (loaded_bin 7) []
    [{| data := Some [5]; known_deleted := false; pending_deleted := false; e_dirty := true;
        expiration_time := 1 |}] (KDefault [[3]]) (LLong [Lsn_new 1 10]).

Lemma restored_bin_never_expires_witness :
  slot_expired demo_ttl_bin (3600 * 1000 * 5)
    {| data := Some [5]; known_deleted := false; pending_deleted := false; e_dirty := true;
       expiration_time := 1 |} = true ∧
  ∃ b, deserialize_full (default [] (serialize_full demo_ttl_bin)) = Some (Some b) ∧
    ∀ now_ms e, e ∈ bin_entries b → expiration_time e = 0 ∧ slot_expired b now_ms e = false.
Proof.
  split; [reflexivity|].
  destruct (deserialize_full (default [] (serialize_full demo_ttl_bin))) as [[b|]|] eqn:E;
    [|vm_compute in E; discriminate..].
  exists b. split; [reflexivity|]. intros now_ms e He. exact (restored_bin_never_expires _ b E now_ms e He).
Defined.

(** The reader of upper INs indexes past a short input.  It checks for 13
    bytes and then slices sixteen: inputs of 13 to 15 bytes panic, all shorter
    ones and the one of 16 bytes are rejected. *)
Theorem upper_in_short_input_panics {Child : Type} (bytes : list Z) (H : (length bytes < 17)%nat) :
  (deserialize_upper_in (Child := Child) bytes = None ↔ (13 ≤ length bytes < 16)%nat) ∧
  (¬ (13 ≤ length bytes < 16)%nat → deserialize_upper_in (Child := Child) bytes = Some None).
Proof.
  unfold deserialize_upper_in. destruct (length bytes <? 13)%nat eqn:E1; reflect_bools; [split; [split; [done|lia]|done]|].
  destruct (length bytes <? 16)%nat eqn:E2; reflect_bools; [split; [done|lia]|].
  rewrite (proj2 (Nat.ltb_lt _ _)) by lia. split; [split; [done|lia]|done].
Qed.

Lemma upper_in_short_input_panics_witness :
  deserialize_upper_in (Child := Z) (replicate 14 0) = None ∧
  deserialize_upper_in (Child := Z) (replicate 16 0) = Some None.
Proof.
  split.
  - apply (upper_in_short_input_panics (replicate 14 0)); vm_compute; lia.
  - apply (upper_in_short_input_panics (replicate 16 0)); vm_compute; lia.
Defined.
