(* ===== verification/BinLog.v ===== *)
(** * Logging, evicting and re-fetching a BIN (noxu-tree, noxu-recovery, noxu-evictor)

    The checkpointer writes a dirty BIN as a full image or as a delta over the
    last one; the evictor writes full images; [fetch_node_from_log] reads a
    node back, and rebuilds a BIN from the chain of its deltas over its full
    base.  The log manager is a map from LSNs to entries: [read_entry] is a
    lookup, [log] an insertion at an LSN that the log manager chose.  The walk
    along a chain has the size of the log as fuel: a chain without a cycle is
    shorter; on a cycle longer than one the loop of the code does not end. *)

From stdpp Require Import sorting.
From S2P Require Import Prelude Bytes Reader Packed Lsn LogEntry Keys LsnRep TargetRep InNode Bin BinMap NodeImage.

(** ** The code: reading a node *)

Abbreviation log := (gmap Z (LogEntryType * list Z)).

Inductive TreeNode (Child : Type) :=
| Internal (nd : InNodeStub Child)
| Bottom (b : BinStub).
Arguments Internal {_} _.
Arguments Bottom {_} _.

Definition with_prefixing (b : BinStub) (prefixing : bool) : BinStub :=
  {| bin_node_id := bin_node_id b; bin_level := bin_level b; bin_entries := bin_entries b;
     key_prefix := key_prefix b; bin_dirty := bin_dirty b; is_delta := is_delta b;
     bin_last_full_lsn := bin_last_full_lsn b; last_delta_lsn := last_delta_lsn b;
     bin_generation := bin_generation b; expiration_in_hours := expiration_in_hours b;
     cursor_count := cursor_count b; prohibit_next_delta := prohibit_next_delta b;
     bin_lsns := bin_lsns b; bin_keys := bin_keys b;
     compact_max_key_length := compact_max_key_length b;
     expiration_enabled := expiration_enabled b; max_embedded_ln := max_embedded_ln b;
     key_prefixing := prefixing |}.

Definition with_is_delta (b : BinStub) (delta : bool) : BinStub :=
  {| bin_node_id := bin_node_id b; bin_level := bin_level b; bin_entries := bin_entries b;
     key_prefix := key_prefix b; bin_dirty := bin_dirty b; is_delta := delta;
     bin_last_full_lsn := bin_last_full_lsn b; last_delta_lsn := last_delta_lsn b;
     bin_generation := bin_generation b; expiration_in_hours := expiration_in_hours b;
     cursor_count := cursor_count b; prohibit_next_delta := prohibit_next_delta b;
     bin_lsns := bin_lsns b; bin_keys := bin_keys b;
     compact_max_key_length := compact_max_key_length b;
     expiration_enabled := expiration_enabled b; max_embedded_ln := max_embedded_ln b;
     key_prefixing := key_prefixing b |}.

(** [bin.entries[idx].known_deleted = ..], and the same for pending. *)
Definition set_deleted (b : BinStub) (idx : nat) (kd pd : bool) : option BinStub :=
  e ← bin_entries b !! idx;
  Some (with_entries b
    (<[idx := {| data := data e; known_deleted := kd; pending_deleted := pd; e_dirty := e_dirty e;
                 expiration_time := expiration_time e |}]> (bin_entries b))).

(** One delta entry, merged by key in the order of the tree. *)
Definition merge_image (kc : option (key → key → comparison)) (prefixing : bool)
    (b : BinStub) (i : image) : option BinStub :=
  let '(full_key, lsn, d, (kd, pd)) := i in
  '(b, (idx, _)) ←
    match kc with
    | Some cmp => insert_cmp b full_key lsn d cmp
    | None => if prefixing then insert_with_prefix b full_key lsn d
              else insert_raw b full_key lsn d
    end;
  set_deleted b idx kd pd.

Definition merge_images (kc : option (key → key → comparison)) (prefixing : bool)
    (b : BinStub) (is_ : list image) : option BinStub :=
  foldl (λ ob i, b ← ob; merge_image kc prefixing b i) (Some b) is_.

(** The loop that collects the deltas, newest first, and finds the base. *)
Fixpoint delta_chain (lg : log) (fuel : nat) (deltas : list (list Z)) (cur_lsn : Z)
    (cur_entry : InLogEntry) : may (list (list Z) * Z) :=
  match fuel with
  | O => None
  | S fuel =>
      let deltas := deltas ++ [node_data cur_entry] in
      let prev_delta := prev_delta_lsn cur_entry in
      if prev_delta =? NULL_LSN then Some (Some (deltas, prev_full_lsn cur_entry))
      else if prev_delta =? cur_lsn then rejected
      else
        match lg !! prev_delta with
        | None => rejected
        | Some (pt, pp) =>
            if negb (bool_decide (pt = BINDelta)) then Some (Some (deltas, prev_delta))
            else match read_from_log pp with
                 | None => rejected
                 | Some e => delta_chain lg fuel deltas prev_delta e
                 end
        end
  end.

(** The loop over the deltas, oldest first. *)
Fixpoint apply_deltas (kc : option (key → key → comparison)) (prefixing : bool)
    (b : BinStub) (deltas : list (list Z)) : may BinStub :=
  match deltas with
  | [] => Some (Some b)
  | delta_bytes :: deltas =>
      match parse_delta_entries delta_bytes with
      | None => rejected
      | Some entries =>
          b ← merge_images kc prefixing b entries;
          apply_deltas kc prefixing b deltas
      end
  end.

(** The [BINDelta] arm of [fetch_node_from_log]. *)
Definition fetch_delta (kc : option (key → key → comparison)) (prefixing : bool) (lg : log)
    (log_lsn : Z) (in_entry : InLogEntry) : may BinStub :=
  let? c := delta_chain lg (S (size lg)) [] log_lsn in_entry in
  let '(deltas, base_full_lsn) := c in
  if base_full_lsn =? NULL_LSN then rejected
  else
    match lg !! base_full_lsn with
    | None => rejected
    | Some (base_type, base_payload) =>
        if negb (bool_decide (base_type = BIN)) then rejected
        else
          match read_from_log base_payload with
          | None => rejected
          | Some base_in =>
              let? bin := deserialize_full (node_data base_in) in
              bin ← (if bool_decide (key_prefix bin = []) then Some bin
                     else apply_new_prefix bin []);
              let? bin := apply_deltas kc prefixing (with_prefixing bin prefixing) (reverse deltas) in
              let bin := with_state (with_is_delta bin false) false base_full_lsn
                           (last_delta_lsn bin) (prohibit_next_delta bin) in
              bin ← recompute_key_prefix bin;
              Some (Some bin)
          end
    end.

Definition fetch_node_from_log {Child} (kc : option (key → key → comparison)) (prefixing : bool)
    (lg : log) (log_lsn : Z) : may (TreeNode Child) :=
  if log_lsn =? NULL_LSN then rejected
  else
    match lg !! log_lsn with
    | None => rejected
    | Some (entry_type, payload) =>
        match read_from_log payload with
        | None => rejected
        | Some in_entry =>
            match entry_type with
            | BIN =>
                let? bin := deserialize_bin (node_data in_entry) in
                let bin := with_state bin (bin_dirty bin) log_lsn (last_delta_lsn bin)
                             (prohibit_next_delta bin) in
                bin ← recompute_key_prefix (with_prefixing bin prefixing);
                Some (Some (Bottom bin))
            | IN =>
                let? n := deserialize_upper_in (node_data in_entry) in
                Some (Some (Internal
                  {| node_id := node_id n; level := level n; entries := entries n;
                     targets := targets n; in_dirty := in_dirty n; generation := generation n;
                     lsns := lsns n; last_full_lsn := log_lsn |}))
            | BINDelta =>
                let? bin := fetch_delta kc prefixing lg log_lsn in_entry in Some (Some (Bottom bin))
            | _ => rejected
            end
        end
    end.

(** ** The code: writing a BIN *)

Definition clear_dirty_after_delta_log (b : BinStub) : BinStub :=
  with_state (with_entries b (clear_dirty <$> bin_entries b)) false (bin_last_full_lsn b)
    (last_delta_lsn b) (prohibit_next_delta b).

(** The BIN part of the checkpointer's flush, for a BIN that is still in the
    tree and whose records are logged: the log, the BIN, the LSN to publish in
    the parent ([None] when there was nothing to write), and the LSNs counted
    obsolete.  [lsn] is the LSN at which the log manager writes the entry. *)
Definition checkpoint_bin (db : Z) (allow_bin_deltas : bool) (bin_delta_percent : Z)
    (lg : log) (lsn : Z) (b : BinStub) : option (log * BinStub * option Z * list Z) :=
  if negb (bin_dirty b) && (dirty_count b =? 0)%nat then Some (lg, b, None, [])
  else if allow_bin_deltas && should_log_delta b bin_delta_percent then
    let superseded_delta_lsn := last_delta_lsn b in
    delta_bytes ← serialize_delta b;
    let buf := delta_write_to_log
      {| d_db_id := db; d_prev_full_lsn := bin_last_full_lsn b; d_prev_delta_lsn := last_delta_lsn b;
         delta_data := delta_bytes |} in
    let lg := <[lsn := (BINDelta, buf)]> lg in
    let b := with_state b (bin_dirty b) (bin_last_full_lsn b) lsn (prohibit_next_delta b) in
    let b := clear_dirty_after_delta_log b in
    Some (lg, b, Some lsn,
          if superseded_delta_lsn =? NULL_LSN then [] else [superseded_delta_lsn])
  else
    let superseded_full_lsn := bin_last_full_lsn b in
    let superseded_delta_lsn := last_delta_lsn b in
    full_bytes ← serialize_full b;
    let buf := write_to_log
      {| db_id := db; prev_full_lsn := bin_last_full_lsn b; prev_delta_lsn := NULL_LSN;
         node_data := full_bytes |} in
    let lg := <[lsn := (BIN, buf)]> lg in
    let b := clear_dirty_after_full_log b lsn in
    Some (lg, b, Some lsn,
          (if superseded_full_lsn =? NULL_LSN then [] else [superseded_full_lsn]) ++
          (if superseded_delta_lsn =? NULL_LSN then [] else [superseded_delta_lsn])).

(** The BIN part of the evictor's flush: [None] in the third place is a BIN
    that was clean already; the flag says that the BIN may be detached. *)
Definition evict_flush (db : Z) (lg : log) (lsn : Z) (b : BinStub)
    : option (log * BinStub * option Z * bool) :=
  if 0 <? cursor_count b then Some (lg, b, None, false)
  else if negb (bin_dirty b) && (dirty_count b =? 0)%nat then Some (lg, b, None, true)
  else
    full_bytes ← serialize_full b;
    let buf := write_to_log
      {| db_id := db; prev_full_lsn := bin_last_full_lsn b; prev_delta_lsn := NULL_LSN;
         node_data := full_bytes |} in
    let lg := <[lsn := (BIN, buf)]> lg in
    Some (lg, clear_dirty_after_full_log b lsn, Some lsn, true).

(** ** The code: deltas in memory *)

(** [apply_delta_to_bin], in byte order. *)
Definition apply_delta_to_bin (bin : BinStub) (delta_entries : list image) : option BinStub :=
  bin ← foldl (λ ob (i : image), b ← ob;
                 let '(full_key, lsn, d, (kd, pd)) := i in
                 '(b, (idx, _)) ← insert_with_prefix b full_key lsn d;
                 set_deleted b idx kd pd) (Some bin) delta_entries;
  Some (with_state bin true (bin_last_full_lsn bin) (last_delta_lsn bin) (prohibit_next_delta bin)).

Definition delta_full_entries (delta : BinStub) : option (list image) :=
  mapM (λ i, lsn ← bin_get_lsn delta i;
             e ← bin_entries delta !! i;
             Some (default [] (get_full_key delta i), lsn, data e, (known_deleted e, pending_deleted e)))
       (seq 0 (length (bin_entries delta))).

Definition mutate_to_full_bin (delta base : BinStub) : option BinStub :=
  entries ← delta_full_entries delta;
  base ← apply_delta_to_bin base entries;
  let delta := with_slots delta (key_prefix base) (bin_entries base) (bin_keys base) (bin_lsns base) in
  let delta := with_is_delta delta false in
  Some (with_state delta true (bin_last_full_lsn delta) (last_delta_lsn delta)
          (prohibit_next_delta delta)).

(** [mutate_to_full_bin_from_log]: the payload is not unwrapped here. *)
Definition mutate_to_full_bin_from_log (lg : log) (delta : BinStub) : option BinStub :=
  let degrade := with_state (with_is_delta delta false) true (bin_last_full_lsn delta)
                   (last_delta_lsn delta) (prohibit_next_delta delta) in
  if negb (is_delta delta) then Some delta
  else if bin_last_full_lsn delta =? NULL_LSN then Some (with_is_delta delta false)
  else
    match lg !! bin_last_full_lsn delta with
    | Some (entry_type, payload) =>
        if bool_decide (entry_type = BIN) then
          base ← deserialize_full payload;
          match base with
          | Some base =>
              let base := with_state base (bin_dirty base) (bin_last_full_lsn delta)
                            (last_delta_lsn base) (prohibit_next_delta base) in
              mutate_to_full_bin delta base
          | None => Some degrade
          end
        else Some degrade
    | None => Some degrade
    end.

(** * Theorems *)

(** ** Merging a delta entry *)

Definition marked (kd pd : bool) (e : BinEntry) : BinEntry :=
  {| data := data e; known_deleted := kd; pending_deleted := pd; e_dirty := e_dirty e;
     expiration_time := expiration_time e |}.

(** What a slot says, and what is stored under a key. *)
Definition slot_img (s : slot) : image :=
  (slot_key s, slot_lsn s, data (slot_entry s),
   (known_deleted (slot_entry s), pending_deleted (slot_entry s))).
Definition find_img (cmp : key → key → comparison) (slots : list slot) (k : key) : option image :=
  slot_img <$> abs_find (cmp := cmp) slots k.

(** The reference merge: an insertion by key that keeps the deletion state. *)
Definition merge_slot (cmp : key → key → comparison) (slots : list slot) (i : image) : list slot :=
  let '(k, lsn, d, (kd, pd)) := i in
  let '(slots, (idx, _)) := abs_insert cmp slots k lsn d in
  match slots !! idx with
  | Some s => <[idx := (slot_key s, slot_lsn s, marked kd pd (slot_entry s))]> slots
  | None => slots
  end.

Section merge.
Context `{KeyOrder cmp}.

(** The slot that an insertion wrote. *)
Lemma abs_insert_at slots k lsn d :
  ∃ e, (abs_insert cmp slots k lsn d).1 !! (abs_insert cmp slots k lsn d).2.1 = Some (k, lsn, e) ∧
    data e = d ∧ e_dirty e = true.
Proof.
  unfold abs_insert. destruct (ref_search_inv (λ k', cmp k' k) (keys_of slots)) as [Hinv _].
  destruct (ref_search _ _) as [i|i]; cbn [fst snd].
  - destruct Hinv as (k' & Hk' & _). rewrite list_lookup_fmap in Hk'.
    destruct (slots !! i) as [s|] eqn:Hi; [|done]. cbn [fst snd].
    rewrite list_lookup_insert_eq by (by eapply lookup_lt_Some). by eexists.
  - destruct Hinv as [Hi _]. rewrite length_fmap in Hi.
    rewrite list_lookup_middle by (rewrite length_take; lia). by eexists.
Qed.

Lemma merge_slot_spec slots i :
  key_sorted cmp (keys_of slots) →
  key_sorted cmp (keys_of (merge_slot cmp slots i)) ∧
  ∀ k, ∃ e, abs_find (cmp := cmp) (merge_slot cmp slots i) k =
    match cmp (image_key i) k with
    | Eq => Some (image_key i, image_lsn i, e)
    | _ => abs_find (cmp := cmp) slots k
    end ∧ e_dirty e = true ∧ slot_img (image_key i, image_lsn i, e) = i.
Proof.
  intros Hs. destruct i as [[[k lsn] d] [kd pd]]. unfold image_key, image_lsn. cbn [fst snd].
  destruct (abs_insert_spec slots k lsn d Hs) as [Hs1 _].
  destruct (abs_insert_at slots k lsn d) as (e & Hat & Hd & Hdirty).
  pose proof (λ k', abs_find_insert slots k lsn d k' Hs) as Hfind. unfold merge_slot.
  destruct (abs_insert cmp slots k lsn d) as [slots1 [idx new]]. cbn [fst snd] in *. rewrite Hat. cbn [fst snd].
  destruct (sorted_replace slots1 idx _ (k, lsn, marked kd pd e) Hs1 Hat (cmp_refl _)) as [Hs2 Hin].
  split; [done|]. intros k'. exists (marked kd pd e). split_and!; [|done|by rewrite <-Hd].
  specialize (Hfind k'). apply option_eq. intros t. rewrite abs_find_iff, Hin by done. simpl.
  destruct (cmp k k') eqn:E.
  - split.
    + intros [[[_ Hne]| ->] Ht]; [|done]. destruct Hne. rewrite (cmp_eq_l _ _ k Ht). by apply cmp_eq_sym.
    + intros [= <-]. split; [by right|done].
  - rewrite <-Hfind, abs_find_iff by done. split.
    + intros [[[Ht _]| ->] Hk]; [done|]. simpl in Hk. congruence.
    + intros [Ht Hk]. split; [left; split; [done|]|done]. intros Hk'.
      rewrite (cmp_eq_l _ _ k' Hk') in Hk. congruence.
  - rewrite <-Hfind, abs_find_iff by done. split.
    + intros [[[Ht _]| ->] Hk]; [done|]. simpl in Hk. congruence.
    + intros [Ht Hk]. split; [left; split; [done|]|done]. intros Hk'.
      rewrite (cmp_eq_l _ _ k' Hk') in Hk. congruence.
Qed.

Lemma find_img_merge slots i k :
  key_sorted cmp (keys_of slots) →
  find_img cmp (merge_slot cmp slots i) k =
  match cmp (image_key i) k with Eq => Some i | _ => find_img cmp slots k end.
Proof.
  intros Hs. destruct (merge_slot_spec slots i Hs) as [_ Hf]. unfold find_img.
  destruct (Hf k) as (e & -> & _ & Hi). destruct (cmp (image_key i) k); [|done..].
  simpl. f_equal. exact Hi.
Qed.

(** Slots that a merge left alone are those of the base. *)
Definition untouched (base slots : list slot) : Prop :=
  ∀ k, match abs_find (cmp := cmp) slots k with
       | Some s => e_dirty (slot_entry s) = true ∨ abs_find (cmp := cmp) base k = Some s
       | None => abs_find (cmp := cmp) base k = None
       end.

Lemma merge_untouched base slots i :
  key_sorted cmp (keys_of slots) → untouched base slots → untouched base (merge_slot cmp slots i).
Proof.
  intros Hs Hu k. destruct (merge_slot_spec slots i Hs) as [_ Hf].
  destruct (Hf k) as (e & -> & He & _). specialize (Hu k).
  destruct (cmp (image_key i) k); [by left|done..].
Qed.

Lemma merge_all base slots is_ :
  key_sorted cmp (keys_of slots) → untouched base slots →
  key_sorted cmp (keys_of (foldl (merge_slot cmp) slots is_)) ∧
  untouched base (foldl (merge_slot cmp) slots is_).
Proof.
  revert slots; induction is_ as [|i is_ IH]; intros slots Hs Hu; [done|]. cbn [foldl].
  apply IH; [by apply merge_slot_spec|by apply merge_untouched].
Qed.

Lemma abs_find_cons s slots k :
  key_sorted cmp (keys_of (s :: slots)) →
  abs_find (cmp := cmp) (s :: slots) k =
  match cmp (slot_key s) k with Eq => Some s | _ => abs_find (cmp := cmp) slots k end.
Proof.
  intros Hs. pose proof Hs as [Hs' Hlt]%StronglySorted_inv. fold (keys_of slots) in *.
  apply option_eq. intros t. rewrite abs_find_iff by done. rewrite elem_of_cons.
  assert (t ∈ slots → cmp (slot_key s) (slot_key t) = Lt) as Hst.
  { intros Ht. apply (proj1 (Forall_forall _ _) Hlt). apply list_elem_of_fmap. by exists t. }
  destruct (cmp (slot_key s) k) eqn:E.
  - split; [|intros [= <-]; by auto]. intros [[->|Ht] Hk]; [done|].
    specialize (Hst Ht). simpl in *. rewrite (cmp_eq_r _ _ (s.1.1) Hk) in Hst. congruence.
  - rewrite abs_find_iff by done. split; [|naive_solver]. intros [[->|Ht] Hk]; [congruence|done].
  - rewrite abs_find_iff by done. split; [|naive_solver]. intros [[->|Ht] Hk]; [congruence|done].
Qed.

(** Merging the images of sorted slots: they win, the rest is kept. *)
Lemma find_img_merge_slots m slots ds k :
  key_sorted cmp (keys_of slots) → key_sorted cmp (keys_of ds) →
  find_img cmp (foldl (merge_slot cmp) slots (image_of m <$> ds)) k =
  match abs_find (cmp := cmp) ds k with
  | Some s => Some (image_of m s)
  | None => find_img cmp slots k
  end.
Proof.
  revert slots; induction ds as [|s ds IH]; intros slots Hs Hds; [done|].
  rewrite fmap_cons. cbn [foldl]. pose proof Hds as [Hds' Hlt]%StronglySorted_inv.
  rewrite IH; [|by apply merge_slot_spec|done]. rewrite (abs_find_cons s ds k Hds), find_img_merge by done.
  change (image_key (image_of m s)) with (slot_key s).
  destruct (cmp (slot_key s) k) eqn:E; [|done..].
  destruct (abs_find (cmp := cmp) ds k) as [t|] eqn:Ht; [|done].
  apply abs_find_iff in Ht as [Ht Hk]; [|done].
  assert (cmp (slot_key s) (slot_key t) = Lt) as Hst.
  { apply (proj1 (Forall_forall _ _) Hlt). apply list_elem_of_fmap. by exists t. }
  simpl in *. rewrite (cmp_eq_r _ _ (s.1.1) Hk) in Hst. congruence.
Qed.
End merge.

(** ** The re-fetch of a BIN *)

Section fetch.
Context (kc : option (key → key → comparison)) (prefixing : bool) `{!KeyOrder (order_of kc)}.
Abbreviation cmp := (order_of kc).

Lemma set_deleted_spec b slots i s kd pd :
  bin_rep b slots → slots !! i = Some s →
  ∃ b', set_deleted b i kd pd = Some b' ∧ log_frame b b' ∧ key_prefix b' = key_prefix b ∧
    bin_rep b' (<[i := (slot_key s, slot_lsn s, marked kd pd (slot_entry s))]> slots).
Proof.
  intros Hb Hi. unfold set_deleted. destruct (bin_lookup b slots i s Hb Hi) as [He _]. rewrite He.
  cbn [mbind option_bind]. eexists; split; [done|]. split_and!; [done..|].
  destruct Hb as [Hp Hk Hes Hl Hc]. split; simpl.
  - apply Forall_insert; [done|]. by apply (Forall_lookup_1 _ _ _ _ Hp Hi).
  - rewrite list_fmap_insert, list_insert_id; [done|]. by rewrite list_lookup_fmap, Hi.
  - by rewrite Hes, list_fmap_insert.
  - rewrite list_fmap_insert, list_insert_id; [done|]. by rewrite list_lookup_fmap, Hi.
  - done.
Qed.

Lemma merge_image_any b k lsn d kd pd :
  merge_image kc prefixing b (k, lsn, d, (kd, pd)) =
  ('(b, (idx, _)) ← insert_any kc prefixing b k lsn d; set_deleted b idx kd pd).
Proof. done. Qed.

Lemma merge_image_spec b slots i :
  bin_rep b slots → key_sorted cmp (keys_of slots) → mode_ok kc prefixing b → in_u 64 (image_lsn i) →
  ∃ b', merge_image kc prefixing b i = Some b' ∧ log_frame b b' ∧ mode_ok kc prefixing b' ∧
    bin_rep b' (merge_slot cmp slots i).
Proof.
  intros Hb Hs Hm Hl. destruct i as [[[k lsn] d] [kd pd]]. rewrite merge_image_any.
  destruct (insert_any_spec kc prefixing b slots k lsn d _ Hb Hs Hm Hl) as (b1 & -> & Hf1 & Hm1 & Hb1).
  destruct (abs_insert_at (cmp := cmp) slots k lsn d) as (e & Hat & _). unfold merge_slot.
  destruct (abs_insert cmp slots k lsn d) as [slots1 [idx new]]. cbn [fst snd mbind option_bind] in *.
  rewrite Hat. destruct (set_deleted_spec b1 slots1 idx _ kd pd Hb1 Hat) as (b2 & -> & Hf2 & Hp2 & Hb2).
  exists b2. split_and!; [done|by eapply log_frame_trans| |done].
  destruct Hm1 as [Hd1 Hm1]. split; [by rewrite (lf_delta _ _ Hf2)|]. intros. rewrite Hp2. auto.
Qed.

Lemma merge_images_spec b slots is_ :
  bin_rep b slots → key_sorted cmp (keys_of slots) → mode_ok kc prefixing b →
  Forall (λ i, in_u 64 (image_lsn i)) is_ →
  ∃ b', merge_images kc prefixing b is_ = Some b' ∧ log_frame b b' ∧ mode_ok kc prefixing b' ∧
    bin_rep b' (foldl (merge_slot cmp) slots is_).
Proof.
  intros Hb Hs Hm Hl. revert b slots Hb Hs Hm. unfold merge_images.
  induction Hl as [|i is_ Hi Hl IH]; intros b slots Hb Hs Hm; [exists b; by auto using log_frame_refl|].
  cbn [foldl]. cbn [mbind option_bind].
  destruct (merge_image_spec b slots i Hb Hs Hm Hi) as (b1 & Hb1e & Hf1 & Hm1 & Hb1).
  rewrite Hb1e. destruct (IH b1 (merge_slot cmp slots i)) as (b2 & ? & ? & ? & ?);
    [done|by apply merge_slot_spec|done|].
  exists b2. split_and!; [done|by eapply log_frame_trans|done|done].
Qed.

(** The slots after the deltas [dss], oldest first. *)
Definition merged (base : list slot) (dss : list (list image)) : list slot :=
  foldl (foldl (merge_slot cmp)) base dss.

Lemma merged_spec base dss :
  key_sorted cmp (keys_of base) →
  key_sorted cmp (keys_of (merged base dss)) ∧ untouched (cmp := cmp) base (merged base dss).
Proof.
  intros Hs. unfold merged.
  assert (∀ slots, key_sorted cmp (keys_of slots) → untouched (cmp := cmp) base slots →
    key_sorted cmp (keys_of (foldl (foldl (merge_slot cmp)) slots dss)) ∧
    untouched (cmp := cmp) base (foldl (foldl (merge_slot cmp)) slots dss)) as Hgen.
  { induction dss as [|ds dss IH]; intros slots Hss Hu; [done|]. cbn [foldl].
    destruct (merge_all base slots ds Hss Hu). by apply IH. }
  apply Hgen; [done|]. intros k. destruct (abs_find _ k); by auto.
Qed.

Lemma apply_deltas_spec b slots dbytes dss :
  bin_rep b slots → key_sorted cmp (keys_of slots) → mode_ok kc prefixing b →
  Forall2 (λ bytes is_, parse_delta_entries bytes = Some is_ ∧ Forall (λ i, in_u 64 (image_lsn i)) is_)
    dbytes dss →
  ∃ b', apply_deltas kc prefixing b dbytes = Some (Some b') ∧ log_frame b b' ∧ mode_ok kc prefixing b' ∧
    bin_rep b' (merged slots dss).
Proof.
  intros Hb Hs Hm Hd. revert b slots Hb Hs Hm.
  induction Hd as [|bytes is_ dbytes dss [Hp Hl] Hd IH]; intros b slots Hb Hs Hm;
    [exists b; by auto using log_frame_refl|].
  cbn [apply_deltas]. rewrite Hp.
  destruct (merge_images_spec b slots is_ Hb Hs Hm Hl) as (b1 & -> & Hf1 & Hm1 & Hb1).
  cbn [mbind option_bind]. destruct (IH b1 (foldl (merge_slot cmp) slots is_)) as (b2 & ? & ? & ? & ?);
    [done|apply (merge_all slots slots is_ Hs); intros k; destruct (abs_find _ k); by auto|done|].
  exists b2. split_and!; [done|by eapply log_frame_trans|done|done].
Qed.

(** ** What the log stores for a BIN *)

(** A full image of the node [id] at [lsn], with the slots [slots]. *)
Definition full_at (lg : log) (id lsn : Z) (slots : list slot) : Prop :=
  ∃ payload e ks ls,
    lg !! lsn = Some (BIN, payload) ∧ read_from_log payload = Some e ∧
    deserialize_full (node_data e) =
      Some (Some (with_slots (loaded_bin id) [] (slot_entry <$> slots) ks ls)) ∧
    bin_rep (with_slots (loaded_bin id) [] (slot_entry <$> slots) ks ls) slots ∧
    key_sorted cmp (keys_of slots) ∧ Forall (λ s, e_dirty (slot_entry s) = false) slots.

(** The deltas from [lsn] down to the full image at [base], oldest first. *)
Inductive deltas_at (lg : log) (base : Z) : Z → list (list Z) → list (list image) → Prop :=
| deltas_first lsn payload e is_ :
    lg !! lsn = Some (BINDelta, payload) → read_from_log payload = Some e →
    prev_delta_lsn e = NULL_LSN → prev_full_lsn e = base →
    parse_delta_entries (node_data e) = Some is_ → Forall (λ i, in_u 64 (image_lsn i)) is_ →
    deltas_at lg base lsn [node_data e] [is_]
| deltas_next lsn payload e is_ dbytes dss :
    lg !! lsn = Some (BINDelta, payload) → read_from_log payload = Some e →
    prev_delta_lsn e < lsn → prev_delta_lsn e ≠ NULL_LSN →
    parse_delta_entries (node_data e) = Some is_ → Forall (λ i, in_u 64 (image_lsn i)) is_ →
    deltas_at lg base (prev_delta_lsn e) dbytes dss →
    deltas_at lg base lsn (dbytes ++ [node_data e]) (dss ++ [is_]).

(** The version of the BIN at [lsn], over the full image at [base], is [slots]. *)
Definition stored (lg : log) (id base lsn : Z) (slots0 slots : list slot) : Prop :=
  base ≠ NULL_LSN ∧ lsn ≠ NULL_LSN ∧ full_at lg id base slots0 ∧
  (lsn = base ∧ slots = slots0 ∨
   ∃ dbytes dss, deltas_at lg base lsn dbytes dss ∧ slots = merged slots0 dss).

Lemma deltas_at_parsed lg base lsn dbytes dss :
  deltas_at lg base lsn dbytes dss →
  Forall2 (λ bytes is_, parse_delta_entries bytes = Some is_ ∧ Forall (λ i, in_u 64 (image_lsn i)) is_)
    dbytes dss.
Proof. induction 1; [by repeat constructor|]. apply Forall2_app; [done|by repeat constructor]. Qed.

(** The LSNs of the log up to one. *)
Definition up_to (lg : log) (lsn : Z) : gset Z := filter (λ l : Z, l ≤ lsn) (dom lg).

(** A chain is no longer than the log. *)
Lemma deltas_at_length lg base lsn dbytes dss :
  deltas_at lg base lsn dbytes dss →
  (length dbytes ≤ size (up_to lg lsn))%nat.
Proof.
  unfold up_to.
  induction 1 as [lsn payload e is_ He|lsn payload e is_ dbytes dss He _ Hlt _ _ _ _ IH].
  - simpl. assert (lsn ∈ filter (λ l : Z, l ≤ lsn) (dom lg)) as Hin.
    { apply elem_of_filter. split; [lia|]. by apply elem_of_dom. }
    destruct (decide (size (up_to lg lsn) = 0%nat)) as [E|E]; unfold up_to in E; [|lia].
    apply size_empty_inv in E. set_solver.
  - rewrite length_app. simpl.
    assert (filter (λ l : Z, l ≤ prev_delta_lsn e) (dom lg) ⊂ filter (λ l : Z, l ≤ lsn) (dom lg)) as Hsub.
    { split; [intros l; rewrite !elem_of_filter; naive_solver lia|].
      intros Hs. specialize (Hs lsn). rewrite !elem_of_filter in Hs.
      destruct Hs as [Hs _]; [split; [lia|by apply elem_of_dom]|]. lia. }
    apply subset_size in Hsub. lia.
Qed.

Lemma delta_chain_spec lg base lsn dbytes dss :
  deltas_at lg base lsn dbytes dss → ∀ fuel newer,
  (length dbytes ≤ fuel)%nat →
  ∃ payload e, lg !! lsn = Some (BINDelta, payload) ∧ read_from_log payload = Some e ∧
    delta_chain lg fuel newer lsn e = Some (Some (newer ++ reverse dbytes, base)).
Proof.
  induction 1 as [lsn payload e is_ He Hr Hn Hb _ _|lsn payload e is_ dbytes dss He Hr Hlt Hnn _ _ _ IH];
    intros fuel newer Hf.
  - exists payload, e. split_and!; [done..|]. destruct fuel as [|fuel]; [simpl in Hf; lia|].
    cbn [delta_chain]. by rewrite Hn, Hb.
  - exists payload, e. split_and!; [done..|]. rewrite length_app in Hf. simpl in Hf.
    destruct fuel as [|fuel]; [lia|]. cbn [delta_chain]. rewrite (proj2 (Z.eqb_neq _ _) Hnn).
    rewrite (proj2 (Z.eqb_neq _ _)) by lia.
    destruct (IH fuel (newer ++ [node_data e]) ltac:(lia)) as (payload' & e' & -> & -> & ->).
    by rewrite reverse_app, <-app_assoc.
Qed.

(** A BIN just read: clean, full, on the base it was read from. *)
Record fetched (id base : Z) (b : BinStub) : Prop := {
  fe_id : bin_node_id b = id;
  fe_mode : mode_ok kc prefixing b;
  fe_full : bin_last_full_lsn b = base;
  fe_delta : last_delta_lsn b = NULL_LSN;
  fe_embed : max_embedded_ln b = TREE_MAX_EMBEDDED_LN_DEFAULT;
  fe_dirty : bin_dirty b = false;
  fe_cursors : cursor_count b = 0;
}.

Lemma recompute_unprefixed b b' :
  recompute_key_prefix b = Some b' → key_prefixing b = false → key_prefix b' = [].
Proof.
  unfold recompute_key_prefix, apply_new_prefix, compute_key_prefix. intros H E. rewrite E in H. simpl in H.
  destruct (set_suffixes _ _ _ _) as [ks1|]; [|done]. cbn [mbind option_bind] in H.
  destruct (KeyRep_compact _ _) as [ks2|]; [|done]. by injection H as <-.
Qed.

(** The last steps of both arms: stamp the state, recompute the prefix. *)
Lemma finish_fetch b slots id base :
  bin_rep b slots → bin_node_id b = id → is_delta b = false → bin_last_full_lsn b = base →
  last_delta_lsn b = NULL_LSN → max_embedded_ln b = TREE_MAX_EMBEDDED_LN_DEFAULT →
  bin_dirty b = false → cursor_count b = 0 → key_prefixing b = prefixing →
  ∃ b', recompute_key_prefix b = Some b' ∧ fetched id base b' ∧ bin_rep b' slots.
Proof.
  intros Hb H1 H2 H3 H4 H5 H6 H7 H8.
  destruct (recompute_key_prefix_spec b slots Hb) as (b' & Hr & Hk & Hb'). exists b'.
  split_and!; [done| |done]. pose proof (recompute_unprefixed _ _ Hr) as Hp.
  destruct Hk as (p & ks & ->). split; try done. split; [done|]. intros -> _. by apply Hp.
Qed.

Lemma bin_rep_with_prefixing b slots p : bin_rep b slots → bin_rep (with_prefixing b p) slots.
Proof. intros []. by split. Qed.

Lemma bin_rep_with_is_delta b slots d : bin_rep b slots → bin_rep (with_is_delta b d) slots.
Proof. intros []. by split. Qed.

Lemma fetch_stored {Child} lg id base lsn slots0 slots :
  stored lg id base lsn slots0 slots →
  ∃ b, fetch_node_from_log (Child := Child) kc prefixing lg lsn = Some (Some (Bottom b)) ∧
    fetched id base b ∧ bin_rep b slots.
Proof.
  intros (Hbase & Hlsn & (payload & e & ks & ls & Hlg & Hr & Hd & Hb0 & Hs0 & _) & Hcase).
  unfold fetch_node_from_log. rewrite (proj2 (Z.eqb_neq _ _) Hlsn).
  destruct Hcase as [[-> ->]|(dbytes & dss & Hds & ->)].
  - rewrite Hlg, Hr. unfold deserialize_bin. rewrite Hd. cbn [may_bind].
    set (b0 := with_slots (loaded_bin id) _ _ ks ls) in *.
    destruct (finish_fetch (with_prefixing (with_state (with_state b0 false NULL_LSN NULL_LSN false)
        false base NULL_LSN false) prefixing) slots0 id base) as (b & Hrec & Hf & Hb);
      [by apply bin_rep_with_prefixing, bin_rep_with_state, bin_rep_with_state|done..|].
    exists b. split; [|done]. simpl in Hrec |- *. by rewrite Hrec.
  - pose proof (deltas_at_length _ _ _ _ _ Hds) as Hlen.
    assert (length dbytes ≤ S (size lg))%nat as Hfuel.
    { transitivity (size (up_to lg lsn)); [done|]. rewrite <-size_dom.
      transitivity (size (dom lg)); [|lia]. apply subseteq_size. unfold up_to. set_solver. }
    destruct (delta_chain_spec _ _ _ _ _ Hds (S (size lg)) [] Hfuel) as (p & e' & -> & -> & Hchain).
    unfold fetch_delta. rewrite Hchain. cbn [may_bind app]. rewrite (proj2 (Z.eqb_neq _ _) Hbase), Hlg.
    cbn [negb]. rewrite bool_decide_true by done. cbn [negb]. rewrite Hr, Hd. cbn [may_bind].
    set (b0 := with_slots (loaded_bin id) _ _ ks ls) in *.
    rewrite bool_decide_true by done. cbn [mbind option_bind]. rewrite reverse_involutive.
    destruct (apply_deltas_spec (with_prefixing b0 prefixing) slots0 dbytes dss) as (b1 & -> & Hf1 & Hm1 & Hb1);
      [by apply bin_rep_with_prefixing|done|done|by eapply deltas_at_parsed|]. cbn [may_bind].
    destruct Hf1 as [Fi Fd Ff Fl Fe Fp Fc _ _].
    destruct (finish_fetch (with_state (with_is_delta b1 false) false base (last_delta_lsn b1)
       (prohibit_next_delta b1)) (merged slots0 dss) id base) as (b & Hrec & Hf & Hb);
      [by apply bin_rep_with_state, bin_rep_with_is_delta|done..|].
    exists b. split; [|done]. simpl in Hrec |- *. by rewrite Hrec.
Qed.

(** ** The log only grows *)

Lemma full_at_mono lg lg' id lsn slots : lg ⊆ lg' → full_at lg id lsn slots → full_at lg' id lsn slots.
Proof.
  intros Hsub (payload & e & ks & ls & Hlg & Hrest). exists payload, e, ks, ls.
  split; [by eapply lookup_weaken|done].
Qed.

Lemma deltas_at_mono lg lg' base lsn dbytes dss :
  lg ⊆ lg' → deltas_at lg base lsn dbytes dss → deltas_at lg' base lsn dbytes dss.
Proof.
  intros Hsub. induction 1; [eapply deltas_first|eapply deltas_next]; eauto using lookup_weaken.
Qed.

Lemma stored_mono lg lg' id base lsn slots0 slots :
  lg ⊆ lg' → stored lg id base lsn slots0 slots → stored lg' id base lsn slots0 slots.
Proof.
  intros Hsub (H1 & H2 & H3 & Hcase). split_and!; [done|done|by eapply full_at_mono|].
  destruct Hcase as [?|(dbytes & dss & Hd & ->)]; [by left|right].
  exists dbytes, dss. split; [by eapply deltas_at_mono|done].
Qed.
End fetch.

(** ** Equal contents, equal lists *)

Section same.
Context `{KeyOrder cmp}.
Abbreviation image_lt := (λ a b : image, cmp (image_key a) (image_key b) = Lt).

Lemma sorted_images_unique (l1 l2 : list image) :
  StronglySorted image_lt l1 → StronglySorted image_lt l2 → (∀ x, x ∈ l1 ↔ x ∈ l2) → l1 = l2.
Proof.
  intros H1 H2 Hm.
  assert (∀ l, StronglySorted image_lt l → NoDup l) as Hnd.
  { induction 1 as [|x l Hs IH Hx]; constructor; [|done]. intros Hin.
    specialize (proj1 (Forall_forall _ _) Hx x Hin) as Hlt. simpl in Hlt. by rewrite cmp_refl in Hlt. }
  apply (StronglySorted_unique_strong image_lt); [|done|done|by apply NoDup_Permutation; auto].
  intros x y _ _ Hxy Hyx. rewrite cmp_antisym, Hxy in Hyx. done.
Qed.

Lemma sorted_images (f : slot → image) slots :
  (∀ s, image_key (f s) = slot_key s) → key_sorted cmp (keys_of slots) →
  StronglySorted image_lt (f <$> slots).
Proof.
  intros Hf. induction slots as [|s slots IH]; intros Hs; [constructor|].
  rewrite fmap_cons in *. apply StronglySorted_inv in Hs as [Hs Hx]. constructor; [by apply IH|].
  apply Forall_fmap. apply Forall_fmap in Hx. eapply Forall_impl; [exact Hx|]. intros t Ht. simpl in *.
  by rewrite !Hf.
Qed.

Lemma images_eq m (l1 l2 : list slot) :
  key_sorted cmp (keys_of l1) → key_sorted cmp (keys_of l2) →
  (∀ k, find_img cmp l1 k = image_of m <$> abs_find (cmp := cmp) l2 k) →
  slot_img <$> l1 = image_of m <$> l2.
Proof.
  intros H1 H2 Hf. apply sorted_images_unique; [by apply sorted_images..|].
  assert (∀ (f : slot → image) l x, (∀ s, image_key (f s) = slot_key s) → key_sorted cmp (keys_of l) →
    (x ∈ f <$> l ↔ f <$> abs_find (cmp := cmp) l (image_key x) = Some x)) as Hin.
  { intros f l x Hk Hs. rewrite list_elem_of_fmap, fmap_Some. split.
    - intros (s & -> & Hs'). exists s. split; [|done]. apply abs_find_iff; [done|]. rewrite Hk.
      split; [done|apply cmp_refl].
    - intros (s & Hfs & ->). apply abs_find_iff in Hfs as [? _]; [|done]. by exists s. }
  intros x. rewrite !Hin by done. unfold find_img in Hf. by rewrite Hf.
Qed.
End same.

(** ** Sizes *)

(** An upper bound of the bytes a slot takes in an image. *)
Definition slot_weight (k : key) (d : option (list Z)) : Z :=
  26 + Z.of_nat (length k) + Z.of_nat (length (default [] d)).
Fixpoint weight (slots : list slot) : Z :=
  match slots with
  | [] => 0
  | s :: slots => slot_weight (slot_key s) (data (slot_entry s)) + weight slots
  end.

Lemma weight_nonneg slots : 0 ≤ weight slots.
Proof. induction slots; simpl; unfold slot_weight; lia. Qed.

Lemma weight_app l1 l2 : weight (l1 ++ l2) = weight l1 + weight l2.
Proof. induction l1 as [|s l1 IH]; simpl; [lia|]. rewrite IH. lia. Qed.

Lemma weight_elem slots s : s ∈ slots → slot_weight (slot_key s) (data (slot_entry s)) ≤ weight slots.
Proof.
  induction 1 as [s slots|s t slots Hs IH]; simpl.
  - pose proof (weight_nonneg slots). lia.
  - unfold slot_weight in *. lia.
Qed.

Lemma weight_length slots : Z.of_nat (length slots) ≤ weight slots.
Proof. induction slots; simpl; unfold slot_weight; lia. Qed.

Lemma weight_take_drop slots i : weight (take i slots) + weight (drop i slots) = weight slots.
Proof. by rewrite <-weight_app, take_drop. Qed.

Lemma weight_filter (P : slot → Prop) `{!∀ s, Decision (P s)} slots :
  weight (filter P slots) ≤ weight slots.
Proof.
  induction slots as [|s slots IH]; [done|]. rewrite filter_cons.
  pose proof (weight_nonneg slots). destruct (decide (P s)); simpl; unfold slot_weight in *; lia.
Qed.

Lemma weight_replace slots i s k lsn e :
  slots !! i = Some s →
  weight (<[i := (k, lsn, e)]> slots) ≤
    weight slots - slot_weight (slot_key s) (data (slot_entry s)) + slot_weight k (data e).
Proof.
  intros Hi. rewrite <-(take_drop_middle _ _ _ Hi) at 2.
  rewrite insert_take_drop by (by eapply lookup_lt_Some). rewrite !weight_app. simpl. lia.
Qed.

Lemma weight_insert cmp slots k lsn d :
  weight (abs_insert cmp slots k lsn d).1 ≤ weight slots + slot_weight k d.
Proof.
  unfold abs_insert. destruct (ref_search _ _) as [i|i].
  - destruct (slots !! i) as [s|] eqn:Hi; cbn [fst].
    + pose proof (weight_replace slots i s k lsn (reused_entry (slot_entry s) d) Hi) as Hw.
      unfold slot_weight in *. simpl in *. lia.
    + unfold slot_weight. lia.
  - cbn [fst]. rewrite weight_app. simpl. pose proof (weight_take_drop slots i). lia.
Qed.

Lemma weight_delete cmp slots k : weight (abs_delete cmp slots k).1 ≤ weight slots.
Proof.
  unfold abs_delete. destruct (ref_search _ _) as [i|i]; cbn [fst]; [|lia].
  rewrite delete_take_drop, weight_app. destruct (slots !! i) as [s|] eqn:Hi.
  - rewrite <-(take_drop_middle _ _ _ Hi) at 3. rewrite weight_app. simpl. unfold slot_weight. lia.
  - apply lookup_ge_None in Hi. rewrite (drop_ge slots (S i)), take_ge by lia. simpl. lia.
Qed.

Lemma weight_mark cmp slots k lsn pending : weight (abs_mark cmp slots k lsn pending).1 ≤ weight slots.
Proof.
  unfold abs_mark. destruct (ref_search _ _) as [i|i]; cbn [fst]; [|lia].
  destruct (slots !! i) as [s|] eqn:Hi; [|simpl; lia]. destruct (is_deleted _); [simpl; lia|]. cbn [fst].
  pose proof (weight_replace slots i s (slot_key s) lsn (marked_entry pending (slot_entry s)) Hi).
  unfold slot_weight in *. simpl in *. lia.
Qed.

Lemma length_slot_bytes m s :
  Z.of_nat (length (slot_bytes m s)) + 4 ≤ slot_weight (slot_key s) (data (slot_entry s)).
Proof.
  unfold slot_bytes, slot_weight. rewrite !length_app, !length_be_bytes. unfold data_image.
  destruct (data (slot_entry s)) as [d|]; [destruct (_ <=? m)|]; simpl length;
    rewrite ?length_app, ?length_be_bytes; simpl; lia.
Qed.

Lemma length_full_body m slots : Z.of_nat (length (concat (slot_bytes m <$> slots))) ≤ weight slots.
Proof.
  induction slots as [|s slots IH]; [done|]. rewrite fmap_cons. cbn [concat weight]. rewrite length_app.
  pose proof (length_slot_bytes m s). lia.
Qed.

Lemma length_delta_body m slots imgs :
  Forall2 (λ img s, ∃ i, img = be_bytes 4 i ++ slot_bytes m s) imgs slots →
  Z.of_nat (length (concat imgs)) ≤ weight slots.
Proof.
  induction 1 as [|img s imgs slots [i ->] Hi IH]; [done|]. cbn [concat weight].
  rewrite !length_app, length_be_bytes. pose proof (length_slot_bytes m s). lia.
Qed.

(** ** A BIN beside its log *)

Record durable_bin := {
  d_log : log;
  d_bin : BinStub;
  d_seed : Z; (* the LSN of the BIN in its parent *)
}.

(** Updates, checkpoints, and evictions followed by a re-fetch; [lsn] is the
    LSN at which an entry is written, if one is. *)
Inductive durable_op :=
| DUpdate (op : bin_op)
| DCheckpoint (lsn : Z)
| DRefetch (lsn : Z).

Section durable.
Context (kc : option (key → key → comparison)) (prefixing : bool) `{!KeyOrder (order_of kc)}.
Context (db : Z) (allow_bin_deltas : bool) (bin_delta_percent : Z).
Abbreviation cmp := (order_of kc).

Definition durable_step (s : durable_bin) (op : durable_op) : option (durable_bin * bool) :=
  match op with
  | DUpdate op =>
      '(b, out) ← bin_step kc prefixing (d_bin s) op;
      Some ({| d_log := d_log s; d_bin := b; d_seed := d_seed s |}, out)
  | DCheckpoint lsn =>
      '(lg, b, seed, _) ← checkpoint_bin db allow_bin_deltas bin_delta_percent (d_log s) lsn (d_bin s);
      Some ({| d_log := lg; d_bin := b; d_seed := default (d_seed s) seed |}, true)
  | DRefetch lsn =>
      '(lg, b, seed, detach) ← evict_flush db (d_log s) lsn (d_bin s);
      let seed := default (d_seed s) seed in
      if detach : bool then
        node ← fetch_node_from_log (Child := unit) kc prefixing lg seed;
        match node with
        | Some (Bottom b) => Some ({| d_log := lg; d_bin := b; d_seed := seed |}, true)
        | _ => None
        end
      else Some ({| d_log := lg; d_bin := b; d_seed := seed |}, false)
  end.

(** The abstract BIN: its records, the longest data an image embeds, the
    highest LSN of its log, and a bound on its size. *)
Record abs_bin := {
  a_map : key → option record;
  a_embed : Z;
  a_last : Z;
  a_bytes : Z;
}.

Definition restrict (m : Z) (r : record) : record :=
  let '(lsn, d, kd, pd) := r in (lsn, embedded_data m d, kd, pd).

Definition abs_durable_step (a : abs_bin) (op : durable_op) : option (abs_bin * bool) :=
  let fresh lsn := (a_last a <? lsn) && (lsn <? NULL_LSN) in
  match op with
  | DUpdate op =>
      '(m, out) ← map_step cmp (a_map a) op;
      let n := match op with BPut k _ d => a_bytes a + slot_weight k (Some d) | _ => a_bytes a end in
      if n + 12 <? 2 ^ 32
      then Some ({| a_map := m; a_embed := a_embed a; a_last := a_last a; a_bytes := n |}, out)
      else None
  | DCheckpoint lsn =>
      if fresh lsn
      then Some ({| a_map := a_map a; a_embed := a_embed a; a_last := lsn; a_bytes := a_bytes a |}, true)
      else None
  | DRefetch lsn =>
      if fresh lsn
      then Some ({| a_map := λ k, restrict (a_embed a) <$> a_map a k;
                    a_embed := TREE_MAX_EMBEDDED_LN_DEFAULT; a_last := lsn; a_bytes := a_bytes a |}, true)
      else None
  end.

(** The slots that are not dirty are those of the version [last] that the next
    delta builds on. *)
Definition agrees (m : Z) (slots last : list slot) : Prop :=
  ∀ k, match abs_find (cmp := cmp) slots k with
       | Some s => e_dirty (slot_entry s) = true ∨ find_img cmp last k = Some (image_of m s)
       | None => find_img cmp last k = None
       end.

Definition clean (b : BinStub) : bool := negb (bin_dirty b) && (dirty_count b =? 0)%nat.

(** The version that the node's own LSNs name. *)
Definition tracked (lg : log) (id : Z) (b : BinStub) (slots0 last : list slot) : Prop :=
  stored kc lg id (bin_last_full_lsn b)
    (if last_delta_lsn b =? NULL_LSN then bin_last_full_lsn b else last_delta_lsn b) slots0 last ∧
  (last_delta_lsn b = NULL_LSN → last = slots0) ∧
  (last_delta_lsn b ≠ NULL_LSN → ∃ dbytes dss,
     deltas_at lg (bin_last_full_lsn b) (last_delta_lsn b) dbytes dss ∧ last = merged kc slots0 dss).

Record bin_ok (id : Z) (a : abs_bin) (b : BinStub) (slots : list slot) : Prop := {
  ok_mode : mode_ok kc prefixing b;
  ok_rep : bin_rep b slots;
  ok_sorted : key_sorted cmp (keys_of slots);
  ok_map : ∀ k, a_map a k = slot_record <$> abs_find (cmp := cmp) slots k;
  ok_id : bin_node_id b = id;
  ok_embed : max_embedded_ln b = a_embed a;
  ok_embed_max : a_embed a ≤ TREE_MAX_EMBEDDED_LN_DEFAULT;
  ok_cursors : cursor_count b = 0;
  ok_lsns : Forall (λ s, in_u 64 (slot_lsn s)) slots;
  ok_weight : weight slots ≤ a_bytes a;
  ok_bytes : a_bytes a + 12 < 2 ^ 32;
}.

Record log_ok (id : Z) (a : abs_bin) (lg : log) (b : BinStub) (seed : Z) (slots : list slot) : Prop := {
  lo_last : ∀ l x, lg !! l = Some x → 0 ≤ l ≤ a_last a;
  lo_top : -1 ≤ a_last a < NULL_LSN;
  lo_never : bin_last_full_lsn b = NULL_LSN → bin_dirty b = true ∧ last_delta_lsn b = NULL_LSN;
  lo_seed : bin_last_full_lsn b ≠ NULL_LSN → ∃ base slots0 last,
    stored kc lg id base seed slots0 last ∧
    (clean b = true → slot_img <$> last = image_of (a_embed a) <$> slots);
  lo_track : bin_last_full_lsn b ≠ NULL_LSN → ∃ slots0 last,
    tracked lg id b slots0 last ∧ (prohibit_next_delta b = true ∨ agrees (a_embed a) slots last);
}.

Definition durable (id : Z) (s : durable_bin) (a : abs_bin) : Prop :=
  ∃ slots, bin_ok id a (d_bin s) slots ∧ log_ok id a (d_log s) (d_bin s) (d_seed s) slots.

Lemma slots_fit id a b slots : bin_ok id a b slots → Forall slot_fits slots.
Proof.
  intros Hok. apply Forall_forall. intros s Hs. split.
  - pose proof (weight_elem slots s Hs). pose proof (ok_weight _ _ _ _ Hok).
    pose proof (ok_bytes _ _ _ _ Hok). unfold slot_weight in *. lia.
  - by apply (proj1 (Forall_forall _ _) (ok_lsns _ _ _ _ Hok)).
Qed.

Lemma slots_count id a b slots : bin_ok id a b slots → Z.of_nat (length slots) < 2 ^ 32.
Proof. intros []. pose proof (weight_length slots). lia. Qed.

Lemma clean_spec b slots :
  bin_rep b slots → clean b = true →
  bin_dirty b = false ∧ Forall (λ s, e_dirty (slot_entry s) = false) slots.
Proof.
  intros Hb Hc. unfold clean in Hc. reflect_bools. split; [done|]. apply Forall_forall. intros s Hs.
  destruct (e_dirty (slot_entry s)) eqn:E; [|done]. exfalso.
  unfold dirty_count in H0. rewrite (br_entries _ _ Hb) in H0. apply length_zero_iff_nil in H0.
  assert (slot_entry s ∈ filter e_dirty (slot_entry <$> slots)) as Hin.
  { apply list_elem_of_filter. split; [by rewrite E|]. apply list_elem_of_fmap. by exists s. }
  rewrite H0 in Hin. by apply elem_of_nil in Hin.
Qed.

(** *** Updates *)

Lemma slots_step_lsns slots op m m' out :
  key_sorted cmp (keys_of slots) → map_step cmp m op = Some (m', out) →
  Forall (λ s : slot, in_u 64 (slot_lsn s)) slots →
  Forall (λ s : slot, in_u 64 (slot_lsn s)) (slots_step kc slots op).
Proof.
  intros Hs Hop Hl. rewrite Forall_forall in *.
  destruct op as [k lsn d|k|k lsn pending|is_locked]; cbn [slots_step]; simpl in Hop.
  - destruct ((0 <=? lsn) && (lsn <? 2 ^ 64)) eqn:E; [|done]. reflect_bools.
    intros s [[? _]| ->]%(proj2 (abs_insert_spec slots k lsn (Some d) Hs)); [by apply Hl|done].
  - intros s [? _]%(proj2 (abs_delete_spec slots k Hs)). by apply Hl.
  - destruct ((0 <=? lsn) && (lsn <? 2 ^ 64)) eqn:E; [|done]. reflect_bools. unfold abs_mark.
    destruct (ref_search _ _) as [i|i]; [|done]. destruct (slots !! i) as [t|] eqn:Hi; [|done].
    destruct (is_deleted _); [done|]. cbn [fst].
    apply Forall_forall, Forall_insert; [by apply Forall_forall|done].
  - intros s [_ ?]%list_elem_of_filter. by apply Hl.
Qed.

Lemma slots_step_weight slots op :
  weight (slots_step kc slots op) ≤
  weight slots + match op with BPut k _ d => slot_weight k (Some d) | _ => 0 end.
Proof.
  destruct op; cbn [slots_step].
  - apply weight_insert.
  - pose proof (weight_delete cmp slots k). lia.
  - pose proof (weight_mark cmp slots k lsn pending). lia.
  - pose proof (weight_filter (drain_keeps is_locked) slots). lia.
Qed.

(** Insertions and marks leave dirty slots, and the others as they were. *)
Lemma slots_step_agrees m slots last op :
  key_sorted cmp (keys_of slots) → removes op = false → agrees m slots last →
  agrees m (slots_step kc slots op) last.
Proof.
  intros Hs Hr Ha k'. specialize (Ha k').
  destruct op as [k lsn d|k|k lsn pending|is_locked]; try done; cbn [slots_step].
  - rewrite abs_find_insert by done. destruct (order_of kc k k') eqn:E; [left|done..].
    by destruct (abs_find (cmp := cmp) slots k).
  - rewrite (proj2 (abs_mark_spec slots k lsn pending k' Hs)).
    destruct (order_of kc k k') eqn:E; [|done..].
    rewrite (abs_find_cmp_eq slots k k' Hs E) in Ha |- *.
    destruct (abs_find (cmp := cmp) slots k) as [s|]; [|done].
    destruct (is_deleted (slot_entry s)); [done|by left].
Qed.

Lemma same_slots_clean b b' slots :
  bin_rep b slots → bin_rep b' slots → bin_dirty b = false → clean b' = true → clean b = true.
Proof.
  intros Hb Hb' Hd Hc. unfold clean, dirty_count in *. rewrite (br_entries _ _ Hb), Hd.
  rewrite (br_entries _ _ Hb') in Hc. by destruct (bin_dirty b').
Qed.

Lemma update_ok id s a op a' out :
  durable id s a → abs_durable_step a (DUpdate op) = Some (a', out) →
  ∃ s', durable_step s (DUpdate op) = Some (s', out) ∧ durable id s' a'.
Proof.
  intros (slots & Hok & Hlo) Hst. cbn [abs_durable_step] in Hst.
  destruct (map_step cmp (a_map a) op) as [[m' o]|] eqn:Hop; [|done]. cbn [mbind option_bind] in Hst.
  set (n := match op with BPut k _ d => _ | _ => _ end) in *.
  destruct (n + 12 <? 2 ^ 32) eqn:Hn; [|done]. injection Hst as <- <-. reflect_bools.
  pose proof Hok as [Hmode Hb Hs Hm Hid Hem Hemx Hcu Hls Hw Hby].
  destruct (bin_step_slots kc prefixing (d_bin s) slots (a_map a) op m' o Hmode Hb Hs Hm Hop)
    as (b' & Hstep & Hf & Hdirty & Hrem & Hmode' & Hb').
  destruct (slots_step_spec kc slots op Hs) as [Hs' Hrec].
  pose proof (slots_step_weight slots op) as Hw'.
  eexists; split; [cbn [durable_step]; by rewrite Hstep|].
  exists (slots_step kc slots op). cbn [d_log d_bin d_seed]. split.
  { split; simpl; try done.
    - intros k. rewrite Hrec, <-Hm. unfold map_step in Hop. destruct op; try destruct (_ && _); by simplify_eq.
    - by rewrite (lf_id _ _ Hf).
    - by rewrite (lf_embed _ _ Hf).
    - by rewrite (lf_cursors _ _ Hf).
    - by eapply slots_step_lsns.
    - unfold n. destruct op; lia. }
  destruct Hlo as [L1 L2 L3 L4 L5]. split; simpl; try done.
  - intros Hnf. rewrite (lf_full _ _ Hf) in Hnf. destruct (L3 Hnf).
    rewrite (lf_last_delta _ _ Hf). split; [by apply (lf_dirty _ _ Hf)|done].
  - rewrite (lf_full _ _ Hf). intros Hnf. destruct (L4 Hnf) as (base & slots0 & last & Hst & Hcl).
    exists base, slots0, last. split; [done|]. intros Hc.
    pose proof (clean_spec _ _ Hb' Hc) as [Hd' _]. destruct Hdirty as [?|Hsame]; [congruence|].
    rewrite Hsame in *. apply Hcl. eapply same_slots_clean; [done|exact Hb'| |done].
    destruct (bin_dirty (d_bin s)) eqn:E; [|done]. rewrite (lf_dirty _ _ Hf E) in Hd'. done.
  - rewrite (lf_full _ _ Hf). intros Hnf. destruct (L5 Hnf) as (slots0 & last & Htr & Hag).
    exists slots0, last. split.
    { unfold tracked in *. by rewrite (lf_full _ _ Hf), (lf_last_delta _ _ Hf). }
    destruct (prohibit_next_delta b') eqn:Ep; [by left|right].
    destruct Hag as [Hp|Hag]; [by rewrite (lf_prohibit _ _ Hf Hp) in Ep|].
    destruct (removes op) eqn:Er.
    + destruct (Hrem eq_refl) as [[? _]| ->]; [congruence|done].
    + by apply slots_step_agrees.
Qed.

(** *** Writing *)

(** Slots rewritten without moving them. *)
Lemma keys_of_fmap (f : slot → slot) (slots : list slot) :
  (∀ s, slot_key (f s) = slot_key s) → keys_of (f <$> slots) = keys_of slots.
Proof. intros Hf. rewrite <-list_fmap_compose. apply list_fmap_ext. intros i s _. apply Hf. Qed.

Lemma abs_find_fmap (f : slot → slot) slots k :
  (∀ s, slot_key (f s) = slot_key s) →
  abs_find (cmp := cmp) (f <$> slots) k = f <$> abs_find (cmp := cmp) slots k.
Proof.
  intros Hf. unfold abs_find. rewrite keys_of_fmap by done.
  destruct (ref_search _ _) as [i|i]; [|done]. apply list_lookup_fmap.
Qed.

Definition cleared (s : slot) : slot := (slot_key s, slot_lsn s, clear_dirty (slot_entry s)).
Definition restored (m : Z) (s : slot) : slot := image_slot (image_of m s).

Lemma weight_fmap (f : slot → slot) slots :
  (∀ s, slot_key (f s) = slot_key s) →
  (∀ s, length (default [] (data (slot_entry (f s)))) ≤ length (default [] (data (slot_entry s))))%nat →
  weight (f <$> slots) ≤ weight slots.
Proof.
  intros Hk Hd. induction slots as [|s slots IH]; [done|]. rewrite fmap_cons. cbn [weight].
  specialize (Hd s). unfold slot_weight. rewrite Hk. lia.
Qed.

(** After a write: the same records, nothing dirty. *)
Lemma cleared_ok id a b slots lsn full delta p :
  bin_ok id a b slots →
  bin_ok id {| a_map := a_map a; a_embed := a_embed a; a_last := lsn; a_bytes := a_bytes a |}
    (with_state (with_entries b (clear_dirty <$> bin_entries b)) false full delta p) (cleared <$> slots).
Proof.
  intros [Hmode Hb Hs Hm Hid Hem Hemx Hcu Hls Hw Hby]. split; try done.
  - apply bin_rep_with_state. destruct Hb as [Hp Hk He Hl Hc]. split; simpl.
    + by apply Forall_fmap.
    + by rewrite <-list_fmap_compose.
    + by rewrite He, <-!list_fmap_compose.
    + by rewrite <-list_fmap_compose.
    + done.
  - by rewrite keys_of_fmap.
  - intros k. cbn [a_map]. rewrite abs_find_fmap by done. rewrite Hm.
    by destruct (abs_find (cmp := cmp) slots k).
  - by apply Forall_fmap.
  - cbn [a_bytes]. etransitivity; [|exact Hw]. by apply weight_fmap.
Qed.

Lemma cleared_clean b full delta p :
  clean (with_state (with_entries b (clear_dirty <$> bin_entries b)) false full delta p) = true.
Proof.
  unfold clean, dirty_count. simpl. apply Nat.eqb_eq.
  induction (bin_entries b) as [|e es IH]; [done|].
  rewrite fmap_cons, filter_cons. by rewrite decide_False by (by intros []).
Qed.

Lemma written_lsn id a lg b seed slots :
  log_ok id a lg b seed slots → in_u 64 (bin_last_full_lsn b) ∧ in_u 64 (last_delta_lsn b).
Proof.
  intros [L1 L2 L3 L4 L5]. assert (in_u 64 NULL_LSN) as Hnull by done.
  assert (∀ l x, lg !! l = Some x → in_u 64 l) as Hin.
  { intros l x Hl. apply L1 in Hl. unfold in_u, NULL_LSN in *. lia. }
  destruct (decide (bin_last_full_lsn b = NULL_LSN)) as [E|E].
  { destruct (L3 E) as [_ ->]. by rewrite E. }
  destruct (L5 E) as (slots0 & last & ((_ & _ & (payload & e & ks & ls & Hl & _) & _) & _ & Hds) & _).
  split; [by eapply Hin|]. destruct (decide (last_delta_lsn b = NULL_LSN)) as [->|Ed]; [done|].
  destruct (Hds Ed) as (dbytes & dss & Hd & _). inversion Hd; subst; by eapply Hin.
Qed.

Context (Hdb : in_u 64 db).

Lemma full_written id a lg b seed slots lsn :
  in_u 64 id → bin_ok id a b slots → log_ok id a lg b seed slots →
  ∃ bytes, serialize_full b = Some bytes ∧
    full_at kc (<[lsn := (BIN, write_to_log
      {| db_id := db; prev_full_lsn := bin_last_full_lsn b; prev_delta_lsn := NULL_LSN;
         node_data := bytes |})]> lg) id lsn (restored (a_embed a) <$> slots).
Proof.
  intros Hid Hok Hlo. pose proof Hok as [Hmode Hb Hs Hm Hi Hem Hemx Hcu Hls Hw Hby].
  eexists; split; [by apply serialize_full_spec|]. rewrite Hi, Hem.
  destruct (deserialize_full_spec id (a_embed a) slots Hid) as (ks & ls & Hd & Hr);
    [unfold TREE_MAX_EMBEDDED_LN_DEFAULT in Hemx; lia|by eapply slots_count|by eapply slots_fit|].
  rewrite <-!list_fmap_compose in Hd, Hr. unfold full_at.
  eexists _, _, ks, ls. split_and!.
  - apply lookup_insert_eq.
  - rewrite <-(app_nil_r (write_to_log _)). apply read_write_entry. unfold entry_fits. cbn [db_id prev_full_lsn prev_delta_lsn node_data].
    destruct (written_lsn _ _ _ _ _ _ Hlo) as [Hf _]. split; [exact Hdb|]. split; [exact Hf|]. split; [done|].
    rewrite length_app, length_image_header. pose proof (length_full_body (a_embed a) slots). lia.
  - cbn [node_data]. rewrite Hd. by rewrite <-list_fmap_compose.
  - rewrite <-(list_fmap_compose (image_of _) image_slot) in Hr.
    by rewrite <-(list_fmap_compose (restored _)).
  - by rewrite keys_of_fmap.
  - by apply Forall_fmap, Forall_true.
Qed.

Lemma log_extended id a lg b seed slots lsn x :
  log_ok id a lg b seed slots → a_last a < lsn →
  lg ⊆ <[lsn := x]> lg ∧ ∀ l y, <[lsn := x]> lg !! l = Some y → 0 ≤ l ≤ lsn.
Proof.
  intros [L1 L2 _ _ _] Hlt. split.
  - apply insert_subseteq. destruct (lg !! lsn) as [y|] eqn:E; [|done]. apply L1 in E. lia.
  - intros l y [[<- _]|[_ Hl]]%lookup_insert_Some; [lia|]. apply L1 in Hl. lia.
Qed.

Lemma img_restored m s : slot_img (restored m s) = image_of m s.
Proof. done. Qed.

Lemma find_img_restored m slots k :
  find_img cmp (restored m <$> slots) k = image_of m <$> abs_find (cmp := cmp) slots k.
Proof.
  unfold find_img. rewrite abs_find_fmap by done. by destruct (abs_find (cmp := cmp) slots k).
Qed.

Lemma cleared_agrees m slots last :
  (∀ k, find_img cmp last k = image_of m <$> abs_find (cmp := cmp) slots k) →
  agrees m (cleared <$> slots) last.
Proof.
  intros Hf k. rewrite abs_find_fmap by done. rewrite Hf.
  by destruct (abs_find (cmp := cmp) slots k); [right|].
Qed.

Abbreviation moved a lsn :=
  {| a_map := a_map a; a_embed := a_embed a; a_last := lsn; a_bytes := a_bytes a |}.

Lemma full_log_ok id a lg b seed slots lsn x :
  log_ok id a lg b seed slots → a_last a < lsn < NULL_LSN →
  full_at kc (<[lsn := x]> lg) id lsn (restored (a_embed a) <$> slots) →
  log_ok id (moved a lsn) (<[lsn := x]> lg) (clear_dirty_after_full_log b lsn) lsn (cleared <$> slots).
Proof.
  intros Hlo [Hlt Hnn] Hfull. pose proof (log_extended _ _ _ _ _ _ _ x Hlo Hlt) as [_ Hin].
  pose proof (lo_top _ _ _ _ _ _ Hlo).
  assert (stored kc (<[lsn := x]> lg) id lsn lsn (restored (a_embed a) <$> slots)
            (restored (a_embed a) <$> slots)) as Hst.
  { split_and!; [lia|lia|done|by left]. }
  split; cbn [a_last a_embed]; [done|lia|simpl; lia| |]; intros _.
  - exists lsn, (restored (a_embed a) <$> slots), (restored (a_embed a) <$> slots). split; [done|].
    intros _. by rewrite <-!list_fmap_compose.
  - exists (restored (a_embed a) <$> slots), (restored (a_embed a) <$> slots). split.
    + unfold tracked. simpl. by split_and!.
    + right. apply cleared_agrees. intros k. apply find_img_restored.
Qed.

(** A delta over a version that agrees gives the current slots. *)
Lemma delta_merges m slots last :
  key_sorted cmp (keys_of slots) → key_sorted cmp (keys_of last) → agrees m slots last →
  ∀ k, find_img cmp (foldl (merge_slot cmp) last (image_of m <$> dirty_slots slots)) k =
       image_of m <$> abs_find (cmp := cmp) slots k.
Proof.
  intros Hs Hl Ha k. rewrite find_img_merge_slots; [|done|].
  2:{ by apply (sorted_filter (λ s : slot, e_dirty (slot_entry s))). }
  pose proof (abs_find_filter (λ s : slot, e_dirty (slot_entry s)) slots k Hs) as Hf. rewrite Hf.
  specialize (Ha k). destruct (abs_find (cmp := cmp) slots k) as [s|]; [|done].
  destruct (e_dirty (slot_entry s)); [done|]. by destruct Ha.
Qed.

Lemma tracked_sorted lg id b slots0 last : tracked lg id b slots0 last → key_sorted cmp (keys_of last).
Proof.
  intros ((_ & _ & (payload & e & ks & ls & _ & _ & _ & _ & Hs0 & _) & [[_ ->]|(dbytes & dss & _ & ->)]) & _);
    [done|]. by apply merged_spec.
Qed.

Lemma delta_written id a lg b seed slots lsn slots0 last :
  in_u 64 id → bin_ok id a b slots → log_ok id a lg b seed slots → a_last a < lsn < NULL_LSN →
  tracked lg id b slots0 last →
  ∃ bytes dbytes dss, serialize_delta b = Some bytes ∧
    deltas_at (<[lsn := (BINDelta, delta_write_to_log
      {| d_db_id := db; d_prev_full_lsn := bin_last_full_lsn b; d_prev_delta_lsn := last_delta_lsn b;
         delta_data := bytes |})]> lg) (bin_last_full_lsn b) lsn dbytes dss ∧
    merged kc slots0 dss = foldl (merge_slot cmp) last (image_of (a_embed a) <$> dirty_slots slots).
Proof.
  intros Hid Hok Hlo [Hlt Hnn] Htr. pose proof Hok as [Hmode Hb Hs Hm Hi Hem Hemx Hcu Hls Hw Hby].
  pose proof (slots_fit _ _ _ _ Hok) as Hfit. pose proof (slots_count _ _ _ _ Hok) as Hcnt.
  destruct (serialize_delta_spec b slots Hb) as (imgs & Hser & Himgs). rewrite Hem in Himgs.
  rewrite Hi in Hser. set (bytes := image_header _ _ ++ _) in Hser.
  assert (length (dirty_slots slots) ≤ length slots)%nat as Hle by apply length_filter.
  assert (parse_delta_entries bytes = Some (image_of (a_embed a) <$> dirty_slots slots)) as Hparse.
  { apply parse_delta_spec; [done|unfold TREE_MAX_EMBEDDED_LN_DEFAULT in Hemx; lia|lia|by apply Forall_dirty|done]. }
  assert (Forall (λ i, in_u 64 (image_lsn i)) (image_of (a_embed a) <$> dirty_slots slots)) as Hl.
  { apply Forall_fmap, Forall_dirty. exact Hls. }
  set (e := {| d_db_id := db; d_prev_full_lsn := bin_last_full_lsn b;
               d_prev_delta_lsn := last_delta_lsn b; delta_data := bytes |}).
  assert (read_from_log (delta_write_to_log e) = Some (as_in_entry e)) as Hread.
  { rewrite delta_write_as_in, <-(app_nil_r (write_to_log _)). apply read_write_entry.
    destruct (written_lsn _ _ _ _ _ _ Hlo) as [Hwf Hwd].
    split; [exact Hdb|]. split; [exact Hwf|]. split; [exact Hwd|].
    change (Z.of_nat (length bytes) < 2 ^ 32). unfold bytes. rewrite length_app, length_image_header.
    assert (Z.of_nat (length (concat imgs)) ≤ weight slots) by
      (etransitivity; [by eapply length_delta_body|apply weight_filter]). lia. }
  destruct (log_extended _ _ _ _ _ _ _ (BINDelta, delta_write_to_log e) Hlo Hlt) as [Hsub _].
  destruct Htr as (_ & Hnone & Hsome). exists bytes.
  destruct (decide (last_delta_lsn b = NULL_LSN)) as [E|E].
  - eexists _, [_]. split_and!; [done| |by rewrite (Hnone E)].
    apply (deltas_first _ _ lsn (delta_write_to_log e) (as_in_entry e)); [apply lookup_insert_eq|done..].
  - destruct (Hsome E) as (dbytes & dss & Hd & ->). eexists _, (dss ++ [_]). split_and!; [done| |].
    + apply (deltas_next _ _ lsn (delta_write_to_log e) (as_in_entry e));
        [apply lookup_insert_eq|done| |done|done|done|by eapply deltas_at_mono].
      assert (∃ p, lg !! last_delta_lsn b = Some p) as [p Hp] by (inversion Hd; subst; by eexists).
      apply (lo_last _ _ _ _ _ _ Hlo) in Hp. simpl. lia.
    + unfold merged. by rewrite foldl_app.
Qed.

Lemma delta_log_ok id a lg b seed slots lsn slots0 last x :
  let b' := clear_dirty_after_delta_log
    (with_state b (bin_dirty b) (bin_last_full_lsn b) lsn (prohibit_next_delta b)) in
  bin_ok id a b slots → log_ok id a lg b seed slots → a_last a < lsn < NULL_LSN →
  bin_last_full_lsn b ≠ NULL_LSN → tracked lg id b slots0 last → agrees (a_embed a) slots last →
  (∃ dbytes dss, deltas_at (<[lsn := x]> lg) (bin_last_full_lsn b) lsn dbytes dss ∧
    merged kc slots0 dss = foldl (merge_slot cmp) last (image_of (a_embed a) <$> dirty_slots slots)) →
  log_ok id (moved a lsn) (<[lsn := x]> lg) b' lsn (cleared <$> slots).
Proof.
  intros b' Hok Hlo [Hlt Hnn] Hnf Htr Hag (dbytes & dss & Hd & Hmg).
  pose proof (log_extended _ _ _ _ _ _ _ x Hlo Hlt) as [Hsub Hin]. pose proof (lo_top _ _ _ _ _ _ Hlo).
  pose proof (tracked_sorted _ _ _ _ _ Htr) as Hsl. pose proof (ok_sorted _ _ _ _ Hok) as Hs.
  assert (∀ k, find_img cmp (merged kc slots0 dss) k =
    image_of (a_embed a) <$> abs_find (cmp := cmp) slots k) as Hfind
    by (intros k; rewrite Hmg; by apply delta_merges).
  assert (full_at kc (<[lsn := x]> lg) id (bin_last_full_lsn b) slots0) as Hfull.
  { destruct Htr as ((_ & _ & Hf & _) & _). by eapply full_at_mono. }
  assert (key_sorted cmp (keys_of (merged kc slots0 dss))) as Hms.
  { destruct Hfull as (? & ? & ? & ? & _ & _ & _ & _ & Hs0 & _). by apply merged_spec. }
  assert (stored kc (<[lsn := x]> lg) id (bin_last_full_lsn b) lsn slots0 (merged kc slots0 dss)) as Hst.
  { split_and!; [done|lia|done|right; by exists dbytes, dss]. }
  split; cbn [a_last a_embed]; [done|lia|done| |]; intros _.
  - exists (bin_last_full_lsn b), slots0, (merged kc slots0 dss). split; [done|]. intros _.
    rewrite (images_eq (a_embed a) _ slots Hms Hs Hfind). by rewrite <-list_fmap_compose.
  - exists slots0, (merged kc slots0 dss). split.
    + unfold tracked, b'. simpl. rewrite (proj2 (Z.eqb_neq lsn NULL_LSN)) by lia.
      split_and!; [done|lia|]. intros _. by exists dbytes, dss.
    + right. by apply cleared_agrees.
Qed.

Lemma moved_ok id a lg b seed slots lsn :
  a_last a < lsn < NULL_LSN →
  bin_ok id a b slots → log_ok id a lg b seed slots →
  bin_ok id (moved a lsn) b slots ∧ log_ok id (moved a lsn) lg b seed slots.
Proof.
  intros [Hlt Hnn] [] [L1 L2 L3 L4 L5]. split; [by split|]. split; cbn [a_last a_embed]; try done.
  - intros l x Hl. apply L1 in Hl. lia.
  - lia.
Qed.

Lemma delta_allowed b : should_log_delta b bin_delta_percent = true → is_delta b = false →
  prohibit_next_delta b = false ∧ bin_last_full_lsn b ≠ NULL_LSN.
Proof.
  unfold should_log_delta. intros H Hd. rewrite Hd in H.
  destruct (prohibit_next_delta b); [done|]. simpl in H.
  destruct (bin_last_full_lsn b =? NULL_LSN) eqn:E; [done|]. by reflect_bools.
Qed.

Lemma checkpoint_ok id s a lsn :
  in_u 64 id → durable id s a → a_last a < lsn < NULL_LSN →
  ∃ s', durable_step s (DCheckpoint lsn) = Some (s', true) ∧ durable id s' (moved a lsn).
Proof.
  intros Hid (slots & Hok & Hlo) Hlsn. cbn [durable_step]. unfold checkpoint_bin.
  destruct (negb (bin_dirty (d_bin s)) && (dirty_count (d_bin s) =? 0)%nat).
  { eexists; split; [done|]. exists slots. by apply moved_ok. }
  destruct (allow_bin_deltas && should_log_delta (d_bin s) bin_delta_percent) eqn:Hd.
  - apply andb_true_iff in Hd as [_ Hd].
    destruct (delta_allowed _ Hd (proj1 (ok_mode _ _ _ _ Hok))) as [Hnp Hnf].
    destruct (lo_track _ _ _ _ _ _ Hlo Hnf) as (slots0 & last & Htr & [?|Hag]); [congruence|].
    destruct (delta_written _ _ _ _ _ _ lsn _ _ Hid Hok Hlo Hlsn Htr)
      as (bytes & dbytes & dss & Hser & Hds & Hmg). rewrite Hser. cbn [mbind option_bind].
    eexists; split; [done|]. exists (cleared <$> slots). split.
    + apply (cleared_ok _ _ _ _ lsn (bin_last_full_lsn (d_bin s)) lsn (prohibit_next_delta (d_bin s)) Hok).
    + cbn [d_log d_bin d_seed default]. eapply delta_log_ok; try done. by exists dbytes, dss.
  - destruct (full_written _ _ _ _ _ _ lsn Hid Hok Hlo) as (bytes & Hser & Hfull). rewrite Hser.
    cbn [mbind option_bind]. eexists; split; [done|]. exists (cleared <$> slots). split.
    + apply (cleared_ok _ _ _ _ lsn lsn NULL_LSN false Hok).
    + cbn [d_log d_bin d_seed default]. by eapply full_log_ok.
Qed.

(** *** Reading back *)

Fixpoint image_weight (is_ : list image) : Z :=
  match is_ with
  | [] => 0
  | i :: is_ => slot_weight (image_key i) i.1.2 + image_weight is_
  end.

Lemma weight_images slots : weight slots = image_weight (slot_img <$> slots).
Proof. induction slots as [|s slots IH]; [done|]. rewrite fmap_cons. cbn [weight image_weight]. by rewrite IH. Qed.

Lemma embedded_data_length m d : (length (default [] (embedded_data m d)) ≤ length (default [] d))%nat.
Proof. destruct d as [d|]; simpl; [destruct (_ <=? m); simpl|]; lia. Qed.

Lemma embedded_data_bound m n d : m ≤ n → embedded_data n (embedded_data m d) = embedded_data m d.
Proof.
  intros Hmn. destruct d as [d|]; [|done]. simpl. destruct (Z.of_nat (length d) <=? m) eqn:E; [|done].
  simpl. reflect_bools. by rewrite (proj2 (Z.leb_le _ _)) by lia.
Qed.

Lemma weight_embedded m slots : image_weight (image_of m <$> slots) ≤ weight slots.
Proof.
  induction slots as [|s slots IH]; [done|]. rewrite fmap_cons. cbn [image_weight weight].
  pose proof (embedded_data_length m (data (slot_entry s))). unfold slot_weight, image_key. simpl in *. lia.
Qed.

Lemma find_same_images m last slots k :
  slot_img <$> last = image_of m <$> slots →
  slot_img <$> abs_find (cmp := cmp) last k = image_of m <$> abs_find (cmp := cmp) slots k.
Proof.
  intros He. assert (keys_of last = keys_of slots) as Hk.
  { apply (f_equal (fmap image_key)) in He. by rewrite <-!list_fmap_compose in He. }
  unfold abs_find. rewrite Hk. destruct (ref_search _ _) as [i|i]; [|done].
  by rewrite <-!list_lookup_fmap, He.
Qed.

Lemma read_back_bounded m (last slots : list slot) s :
  m ≤ TREE_MAX_EMBEDDED_LN_DEFAULT → slot_img <$> last = image_of m <$> slots → s ∈ last →
  image_of TREE_MAX_EMBEDDED_LN_DEFAULT s = slot_img s.
Proof.
  intros Hm He Hs. assert (slot_img s ∈ image_of m <$> slots) as Hin.
  { rewrite <-He. apply list_elem_of_fmap. by exists s. }
  apply list_elem_of_fmap in Hin as (t & Ht & _). unfold image_of, slot_img in *.
  injection Ht as -> -> -> -> ->. by rewrite embedded_data_bound.
Qed.

Lemma read_back_ok id a lg b seed slots base slots0 last b1 :
  bin_ok id a b slots → log_ok id a lg b seed slots →
  stored kc lg id base seed slots0 last → slot_img <$> last = image_of (a_embed a) <$> slots →
  fetched kc prefixing id base b1 → bin_rep b1 last →
  durable id {| d_log := lg; d_bin := b1; d_seed := seed |}
    {| a_map := λ k, restrict (a_embed a) <$> a_map a k;
       a_embed := TREE_MAX_EMBEDDED_LN_DEFAULT; a_last := a_last a; a_bytes := a_bytes a |}.
Proof.
  intros [Hmode Hb Hs Hm Hid Hem Hemx Hcu Hls Hw Hby] [L1 L2 L3 L4 L5] Hst He Hf Hb1.
  pose proof Hst as (Hbn & Hsn & Hfull & Hcase).
  pose proof Hfull as (? & ? & ? & ? & _ & _ & _ & _ & Hs0 & _).
  assert (key_sorted cmp (keys_of last) ∧ untouched (cmp := cmp) slots0 last) as [Hsl Hun].
  { destruct Hcase as [[_ ->]|(dbytes & dss & _ & ->)]; [split; [done|]|by apply merged_spec].
    intros k. destruct (abs_find _ k); by auto. }
  pose proof (λ s, read_back_bounded (a_embed a) last slots s Hemx He) as Hbd.
  exists last. split.
  - destruct Hf. split; cbn [a_map a_embed a_bytes d_bin]; try done.
    + intros k. rewrite Hm. pose proof (find_same_images _ _ _ k He) as Hfind.
      destruct (abs_find (cmp := cmp) last k) as [s|], (abs_find (cmp := cmp) slots k) as [t|]; try done.
      simpl in *. injection Hfind as E1 E2 E3 E4 E5. unfold slot_record. simpl. by rewrite E2, E3, E4, E5.
    + apply Forall_forall. intros s Hin. assert (slot_img s ∈ image_of (a_embed a) <$> slots) as Hin'.
      { rewrite <-He. apply list_elem_of_fmap. by exists s. }
      apply list_elem_of_fmap in Hin' as (t & Ht & Hin'). injection Ht as _ E _ _ _.
      change (slot_lsn s = slot_lsn t) in E. rewrite E. by apply (proj1 (Forall_forall _ _) Hls).
    + rewrite weight_images, He. pose proof (weight_embedded (a_embed a) slots). lia.
  - destruct Hf. split; cbn [a_last a_embed d_log d_bin d_seed]; try done.
    + congruence.
    + intros _. exists base, slots0, last. split; [done|]. intros _.
      apply list_fmap_ext. intros i s Hi. symmetry. apply Hbd. by eapply list_elem_of_lookup_2.
    + intros _. exists slots0, slots0. split.
      * unfold tracked. rewrite fe_full0, fe_delta0. simpl. split_and!; [|done|done].
        by split_and!; [| | |left].
      * right. intros k. specialize (Hun k).
        destruct (abs_find (cmp := cmp) last k) as [s|] eqn:Ef.
        -- destruct Hun as [?|Hun]; [by left|right]. unfold find_img. rewrite Hun. simpl. f_equal.
           symmetry. apply Hbd. by apply abs_find_iff in Ef as [? _].
        -- unfold find_img. by rewrite Hun.
Qed.

Lemma refetch_ok id s a lsn :
  in_u 64 id → durable id s a → a_last a < lsn < NULL_LSN →
  ∃ s', durable_step s (DRefetch lsn) = Some (s', true) ∧
    durable id s' {| a_map := λ k, restrict (a_embed a) <$> a_map a k;
       a_embed := TREE_MAX_EMBEDDED_LN_DEFAULT; a_last := lsn; a_bytes := a_bytes a |}.
Proof.
  intros Hid (slots & Hok & Hlo) Hlsn. cbn [durable_step].
  assert (∃ lg b seed slots', evict_flush db (d_log s) lsn (d_bin s) = Some (lg, b, seed, true) ∧
    bin_ok id (moved a lsn) b slots' ∧ log_ok id (moved a lsn) lg b (default (d_seed s) seed) slots' ∧
    clean b = true) as (lg & b & seed & slots' & -> & Hok' & Hlo' & Hcl).
  { unfold evict_flush. rewrite (ok_cursors _ _ _ _ Hok). cbn [Z.ltb Z.compare].
    destruct (negb (bin_dirty (d_bin s)) && (dirty_count (d_bin s) =? 0)%nat) eqn:Hc.
    { eexists _, _, _, slots. split; [done|]. destruct (moved_ok _ _ _ _ _ _ _ Hlsn Hok Hlo). by split_and!. }
    destruct (full_written _ _ _ _ _ _ lsn Hid Hok Hlo) as (bytes & Hser & Hfull). rewrite Hser.
    cbn [mbind option_bind]. eexists _, _, _, (cleared <$> slots). split; [done|]. split_and!.
    - apply (cleared_ok _ _ _ _ lsn lsn NULL_LSN false Hok).
    - cbn [default]. by eapply full_log_ok.
    - apply cleared_clean. }
  cbn [mbind option_bind].
  assert (bin_last_full_lsn b ≠ NULL_LSN) as Hnf.
  { intros E. apply (lo_never _ _ _ _ _ _ Hlo') in E as [E _]. unfold clean in Hcl. by rewrite E in Hcl. }
  destruct (lo_seed _ _ _ _ _ _ Hlo' Hnf) as (base & slots0 & last & Hst & Himg).
  destruct (fetch_stored (Child := unit) kc prefixing lg id base (default (d_seed s) seed) slots0 last Hst)
    as (b1 & -> & Hf & Hb1). cbn [mbind option_bind].
  eexists; split; [done|]. by apply (read_back_ok id (moved a lsn) lg b _ slots' base slots0 last b1);
    [..|apply Himg| |].
Qed.

Lemma durable_step_ok id s a op a' out :
  in_u 64 id → durable id s a → abs_durable_step a op = Some (a', out) →
  ∃ s', durable_step s op = Some (s', out) ∧ durable id s' a'.
Proof.
  intros Hid Hd Hop. destruct op as [op|lsn|lsn]; [by eapply update_ok|..]; cbn [abs_durable_step] in Hop;
    destruct ((a_last a <? lsn) && (lsn <? NULL_LSN)) eqn:E; try done; injection Hop as <- <-;
    apply andb_true_iff in E as [?%Z.ltb_lt ?%Z.ltb_lt].
  - by apply checkpoint_ok.
  - by apply refetch_ok.
Qed.
End durable.

(** ** Deltas in memory *)

Lemma delta_full_entries_spec delta ds :
  bin_rep delta ds → delta_full_entries delta = Some (slot_img <$> ds).
Proof.
  intros Hd. unfold delta_full_entries. rewrite (bin_entries_len _ _ Hd). apply mapM_indices.
  intros i s Hi. destruct (bin_lookup _ _ _ _ Hd Hi) as [He Hl]. rewrite He, Hl. cbn [mbind option_bind].
  by rewrite (get_full_key_spec _ _ _ Hd), Hi.
Qed.

Lemma slot_img_embedded (m : Z) ds :
  Forall (λ s : slot, Z.of_nat (length (default [] (data (slot_entry s)))) ≤ m) ds →
  slot_img <$> ds = image_of m <$> ds.
Proof.
  intros Hf. apply list_fmap_ext. intros i s Hi. pose proof (Forall_lookup_1 _ _ _ _ Hf Hi) as Hs.
  unfold slot_img, image_of. simpl in *. destruct (data s.2) as [d|]; [|done]. simpl in *.
  by rewrite (proj2 (Z.leb_le _ _)).
Qed.

(** Data lengths have a bound. *)
Lemma data_bounded ds :
  ∃ m, Forall (λ s : slot, Z.of_nat (length (default [] (data (slot_entry s)))) ≤ m) ds.
Proof.
  exists (weight ds). apply Forall_forall. intros s Hs. pose proof (weight_elem ds s Hs).
  unfold slot_weight in *. lia.
Qed.

(** * Properties *)


(** Two deltas on a full image, an eviction in between, a long record. *)
Definition demo_durable_ops : list durable_op :=
  [DUpdate (BPut [1] 10 [11]); DUpdate (BPut [2] 20 (replicate 20 22)); DUpdate (BPut [3] 30 [33]);
   DUpdate (BPut [4] 40 [44]); DCheckpoint 100; DUpdate (BPut [3] 31 [34]); DCheckpoint 200;
   DUpdate (BMark [1] 11 false); DCheckpoint 300; DRefetch 400; DUpdate (BPut [5] 50 [55]);
   DCheckpoint 500; DUpdate (BDel [4]); DRefetch 600].

Definition demo_durable_abs : option (abs_bin * list bool) :=
  run_steps (abs_durable_step None)
    {| a_map := λ _, None; a_embed := 16; a_last := -1; a_bytes := 0 |} demo_durable_ops.
Definition demo_durable_end : abs_bin :=
  match demo_durable_abs with
  | Some (a, _) => a
  | None => {| a_map := λ _, None; a_embed := 0; a_last := 0; a_bytes := 0 |}
  end.

Lemma demo_durable_run :
  demo_durable_abs = Some (demo_durable_end,
    [true; true; true; true; true; false; true; true; true; true; true; true; true; true]).
Proof.
  assert (match demo_durable_abs with Some (_, outs) => Some outs | None => None end =
    Some [true; true; true; true; true; false; true; true; true; true; true; true; true; true]) as H
    by (vm_compute; reflexivity).
  unfold demo_durable_end. destruct demo_durable_abs as [[a outs]|]; [|done]. by injection H as ->.
Qed.


(** A delta is authoritative over its base.  Merged in memory onto the
    base it was made from, in byte order, a BIN-delta gives a full dirty BIN
    in which a key has the record of the delta if it has one there, deletion
    state included, and the record of the base otherwise. *)
Theorem mutate_to_full_bin_overlays (delta base : BinStub) (ds bs : list slot) (k : key)
  (Hd : bin_rep delta ds) (Hds : key_sorted compare_unsigned_bytes (keys_of ds))
  (Hb : bin_rep base bs) (Hbs : key_sorted compare_unsigned_bytes (keys_of bs))
  (Hfull : is_delta base = false) (Hl : Forall (λ s : slot, in_u 64 (slot_lsn s)) ds) :
  ∃ b, mutate_to_full_bin delta base = Some b ∧ is_delta b = false ∧ bin_dirty b = true ∧
    read_record None b k =
    Some (match abs_find (cmp := compare_unsigned_bytes) ds k with
          | Some s => Some (slot_record s)
          | None => slot_record <$> abs_find (cmp := compare_unsigned_bytes) bs k
          end).
Proof.
  unfold mutate_to_full_bin. rewrite (delta_full_entries_spec _ _ Hd). cbn [mbind option_bind].
  destruct (merge_images_spec None true base bs (slot_img <$> ds) Hb Hbs) as (b & Hm & Hf & Hmode & Hb');
    [done|by apply Forall_fmap|]. unfold apply_delta_to_bin.
  change (foldl _ (Some base) (slot_img <$> ds)) with (merge_images None true base (slot_img <$> ds)).
  rewrite Hm. cbn [mbind option_bind]. eexists; split; [done|]. split; [done|]. split; [done|].
  destruct (data_bounded ds) as [m Hbd]. rewrite (slot_img_embedded m ds Hbd) in Hb'.
  destruct (merge_all (cmp := compare_unsigned_bytes) bs bs (image_of m <$> ds) Hbs) as [Hs' _];
    [intros j; destruct (abs_find _ j); by auto|].
  pose proof (find_img_merge_slots (cmp := compare_unsigned_bytes) m bs ds k Hbs Hds) as Hfind.
  erewrite (read_record_spec None true _ (λ k, slot_record <$>
    abs_find (cmp := compare_unsigned_bytes) (foldl (merge_slot compare_unsigned_bytes) bs (image_of m <$> ds)) k)).
  2:{ split; [done|]. eexists; split_and!; [|done|done].
      apply bin_rep_with_state, bin_rep_with_is_delta.
      destruct Hb' as [Hp Hk He Hls _]. split; simpl; try done. apply (br_compact _ _ Hd). }
  f_equal. unfold find_img in Hfind.
  assert (∀ o : option slot, slot_record <$> o =
    (λ i : image, (image_lsn i, i.1.2, i.2.1, i.2.2)) <$> (slot_img <$> o)) as Himg by (by intros [s|]).
  rewrite Himg, Hfind. destruct (abs_find (cmp := compare_unsigned_bytes) ds k) as [s|] eqn:Es; [|by rewrite <-Himg].
  apply abs_find_iff in Es as [Hin _]; [|done]. pose proof (proj1 (Forall_forall _ _) Hbd s Hin) as Hs.
  unfold image_of, slot_record. simpl in *. destruct (data s.2) as [d|]; [|done]. simpl in *.
  by rewrite (proj2 (Z.leb_le _ _)).
Qed.

Lemma mutate_to_full_bin_overlays_witness :
  ∃ b, mutate_to_full_bin demo_logged_bin demo_bin = Some b ∧ is_delta b = false ∧ bin_dirty b = true ∧
    read_record None b [1; 2; 4; 5] = Some (Some (Lsn_new 1 20, None, false, true)).
Proof.
  apply (mutate_to_full_bin_overlays demo_logged_bin demo_bin demo_logged_slots demo_slots [1; 2; 4; 5]
           demo_logged_rep).
  - repeat constructor.
  - split; [repeat constructor; by eexists|constructor|done|constructor|done].
  - repeat constructor.
  - reflexivity.
  - repeat constructor; done.
Defined.

(** A BIN-delta counted obsolete is still read.  When the checkpointer
    writes a delta over a delta, it reports the older one as obsolete; with
    that entry gone from the log, the BIN can no longer be fetched at the LSN
    just published. *)
Theorem superseded_delta_still_read {Child : Type} (kc : option (key → key → comparison))
  (prefixing : bool) (db percent : Z) (lg lg' : log) (lsn old : Z) (b b' : BinStub) (bytes : list Z)
  (Hdb : in_u 64 db) (Hfull : in_u 64 (bin_last_full_lsn b)) (Hdelta : in_u 64 (last_delta_lsn b))
  (Hlsn : lsn ≠ NULL_LSN) (Hne : old ≠ lsn)
  (Hbytes : serialize_delta b = Some bytes) (Hlen : Z.of_nat (length bytes) < 2 ^ 32)
  (Hmode : should_log_delta b percent = true)
  (Hck : checkpoint_bin db true percent lg lsn b = Some (lg', b', Some lsn, [old])) :
  old = last_delta_lsn b ∧
  fetch_node_from_log (Child := Child) kc prefixing (delete old lg') lsn = Some None.
Proof.
  unfold checkpoint_bin in Hck.
  destruct (negb (bin_dirty b) && (dirty_count b =? 0)%nat); [done|].
  rewrite Hmode, Hbytes in Hck. cbn [andb mbind option_bind] in Hck.
  destruct (last_delta_lsn b =? NULL_LSN) eqn:E; [done|]. injection Hck as <- <- <-. split; [done|].
  unfold fetch_node_from_log. rewrite (proj2 (Z.eqb_neq _ _) Hlsn).
  rewrite lookup_delete_ne, lookup_insert_eq by done. rewrite delta_write_as_in.
  rewrite <-(app_nil_r (write_to_log _)), read_write_entry by done.
  unfold fetch_delta. cbn [delta_chain as_in_entry d_prev_delta_lsn prev_delta_lsn]. rewrite E.
  rewrite (proj2 (Z.eqb_neq _ _) Hne), lookup_delete_eq. done.
Qed.

(** A dirty slot over a full image at 100 and a delta at 200. *)
Definition demo_delta_bin : BinStub :=
  with_state (with_slots (loaded_bin 7) [] [clear_dirty (new_entry (Some [1])); new_entry (Some [2])]
    (KDefault [[3]; [4]]) (LLong [10; 20])) true 100 200 false.

Lemma superseded_delta_still_read_witness :
  fetch_node_from_log (Child := unit) None false
    (delete 200 (match checkpoint_bin 9 true 60 ∅ 300 demo_delta_bin with
                 | Some (lg, _, _, _) => lg | None => ∅ end)) 300 = Some None.
Proof.
  destruct (checkpoint_bin 9 true 60 ∅ 300 demo_delta_bin) as [[[[lg b'] seed] obs]|] eqn:E;
    [|vm_compute in E; discriminate].
  assert (seed = Some 300 ∧ obs = [200]) as [-> ->].
  { assert (match checkpoint_bin 9 true 60 ∅ 300 demo_delta_bin with
            | Some (_, _, seed, obs) => Some (seed, obs) | None => None end = Some (Some 300, [200])) as H
      by (vm_compute; reflexivity). rewrite E in H. by injection H as -> ->. }
  exact (proj2 (superseded_delta_still_read None false 9 60 ∅ lg 300 200 demo_delta_bin b'
    (default [] (serialize_delta demo_delta_bin)) ltac:(done) ltac:(done) ltac:(done) ltac:(done)
    ltac:(done) ltac:(vm_compute; reflexivity) ltac:(vm_compute; reflexivity)
    ltac:(vm_compute; reflexivity) E)).
Defined.

(** The embedding bound of a database does not survive a re-fetch.  With a
    bound of 32, a record of twenty bytes is embedded in the first image and
    read back; but the BIN read back writes images with the default bound of
    16, so the next image of it has lost the data. *)
Theorem refetch_forgets_embedding_bound :
  let data20 := replicate 20 5 in
  let start := {| d_log := ∅; d_seed := NULL_LSN;
    d_bin := with_state (new_bin 7 16 32 false) true NULL_LSN NULL_LSN false |} in
  let ops := [DUpdate (BPut [1] 10 data20); DRefetch 100; DUpdate (BPut [2] 20 [6])] in
  (match run_steps (durable_step None false 9 true 25) start ops with
   | Some (s, _) => read_record None (d_bin s) [1] | None => None end) =
    Some (Some (10, Some data20, false, false)) ∧
  (match run_steps (durable_step None false 9 true 25) start (ops ++ [DRefetch 200]) with
   | Some (s, _) => read_record None (d_bin s) [1] | None => None end) =
    Some (Some (10, None, false, false)).
Proof. split; vm_compute; reflexivity. Qed.

(** [mutate_to_full_bin_from_log] parses the wrapper of a log entry as the
    image itself.  On the first full image of a BIN (its previous LSN is null)
    the slot count it reads is the upper half of that LSN, 2^32 - 1, the image
    is rejected, and the delta is promoted to a full BIN without the records of
    its base. *)
Theorem mutate_from_log_loses_base (lg : log) (delta : BinStub) (e : InLogEntry)
  (Hdelta : is_delta delta = true) (Hfull : bin_last_full_lsn delta ≠ NULL_LSN)
  (Hlg : lg !! bin_last_full_lsn delta = Some (BIN, write_to_log e))
  (Hprev : prev_full_lsn e = NULL_LSN) (Hsize : log_size e < 2 ^ 32 - 1) :
  ∃ b, mutate_to_full_bin_from_log lg delta = Some b ∧ is_delta b = false ∧
    bin_entries b = bin_entries delta ∧ bin_keys b = bin_keys delta.
Proof.
  unfold mutate_to_full_bin_from_log. rewrite Hdelta, Hlg, (proj2 (Z.eqb_neq _ _) Hfull). cbn [negb].
  rewrite bool_decide_true by done.
  assert (deserialize_full (write_to_log e) = rejected) as ->; [|by eexists].
  unfold deserialize_full. destruct (length (write_to_log e) <? 12)%nat; [done|].
  assert (be_val (take 4 (drop 8 (write_to_log e))) = 2 ^ 32 - 1) as ->.
  { unfold write_to_log. rewrite drop_app_length' by (by rewrite length_be_bytes). by rewrite Hprev. }
  destruct (parse_slots _ _ _ _) as [[imgs r]|] eqn:Hp; [|done].
  apply parse_slots_bound in Hp; [|apply local_parse_slot|done].
  assert (Z.of_nat (length (write_to_log e)) = log_size e) as Hl.
  { unfold write_to_log, log_size. rewrite !length_app, !length_be_bytes. lia. }
  rewrite length_drop in Hp. lia.
Qed.

Definition demo_full_entry : InLogEntry :=
  {| db_id := 9; prev_full_lsn := NULL_LSN; prev_delta_lsn := NULL_LSN;
     node_data := default [] (serialize_full demo_logged_bin) |}.

Lemma mutate_from_log_loses_base_witness :
  ∃ b, mutate_to_full_bin_from_log {[ 100 := (BIN, write_to_log demo_full_entry) ]}
         (with_is_delta demo_delta_bin true) = Some b ∧ is_delta b = false ∧
    bin_entries b = [clear_dirty (new_entry (Some [1])); new_entry (Some [2])] ∧
    bin_keys b = KDefault [[3]; [4]].
Proof.
  apply (mutate_from_log_loses_base _ (with_is_delta demo_delta_bin true) demo_full_entry);
    [reflexivity|done|apply lookup_singleton_eq|reflexivity|vm_compute; reflexivity].
Defined.
