(* ===== verification/Acceptor.v ===== *)
(** * Acceptors of elections (noxu-rep, elections/)

    [Proposal] and its ranking, the proposal numbers of
    [TimebasedProposalGenerator], the freeze latch, and
    [PersistentAcceptorState] with its file [acceptor.state].  A node name is
    the bytes of a string, ordered as strings are.  The file is [disk]: a
    flush of [flush_locked] succeeds, fails before its rename or fails after
    it.  The checksum of the file is the parameter [crc] of [crc32fast]. *)

From S2P Require Import Prelude Bytes.

Abbreviation name := (list Z).

(** ** The code: proposals *)

Record Proposal := {
  node_name : name;
  dtvlsn : Z;
  vlsn : Z;
  priority : Z;
  term : Z;
  timestamp_ms : Z;
}.

Definition then_with (c d : comparison) : comparison := match c with Eq => d | _ => c end.

Definition proposal_cmp (self other : Proposal) : comparison :=
  then_with (dtvlsn self ?= dtvlsn other)
  (then_with (vlsn self ?= vlsn other)
  (then_with (priority self ?= priority other)
  (lex_cmp (node_name self) (node_name other)))).

Definition is_better_than (self other : Proposal) : bool := bool_decide (proposal_cmp self other = Gt).

Definition with_timestamp (n : name) (v prio t ts : Z) : Proposal :=
  {| node_name := n; dtvlsn := 0; vlsn := v; priority := prio; term := t; timestamp_ms := ts |}.

Definition with_dtvlsn (p : Proposal) (d : Z) : Proposal :=
  {| node_name := node_name p; dtvlsn := d; vlsn := vlsn p; priority := priority p; term := term p;
     timestamp_ms := timestamp_ms p |}.

(** ** The code: proposal numbers *)

(** [next] at the wall-clock time [now]: the number and the new [prev]. *)
Definition saturating_add (w x y : Z) : Z := Z.min (x + y) (2 ^ w - 1).
Definition generator_next (now prev : Z) : Z := if now <=? prev then saturating_add 64 prev 1 else now.
Definition generator_observe (observed prev : Z) : Z := if prev <? observed then observed else prev.

(** ** The code: the freeze latch *)

Record FreezeState := {
  frozen_proposal : option Proposal;
  freeze_end : option Z;
  generation : Z;
  frozen : bool;
  thawed_by_election : bool;
}.

Record FreezeStats := { freeze_count : Z; await_timeout_count : Z; await_election_count : Z }.

Record CommitFreezeLatch := { latch_state : FreezeState; latch_stats : FreezeStats; timeout : Z }.

Definition latch_new (tmo : Z) : CommitFreezeLatch :=
  {| latch_state := {| frozen_proposal := None; freeze_end := None; generation := 0; frozen := false;
                       thawed_by_election := false |};
     latch_stats := {| freeze_count := 0; await_timeout_count := 0; await_election_count := 0 |};
     timeout := tmo |}.

Definition freeze (now : Z) (l : CommitFreezeLatch) (p : Proposal) : CommitFreezeLatch :=
  let st := latch_state l in
  if match frozen_proposal st with Some cur => negb (is_better_than p cur) | None => false end then l
  else
    {| latch_state :=
         {| frozen_proposal := Some p; freeze_end := Some (now + timeout l);
            generation := if bool_decide (is_Some (frozen_proposal st)) then as_u 64 (generation st + 1)
                          else generation st;
            frozen := true; thawed_by_election := false |};
       latch_stats :=
         {| freeze_count := freeze_count (latch_stats l) + 1;
            await_timeout_count := await_timeout_count (latch_stats l);
            await_election_count := await_election_count (latch_stats l) |};
       timeout := timeout l |}.

Definition with_latch_state (l : CommitFreezeLatch) (st : FreezeState) : CommitFreezeLatch :=
  {| latch_state := st; latch_stats := latch_stats l; timeout := timeout l |}.

Definition vlsn_event (l : CommitFreezeLatch) (p : Proposal) : CommitFreezeLatch :=
  let st := latch_state l in
  match frozen_proposal st with
  | None => l
  | Some cur =>
      if is_better_than cur p then l
      else with_latch_state l
             {| frozen_proposal := frozen_proposal st; freeze_end := freeze_end st;
                generation := as_u 64 (generation st + 1); frozen := false; thawed_by_election := true |}
  end.

Definition clear_latch (l : CommitFreezeLatch) : CommitFreezeLatch :=
  with_latch_state l
    {| frozen_proposal := None; freeze_end := None; generation := as_u 64 (generation (latch_state l) + 1);
       frozen := false; thawed_by_election := false |}.

(** [await_thaw]: it returns, or waits for a change of the generation. *)
Inductive await_result :=
| Returned (by_election : bool)
| Waiting (my_generation : Z).

Definition count_await (by_election : bool) (s : FreezeStats) : FreezeStats :=
  if by_election
  then {| freeze_count := freeze_count s; await_timeout_count := await_timeout_count s;
          await_election_count := await_election_count s + 1 |}
  else {| freeze_count := freeze_count s; await_timeout_count := await_timeout_count s + 1;
          await_election_count := await_election_count s |}.

Definition thawed (l : CommitFreezeLatch) (by_election : bool) (pending : bool) : CommitFreezeLatch :=
  {| latch_state := {| frozen_proposal := None; freeze_end := None;
                       generation := generation (latch_state l); frozen := false;
                       thawed_by_election := pending |};
     latch_stats := count_await by_election (latch_stats l); timeout := timeout l |}.

Definition await_thaw (l : CommitFreezeLatch) : CommitFreezeLatch * await_result :=
  let st := latch_state l in
  if thawed_by_election st then (thawed l true false, Returned true)
  else if negb (frozen st) then (l, Returned false)
  else (l, Waiting (generation st)).

(** One round of the loop of [await_thaw], at the time [now]. *)
Definition await_check (now : Z) (l : CommitFreezeLatch) (my_generation : Z)
    : CommitFreezeLatch * await_result :=
  let st := latch_state l in
  if negb (frozen st) || negb (generation st =? my_generation) then
    if negb (frozen st) then (thawed l true false, Returned true)
    else (l, Returned false)
  else if default now (freeze_end st) <=? now
  then (thawed l false (thawed_by_election st), Returned false)
  else (l, Waiting my_generation).

Definition round_proposal (t : Z) : Proposal := with_dtvlsn (with_timestamp [] t 0 t 0) t.

(** ** The code: UTF-8, as [std::str::from_utf8] checks it *)

Definition between (lo hi b : Z) : bool := (lo <=? b) && (b <=? hi).
Abbreviation cont := (between 0x80 0xBF).

Fixpoint from_utf8 (l : list Z) : bool :=
  match l with
  | [] => true
  | b :: l =>
      if between 0 0x7F b then from_utf8 l
      else
        match l with
        | [] => false
        | b1 :: l =>
            if between 0xC2 0xDF b then cont b1 && from_utf8 l
            else
              match l with
              | [] => false
              | b2 :: l =>
                  if b =? 0xE0 then between 0xA0 0xBF b1 && cont b2 && from_utf8 l
                  else if b =? 0xED then between 0x80 0x9F b1 && cont b2 && from_utf8 l
                  else if between 0xE1 0xEF b then cont b1 && cont b2 && from_utf8 l
                  else
                    match l with
                    | [] => false
                    | b3 :: l =>
                        (if b =? 0xF0 then between 0x90 0xBF b1
                         else if b =? 0xF4 then between 0x80 0x8F b1
                         else between 0xF1 0xF3 b && cont b1)
                        && cont b2 && cont b3 && from_utf8 l
                    end
              end
        end
  end.

(** ** The code: the state of an acceptor *)

Record AcceptorState := {
  promised_term : Z;
  promised_proposer : option name;
  accepted_term : Z;
  accepted_master : option name;
}.

Definition fresh : AcceptorState :=
  {| promised_term := 0; promised_proposer := None; accepted_term := 0; accepted_master := None |}.

(** The state in memory and the file; an in-memory acceptor has no file. *)
Record PersistentAcceptorState := {
  mem : AcceptorState;
  disk : option (list Z);
  persist_path : bool;
}.

Definition in_memory : PersistentAcceptorState := {| mem := fresh; disk := None; persist_path := false |}.

Definition MAGIC : list Z := [0x50; 0x58; 0x53; 0x54].
Definition VERSION : Z := 2.
Definition MIN_LEN : Z := 4 + 2 + 8 + 8 + 2 + 4.

Inductive AcceptorPersistError :=
| BadMagic
| BadVersion (v : Z)
| Truncated (expected got : Z)
| BadChecksum (stored computed : Z)
| BadMasterName.

(** The order of [Option<String>]. *)
Definition opt_name_cmp (a b : option name) : comparison :=
  match a, b with
  | None, None => Eq
  | None, Some _ => Lt
  | Some _, None => Gt
  | Some a, Some b => lex_cmp a b
  end.

(** [(cur_term, cur_proposer) > (t, Some(proposer))]. *)
Definition promised_greater (s : AcceptorState) (t : Z) (proposer : name) : bool :=
  bool_decide (then_with (promised_term s ?= t) (opt_name_cmp (promised_proposer s) (Some proposer)) = Gt).

Definition name_field (n : option name) : list Z :=
  let bytes := default [] n in
  let len := Z.min (Z.of_nat (length bytes)) 65535 in
  le_bytes 2 len ++ take (Z.to_nat len) bytes.

Section file.
Context (crc : list Z → Z).

(** The bytes that [flush_locked] writes. *)
Definition state_body (s : AcceptorState) : list Z :=
  MAGIC ++ le_bytes 2 VERSION ++ le_bytes 8 (promised_term s) ++ le_bytes 8 (accepted_term s) ++
  name_field (accepted_master s) ++ name_field (promised_proposer s).
Definition state_image (s : AcceptorState) : list Z :=
  state_body s ++ le_bytes 4 (crc (state_body s)).

Inductive flush_outcome := Flushed | FailedBeforeRename | FailedAfterRename.

(** [flush_locked] of the state [s]: the file after it, and whether it succeeded. *)
Definition flush_locked (a : PersistentAcceptorState) (s : AcceptorState) (fl : flush_outcome)
    : option (list Z) * bool :=
  if persist_path a then
    match fl with
    | Flushed => (Some (state_image s), true)
    | FailedBeforeRename => (disk a, false)
    | FailedAfterRename => (Some (state_image s), false)
    end
  else (disk a, true).

(** The new state, or the old one rolled back when the flush fails. *)
Definition store (a : PersistentAcceptorState) (s : AcceptorState) (fl : flush_outcome)
    : PersistentAcceptorState * bool :=
  let '(d, ok) := flush_locked a s fl in
  ({| mem := if ok then s else mem a; disk := d; persist_path := persist_path a |}, ok).

Definition try_promise_proposal (a : PersistentAcceptorState) (fl : flush_outcome) (t : Z) (proposer : name)
    : PersistentAcceptorState * bool :=
  if promised_greater (mem a) t proposer then (a, false)
  else store a {| promised_term := t; promised_proposer := Some proposer;
                  accepted_term := accepted_term (mem a); accepted_master := accepted_master (mem a) |} fl.

Definition try_accept_proposal (a : PersistentAcceptorState) (fl : flush_outcome) (t : Z)
    (proposer master : name) : PersistentAcceptorState * bool :=
  let s := mem a in
  if negb (bool_decide ((promised_term s, promised_proposer s) = (t, Some proposer))) then (a, false)
  else if (accepted_term s =? t) && negb (bool_decide (accepted_master s = Some master)) then (a, false)
  else store a {| promised_term := promised_term s; promised_proposer := promised_proposer s;
                  accepted_term := t; accepted_master := Some master |} fl.

Definition COMPAT_PROPOSER : name := [].
Definition try_promise (a : PersistentAcceptorState) (fl : flush_outcome) (t : Z) :=
  try_promise_proposal a fl t COMPAT_PROPOSER.
Definition try_accept (a : PersistentAcceptorState) (fl : flush_outcome) (t : Z) (master : name) :=
  try_accept_proposal a fl t COMPAT_PROPOSER master.

(** A name of [len] bytes at the offset [off] of the file. *)
Definition read_name (bytes : list Z) (off len : nat) : result (option name) AcceptorPersistError :=
  if (len =? 0)%nat then Ok None
  else
    let s := take len (drop off bytes) in
    if from_utf8 s then Ok (Some s) else Err BadMasterName.

Definition load_from_disk (file : option (list Z)) : result (option AcceptorState) AcceptorPersistError :=
  match file with
  | None => Ok None
  | Some bytes =>
      let n := Z.of_nat (length bytes) in
      if n <? MIN_LEN then Err (Truncated MIN_LEN n)
      else
        let body_end := (length bytes - 4)%nat in
        let stored_crc := le_val (drop body_end bytes) in
        let computed_crc := crc (take body_end bytes) in
        if negb (stored_crc =? computed_crc) then Err (BadChecksum stored_crc computed_crc)
        else if negb (bool_decide (take 4 bytes = MAGIC)) then Err BadMagic
        else
          let version := le_val (take 2 (drop 4 bytes)) in
          if negb (version =? 1) && negb (version =? VERSION) then Err (BadVersion version)
          else
            let promised := le_val (take 8 (drop 6 bytes)) in
            let accepted := le_val (take 8 (drop 14 bytes)) in
            let master_len := le_val (take 2 (drop 22 bytes)) in
            if n <? 24 + master_len + 4 then Err (Truncated (24 + master_len + 4) n)
            else
              match read_name bytes 24 (Z.to_nat master_len) with
              | Err e => Err e
              | Ok master =>
                  let after_master := 24 + master_len in
                  let state p := {| promised_term := promised; promised_proposer := p;
                                    accepted_term := accepted; accepted_master := master |} in
                  if 2 <=? version then
                    if n <? after_master + 2 + 4 then Err (Truncated (after_master + 2 + 4) n)
                    else
                      let proposer_len := le_val (take 2 (drop (Z.to_nat after_master) bytes)) in
                      let p_start := after_master + 2 in
                      if n <? p_start + proposer_len + 4 then Err (Truncated (p_start + proposer_len + 4) n)
                      else
                        match read_name bytes (Z.to_nat p_start) (Z.to_nat proposer_len) with
                        | Err e => Err e
                        | Ok p => Ok (Some (state p))
                        end
                  else Ok (Some (state None))
              end
  end.

(** A start of the process: a corrupt file is removed. *)
Definition load_or_default (file : option (list Z)) : PersistentAcceptorState :=
  match load_from_disk file with
  | Ok (Some s) => {| mem := s; disk := file; persist_path := true |}
  | Ok None => {| mem := fresh; disk := file; persist_path := true |}
  | Err _ => {| mem := fresh; disk := None; persist_path := true |}
  end.
End file.

(** ** The code: the tracked master *)

Record MasterTracker := {
  current_master : option name;
  master_term : Z;
  last_heartbeat : option Z;
  tracker_generation : Z;
}.

Definition tracker_set (now : Z) (tr : MasterTracker) (n : name) (t : Z) (changed : bool) : MasterTracker :=
  {| current_master := Some n; master_term := t; last_heartbeat := Some now;
     tracker_generation := if changed then as_u 64 (tracker_generation tr + 1) else tracker_generation tr |}.

Definition set_master (now : Z) (tr : MasterTracker) (n : name) (t : Z) : MasterTracker :=
  tracker_set now tr n t
    (negb (bool_decide (current_master tr = Some n)) || negb (master_term tr =? t)).

Definition clear_master (tr : MasterTracker) : MasterTracker :=
  {| current_master := None; master_term := master_term tr; last_heartbeat := None;
     tracker_generation := if bool_decide (is_Some (current_master tr))
                           then as_u 64 (tracker_generation tr + 1) else tracker_generation tr |}.

Definition update_master (now : Z) (tr : MasterTracker) (n : name) (t : Z) : MasterTracker * bool :=
  if t <? master_term tr then (tr, false)
  else (tracker_set now tr n t
          (negb (master_term tr =? t) || negb (bool_decide (current_master tr = Some n))), true).

(** * Theorems *)

(** ** The ranking of proposals *)

Lemma then_with_Gt c d : then_with c d = Gt ↔ c = Gt ∨ c = Eq ∧ d = Gt.
Proof. destruct c; naive_solver. Qed.

Lemma then_with_opp c d : CompOpp (then_with c d) = then_with (CompOpp c) (CompOpp d).
Proof. by destruct c. Qed.

Lemma proposal_cmp_antisym a b : proposal_cmp b a = CompOpp (proposal_cmp a b).
Proof.
  unfold proposal_cmp. rewrite !then_with_opp, <-!Z.compare_antisym. by rewrite <-(lex_cmp_antisym (node_name a)).
Qed.

Lemma better_irrefl p : is_better_than p p = false.
Proof. unfold is_better_than, proposal_cmp. by rewrite !Z.compare_refl, lex_cmp_refl. Qed.

Lemma better_asym a b : is_better_than a b = true → is_better_than b a = false.
Proof.
  unfold is_better_than. intros H%bool_decide_eq_true. rewrite proposal_cmp_antisym, H.
  by apply bool_decide_eq_false.
Qed.

Lemma lex_cmp_gt_trans a b c : lex_cmp a b = Gt → lex_cmp b c = Gt → lex_cmp a c = Gt.
Proof.
  intros H1 H2. rewrite lex_cmp_antisym. rewrite (lex_cmp_lt_trans c b a); [done|..];
    rewrite lex_cmp_antisym; [by rewrite H2|by rewrite H1].
Qed.

Lemma better_trans a b c : is_better_than a b = true → is_better_than b c = true → is_better_than a c = true.
Proof.
  unfold is_better_than. rewrite !bool_decide_eq_true. unfold proposal_cmp.
  rewrite !then_with_Gt, !Z.compare_gt_iff, !Z.compare_eq_iff.
  intros H1 H2. repeat (destruct H1 as [H1|[? H1]]; [|]); repeat (destruct H2 as [H2|[? H2]]; [|]);
    try (by left; lia); right; (split; [lia|]); try (by left; lia); right; (split; [lia|]);
    try (by left; lia); right; (split; [lia|]). by eapply lex_cmp_gt_trans.
Qed.

(** What is not worse than the best is not beaten. *)
Lemma not_better_trans a b c : is_better_than a b = false → is_better_than b c = false → is_better_than a c = false.
Proof.
  intros H1 H2. destruct (is_better_than a c) eqn:H3; [|done]. exfalso.
  destruct (is_better_than c b) eqn:H4; [by rewrite (better_trans a c b) in H1|].
  (* b and c rank alike, and so do b and a *)
  assert (∀ x y, is_better_than x y = false → is_better_than y x = false → proposal_cmp x y = Eq) as Heq.
  { intros x y. unfold is_better_than. rewrite (proposal_cmp_antisym x y), !bool_decide_eq_false.
    by destruct (proposal_cmp x y). }
  pose proof (Heq b c H2 H4) as E. unfold is_better_than, proposal_cmp in H1, H3, E.
  rewrite bool_decide_eq_false in H1. rewrite bool_decide_eq_true in H3.
  assert (∀ c d, then_with c d = Eq ↔ c = Eq ∧ d = Eq) as Hte by (intros [] []; naive_solver).
  rewrite !Hte, !Z.compare_eq_iff, lex_cmp_eq in E. destruct E as (E1 & E2 & E3 & E4).
  rewrite E1, E2, E3, E4 in H1. done.
Qed.

(** ** Proposal numbers *)

Abbreviation number := (Z * option name)%type.
Definition num_le (a b : number) : Prop := then_with (a.1 ?= b.1) (opt_name_cmp a.2 b.2) ≠ Gt.

Lemma opt_name_cmp_refl a : opt_name_cmp a a = Eq.
Proof. destruct a; [apply lex_cmp_refl|done]. Qed.

Lemma opt_name_le_trans a b c : opt_name_cmp a b ≠ Gt → opt_name_cmp b c ≠ Gt → opt_name_cmp a c ≠ Gt.
Proof.
  destruct a as [a|], b as [b|], c as [c|]; simpl; try done.
  destruct (lex_cmp a b) eqn:E1; [apply lex_cmp_eq in E1 as ->; done| |done].
  destruct (lex_cmp b c) eqn:E2; [apply lex_cmp_eq in E2 as ->; by rewrite E1| |done].
  by rewrite (lex_cmp_lt_trans a b c).
Qed.

Lemma num_le_spec a b : num_le a b ↔ a.1 < b.1 ∨ a.1 = b.1 ∧ opt_name_cmp a.2 b.2 ≠ Gt.
Proof.
  unfold num_le. destruct (a.1 ?= b.1) eqn:E; simpl; [apply Z.compare_eq in E|
    rewrite Z.compare_lt_iff in E|rewrite Z.compare_gt_iff in E]; split; intros; naive_solver lia.
Qed.

Lemma num_le_refl a : num_le a a.
Proof. apply num_le_spec. right. by rewrite opt_name_cmp_refl. Qed.

Lemma num_le_trans a b c : num_le a b → num_le b c → num_le a c.
Proof.
  rewrite !num_le_spec. intros [H1|[H1 H1']] [H2|[H2 H2']]; [left; lia..|right].
  split; [lia|]. by eapply opt_name_le_trans.
Qed.

Definition promise_number (s : AcceptorState) : number := (promised_term s, promised_proposer s).

Lemma promised_greater_false s t p : promised_greater s t p = false → num_le (promise_number s) (t, Some p).
Proof. unfold promised_greater. by rewrite bool_decide_eq_false. Qed.

(** ** The file *)

Definition name_ok (n : name) : Prop := n ≠ [] ∧ from_utf8 n = true ∧ Z.of_nat (length n) ≤ 65535.
Definition state_ok (s : AcceptorState) : Prop :=
  in_u 64 (promised_term s) ∧ in_u 64 (accepted_term s) ∧
  (∀ n, promised_proposer s = Some n → name_ok n) ∧ (∀ n, accepted_master s = Some n → name_ok n).

Lemma name_field_ok o :
  (∀ n, o = Some n → name_ok n) → ∃ l, o = (if bool_decide (l = []) then None else Some l) ∧
    name_field o = le_bytes 2 (Z.of_nat (length l)) ++ l ∧ from_utf8 l = true ∧ Z.of_nat (length l) ≤ 65535.
Proof.
  intros Ho. unfold name_field. destruct o as [l|]; [|by exists []].
  destruct (Ho l eq_refl) as (Hn & Hu & Hl). exists l. rewrite bool_decide_false by done.
  split_and!; [done| |done|done]. simpl. rewrite Z.min_l, Nat2Z.id, firstn_all by done. done.
Qed.

Lemma slice_app {A} (l1 l2 l3 : list A) k n :
  length l1 = k → length l2 = n → take n (drop k (l1 ++ l2 ++ l3)) = l2.
Proof. intros <- <-. by rewrite drop_app_length, take_app_length. Qed.

Lemma read_name_app l1 l l3 k :
  length l1 = k → from_utf8 l = true →
  read_name (l1 ++ l ++ l3) k (length l) = Ok (if bool_decide (l = []) then None else Some l).
Proof.
  intros Hk Hu. unfold read_name. rewrite slice_app by done. destruct l as [|b l]; [done|].
  cbn [length Nat.eqb]. by rewrite Hu.
Qed.

Section file_theorems.
Context (crc : list Z → Z) (crc_u32 : ∀ l, in_u 32 (crc l)).

Lemma load_state_image s : state_ok s → load_from_disk crc (Some (state_image crc s)) = Ok (Some s).
Proof.
  intros (Hp & Ha & Hpp & Ham).
  destruct (name_field_ok _ Hpp) as (q & Hq & Fq & Uq & Lq).
  destruct (name_field_ok _ Ham) as (m & Hm & Fm & Um & Lm).
  set (head := MAGIC ++ le_bytes 2 VERSION ++ le_bytes 8 (promised_term s) ++ le_bytes 8 (accepted_term s)).
  set (c := le_bytes 4 (crc (state_body s))).
  assert (state_body s = (head ++ le_bytes 2 (Z.of_nat (length m))) ++ m ++
                         le_bytes 2 (Z.of_nat (length q)) ++ q) as Hbody.
  { unfold state_body, head. by rewrite Fq, Fm, <-!app_assoc. }
  set (bytes := state_image crc s).
  assert (bytes = state_body s ++ c) as Hbytes by done.
  assert (length (state_body s) = 26 + length m + length q)%nat as Hlb.
  { rewrite Hbody, !length_app, !length_le_bytes. unfold head. simpl. lia. }
  assert (length bytes = 30 + length m + length q)%nat as Hlen.
  { rewrite Hbytes, length_app, Hlb. unfold c. rewrite length_le_bytes. lia. }
  assert (bytes = (head ++ le_bytes 2 (Z.of_nat (length m))) ++ m ++
                  le_bytes 2 (Z.of_nat (length q)) ++ q ++ c) as Hb
    by (rewrite Hbytes, Hbody; by rewrite <-!app_assoc).
  unfold load_from_disk. rewrite Hlen. unfold MIN_LEN. rewrite (proj2 (Z.ltb_ge _ _)) by lia.
  replace (30 + length m + length q - 4)%nat with (length (state_body s)) by lia.
  rewrite Hbytes at 1 2. rewrite drop_app_length, take_app_length.
  assert (le_val c = crc (state_body s)) as -> by (apply le_val_bytes, crc_u32).
  cbv zeta. rewrite Z.eqb_refl. cbn [negb].
  assert (∀ k n, (k + n ≤ 24)%nat → take n (drop k bytes) = take n (drop k (head ++ le_bytes 2 (Z.of_nat (length m))))) as Hf.
  { intros k n Hk. rewrite Hb, drop_app_le, take_app_le; [done|rewrite length_drop|]; rewrite length_app;
      simpl; lia. }
  change (take 4 bytes) with (take 4 (drop 0 bytes)).
  rewrite (Hf 0%nat 4%nat), (Hf 4%nat 2%nat), (Hf 6%nat 8%nat), (Hf 14%nat 8%nat), (Hf 22%nat 2%nat) by lia.
  change (take 4 (drop 0 _)) with MAGIC. rewrite bool_decide_true by done. cbn [negb].
  change (take 2 (drop 4 (head ++ _))) with (le_bytes 2 VERSION).
  change (take 8 (drop 6 (head ++ _))) with (le_bytes 8 (promised_term s)).
  change (take 8 (drop 14 (head ++ _))) with (le_bytes 8 (accepted_term s)).
  change (take 2 (drop 22 (head ++ _))) with (le_bytes 2 (Z.of_nat (length m))).
  rewrite !le_val_bytes by (unfold in_u, VERSION in *; simpl; lia). cbn [VERSION].
  rewrite (proj2 (Z.ltb_ge _ _)) by lia. rewrite Nat2Z.id. rewrite Hb at 1. rewrite read_name_app by done.
  change (negb (VERSION =? 1) && negb (VERSION =? VERSION)) with false. change (2 <=? VERSION) with true.
  cbv iota. rewrite (proj2 (Z.ltb_ge _ _)) by lia.
  set (pre := (head ++ le_bytes 2 (Z.of_nat (length m))) ++ m).
  assert (length pre = 24 + length m)%nat as Hpre.
  { unfold pre. rewrite !length_app, length_le_bytes. simpl. lia. }
  replace (Z.to_nat (24 + Z.of_nat (length m))) with (length pre) by lia.
  replace bytes with (pre ++ le_bytes 2 (Z.of_nat (length q)) ++ q ++ c)
    by (rewrite Hb; unfold pre; by rewrite <-!app_assoc).
  rewrite (slice_app pre (le_bytes 2 (Z.of_nat (length q))) (q ++ c)) by done.
  rewrite le_val_bytes by (simpl; lia).
  rewrite (proj2 (Z.ltb_ge _ _)) by lia. rewrite Nat2Z.id, (app_assoc pre).
  rewrite read_name_app by (try done; rewrite length_app, length_le_bytes; lia).
  rewrite <-Hq, <-Hm. by destruct s.
Qed.

(** ** Histories of an acceptor *)

(** What a state knows of the accepts and promises it has granted. *)
Definition remembers (grants : list (Z * name)) (promises : list number) (s : AcceptorState) : Prop :=
  (∀ t m, (t, m) ∈ grants → t ≤ accepted_term s ∧ (t = accepted_term s → accepted_master s = Some m)) ∧
  accepted_term s ≤ promised_term s ∧
  (∀ n, n ∈ promises → num_le n (promise_number s)).

Definition acceptor_inv (grants : list (Z * name)) (promises : list number) (a : PersistentAcceptorState)
    : Prop :=
  persist_path a = true ∧ state_ok (mem a) ∧ remembers grants promises (mem a) ∧
  ((disk a = None ∧ grants = [] ∧ promises = []) ∨
   ∃ s, disk a = Some (state_image crc s) ∧ state_ok s ∧ remembers grants promises s).

Lemma fresh_ok : state_ok fresh ∧ remembers [] [] fresh.
Proof.
  split; [by split_and!|]. split_and!; [by intros ?? ?%elem_of_nil|done|by intros ? ?%elem_of_nil].
Qed.

Lemma acceptor_inv_init : acceptor_inv [] [] (load_or_default crc None).
Proof. destruct fresh_ok. split_and!; auto. Qed.

(** Storing a state that remembers what was granted before. *)
Lemma store_inv grants promises a s fl a' ok grants' promises' :
  acceptor_inv grants promises a → state_ok s → remembers grants promises s →
  remembers (grants' ++ grants) (promises' ++ promises) s →
  store crc a s fl = (a', ok) →
  if ok then acceptor_inv (grants' ++ grants) (promises' ++ promises) a' ∧ mem a' = s
  else acceptor_inv grants promises a'.
Proof.
  intros (Hp & Hm & Hr & Hd) Hs Hrs Hrs' H. unfold store, flush_locked in H. rewrite Hp in H.
  destruct fl; injection H as <- <-; [split; [|done]| |]; split_and!; try done; right; by exists s.
Qed.

Lemma promise_inv grants promises a fl t p a' ok :
  acceptor_inv grants promises a → in_u 64 t → name_ok p →
  try_promise_proposal crc a fl t p = (a', ok) →
  if ok then acceptor_inv grants ((t, Some p) :: promises) a' ∧ promise_number (mem a') = (t, Some p)
  else acceptor_inv grants promises a'.
Proof.
  intros Hinv Ht Hname H. pose proof Hinv as (Hp & (Hm1 & Hm2 & Hm3 & Hm4) & (Hr1 & Hr2 & Hr3) & _).
  unfold try_promise_proposal in H. destruct (promised_greater _ _ _) eqn:Hg; [by injection H as <- <-|].
  apply promised_greater_false in Hg. set (s := {| promised_term := t |}) in H.
  assert (promised_term (mem a) ≤ t) as Hle by (apply num_le_spec in Hg; simpl in Hg; lia).
  assert (∀ n, n ∈ promises → num_le n (promise_number s)) as Hps.
  { intros n Hn. eapply num_le_trans; [by apply Hr3|exact Hg]. }
  destruct (store crc a s fl) as [a1 ok1] eqn:Hst. injection H as <- <-.
  apply (store_inv grants promises a s fl a1 ok1 [] [(t, Some p)] Hinv) in Hst.
  - destruct ok1; [|done]. destruct Hst as [H1 H2]. split; [exact H1|]. by rewrite H2.
  - split_and!; simpl; [done|done|by intros ? [= <-]|done].
  - split_and!; simpl; [done|lia|done].
  - split_and!; simpl; [done|lia|]. intros n [->|Hn]%elem_of_cons; [apply num_le_refl|auto].
Qed.

Lemma accept_inv grants promises a fl t p m a' ok :
  acceptor_inv grants promises a → in_u 64 t → name_ok m →
  try_accept_proposal crc a fl t p m = (a', ok) →
  if ok then acceptor_inv ((t, m) :: grants) promises a' ∧
             (∀ m0, (t, m0) ∈ grants → m0 = m) ∧ (∀ n, n ∈ promises → num_le n (t, Some p))
  else acceptor_inv grants promises a'.
Proof.
  intros Hinv Ht Hname H. pose proof Hinv as (Hp & (Hm1 & Hm2 & Hm3 & Hm4) & (Hr1 & Hr2 & Hr3) & _).
  unfold try_accept_proposal in H. destruct (negb _) eqn:Hn; [by injection H as <- <-|]. reflect_bools.
  destruct (_ && _) eqn:Hv; [by injection H as <- <-|]. set (s := {| accepted_term := t |}) in H.
  injection Hn as Hn1 Hn2.
  assert (∀ t0 m0, (t0, m0) ∈ grants → t0 ≤ t ∧ (t0 = t → Some m = Some m0)) as Hgr.
  { intros t0 m0 H0. destruct (Hr1 _ _ H0) as [H1 H2]. split; [lia|]. intros ->.
    assert (accepted_term (mem a) = t) as Heq by lia. rewrite <-H2 by done.
    rewrite Heq, Z.eqb_refl in Hv. simpl in Hv. reflect_bools. done. }
  destruct (store crc a s fl) as [a1 ok1] eqn:Hst. injection H as <- <-.
  apply (store_inv grants promises a s fl a1 ok1 [(t, m)] [] Hinv) in Hst.
  - destruct ok1; [|done]. destruct Hst as [H1 _]. split_and!; [exact H1|..].
    + intros m0 H0. destruct (Hgr t m0 H0) as [_ Hm]. specialize (Hm eq_refl). congruence.
    + intros n H0. unfold promise_number in Hr3. rewrite <-Hn1, <-Hn2. by apply Hr3.
  - split_and!; simpl; [done|done|done|by intros ? [= <-]].
  - split_and!; simpl; [|lia|done]. intros t0 m0 H0. by apply Hgr.
  - split_and!; simpl; [|lia|done]. intros t0 m0 [[= -> ->]|H0]%elem_of_cons; [by split; [lia|]|by apply Hgr].
Qed.

Lemma restart_inv grants promises a :
  acceptor_inv grants promises a → acceptor_inv grants promises (load_or_default crc (disk a)).
Proof.
  intros (Hp & Hm & Hr & [(Hd & -> & ->)|(s & Hd & Hs & Hrs)]); unfold load_or_default; rewrite Hd.
  - destruct fresh_ok. split_and!; auto.
  - rewrite load_state_image by done. split_and!; [done..|]. right. by exists s.
Qed.
End file_theorems.

(** ** Histories of operations *)

Inductive acceptor_op :=
| APromise (fl : flush_outcome) (t : Z) (proposer : name)
| AAccept (fl : flush_outcome) (t : Z) (proposer master : name)
| ARestart.

Definition acceptor_op_ok (op : acceptor_op) : Prop :=
  match op with
  | APromise _ t p => in_u 64 t ∧ name_ok p
  | AAccept _ t _ m => in_u 64 t ∧ name_ok m
  | ARestart => True
  end.

Definition acceptor_step (crc : list Z → Z) (a : PersistentAcceptorState) (op : acceptor_op)
    : PersistentAcceptorState * bool :=
  match op with
  | APromise fl t p => try_promise_proposal crc a fl t p
  | AAccept fl t p m => try_accept_proposal crc a fl t p m
  | ARestart => (load_or_default crc (disk a), true)
  end.

(** An acceptor with the operations it has answered, the last one first. *)
Abbreviation history := (list (acceptor_op * bool)).
Definition acceptor_run (crc : list Z → Z) (ops : list acceptor_op) : PersistentAcceptorState * history :=
  foldl (λ '(a, h) op, let '(a, ok) := acceptor_step crc a op in (a, (op, ok) :: h))
    (load_or_default crc None, []) ops.

Definition granted_accepts (h : history) : list (Z * name) :=
  omap (λ '(op, ok), match op with AAccept _ t _ m => if ok : bool then Some (t, m) else None | _ => None end) h.
Definition granted_promises (h : history) : list number :=
  omap (λ '(op, ok), match op with APromise _ t p => if ok : bool then Some (t, Some p) else None | _ => None end) h.

Lemma acceptor_step_inv crc h a op a' ok :
  (∀ l, in_u 32 (crc l)) → acceptor_op_ok op →
  acceptor_inv crc (granted_accepts h) (granted_promises h) a → acceptor_step crc a op = (a', ok) →
  acceptor_inv crc (granted_accepts ((op, ok) :: h)) (granted_promises ((op, ok) :: h)) a' ∧
  match op with
  | AAccept _ t p m => ok = true →
      (∀ m0, (t, m0) ∈ granted_accepts h → m0 = m) ∧
      (∀ n, n ∈ granted_promises h → num_le n (t, Some p))
  | _ => True
  end.
Proof.
  intros Hcrc Hop Hinv H. destruct op as [fl t p|fl t p m|]; simpl in Hop, H.
  - destruct Hop as [Ht Hn]. pose proof (promise_inv crc _ _ a fl t p a' ok Hinv Ht Hn H) as Hi.
    split; [|done]. destruct ok; [by apply Hi|exact Hi].
  - destruct Hop as [Ht Hn]. pose proof (accept_inv crc _ _ a fl t p m a' ok Hinv Ht Hn H) as Hi.
    destruct ok; [|split; [exact Hi|discriminate]]. destruct Hi as [Hi Hnum]. split; [exact Hi|by intros _].
  - injection H as <- <-. split; [|done]. by apply restart_inv.
Qed.

Lemma acceptor_run_inv crc ops :
  (∀ l, in_u 32 (crc l)) → Forall acceptor_op_ok ops →
  let '(a, h) := acceptor_run crc ops in acceptor_inv crc (granted_accepts h) (granted_promises h) a.
Proof.
  intros Hcrc Hops. unfold acceptor_run. induction ops as [|op ops IH] using rev_ind.
  { apply acceptor_inv_init. }
  rewrite Forall_app, Forall_singleton in Hops. destruct Hops as [Hops Hop]. rewrite foldl_snoc.
  specialize (IH Hops). destruct (foldl _ _ ops) as [a h]. cbn [snd fst] in *.
  destruct (acceptor_step crc a op) as [a' ok] eqn:Hs.
  apply (acceptor_step_inv crc h a op a' ok Hcrc Hop IH Hs).
Qed.

(** ** The latch *)

Inductive latch_op :=
| LFreeze (now : Z) (p : Proposal)
| LEvent (p : Proposal)
| LClear
| LAwait
| LCheck (now my_generation : Z).

Definition latch_step (l : CommitFreezeLatch) (op : latch_op) : CommitFreezeLatch :=
  match op with
  | LFreeze now p => freeze now l p
  | LEvent p => vlsn_event l p
  | LClear => clear_latch l
  | LAwait => fst (await_thaw l)
  | LCheck now g => fst (await_check now l g)
  end.

(** The end of the freeze in effect. *)
Definition latch_inv (tmo T : Z) (l : CommitFreezeLatch) : Prop :=
  timeout l = tmo ∧
  (frozen (latch_state l) = true → ∃ e, freeze_end (latch_state l) = Some e ∧ e ≤ T + tmo).

Lemma latch_step_inv tmo T l op :
  latch_inv tmo T l → match op with LFreeze now _ => now ≤ T | _ => True end → latch_inv tmo T (latch_step l op).
Proof.
  intros [Ht Hf] Hop. unfold latch_step, freeze, vlsn_event, clear_latch, await_thaw, await_check, thawed.
  destruct op; repeat (split_match; try done); split; simpl; try done.
  all: intros _; eexists; (split; [done|]); lia.
Qed.

(** * Properties *)


(** A checksum for the concrete runs. *)
Definition demo_crc (l : list Z) : Z := as_u 32 (foldr Z.add 0 l).

Lemma demo_crc_u32 l : in_u 32 (demo_crc l).
Proof. apply Z.mod_pos_bound. lia. Qed.

Definition node_a : name := [97].
Definition node_b : name := [98].

Definition demo_acceptor_ops : list acceptor_op :=
  [APromise Flushed 1 node_a; AAccept Flushed 1 node_a node_a; APromise Flushed 1 node_b; ARestart;
   AAccept Flushed 1 node_b node_b; APromise FailedAfterRename 2 node_a; ARestart;
   APromise Flushed 3 node_b; AAccept Flushed 3 node_b node_a].


(** The state file: what [flush_locked] writes is loaded back at the next
    start; a missing file is a fresh acceptor and so is a corrupt one, whose
    file is removed. *)
Theorem acceptor_file_roundtrip crc s :
  (∀ l, in_u 32 (crc l)) → state_ok s →
  load_or_default crc (Some (state_image crc s)) =
    {| mem := s; disk := Some (state_image crc s); persist_path := true |} ∧
  load_or_default crc None = {| mem := fresh; disk := None; persist_path := true |} ∧
  (∀ f e, load_from_disk crc f = Err e →
     load_or_default crc f = {| mem := fresh; disk := None; persist_path := true |}) ∧
  (∀ bytes, (length bytes < 28)%nat → load_from_disk crc (Some bytes) = Err (Truncated 28 (Z.of_nat (length bytes)))).
Proof.
  intros Hcrc Hs. unfold load_or_default. rewrite load_state_image by done. split_and!; [done|done|..].
  - intros f e He. by rewrite He.
  - intros bytes Hl. unfold load_from_disk, MIN_LEN. by rewrite (proj2 (Z.ltb_lt _ _)) by lia.
Qed.

Lemma acceptor_file_roundtrip_witness :
  let s := {| promised_term := 3; promised_proposer := Some node_b; accepted_term := 3;
              accepted_master := Some node_a |} in
  load_or_default demo_crc (Some (state_image demo_crc s)) =
    {| mem := s; disk := Some (state_image demo_crc s); persist_path := true |}.
Proof.
  intros s. apply (acceptor_file_roundtrip demo_crc s); [apply demo_crc_u32|].
  split_and!; try done; by intros n [= <-].
Defined.

(** C40. Liveness of the replay thread: whatever freezes, election results,
    clears and waits happened before the time [T], a waiter that looks at the
    latch at or after [T] plus the timeout returns, and unless a newer round
    froze the latch meanwhile the freeze is lifted. *)
Theorem await_thaw_bounded tmo T now g ops :
  Forall (λ op, match op with LFreeze t _ => t ≤ T | _ => True end) ops → T + tmo ≤ now →
  let l := foldl latch_step (latch_new tmo) ops in
  ∃ l' by_election, await_check now l g = (l', Returned by_election) ∧
    (generation (latch_state l) = g → frozen (latch_state l') = false).
Proof.
  intros Hops Hnow. cbn zeta.
  assert (latch_inv tmo T (foldl latch_step (latch_new tmo) ops)) as [Ht Hf].
  { assert (latch_inv tmo T (latch_new tmo)) as Hinit by done. revert Hinit.
    generalize (latch_new tmo). induction Hops as [|op ops Hop Hops IH]; intros l Hl; [done|].
    apply IH. by apply latch_step_inv. }
  generalize dependent (foldl latch_step (latch_new tmo) ops). intros l Ht Hf. unfold await_check.
  destruct (frozen (latch_state l)) eqn:Hfr; cbn [negb orb]; [|by eexists _, _; split].
  destruct (generation (latch_state l) =? g) eqn:Hg; reflect_bools; cbn [negb]; [|by eexists _, _; split].
  destruct (Hf eq_refl) as (e & -> & He). simpl. rewrite (proj2 (Z.leb_le _ _)) by lia. by eexists _, _.
Qed.

Lemma await_thaw_bounded_witness :
  let l := foldl latch_step (latch_new 5000) [LFreeze 100 (round_proposal 7)] in
  ∃ l' b, await_check 5100 l 0 = (l', Returned b).
Proof.
  destruct (await_thaw_bounded 5000 100 5100 0 [LFreeze 100 (round_proposal 7)]) as (l' & b & H & _).
  - constructor; [lia|constructor].
  - lia.
  - exists l', b. exact H.
Defined.

(** A result of the round that froze the latch, or of a later one, lifts the
    freeze; the next waiter returns at once and sees that an election ended
    the freeze, even if the result came before it waited.  A result of an
    older round changes nothing. *)
Theorem election_result_thaws now l t r :
  frozen_proposal (latch_state l) = None → 
  let l1 := freeze now l (round_proposal t) in
  let l2 := vlsn_event l1 (round_proposal r) in
  if t <=? r
  then frozen (latch_state l2) = false ∧ snd (await_thaw l2) = Returned true ∧
       snd (await_thaw (fst (await_thaw l2))) = Returned false
  else l2 = l1 ∧ snd (await_thaw l2) = Waiting (generation (latch_state l1)).
Proof.
  intros Hn. unfold freeze. rewrite Hn. cbn zeta.
  unfold vlsn_event. cbn [latch_state frozen_proposal with_latch_state].
  unfold is_better_than, proposal_cmp, round_proposal. cbn [dtvlsn vlsn priority node_name with_dtvlsn with_timestamp].
  destruct (t <=? r) eqn:Htr; reflect_bools.
  - rewrite bool_decide_false; [done|]. rewrite !then_with_Gt, Z.compare_gt_iff. simpl. naive_solver lia.
  - rewrite bool_decide_true; [done|]. apply then_with_Gt. left. by apply Z.compare_gt_iff.
Qed.

Lemma election_result_thaws_witness :
  snd (await_thaw (vlsn_event (freeze 0 (latch_new 5000) (round_proposal 7)) (round_proposal 8))) = Returned true.
Proof. apply (election_result_thaws 0 (latch_new 5000) 7 8). reflexivity. Defined.
