(* ===== verification/Election.v ===== *)
(** * Elections of a master (noxu-rep, elections/paxos.rs, rep_group.rs)

    The replication group and its quorums, the choice of the value of phase 2,
    the proposer [run_election_with_phi_dtvlsn_self] as a round that advances
    reply by reply, the acceptor session [run_acceptor_with_state], and the
    interleaving of any number of rounds with lost messages, failed flushes
    and restarts.  Expression quorums come from the quoracle library: its
    quorum system is a parameter, with the lists of its quorums. *)

From S2P Require Import Prelude Bytes Acceptor.

(** ** The code: the group *)

Inductive NodeType := Electable | Monitor | Secondary | Arbiter.

#[export] Instance NodeType_eq_dec : EqDecision NodeType.
Proof. solve_decision. Defined.

Definition is_electable (t : NodeType) : bool := match t with Electable | Arbiter => true | _ => false end.
Definition is_data_node (t : NodeType) : bool := match t with Electable | Secondary => true | _ => false end.
Definition is_arbiter (t : NodeType) : bool := match t with Arbiter => true | _ => false end.
Definition can_be_master (t : NodeType) : bool := match t with Electable => true | _ => false end.

Record RepNode := {
  rn_name : name;
  node_type : NodeType;
  host : name;
  port : Z;
  node_id : Z;
  read_capacity_pct : Z;
  write_capacity_pct : Z;
  latency_hint_ms : Z;
}.

Definition RepNode_new (n : name) (t : NodeType) (h : name) (p id : Z) : RepNode :=
  {| rn_name := n; node_type := t; host := h; port := p; node_id := id; read_capacity_pct := 100;
     write_capacity_pct := 100; latency_hint_ms := 1 |}.

Definition majority_size (n : Z) : Z := if n =? 0 then 0 else n / 2 + 1.

Inductive ReplicaAckPolicy := AckAll | AckSimpleMajority | AckNone.

Definition policy_required_acks (p : ReplicaAckPolicy) (electable_count : Z) : Z :=
  match p with
  | AckAll => if electable_count =? 0 then 0 else electable_count - 1
  | AckSimpleMajority => if electable_count <=? 1 then 0 else electable_count / 2 + 1 - 1
  | AckNone => 0
  end.

Section group.
Context {QuorumSystem : Type} (read_quorums write_quorums : QuorumSystem → list (gset name)).

Inductive QuorumPolicy :=
| SimpleMajority
| Flexible (phase1 phase2 : Z)
| Expression (qs : QuorumSystem).

(** [map(len).min().unwrap_or(electable)]. *)
Definition min_size (qs : list (gset name)) (electable : Z) : Z :=
  match qs with
  | [] => electable
  | q :: qs => foldr (λ q, Z.min (Z.of_nat (size q))) (Z.of_nat (size q)) qs
  end.

Definition policy_phase1_quorum (p : QuorumPolicy) (electable : Z) : Z :=
  match p with
  | SimpleMajority => majority_size electable
  | Flexible phase1 _ => phase1
  | Expression qs => min_size (read_quorums qs) electable
  end.
Definition policy_phase2_quorum (p : QuorumPolicy) (electable : Z) : Z :=
  match p with
  | SimpleMajority => majority_size electable
  | Flexible _ phase2 => phase2
  | Expression qs => min_size (write_quorums qs) electable
  end.

(** [None] is the [Err] with its message. *)
Definition validate (p : QuorumPolicy) (n : Z) : bool :=
  match p with
  | SimpleMajority => true
  | Flexible phase1 phase2 => n <? phase1 + phase2
  | Expression _ => true
  end.

Record RepGroup := {
  group_name : name;
  group_id : Z;
  nodes : gmap name RepNode;
  quorum_policy : QuorumPolicy;
}.

Definition RepGroup_new (n : name) (id : Z) : RepGroup :=
  {| group_name := n; group_id := id; nodes := ∅; quorum_policy := SimpleMajority |}.
Definition with_nodes (g : RepGroup) (ns : gmap name RepNode) : RepGroup :=
  {| group_name := group_name g; group_id := group_id g; nodes := ns; quorum_policy := quorum_policy g |}.
Definition add_node (g : RepGroup) (nd : RepNode) : RepGroup * option RepNode :=
  (with_nodes g (<[rn_name nd := nd]> (nodes g)), nodes g !! rn_name nd).
Definition remove_node (g : RepGroup) (n : name) : RepGroup * option RepNode :=
  (with_nodes g (delete n (nodes g)), nodes g !! n).
Definition get_node (g : RepGroup) (n : name) : option RepNode := nodes g !! n.

Definition count_nodes (g : RepGroup) (P : NodeType → bool) : Z :=
  as_u 32 (Z.of_nat (size (filter (λ '(_, nd), P (node_type nd) = true) (nodes g)))).
Definition electable_count (g : RepGroup) : Z := count_nodes g is_electable.
Definition data_node_count (g : RepGroup) : Z := count_nodes g (λ t, is_electable t && negb (is_arbiter t)).
Definition arbiter_count (g : RepGroup) : Z := count_nodes g is_arbiter.
Definition ack_group_size (g : RepGroup) : Z :=
  let data := data_node_count g in
  if (0 <? arbiter_count g) && (data <? 2) then data + 1 else data.
Definition required_acks (g : RepGroup) (p : ReplicaAckPolicy) : Z := policy_required_acks p (ack_group_size g).
Definition phase1_quorum (g : RepGroup) : Z := policy_phase1_quorum (quorum_policy g) (electable_count g).
Definition phase2_quorum (g : RepGroup) : Z := policy_phase2_quorum (quorum_policy g) (electable_count g).
Definition rebuild_quorum_system (g : RepGroup) : bool := validate (quorum_policy g) (electable_count g).

(** ** The code: the value of phase 2 *)

Record PromiseRecord := { proposal : Proposal; is_arbiter_rec : bool }.

Inductive Phase2Value :=
| Value (p : Proposal)
| NoNonZeroPriority
| ArbiterVeto.

(** [match cur { Some(cur) if !p.is_better_than(cur) => {}, _ => cur = Some(p) }]. *)
Definition keep_best (cur : option Proposal) (p : Proposal) : option Proposal :=
  match cur with
  | Some c => if negb (is_better_than p c) then cur else Some p
  | None => Some p
  end.

Record choice := { chosen : option Proposal; zero_prio_nodes : Z; arb_best : option Proposal; non_arb_count : Z }.

Definition choose_step (c : choice) (p : PromiseRecord) : choice :=
  if priority (proposal p) =? 0
  then {| chosen := chosen c; zero_prio_nodes := zero_prio_nodes c + 1; arb_best := arb_best c;
          non_arb_count := non_arb_count c |}
  else if is_arbiter_rec p
  then {| chosen := chosen c; zero_prio_nodes := zero_prio_nodes c;
          arb_best := keep_best (arb_best c) (proposal p); non_arb_count := non_arb_count c |}
  else {| chosen := keep_best (chosen c) (proposal p); zero_prio_nodes := zero_prio_nodes c;
          arb_best := arb_best c; non_arb_count := non_arb_count c + 1 |}.

Definition choose_phase2_value (promises : list PromiseRecord) : Phase2Value :=
  let c := foldl choose_step
    {| chosen := None; zero_prio_nodes := 0; arb_best := None; non_arb_count := 0 |} promises in
  match chosen c with
  | None => NoNonZeroPriority
  | Some value =>
      if (non_arb_count c <=? 1) && match arb_best c with Some arb => is_better_than arb value | None => false end
      then ArbiterVeto
      else Value value
  end.

(** ** The code: the proposer *)

(** A reply on a channel: [None] is a failed send, a timeout or an error. *)
Inductive reply :=
| ElectionVote (granted : bool)
| ElectionProposal (p : Proposal).

(** Where the proposer is: the channels still to be asked, the end with the
    node it elected. *)
Inductive phase :=
| Phase1 (todo : list name)
| Phase2 (todo : list name) (winner : name)
| Ended (elected : option name).

(** A call of [run_election_with_phi_dtvlsn_self]; [gated] is a [self_acceptor]
    that is [Some]; [accepts] has the voters that the code counts. *)
Record Round := {
  r_name : name;
  r_term : Z;
  gated : bool;
  self_phase1_vote : bool;
  promises : list name;
  promise_records : list PromiseRecord;
  accepts : list name;
  r_phase : phase;
}.

Definition with_phase (r : Round) (ps : list name) (rs : list PromiseRecord) (acc : list name) (ph : phase)
    : Round :=
  {| r_name := r_name r; r_term := r_term r; gated := gated r; self_phase1_vote := self_phase1_vote r;
     promises := ps; promise_records := rs; accepts := acc; r_phase := ph |}.

(** The guards of a round, up to the self-vote of phase 1. *)
Definition may_propose (g : RepGroup) (me : name) (prio : Z) : bool :=
  match get_node g me with Some nd => can_be_master (node_type nd) | None => false end
  && negb (prio =? 0) && negb ((phase1_quorum g =? 0) || (phase2_quorum g =? 0)).

Definition start_round (me : name) (channels : list name) (own : Proposal) (t : Z) (self_gated self_vote : bool)
    : Round :=
  {| r_name := me; r_term := t; gated := self_gated; self_phase1_vote := if self_gated then self_vote else true;
     promises := []; promise_records := [{| proposal := own; is_arbiter_rec := false |}]; accepts := [];
     r_phase := Phase1 channels |}.

(** The body of the loop of phase 1, for the reply of [ch]. *)
Definition phase1_reply (g : RepGroup) (r : Round) (ch : name) (todo : list name) (rep : option reply) : Round :=
  match rep with
  | Some (ElectionVote true) => with_phase r (promises r ++ [ch]) (promise_records r) [] (Phase1 todo)
  | Some (ElectionProposal p) =>
      let peer_node := get_node g (node_name p) in
      let peer_can_be_master := match peer_node with Some n => can_be_master (node_type n) | None => false end in
      let peer_is_arbiter :=
        match peer_node with
        | Some n => is_electable (node_type n) && negb (can_be_master (node_type n))
        | None => false
        end in
      let records :=
        if peer_can_be_master && negb (priority p =? 0)
        then promise_records r ++ [{| proposal := p; is_arbiter_rec := false |}]
        else if peer_is_arbiter
        then promise_records r ++ [{| proposal := p; is_arbiter_rec := true |}]
        else promise_records r in
      with_phase r (promises r ++ [ch]) records [] (Phase1 todo)
  | _ => with_phase r (promises r) (promise_records r) [] (Phase1 todo)
  end.

Definition vote (b : bool) : Z := if b then 1 else 0.

(** The end of phase 1: the quorum, and the value of phase 2. *)
Definition end_phase1 (g : RepGroup) (r : Round) : Round :=
  let total_promises := Z.of_nat (length (promises r)) + vote (self_phase1_vote r) in
  let ended := with_phase r (promises r) (promise_records r) [] (Ended None) in
  if total_promises <? phase1_quorum g then ended
  else
    match choose_phase2_value (promise_records r) with
    | Value p => with_phase r (promises r) (promise_records r) [] (Phase2 (promises r) (node_name p))
    | ArbiterVeto => ended
    | NoNonZeroPriority => ended
    end.

Definition phase2_reply (r : Round) (ch : name) (todo : list name) (winner : name) (rep : option reply) : Round :=
  let acc := match rep with Some (ElectionVote true) => accepts r ++ [ch] | _ => accepts r end in
  with_phase r (promises r) (promise_records r) acc (Phase2 todo winner).

(** The end of phase 2, with the answer of the own acceptor. *)
Definition end_phase2 (g : RepGroup) (r : Round) (winner : name) (self_accept : bool) : Round :=
  let self_phase2_vote := if gated r then self_phase1_vote r && self_accept else true in
  let acc := if self_phase2_vote then accepts r ++ [r_name r] else accepts r in
  with_phase r (promises r) (promise_records r) acc
    (Ended (if phase2_quorum g <=? Z.of_nat (length acc) then Some winner else None)).

(** The name that the caller resolves to a node id. *)
Definition winner_id (g : RepGroup) (me : name) (my_id : Z) (winner : name) : Z :=
  if bool_decide (winner = me) then my_id
  else match get_node g winner with Some n => node_id n | None => my_id end.

(** The peers that the election driver dials: every other node of the group. *)
Definition driver_channels (g : RepGroup) (me : name) : list name :=
  filter (λ n, n ≠ me) ((map_to_list (nodes g)).*1).

(** ** The code: the acceptor session *)

(** [eq_ignore_ascii_case]. *)
Definition to_ascii_lower (b : Z) : Z := if (65 <=? b) && (b <=? 90) then b + 32 else b.
Definition eq_ignore_ascii_case (a b : name) : bool :=
  bool_decide ((to_ascii_lower <$> a) = (to_ascii_lower <$> b)).

(** [None] is a channel without an authenticated peer. *)
Definition check_election_identity (subject_names : option (list name)) (proposer : name) : bool :=
  match subject_names with
  | Some ns => existsb (λ n, eq_ignore_ascii_case n proposer) ns
  | None => true
  end.

Record Node := { acceptor : PersistentAcceptorState; latch : CommitFreezeLatch }.

Section session.
Context (crc : list Z → Z).

(** Phase 1: the new node, and the reply; [None] closes the session with an error. *)
Definition acceptor_phase1 (nd : Node) (now : Z) (fl : flush_outcome) (subject_names : option (list name))
    (proposer : name) (t : Z) (suggestion : Proposal) : Node * option reply :=
  if negb (check_election_identity subject_names proposer) then (nd, None)
  else
    let '(a, ok) := try_promise_proposal crc (acceptor nd) fl t proposer in
    if ok : bool
    then ({| acceptor := a; latch := freeze now (latch nd) (round_proposal t) |}, Some (ElectionProposal suggestion))
    else ({| acceptor := a; latch := latch nd |}, Some (ElectionVote false)).

(** Phase 2, on a session that promised [(phase1_term, phase1_proposer)]. *)
Definition acceptor_phase2 (nd : Node) (fl : flush_outcome) (phase1_term : Z) (phase1_proposer : name)
    (t : Z) (master : name) : Node * option reply :=
  let l := vlsn_event (latch nd) (round_proposal (Z.max t phase1_term)) in
  if t =? phase1_term then
    let '(a, ok) := try_accept_proposal crc (acceptor nd) fl t phase1_proposer master in
    ({| acceptor := a; latch := l |}, Some (ElectionVote ok))
  else ({| acceptor := acceptor nd; latch := l |}, Some (ElectionVote false)).
End session.
End group.

(** ** Interleavings of rounds *)

(** What happens to a message and its reply. *)
Record delivery := {
  delivered : bool;
  answered : bool;
  d_now : Z;
  d_flush : flush_outcome;
  d_subjects : option (list name);
  d_suggestion : Proposal;
}.

Record System := { sys_nodes : gmap name Node; sys_rounds : list Round }.

Inductive event :=
| EStart (me : name) (channels : list name) (own : Proposal) (t : Z) (self_gated : bool) (fl : flush_outcome)
| EReply (i : nat) (d : delivery)
| EEnd (i : nat) (fl : flush_outcome)
| ERestart (n : name).

Section system.
Context {QuorumSystem : Type} (read_quorums write_quorums : QuorumSystem → list (gset name)).
Context (crc : list Z → Z) (g : @RepGroup QuorumSystem).

(** A message to the node [ch], answered by [f]. *)
Definition send_to (ns : gmap name Node) (ch : name) (d : delivery) (f : Node → Node * option reply)
    : gmap name Node * option reply :=
  if delivered d then
    match ns !! ch with
    | Some nd => let '(nd, rep) := f nd in (<[ch := nd]> ns, if answered d then rep else None)
    | None => (ns, None)
    end
  else (ns, None).

Definition with_acceptor (nd : Node) (a : PersistentAcceptorState) : Node :=
  {| acceptor := a; latch := latch nd |}.

Definition sys_step (s : System) (e : event) : option System :=
  match e with
  | EStart me channels own t self_gated fl =>
      nd ← sys_nodes s !! me;
      if may_propose read_quorums write_quorums g me (priority own) then
        let '(a, ok) := try_promise_proposal crc (acceptor nd) fl t me in
        let r := start_round me channels own t self_gated ok in
        Some {| sys_nodes := if self_gated then <[me := with_acceptor nd a]> (sys_nodes s) else sys_nodes s;
                sys_rounds := sys_rounds s ++ [r] |}
      else None
  | EReply i d =>
      r ← sys_rounds s !! i;
      match r_phase r with
      | Phase1 (ch :: todo) =>
          let '(ns, rep) := send_to (sys_nodes s) ch d
            (λ nd, acceptor_phase1 crc nd (d_now d) (d_flush d) (d_subjects d) (r_name r) (r_term r) (d_suggestion d)) in
          Some {| sys_nodes := ns; sys_rounds := <[i := phase1_reply g r ch todo rep]> (sys_rounds s) |}
      | Phase2 (ch :: todo) winner =>
          let '(ns, rep) := send_to (sys_nodes s) ch d
            (λ nd, acceptor_phase2 crc nd (d_flush d) (r_term r) (r_name r) (r_term r) winner) in
          Some {| sys_nodes := ns; sys_rounds := <[i := phase2_reply r ch todo winner rep]> (sys_rounds s) |}
      | _ => None
      end
  | EEnd i fl =>
      r ← sys_rounds s !! i;
      match r_phase r with
      | Phase1 [] =>
          Some {| sys_nodes := sys_nodes s;
                  sys_rounds := <[i := end_phase1 read_quorums g r]> (sys_rounds s) |}
      | Phase2 [] winner =>
          nd ← sys_nodes s !! r_name r;
          let '(a, ok) := if gated r && self_phase1_vote r
                          then try_accept_proposal crc (acceptor nd) fl (r_term r) (r_name r) winner
                          else (acceptor nd, false) in
          Some {| sys_nodes := <[r_name r := with_acceptor nd a]> (sys_nodes s);
                  sys_rounds := <[i := end_phase2 write_quorums g r winner ok]> (sys_rounds s) |}
      | _ => None
      end
  | ERestart n =>
      nd ← sys_nodes s !! n;
      Some {| sys_nodes := <[n := with_acceptor nd (load_or_default crc (disk (acceptor nd)))]> (sys_nodes s);
              sys_rounds := sys_rounds s |}
  end.

(** Every node of the group, with a fresh acceptor. *)
Definition sys_init : System :=
  {| sys_nodes := (λ _, {| acceptor := load_or_default crc None; latch := latch_new 5000 |}) <$> nodes g;
     sys_rounds := [] |}.

Definition sys_run (evs : list event) : option System :=
  foldl (λ os e, s ← os; sys_step s e) (Some sys_init) evs.
End system.

(** * Theorems *)

(** ** The best candidate *)

Lemma keep_best_spec cur p :
  ∃ b, keep_best cur p = Some b ∧ is_better_than p b = false ∧
    (∀ c, cur = Some c → is_better_than c b = false) ∧ (b = p ∨ cur = Some b).
Proof.
  unfold keep_best. destruct cur as [c|].
  - destruct (is_better_than p c) eqn:E; simpl.
    + exists p. split_and!; [done|apply better_irrefl| |by left]. intros ? [= <-]. by apply better_asym.
    + exists c. split_and!; [done|done| |by right]. intros ? [= <-]. apply better_irrefl.
  - exists p. split_and!; [done|apply better_irrefl|done|by left].
Qed.

Definition candidate (p : PromiseRecord) : bool := negb (priority (proposal p) =? 0) && negb (is_arbiter_rec p).
Definition witness_arbiter (p : PromiseRecord) : bool := negb (priority (proposal p) =? 0) && is_arbiter_rec p.

(** The running maximum over the records that [P] selects. *)
Definition best_of (P : PromiseRecord → bool) (ps : list PromiseRecord) (o : option Proposal) : Prop :=
  match o with
  | Some b => (∃ p, p ∈ ps ∧ P p = true ∧ proposal p = b) ∧
              ∀ p, p ∈ ps → P p = true → is_better_than (proposal p) b = false
  | None => ∀ p, p ∈ ps → P p = false
  end.

Lemma best_of_step (P : PromiseRecord → bool) ps o p :
  best_of P ps o → best_of P (ps ++ [p]) (if P p then keep_best o (proposal p) else o).
Proof.
  intros Ho. destruct (P p) eqn:Hp.
  - destruct (keep_best_spec o (proposal p)) as (b & -> & H1 & H2 & H3). split.
    + destruct H3 as [->|Hob]; [exists p; split_and!; [apply elem_of_app; right; by left|done|done]|].
      rewrite Hob in Ho. destruct Ho as [(q & Hq & HPq & Hb) _]. exists q. split_and!; [apply elem_of_app; by left|done|done].
    + intros q [Hq| ->%list_elem_of_singleton]%elem_of_app HPq; [|done].
      destruct o as [c|]; [|by rewrite Ho in HPq]. destruct Ho as [_ Hc].
      eapply not_better_trans; [by apply Hc|by apply H2].
  - destruct o as [c|].
    + destruct Ho as [(q & Hq & HPq & Hb) Hc]. split; [exists q; split_and!; [apply elem_of_app; by left|done|done]|].
      intros x [Hx| ->%list_elem_of_singleton]%elem_of_app HPx; [by apply Hc|congruence].
    + intros q [Hq| ->%list_elem_of_singleton]%elem_of_app; [by apply Ho|done].
Qed.

Lemma choose_fold ps :
  let c := foldl choose_step
    {| chosen := None; zero_prio_nodes := 0; arb_best := None; non_arb_count := 0 |} ps in
  best_of candidate ps (chosen c) ∧ best_of witness_arbiter ps (arb_best c) ∧
  non_arb_count c = Z.of_nat (length (filter (λ p, candidate p = true) ps)).
Proof.
  cbn zeta. induction ps as [|p ps IH] using rev_ind.
  { split_and!; try done; by intros p ?%elem_of_nil. }
  rewrite foldl_snoc. destruct IH as (H1 & H2 & H3). set (c := foldl _ _ ps) in *.
  apply (best_of_step candidate _ _ p) in H1. apply (best_of_step witness_arbiter _ _ p) in H2.
  rewrite filter_app, length_app, Nat2Z.inj_add, <-H3, filter_cons, filter_nil.
  unfold choose_step. unfold candidate, witness_arbiter in H1, H2 |- *.
  destruct (priority (proposal p) =? 0), (is_arbiter_rec p); cbn [negb andb] in *;
    (split_and!; [done|done|]); simpl; lia.
Qed.

(** ** Quorums *)

(** Two lists of voters that are too large to be disjoint. *)
Lemma voters_intersect (E : gset name) (l1 l2 : list name) :
  NoDup l1 → NoDup l2 → (∀ v, v ∈ l1 → v ∈ E) → (∀ v, v ∈ l2 → v ∈ E) →
  (size E < length l1 + length l2)%nat → ∃ v, v ∈ l1 ∧ v ∈ l2.
Proof.
  intros N1 N2 H1 H2 Hs. set (s1 := list_to_set l1 : gset name). set (s2 := list_to_set l2 : gset name).
  destruct (decide (s1 ∩ s2 = ∅)) as [He|He].
  - exfalso. assert (size (s1 ∪ s2) ≤ size E)%nat as Hle.
    { apply subseteq_size. intros v. unfold s1, s2. rewrite elem_of_union, !elem_of_list_to_set. naive_solver. }
    rewrite size_union in Hle by set_solver. unfold s1, s2 in Hle.
    rewrite !size_list_to_set in Hle by done. lia.
  - apply set_choose_L in He as [v Hv]. exists v. unfold s1, s2 in Hv.
    by rewrite elem_of_intersection, !elem_of_list_to_set in Hv.
Qed.

Section election.
Context {QuorumSystem : Type} (read_quorums write_quorums : QuorumSystem → list (gset name)).
Context (crc : list Z → Z) (crc_u32 : ∀ l, in_u 32 (crc l)).
Context (g : @RepGroup QuorumSystem).

(** The members that vote. *)
Definition electables : gset name := dom (filter (λ '(_, nd), is_electable (node_type nd) = true) (nodes g)).

(** Names that the state file can hold, and a count that fits. *)
Definition group_ok : Prop :=
  (∀ n nd, nodes g !! n = Some nd → name_ok n) ∧ Z.of_nat (size (nodes g)) < 2 ^ 32.

Lemma electables_size : group_ok → Z.of_nat (size electables) = electable_count g.
Proof.
  intros [_ Hs]. unfold electables, electable_count, count_nodes. rewrite size_dom, as_u_id; [done|].
  split; [lia|]. eapply Z.le_lt_trans; [|exact Hs]. apply inj_le, map_subseteq_size, map_filter_subseteq.
Qed.

Lemma can_be_master_electable n nd :
  get_node g n = Some nd → can_be_master (node_type nd) = true → n ∈ electables.
Proof.
  intros Hn Hc. apply elem_of_dom. exists nd. apply map_lookup_filter_Some. split; [done|].
  by destruct (node_type nd).
Qed.

(** The events of a group whose proposers ask voting members only. *)
Definition event_ok (e : event) : Prop :=
  match e with
  | EStart me channels own t self_gated _ =>
      self_gated = true ∧ in_u 64 t ∧ node_name own = me ∧ NoDup channels ∧ (me ∉ channels) ∧
      (∀ c, c ∈ channels → c ∈ electables)
  | _ => True
  end.

(** The accepts that are granted: one master per term and node. *)
Definition grants_ok (G : name → list (Z * name)) (ns : gmap name Node) : Prop :=
  (∀ n t m m', (t, m) ∈ G n → (t, m') ∈ G n → m = m') ∧
  (∀ n nd, ns !! n = Some nd → ∃ P, acceptor_inv crc (G n) P (acceptor nd)).

Definition voters_ok (r : Round) (l : list name) : Prop :=
  NoDup l ∧ (r_name r ∉ l) ∧ ∀ v, v ∈ l → v ∈ electables.

Definition round_inv (G : name → list (Z * name)) (r : Round) : Prop :=
  gated r = true ∧ in_u 64 (r_term r) ∧ name_ok (r_name r) ∧ r_name r ∈ electables ∧
  Forall (λ p, is_arbiter_rec p = false → name_ok (node_name (proposal p))) (promise_records r) ∧
  match r_phase r with
  | Phase1 todo => voters_ok r (promises r ++ todo)
  | Phase2 todo w =>
      voters_ok r (accepts r ++ todo) ∧ name_ok w ∧ ∀ v, v ∈ accepts r → (r_term r, w) ∈ G v
  | Ended (Some w) =>
      NoDup (accepts r) ∧ (∀ v, v ∈ accepts r → v ∈ electables ∧ (r_term r, w) ∈ G v) ∧
      phase2_quorum write_quorums g ≤ Z.of_nat (length (accepts r))
  | Ended None => True
  end.

Definition election_inv (G : name → list (Z * name)) (s : System) : Prop :=
  grants_ok G (sys_nodes s) ∧ Forall (round_inv G) (sys_rounds s).

(** More grants keep a round. *)
Lemma round_inv_mono G G' r : (∀ n x, x ∈ G n → x ∈ G' n) → round_inv G r → round_inv G' r.
Proof.
  intros HG (H1 & H2 & H3 & H4 & H5 & H6). split_and!; try done.
  destruct (r_phase r) as [todo|todo w|[w|]]; [done| |naive_solver|done].
  destruct H6 as (Ha & Hb & Hc). split_and!; auto.
Qed.

(** A node that grants nothing new. *)
Lemma grants_ok_insert G ns n nd :
  grants_ok G ns → (∃ P, acceptor_inv crc (G n) P (acceptor nd)) → grants_ok G (<[n := nd]> ns).
Proof.
  intros [H1 H2] Hn. split; [done|]. intros n' nd' Hl.
  destruct (decide (n = n')) as [<-|Hne]; [rewrite lookup_insert_eq in Hl; by injection Hl as <-|].
  rewrite lookup_insert_ne in Hl by done. eauto.
Qed.

Definition grant (G : name → list (Z * name)) (n : name) (x : Z * name) (ok : bool) : name → list (Z * name) :=
  λ n', if bool_decide (n' = n) && ok then x :: G n' else G n'.

Lemma grant_mono G n x ok n' y : y ∈ G n' → y ∈ grant G n x ok n'.
Proof. intros Hy. unfold grant. destruct (_ && _); [by right|done]. Qed.

(** An accept request to a node of the system. *)
Lemma accept_grants G ns n nd fl t p m a ok l :
  grants_ok G ns → ns !! n = Some nd → in_u 64 t → name_ok m →
  try_accept_proposal crc (acceptor nd) fl t p m = (a, ok) →
  grants_ok (grant G n (t, m) ok) (<[n := {| acceptor := a; latch := l |}]> ns).
Proof.
  intros [HG Hns] Hn Ht Hm Ha. destruct (Hns _ _ Hn) as [P HP].
  pose proof (accept_inv crc (G n) P (acceptor nd) fl t p m a ok HP Ht Hm Ha) as Hi. split.
  - intros n' t' m1 m2. unfold grant. destruct (bool_decide (n' = n)) eqn:En; [|apply HG].
    apply bool_decide_eq_true in En as ->. destruct ok; [|apply HG]. destruct Hi as (_ & Hu & _). simpl.
    rewrite !elem_of_cons. intros [H1|H1] [H2|H2]; simplify_eq;
      [done|symmetry; by apply Hu|by apply Hu|by eapply HG].
  - intros n' nd' Hl. unfold grant. destruct (decide (n' = n)) as [->|Hne].
    + rewrite lookup_insert_eq in Hl. injection Hl as <-. rewrite bool_decide_true by done. exists P.
      destruct ok; [by destruct Hi|exact Hi].
    + rewrite lookup_insert_ne in Hl by done. rewrite bool_decide_false by done. by apply Hns.
Qed.

Lemma promise_grants G ns n nd fl t p a ok l :
  grants_ok G ns → ns !! n = Some nd → in_u 64 t → name_ok p →
  try_promise_proposal crc (acceptor nd) fl t p = (a, ok) →
  grants_ok G (<[n := {| acceptor := a; latch := l |}]> ns).
Proof.
  intros HG Hn Ht Hp Ha. apply grants_ok_insert; [done|]. destruct HG as [_ Hns]. destruct (Hns _ _ Hn) as [P HP].
  pose proof (promise_inv crc (G n) P (acceptor nd) fl t p a ok HP Ht Hp Ha) as Hi.
  destruct ok; [destruct Hi; by eexists|by eexists].
Qed.

(** ** Steps of a round *)

Lemma voters_ok_drop r l1 ch l2 : voters_ok r (l1 ++ ch :: l2) → voters_ok r (l1 ++ l2).
Proof.
  intros (H1 & H2 & H3). apply NoDup_app in H1 as (N1 & N2 & N3). apply NoDup_cons in N3 as [N3 N4].
  split_and!; [apply NoDup_app; set_solver|set_solver|]. intros v Hv. apply H3. set_solver.
Qed.

Lemma voters_ok_snoc r l1 ch l2 : voters_ok r (l1 ++ ch :: l2) → voters_ok r ((l1 ++ [ch]) ++ l2).
Proof. by rewrite <-app_assoc. Qed.

Lemma phase1_reply_inv G r ch todo rep :
  group_ok → round_inv G r → r_phase r = Phase1 (ch :: todo) → round_inv G (phase1_reply g r ch todo rep).
Proof.
  intros [Hnames _] (H1 & H2 & H3 & H4 & H5 & H6) Hph. rewrite Hph in H6. unfold phase1_reply.
  destruct rep as [[[]|p]|]; split_and!; simpl; try done; try (by apply voters_ok_snoc); try (by eapply voters_ok_drop).
  destruct (get_node g (node_name p)) as [nd|] eqn:Hg; [|exact H5].
  destruct (can_be_master (node_type nd) && _); [|destruct (is_electable _ && _); [|exact H5]];
    (apply Forall_app; split; [exact H5|]); apply Forall_singleton; [|done].
  intros _. by eapply Hnames.
Qed.

Lemma end_phase1_inv G r :
  round_inv G r → r_phase r = Phase1 [] → round_inv G (end_phase1 read_quorums g r).
Proof.
  intros (H1 & H2 & H3 & H4 & H5 & H6) Hph. rewrite Hph, app_nil_r in H6. unfold end_phase1.
  destruct (_ <? _); [by split_and!|].
  pose proof (choose_fold (promise_records r)) as (Hb & _).
  unfold choose_phase2_value. destruct (chosen _) as [p|]; [|by split_and!].
  destruct (_ && _); [by split_and!|].
  destruct Hb as [(rec & Hin & Hc & <-) _].
  assert (name_ok (node_name (proposal rec))) as Hn.
  { rewrite Forall_forall in H5. apply H5; [done|]. unfold candidate in Hc. by reflect_bools. }
  split_and!; simpl; try done. split_and!; [done|done|]. by intros v ?%elem_of_nil.
Qed.

Lemma phase2_reply_inv G r ch todo w rep :
  round_inv G r → r_phase r = Phase2 (ch :: todo) w →
  (rep = Some (ElectionVote true) → (r_term r, w) ∈ G ch) →
  round_inv G (phase2_reply r ch todo w rep).
Proof.
  intros (H1 & H2 & H3 & H4 & H5 & H6) Hph Hv. rewrite Hph in H6. destruct H6 as (Ha & Hb & Hc).
  unfold phase2_reply. split_and!; simpl; try done. split_and!; [|done|].
  - destruct rep as [[[]|p]|]; [by apply voters_ok_snoc|by eapply voters_ok_drop..].
  - destruct rep as [[[]|p]|]; try done. intros v [Hin| ->%list_elem_of_singleton]%elem_of_app; auto.
Qed.

Lemma end_phase2_inv G r w ok :
  round_inv G r → r_phase r = Phase2 [] w →
  (self_phase1_vote r && ok = true → (r_term r, w) ∈ G (r_name r)) →
  round_inv G (end_phase2 write_quorums g r w ok).
Proof.
  intros (H1 & H2 & H3 & H4 & H5 & H6) Hph Hv. rewrite Hph, app_nil_r in H6.
  destruct H6 as ((N1 & N2 & N3) & Hb & Hc). unfold end_phase2. rewrite H1.
  split_and!; simpl; try done. destruct (_ <=? _) eqn:Hq; [|done]. reflect_bools.
  destruct (self_phase1_vote r && ok) eqn:Hs; (split_and!; [|..|done]); try done; [..|by auto].
  - apply NoDup_app. split_and!; [done| |apply NoDup_singleton]. intros v Hv' ->%list_elem_of_singleton. done.
  - intros v [Hin| ->%list_elem_of_singleton]%elem_of_app; auto.
Qed.

(** ** Steps of the system *)

Lemma send_promise_grants G ns ch d t p now fl subj sug ns' rep :
  grants_ok G ns → in_u 64 t → name_ok p →
  send_to ns ch d (λ nd, acceptor_phase1 crc nd now fl subj p t sug) = (ns', rep) → grants_ok G ns'.
Proof.
  intros HG Ht Hp H. unfold send_to in H. destruct (delivered d); [|by injection H as <- <-].
  destruct (ns !! ch) as [nd|] eqn:Hn; [|by injection H as <- <-]. unfold acceptor_phase1 in H.
  destruct (negb _).
  { injection H as <- <-. rewrite insert_id by done. done. }
  destruct (try_promise_proposal _ _ _ _ _) as [a ok] eqn:Ha.
  destruct ok; injection H as <- <-; by eapply promise_grants.
Qed.

Lemma send_accept_grants G ns ch d t p w fl ns' rep :
  grants_ok G ns → in_u 64 t → name_ok w →
  send_to ns ch d (λ nd, acceptor_phase2 crc nd fl t p t w) = (ns', rep) →
  ∃ ok, grants_ok (grant G ch (t, w) ok) ns' ∧ (rep = Some (ElectionVote true) → ok = true).
Proof.
  intros HG Ht Hw H. assert (∀ n, grant G ch (t, w) false n = G n) as Hf
    by (intros n; unfold grant; by rewrite andb_false_r).
  assert (grants_ok (grant G ch (t, w) false) ns) as HG'.
  { destruct HG as [H1 H2]. split; [intros ????; rewrite Hf; apply H1|intros ??; rewrite Hf; apply H2]. }
  unfold send_to in H. destruct (delivered d); [|injection H as <- <-; by exists false].
  destruct (ns !! ch) as [nd|] eqn:Hn; [|injection H as <- <-; by exists false].
  unfold acceptor_phase2 in H. rewrite Z.eqb_refl in H.
  destruct (try_accept_proposal _ _ _ _ _ _) as [a ok] eqn:Ha. injection H as <- <-.
  exists ok. split; [by eapply accept_grants|]. destruct (answered d); [|done]. by intros [= ->].
Qed.

Lemma grant_self G n x : x ∈ grant G n x true n.
Proof. unfold grant. rewrite bool_decide_true by done. by left. Qed.

Lemma rounds_inv_insert G rs i r :
  Forall (round_inv G) rs → round_inv G r → Forall (round_inv G) (<[i := r]> rs).
Proof. intros. by apply Forall_insert. Qed.

Lemma rounds_inv_mono G G' rs :
  (∀ n x, x ∈ G n → x ∈ G' n) → Forall (round_inv G) rs → Forall (round_inv G') rs.
Proof. intros HG H. eapply Forall_impl; [exact H|]. intros r. by apply round_inv_mono. Qed.

Abbreviation step := (sys_step read_quorums write_quorums crc g).

Lemma election_start_inv G s me channels own t self_gated fl s' :
  group_ok → event_ok (EStart me channels own t self_gated fl) → election_inv G s →
  step s (EStart me channels own t self_gated fl) = Some s' → election_inv G s'.
Proof.
  intros [Hnames _] (-> & Ht & Hown & Hnd & Hme & Hel) [HG Hrs] H. simpl in H.
  destruct (sys_nodes s !! me) as [nd|] eqn:Hn; [|done]. simpl in H.
  destruct (may_propose _ _ _ _ _) eqn:Hmay; [|done]. unfold may_propose in Hmay.
  destruct (get_node g me) as [gn|] eqn:Hgn; [|done]. simpl in Hmay. reflect_bools.
  assert (name_ok me) as Hname by (by eapply Hnames).
  destruct (try_promise_proposal crc _ _ _ _) as [a ok] eqn:Ha. injection H as <-. split; simpl.
  - by eapply promise_grants.
  - apply Forall_app. split; [done|]. apply Forall_singleton. split_and!; simpl; try done.
    + by eapply can_be_master_electable.
    + apply Forall_singleton. simpl. by rewrite Hown.
Qed.

(** Steps that may add grants. *)
Abbreviation preserved G s' := (∃ G', (∀ n x, x ∈ G n → x ∈ G' n) ∧ election_inv G' s').

Lemma same_grants G s' : election_inv G s' → preserved G s'.
Proof. intros. by exists G. Qed.

(** A round and a node that answered one accept request. *)
Lemma more_grants G n x ok ns rs i r :
  grants_ok (grant G n x ok) ns → Forall (round_inv G) rs → round_inv (grant G n x ok) r →
  preserved G {| sys_nodes := ns; sys_rounds := <[i := r]> rs |}.
Proof.
  intros HG Hrs Hr. exists (grant G n x ok). split; [intros; by apply grant_mono|]. split; [done|].
  apply rounds_inv_insert; [|done]. eapply rounds_inv_mono; [|done]. intros; by apply grant_mono.
Qed.

Lemma election_reply_inv G s i d s' : group_ok → election_inv G s → step s (EReply i d) = Some s' → preserved G s'.
Proof.
  intros Hg [HG Hrs] H. simpl in H. destruct (sys_rounds s !! i) as [r|] eqn:Hr; [|done]. simpl in H.
  assert (round_inv G r) as Hri by (by eapply Forall_lookup_1).
  pose proof Hri as (_ & Ht & Hname & _ & _ & Hph).
  destruct (r_phase r) as [[|ch todo]|[|ch todo] w|] eqn:Ep; try done;
    destruct (send_to _ _ _ _) as [ns rep] eqn:Hsend; injection H as <-.
  - apply same_grants. split; [by eapply send_promise_grants|].
    apply rounds_inv_insert; [done|]. by apply phase1_reply_inv.
  - destruct Hph as (_ & Hw & _).
    destruct (send_accept_grants _ _ _ _ _ _ _ _ _ _ HG Ht Hw Hsend) as (ok & HG' & Hok).
    eapply more_grants; [done..|]. apply phase2_reply_inv; [|done|].
    + eapply round_inv_mono; [|done]. intros. by apply grant_mono.
    + intros Hv. rewrite (Hok Hv). apply grant_self.
Qed.

Lemma election_end_inv G s i fl s' : election_inv G s → step s (EEnd i fl) = Some s' → preserved G s'.
Proof.
  intros [HG Hrs] H. simpl in H. destruct (sys_rounds s !! i) as [r|] eqn:Hr; [|done]. simpl in H.
  assert (round_inv G r) as Hri by (by eapply Forall_lookup_1).
  pose proof Hri as (Hgated & Ht & Hname & _ & _ & Hph).
  destruct (r_phase r) as [[|ch todo]|[|ch todo] w|] eqn:Ep; try done.
  { injection H as <-. apply same_grants. split; [done|].
    apply rounds_inv_insert; [done|]. by apply end_phase1_inv. }
  destruct Hph as (_ & Hw & _). destruct (sys_nodes s !! r_name r) as [nd|] eqn:Hn; [|done]. simpl in H.
  rewrite Hgated in H. simpl in H. destruct (self_phase1_vote r) eqn:Hsv.
  - destruct (try_accept_proposal _ _ _ _ _ _) as [a ok] eqn:Ha. injection H as <-.
    eapply (more_grants G (r_name r) (r_term r, w) ok); [by eapply accept_grants|done|].
    apply end_phase2_inv; [|done|].
    + eapply round_inv_mono; [|done]. intros. by apply grant_mono.
    + rewrite Hsv. simpl. intros ->. apply grant_self.
  - injection H as <-. apply same_grants. split.
    + apply grants_ok_insert; [done|]. destruct HG as [_ HG]. by apply (HG _ nd).
    + apply rounds_inv_insert; [done|]. apply end_phase2_inv; [done|done|]. by rewrite Hsv.
Qed.

Lemma election_step_inv G s e s' :
  group_ok → event_ok e → election_inv G s → step s e = Some s' → preserved G s'.
Proof.
  intros Hg He Hs H. destruct e as [me channels own t sg fl|i d|i fl|n].
  - apply same_grants. by eapply election_start_inv.
  - by eapply election_reply_inv.
  - by eapply election_end_inv.
  - destruct Hs as [HG Hrs]. simpl in H. destruct (sys_nodes s !! n) as [nd|] eqn:Hn; [|done].
    injection H as <-. apply same_grants. split; [|done]. apply grants_ok_insert; [done|].
    destruct HG as [_ HG]. destruct (HG _ _ Hn) as [P HP]. exists P. by apply restart_inv.
Qed.

Lemma election_run_inv evs s :
  group_ok → Forall event_ok evs → sys_run read_quorums write_quorums crc g evs = Some s → ∃ G, election_inv G s.
Proof.
  intros Hg Hevs. revert s. unfold sys_run. induction evs as [|e evs IH] using rev_ind; intros s H.
  - injection H as <-. exists (λ _, []). split; [|constructor]. split; [by intros ???? ?%elem_of_nil|].
    intros n nd Hn. simpl in Hn. rewrite lookup_fmap in Hn. destruct (nodes g !! n); [|done].
    injection Hn as <-. exists []. apply acceptor_inv_init.
  - rewrite Forall_app, Forall_singleton in Hevs. destruct Hevs as [Hevs He]. rewrite foldl_snoc in H.
    destruct (foldl _ _ evs) as [s1|]; [|done]. destruct (IH Hevs s1 eq_refl) as [G HG].
    destruct (election_step_inv G s1 e s Hg He HG H) as (G' & _ & HG'). by exists G'.
Qed.
End election.

(** * Properties *)


(** Closed decidable facts, by evaluation. *)
Ltac decided := apply (bool_decide_unpack _); vm_compute; exact I.

(** Groups of demonstration: node [k] is electable, or a secondary from [k = e] on. *)
Definition demo_node (k : Z) : name := [97 + k].
Definition demo_group {QuorumSystem : Type} (electable all : nat) (p : @QuorumPolicy QuorumSystem)
    : @RepGroup QuorumSystem :=
  {| group_name := [103]; group_id := 1; quorum_policy := p;
     nodes := list_to_map ((λ k, (demo_node (Z.of_nat k),
       RepNode_new (demo_node (Z.of_nat k)) (if (k <? electable)%nat then Electable else Secondary) [] 0
         (Z.of_nat k))) <$> seq 0 all) |}.

(** Node [k] advertises the VLSN [v]. *)
Definition demo_proposal (k v : Z) : Proposal := with_timestamp (demo_node k) v 1 5 0.
Definition demo_delivery (up : bool) (k v : Z) : delivery :=
  {| delivered := up; answered := true; d_now := 0; d_flush := Flushed; d_subjects := None;
     d_suggestion := demo_proposal k v |}.

Definition no_quorums (_ : unit) : list (gset name) := [].
Definition demo_start (k v : Z) (channels : list Z) : event :=
  EStart (demo_node k) (demo_node <$> channels) (demo_proposal k v) 5 true Flushed.

(** Three electable nodes; nodes 0 and 1 run for the term 5, node 2 restarts. *)
Definition demo_majority_events : list event :=
  [demo_start 0 10 [1; 2]; demo_start 1 7 [0; 2];
   EReply 0 (demo_delivery true 2 7); EReply 0 (demo_delivery true 2 7); EEnd 0 Flushed;
   EReply 0 (demo_delivery true 2 7); EEnd 0 Flushed;
   EReply 1 (demo_delivery true 0 10); ERestart (demo_node 2); EReply 1 (demo_delivery true 2 7);
   EEnd 1 Flushed; EReply 1 (demo_delivery true 0 10); EReply 1 (demo_delivery true 2 7); EEnd 1 Flushed].

Definition outcomes (os : option System) : list (Z * phase) :=
  match os with Some s => (λ r, (r_term r, r_phase r)) <$> sys_rounds s | None => [] end.

Definition demo_run (g : @RepGroup unit) (evs : list event) : option System :=
  sys_run no_quorums no_quorums demo_crc g evs.

Definition demo_majority : @RepGroup unit := demo_group 3 3 SimpleMajority.

Lemma demo_majority_ok : group_ok demo_majority.
Proof.
  split; [|vm_compute; reflexivity].
  assert (Forall (λ p : name * RepNode, name_ok p.1) (map_to_list (nodes demo_majority))) as Hall.
  { vm_compute map_to_list. repeat (apply List.Forall_cons; [|]); [..|apply List.Forall_nil];
      (split; [discriminate|split; [reflexivity|discriminate]]). }
  intros n nd Hn. apply elem_of_map_to_list in Hn. rewrite Forall_forall in Hall. by apply Hall in Hn.
Qed.

Lemma demo_electable k : k ∈ [0; 1; 2] → demo_node k ∈ electables demo_majority.
Proof.
  assert (Forall (λ k, demo_node k ∈ electables demo_majority) [0; 1; 2]) as Hall
    by decided.
  rewrite Forall_forall in Hall. apply Hall.
Qed.

Lemma event_ok_other {QuorumSystem : Type} (g : @RepGroup QuorumSystem) e :
  (∀ me chs own t sg fl, e ≠ EStart me chs own t sg fl) → event_ok g e.
Proof. intros He. destruct e; [|done..]. by destruct (He me channels own t self_gated fl). Qed.

Lemma demo_majority_events_ok : Forall (event_ok demo_majority) demo_majority_events.
Proof.
  assert (∀ k v chs, k ∈ [0; 1; 2] → NoDup (demo_node <$> chs) → (demo_node k ∉ (demo_node <$> chs)) →
    Forall (λ c, c ∈ [0; 1; 2]) chs → event_ok demo_majority (demo_start k v chs)) as Hstart.
  { intros k v chs Hk Hnd Hne Hchs. split_and!; try done. intros c (x & -> & Hx)%list_elem_of_fmap.
    rewrite Forall_forall in Hchs. by apply demo_electable, Hchs. }
  unfold demo_majority_events.
  apply Forall_cons; split; [|apply Forall_cons; split].
  - apply (Hstart 0 10 [1; 2]); decided.
  - apply (Hstart 1 7 [0; 2]); decided.
  - do 12 (apply List.Forall_cons; [apply event_ok_other; intros ??????; discriminate|]). apply List.Forall_nil.
Qed.

Definition demo_majority_system : System :=
  Eval vm_compute in default (sys_init demo_crc demo_majority) (demo_run demo_majority demo_majority_events).

Lemma demo_majority_run : demo_run demo_majority demo_majority_events = Some demo_majority_system.
Proof. vm_compute. reflexivity. Qed.


(** The driver asks every node of the group, whatever its type: with three
    electable nodes and two secondaries, two proposers of one term are both
    elected by a quorum of two, each with the vote of a secondary. *)
Definition demo_mixed : @RepGroup unit := demo_group 3 5 SimpleMajority.

Definition demo_driver_round (i : nat) (k v ally : Z) : list event :=
  EStart (demo_node k) (driver_channels demo_mixed (demo_node k)) (demo_proposal k v) 5 true Flushed ::
  ((λ ch, EReply i (demo_delivery (bool_decide (ch = demo_node ally)) ally v)) <$>
     driver_channels demo_mixed (demo_node k)) ++
  [EEnd i Flushed; EReply i (demo_delivery true ally v); EEnd i Flushed].

Theorem secondary_votes_elect_two_masters :
  outcomes (demo_run demo_mixed (demo_driver_round 0 0 10 3 ++ demo_driver_round 1 1 10 4)) =
    [(5, Ended (Some (demo_node 0))); (5, Ended (Some (demo_node 1)))].
Proof. vm_compute. reflexivity. Qed.

(** A validated flexible policy with a phase-2 quorum of two out of five
    elects two masters in one term. *)
Definition demo_flexible : @RepGroup unit := demo_group 5 5 (Flexible 4 2).

Definition demo_flexible_events : list event :=
  let asked i := (λ k, EReply i (demo_delivery true k 5)) <$> [2; 3; 4] in
  [demo_start 0 10 [2; 3; 4]] ++ asked 0%nat ++
  [EEnd 0 Flushed; EReply 0 (demo_delivery true 2 5); EReply 0 (demo_delivery false 3 5);
   EReply 0 (demo_delivery false 4 5); EEnd 0 Flushed] ++
  [demo_start 1 20 [2; 3; 4]] ++ asked 1%nat ++
  [EEnd 1 Flushed; EReply 1 (demo_delivery false 2 5); EReply 1 (demo_delivery true 3 5);
   EReply 1 (demo_delivery false 4 5); EEnd 1 Flushed].

Theorem flexible_quorum_two_masters :
  rebuild_quorum_system demo_flexible = true ∧
  outcomes (demo_run demo_flexible demo_flexible_events) =
    [(5, Ended (Some (demo_node 0))); (5, Ended (Some (demo_node 1)))].
Proof. split; vm_compute; reflexivity. Qed.

(** Of an expression only the size of its smallest quorums is used: rows and
    columns of a grid of four intersect, but two disjoint pairs pass for a
    phase-1 and a phase-2 quorum. *)
Definition grid_rows (_ : unit) : list (gset name) :=
  [{[demo_node 0; demo_node 1]}; {[demo_node 2; demo_node 3]}].
Definition grid_columns (_ : unit) : list (gset name) :=
  [{[demo_node 0; demo_node 2]}; {[demo_node 1; demo_node 3]}].

Theorem expression_quorum_loses_intersection :
  (∀ q1 q2, q1 ∈ grid_rows tt → q2 ∈ grid_columns tt → q1 ∩ q2 ≠ ∅) ∧
  validate (Expression tt) 4 = true ∧
  policy_phase1_quorum grid_rows (Expression tt) 4 = 2 ∧ policy_phase2_quorum grid_columns (Expression tt) 4 = 2.
Proof.
  split_and!; [|vm_compute; reflexivity..]. intros q1 q2. unfold grid_rows, grid_columns.
  rewrite !elem_of_cons, !elem_of_nil. intros [->|[->|[]]] [->|[->|[]]];
    decided.
Qed.

(** C39. The value of phase 2 is the best candidate: a chosen node is a
    non-arbiter of non-zero priority that no other such promise outranks; the
    election is vetoed exactly when its only candidate is outranked by an
    arbiter, and has no value exactly when there is no candidate. *)
Theorem choose_phase2_value_best (ps : list PromiseRecord) :
  match choose_phase2_value ps with
  | Value v =>
      (∃ p, p ∈ ps ∧ candidate p = true ∧ proposal p = v) ∧
      (∀ p, p ∈ ps → candidate p = true → is_better_than (proposal p) v = false) ∧
      (∀ a, a ∈ ps → witness_arbiter a = true → is_better_than (proposal a) v = true →
         (2 ≤ length (filter (λ p, candidate p = true) ps))%nat)
  | ArbiterVeto =>
      ∃ p a, filter (λ p, candidate p = true) ps = [p] ∧ a ∈ ps ∧ witness_arbiter a = true ∧
        is_better_than (proposal a) (proposal p) = true
  | NoNonZeroPriority => ∀ p, p ∈ ps → candidate p = false
  end.
Proof.
  unfold choose_phase2_value. pose proof (choose_fold ps) as (Hc & Ha & Hn). cbn zeta in *.
  set (c := foldl _ _ ps) in *. destruct (chosen c) as [v|]; [|done].
  destruct Hc as [(p & Hp & Hcp & Hv) Hbest].
  assert (p ∈ filter (λ p, candidate p = true) ps) as Hpf by (by apply list_elem_of_filter).
  destruct ((non_arb_count c <=? 1) && _) eqn:E.
  - reflect_bools. destruct (arb_best c) as [a|]; [|done]. destruct Ha as [(q & Hq & Hw & <-) _].
    exists p, q. destruct (filter _ ps) as [|x [|y l]]; [by apply elem_of_nil in Hpf| |simpl in Hn; lia].
    apply list_elem_of_singleton in Hpf as ->. by rewrite Hv.
  - split_and!; [by exists p|done|]. intros a Hina Hw Hb.
    destruct (arb_best c) as [b|]; [|by rewrite Ha in Hw]. destruct Ha as [_ Hbb].
    assert (is_better_than b v = true) as Hbv.
    { destruct (is_better_than b v) eqn:F; [done|]. rewrite (not_better_trans _ b v) in Hb; auto. }
    rewrite Hbv, andb_true_r in E. reflect_bools. lia.
Qed.


