(* ===== verification/RecoveryLog.v ===== *)
(** * The log as recovery reads it (noxu-recovery, [log_scanner.rs])

    The records that the phases of recovery exchange, the [LogScanner] trait
    and the in-memory scanner.  The trait is the class [LogScanner]; what
    recovery relies on is the class [ScannerOf], which says that a scanner
    reads a given list of positioned entries, and which the in-memory scanner
    is shown to satisfy for every log that is pushed in LSN order.

    [None] as the result of a scan is a panic: two LSNs are compared and one
    of them is null. *)

From stdpp Require Import sorting.
From S2P Require Import Prelude Bytes Packed Lsn Keys.

(** ** Records *)

Inductive LnOperation := LnInsert | LnUpdate | LnDelete.

Record LnRecord := {
  ln_db_id : Z;
  ln_txn_id : option Z;
  ln_operation : LnOperation;
  ln_key : key;
  ln_data : option (list Z);
  ln_abort_lsn : Z;
  ln_abort_known_deleted : bool;
  ln_abort_key : option key;
  ln_abort_data : option (list Z);
  ln_is_invisible : bool;
  ln_is_replicated : bool;
  ln_vlsn : option Z;
  ln_expiration : Z;
}.

Definition LnRecord_new (db_id : Z) (txn_id : option Z) (operation : LnOperation) (k : key)
    (data : option (list Z)) (abort_lsn : Z) (abort_known_deleted : bool) : LnRecord :=
  {| ln_db_id := db_id; ln_txn_id := txn_id; ln_operation := operation; ln_key := k;
     ln_data := data; ln_abort_lsn := abort_lsn; ln_abort_known_deleted := abort_known_deleted;
     ln_abort_key := None; ln_abort_data := None; ln_is_invisible := false;
     ln_is_replicated := false; ln_vlsn := None; ln_expiration := 0 |}.

Record InRecord := {
  in_db_id : Z;
  in_node_id : Z;
  in_level : Z;
  in_is_root : bool;
  in_is_delta : bool;
  in_is_provisional : bool;
  in_node_data : option (list Z);
  in_prev_full_lsn : Z;
}.

Record CkptStartRecord := { cs_id : Z; cs_lsn : Z }.

Record CkptEndRecord := {
  ce_id : Z;
  ce_checkpoint_start_lsn : Z;
  ce_first_active_lsn : Z;
  ce_root_lsn : Z;
  ce_last_local_node_id : Z;
  ce_last_replicated_node_id : Z;
  ce_last_local_db_id : Z;
  ce_last_replicated_db_id : Z;
  ce_last_local_txn_id : Z;
  ce_last_replicated_txn_id : Z;
  ce_per_db_roots : list (Z * Z);
}.

Record TxnCommitRecord := { tc_txn_id : Z; tc_lsn : Z; tc_dtvlsn : option Z }.
Record TxnAbortRecord := { ta_txn_id : Z; ta_dtvlsn : option Z }.

Record TxnPrepareRecord := {
  tp_txn_id : Z;
  tp_first_lsn : Z;
  tp_last_lsn : Z;
  tp_lsn : Z;
  tp_xid_format_id : Z;
  tp_xid_gtrid : list Z;
  tp_xid_bqual : list Z;
}.

Record RollbackStartRecord := {
  rs_matchpoint_vlsn : Z;
  rs_matchpoint_lsn : Z;
  rs_lsn : Z;
  rs_active_txn_ids : list Z;
}.

Record RollbackEndRecord := { re_matchpoint_lsn : Z; re_lsn : Z }.
Record DbTreeRecord := { dt_lsn : Z }.

Record FileSummaryRecord := {
  fs_file_number : Z;
  fs_lsn : Z;
  fs_total_count : Z;
  fs_total_size : Z;
  fs_total_in_count : Z;
  fs_total_in_size : Z;
  fs_total_ln_count : Z;
  fs_total_ln_size : Z;
  fs_max_ln_size : Z;
  fs_obsolete_in_count : Z;
  fs_obsolete_ln_count : Z;
  fs_obsolete_ln_size : Z;
  fs_obsolete_ln_size_counted : Z;
  fs_obsolete_offset_count : Z;
  fs_obsolete_offset_data : list Z;
  fs_expiration_histogram : list Z;
}.

Record NameLnRecord := {
  nl_name : list Z;
  nl_db_id : Z;
  nl_is_deleted : bool;
  nl_txn_id : option Z;
  nl_btree_comparator_id : option (list Z);
  nl_dup_comparator_id : option (list Z);
  nl_fanout : option Z;
}.

Inductive LogEntry :=
| EIn (rec : InRecord)
| ELn (rec : LnRecord)
| ECkptStart (rec : CkptStartRecord)
| ECkptEnd (rec : CkptEndRecord)
| ETxnCommit (rec : TxnCommitRecord)
| ETxnAbort (rec : TxnAbortRecord)
| ETxnPrepare (rec : TxnPrepareRecord)
| ERollbackStart (rec : RollbackStartRecord)
| ERollbackEnd (rec : RollbackEndRecord)
| EDbTree (rec : DbTreeRecord)
| ENameLn (rec : NameLnRecord)
| EFileSummary (rec : FileSummaryRecord).

Record PositionedEntry := { pe_lsn : Z; pe_entry : LogEntry }.

#[export] Instance LnOperation_eq_dec : EqDecision LnOperation.
Proof. solve_decision. Defined.
#[export] Instance LnRecord_eq_dec : EqDecision LnRecord.
Proof. solve_decision. Defined.

(** ** Iterators over a predicate that may panic *)

(** [iter().filter(p).collect()]. *)
Fixpoint filter_m {A} (p : A → option bool) (l : list A) : option (list A) :=
  match l with
  | [] => Some []
  | x :: l => b ← p x; l' ← filter_m p l; Some (if b : bool then x :: l' else l')
  end.

(** [iter().any(p)], which stops at the first hit. *)
Fixpoint any_m {A} (p : A → option bool) (l : list A) : option bool :=
  match l with
  | [] => Some false
  | x :: l => b ← p x; if b : bool then Some true else any_m p l
  end.

(** [iter().find(p)]. *)
Fixpoint find_m {A} (p : A → option bool) (l : list A) : option (option A) :=
  match l with
  | [] => Some None
  | x :: l => b ← p x; if b : bool then Some (Some x) else find_m p l
  end.

(** Iteration over a state that may panic. *)
Fixpoint fold_m {A S} (f : S → A → option S) (s : S) (l : list A) : option S :=
  match l with
  | [] => Some s
  | x :: l => s ← f s x; fold_m f s l
  end.

(** ** The trait *)

Class LogScanner (S : Type) := {
  find_end_of_log : S → Z * Z;
  scan_forward : S → Z → Z → option (list PositionedEntry);
  scan_backward : S → Z → Z → option (list PositionedEntry);
  read_at_lsn : S → Z → option LogEntry;
  find_last_checkpoint_entry : S → option (option PositionedEntry);
}.

(** The default [scan_forward_fn]: the callback runs on every entry. *)
Definition scan_forward_fn `{LogScanner Sc} {St} (s : Sc) (start_lsn end_lsn : Z)
    (cb : St → PositionedEntry → option St) (st : St) : option St :=
  es ← scan_forward s start_lsn end_lsn; fold_m cb st es.

(** ** The in-memory scanner *)

Record InMemoryLogScanner := {
  entries : list PositionedEntry;
  last_used_lsn : Z;
  next_available_lsn : Z;
}.

Definition InMemoryLogScanner_new : InMemoryLogScanner :=
  {| entries := []; last_used_lsn := NULL_LSN; next_available_lsn := NULL_LSN |}.

Definition push (s : InMemoryLogScanner) (lsn : Z) (entry : LogEntry) : option InMemoryLogScanner :=
  newer ← (if last_used_lsn s =? NULL_LSN then Some true else lsn_gt lsn (last_used_lsn s));
  let es := entries s ++ [{| pe_lsn := lsn; pe_entry := entry |}] in
  if newer : bool then
    (* [lsn.file_offset() + 1] is a 32-bit addition. *)
    if file_offset lsn =? 2 ^ 32 - 1 then None
    else Some {| entries := es; last_used_lsn := lsn;
                 next_available_lsn := Lsn_new (file_number lsn) (file_offset lsn + 1) |}
  else Some {| entries := es; last_used_lsn := last_used_lsn s;
               next_available_lsn := next_available_lsn s |}.

Definition set_end_of_log (s : InMemoryLogScanner) (last_used next_available : Z)
    : InMemoryLogScanner :=
  {| entries := entries s; last_used_lsn := last_used; next_available_lsn := next_available |}.

(** [a || b] where both sides may panic and the right one runs only when needed. *)
Definition or_m (a : bool) (b : option bool) : option bool := if a then Some true else b.

Definition mem_scan_forward (s : InMemoryLogScanner) (start_lsn end_lsn : Z)
    : option (list PositionedEntry) :=
  filter_m (λ e,
    a ← or_m (start_lsn =? NULL_LSN) (lsn_ge (pe_lsn e) start_lsn);
    if a : bool then or_m (end_lsn =? NULL_LSN) (lsn_lt (pe_lsn e) end_lsn) else Some false)
  (entries s).

(** The stable sort by [Reverse(lsn)], as an insertion sort. *)
Fixpoint insert_desc (x : PositionedEntry) (l : list PositionedEntry)
    : option (list PositionedEntry) :=
  match l with
  | [] => Some [x]
  | y :: l =>
      ge ← lsn_ge (pe_lsn x) (pe_lsn y);
      if ge : bool then Some (x :: y :: l) else l' ← insert_desc x l; Some (y :: l')
  end.

Fixpoint sort_desc (l : list PositionedEntry) : option (list PositionedEntry) :=
  match l with
  | [] => Some []
  | x :: l => l' ← sort_desc l; insert_desc x l'
  end.

Definition mem_scan_backward (s : InMemoryLogScanner) (start_lsn stop_lsn : Z)
    : option (list PositionedEntry) :=
  result ← filter_m (λ e,
    a ← or_m (start_lsn =? NULL_LSN) (lsn_le (pe_lsn e) start_lsn);
    if a : bool then or_m (stop_lsn =? NULL_LSN) (lsn_ge (pe_lsn e) stop_lsn) else Some false)
  (entries s);
  sort_desc result.

Definition mem_read_at_lsn (s : InMemoryLogScanner) (target_lsn : Z) : option LogEntry :=
  pe_entry <$> head (filter (λ e, pe_lsn e = target_lsn) (entries s)).

Definition is_ckpt_end (e : PositionedEntry) : bool :=
  match pe_entry e with ECkptEnd _ => true | _ => false end.

(** The default [find_last_checkpoint_entry]: [rfind] on a full scan. *)
Definition mem_find_last_checkpoint_entry (s : InMemoryLogScanner)
    : option (option PositionedEntry) :=
  all ← mem_scan_forward s NULL_LSN NULL_LSN; Some (last (filter is_ckpt_end all)).

#[export] Instance mem_scanner : LogScanner InMemoryLogScanner := {|
  find_end_of_log s := (last_used_lsn s, next_available_lsn s);
  scan_forward := mem_scan_forward;
  scan_backward := mem_scan_backward;
  read_at_lsn := mem_read_at_lsn;
  find_last_checkpoint_entry := mem_find_last_checkpoint_entry;
|}.

(** * Theorems *)

Section iterators.
Context {A : Type}.

Lemma filter_none (P : A → Prop) `{!∀ x, Decision (P x)} l :
  (∀ x, x ∈ l → ¬ P x) → filter P l = [].
Proof.
  induction l as [|y l IH]; intros Hl; [done|].
  rewrite filter_cons, decide_False by (apply Hl; left). apply IH. intros x Hx. apply Hl. by right.
Qed.

Lemma filter_bool_cons (q : A → bool) x l :
  filter q (x :: l) = if q x then x :: filter q l else filter q l.
Proof. rewrite filter_cons. by destruct (q x). Qed.

Lemma filter_bool_ext (p q : A → bool) (l : list A) :
  (∀ x, x ∈ l → p x = q x) → filter p l = filter q l.
Proof.
  induction l as [|x l IH]; intros H; [done|]. rewrite !filter_bool_cons, (H x) by left.
  by rewrite IH by (intros; apply H; by right).
Qed.

Lemma filter_m_total (p : A → option bool) (q : A → bool) l :
  (∀ x, x ∈ l → p x = Some (q x)) → filter_m p l = Some (filter q l).
Proof.
  induction l as [|x l IH]; intros H; [done|]. cbn [filter_m].
  rewrite H by left. cbn [mbind option_bind]. rewrite IH by (intros; apply H; by right).
  cbn [mbind option_bind]. rewrite filter_bool_cons. by destruct (q x).
Qed.

Lemma any_m_total (p : A → option bool) (q : A → bool) l :
  (∀ x, x ∈ l → p x = Some (q x)) → any_m p l = Some (existsb q l).
Proof.
  induction l as [|x l IH]; intros H; [done|]. cbn [any_m existsb].
  rewrite H by left. cbn [mbind option_bind]. rewrite IH by (intros; apply H; by right).
  by destruct (q x).
Qed.

Lemma find_m_total (p : A → option bool) (q : A → bool) l :
  (∀ x, x ∈ l → p x = Some (q x)) → find_m p l = Some (head (filter q l)).
Proof.
  induction l as [|x l IH]; intros H; [done|]. cbn [find_m].
  rewrite H by left. cbn [mbind option_bind]. rewrite IH by (intros; apply H; by right).
  rewrite filter_bool_cons. by destruct (q x).
Qed.

Lemma fold_m_app {S} (f : S → A → option S) s l1 l2 :
  fold_m f s (l1 ++ l2) = s' ← fold_m f s l1; fold_m f s' l2.
Proof. revert s. induction l1 as [|x l1 IH]; intros s; [done|]. simpl. destruct (f s x); [apply IH|done]. Qed.

(** A fold over a state that stays in an invariant does not panic. *)
Lemma fold_m_inv {S} (f : S → A → option S) (I : list A → S → Prop) l s :
  I [] s →
  (∀ l1 x l2 s, l = l1 ++ x :: l2 → I l1 s → ∃ s', f s x = Some s' ∧ I (l1 ++ [x]) s') →
  ∃ s', fold_m f s l = Some s' ∧ I l s'.
Proof.
  intros H0 Hstep. cut (∀ l2 l1 s, l = l1 ++ l2 → I l1 s → ∃ s', fold_m f s l2 = Some s' ∧ I l s').
  { intros H. by apply (H l [] s). }
  induction l2 as [|x l2 IH]; intros l1 s1 Hl H1.
  { exists s1. split; [done|]. by rewrite Hl, app_nil_r. }
  destruct (Hstep l1 x l2 s1 Hl H1) as (s2 & Hs & H2). cbn [fold_m]. rewrite Hs. simpl.
  apply (IH (l1 ++ [x])); [|done]. by rewrite <-app_assoc.
Qed.
End iterators.

(** ** What a scanner promises *)

(** A log: valid LSNs in strictly increasing order. *)
Definition lsn_before (a b : PositionedEntry) : Prop := pe_lsn a < pe_lsn b.
Definition log_wf (log : list PositionedEntry) : Prop :=
  Forall (λ e, valid_lsn (pe_lsn e)) log ∧ StronglySorted lsn_before log.

(** A bound of a scan: null is no bound. *)
Definition bound_ok (l : Z) : Prop := l = NULL_LSN ∨ valid_lsn l.
Definition above (lo l : Z) : bool := (lo =? NULL_LSN) || (lo <=? l).
Definition below (hi l : Z) : bool := (hi =? NULL_LSN) || (l <? hi).
Definition up_to (hi l : Z) : bool := (hi =? NULL_LSN) || (l <=? hi).

Definition entry_at (log : list PositionedEntry) (lsn : Z) : option LogEntry :=
  pe_entry <$> head (filter (λ e, pe_lsn e = lsn) log).

Class ScannerOf `{LogScanner Sc} (s : Sc) (log : list PositionedEntry) : Prop := {
  scanner_log : log_wf log;
  scanner_last : (find_end_of_log s).1 = default NULL_LSN (pe_lsn <$> last log);
  scanner_next : bound_ok (find_end_of_log s).2 ∧
    Forall (λ e, below (find_end_of_log s).2 (pe_lsn e) = true) log;
  scanner_forward lo hi : bound_ok lo → bound_ok hi →
    scan_forward s lo hi = Some (filter (λ e, above lo (pe_lsn e) && below hi (pe_lsn e)) log);
  scanner_backward hi lo : bound_ok lo → bound_ok hi →
    scan_backward s hi lo =
      Some (reverse (filter (λ e, up_to hi (pe_lsn e) && above lo (pe_lsn e)) log));
  scanner_read lsn : read_at_lsn s lsn = entry_at log lsn;
  scanner_ckpt : find_last_checkpoint_entry s = Some (last (filter is_ckpt_end log));
}.

Lemma in_range_m (lo l : Z) (c : Z → Z → option bool) (b : bool) :
  bound_ok lo → (valid_lsn lo → c l lo = Some b) →
  or_m (lo =? NULL_LSN) (c l lo) = Some ((lo =? NULL_LSN) || b).
Proof.
  intros [->|Hv] Hc; [by rewrite Z.eqb_refl|]. rewrite (Hc Hv).
  assert ((lo =? NULL_LSN) = false) as -> by (apply Z.eqb_neq; unfold valid_lsn in Hv; lia). done.
Qed.

Lemma sort_desc_ascending l :
  Forall (λ e, valid_lsn (pe_lsn e)) l → StronglySorted lsn_before l →
  sort_desc l = Some (reverse l).
Proof.
  intros Hv Hs. induction Hs as [|x l Hs IH Hx]; [done|].
  apply List.Forall_cons_iff in Hv as [Hvx Hv]. cbn [sort_desc]. rewrite IH by done.
  cbn [mbind option_bind]. rewrite reverse_cons.
  assert (Forall (λ e, valid_lsn (pe_lsn e) ∧ pe_lsn x < pe_lsn e) (reverse l)) as Hall.
  { apply Forall_forall. intros e He. rewrite elem_of_reverse in He.
    split; [by apply (proj1 (Forall_forall _ _) Hv)|by apply (proj1 (Forall_forall _ _) Hx)]. }
  clear -Hvx Hall. induction (reverse l) as [|y r IH]; [done|].
  apply List.Forall_cons_iff in Hall as [[Hvy Hlt] Hall]. cbn [insert_desc].
  unfold lsn_ge. rewrite lsn_le_valid by done. cbn [mbind option_bind].
  assert ((pe_lsn y <=? pe_lsn x) = false) as -> by (apply Z.leb_gt; lia). by rewrite IH.
Qed.

Lemma log_wf_filter (P : PositionedEntry → bool) log : log_wf log → log_wf (filter P log).
Proof.
  intros [Hv Hs]. split.
  - apply Forall_forall. intros x [_ Hx]%list_elem_of_filter. by apply (proj1 (Forall_forall _ _) Hv).
  - clear Hv. induction Hs as [|x l Hs IH Hx]; [constructor|]. rewrite filter_cons.
    case_decide; [|done]. constructor; [done|]. apply Forall_forall.
    intros y [_ Hy]%list_elem_of_filter. by apply (proj1 (Forall_forall _ _) Hx).
Qed.

Lemma log_wf_app l1 l2 :
  log_wf (l1 ++ l2) →
  log_wf l1 ∧ log_wf l2 ∧ ∀ a b, a ∈ l1 → b ∈ l2 → pe_lsn a < pe_lsn b.
Proof.
  intros [[Hv1 Hv2]%Forall_app Hs]. induction l1 as [|x l1 IH]; simpl in *.
  { split_and!; [by repeat constructor|done|by intros ?? ?%elem_of_nil]. }
  apply StronglySorted_inv in Hs as [Hs Hx]. apply List.Forall_cons_iff in Hv1 as [Hvx Hv1].
  apply Forall_app in Hx as [Hx1 Hx2].
  destruct (IH Hv1 Hs) as ((_ & Hs1) & H2 & H12). split_and!.
  - split; [by apply List.Forall_cons|by constructor].
  - done.
  - intros a b [->|Ha]%elem_of_cons Hb; [by apply (proj1 (Forall_forall _ _) Hx2)|by apply H12].
Qed.

Lemma entry_at_elem log e : log_wf log → e ∈ log → entry_at log (pe_lsn e) = Some (pe_entry e).
Proof.
  intros Hwf (l1 & l2 & ->)%list_elem_of_split.
  destruct (log_wf_app _ _ Hwf) as (_ & _ & H12). unfold entry_at. rewrite filter_app.
  assert (filter (λ e', pe_lsn e' = pe_lsn e) l1 = []) as ->.
  { apply filter_none. intros x Hx Heq. specialize (H12 x e Hx ltac:(left)). lia. }
  by rewrite filter_cons, decide_True.
Qed.

Lemma entry_at_inv log l x :
  entry_at log l = Some x → ∃ e, e ∈ log ∧ pe_lsn e = l ∧ pe_entry e = x.
Proof.
  unfold entry_at. destruct (head _) as [e|] eqn:E; [|done]. intros [= <-].
  assert (e ∈ filter (λ e', pe_lsn e' = l) log) as [Hl He]%list_elem_of_filter
    by (destruct (filter _ log); [done|]; injection E as ->; left).
  by exists e.
Qed.

(** ** The in-memory scanner reads what was pushed *)

Definition push_all (s : InMemoryLogScanner) (log : list PositionedEntry)
    : option InMemoryLogScanner :=
  fold_m (λ s e, push s (pe_lsn e) (pe_entry e)) s log.

Lemma next_lsn_valid l :
  valid_lsn l → file_offset l <> 2 ^ 32 - 1 →
  Lsn_new (file_number l) (file_offset l + 1) = l + 1.
Proof.
  intros [Hu _]%valid_lsn_u64 Ho.
  assert (in_u 32 (file_offset l)) as Hoff.
  { unfold file_offset, as_u, in_u. pose proof (Z.mod_pos_bound l (2 ^ 32) ltac:(lia)). lia. }
  assert (in_u 32 (file_number l)) as Hf.
  { rewrite file_number_div by done. unfold in_u in *.
    pose proof (Z.div_le_lower_bound l (2 ^ 32) 0 ltac:(lia) ltac:(lia)).
    pose proof (Z.div_lt_upper_bound l (2 ^ 32) (2 ^ 32) ltac:(lia) ltac:(lia)). lia. }
  pose proof (Lsn_new_parts l Hu) as Hl. rewrite Lsn_new_add in Hl |- * by (unfold in_u in *; lia).
  lia.
Qed.

(** The scanner holds [log], and its end is the end of [log]. *)
Definition holds (s : InMemoryLogScanner) (log : list PositionedEntry) : Prop :=
  entries s = log ∧ last_used_lsn s = default NULL_LSN (pe_lsn <$> last log) ∧
  next_available_lsn s = default NULL_LSN (Z.succ ∘ pe_lsn <$> last log).

Lemma push_all_holds log :
  log_wf log → Forall (λ e, file_offset (pe_lsn e) <> 2 ^ 32 - 1) log →
  ∃ s, push_all InMemoryLogScanner_new log = Some s ∧ holds s log.
Proof.
  intros Hwf Hoff. unfold push_all.
  apply (fold_m_inv _ (λ l s, holds s l)); [done|]. intros l1 x l2 s -> (He & Hl & Hn).
  pose proof Hwf as [Hv _]. apply Forall_app in Hv as [Hv1 [Hvx _]%List.Forall_cons_iff].
  rewrite Forall_app, Forall_cons in Hoff. destruct Hoff as (_ & Hox & _).
  destruct (log_wf_app _ _ Hwf) as (_ & _ & H12).
  assert ((if last_used_lsn s =? NULL_LSN then Some true else lsn_gt (pe_lsn x) (last_used_lsn s))
          = Some true) as E.
  { rewrite Hl. destruct (last l1) as [y|] eqn:Ey; simpl; [|done].
    apply last_Some_elem_of in Ey. rewrite Forall_forall in Hv1. pose proof (Hv1 y Ey) as Hvy.
    destruct (pe_lsn y =? NULL_LSN); [done|]. unfold lsn_gt. rewrite lsn_lt_valid by done.
    f_equal. apply Z.ltb_lt, H12; [done|left]. }
  unfold push. rewrite E. cbn [mbind option_bind].
  rewrite (proj2 (Z.eqb_neq _ _) Hox). eexists. split; [done|].
  unfold holds. cbn [entries last_used_lsn next_available_lsn].
  rewrite last_snoc, He. split_and!; [by destruct x|done|]. simpl. rewrite next_lsn_valid by done. lia.
Qed.

Lemma mem_scanner_of s log :
  log_wf log → Forall (λ e, file_offset (pe_lsn e) <> 2 ^ 32 - 1) log → holds s log →
  ScannerOf s log.
Proof.
  intros Hwf Hoff (He & Hl & Hn). pose proof Hwf as [Hv Hs]. rewrite Forall_forall in Hv, Hoff.
  split; try done.
  - split; simpl.
    + rewrite Hn. destruct (last log) as [y|] eqn:Ey; [simpl|by left].
      apply last_Some_elem_of in Ey. pose proof (Hv y Ey) as Hvy. unfold bound_ok, valid_lsn in *. lia.
    + apply Forall_forall. intros e Hin. rewrite Hn.
      destruct log as [|y log _] using rev_ind; [by apply elem_of_nil in Hin|].
      rewrite last_snoc. unfold below. simpl. apply orb_true_iff. right. apply Z.ltb_lt.
      destruct (log_wf_app _ _ Hwf) as (_ & _ & H12).
      apply elem_of_app in Hin as [Hin| ->%list_elem_of_singleton]; [|lia].
      specialize (H12 e y Hin ltac:(left)). lia.
  - intros lo hi Hlo Hhi. cbn [scan_forward mem_scanner]. unfold mem_scan_forward. rewrite He.
    apply filter_m_total. intros x Hx. pose proof (Hv x Hx) as Hvx.
    rewrite (in_range_m lo _ _ (lo <=? pe_lsn x)) by (try done; intros; by apply lsn_le_valid).
    cbn [mbind option_bind]. change (_ || _) with (above lo (pe_lsn x)).
    destruct (above lo (pe_lsn x)); [|done]. simpl.
    by rewrite (in_range_m hi _ _ (pe_lsn x <? hi)) by (try done; intros; by apply lsn_lt_valid).
  - intros hi lo Hlo Hhi. cbn [scan_backward mem_scanner]. unfold mem_scan_backward. rewrite He.
    rewrite (filter_m_total _ (λ e, up_to hi (pe_lsn e) && above lo (pe_lsn e))).
    + cbn [mbind option_bind].
      destruct (log_wf_filter (λ e, up_to hi (pe_lsn e) && above lo (pe_lsn e)) log Hwf).
      by apply sort_desc_ascending.
    + intros x Hx. pose proof (Hv x Hx) as Hvx.
      rewrite (in_range_m hi _ _ (pe_lsn x <=? hi)) by (try done; intros; by apply lsn_le_valid).
      cbn [mbind option_bind]. change (_ || _) with (up_to hi (pe_lsn x)).
      destruct (up_to hi (pe_lsn x)); [|done]. simpl.
      by rewrite (in_range_m lo _ _ (lo <=? pe_lsn x)) by (try done; intros; by apply lsn_le_valid).
  - intros lsn. simpl. unfold mem_read_at_lsn. by rewrite He.
  - cbn [find_last_checkpoint_entry mem_scanner]. unfold mem_find_last_checkpoint_entry.
    unfold mem_scan_forward. rewrite He, (filter_m_total _ (λ _, true)) by done.
    cbn [mbind option_bind]. by rewrite (filter_id _ log (λ _ _, I)).
Qed.

(** *** Concrete logs *)

(** A decidable form of [log_wf], with room for the next LSN after every entry. *)
Fixpoint log_wf_b (prev : Z) (log : list PositionedEntry) : bool :=
  match log with
  | [] => true
  | e :: log =>
      (prev <? pe_lsn e) && (pe_lsn e <? NULL_LSN) && negb (file_offset (pe_lsn e) =? 2 ^ 32 - 1) &&
      log_wf_b (pe_lsn e) log
  end.

(** The scanner after pushing a log. *)
Definition scanner_of_log (log : list PositionedEntry) : InMemoryLogScanner :=
  {| entries := log; last_used_lsn := default NULL_LSN (pe_lsn <$> last log);
     next_available_lsn := default NULL_LSN (Z.succ ∘ pe_lsn <$> last log) |}.

Lemma log_wf_b_spec prev log :
  -1 ≤ prev → log_wf_b prev log = true →
  log_wf log ∧ Forall (λ e, file_offset (pe_lsn e) <> 2 ^ 32 - 1) log ∧
  Forall (λ e, prev < pe_lsn e) log.
Proof.
  revert prev. induction log as [|e log IH]; intros prev Hp; simpl; [by repeat constructor|].
  rewrite !andb_true_iff, !Z.ltb_lt, negb_true_iff, Z.eqb_neq. intros [[[H1 H2] H3] H4].
  destruct (IH (pe_lsn e) ltac:(lia) H4) as ([Hv Hs] & Ho & Hlt). split_and!.
  - split; [apply List.Forall_cons; [unfold valid_lsn; lia|done]|by constructor].
  - by apply List.Forall_cons.
  - apply List.Forall_cons; [done|]. eapply List.Forall_impl; [|exact Hlt]. simpl. lia.
Qed.

Lemma scanner_of_log_ok log : log_wf_b (-1) log = true → ScannerOf (scanner_of_log log) log.
Proof.
  intros Hb. destruct (log_wf_b_spec (-1) log ltac:(lia) Hb) as (Hwf & Ho & _).
  by apply mem_scanner_of.
Qed.
