(* ===== verification/Rollback.v ===== *)
(** * Rollback periods and transaction chains
    (noxu-recovery, [rollback_tracker.rs] and [txn_chain.rs])

    When a replica rejoins a group it logs a rollback of the part of its log
    that the group does not have.  Recovery collects the rolled-back ranges in
    a [RollbackTracker], and for every transaction that was open at such a
    matchpoint it builds a [TxnChain]: the version that each rolled-back
    record returns to.

    The values of a [HashMap] are visited in the order of [map_to_list]; no
    theorem depends on that order.  [None] is a panic: a comparison with the
    null LSN. *)

From stdpp Require Import sorting.
From S2P Require Import Prelude Bytes Packed Lsn Keys LsnRep TargetRep Bin RecoveryLog.

(** ** Rollback periods *)

Record RollbackPeriod := {
  matchpoint_lsn : Z;
  rollback_start_lsn : Z;
  rollback_end_lsn : Z;
  active_txn_ids : list Z;
}.

Definition RollbackPeriod_new (matchpoint start end_ : Z) : RollbackPeriod :=
  {| matchpoint_lsn := matchpoint; rollback_start_lsn := start; rollback_end_lsn := end_;
     active_txn_ids := [] |}.

Definition with_active_txns (matchpoint start end_ : Z) (ids : list Z) : RollbackPeriod :=
  {| matchpoint_lsn := matchpoint; rollback_start_lsn := start; rollback_end_lsn := end_;
     active_txn_ids := ids |}.

Definition is_complete (p : RollbackPeriod) : bool := negb (rollback_end_lsn p =? NULL_LSN).

Definition period_contains (p : RollbackPeriod) (lsn : Z) : option bool :=
  a ← lsn_gt lsn (matchpoint_lsn p);
  if a : bool then lsn_lt lsn (rollback_start_lsn p) else Some false.

Definition period_contains_ln (p : RollbackPeriod) (lsn txn_id : Z) : option bool :=
  a ← period_contains p lsn; Some (a && bool_decide (txn_id ∈ active_txn_ids p)).

Definition precedes (p : RollbackPeriod) (lsn : Z) : option bool :=
  lsn_lt (rollback_start_lsn p) lsn.

(** ** The tracker *)

Record RollbackTracker := {
  rollback_periods : list RollbackPeriod;
  pending_rollback_starts : gmap Z RollbackPeriod;
}.

Definition RollbackTracker_new : RollbackTracker :=
  {| rollback_periods := []; pending_rollback_starts := ∅ |}.

Definition with_pending (t : RollbackTracker) (m : gmap Z RollbackPeriod) : RollbackTracker :=
  {| rollback_periods := rollback_periods t; pending_rollback_starts := m |}.

(** The insertion point of [binary_search_by_key]: in front of the first key
    that is not smaller. *)
Fixpoint insertion_point (k : Z) (l : list RollbackPeriod) : nat :=
  match l with
  | [] => 0
  | p :: l => if matchpoint_lsn p <? k then S (insertion_point k l) else 0
  end.

Definition add_completed_period (t : RollbackTracker) (p : RollbackPeriod) : RollbackTracker :=
  let pos := insertion_point (matchpoint_lsn p) (rollback_periods t) in
  {| rollback_periods := take pos (rollback_periods t) ++ p :: drop pos (rollback_periods t);
     pending_rollback_starts := pending_rollback_starts t |}.

Definition register_rollback_start_with_txns (t : RollbackTracker) (matchpoint start : Z)
    (ids : list Z) : RollbackTracker :=
  match pending_rollback_starts t !! matchpoint with
  | Some period =>
      let t := with_pending t (delete matchpoint (pending_rollback_starts t)) in
      let period := {| matchpoint_lsn := matchpoint_lsn period; rollback_start_lsn := start;
                       rollback_end_lsn := rollback_end_lsn period; active_txn_ids := ids |} in
      if negb (rollback_end_lsn period =? NULL_LSN) then add_completed_period t period
      else with_pending t (<[matchpoint := period]> (pending_rollback_starts t))
  | None =>
      with_pending t (<[matchpoint := with_active_txns matchpoint start NULL_LSN ids]>
                        (pending_rollback_starts t))
  end.

Definition register_rollback_start (t : RollbackTracker) (matchpoint start : Z) : RollbackTracker :=
  register_rollback_start_with_txns t matchpoint start [].

Definition register_rollback_end (t : RollbackTracker) (matchpoint end_ : Z) : RollbackTracker :=
  match pending_rollback_starts t !! matchpoint with
  | Some period =>
      add_completed_period (with_pending t (delete matchpoint (pending_rollback_starts t)))
        {| matchpoint_lsn := matchpoint_lsn period;
           rollback_start_lsn := rollback_start_lsn period;
           rollback_end_lsn := end_; active_txn_ids := active_txn_ids period |}
  | None =>
      with_pending t (<[matchpoint := RollbackPeriod_new matchpoint NULL_LSN end_]>
                        (pending_rollback_starts t))
  end.

Definition pending_values (t : RollbackTracker) : list RollbackPeriod :=
  (map_to_list (pending_rollback_starts t)).*2.

Definition started (p : RollbackPeriod) : bool := negb (rollback_start_lsn p =? NULL_LSN).

Definition is_in_rollback_period (t : RollbackTracker) (lsn : Z) : option bool :=
  hit ← any_m (λ p, period_contains p lsn) (rollback_periods t);
  if hit : bool then Some true
  else any_m (λ p, if started p then period_contains p lsn else Some false) (pending_values t).

Definition pending_periods (t : RollbackTracker) : list RollbackPeriod :=
  filter started (pending_values t).

Definition is_rollback_active_txn (t : RollbackTracker) (txn_id : Z) : bool :=
  existsb (λ p, bool_decide (txn_id ∈ active_txn_ids p)) (rollback_periods t) ||
  existsb (λ p, bool_decide (txn_id ∈ active_txn_ids p)) (pending_values t).

Definition find_period_for_ln (t : RollbackTracker) (lsn txn_id : Z)
    : option (option RollbackPeriod) :=
  r ← find_m (λ p, period_contains_ln p lsn txn_id) (rollback_periods t);
  match r with
  | Some p => Some (Some p)
  | None => find_m (λ p, if started p then period_contains_ln p lsn txn_id else Some false)
                   (pending_values t)
  end.

Definition contains_ln (t : RollbackTracker) (lsn txn_id : Z) : option bool :=
  r ← find_period_for_ln t lsn txn_id; Some (bool_decide (is_Some r)).

Definition has_incomplete_rollbacks (t : RollbackTracker) : bool :=
  negb (bool_decide (pending_rollback_starts t = ∅)).

(** The entry points of the analysis that take decoded entries. *)
Definition record_rollback_start (t : RollbackTracker) (lsn matchpoint : Z) (ids : list Z)
    : RollbackTracker :=
  register_rollback_start_with_txns t matchpoint lsn ids.

Definition record_rollback_end (t : RollbackTracker) (lsn entry_rollback_start_lsn : Z)
    : RollbackTracker :=
  match head (filter (λ p, rollback_start_lsn p = entry_rollback_start_lsn) (pending_values t)) with
  | Some p => register_rollback_end t (matchpoint_lsn p) lsn
  | None =>
      with_pending t (<[entry_rollback_start_lsn :=
                          RollbackPeriod_new NULL_LSN entry_rollback_start_lsn lsn]>
                        (pending_rollback_starts t))
  end.

Definition is_active (t : RollbackTracker) : bool :=
  negb (bool_decide (rollback_periods t = [])) || has_incomplete_rollbacks t.

(** [min_by_key] over the 64-bit values. *)
Definition min_lsn (ls : list Z) : option Z :=
  foldl (λ m l, Some (match m with Some m => Z.min m l | None => l end)) None ls.

Definition earliest_rollback_start (t : RollbackTracker) : option Z :=
  min_lsn (rollback_start_lsn <$> rollback_periods t).
Definition safe_matchpoint_lsn (t : RollbackTracker) : option Z :=
  min_lsn (matchpoint_lsn <$> rollback_periods t).

(** [RollbackScanner::is_rolled_back] on the completed periods. *)
Definition is_rolled_back (periods : list RollbackPeriod) (lsn : Z) : option bool :=
  any_m (λ p, period_contains p lsn) periods.

(** ** Transaction chains *)

Record RevertInfo := {
  revert_lsn : Z;
  revert_kd : bool;
  revert_pd : bool;
  revert_key : option key;
  revert_data : option (list Z);
}.

Definition RevertInfo_from_abort (rec : LnRecord) : RevertInfo :=
  {| revert_lsn := ln_abort_lsn rec; revert_kd := ln_abort_known_deleted rec; revert_pd := false;
     revert_key := ln_abort_key rec; revert_data := ln_abort_data rec |}.

(** A slot of a database: its id and a key. *)
Definition CompareSlot : Type := Z * key.
Definition slot_of (rec : LnRecord) : CompareSlot := (ln_db_id rec, ln_key rec).

Definition cmp_with (cmp : key → key → comparison) (a b : CompareSlot) : comparison :=
  match a.1 ?= b.1 with Eq => cmp a.2 b.2 | c => c end.

Definition same_slot (cmp : key → key → comparison) (a b : CompareSlot) : bool :=
  match cmp_with cmp a b with Eq => true | _ => false end.

Record TxnChain := {
  revert_list : list RevertInfo;
  remaining_locked_nodes : list Z;
}.

(** The state of the loop of [build]. *)
Record ChainState := {
  records_map : list (CompareSlot * nat);
  cs_reverts : list RevertInfo;
  cs_remaining : list Z;
}.

(** [iter().position(|(s, _)| s.cmp_with(&rec_id, cmp) == Equal)]. *)
Fixpoint slot_position (cmp : key → key → comparison) (s : CompareSlot)
    (l : list (CompareSlot * nat)) : option nat :=
  match l with
  | [] => None
  | (s', _) :: l => if same_slot cmp s' s then Some 0%nat else S <$> slot_position cmp s l
  end.

(** The version of a record that a later one of the chain returns to. *)
Definition RevertInfo_to (lsn : Z) (rec : LnRecord) : RevertInfo :=
  {| revert_lsn := lsn; revert_kd := false;
     revert_pd := match ln_operation rec with LnDelete => true | _ => false end;
     revert_key := Some (ln_key rec); revert_data := ln_data rec |}.

Definition chain_step (cmp : key → key → comparison) (matchpoint : Z) (st : ChainState)
    (e : Z * LnRecord) : option ChainState :=
  let '(lsn, rec) := e in
  let existing := slot_position cmp (slot_of rec) (records_map st) in
  reverts ← match existing with
            | Some pos =>
                '(_, idx) ← records_map st !! pos;
                vec_set idx (RevertInfo_to lsn rec) (cs_reverts st)
            | None => Some (cs_reverts st)
            end;
  gt ← lsn_gt lsn matchpoint;
  if gt : bool then
    let reverts := reverts ++ [RevertInfo_from_abort rec] in
    let new_idx := pred (length reverts) in
    m ← match existing with
        | Some pos => '(s, _) ← records_map st !! pos; vec_set pos (s, new_idx) (records_map st)
        | None => Some (records_map st ++ [(slot_of rec, new_idx)])
        end;
    Some {| records_map := m; cs_reverts := reverts; cs_remaining := cs_remaining st |}
  else
    m ← match existing with
        | Some pos => snd <$> swap_remove pos (records_map st)
        | None => Some (records_map st)
        end;
    Some {| records_map := m; cs_reverts := reverts; cs_remaining := cs_remaining st ++ [lsn] |}.

(** The stable sort by [Reverse(lsn.as_u64())], as an insertion sort. *)
Fixpoint insert_by_lsn (x : Z * LnRecord) (l : list (Z * LnRecord)) : list (Z * LnRecord) :=
  match l with
  | [] => [x]
  | y :: l => if y.1 <=? x.1 then x :: y :: l else y :: insert_by_lsn x l
  end.

Definition sort_by_lsn (l : list (Z * LnRecord)) : list (Z * LnRecord) :=
  foldr insert_by_lsn [] l.

Definition TxnChain_build (logrecs : list (Z * LnRecord)) (matchpoint : Z)
    (cmp : key → key → comparison) : option TxnChain :=
  st ← fold_m (chain_step cmp matchpoint)
              {| records_map := []; cs_reverts := []; cs_remaining := [] |} (sort_by_lsn logrecs);
  Some {| revert_list := cs_reverts st; remaining_locked_nodes := cs_remaining st |}.

Definition TxnChain_pop (c : TxnChain) : option (RevertInfo * TxnChain) :=
  match revert_list c with
  | [] => None
  | r :: rs => Some (r, {| revert_list := rs; remaining_locked_nodes := remaining_locked_nodes c |})
  end.

Definition TxnChain_len (c : TxnChain) : nat := length (revert_list c).

(** * Theorems *)

(** ** The chain of a transaction *)

Section chain.
Context `{KeyOrder cmp}.

Lemma same_slot_iff a b : same_slot cmp a b = true ↔ a.1 = b.1 ∧ cmp a.2 b.2 = Eq.
Proof.
  unfold same_slot, cmp_with. destruct (Z.compare_spec a.1 b.1) as [E|E|E].
  - destruct (cmp a.2 b.2); naive_solver.
  - split; [done|]. intros [? _]. lia.
  - split; [done|]. intros [? _]. lia.
Qed.

Lemma same_slot_refl a : same_slot cmp a a = true.
Proof. apply same_slot_iff. split; [done|apply cmp_refl]. Qed.

Lemma same_slot_l a b c : same_slot cmp a b = true → same_slot cmp a c = same_slot cmp b c.
Proof.
  intros [E1 E2]%same_slot_iff. unfold same_slot, cmp_with. rewrite E1.
  by rewrite (cmp_eq_l _ _ c.2 E2).
Qed.

Lemma same_slot_sym a b : same_slot cmp a b = same_slot cmp b a.
Proof.
  destruct (same_slot cmp a b) eqn:E1.
  - by rewrite <-(same_slot_l a b a E1), same_slot_refl.
  - destruct (same_slot cmp b a) eqn:E2; [|done].
    rewrite <-(same_slot_l b a b E2), same_slot_refl in E1. done.
Qed.

(** The first record of a list for a slot. *)
Definition next_version (s : CompareSlot) (l : list (Z * LnRecord)) : option (Z * LnRecord) :=
  head (filter (λ x, same_slot cmp (slot_of x.2) s) l).

(** What a record returns to: the version before it in the transaction, or
    else the version before the transaction. *)
Definition revert_of (x : Z * LnRecord) (older : list (Z * LnRecord)) : RevertInfo :=
  match next_version (slot_of x.2) older with
  | Some (l, r) => RevertInfo_to l r
  | None => RevertInfo_from_abort x.2
  end.

(** The reference: one entry for each record after the matchpoint, newest first. *)
Fixpoint ref_chain (mp : Z) (l : list (Z * LnRecord)) : list RevertInfo :=
  match l with
  | [] => []
  | x :: l => if mp <? x.1 then revert_of x l :: ref_chain mp l else ref_chain mp l
  end.

Lemma next_version_none s l :
  next_version s l = None ↔ ∀ x, x ∈ l → same_slot cmp (slot_of x.2) s = false.
Proof.
  unfold next_version. split.
  - intros Hh x Hx. destruct (same_slot cmp (slot_of x.2) s) eqn:E; [|done].
    assert (x ∈ filter (λ x, same_slot cmp (slot_of x.2) s) l) as Hf
      by (apply list_elem_of_filter; rewrite E; done).
    destruct (filter _ l); [by apply elem_of_nil in Hf|done].
  - intros Hall. rewrite filter_none; [done|]. intros x Hx. rewrite (Hall x Hx). by intros [].
Qed.

Lemma next_version_snoc s l y :
  next_version s (l ++ [y]) =
  match next_version s l with
  | Some x => Some x
  | None => if same_slot cmp (slot_of y.2) s then Some y else None
  end.
Proof.
  unfold next_version. rewrite filter_app, head_app.
  rewrite filter_bool_cons. destruct (head (filter _ l)); [done|]. by destruct (same_slot cmp (slot_of y.2) s).
Qed.

(** The slots whose last record is still waiting for an older version. *)
Fixpoint opens (mp : Z) (l : list (Z * LnRecord)) : list (option CompareSlot) :=
  match l with
  | [] => []
  | x :: l =>
      if mp <? x.1 then
        match next_version (slot_of x.2) l with
        | Some _ => None
        | None => Some (slot_of x.2)
        end :: opens mp l
      else opens mp l
  end.

Definition waits (y : Z * LnRecord) (o : option CompareSlot) : bool :=
  match o with Some s => same_slot cmp s (slot_of y.2) | None => false end.

Lemma length_ref_chain mp l : length (ref_chain mp l) = length (opens mp l).
Proof. induction l as [|x l IH]; [done|]. simpl. destruct (mp <? x.1); simpl; lia. Qed.

Lemma opens_snoc mp l y :
  opens mp (l ++ [y]) =
  ((λ o, if waits y o then None else o) <$> opens mp l) ++
  (if mp <? y.1 then [Some (slot_of y.2)] else []).
Proof.
  induction l as [|x l IH]; simpl; [by destruct (mp <? y.1)|].
  rewrite next_version_snoc, IH. destruct (mp <? x.1); [|done]. simpl. f_equal.
  destruct (next_version (slot_of x.2) l); [done|]. simpl. rewrite same_slot_sym.
  by destruct (same_slot _ _ _).
Qed.

Lemma ref_chain_snoc mp l y :
  ref_chain mp (l ++ [y]) =
  zip_with (λ o r, if waits y o then RevertInfo_to y.1 y.2 else r) (opens mp l) (ref_chain mp l) ++
  (if mp <? y.1 then [RevertInfo_from_abort y.2] else []).
Proof.
  induction l as [|x l IH]; simpl; [by destruct (mp <? y.1)|].
  rewrite IH. destruct (mp <? x.1); [|done]. simpl. f_equal. unfold revert_of.
  rewrite next_version_snoc. destruct (next_version (slot_of x.2) l) as [[??]|]; [done|]. simpl.
  rewrite (same_slot_sym (slot_of x.2)). destruct (same_slot _ _ _); [|done]. by destruct y.
Qed.

Lemma opens_elem mp l s : Some s ∈ opens mp l → ∃ x, x ∈ l ∧ slot_of x.2 = s.
Proof.
  induction l as [|x l IH]; simpl; [by intros ?%elem_of_nil|].
  assert (Some s ∈ opens mp l → ∃ x0, x0 ∈ x :: l ∧ slot_of x0.2 = s) as Htail.
  { intros (x0 & Hin & Heq)%IH. exists x0. split; [by right|done]. }
  destruct (mp <? x.1); [|done]. rewrite elem_of_cons. intros [Hx|]; [|by apply Htail].
  destruct (next_version _ l); [done|]. injection Hx as ->. exists x. split; [left|done].
Qed.

Lemma opens_inj mp l i j a b :
  opens mp l !! i = Some (Some a) → opens mp l !! j = Some (Some b) → same_slot cmp a b = true → i = j.
Proof.
  revert i j. induction l as [|x l IH]; intros i j Hi Hj Hab; [done|]. simpl in *.
  destruct (mp <? x.1); [|by eapply IH].
  assert (∀ k c, opens mp l !! k = Some (Some c) → next_version (slot_of x.2) l = None →
          same_slot cmp c (slot_of x.2) = false) as Hfresh.
  { intros k c Hk Hn. destruct (opens_elem mp l c) as (z & Hz & <-);
      [by eapply list_elem_of_lookup_2|]. by apply (proj1 (next_version_none _ _) Hn). }
  destruct i as [|i], j as [|j]; simpl in *; [done| | |f_equal; by eapply IH].
  - destruct (next_version (slot_of x.2) l) eqn:E; [done|]. injection Hi as <-.
    rewrite same_slot_sym, (Hfresh j b Hj) in Hab by done. done.
  - destruct (next_version (slot_of x.2) l) eqn:E; [done|]. injection Hj as <-.
    rewrite (Hfresh i a Hi) in Hab by done. done.
Qed.

(** The map of the loop holds the slots that wait, with their places. *)
Record chain_inv (mp : Z) (l : list (Z * LnRecord)) (st : ChainState) : Prop := {
  inv_reverts : cs_reverts st = ref_chain mp l;
  inv_remaining : cs_remaining st = (filter (λ x, negb (mp <? x.1)) l).*1;
  inv_sound s i : (s, i) ∈ records_map st →
    ∃ s', opens mp l !! i = Some (Some s') ∧ same_slot cmp s s' = true;
  inv_complete i s' : opens mp l !! i = Some (Some s') → ∃ s, (s, i) ∈ records_map st;
  inv_nodup : NoDup (records_map st).*2;
}.

Lemma slot_position_spec s l :
  match slot_position cmp s l with
  | Some pos => ∃ s' i, l !! pos = Some (s', i) ∧ same_slot cmp s' s = true
  | None => ∀ s' i, (s', i) ∈ l → same_slot cmp s' s = false
  end.
Proof.
  induction l as [|[s' i] l IH]; simpl; [by intros ?? ?%elem_of_nil|].
  destruct (same_slot cmp s' s) eqn:E; [by exists s', i|].
  destruct (slot_position cmp s l); simpl; [done|].
  intros s2 i2 [[= -> ->]|Hin]%elem_of_cons; [done|by eapply IH].
Qed.

(** Closing the only waiting slot of a record. *)
Lemma close_one mp l y i s' :
  opens mp l !! i = Some (Some s') → same_slot cmp s' (slot_of y.2) = true →
  (λ o, if waits y o then None else o) <$> opens mp l = <[i := None]> (opens mp l) ∧
  zip_with (λ o r, if waits y o then RevertInfo_to y.1 y.2 else r) (opens mp l) (ref_chain mp l) =
    <[i := RevertInfo_to y.1 y.2]> (ref_chain mp l).
Proof.
  intros Hi Hs. pose proof (lookup_lt_Some _ _ _ Hi) as Hlt.
  assert (∀ j o, opens mp l !! j = Some o → waits y o = bool_decide (j = i)) as Hw.
  { intros j o Hj. case_bool_decide as E.
    - subst j. rewrite Hi in Hj. by injection Hj as <-.
    - destruct o as [s|]; [|done]. simpl. destruct (same_slot cmp s (slot_of y.2)) eqn:Es; [|done].
      destruct E. apply (opens_inj mp l j i s s' Hj Hi).
      by rewrite (same_slot_l _ _ _ Es), same_slot_sym. }
  split; apply list_eq; intros j.
  - rewrite list_lookup_fmap. destruct (decide (j = i)) as [->|Hne].
    + rewrite Hi, list_lookup_insert_eq by done. cbn [fmap option_fmap option_map].
      by rewrite (Hw i _ Hi), bool_decide_true.
    + rewrite list_lookup_insert_ne by done. destruct (opens mp l !! j) as [o|] eqn:E; [|done].
      cbn [fmap option_fmap option_map]. by rewrite (Hw j o E), bool_decide_false.
  - rewrite lookup_zip_with. destruct (decide (j = i)) as [->|Hne].
    + rewrite Hi, list_lookup_insert_eq by (by rewrite length_ref_chain). cbn [mbind option_bind].
      destruct (lookup_lt_is_Some_2 (ref_chain mp l) i) as [r ->]; [by rewrite length_ref_chain|].
      cbn [mbind option_bind]. by rewrite (Hw i _ Hi), bool_decide_true.
    + rewrite list_lookup_insert_ne by done. destruct (opens mp l !! j) as [o|] eqn:E; simpl.
      * destruct (ref_chain mp l !! j); [|done]. simpl. by rewrite (Hw j o E), bool_decide_false.
      * symmetry. apply lookup_ge_None. rewrite length_ref_chain. by apply lookup_ge_None.
Qed.

Lemma close_none mp l y :
  (∀ i s', opens mp l !! i = Some (Some s') → same_slot cmp s' (slot_of y.2) = false) →
  (λ o, if waits y o then None else o) <$> opens mp l = opens mp l ∧
  zip_with (λ o r, if waits y o then RevertInfo_to y.1 y.2 else r) (opens mp l) (ref_chain mp l) =
    ref_chain mp l.
Proof.
  intros Hn. assert (∀ j o, opens mp l !! j = Some o → waits y o = false) as Hw.
  { intros j [s|] Hj; [|done]. simpl. by eapply Hn. }
  split; apply list_eq; intros j.
  - rewrite list_lookup_fmap. destruct (opens mp l !! j) as [o|] eqn:E; [|done]. simpl.
    by rewrite (Hw j o E).
  - rewrite lookup_zip_with. destruct (opens mp l !! j) as [o|] eqn:E; simpl.
    + destruct (ref_chain mp l !! j); [|done]. simpl. by rewrite (Hw j o E).
    + symmetry. apply lookup_ge_None. rewrite length_ref_chain. by apply lookup_ge_None.
Qed.

Lemma remaining_snoc mp (l : list (Z * LnRecord)) y :
  (filter (λ x, negb (mp <? x.1)) (l ++ [y])).*1 =
  (filter (λ x, negb (mp <? x.1)) l).*1 ++ (if mp <? y.1 then [] else [y.1]).
Proof. rewrite filter_app, fmap_app, filter_bool_cons. by destruct (mp <? y.1). Qed.

(** The map after a record whose slot does not wait. *)
Lemma chain_step_fresh mp l st y :
  valid_lsn mp → valid_lsn y.1 → chain_inv mp l st →
  (∀ s i, (s, i) ∈ records_map st → same_slot cmp s (slot_of y.2) = false) →
  slot_position cmp (slot_of y.2) (records_map st) = None →
  ∃ st', chain_step cmp mp st y = Some st' ∧ chain_inv mp (l ++ [y]) st'.
Proof.
  intros Hmp Hy [Hr Hrem Hsound Hcomp Hnd] Hfresh Hpos. destruct y as [lsn rec]. cbn [fst snd] in *.
  destruct (close_none mp l (lsn, rec)) as [Ho Hc].
  { intros i s' Hi. destruct (Hcomp i s' Hi) as [s Hin]. destruct (Hsound s i Hin) as (s2 & Hi2 & Es).
    rewrite Hi in Hi2. injection Hi2 as <-. rewrite <-(same_slot_l _ _ _ Es). by eapply Hfresh. }
  unfold chain_step. rewrite Hpos. cbn [mbind option_bind]. unfold lsn_gt.
  rewrite lsn_lt_valid by done. cbn [mbind option_bind].
  assert (length (cs_reverts st) = length (opens mp l)) as Hlen by (by rewrite Hr, length_ref_chain).
  destruct (mp <? lsn) eqn:E; cbn [mbind option_bind]; (eexists; split; [done|]).
  - split; cbn [records_map cs_reverts cs_remaining].
    + rewrite ref_chain_snoc, Hc, Hr. simpl. by rewrite E.
    + rewrite remaining_snoc, Hrem. simpl. by rewrite E, app_nil_r.
    + intros s i. rewrite opens_snoc, Ho. cbn [fst snd]. rewrite E, elem_of_app.
      intros [Hin|[= -> ->]%list_elem_of_singleton].
      * destruct (Hsound s i Hin) as (s' & Hi & Es). exists s'. split; [|done].
        by apply lookup_app_l_Some.
      * exists (slot_of rec). rewrite length_app, Hlen. simpl. rewrite Nat.add_1_r. simpl.
        split; [by rewrite list_lookup_middle|apply same_slot_refl].
    + intros i s'. rewrite opens_snoc, Ho. cbn [fst snd]. rewrite E.
      intros [Hi|[Hge Hi]]%lookup_app_Some.
      * destruct (Hcomp i s' Hi) as [s Hin]. exists s. apply elem_of_app. by left.
      * apply list_lookup_singleton_Some in Hi as [Hi _]. exists (slot_of rec).
        apply elem_of_app. right. apply list_elem_of_singleton. f_equal.
        rewrite length_app, Hlen. simpl. lia.
    + rewrite fmap_app. apply NoDup_app. split_and!; [done| |apply NoDup_singleton].
      intros i ((s & i') & -> & Hin)%list_elem_of_fmap. simpl.
      destruct (Hsound s i' Hin) as (s' & Hi%lookup_lt_Some & _).
      rewrite list_elem_of_singleton, length_app, Hlen. simpl. lia.
  - split; cbn [records_map cs_reverts cs_remaining].
    + rewrite ref_chain_snoc, Hc, Hr. simpl. by rewrite E, app_nil_r.
    + rewrite remaining_snoc, Hrem. simpl. by rewrite E.
    + intros s i. rewrite opens_snoc, Ho. cbn [fst snd]. rewrite E, app_nil_r. apply Hsound.
    + intros i s'. rewrite opens_snoc, Ho. cbn [fst snd]. rewrite E, app_nil_r. apply Hcomp.
    + done.
Qed.

Lemma vec_set_lt {A} i (x : A) v : (i < length v)%nat → vec_set i x v = Some (<[i := x]> v).
Proof. intros Hi. unfold vec_set. by rewrite (proj2 (Nat.ltb_lt _ _) Hi). Qed.

(** The map after a record whose slot waits at place [i]. *)
Lemma chain_step_waiting mp l st y pos s0 i s' :
  valid_lsn mp → valid_lsn y.1 → chain_inv mp l st →
  slot_position cmp (slot_of y.2) (records_map st) = Some pos →
  records_map st !! pos = Some (s0, i) → same_slot cmp s0 (slot_of y.2) = true →
  opens mp l !! i = Some (Some s') → same_slot cmp s0 s' = true →
  ∃ st', chain_step cmp mp st y = Some st' ∧ chain_inv mp (l ++ [y]) st'.
Proof.
  intros Hmp Hy [Hr Hrem Hsound Hcomp Hnd] Hpos Hat Hs0 Hi Es. destruct y as [lsn rec].
  cbn [fst snd] in *. pose proof (lookup_lt_Some _ _ _ Hat) as Hpl.
  pose proof (lookup_lt_Some _ _ _ Hi) as Hil.
  destruct (close_one mp l (lsn, rec) i s' Hi) as [Ho Hc]; [by rewrite <-(same_slot_l _ _ _ Es)|].
  assert (length (cs_reverts st) = length (opens mp l)) as Hlen by (by rewrite Hr, length_ref_chain).
  pose proof (take_drop_middle _ _ _ Hat) as Hsplit.
  set (m1 := take pos (records_map st)) in *. set (m2 := drop (S pos) (records_map st)) in *.
  assert (length m1 = pos) as Hm1 by (apply length_take_le; lia).
  assert (∀ s j, (s, j) ∈ m1 ++ m2 → j ≠ i ∧ (s, j) ∈ records_map st) as Hother.
  { intros s j Hin. split.
    - intros ->. rewrite <-Hsplit, fmap_app, fmap_cons, <-Permutation_middle in Hnd.
      apply NoDup_cons in Hnd as [Hni _]. destruct Hni. rewrite <-fmap_app.
      apply list_elem_of_fmap. by exists (s, i).
    - rewrite <-Hsplit, elem_of_app, elem_of_cons. apply elem_of_app in Hin. naive_solver. }
  assert (∀ s j, (s, j) ∈ records_map st → j ≠ i → (s, j) ∈ m1 ++ m2) as Hrest.
  { intros s j Hin Hj. rewrite <-Hsplit, elem_of_app, elem_of_cons in Hin.
    apply elem_of_app. naive_solver. }
  assert (NoDup (m1 ++ m2).*2) as Hnd'.
  { rewrite <-Hsplit, fmap_app, fmap_cons, <-Permutation_middle in Hnd.
    rewrite fmap_app. by apply NoDup_cons in Hnd as [_ ?]. }
  unfold chain_step. rewrite Hpos, Hat. cbn [mbind option_bind].
  rewrite vec_set_lt by (rewrite Hlen; lia). cbn [mbind option_bind]. unfold lsn_gt.
  rewrite lsn_lt_valid by done. cbn [mbind option_bind].
  destruct (mp <? lsn) eqn:E; cbn [mbind option_bind].
  - rewrite vec_set_lt by lia. cbn [mbind option_bind]. eexists; split; [done|].
    assert (<[pos:=(s0, pred (length (<[i:=RevertInfo_to lsn rec]> (cs_reverts st) ++
              [RevertInfo_from_abort rec])))]> (records_map st)
            = m1 ++ (s0, length (opens mp l)) :: m2) as ->.
    { rewrite insert_take_drop by done. rewrite length_app, length_insert, Hlen. simpl.
      by rewrite Nat.add_1_r. }
    split; cbn [records_map cs_reverts cs_remaining].
    + rewrite ref_chain_snoc, Hc, Hr. simpl. by rewrite E.
    + rewrite remaining_snoc, Hrem. simpl. by rewrite E, app_nil_r.
    + intros s j Hin. rewrite opens_snoc, Ho. cbn [fst snd]. rewrite E.
      rewrite elem_of_app, elem_of_cons in Hin.
      assert ((s, j) = (s0, length (opens mp l)) ∨ (s, j) ∈ m1 ++ m2) as [[= -> ->]|Hin']
        by (rewrite elem_of_app; naive_solver).
      * exists (slot_of rec). split; [|done]. rewrite lookup_app_r, length_insert, Nat.sub_diag
          by (by rewrite length_insert). done.
      * destruct (Hother s j Hin') as [Hj Hin2]. destruct (Hsound s j Hin2) as (t & Hjt & Et).
        exists t. split; [|done]. apply lookup_app_l_Some. by rewrite list_lookup_insert_ne.
    + intros j t. rewrite opens_snoc, Ho. cbn [fst snd]. rewrite E.
      intros [Hj|[Hge Hj]]%lookup_app_Some.
      * destruct (decide (j = i)) as [->|Hne]; [by rewrite list_lookup_insert_eq in Hj|].
        rewrite list_lookup_insert_ne in Hj by done. destruct (Hcomp j t Hj) as [s Hin].
        exists s. pose proof (Hrest s j Hin Hne) as Hin'. rewrite elem_of_app, elem_of_cons.
        apply elem_of_app in Hin'. naive_solver.
      * apply list_lookup_singleton_Some in Hj as [Hj _]. rewrite length_insert in *.
        exists s0. apply elem_of_app. right. apply elem_of_cons. left. f_equal. lia.
    + rewrite fmap_app, fmap_cons, <-Permutation_middle, <-fmap_app. apply NoDup_cons. split; [|done].
      intros ((s & j) & Heq & Hin)%list_elem_of_fmap. simpl in Heq.
      destruct (Hother s j Hin) as [_ Hin2]. destruct (Hsound s j Hin2) as (? & Hj%lookup_lt_Some & _).
      lia.
  - destruct (swap_remove_spec m1 m2 (s0, i)) as (m' & Hsw & Hp). rewrite Hm1, Hsplit in Hsw.
    rewrite Hsw. cbn [fmap option_fmap option_map snd mbind option_bind]. eexists; split; [done|].
    split; cbn [records_map cs_reverts cs_remaining].
    + rewrite ref_chain_snoc, Hc, Hr. simpl. by rewrite E, app_nil_r.
    + rewrite remaining_snoc, Hrem. simpl. by rewrite E.
    + intros s j Hin. rewrite Hp in Hin. rewrite opens_snoc, Ho. cbn [fst snd].
      rewrite E, app_nil_r. destruct (Hother s j Hin) as [Hj Hin2].
      destruct (Hsound s j Hin2) as (t & Hjt & Et). exists t. by rewrite list_lookup_insert_ne.
    + intros j t. rewrite opens_snoc, Ho. cbn [fst snd]. rewrite E, app_nil_r. intros Hj.
      destruct (decide (j = i)) as [->|Hne]; [by rewrite list_lookup_insert_eq in Hj|].
      rewrite list_lookup_insert_ne in Hj by done. destruct (Hcomp j t Hj) as [s Hin].
      exists s. rewrite Hp. by apply Hrest.
    + by rewrite Hp.
Qed.

Lemma chain_step_inv mp l st y :
  valid_lsn mp → valid_lsn y.1 → chain_inv mp l st →
  ∃ st', chain_step cmp mp st y = Some st' ∧ chain_inv mp (l ++ [y]) st'.
Proof.
  intros Hmp Hy Hinv. pose proof (slot_position_spec (slot_of y.2) (records_map st)) as Hspec.
  destruct (slot_position cmp (slot_of y.2) (records_map st)) as [pos|] eqn:Hpos.
  - destruct Hspec as (s0 & i & Hat & Hs0).
    destruct (inv_sound _ _ _ Hinv s0 i) as (s' & Hi & Es); [by eapply list_elem_of_lookup_2|].
    by eapply chain_step_waiting.
  - by apply chain_step_fresh.
Qed.

Lemma insert_by_lsn_perm x l : insert_by_lsn x l ≡ₚ x :: l.
Proof.
  induction l as [|y l IH]; simpl; [done|]. destruct (y.1 <=? x.1); [done|].
  rewrite IH. by apply Permutation_swap.
Qed.

Lemma insert_by_lsn_sorted x l :
  StronglySorted (λ a b : Z * LnRecord, b.1 ≤ a.1) l →
  StronglySorted (λ a b : Z * LnRecord, b.1 ≤ a.1) (insert_by_lsn x l).
Proof.
  induction 1 as [|y l Hs IH Hy]; simpl; [by repeat constructor|].
  destruct (y.1 <=? x.1) eqn:E; reflect_bools.
  - constructor; [by constructor|]. apply List.Forall_cons; [done|].
    eapply Forall_impl; [exact Hy|]. simpl. intros. lia.
  - constructor; [done|]. apply Forall_forall. intros z Hz.
    rewrite insert_by_lsn_perm, elem_of_cons in Hz.
    destruct Hz as [->|Hz]; [lia|by apply (proj1 (Forall_forall _ _) Hy)].
Qed.

Lemma sort_by_lsn_spec l :
  sort_by_lsn l ≡ₚ l ∧ StronglySorted (λ a b : Z * LnRecord, b.1 ≤ a.1) (sort_by_lsn l).
Proof.
  induction l as [|x l [IHp IHs]]; [split; [done|constructor]|].
  change (sort_by_lsn (x :: l)) with (insert_by_lsn x (sort_by_lsn l)).
  split; [rewrite insert_by_lsn_perm; by constructor|by apply insert_by_lsn_sorted].
Qed.

(** [build] computes the reference on the records sorted by LSN. *)
Lemma TxnChain_build_spec mp logrecs :
  valid_lsn mp → Forall (λ x, valid_lsn x.1) logrecs →
  TxnChain_build logrecs mp cmp =
  Some {| revert_list := ref_chain mp (sort_by_lsn logrecs);
          remaining_locked_nodes :=
            (filter (λ x, negb (mp <? x.1)) (sort_by_lsn logrecs)).*1 |}.
Proof.
  intros Hmp Hv. destruct (sort_by_lsn_spec logrecs) as [Hp _]. rewrite <-Hp in Hv.
  unfold TxnChain_build.
  destruct (fold_m_inv (chain_step cmp mp) (chain_inv mp) (sort_by_lsn logrecs)
              {| records_map := []; cs_reverts := []; cs_remaining := [] |})
    as (st & -> & [Hr Hrem _ _ _]).
  - split; simpl; [done|done|by intros ?? ?%elem_of_nil|done|constructor].
  - intros l1 x l2 st Hl. apply chain_step_inv; [done|].
    rewrite Hl in Hv. apply Forall_app in Hv as [_ Hv]. by apply List.Forall_cons_iff in Hv as [? _].
  - cbn [mbind option_bind]. by rewrite Hr, Hrem.
Qed.
End chain.

(** ** The tracker *)

Inductive rollback_event :=
| REStart (matchpoint start : Z) (ids : list Z)
| REEnd (matchpoint end_ : Z).

Definition register (t : RollbackTracker) (e : rollback_event) : RollbackTracker :=
  match e with
  | REStart mp s ids => register_rollback_start_with_txns t mp s ids
  | REEnd mp e => register_rollback_end t mp e
  end.

(** The periods that answer a query. *)
Definition known (t : RollbackTracker) : list RollbackPeriod :=
  rollback_periods t ++ pending_values t.

Lemma elem_of_pending t p :
  p ∈ pending_values t ↔ ∃ k, pending_rollback_starts t !! k = Some p.
Proof.
  unfold pending_values. rewrite list_elem_of_fmap. split.
  - intros ([k p'] & -> & Hin). exists k. by apply elem_of_map_to_list.
  - intros (k & Hk). exists (k, p). split; [done|]. by apply elem_of_map_to_list.
Qed.

Lemma known_l t p : p ∈ rollback_periods t → p ∈ known t.
Proof. intros ?. unfold known. apply elem_of_app. by left. Qed.
Lemma known_r t p : p ∈ pending_values t → p ∈ known t.
Proof. intros ?. unfold known. apply elem_of_app. by right. Qed.

(** The start of a rollback of the log, in log order, and the marks that a
    scan can meet: an end closes the rollback that is open at its matchpoint. *)
Inductive marks : list rollback_event → gset Z → Prop :=
| marks_nil : marks [] ∅
| marks_start evs open mp s ids :
    marks evs open → valid_lsn mp → valid_lsn s →
    (∀ mp' s' ids', REStart mp' s' ids' ∈ evs → s' < s) →
    marks (evs ++ [REStart mp s ids]) ({[ mp ]} ∪ open)
| marks_end evs open mp e :
    marks evs open → mp ∈ open → valid_lsn e →
    marks (evs ++ [REEnd mp e]) (open ∖ {[ mp ]}).

Record tracks (evs : list rollback_event) (open : gset Z) (t : RollbackTracker) : Prop := {
  tr_open : dom (pending_rollback_starts t) = open;
  tr_pending k p : pending_rollback_starts t !! k = Some p →
    matchpoint_lsn p = k ∧ rollback_end_lsn p = NULL_LSN;
  tr_sound p : p ∈ known t →
    REStart (matchpoint_lsn p) (rollback_start_lsn p) (active_txn_ids p) ∈ evs;
  tr_cover mp s ids : REStart mp s ids ∈ evs →
    ∃ p, p ∈ known t ∧ matchpoint_lsn p = mp ∧ s ≤ rollback_start_lsn p;
  tr_valid mp s ids : REStart mp s ids ∈ evs → valid_lsn mp ∧ valid_lsn s;
  tr_sorted : StronglySorted (λ p q, matchpoint_lsn p ≤ matchpoint_lsn q) (rollback_periods t);
}.

Lemma insertion_point_le k l : (insertion_point k l ≤ length l)%nat.
Proof. induction l as [|p l IH]; simpl; [lia|]. destruct (_ <? _); lia. Qed.

Lemma add_completed_sorted t p :
  StronglySorted (λ p q, matchpoint_lsn p ≤ matchpoint_lsn q) (rollback_periods t) →
  StronglySorted (λ p q, matchpoint_lsn p ≤ matchpoint_lsn q)
                 (rollback_periods (add_completed_period t p)).
Proof.
  unfold add_completed_period. simpl. induction (rollback_periods t) as [|q l IH]; intros Hs;
    simpl; [by repeat constructor|].
  apply StronglySorted_inv in Hs as [Hs Hq].
  destruct (matchpoint_lsn q <? matchpoint_lsn p) eqn:E; reflect_bools; simpl.
  - constructor; [by apply IH|].
    rewrite <-(take_drop (insertion_point (matchpoint_lsn p) l) l) in Hq.
    apply Forall_app in Hq as [H1 H2]. apply Forall_app. split; [done|].
    apply List.Forall_cons; [lia|done].
  - constructor; [by constructor|]. apply List.Forall_cons; [done|].
    eapply Forall_impl; [exact Hq|]. simpl. intros. lia.
Qed.

Lemma elem_of_add_completed t p q :
  q ∈ known (add_completed_period t p) ↔ q = p ∨ q ∈ known t.
Proof.
  unfold known, add_completed_period, pending_values. simpl.
  set (n := insertion_point (matchpoint_lsn p) (rollback_periods t)).
  assert (q ∈ rollback_periods t ↔ q ∈ take n (rollback_periods t) ∨ q ∈ drop n (rollback_periods t))
    as Hq by (by rewrite <-elem_of_app, take_drop).
  rewrite !elem_of_app, elem_of_cons, Hq. tauto.
Qed.

Lemma elem_of_known_pending t m p :
  p ∈ known (with_pending t m) ↔ p ∈ rollback_periods t ∨ ∃ k, m !! k = Some p.
Proof. unfold known. by rewrite elem_of_app, elem_of_pending. Qed.

(** A start replaces the period that is open at its matchpoint. *)
Lemma register_start_tracks evs open t mp s ids :
  tracks evs open t → valid_lsn mp → valid_lsn s →
  (∀ mp' s' ids', REStart mp' s' ids' ∈ evs → s' < s) →
  tracks (evs ++ [REStart mp s ids]) ({[ mp ]} ∪ open) (register t (REStart mp s ids)).
Proof.
  intros [Ho Hp Hs Hc Hv Hsort] Hmp Hss Hlt. set (q := with_active_txns mp s NULL_LSN ids).
  assert (register t (REStart mp s ids) =
          with_pending t (<[mp := q]> (pending_rollback_starts t))) as ->.
  { simpl. unfold register_rollback_start_with_txns.
    destruct (pending_rollback_starts t !! mp) as [p|] eqn:E; [|done].
    destruct (Hp mp p E) as [Em Ee]. cbn [rollback_end_lsn]. rewrite Ee, Z.eqb_refl. simpl.
    rewrite insert_delete_eq, Em. done. }
  split; cbn [pending_rollback_starts with_pending rollback_periods].
  - by rewrite dom_insert_L, Ho.
  - intros k p. rewrite lookup_insert_Some. intros [[<- <-]|[_ Hk]]; [done|by apply Hp].
  - intros p. rewrite elem_of_known_pending, elem_of_app.
    intros [Hin|(k & [[<- <-]|[_ Hk]]%lookup_insert_Some)].
    + left. apply Hs. unfold known. apply elem_of_app. by left.
    + right. by apply list_elem_of_singleton.
    + left. apply Hs. unfold known. apply elem_of_app. right. apply elem_of_pending. by exists k.
  - intros mp' s' ids'. rewrite elem_of_app, list_elem_of_singleton. setoid_rewrite elem_of_known_pending.
    intros [Hin|[= -> -> ->]].
    + destruct (Hc _ _ _ Hin) as (p & Hk & Em & Hle).
      destruct (decide (mp = mp')) as [->|Hne].
      * exists q. split; [right; exists mp'; by rewrite lookup_insert_eq|]. simpl. split; [done|].
        pose proof (Hlt _ _ _ Hin). lia.
      * exists p. split; [|done]. unfold known in Hk. rewrite elem_of_app, elem_of_pending in Hk.
        destruct Hk as [|(k & Hk)]; [by left|right]. exists k. destruct (Hp k p Hk) as [Ek _].
        rewrite lookup_insert_ne; [done|]. congruence.
    + exists q. split; [right; exists mp; by rewrite lookup_insert_eq|done].
  - intros mp' s' ids'. rewrite elem_of_app, list_elem_of_singleton.
    intros [Hin|[= -> -> ->]]; [by eapply Hv|done].
  - done.
Qed.

Lemma register_end_tracks evs open t mp e :
  tracks evs open t → mp ∈ open →
  tracks (evs ++ [REEnd mp e]) (open ∖ {[ mp ]}) (register t (REEnd mp e)).
Proof.
  intros [Ho Hp Hs Hc Hv Hsort] Hmp. rewrite <-Ho in Hmp. apply elem_of_dom in Hmp as [p Ep].
  destruct (Hp mp p Ep) as [Em _]. simpl. unfold register_rollback_end. rewrite Ep, Em.
  set (q := {| matchpoint_lsn := mp; rollback_start_lsn := rollback_start_lsn p;
               rollback_end_lsn := e; active_txn_ids := active_txn_ids p |}).
  set (t1 := with_pending t (delete mp (pending_rollback_starts t))).
  assert (∀ x, x ∈ known t ↔ x = p ∨ x ∈ known t1) as Hknown.
  { intros x. unfold t1. rewrite elem_of_known_pending. unfold known.
    rewrite elem_of_app, elem_of_pending. setoid_rewrite lookup_delete_Some. split.
    - intros [|(k & Hk)]; [by right; left|]. destruct (decide (k = mp)) as [->|]; [left; congruence|].
      right. right. by exists k.
    - intros [->|[|(k & _ & Hk)]]; [right; by exists mp|by left|right; by exists k]. }
  split; cbn [pending_rollback_starts with_pending rollback_periods add_completed_period].
  - simpl. by rewrite dom_delete_L, Ho.
  - intros k x. simpl. rewrite lookup_delete_Some. intros [_ Hk]. by apply Hp.
  - intros x. rewrite elem_of_add_completed, elem_of_app. intros [->|Hx].
    + left. cbn. rewrite <-Em. apply Hs. apply Hknown. by left.
    + left. apply Hs, Hknown. by right.
  - intros mp' s' ids' [Hin|[=]%list_elem_of_singleton]%elem_of_app.
    destruct (Hc _ _ _ Hin) as (x & [->|Hx]%Hknown & Ex & Hle); setoid_rewrite elem_of_add_completed.
    + exists q. split; [by left|]. simpl. split; [congruence|done].
    + exists x. split; [by right|done].
  - intros mp' s' ids' [Hin|[=]%list_elem_of_singleton]%elem_of_app. by eapply Hv.
  - by apply add_completed_sorted.
Qed.

Lemma marks_tracks evs open :
  marks evs open → tracks evs open (foldl register RollbackTracker_new evs).
Proof.
  induction 1 as [|evs open mp s ids Hm IH Hmp Hs Hlt|evs open mp e Hm IH Hmp He].
  - split.
    + apply dom_empty_L.
    + done.
    + by intros p ?%elem_of_nil.
    + by intros ??? ?%elem_of_nil.
    + by intros ??? ?%elem_of_nil.
    + constructor.
  - rewrite foldl_snoc. by apply register_start_tracks.
  - rewrite foldl_snoc. by apply register_end_tracks.
Qed.

Definition in_window (p : RollbackPeriod) (lsn : Z) : bool :=
  (matchpoint_lsn p <? lsn) && (lsn <? rollback_start_lsn p).

Lemma period_contains_valid p lsn :
  valid_lsn lsn → valid_lsn (matchpoint_lsn p) → valid_lsn (rollback_start_lsn p) →
  period_contains p lsn = Some (in_window p lsn).
Proof.
  intros Hl Hm Hs. unfold period_contains, lsn_gt, in_window. rewrite !lsn_lt_valid by done.
  cbn [mbind option_bind]. by destruct (matchpoint_lsn p <? lsn).
Qed.

Definition ln_in_window (lsn txn : Z) (p : RollbackPeriod) : bool :=
  in_window p lsn && bool_decide (txn ∈ active_txn_ids p).

Section queries.
Context evs open (t : RollbackTracker) (Ht : tracks evs open t).

Lemma known_valid p :
  p ∈ known t → valid_lsn (matchpoint_lsn p) ∧ valid_lsn (rollback_start_lsn p) ∧ started p = true.
Proof.
  intros Hp. destruct (tr_valid _ _ _ Ht _ _ _ (tr_sound _ _ _ Ht p Hp)) as [Hm Hs].
  split_and!; [done..|]. unfold started. rewrite negb_true_iff, Z.eqb_neq. unfold valid_lsn in Hs. lia.
Qed.

Lemma is_in_rollback_period_known lsn :
  valid_lsn lsn → is_in_rollback_period t lsn = Some (existsb (λ p, in_window p lsn) (known t)).
Proof.
  intros Hl. unfold is_in_rollback_period, known. rewrite existsb_app.
  rewrite (any_m_total _ (λ p, in_window p lsn) (rollback_periods t)); cbn [mbind option_bind].
  2:{ intros p Hp. destruct (known_valid p) as (Hm & Hs & _); [by apply known_l|].
      by apply period_contains_valid. }
  destruct (existsb _ (rollback_periods t)); [done|]. simpl.
  apply any_m_total. intros p Hp. destruct (known_valid p) as (Hm & Hs & ->);
    [by apply known_r|]. by apply period_contains_valid.
Qed.

Lemma is_in_rollback_period_iff lsn :
  valid_lsn lsn →
  ∃ b, is_in_rollback_period t lsn = Some b ∧
    (b = true ↔ ∃ mp s ids, REStart mp s ids ∈ evs ∧ mp < lsn < s).
Proof.
  intros Hl. eexists. split; [by apply is_in_rollback_period_known|].
  rewrite existsb_exists. split.
  - intros (p & Hp%list_elem_of_In & Hw). unfold in_window in Hw. reflect_bools.
    do 3 eexists. split; [by apply (tr_sound _ _ _ Ht)|lia].
  - intros (mp & s & ids & Hin & Hw). destruct (tr_cover _ _ _ Ht _ _ _ Hin) as (p & Hp & Em & Hle).
    exists p. split; [by apply list_elem_of_In|]. unfold in_window. rewrite Em.
    apply andb_true_iff. rewrite !Z.ltb_lt. lia.
Qed.

Lemma find_period_for_ln_known lsn txn :
  valid_lsn lsn →
  find_period_for_ln t lsn txn =
  Some (head (filter (ln_in_window lsn txn) (known t))).
Proof.
  intros Hl. unfold find_period_for_ln, known. rewrite filter_app, head_app.
  set (q := ln_in_window lsn txn).
  assert (∀ p, p ∈ known t → period_contains_ln p lsn txn = Some (q p)) as Hq.
  { intros p Hp. destruct (known_valid p Hp) as (Hm & Hs & _). unfold period_contains_ln.
    by rewrite period_contains_valid. }
  rewrite (find_m_total _ q (rollback_periods t)) by (intros p Hp; by apply Hq, known_l).
  cbn [mbind option_bind]. destruct (head (filter q (rollback_periods t))); [done|].
  apply find_m_total. intros p Hp. destruct (known_valid p) as (_ & _ & ->);
    [by apply known_r|]. by apply Hq, known_r.
Qed.
End queries.

(** * Properties *)



(** C14. Rollback restores the previous version.  The chain that [build] makes
    for a transaction pops, for every record after the matchpoint from the
    newest to the oldest, the version that the transaction wrote before it in
    that slot, before or after the matchpoint, and the version before the
    transaction only for its first write of the slot; the records up to the
    matchpoint are the ones that stay locked. *)
Theorem txn_chain_previous_versions (cmp : key → key → comparison) `{KeyOrder cmp}
    (mp : Z) (logrecs : list (Z * LnRecord))
    (Hmp : valid_lsn mp) (Hv : Forall (λ x, valid_lsn x.1) logrecs) :
  ∃ sorted, sorted ≡ₚ logrecs ∧ StronglySorted (λ a b, b.1 ≤ a.1) sorted ∧
    TxnChain_build logrecs mp cmp =
    Some {| revert_list := ref_chain (cmp := cmp) mp sorted;
            remaining_locked_nodes := (filter (λ x, negb (mp <? x.1)) sorted).*1 |}.
Proof.
  exists (sort_by_lsn logrecs). destruct (sort_by_lsn_spec logrecs) as [Hp Hs].
  split_and!; [done..|]. by apply TxnChain_build_spec.
Qed.

(** The records of the example in the source: 500 returns to the deletion at
    300, 300 to 200, 400 and 200 to the versions before the transaction. *)
Lemma txn_chain_previous_versions_witness :
  let ln k op d abort := LnRecord_new 1 (Some 9) op k d abort false in
  let recs := [(200, ln [65] LnUpdate (Some [20]) 100); (300, ln [65] LnDelete None 100);
               (400, ln [66] LnUpdate (Some [200]) 150); (500, ln [65] LnInsert (Some [30]) 100)] in
  ∃ c, TxnChain_build recs 190 compare_unsigned_bytes = Some c ∧
       revert_lsn <$> revert_list c = [300; 150; 200; 100].
Proof.
  intros ln recs.
  destruct (txn_chain_previous_versions compare_unsigned_bytes 190 recs) as (sorted & _ & _ & E).
  - unfold valid_lsn, NULL_LSN. lia.
  - repeat apply List.Forall_cons; try apply List.Forall_nil; unfold valid_lsn, NULL_LSN; simpl; lia.
  - eexists. split; [exact E|]. assert (TxnChain_build recs 190 compare_unsigned_bytes =
      Some {| revert_list := ref_chain (cmp := compare_unsigned_bytes) 190 (sort_by_lsn recs);
              remaining_locked_nodes := [] |}) as E' by (vm_compute; reflexivity).
    rewrite E' in E. injection E as E1 E2. rewrite <-E1. vm_compute. reflexivity.
Defined.
