(* ===== verification/Analysis.v ===== *)
(** * The analysis phase of recovery
    (noxu-recovery, [analysis_result.rs], [dirty_in_map.rs],
    [catalog_integrity.rs], [find_last_checkpoint], [run_analysis] and
    [run_mapping_tree_undo_pass] of [recovery_manager.rs])

    One forward scan of the log from the last checkpoint sorts the
    transactions into committed, aborted, prepared and active ones, collects
    the logged nodes, the rollback marks, the catalog of database names and the
    utilization of the files.  The catalog is then settled: names whose
    transaction did not commit are taken back, and deletions take effect when
    their transaction committed.

    The fields of [AnalysisResult] are kept in three groups (transactions,
    checkpoint, catalog).  The progress counters of [RecoveryStats] are not
    modelled.  [None] is a panic: a comparison with the null LSN or an index
    out of range. *)

From stdpp Require Import sorting.
From S2P Require Import Prelude Bytes Packed Lsn Keys LsnRep TargetRep Bin RecoveryLog Rollback.

(** ** Dirty nodes by level *)

Inductive CkptState := CkptNone | DirtyMapIncomplete | DirtyMapComplete.

Record CheckpointReference := {
  cr_node_id : Z;
  cr_db_id : Z;
  cr_is_delta : bool;
  cr_level : Z;
}.

Record DirtyINMap := {
  level_map : gmap Z (gmap Z CheckpointReference * gmap Z CheckpointReference);
  num_entries : Z;
  ckpt_state : CkptState;
}.

Definition DirtyINMap_new : DirtyINMap :=
  {| level_map := ∅; num_entries := 0; ckpt_state := CkptNone |}.

Definition add_dirty_in (m : DirtyINMap) (r : CheckpointReference) : DirtyINMap :=
  let '(normal, delta) := default (∅, ∅) (level_map m !! cr_level r) in
  let old := if cr_is_delta r then delta else normal in
  let new := <[cr_node_id r := r]> old in
  let levels := if cr_is_delta r then (normal, new) else (new, delta) in
  {| level_map := <[cr_level r := levels]> (level_map m);
     num_entries := match old !! cr_node_id r with
                    | None => num_entries m + 1
                    | Some _ => num_entries m
                    end;
     ckpt_state := ckpt_state m |}.

(** The references of a level, full nodes first; [num_entries] is unsigned. *)
Definition select_dirty_ins_for_level (m : DirtyINMap) (level : Z)
    : option (DirtyINMap * list CheckpointReference) :=
  match level_map m !! level with
  | Some (normal, delta) =>
      let result := (map_to_list normal).*2 ++ (map_to_list delta).*2 in
      let n := num_entries m - Z.of_nat (length result) in
      if n <? 0 then None
      else Some ({| level_map := delete level (level_map m); num_entries := n;
                    ckpt_state := ckpt_state m |}, result)
  | None => Some (m, [])
  end.

(** The least key of a [BTreeMap]. *)
Definition get_lowest_level (m : DirtyINMap) : option Z :=
  min_lsn (map_to_list (level_map m)).*1.

Definition dirty_clear (m : DirtyINMap) : DirtyINMap := DirtyINMap_new.

(** [while let Some(level) = map.get_lowest_level() { map.select_dirty_ins_for_level(level); }] *)
Fixpoint drain_levels (fuel : nat) (m : DirtyINMap)
    : option (DirtyINMap * list CheckpointReference) :=
  match get_lowest_level m with
  | None => Some (m, [])
  | Some level =>
      match fuel with
      | O => None
      | S fuel =>
          '(m, rs) ← select_dirty_ins_for_level m level;
          '(m, rest) ← drain_levels fuel m;
          Some (m, rs ++ rest)
      end
  end.

(** ** The results of the analysis *)

Record PreparedTxnInfo := {
  pi_txn_id : Z;
  pi_prepare_lsn : Z;
  pi_first_lsn : Z;
  pi_last_lsn : Z;
  pi_xid_format_id : Z;
  pi_xid_gtrid : list Z;
  pi_xid_bqual : list Z;
}.

Record TxnSets := {
  committed_txns : gmap Z Z;
  aborted_txns : gset Z;
  prepared_txns : gmap Z PreparedTxnInfo;
  active_txns : gset Z;
  max_txn_id : Z;
}.

Definition TxnSets_new : TxnSets :=
  {| committed_txns := ∅; aborted_txns := ∅; prepared_txns := ∅; active_txns := ∅;
     max_txn_id := 0 |}.

Definition record_commit (t : TxnSets) (txn_id commit_lsn : Z) : TxnSets :=
  {| committed_txns := <[txn_id := commit_lsn]> (committed_txns t);
     aborted_txns := aborted_txns t;
     prepared_txns := delete txn_id (prepared_txns t);
     active_txns := active_txns t ∖ {[ txn_id ]};
     max_txn_id := Z.max (max_txn_id t) txn_id |}.

Definition record_abort (t : TxnSets) (txn_id : Z) : TxnSets :=
  {| committed_txns := committed_txns t;
     aborted_txns := {[ txn_id ]} ∪ aborted_txns t;
     prepared_txns := delete txn_id (prepared_txns t);
     active_txns := active_txns t ∖ {[ txn_id ]};
     max_txn_id := Z.max (max_txn_id t) txn_id |}.

Definition record_prepare (t : TxnSets) (info : PreparedTxnInfo) : TxnSets :=
  {| committed_txns := committed_txns t;
     aborted_txns := aborted_txns t;
     prepared_txns := <[pi_txn_id info := info]> (prepared_txns t);
     active_txns := active_txns t ∖ {[ pi_txn_id info ]};
     max_txn_id := Z.max (max_txn_id t) (pi_txn_id info) |}.

Definition is_committed (t : TxnSets) (txn_id : Z) : bool :=
  bool_decide (is_Some (committed_txns t !! txn_id)).
Definition is_aborted (t : TxnSets) (txn_id : Z) : bool := bool_decide (txn_id ∈ aborted_txns t).
Definition is_prepared (t : TxnSets) (txn_id : Z) : bool :=
  bool_decide (is_Some (prepared_txns t !! txn_id)).
Definition is_active (t : TxnSets) (txn_id : Z) : bool :=
  negb (is_committed t txn_id) && negb (is_aborted t txn_id) && negb (is_prepared t txn_id).

Definition record_active_txn (t : TxnSets) (txn_id : Z) : TxnSets :=
  if is_committed t txn_id || is_aborted t txn_id then t
  else {| committed_txns := committed_txns t;
          aborted_txns := aborted_txns t;
          prepared_txns := prepared_txns t;
          active_txns := {[ txn_id ]} ∪ active_txns t;
          max_txn_id := Z.max (max_txn_id t) txn_id |}.

Definition has_active_txns (t : TxnSets) : bool := negb (bool_decide (active_txns t = ∅)).

Record CkptBounds := {
  checkpoint_start_lsn : Z;
  checkpoint_end_lsn : Z;
  last_checkpoint_id : option Z;
  first_active_lsn : Z;
  use_root_lsn : Z;
  per_db_roots : list (Z * Z);
}.

Record CatalogEvent := {
  ev_lsn : Z;
  ev_id : Z;
  ev_is_deleted : bool;
  ev_txn_id : option Z;
  ev_in_relog_run : bool;
}.

Abbreviation name := (list Z).

Record NameCatalog := {
  recovered_db_names : gmap name Z;
  recovered_db_txn_ids : gmap name Z;
  recovered_db_name_lsns : gmap name Z;
  recovered_db_comparators : gmap name (option (list Z) * option (list Z));
  recovered_db_fanouts : gmap name Z;
  pending_name_deletes : gmap name Z;
  catalog_events : gmap name (list CatalogEvent);
}.

Definition NameCatalog_new : NameCatalog :=
  {| recovered_db_names := ∅; recovered_db_txn_ids := ∅; recovered_db_name_lsns := ∅;
     recovered_db_comparators := ∅; recovered_db_fanouts := ∅; pending_name_deletes := ∅;
     catalog_events := ∅ |}.

Record RebuiltFileSummary := {
  total_count : Z; total_size : Z; total_in_count : Z; total_in_size : Z;
  total_ln_count : Z; total_ln_size : Z; max_ln_size : Z;
  obsolete_in_count : Z; obsolete_ln_count : Z; obsolete_ln_size : Z;
  obsolete_ln_size_counted : Z;
  expiration_histogram : list Z;
}.

(** [summary.obsolete_ln_count += 1] on a 32-bit integer. *)
Definition count_obsolete_ln (s : RebuiltFileSummary) : RebuiltFileSummary :=
  {| total_count := total_count s; total_size := total_size s;
     total_in_count := total_in_count s; total_in_size := total_in_size s;
     total_ln_count := total_ln_count s; total_ln_size := total_ln_size s;
     max_ln_size := max_ln_size s; obsolete_in_count := obsolete_in_count s;
     obsolete_ln_count := as_i 32 (obsolete_ln_count s + 1);
     obsolete_ln_size := obsolete_ln_size s;
     obsolete_ln_size_counted := obsolete_ln_size_counted s;
     expiration_histogram := expiration_histogram s |}.

Definition RebuiltFileSummary_default : RebuiltFileSummary :=
  {| total_count := 0; total_size := 0; total_in_count := 0; total_in_size := 0;
     total_ln_count := 0; total_ln_size := 0; max_ln_size := 0; obsolete_in_count := 0;
     obsolete_ln_count := 0; obsolete_ln_size := 0; obsolete_ln_size_counted := 0;
     expiration_histogram := [] |}.

Record AnalysisResult := {
  dirty_ins : gmap (Z * Z) (InRecord * Z);
  txns : TxnSets;
  max_node_id : Z;
  max_db_id : Z;
  ckpt : CkptBounds;
  catalog : NameCatalog;
  txncommit_vlsns : list (Z * Z);
  rebuilt_file_summaries : gmap Z RebuiltFileSummary;
}.

Definition with_dirty (r : AnalysisResult) (d : gmap (Z * Z) (InRecord * Z)) (node db : Z)
    : AnalysisResult :=
  {| dirty_ins := d; txns := txns r; max_node_id := node; max_db_id := db; ckpt := ckpt r;
     catalog := catalog r; txncommit_vlsns := txncommit_vlsns r;
     rebuilt_file_summaries := rebuilt_file_summaries r |}.

Definition with_txns (r : AnalysisResult) (t : TxnSets) (vlsns : list (Z * Z)) : AnalysisResult :=
  {| dirty_ins := dirty_ins r; txns := t; max_node_id := max_node_id r; max_db_id := max_db_id r;
     ckpt := ckpt r; catalog := catalog r; txncommit_vlsns := vlsns;
     rebuilt_file_summaries := rebuilt_file_summaries r |}.

Definition with_ckpt (r : AnalysisResult) (c : CkptBounds) : AnalysisResult :=
  {| dirty_ins := dirty_ins r; txns := txns r; max_node_id := max_node_id r;
     max_db_id := max_db_id r; ckpt := c; catalog := catalog r;
     txncommit_vlsns := txncommit_vlsns r; rebuilt_file_summaries := rebuilt_file_summaries r |}.

Definition with_catalog (r : AnalysisResult) (c : NameCatalog) : AnalysisResult :=
  {| dirty_ins := dirty_ins r; txns := txns r; max_node_id := max_node_id r;
     max_db_id := max_db_id r; ckpt := ckpt r; catalog := c;
     txncommit_vlsns := txncommit_vlsns r; rebuilt_file_summaries := rebuilt_file_summaries r |}.

Definition with_summaries (r : AnalysisResult) (s : gmap Z RebuiltFileSummary) : AnalysisResult :=
  {| dirty_ins := dirty_ins r; txns := txns r; max_node_id := max_node_id r;
     max_db_id := max_db_id r; ckpt := ckpt r; catalog := catalog r;
     txncommit_vlsns := txncommit_vlsns r; rebuilt_file_summaries := s |}.

(** The newest logged version of a node wins. *)
Definition record_dirty_in (r : AnalysisResult) (rec : InRecord) (lsn : Z) : option AnalysisResult :=
  let k := (in_db_id rec, in_node_id rec) in
  let entry := default (rec, lsn) (dirty_ins r !! k) in
  newer ← lsn_gt lsn entry.2;
  let entry := if newer : bool then (rec, lsn) else entry in
  Some (with_dirty r (<[k := entry]> (dirty_ins r))
          (Z.max (max_node_id r) (in_node_id rec)) (Z.max (max_db_id r) (in_db_id rec))).

(** ** Finding the last checkpoint *)

Record CkptInfo := {
  ci_bounds : CkptBounds;
  ci_partial_start_lsn : Z;
}.

(** One entry of the scan after the last checkpoint end. *)
Definition tail_step (ckpt_end_lsn : Z) (st : Z * Z) (pe : PositionedEntry) : option (Z * Z) :=
  let '(partial, root) := st in
  match pe_entry pe with
  | ECkptStart _ =>
      first ← (if partial =? NULL_LSN then
                 or_m (ckpt_end_lsn =? NULL_LSN) (lsn_gt (pe_lsn pe) ckpt_end_lsn)
               else Some false);
      Some (if first : bool then (pe_lsn pe, root) else (partial, root))
  | EDbTree rec => Some (partial, dt_lsn rec)
  | _ => Some (partial, root)
  end.

(** [None] in the second place: the log is empty and nothing is changed. *)
Definition find_last_checkpoint `{LogScanner Sc} (s : Sc) : option (option CkptInfo) :=
  let '(last_used, next_available) := find_end_of_log s in
  if last_used =? NULL_LSN then Some None
  else
    found ← find_last_checkpoint_entry s;
    let '(ckpt_end, ckpt_start, first_active, root, id) :=
      match found with
      | Some pe =>
          match pe_entry pe with
          | ECkptEnd rec =>
              (pe_lsn pe, ce_checkpoint_start_lsn rec, ce_first_active_lsn rec, ce_root_lsn rec,
               Some (ce_id rec))
          | _ => (NULL_LSN, NULL_LSN, NULL_LSN, NULL_LSN, None)
          end
      | None => (NULL_LSN, NULL_LSN, NULL_LSN, NULL_LSN, None)
      end in
    tail ← scan_forward s ckpt_end next_available;
    '(partial, root) ← fold_m (tail_step ckpt_end) (NULL_LSN, root) tail;
    Some (Some {| ci_bounds := {| checkpoint_start_lsn := ckpt_start; checkpoint_end_lsn := ckpt_end;
                                  last_checkpoint_id := id; first_active_lsn := first_active;
                                  use_root_lsn := root; per_db_roots := [] |};
                  ci_partial_start_lsn := partial |}).

(** ** The forward scan *)

Record AnState := {
  an_result : AnalysisResult;
  an_dirty_in_map : DirtyINMap;
  an_per_db_redo_count : gmap Z Z;
  an_rollback : RollbackTracker;
  an_fsln : gmap Z (RebuiltFileSummary * Z);
  an_obsolete_after : list (Z * Z);
  an_relog_run : list (name * nat);
}.

Definition an_with_result (s : AnState) (r : AnalysisResult) : AnState :=
  {| an_result := r; an_dirty_in_map := an_dirty_in_map s;
     an_per_db_redo_count := an_per_db_redo_count s; an_rollback := an_rollback s;
     an_fsln := an_fsln s; an_obsolete_after := an_obsolete_after s;
     an_relog_run := an_relog_run s |}.

Definition an_with_relog (s : AnState) (r : AnalysisResult) (run : list (name * nat)) : AnState :=
  {| an_result := r; an_dirty_in_map := an_dirty_in_map s;
     an_per_db_redo_count := an_per_db_redo_count s; an_rollback := an_rollback s;
     an_fsln := an_fsln s; an_obsolete_after := an_obsolete_after s; an_relog_run := run |}.

Definition with_events (c : NameCatalog) (evs : gmap name (list CatalogEvent)) : NameCatalog :=
  {| recovered_db_names := recovered_db_names c; recovered_db_txn_ids := recovered_db_txn_ids c;
     recovered_db_name_lsns := recovered_db_name_lsns c;
     recovered_db_comparators := recovered_db_comparators c;
     recovered_db_fanouts := recovered_db_fanouts c;
     pending_name_deletes := pending_name_deletes c; catalog_events := evs |}.

(** Marks event [idx] of a name as part of a relog burst, unless it is a deletion. *)
Definition mark_relog (evs : gmap name (list CatalogEvent)) (n : name) (idx : nat)
    : gmap name (list CatalogEvent) :=
  match evs !! n with
  | Some l =>
      match l !! idx with
      | Some ev =>
          if ev_is_deleted ev then evs
          else <[n := <[idx := {| ev_lsn := ev_lsn ev; ev_id := ev_id ev;
                                  ev_is_deleted := ev_is_deleted ev; ev_txn_id := ev_txn_id ev;
                                  ev_in_relog_run := true |}]> l]> evs
      | None => evs
      end
  | None => evs
  end.

(** A [CkptStart] closes the run: the last event of each name of the run is a relog. *)
Definition close_relog_run (evs : gmap name (list CatalogEvent)) (run : list (name * nat))
    : gmap name (list CatalogEvent) :=
  let last_idx := foldl (λ m '(n, idx), <[n := idx]> m) (∅ : gmap name nat) run in
  foldl (λ evs '(n, idx), mark_relog evs n idx) evs (map_to_list last_idx).

(** The bookkeeping of relog bursts in front of every entry. *)
Definition relog_step (s : AnState) (e : LogEntry) : AnState :=
  match e with
  | ECkptStart _ =>
      let r := an_result s in
      let evs := close_relog_run (catalog_events (catalog r)) (an_relog_run s) in
      an_with_relog s (with_catalog r (with_events (catalog r) evs)) []
  | ENameLn _ => s
  | _ => an_with_relog s (an_result s) []
  end.

Definition analyze_in (s : AnState) (lsn : Z) (rec : InRecord) : option AnState :=
  let r := an_result s in
  let start := checkpoint_start_lsn (ckpt r) in
  after_ckpt ← or_m (start =? NULL_LSN) (lsn_ge lsn start);
  if after_ckpt : bool then
    r ← record_dirty_in r rec lsn;
    Some {| an_result := r;
            an_dirty_in_map :=
              add_dirty_in (an_dirty_in_map s)
                {| cr_node_id := in_node_id rec; cr_db_id := as_i 64 (in_db_id rec);
                   cr_is_delta := in_is_delta rec; cr_level := in_level rec |};
            an_per_db_redo_count := an_per_db_redo_count s; an_rollback := an_rollback s;
            an_fsln := an_fsln s; an_obsolete_after := an_obsolete_after s;
            an_relog_run := an_relog_run s |}
  else Some s.

Definition analyze_ln (s : AnState) (lsn : Z) (rec : LnRecord) : AnState :=
  let r := an_result s in
  let obsolete :=
    if ln_abort_lsn rec =? NULL_LSN then an_obsolete_after s
    else an_obsolete_after s ++ [(file_number (ln_abort_lsn rec), lsn)] in
  let count := default 0 (an_per_db_redo_count s !! ln_db_id rec) in
  {| an_result := match ln_txn_id rec with
                  | Some txn_id => with_txns r (record_active_txn (txns r) txn_id) (txncommit_vlsns r)
                  | None => r
                  end;
     an_dirty_in_map := an_dirty_in_map s;
     an_per_db_redo_count := <[ln_db_id rec := count + 1]> (an_per_db_redo_count s);
     an_rollback := an_rollback s; an_fsln := an_fsln s;
     an_obsolete_after := obsolete; an_relog_run := an_relog_run s |}.

Definition analyze_commit (r : AnalysisResult) (rec : TxnCommitRecord) : AnalysisResult :=
  with_txns r (record_commit (txns r) (tc_txn_id rec) (tc_lsn rec))
    match tc_dtvlsn rec with
    | Some vlsn => if 0 <? vlsn then txncommit_vlsns r ++ [(vlsn, tc_lsn rec)]
                   else txncommit_vlsns r
    | None => txncommit_vlsns r
    end.

Definition prepared_info (rec : TxnPrepareRecord) : PreparedTxnInfo :=
  {| pi_txn_id := tp_txn_id rec; pi_prepare_lsn := tp_lsn rec; pi_first_lsn := tp_first_lsn rec;
     pi_last_lsn := tp_last_lsn rec; pi_xid_format_id := tp_xid_format_id rec;
     pi_xid_gtrid := tp_xid_gtrid rec; pi_xid_bqual := tp_xid_bqual rec |}.

Definition with_max_txn (t : TxnSets) (m : Z) : TxnSets :=
  {| committed_txns := committed_txns t; aborted_txns := aborted_txns t;
     prepared_txns := prepared_txns t; active_txns := active_txns t; max_txn_id := m |}.

(** The latest checkpoint end sets the boundaries; every one raises the counters. *)
Definition analyze_ckpt_end (r : AnalysisResult) (lsn : Z) (rec : CkptEndRecord)
    : option AnalysisResult :=
  let c := ckpt r in
  is_latest ← or_m (checkpoint_end_lsn c =? NULL_LSN) (lsn_ge lsn (checkpoint_end_lsn c));
  let c := if is_latest : bool then
             {| checkpoint_start_lsn := ce_checkpoint_start_lsn rec; checkpoint_end_lsn := lsn;
                last_checkpoint_id := Some (ce_id rec);
                first_active_lsn := ce_first_active_lsn rec;
                use_root_lsn := if ce_root_lsn rec =? NULL_LSN then use_root_lsn c
                                else ce_root_lsn rec;
                per_db_roots := ce_per_db_roots rec |}
           else c in
  let r := with_ckpt r c in
  let r := with_dirty r (dirty_ins r) (Z.max (max_node_id r) (ce_last_local_node_id rec))
             (Z.max (max_db_id r) (ce_last_local_db_id rec)) in
  Some (with_txns r (with_max_txn (txns r) (Z.max (max_txn_id (txns r)) (ce_last_local_txn_id rec)))
          (txncommit_vlsns r)).

(** The effect of a name record on the catalog; [None] as the transaction is
    an operation outside a transaction. *)
Definition catalog_delete (c : NameCatalog) (n : name) : NameCatalog :=
  {| recovered_db_names := delete n (recovered_db_names c);
     recovered_db_txn_ids := delete n (recovered_db_txn_ids c);
     recovered_db_name_lsns := delete n (recovered_db_name_lsns c);
     recovered_db_comparators := delete n (recovered_db_comparators c);
     recovered_db_fanouts := delete n (recovered_db_fanouts c);
     pending_name_deletes := pending_name_deletes c; catalog_events := catalog_events c |}.

Definition catalog_defer_delete (c : NameCatalog) (n : name) (txn_id : Z) : NameCatalog :=
  {| recovered_db_names := recovered_db_names c;
     recovered_db_txn_ids := recovered_db_txn_ids c;
     recovered_db_name_lsns := recovered_db_name_lsns c;
     recovered_db_comparators := recovered_db_comparators c;
     recovered_db_fanouts := recovered_db_fanouts c;
     pending_name_deletes := <[n := txn_id]> (pending_name_deletes c);
     catalog_events := catalog_events c |}.

Definition catalog_bind (c : NameCatalog) (lsn : Z) (rec : NameLnRecord) : NameCatalog :=
  let n := nl_name rec in
  {| recovered_db_names := <[n := nl_db_id rec]> (recovered_db_names c);
     recovered_db_txn_ids := match nl_txn_id rec with
                             | Some tid => <[n := tid]> (recovered_db_txn_ids c)
                             | None => delete n (recovered_db_txn_ids c)
                             end;
     recovered_db_name_lsns := match nl_txn_id rec with
                               | Some _ => <[n := lsn]> (recovered_db_name_lsns c)
                               | None => delete n (recovered_db_name_lsns c)
                               end;
     recovered_db_comparators :=
       <[n := (nl_btree_comparator_id rec, nl_dup_comparator_id rec)]> (recovered_db_comparators c);
     recovered_db_fanouts := match nl_fanout rec with
                             | Some fanout => <[n := fanout]> (recovered_db_fanouts c)
                             | None => recovered_db_fanouts c
                             end;
     pending_name_deletes := delete n (pending_name_deletes c);
     catalog_events := catalog_events c |}.

Definition catalog_step (c : NameCatalog) (lsn : Z) (rec : NameLnRecord) : NameCatalog :=
  if nl_is_deleted rec then
    match nl_txn_id rec with
    | Some tid => catalog_defer_delete c (nl_name rec) tid
    | None => catalog_delete c (nl_name rec)
    end
  else catalog_bind c lsn rec.

Definition analyze_name (s : AnState) (lsn : Z) (rec : NameLnRecord) : AnState :=
  let r := an_result s in
  let evs := catalog_events (catalog r) in
  let l := default [] (evs !! nl_name rec) in
  let ev := {| ev_lsn := lsn; ev_id := nl_db_id rec; ev_is_deleted := nl_is_deleted rec;
               ev_txn_id := nl_txn_id rec; ev_in_relog_run := false |} in
  let c := with_events (catalog r) (<[nl_name rec := l ++ [ev]]> evs) in
  an_with_relog s (with_catalog r (catalog_step c lsn rec))
    (an_relog_run s ++ [(nl_name rec, length l)]).

Definition summary_of (rec : FileSummaryRecord) : RebuiltFileSummary :=
  {| total_count := fs_total_count rec; total_size := fs_total_size rec;
     total_in_count := fs_total_in_count rec; total_in_size := fs_total_in_size rec;
     total_ln_count := fs_total_ln_count rec; total_ln_size := fs_total_ln_size rec;
     max_ln_size := fs_max_ln_size rec; obsolete_in_count := fs_obsolete_in_count rec;
     obsolete_ln_count := fs_obsolete_ln_count rec; obsolete_ln_size := fs_obsolete_ln_size rec;
     obsolete_ln_size_counted := fs_obsolete_ln_size_counted rec;
     expiration_histogram := fs_expiration_histogram rec |}.

Definition an_with_rollback (s : AnState) (t : RollbackTracker) : AnState :=
  {| an_result := an_result s; an_dirty_in_map := an_dirty_in_map s;
     an_per_db_redo_count := an_per_db_redo_count s; an_rollback := t;
     an_fsln := an_fsln s; an_obsolete_after := an_obsolete_after s;
     an_relog_run := an_relog_run s |}.

Definition an_with_fsln (s : AnState) (m : gmap Z (RebuiltFileSummary * Z)) : AnState :=
  {| an_result := an_result s; an_dirty_in_map := an_dirty_in_map s;
     an_per_db_redo_count := an_per_db_redo_count s; an_rollback := an_rollback s;
     an_fsln := m; an_obsolete_after := an_obsolete_after s; an_relog_run := an_relog_run s |}.

Definition with_root (c : CkptBounds) (root : Z) : CkptBounds :=
  {| checkpoint_start_lsn := checkpoint_start_lsn c; checkpoint_end_lsn := checkpoint_end_lsn c;
     last_checkpoint_id := last_checkpoint_id c; first_active_lsn := first_active_lsn c;
     use_root_lsn := root; per_db_roots := per_db_roots c |}.

(** The callback of the scan. *)
Definition process (s : AnState) (pe : PositionedEntry) : option AnState :=
  let s := relog_step s (pe_entry pe) in
  let r := an_result s in
  let lsn := pe_lsn pe in
  match pe_entry pe with
  | EIn rec => analyze_in s lsn rec
  | ELn rec => Some (analyze_ln s lsn rec)
  | ETxnCommit rec => Some (an_with_result s (analyze_commit r rec))
  | ETxnAbort rec =>
      Some (an_with_result s
              (with_txns r (record_abort (txns r) (ta_txn_id rec)) (txncommit_vlsns r)))
  | ETxnPrepare rec =>
      Some (an_with_result s
              (with_txns r (record_prepare (txns r) (prepared_info rec)) (txncommit_vlsns r)))
  | ECkptEnd rec => r ← analyze_ckpt_end r lsn rec; Some (an_with_result s r)
  | ERollbackStart rec =>
      Some (an_with_rollback s
              (register_rollback_start_with_txns (an_rollback s) (rs_matchpoint_lsn rec)
                 (rs_lsn rec) (rs_active_txn_ids rec)))
  | ERollbackEnd rec =>
      Some (an_with_rollback s
              (register_rollback_end (an_rollback s) (re_matchpoint_lsn rec) (re_lsn rec)))
  | ENameLn rec => Some (analyze_name s lsn rec)
  | EDbTree rec => Some (an_with_result s (with_ckpt r (with_root (ckpt r) (dt_lsn rec))))
  | ECkptStart _ => Some s
  | EFileSummary rec =>
      Some (an_with_fsln s (<[fs_file_number rec := (summary_of rec, lsn)]> (an_fsln s)))
  end.

(** One superseded version: counted when the summary of its file is older. *)
Definition count_uncounted (fsln : gmap Z (RebuiltFileSummary * Z)) (o : Z * Z)
    : option (gmap Z (RebuiltFileSummary * Z)) :=
  let '(old_file, new_lsn) := o in
  match fsln !! old_file with
  | Some (summary, fsln_lsn) =>
      older ← lsn_lt fsln_lsn new_lsn;
      Some (if older : bool then <[old_file := (count_obsolete_ln summary, fsln_lsn)]> fsln else fsln)
  | None => Some fsln
  end.

(** Where the scan of the log starts. *)
Definition scan_start (c : CkptBounds) : Z :=
  if negb (first_active_lsn c =? NULL_LSN) then first_active_lsn c
  else if negb (checkpoint_start_lsn c =? NULL_LSN) then checkpoint_start_lsn c
  else Lsn_new 0 0.

Definition AnState_new (c : CkptBounds) : AnState :=
  {| an_result :=
       {| dirty_ins := ∅; txns := TxnSets_new; max_node_id := 0; max_db_id := 0;
          ckpt := {| checkpoint_start_lsn := checkpoint_start_lsn c;
                     checkpoint_end_lsn := checkpoint_end_lsn c; last_checkpoint_id := None;
                     first_active_lsn := first_active_lsn c; use_root_lsn := use_root_lsn c;
                     per_db_roots := [] |};
          catalog := NameCatalog_new; txncommit_vlsns := []; rebuilt_file_summaries := ∅ |};
     an_dirty_in_map := DirtyINMap_new; an_per_db_redo_count := ∅;
     an_rollback := RollbackTracker_new; an_fsln := ∅; an_obsolete_after := []; an_relog_run := [] |}.

Definition run_analysis `{LogScanner Sc} (s : Sc) (c : CkptBounds) : option AnState :=
  st ← scan_forward_fn s (scan_start c) (find_end_of_log s).2 process (AnState_new c);
  if bool_decide (an_fsln st = ∅) then Some st
  else
    fsln ← fold_m count_uncounted (an_fsln st) (an_obsolete_after st);
    Some (an_with_result st (with_summaries (an_result st) (fst <$> fsln))).

(** ** Settling the catalog *)

(** The creation of the name did not commit. *)
Definition creation_undone (committed : gmap Z Z) (c : NameCatalog) (n : name) : bool :=
  match recovered_db_txn_ids c !! n with
  | None => false
  | Some tid =>
      match committed !! tid, recovered_db_name_lsns c !! n with
      | None, _ => true
      | Some clsn, Some nlsn => clsn <? nlsn
      | Some _, None => false
      end
  end.

Definition drop_names {A : Type} (ns : gset name) (m : gmap name A) : gmap name A :=
  filter (λ p, p.1 ∉ ns) m.

Definition run_mapping_tree_undo_pass (committed : gmap Z Z) (c : NameCatalog) : NameCatalog :=
  let aborted := filter (λ n, creation_undone committed c n) (dom (recovered_db_names c)) in
  let c := {| recovered_db_names := drop_names aborted (recovered_db_names c);
              recovered_db_txn_ids := drop_names aborted (recovered_db_txn_ids c);
              recovered_db_name_lsns := drop_names aborted (recovered_db_name_lsns c);
              recovered_db_comparators := drop_names aborted (recovered_db_comparators c);
              recovered_db_fanouts := recovered_db_fanouts c;
              pending_name_deletes := pending_name_deletes c; catalog_events := catalog_events c |} in
  let deletes := dom (filter (λ p, is_Some (committed !! p.2)) (pending_name_deletes c)) in
  {| recovered_db_names := drop_names deletes (recovered_db_names c);
     recovered_db_txn_ids := drop_names deletes (recovered_db_txn_ids c);
     recovered_db_name_lsns := recovered_db_name_lsns c;
     recovered_db_comparators := drop_names deletes (recovered_db_comparators c);
     recovered_db_fanouts := drop_names deletes (recovered_db_fanouts c);
     pending_name_deletes := ∅; catalog_events := catalog_events c |}.

(** ** The detector of stray relogged names *)

Record CatalogDamage := {
  dmg_name : name;
  dmg_mounted_id : Z;
  dmg_committed_id : option Z;
  dmg_stray_lsn : Z;
  dmg_authority_lsn : Z;
}.

Definition is_legit (committed : gmap Z Z) (ev : CatalogEvent) : bool :=
  match ev_txn_id ev with
  | Some t => bool_decide (is_Some (committed !! t))
  | None => negb (ev_in_relog_run ev)
  end.

(** [ev.lsn >= auth] (or [<]) and a legitimate live binding to the id. *)
Definition binds_to (committed : gmap Z Z) (id : Z) (in_place : option bool) (ev : CatalogEvent)
    : option bool :=
  a ← in_place;
  Some (a && negb (ev_is_deleted ev) && (ev_id ev =? id) && is_legit committed ev).

Definition stray_relog_damage (committed : gmap Z Z) (n : name) (mounted_id : Z)
    (hist : list CatalogEvent) : option (option CatalogDamage) :=
  match last hist with
  | None => Some None
  | Some e_win =>
      if bool_decide (is_Some (ev_txn_id e_win)) || ev_is_deleted e_win ||
         negb (ev_id e_win =? mounted_id) || negb (ev_in_relog_run e_win) then Some None
      else
        match last (filter (is_legit committed) hist) with
        | None => Some None
        | Some e_auth =>
            not_before ← lsn_ge (ev_lsn e_auth) (ev_lsn e_win);
            if not_before : bool then Some None
            else if negb (ev_is_deleted e_auth || negb (ev_id e_auth =? mounted_id)) then Some None
            else
              rebind ← any_m (λ ev, binds_to committed mounted_id
                                      (lsn_ge (ev_lsn ev) (ev_lsn e_auth)) ev) hist;
              if rebind : bool then Some None
              else
                old ← any_m (λ ev, binds_to committed mounted_id
                                     (lsn_lt (ev_lsn ev) (ev_lsn e_auth)) ev) hist;
                Some (if negb old then None
                      else Some {| dmg_name := n; dmg_mounted_id := mounted_id;
                                   dmg_committed_id := if ev_is_deleted e_auth then None
                                                       else Some (ev_id e_auth);
                                   dmg_stray_lsn := ev_lsn e_win;
                                   dmg_authority_lsn := ev_lsn e_auth |})
        end
  end.

Definition detect_step (committed : gmap Z Z) (events : gmap name (list CatalogEvent))
    (acc : list CatalogDamage) (m : name * Z) : option (list CatalogDamage) :=
  match events !! m.1 with
  | None => Some acc
  | Some hist => d ← stray_relog_damage committed m.1 m.2 hist; Some (acc ++ opt_list d)
  end.

(** The names whose binding is not to be trusted, in the order of the map
    rather than sorted by name. *)
Definition detect_xdb711_damage (mounted : gmap name Z) (events : gmap name (list CatalogEvent))
    (committed : gmap Z Z) : option (list CatalogDamage) :=
  fold_m (detect_step committed events) [] (map_to_list mounted).

(** * Theorems *)

(** ** Dirty nodes *)

Section dirty.
Implicit Types m : DirtyINMap.

Definition level_size (p : gmap Z CheckpointReference * gmap Z CheckpointReference) : Z :=
  Z.of_nat (size p.1 + size p.2).

Definition total (lm : gmap Z (gmap Z CheckpointReference * gmap Z CheckpointReference)) : Z :=
  map_fold (λ _ p acc, level_size p + acc) 0 lm.

Lemma total_delete lm lv p : lm !! lv = Some p → total lm = level_size p + total (delete lv lm).
Proof.
  intros Hp. unfold total. rewrite (map_fold_delete_L _ 0 lv p lm); [done| |done].
  intros. lia.
Qed.

Lemma total_insert lm lv p :
  total (<[lv := p]> lm) = level_size p + total (delete lv lm).
Proof. rewrite (total_delete _ lv p) by apply lookup_insert_eq. by rewrite delete_insert_eq. Qed.

(** The place of a reference: its level, its node and whether it is a delta. *)
Definition place : Type := Z * Z * bool.
Definition place_of (r : CheckpointReference) : place := (cr_level r, cr_node_id r, cr_is_delta r).

Definition ref_at m (k : place) : option CheckpointReference :=
  let '(lv, id, delta) := k in
  p ← level_map m !! lv; (if delta : bool then p.2 else p.1) !! id.

Record dirty_wf m : Prop := {
  dw_place k r : ref_at m k = Some r → place_of r = k;
  dw_total : num_entries m = total (level_map m);
}.

Lemma ref_at_add m r k :
  ref_at (add_dirty_in m r) k = if decide (k = place_of r) then Some r else ref_at m k.
Proof.
  destruct k as [[lv id] delta]. unfold ref_at, add_dirty_in, place_of.
  destruct (level_map m !! cr_level r) as [[n d]|] eqn:E; simpl;
    (destruct (decide (lv = cr_level r)) as [->|Hlv];
     [rewrite lookup_insert_eq; simpl|rewrite lookup_insert_ne by done; case_decide; [congruence|done]]);
    rewrite ?E; simpl; destruct delta, (cr_is_delta r); simpl; rewrite ?lookup_insert, ?lookup_empty;
    repeat case_decide; naive_solver.
Qed.

Lemma size_insert_Z {A} (m : gmap Z A) i x :
  Z.of_nat (size (<[i := x]> m)) = Z.of_nat (size m) + match m !! i with None => 1 | Some _ => 0 end.
Proof. rewrite map_size_insert. destruct (m !! i); simpl; lia. Qed.

Lemma add_dirty_in_wf m r : dirty_wf m → dirty_wf (add_dirty_in m r).
Proof.
  intros [Hp Ht]. split.
  - intros k r'. rewrite ref_at_add. case_decide; [by intros [= <-]|apply Hp].
  - unfold add_dirty_in.
    destruct (default (∅, ∅) (level_map m !! cr_level r)) as [n d] eqn:E. simpl.
    rewrite total_insert, Ht.
    assert (total (level_map m) = level_size (n, d) + total (delete (cr_level r) (level_map m))) as ->.
    { destruct (level_map m !! cr_level r) as [p|] eqn:El; simpl in E.
      - subst p. by apply total_delete.
      - injection E as <- <-. by rewrite delete_id. }
    unfold level_size. destruct (cr_is_delta r); simpl; rewrite !Nat2Z.inj_add, size_insert_Z;
      destruct (_ !! cr_node_id r); lia.
Qed.

Lemma min_lsn_spec ls :
  match min_lsn ls with
  | None => ls = []
  | Some x => x ∈ ls ∧ ∀ y, y ∈ ls → x ≤ y
  end.
Proof.
  unfold min_lsn. induction ls as [|y ls IH] using rev_ind; [done|]. rewrite foldl_snoc.
  destruct (foldl _ None ls) as [x|].
  - destruct IH as [Hin Hmin]. split.
    + destruct (Z.min_spec x y) as [[_ ->]|[_ ->]]; apply elem_of_app; [by left|right; left].
    + intros z [Hz| ->%list_elem_of_singleton]%elem_of_app; [specialize (Hmin z Hz)|]; lia.
  - subst ls. split; [left|]. intros z Hz%list_elem_of_singleton. lia.
Qed.

(** The references of a level. *)
Definition level_refs (p : gmap Z CheckpointReference * gmap Z CheckpointReference)
    : list CheckpointReference :=
  (map_to_list p.1).*2 ++ (map_to_list p.2).*2.

Lemma length_level_refs p : Z.of_nat (length (level_refs p)) = level_size p.
Proof.
  unfold level_refs, level_size. rewrite length_app, !length_fmap, !length_map_to_list. done.
Qed.

Lemma elem_of_level_refs m lv p r :
  dirty_wf m → level_map m !! lv = Some p →
  (r ∈ level_refs p ↔ ref_at m (place_of r) = Some r ∧ cr_level r = lv).
Proof.
  intros [Hp _] Hl. unfold level_refs. rewrite elem_of_app, !list_elem_of_fmap.
  assert (∀ id delta, ref_at m (lv, id, delta) = (if delta : bool then p.2 else p.1) !! id) as Hat
    by (intros; unfold ref_at; by rewrite Hl).
  assert (∀ id delta r', (if delta : bool then p.2 else p.1) !! id = Some r' →
            ref_at m (place_of r') = Some r' ∧ cr_level r' = lv) as Hplace.
  { intros id delta r' Hin. rewrite <-Hat in Hin. pose proof (Hp _ _ Hin) as Hk. rewrite Hk.
    split; [done|]. unfold place_of in Hk. by injection Hk. }
  split.
  - intros [([id r'] & -> & Hin%elem_of_map_to_list)|([id r'] & -> & Hin%elem_of_map_to_list)].
    + by apply (Hplace id false).
    + by apply (Hplace id true).
  - intros [Hr <-]. unfold place_of in Hr. rewrite Hat in Hr.
    destruct (cr_is_delta r); [right|left]; exists (cr_node_id r, r); (split; [done|]);
      by apply elem_of_map_to_list.
Qed.

Lemma level_refs_NoDup m lv p : dirty_wf m → level_map m !! lv = Some p → NoDup (level_refs p).
Proof.
  intros [Hp _] Hl.
  assert (∀ id (delta : bool) r, (if delta then p.2 else p.1) !! id = Some r →
            cr_node_id r = id ∧ cr_is_delta r = delta) as Hat.
  { intros id delta r Hr. specialize (Hp (lv, id, delta) r). unfold ref_at in Hp.
    rewrite Hl in Hp. specialize (Hp Hr). unfold place_of in Hp. by injection Hp. }
  assert (∀ delta : bool, NoDup (map_to_list (if delta then p.2 else p.1)).*2) as Hnd.
  { intros delta. apply NoDup_fmap_2_strong; [|apply NoDup_map_to_list].
    intros [i r] [j r'] Hi%elem_of_map_to_list Hj%elem_of_map_to_list. simpl. intros ->.
    destruct (Hat i delta r' Hi) as [Hi' _], (Hat j delta r' Hj) as [Hj' _]. congruence. }
  unfold level_refs. apply NoDup_app. split_and!; [apply (Hnd false)| |apply (Hnd true)].
  intros r ([i r'] & -> & Hi%elem_of_map_to_list)%list_elem_of_fmap
           ([j r''] & Hr & Hj%elem_of_map_to_list)%list_elem_of_fmap. simpl in *. subst r''.
  destruct (Hat i false r' Hi), (Hat j true r' Hj). congruence.
Qed.

Lemma total_nonneg lm : 0 ≤ total lm.
Proof.
  unfold total. apply (map_fold_weak_ind (λ r _, 0 ≤ r)); [lia|]. intros. unfold level_size. lia.
Qed.

Lemma ref_at_delete m lv n st k :
  ref_at {| level_map := delete lv (level_map m); num_entries := n; ckpt_state := st |} k =
  if decide (k.1.1 = lv) then None else ref_at m k.
Proof.
  destruct k as [[lv' id] delta]. unfold ref_at. simpl. rewrite lookup_delete.
  destruct (decide (lv = lv')); case_decide; naive_solver.
Qed.

(** Draining by levels ends and returns every reference once, lowest level first. *)
Lemma drain_levels_spec fuel m :
  dirty_wf m → (size (level_map m) ≤ fuel)%nat →
  ∃ m' out, drain_levels fuel m = Some (m', out) ∧ level_map m' = ∅ ∧ num_entries m' = 0 ∧
    Z.of_nat (length out) = num_entries m ∧ NoDup out ∧
    StronglySorted (λ a b, cr_level a ≤ cr_level b) out ∧
    ∀ r, r ∈ out ↔ ref_at m (place_of r) = Some r.
Proof.
  revert m. induction fuel as [|fuel IH]; intros m Hwf Hs; simpl;
    unfold get_lowest_level; pose proof (min_lsn_spec (map_to_list (level_map m)).*1) as Hmin;
    destruct (min_lsn _) as [lv|].
  2,4: apply fmap_nil_inv, map_to_list_empty_iff in Hmin; exists m, []; split_and!; try done;
    [by rewrite (dw_total _ Hwf), Hmin|by rewrite (dw_total _ Hwf), Hmin|constructor|constructor|];
    intros r; unfold ref_at, place_of; rewrite Hmin, lookup_empty; split; [by intros ?%elem_of_nil|done].
  { destruct Hmin as [([lv' p] & -> & Hin%elem_of_map_to_list)%list_elem_of_fmap _].
    assert (size (level_map m) = 0%nat) as H0 by lia. apply map_size_empty_inv in H0.
    by rewrite H0, lookup_empty in Hin. }
  destruct Hmin as [([lv' p] & -> & Hl%elem_of_map_to_list)%list_elem_of_fmap Hle]. simpl fst in *.
  unfold select_dirty_ins_for_level. rewrite Hl. destruct p as [n d].
  change ((map_to_list n).*2 ++ (map_to_list d).*2) with (level_refs (n, d)).
  rewrite length_level_refs, (dw_total _ Hwf), (total_delete _ _ _ Hl).
  replace (level_size (n, d) + total (delete lv' (level_map m)) - level_size (n, d))
    with (total (delete lv' (level_map m))) by lia.
  pose proof (total_nonneg (delete lv' (level_map m))) as H0.
  rewrite (proj2 (Z.ltb_ge _ _) H0). cbn [mbind option_bind].
  set (m1 := {| level_map := delete lv' (level_map m);
                num_entries := total (delete lv' (level_map m)); ckpt_state := ckpt_state m |}).
  assert (dirty_wf m1) as Hwf1.
  { split; [|done]. intros k r. unfold m1. rewrite ref_at_delete. case_decide; [done|].
    apply (dw_place _ Hwf). }
  destruct (IH m1 Hwf1) as (m' & out & -> & Hm' & Hn' & Hlen & Hnd & Hsort & Hout).
  { simpl. rewrite map_size_delete_Some by done.
    pose proof (map_size_ne_0_lookup_2 (level_map m) lv' ltac:(done)). lia. }
  cbn [mbind option_bind]. exists m', (level_refs (n, d) ++ out). split_and!; try done.
  - rewrite length_app, Nat2Z.inj_add, length_level_refs, Hlen. done.
  - apply NoDup_app. split_and!; [by apply (level_refs_NoDup m lv')| |done].
    intros r Hr%(elem_of_level_refs m lv' (n, d) r Hwf Hl) Hr'%Hout. unfold m1 in Hr'.
    rewrite ref_at_delete in Hr'. case_decide; [done|]. by destruct Hr.
  - assert (∀ r, r ∈ out → lv' ≤ cr_level r) as Hge.
    { intros r Hr%Hout. unfold m1 in Hr. rewrite ref_at_delete in Hr. case_decide; [done|].
      unfold place_of, ref_at in Hr. destruct (level_map m !! cr_level r) as [q|] eqn:Eq; [|done].
      apply Hle. apply list_elem_of_fmap. exists (cr_level r, q). split; [done|].
      by apply elem_of_map_to_list. }
    assert (∀ l, (∀ r, r ∈ l → cr_level r = lv') →
            StronglySorted (λ a b, cr_level a ≤ cr_level b) (l ++ out)) as Happ.
    { induction l as [|r l IHl]; intros Hl1; [done|]. simpl. constructor.
      - apply IHl. intros. apply Hl1. by right.
      - apply Forall_forall. intros x Hx. rewrite (Hl1 r) by left.
        apply elem_of_app in Hx as [Hx|Hx]; [rewrite (Hl1 x) by (by right); lia|by apply Hge]. }
    apply Happ. intros r Hr. by apply (elem_of_level_refs m lv' (n, d) r Hwf Hl) in Hr as [_ ?].
  - intros r. rewrite elem_of_app, (elem_of_level_refs m lv' (n, d) r Hwf Hl), Hout. unfold m1.
    rewrite ref_at_delete. unfold place_of at 3. cbn [fst]. case_decide; naive_solver.
Qed.

(** The map built from a sequence of references. *)
Definition dirty_of (refs : list CheckpointReference) : DirtyINMap :=
  foldl add_dirty_in DirtyINMap_new refs.

Lemma dirty_of_wf refs : dirty_wf (dirty_of refs).
Proof.
  unfold dirty_of. induction refs as [|r refs IH] using rev_ind.
  - split; [|done]. intros [[??] []] r; unfold ref_at; simpl; by rewrite lookup_empty.
  - rewrite foldl_snoc. by apply add_dirty_in_wf.
Qed.

Lemma size_add_dirty_in m r : (size (level_map (add_dirty_in m r)) ≤ S (size (level_map m)))%nat.
Proof.
  unfold add_dirty_in. destruct (default _ _) as [n d]. cbn [level_map]. rewrite map_size_insert.
  destruct (level_map m !! _); unfold id; lia.
Qed.

Lemma size_dirty_of refs : (size (level_map (dirty_of refs)) ≤ length refs)%nat.
Proof.
  unfold dirty_of. induction refs as [|r refs IH] using rev_ind; [done|].
  rewrite foldl_snoc, length_app. cbn [length].
  pose proof (size_add_dirty_in (foldl add_dirty_in DirtyINMap_new refs) r). lia.
Qed.

(** [r] is the last reference of its place. *)
Definition last_of_place (refs : list CheckpointReference) (r : CheckpointReference) : Prop :=
  ∃ l1 l2, refs = l1 ++ r :: l2 ∧ ∀ r', r' ∈ l2 → place_of r' <> place_of r.

Lemma ref_at_dirty_of refs r : ref_at (dirty_of refs) (place_of r) = Some r ↔ last_of_place refs r.
Proof.
  unfold dirty_of, last_of_place. induction refs as [|x refs IH] using rev_ind.
  { unfold ref_at. simpl. rewrite lookup_empty. split; [done|]. by intros ([] & ? & ? & _). }
  rewrite foldl_snoc, ref_at_add. case_decide as Hx.
  - split.
    + intros [= <-]. exists refs, []. split; [done|]. by intros ? ?%elem_of_nil.
    + intros (l1 & l2 & Heq & Hl). destruct l2 as [|y l2 _] using rev_ind.
      * apply app_inj_tail in Heq as [_ ->]. done.
      * rewrite app_comm_cons, app_assoc in Heq. apply app_inj_tail in Heq as [_ ->].
        destruct (Hl y); [apply elem_of_app; right; left|done].
  - rewrite IH. split.
    + intros (l1 & l2 & -> & Hl). exists l1, (l2 ++ [x]). split; [by rewrite <-app_assoc|].
      intros r' [Hr'| ->%list_elem_of_singleton]%elem_of_app; [by apply Hl|by intros ?].
    + intros (l1 & l2 & Heq & Hl). destruct l2 as [|y l2 _] using rev_ind.
      * apply app_inj_tail in Heq as [_ ->]. done.
      * rewrite app_comm_cons, app_assoc in Heq. apply app_inj_tail in Heq as [-> ->].
        exists l1, l2. split; [done|]. intros r' Hr'. apply Hl. apply elem_of_app. by left.
Qed.

(** C16. The drain of the dirty-node map terminates: for any sequence of logged
    nodes the loop over the lowest level never underflows the entry counter,
    empties the map after at most as many rounds as there are references, and
    yields, in the order of their levels, every last reference of its level,
    node and kind exactly once. *)
Theorem dirty_map_drains (refs : list CheckpointReference) :
  ∃ m' out, drain_levels (length refs) (dirty_of refs) = Some (m', out) ∧
    get_lowest_level m' = None ∧ num_entries m' = 0 ∧
    Z.of_nat (length out) = num_entries (dirty_of refs) ∧ NoDup out ∧
    StronglySorted (λ a b, cr_level a ≤ cr_level b) out ∧
    ∀ r, r ∈ out ↔ last_of_place refs r.
Proof.
  destruct (drain_levels_spec (length refs) (dirty_of refs) (dirty_of_wf refs) (size_dirty_of refs))
    as (m' & out & Hd & Hm & Hn & Hlen & Hnd & Hs & Hout).
  exists m', out. split_and!; try done.
  - unfold get_lowest_level. by rewrite Hm.
  - intros r. by rewrite Hout, ref_at_dirty_of.
Qed.
End dirty.

(** ** The scan and the transactions *)

(** The part of [process] that sorts the transactions. *)
Definition txn_step (t : TxnSets) (e : LogEntry) : TxnSets :=
  match e with
  | ELn rec => match ln_txn_id rec with Some id => record_active_txn t id | None => t end
  | ETxnCommit rec => record_commit t (tc_txn_id rec) (tc_lsn rec)
  | ETxnAbort rec => record_abort t (ta_txn_id rec)
  | ETxnPrepare rec => record_prepare t (prepared_info rec)
  | ECkptEnd rec => with_max_txn t (Z.max (max_txn_id t) (ce_last_local_txn_id rec))
  | _ => t
  end.

(** The part of [process] that follows the catalog, without its history. *)
Definition forget_events (c : NameCatalog) : NameCatalog := with_events c ∅.

Definition name_step (c : NameCatalog) (pe : PositionedEntry) : NameCatalog :=
  match pe_entry pe with
  | ENameLn rec => catalog_step c (pe_lsn pe) rec
  | _ => c
  end.

(** The bounds of a checkpoint and of its end records. *)
Definition ckpt_ok (c : CkptBounds) : Prop :=
  bound_ok (checkpoint_start_lsn c) ∧ bound_ok (checkpoint_end_lsn c) ∧
  bound_ok (first_active_lsn c).

Definition entry_ok (e : LogEntry) : Prop :=
  match e with
  | ECkptEnd rec => bound_ok (ce_checkpoint_start_lsn rec) ∧ bound_ok (ce_first_active_lsn rec)
  | _ => True
  end.

(** Every LSN the scan compares is valid. *)
Record an_wf (s : AnState) : Prop := {
  aw_ckpt : ckpt_ok (ckpt (an_result s));
  aw_dirty k x : dirty_ins (an_result s) !! k = Some x → valid_lsn x.2;
  aw_fsln k x : an_fsln s !! k = Some x → valid_lsn x.2;
  aw_obsolete : Forall (λ o, valid_lsn o.2) (an_obsolete_after s);
}.

Lemma relog_step_keeps s e :
  txns (an_result (relog_step s e)) = txns (an_result s) ∧
  forget_events (catalog (an_result (relog_step s e))) = forget_events (catalog (an_result s)) ∧
  (an_wf s → an_wf (relog_step s e)).
Proof. destruct e; (split_and!; [done..|]); intros []; by split. Qed.

Lemma record_dirty_in_total r rec lsn :
  valid_lsn lsn → (∀ k x, dirty_ins r !! k = Some x → valid_lsn x.2) →
  ∃ d node db, record_dirty_in r rec lsn = Some (with_dirty r d node db) ∧
    (∀ k x, d !! k = Some x → valid_lsn x.2).
Proof.
  intros Hl Hd. unfold record_dirty_in.
  set (k0 := (in_db_id rec, in_node_id rec)).
  assert (valid_lsn (default (rec, lsn) (dirty_ins r !! k0)).2) as Hv.
  { destruct (dirty_ins r !! k0) as [x|] eqn:E; [by apply (Hd k0)|done]. }
  unfold lsn_gt. rewrite lsn_lt_valid by done. cbn [mbind option_bind].
  eexists _, _, _. split; [done|]. intros k x [[<- <-]|[_ Hx]]%lookup_insert_Some.
  - by case_match.
  - by apply (Hd k).
Qed.

(** One entry: the scan goes on, and the two parts follow their steps. *)
Lemma process_total s pe :
  an_wf s → valid_lsn (pe_lsn pe) → entry_ok (pe_entry pe) →
  ∃ s', process s pe = Some s' ∧ an_wf s' ∧
    txns (an_result s') = txn_step (txns (an_result s)) (pe_entry pe) ∧
    forget_events (catalog (an_result s')) = name_step (forget_events (catalog (an_result s))) pe.
Proof.
  intros Hwf Hl Hok. unfold process.
  destruct (relog_step_keeps s (pe_entry pe)) as (Ht & Hc & Hw). specialize (Hw Hwf).
  rewrite <-Ht, <-Hc. clear Ht Hc Hwf. revert Hw. generalize (relog_step s (pe_entry pe)).
  clear s. intros s [Hck Hd Hf Ho]. unfold name_step. destruct (pe_entry pe) as [rec|rec|rec|rec|rec|rec|rec|rec|rec|rec|rec|rec].
  - unfold analyze_in. rewrite (in_range_m _ _ _ (checkpoint_start_lsn (ckpt (an_result s)) <=? pe_lsn pe))
      by (try apply Hck; intros; by apply lsn_le_valid). cbn [mbind option_bind].
    case_match; [|by eexists].
    destruct (record_dirty_in_total (an_result s) rec (pe_lsn pe) Hl Hd) as (d & n & db & -> & Hd').
    cbn [mbind option_bind]. eexists. split_and!; [done| |done|done]. by split.
  - eexists. unfold analyze_ln.
    split_and!; [done| |by simpl; destruct (ln_txn_id rec)|by simpl; destruct (ln_txn_id rec)].
    split; cbn [an_result an_fsln an_obsolete_after]; try (by destruct (ln_txn_id rec)).
    case_match; [done|]. apply Forall_app. split; [done|]. by apply List.Forall_cons.
  - by eexists.
  - unfold analyze_ckpt_end. destruct Hck as (Hs & He & Ha).
    rewrite (in_range_m _ _ _ (checkpoint_end_lsn (ckpt (an_result s)) <=? pe_lsn pe))
      by (try apply He; intros; by apply lsn_le_valid). cbn [mbind option_bind].
    eexists. split_and!; [done| |done|done]. split; try done. cbn. case_match; [|done].
    destruct Hok as [Hok1 Hok2]. split_and!; [done|by right|done].
  - by eexists.
  - by eexists.
  - by eexists.
  - by eexists.
  - by eexists.
  - by eexists.
  - eexists. split_and!; [done|by split|done|]. cbn [analyze_name an_result an_with_relog with_catalog catalog].
    unfold catalog_step. destruct (nl_is_deleted rec), (nl_txn_id rec) eqn:E; try done;
    unfold catalog_bind; simpl; by rewrite E.
  - eexists. split_and!; [done| |done|done]. split; try done.
    intros k x. simpl. intros [[_ <-]|[_ Hx]]%lookup_insert_Some; [done|by apply (Hf k)].
Qed.

(** The entries the analysis sees. *)
Definition seen (c : CkptBounds) (log : list PositionedEntry) : list PositionedEntry :=
  filter (λ e, above (scan_start c) (pe_lsn e)) log.

Lemma scan_start_ok c : ckpt_ok c → bound_ok (scan_start c).
Proof.
  intros (Hs & _ & Ha). unfold scan_start.
  destruct (first_active_lsn c =? NULL_LSN), (checkpoint_start_lsn c =? NULL_LSN); simpl; try done.
  right. by vm_compute.
Qed.

Lemma scan_seen `{ScannerOf Sc s log} c :
  ckpt_ok c → scan_forward s (scan_start c) (find_end_of_log s).2 = Some (seen c log).
Proof.
  intros Hc. destruct scanner_next as [Hn Hall]. rewrite scanner_forward by (by try apply scan_start_ok).
  f_equal. unfold seen. apply filter_bool_ext. intros e He.
  rewrite (proj1 (Forall_forall _ _) Hall e He). by rewrite andb_true_r.
Qed.

Lemma count_uncounted_total fsln o :
  (∀ k x, fsln !! k = Some x → valid_lsn x.2) → valid_lsn o.2 →
  ∃ fsln', count_uncounted fsln o = Some fsln' ∧ ∀ k x, fsln' !! k = Some x → valid_lsn x.2.
Proof.
  intros Hf Ho. destruct o as [f l]. simpl in *. destruct (fsln !! f) as [[sm l']|] eqn:E; [|by eauto].
  pose proof (Hf _ _ E) as Hl'. simpl in Hl'. rewrite lsn_lt_valid by done. cbn [mbind option_bind].
  eexists. split; [done|]. case_match; [|done].
  intros k x [[_ <-]|[_ Hx]]%lookup_insert_Some; [done|by apply (Hf k)].
Qed.

Lemma run_analysis_total `{ScannerOf Sc s log} c :
  ckpt_ok c → Forall (λ e, entry_ok (pe_entry e)) log →
  ∃ st, run_analysis s c = Some st ∧
    txns (an_result st) = foldl txn_step TxnSets_new (pe_entry <$> seen c log) ∧
    forget_events (catalog (an_result st)) = foldl name_step NameCatalog_new (seen c log) ∧
    ckpt_ok (ckpt (an_result st)).
Proof.
  intros Hc Hok. unfold run_analysis, scan_forward_fn. rewrite (scan_seen c Hc). cbn [mbind option_bind].
  destruct (fold_m_inv process (λ l st, an_wf st ∧
      txns (an_result st) = foldl txn_step TxnSets_new (pe_entry <$> l) ∧
      forget_events (catalog (an_result st)) = foldl name_step NameCatalog_new l)
      (seen c log) (AnState_new c)) as (st & -> & Hwf & Ht & Hn).
  { split_and!; [|done..]. split; [by apply Hc| | |constructor]; intros k x; simpl; by rewrite lookup_empty. }
  { intros l1 pe l2 st Heq (Hwf & Ht & Hn).
    assert (pe ∈ log) as Hin.
    { assert (pe ∈ seen c log) as Hs by (rewrite Heq; apply elem_of_app; right; left).
      unfold seen in Hs. by apply list_elem_of_filter in Hs as [_ ?]. }
    destruct (process_total st pe Hwf) as (st' & Hp & Hwf' & Ht' & Hn').
    - apply (proj1 (Forall_forall _ _) (proj1 scanner_log) pe Hin).
    - by apply (proj1 (Forall_forall _ _) Hok).
    - exists st'. rewrite fmap_app, !foldl_app. simpl. rewrite <-Ht, <-Hn. done. }
  pose proof (aw_ckpt _ Hwf) as Hck. cbn [mbind option_bind]. case_bool_decide; [by eexists|].
  destruct (fold_m_inv count_uncounted (λ _ m, ∀ k x, m !! k = Some x → valid_lsn x.2)
      (an_obsolete_after st) (an_fsln st) (aw_fsln _ Hwf)) as (m & -> & _).
  { intros l1 o l2 m Heq Hm. apply count_uncounted_total; [done|].
    apply (proj1 (Forall_forall _ _) (aw_obsolete _ Hwf)). rewrite Heq. apply elem_of_app. right; left. }
  by eexists.
Qed.

(** *** What became of a transaction *)

(** The commits of a transaction. *)
Definition commit_of (id : Z) (e : LogEntry) : option Z :=
  match e with
  | ETxnCommit rec => if tc_txn_id rec =? id then Some (tc_lsn rec) else None
  | _ => None
  end.

Definition aborts (id : Z) (e : LogEntry) : bool :=
  match e with ETxnAbort rec => ta_txn_id rec =? id | _ => false end.

(** What a record says of the preparation of a transaction. *)
Definition preparation (id : Z) (e : LogEntry) : option (option PreparedTxnInfo) :=
  match e with
  | ETxnPrepare rec => if tp_txn_id rec =? id then Some (Some (prepared_info rec)) else None
  | ETxnCommit rec => if tc_txn_id rec =? id then Some None else None
  | ETxnAbort rec => if ta_txn_id rec =? id then Some None else None
  | _ => None
  end.

Definition writes_for (id : Z) (e : LogEntry) : bool :=
  match e with ELn rec => bool_decide (ln_txn_id rec = Some id) | _ => false end.

(** The transaction ended. *)
Definition ended (id : Z) (e : LogEntry) : bool :=
  match e with
  | ETxnCommit rec => tc_txn_id rec =? id
  | ETxnAbort rec => ta_txn_id rec =? id
  | _ => false
  end.

(** The transaction wrote before its end, and nothing settled it afterwards. *)
Definition left_open (id : Z) (l : list LogEntry) : Prop :=
  ∃ l1 e l2, l = l1 ++ e :: l2 ∧ writes_for id e = true ∧ existsb (ended id) l1 = false ∧
    existsb (λ e, bool_decide (is_Some (preparation id e))) l2 = false.

(** The transaction ids a record names. *)
Definition ids_of (e : LogEntry) : list Z :=
  match e with
  | ELn rec => opt_list (ln_txn_id rec)
  | ETxnCommit rec => [tc_txn_id rec]
  | ETxnAbort rec => [ta_txn_id rec]
  | ETxnPrepare rec => [tp_txn_id rec]
  | ECkptEnd rec => [ce_last_local_txn_id rec]
  | _ => []
  end.

Abbreviation txns_after l := (foldl txn_step TxnSets_new l).

Lemma last_omap_snoc {A B : Type} (f : A → option B) l x :
  last (omap f (l ++ [x])) = match f x with Some y => Some y | None => last (omap f l) end.
Proof.
  rewrite omap_app. simpl. destruct (f x); [by rewrite last_snoc|by rewrite app_nil_r].
Qed.

Lemma existsb_snoc {A : Type} (f : A → bool) l x : existsb f (l ++ [x]) = existsb f l || f x.
Proof. rewrite existsb_app. simpl. by rewrite orb_false_r. Qed.

(** Writing leaves the other sets alone. *)
Lemma record_active_txn_keeps t id :
  committed_txns (record_active_txn t id) = committed_txns t ∧
  aborted_txns (record_active_txn t id) = aborted_txns t ∧
  prepared_txns (record_active_txn t id) = prepared_txns t.
Proof. unfold record_active_txn. by destruct (_ || _). Qed.

Ltac active_txn_sets :=
  match goal with
  | |- context [record_active_txn ?t ?id] =>
      let H1 := fresh in let H2 := fresh in let H3 := fresh in
      destruct (record_active_txn_keeps t id) as (H1 & H2 & H3); rewrite ?H1, ?H2, ?H3
  end.

Lemma committed_txns_after l id : committed_txns (txns_after l) !! id = last (omap (commit_of id) l).
Proof.
  induction l as [|e l IH] using rev_ind; [done|]. rewrite last_omap_snoc, foldl_snoc, <-IH.
  destruct e as [| rec | | |rec| | | | | | |]; simpl; try done.
  - destruct (ln_txn_id rec) as [i|]; [|done]. by active_txn_sets.
  - rewrite lookup_insert. destruct (Z.eqb_spec (tc_txn_id rec) id); by case_decide.
Qed.

Lemma aborted_txns_after l id : id ∈ aborted_txns (txns_after l) ↔ existsb (aborts id) l = true.
Proof.
  induction l as [|e l IH] using rev_ind; [set_solver|].
  rewrite existsb_snoc, orb_true_iff, foldl_snoc, <-IH.
  destruct e as [| rec | | | |rec| | | | | |]; simpl; try (by split; [left|intros [?|?]]).
  - destruct (ln_txn_id rec) as [i|]; [active_txn_sets|]; by split; [left|intros [?|?]].
  - rewrite elem_of_union, elem_of_singleton, Z.eqb_eq. split; intros [?|?]; auto.
Qed.

Lemma prepared_txns_after l id :
  prepared_txns (txns_after l) !! id = mjoin (last (omap (preparation id) l)).
Proof.
  induction l as [|e l IH] using rev_ind; [done|]. rewrite last_omap_snoc, foldl_snoc.
  destruct e as [| rec | | |rec|rec|rec| | | | |]; simpl; try done.
  - destruct (ln_txn_id rec) as [i|]; [|done]. by active_txn_sets.
  - rewrite lookup_delete. destruct (Z.eqb_spec (tc_txn_id rec) id); by case_decide.
  - rewrite lookup_delete. destruct (Z.eqb_spec (ta_txn_id rec) id); by case_decide.
  - rewrite lookup_insert. destruct (Z.eqb_spec (tp_txn_id rec) id); by case_decide.
Qed.

Lemma ended_after l id :
  existsb (ended id) l =
  bool_decide (is_Some (committed_txns (txns_after l) !! id)) || bool_decide (id ∈ aborted_txns (txns_after l)).
Proof.
  rewrite committed_txns_after.
  rewrite (bool_decide_ext (id ∈ _) (existsb (aborts id) l = true)) by apply aborted_txns_after.
  induction l as [|e l IH] using rev_ind; [done|].
  rewrite !existsb_snoc, last_omap_snoc, IH.
  destruct e as [| | | |rec|rec| | | | | |]; simpl; rewrite ?orb_false_r; try done.
  - destruct (tc_txn_id rec =? id); rewrite ?orb_false_r, ?orb_true_r; [|done]. done.
  - by destruct (ta_txn_id rec =? id); rewrite ?orb_false_r, ?orb_true_r.
Qed.

Lemma active_txns_after l id : id ∈ active_txns (txns_after l) ↔ left_open id l.
Proof.
  induction l as [|e l IH] using rev_ind.
  { split; [set_solver|]. by intros ([] & ? & ? & ? & _). }
  rewrite foldl_snoc.
  assert (left_open id (l ++ [e]) ↔
          (writes_for id e = true ∧ existsb (ended id) l = false) ∨
          (left_open id l ∧ preparation id e = None)) as ->.
  { split.
    - intros (l1 & x & l2 & Heq & Hw & He & Hp). destruct l2 as [|y l2 _] using rev_ind.
      + apply app_inj_tail in Heq as [-> ->]. by left.
      + rewrite app_comm_cons, app_assoc in Heq. apply app_inj_tail in Heq as [-> ->].
        rewrite existsb_snoc in Hp. apply orb_false_iff in Hp as [Hp Hy].
        right. split; [by exists l1, x, l2|]. apply bool_decide_eq_false in Hy.
        by apply eq_None_not_Some.
    - intros [[Hw He]|[(l1 & x & l2 & -> & Hw & He & Hp) Hn]].
      + by exists l, e, [].
      + exists l1, x, (l2 ++ [e]). split_and!; [by rewrite <-app_assoc|done|done|].
        rewrite existsb_snoc, Hp. simpl. apply bool_decide_eq_false. rewrite Hn. by intros []. }
  rewrite <-IH, ended_after.
  destruct e as [| rec | | |rec|rec|rec| | | | |]; simpl;
    try (by split; [right|intros [[? _]|[? _]]]).
  - destruct (ln_txn_id rec) as [i|]; [|by split; [right|intros [[? _]|[? _]]]]. unfold record_active_txn.
    fold (is_committed (txns_after l) id) (is_aborted (txns_after l) id).
    destruct (decide (i = id)) as [->|Hne].
    + destruct (is_committed _ id || is_aborted _ id); simpl; [naive_solver|].
      rewrite elem_of_union, elem_of_singleton. rewrite bool_decide_true by done. naive_solver.
    + rewrite bool_decide_false by congruence.
      destruct (is_committed _ i || is_aborted _ i); simpl; set_solver.
  - rewrite elem_of_difference, elem_of_singleton. destruct (Z.eqb_spec (tc_txn_id rec) id); naive_solver.
  - rewrite elem_of_difference, elem_of_singleton. destruct (Z.eqb_spec (ta_txn_id rec) id); naive_solver.
  - rewrite elem_of_difference, elem_of_singleton. destruct (Z.eqb_spec (tp_txn_id rec) id); naive_solver.
Qed.

(** A committed or aborted transaction is below the greatest identifier. *)
Lemma max_txn_id_after l id :
  (∃ e, e ∈ l ∧ id ∈ ids_of e) → id ≤ max_txn_id (txns_after l).
Proof.
  induction l as [|e l IH] using rev_ind; [by intros (? & ?%elem_of_nil & _)|].
  rewrite foldl_snoc. intros (x & [Hx| ->%list_elem_of_singleton]%elem_of_app & Hid).
  - assert (id ≤ max_txn_id (txns_after l)) as Hle by (apply IH; eauto).
    destruct e as [| rec | | | | | | | | | |]; simpl; try lia.
    destruct (ln_txn_id rec); [|done]. unfold record_active_txn. destruct (_ || _); simpl; lia.
  - destruct e as [|rec| |rec|rec|rec|rec| | | | |]; simpl in *; try (by apply elem_of_nil in Hid);
      try (apply list_elem_of_singleton in Hid; lia).
    destruct (ln_txn_id rec) as [i|]; simpl in Hid; [|by apply elem_of_nil in Hid].
    apply list_elem_of_singleton in Hid as ->. unfold record_active_txn.
    pose proof (ended_after l i) as He. unfold is_committed, is_aborted. rewrite <-He.
    destruct (existsb (ended i) l) eqn:E; simpl; [|lia].
    apply IH. apply existsb_exists in E as (x & Hx%list_elem_of_In & Hi).
    exists x. split; [done|]. destruct x; simpl in *; try done; apply Z.eqb_eq in Hi as <-; left.
Qed.

Lemma writer_is_classified l id :
  existsb (writes_for id) l = true →
  is_committed (txns_after l) id || is_aborted (txns_after l) id || is_prepared (txns_after l) id = true
  ∨ id ∈ active_txns (txns_after l).
Proof.
  intros Hw. rewrite active_txns_after. unfold is_committed, is_aborted. rewrite <-ended_after.
  unfold is_prepared. rewrite prepared_txns_after.
  induction l as [|e l IH] using rev_ind; [done|].
  rewrite existsb_snoc in Hw. rewrite existsb_snoc, last_omap_snoc.
  destruct (existsb (ended id) l) eqn:He; [by left|]. simpl. simpl in IH.
  destruct (writes_for id e) eqn:Hwe.
  { right. by exists l, e, []. }
  rewrite orb_false_r in Hw. destruct (preparation id e) as [p|] eqn:Hp.
  { left. destruct e; simpl in *; try done; case_match; naive_solver. }
  destruct (IH Hw) as [Hl|(l1 & x & l2 & -> & Hx & H1 & H2)].
  - left. rewrite Hl. apply orb_true_r.
  - right. exists l1, x, (l2 ++ [e]). split_and!; [by rewrite <-app_assoc|done|done|].
    rewrite existsb_snoc, H2. simpl. apply bool_decide_eq_false. rewrite Hp. by intros [].
Qed.

(** C12. The analysis of a log never panics, and sorts every transaction it
    meets: a transaction is committed, at the LSN of its last commit, when a
    commit was scanned; aborted when an abort was; prepared when a preparation
    is the last of its prepare, commit and abort records; and active when it
    wrote before its end and nothing settled it after that write.  Every
    transaction that wrote is in one of the four sets, and no identifier in the
    log exceeds the one the counter restarts from. *)
Theorem analysis_classifies_txns `{Sco : ScannerOf Sc s log} (c : CkptBounds)
    (Hc : ckpt_ok c) (Hlog : Forall (λ e, entry_ok (pe_entry e)) log) :
  let l := pe_entry <$> seen c log in
  ∃ st, run_analysis s c = Some st ∧
    let t := txns (an_result st) in
    (∀ id, committed_txns t !! id = last (omap (commit_of id) l)) ∧
    (∀ id, is_aborted t id = existsb (aborts id) l) ∧
    (∀ id, prepared_txns t !! id = mjoin (last (omap (preparation id) l))) ∧
    (∀ id, id ∈ active_txns t ↔ left_open id l) ∧
    (∀ id, existsb (writes_for id) l = true →
       is_committed t id || is_aborted t id || is_prepared t id = true ∨ id ∈ active_txns t) ∧
    (∀ e id, e ∈ l → id ∈ ids_of e → id ≤ max_txn_id t).
Proof.
  intros l. destruct (run_analysis_total c Hc Hlog) as (st & Hrun & Ht & _).
  exists st. split; [done|]. cbv zeta. rewrite Ht. fold l. split_and!.
  - apply committed_txns_after.
  - intros id. unfold is_aborted. rewrite (bool_decide_ext _ _ (aborted_txns_after l id)).
    by destruct (existsb (aborts id) l).
  - apply prepared_txns_after.
  - apply active_txns_after.
  - apply writer_is_classified.
  - intros e id He Hid. apply max_txn_id_after. by exists e.
Qed.

(** A log with a transaction of each kind, after a checkpoint. *)
Definition example_log : list PositionedEntry :=
  let ln t k := ELn (LnRecord_new 1 (Some t) LnInsert [k] (Some [k]) NULL_LSN true) in
  let pe l e := {| pe_lsn := l; pe_entry := e |} in
  [pe 10 (ln 9 60); pe 20 (ln 1 65); pe 30 (ECkptStart {| cs_id := 1; cs_lsn := 30 |});
   pe 40 (ECkptEnd {| ce_id := 1; ce_checkpoint_start_lsn := 30; ce_first_active_lsn := 20;
                      ce_root_lsn := 5; ce_last_local_node_id := 8; ce_last_replicated_node_id := 0;
                      ce_last_local_db_id := 2; ce_last_replicated_db_id := 0;
                      ce_last_local_txn_id := 2; ce_last_replicated_txn_id := 0;
                      ce_per_db_roots := [] |});
   pe 50 (ln 2 66); pe 60 (ETxnCommit {| tc_txn_id := 1; tc_lsn := 60; tc_dtvlsn := None |});
   pe 70 (ETxnAbort {| ta_txn_id := 2; ta_dtvlsn := None |});
   pe 80 (ln 3 67);
   pe 90 (ETxnPrepare {| tp_txn_id := 3; tp_first_lsn := 80; tp_last_lsn := 80;
                         tp_lsn := 90; tp_xid_format_id := 0; tp_xid_gtrid := [1]; tp_xid_bqual := [] |});
   pe 100 (ln 4 68)].

Definition example_ckpt : CkptBounds :=
  {| checkpoint_start_lsn := 30; checkpoint_end_lsn := 40; last_checkpoint_id := Some 1;
     first_active_lsn := 20; use_root_lsn := 5; per_db_roots := [] |}.

Lemma analysis_classifies_txns_witness :
  ∃ st, run_analysis (scanner_of_log example_log) example_ckpt = Some st ∧
    committed_txns (txns (an_result st)) !! 1 = Some 60 ∧ is_aborted (txns (an_result st)) 2 = true ∧
    is_prepared (txns (an_result st)) 3 = true ∧ 4 ∈ active_txns (txns (an_result st)).
Proof.
  destruct (analysis_classifies_txns (Sco := scanner_of_log_ok example_log eq_refl) example_ckpt)
    as (st & Hr & Hc & Ha & Hp & Hact & _).
  - split_and!; right; vm_compute; split; congruence.
  - repeat apply List.Forall_cons; try apply List.Forall_nil; try exact I.
    split; right; vm_compute; split; congruence.
  - exists st. split_and!; [exact Hr|by rewrite Hc|by rewrite Ha| |].
    + unfold is_prepared. by rewrite Hp.
    + apply Hact. exists (take 8 (pe_entry <$> seen example_ckpt example_log)),
        (ELn (LnRecord_new 1 (Some 4) LnInsert [68] (Some [68]) NULL_LSN true)), [].
      split_and!; vm_compute; reflexivity.
Defined.

(** ** The catalog of names *)

Section catalog.
Context (committed : gmap Z Z) (effective : NameLnRecord → bool).
Implicit Types (l : list PositionedEntry) (c : NameCatalog) (n : name).

(** The names as the transactions left them: only what took effect counts. *)
Definition settle (σ : gmap name Z) (pe : PositionedEntry) : gmap name Z :=
  match pe_entry pe with
  | ENameLn rec =>
      if effective rec then
        if nl_is_deleted rec then delete (nl_name rec) σ else <[nl_name rec := nl_db_id rec]> σ
      else σ
  | _ => σ
  end.

Definition settled l : gmap name Z := foldl settle ∅ l.

Definition names_it n (pe : PositionedEntry) : option NameLnRecord :=
  match pe_entry pe with
  | ENameLn rec => if decide (nl_name rec = n) then Some rec else None
  | _ => None
  end.

(** The last record of the name is a deletion that took effect. *)
Definition just_removed l n : bool :=
  match last (omap (names_it n) l) with
  | Some rec => effective rec && nl_is_deleted rec
  | None => false
  end.

(** What a record without effect finds: a creation finds the name free, and a
    deletion does not follow another that took effect. *)
Definition name_record_ok l (rec : NameLnRecord) : Prop :=
  effective rec = false →
  if nl_is_deleted rec then just_removed l (nl_name rec) = false
  else settled l !! nl_name rec = None.

(** The commits known to the analysis decide what took effect. *)
Definition decided (lsn : Z) (rec : NameLnRecord) : Prop :=
  match nl_txn_id rec with
  | None => effective rec = true
  | Some t => if effective rec then ∃ clsn, committed !! t = Some clsn ∧ lsn ≤ clsn
              else committed !! t = None
  end.

Definition delete_committed c n : bool :=
  match pending_name_deletes c !! n with
  | Some t => bool_decide (is_Some (committed !! t))
  | None => false
  end.

Lemma lookup_drop_names {A : Type} (ns : gset name) (m : gmap name A) n :
  drop_names ns m !! n = if decide (n ∈ ns) then None else m !! n.
Proof.
  unfold drop_names. rewrite map_lookup_filter. destruct (m !! n) as [x|]; simpl; [|by case_decide].
  case_decide; case_guard; naive_solver.
Qed.

Lemma undo_pass_lookup c n :
  recovered_db_names (run_mapping_tree_undo_pass committed c) !! n =
  if creation_undone committed c n || delete_committed c n then None else recovered_db_names c !! n.
Proof.
  unfold run_mapping_tree_undo_pass. cbn [recovered_db_names pending_name_deletes].
  rewrite !lookup_drop_names.
  assert (n ∈ dom (filter (λ p : name * Z, is_Some (committed !! p.2)) (pending_name_deletes c)) ↔
          delete_committed c n = true) as Hdel.
  { rewrite elem_of_dom, map_lookup_filter. unfold delete_committed.
    destruct (pending_name_deletes c !! n) as [t|]; simpl; [|by split; [intros []|]].
    rewrite bool_decide_eq_true. case_guard; simpl; [by split|]. split; [by intros []|done]. }
  destruct (delete_committed c n); rewrite ?orb_true_r, ?orb_false_r;
    [by rewrite decide_True by (by apply Hdel)|rewrite decide_False by (by intros ?%Hdel)].
  case_decide as Hu; rewrite elem_of_filter, elem_of_dom in Hu; simpl in Hu;
    destruct (creation_undone committed c n); try done; [by destruct Hu|].
  destruct (recovered_db_names c !! n); [|done]. by destruct Hu; eauto.
Qed.

(** One record keeps the settled names. *)
Lemma name_step_settles l c pe n :
  (∀ rec, pe_entry pe = ENameLn rec → decided (pe_lsn pe) rec ∧ name_record_ok l rec) →
  (∀ n, recovered_db_names (run_mapping_tree_undo_pass committed c) !! n = settled l !! n) →
  (∀ n, delete_committed c n = true → just_removed l n = true) →
  recovered_db_names (run_mapping_tree_undo_pass committed (name_step c pe)) !! n =
    settled (l ++ [pe]) !! n ∧
  (delete_committed (name_step c pe) n = true → just_removed (l ++ [pe]) n = true).
Proof.
  intros Hok Hset Hdel. specialize (Hset n). specialize (Hdel n).
  unfold settled, just_removed. rewrite foldl_snoc, last_omap_snoc. fold (settled l) (just_removed l n).
  unfold name_step, settle, names_it. destruct (pe_entry pe) as [| | | | | | | | | |rec|]; try done.
  destruct (Hok rec eq_refl) as [Hd Hr]. clear Hok.
  destruct (decide (nl_name rec = n)) as [<-|Hne].
  - rewrite undo_pass_lookup in Hset. rewrite undo_pass_lookup.
    unfold decided in Hd. unfold name_record_ok in Hr.
    unfold catalog_step, creation_undone, delete_committed in *.
    destruct (nl_is_deleted rec) eqn:Edel, (nl_txn_id rec) as [t|] eqn:Et, (effective rec) eqn:Eeff;
      try done; unfold catalog_defer_delete, catalog_delete, catalog_bind; rewrite ?Et;
      cbn [recovered_db_names recovered_db_txn_ids recovered_db_name_lsns pending_name_deletes];
      rewrite ?lookup_insert_eq, ?lookup_delete_eq; simpl.
    + destruct Hd as (clsn & -> & _). rewrite bool_decide_true by done. by rewrite orb_true_r.
    + rewrite Hd, bool_decide_false by (by intros []). rewrite orb_false_r. split; [|done].
      rewrite <-Hset. specialize (Hr eq_refl). destruct (pending_name_deletes c !! nl_name rec) as [t'|].
      * destruct (bool_decide _); [specialize (Hdel eq_refl); congruence|by rewrite orb_false_r].
      * by rewrite orb_false_r.
    + split; [|done]. destruct (pending_name_deletes c !! _); [by destruct (bool_decide _)|done].
    + destruct Hd as (clsn & -> & Hle). split; [|done].
      assert ((clsn <? pe_lsn pe) = false) as -> by (apply Z.ltb_ge; lia). done.
    + rewrite Hd. split; [|done]. simpl. by rewrite (Hr eq_refl).
    + done.
  - rewrite undo_pass_lookup in Hset. rewrite undo_pass_lookup.
    assert ((if effective rec then if nl_is_deleted rec then delete (nl_name rec) (settled l)
             else <[nl_name rec := nl_db_id rec]> (settled l) else settled l) !! n = settled l !! n) as ->.
    { destruct (effective rec), (nl_is_deleted rec);
        rewrite ?lookup_delete_ne, ?lookup_insert_ne by done; done. }
    unfold catalog_step, creation_undone, delete_committed in *.
    destruct (nl_is_deleted rec), (nl_txn_id rec) as [t|] eqn:Et;
      unfold catalog_defer_delete, catalog_delete, catalog_bind; rewrite ?Et;
      cbn [recovered_db_names recovered_db_txn_ids recovered_db_name_lsns pending_name_deletes];
      rewrite ?lookup_insert_ne, ?lookup_delete_ne by done; by split.
Qed.

Lemma names_settle l :
  (∀ l1 pe l2 rec, l = l1 ++ pe :: l2 → pe_entry pe = ENameLn rec →
     decided (pe_lsn pe) rec ∧ name_record_ok l1 rec) →
  recovered_db_names (run_mapping_tree_undo_pass committed (foldl name_step NameCatalog_new l)) = settled l.
Proof.
  intros Hok. apply map_eq.
  cut (∀ n, recovered_db_names (run_mapping_tree_undo_pass committed (foldl name_step NameCatalog_new l)) !! n
              = settled l !! n ∧
            (delete_committed (foldl name_step NameCatalog_new l) n = true → just_removed l n = true)).
  { intros H n. by apply H. }
  induction l as [|pe l IH] using rev_ind; intros n; [by rewrite undo_pass_lookup|].
  rewrite foldl_snoc. apply name_step_settles.
  - intros rec. by apply (Hok l pe []).
  - intros n'. apply IH. intros l1 pe' l2 rec ->. apply (Hok l1 pe' (l2 ++ [pe])). by rewrite <-app_assoc.
  - intros n'. apply IH. intros l1 pe' l2 rec ->. apply (Hok l1 pe' (l2 ++ [pe])). by rewrite <-app_assoc.
Qed.
End catalog.

(** The transaction of a name record commits in the log; outside a
    transaction a record takes effect at once. *)
Definition name_commits (l : list PositionedEntry) (rec : NameLnRecord) : bool :=
  match nl_txn_id rec with
  | None => true
  | Some t => bool_decide (is_Some (last (omap (commit_of t) (pe_entry <$> l))))
  end.

(** A log whose transactions are used once: a name record does not follow the
    commit of its transaction, and a commit record knows its own LSN. *)
Record names_ok (l : list PositionedEntry) : Prop := {
  no_late_names l1 pe l2 rec t : l = l1 ++ pe :: l2 → pe_entry pe = ENameLn rec →
    nl_txn_id rec = Some t → omap (commit_of t) (pe_entry <$> l1) = [];
  commits_at pe rec : pe ∈ l → pe_entry pe = ETxnCommit rec → tc_lsn rec = pe_lsn pe;
  names_guarded l1 pe l2 rec : l = l1 ++ pe :: l2 → pe_entry pe = ENameLn rec →
    name_record_ok (name_commits l) l1 rec;
}.

(** A name record is decided by the commits of the log. *)
Lemma names_decided l l1 pe l2 rec :
  log_wf l → names_ok l → l = l1 ++ pe :: l2 → pe_entry pe = ENameLn rec →
  decided (committed_txns (txns_after (pe_entry <$> l))) (name_commits l) (pe_lsn pe) rec.
Proof.
  intros Hwf Hok Heq Hpe. unfold decided, name_commits.
  destruct (nl_txn_id rec) as [t|] eqn:Et; [|done]. rewrite committed_txns_after.
  case_bool_decide as Hs; [|by apply eq_None_not_Some].
  destruct Hs as [clsn Hc]. exists clsn. split; [done|].
  pose proof (no_late_names l Hok l1 pe l2 rec t Heq Hpe Et) as Hl1.
  apply last_Some_elem_of, list_elem_of_omap in Hc as (e & He & Hc).
  apply list_elem_of_fmap in He as (pe' & -> & Hin).
  destruct (pe_entry pe') as [| | | |crec| | | | | | |] eqn:Epe'; try done. simpl in Hc.
  destruct (Z.eqb_spec (tc_txn_id crec) t) as [Ht|]; [|done]. injection Hc as <-.
  rewrite (commits_at l Hok pe' crec Hin Epe'). subst l.
  apply elem_of_app in Hin as [Hin|[->|Hin]%elem_of_cons]; [|lia|].
  - assert (tc_lsn crec ∈ omap (commit_of t) (pe_entry <$> l1)) as Habs.
    { apply list_elem_of_omap. exists (pe_entry pe'). split; [by apply list_elem_of_fmap_2|].
      rewrite Epe'. simpl. by rewrite Ht, Z.eqb_refl. }
    rewrite Hl1 in Habs. by apply elem_of_nil in Habs.
  - rewrite cons_middle, app_assoc in Hwf. destruct (log_wf_app _ _ Hwf) as (_ & _ & H12).
    apply Z.lt_le_incl, H12; [apply elem_of_app; right; left|done].
Qed.

(** The pass reads no history. *)
Lemma undo_pass_forgets committed c :
  recovered_db_names (run_mapping_tree_undo_pass committed (forget_events c)) =
  recovered_db_names (run_mapping_tree_undo_pass committed c).
Proof. done. Qed.



(** Every split of a concrete list. *)
Lemma splits_forall {A : Type} (P : list A → A → Prop) l :
  Forall (λ i, match l !! i with Some x => P (take i l) x | None => True end) (seq 0 (length l)) →
  ∀ l1 x l2, l = l1 ++ x :: l2 → P l1 x.
Proof.
  intros H l1 x l2 ->. rewrite Forall_seq in H. specialize (H (length l1)).
  rewrite list_lookup_middle, take_app_length in H by done. apply H.
  rewrite length_app. simpl. lia.
Qed.

(** [a] is created by a committed transaction and [b] by an aborted one; the
    deletion of [a] is left open, that of [c] commits. *)
Definition example_names : list PositionedEntry :=
  let nm n id del t := ENameLn {| nl_name := n; nl_db_id := id; nl_is_deleted := del; nl_txn_id := t;
                                  nl_btree_comparator_id := None; nl_dup_comparator_id := None;
                                  nl_fanout := None |} in
  let commit t l := ETxnCommit {| tc_txn_id := t; tc_lsn := l; tc_dtvlsn := None |} in
  let pe l e := {| pe_lsn := l; pe_entry := e |} in
  [pe 10 (nm [97] 1 false (Some 1)); pe 20 (commit 1 20); pe 30 (nm [98] 2 false (Some 2));
   pe 40 (ETxnAbort {| ta_txn_id := 2; ta_dtvlsn := None |}); pe 50 (nm [97] 1 true (Some 3));
   pe 60 (nm [99] 3 false None); pe 70 (nm [99] 3 true (Some 4)); pe 80 (commit 4 80)].

Definition no_ckpt : CkptBounds :=
  {| checkpoint_start_lsn := NULL_LSN; checkpoint_end_lsn := NULL_LSN; last_checkpoint_id := None;
     first_active_lsn := NULL_LSN; use_root_lsn := NULL_LSN; per_db_roots := [] |}.


(** A transaction identifier that a later session uses again: the create of a
    name is decided by the LSN of the commit, its deletion is not, and a
    deletion that never committed is applied because an earlier transaction
    with the same identifier did. *)
Definition example_reused_id : list PositionedEntry :=
  let nm n id del t := ENameLn {| nl_name := n; nl_db_id := id; nl_is_deleted := del; nl_txn_id := t;
                                  nl_btree_comparator_id := None; nl_dup_comparator_id := None;
                                  nl_fanout := None |} in
  let pe l e := {| pe_lsn := l; pe_entry := e |} in
  [pe 10 (nm [97] 1 false None);
   pe 20 (ETxnCommit {| tc_txn_id := 1; tc_lsn := 20; tc_dtvlsn := None |});
   pe 30 (nm [97] 1 true (Some 1)); pe 40 (nm [98] 2 false (Some 1))].

Definition recovered_names (log : list PositionedEntry) : option (gmap name Z) :=
  st ← run_analysis (scanner_of_log log) no_ckpt;
  Some (recovered_db_names
          (run_mapping_tree_undo_pass (committed_txns (txns (an_result st))) (catalog (an_result st)))).

Lemma reused_id_applies_open_delete : map_to_list <$> recovered_names example_reused_id = Some [].
Proof. vm_compute. reflexivity. Qed.
