(* ===== verification/Tree.v ===== *)
(** * The tree (noxu-tree, [Tree] of [tree.rs])

    Descent from the root, insertion with preemptive splits, the redo variant
    of insertion, deletion, delete marks and lookups over several levels, with
    children that are fetched from the log when they are not in memory.

    A [ChildArc] is a node behind its latch; a single thread runs, so the
    functions return the changed node where the code changes it in place, and
    [set_child] puts a changed child back into its slot.  The counter of
    [generate_node_id] is threaded through.  Not modelled: memory accounting,
    the evictor's list of nodes, the weak parent pointers, and the environment
    flag that a failed fetch raises.

    [None] is a panic or the end of the fuel; an [Err] is an error the code
    returns. *)

From S2P Require Import Prelude Bytes Packed Lsn Keys LsnRep TargetRep InNode Bin BinMap NodeImage BinLog.

#[local] Unset Elimination Schemes.
Inductive ChildArc := Arc (n : TreeNode ChildArc).
#[local] Set Elimination Schemes.

Abbreviation Node := (TreeNode ChildArc).

Inductive TreeError :=
| NodeNotEmpty
| CursorsExist
| SplitRequired
| KeyNotFound
| InvalidLevel (level : Z)
| Io (message : list Z)
| LogError (message : list Z).

Inductive SplitHint := Normal | AllLeft | AllRight.

Record Tree := {
  database_id : Z;
  max_entries_per_node : nat;
  root : option ChildArc;
  root_log_lsn : Z;
  root_splits : Z;
  key_comparator : option (key → key → comparison);
  is_locked_hook : option (Z → bool);
  log_manager : option log;
  tree_key_prefixing : bool;
  tree_compact_max_key_length : Z;
  tree_expiration_enabled : bool;
  tree_max_embedded_ln : Z;
  next_node_id : Z;
}.

Definition with_root (t : Tree) (r : option ChildArc) (root_lsn splits nid : Z) : Tree :=
  {| database_id := database_id t; max_entries_per_node := max_entries_per_node t; root := r;
     root_log_lsn := root_lsn; root_splits := splits; key_comparator := key_comparator t;
     is_locked_hook := is_locked_hook t; log_manager := log_manager t;
     tree_key_prefixing := tree_key_prefixing t;
     tree_compact_max_key_length := tree_compact_max_key_length t;
     tree_expiration_enabled := tree_expiration_enabled t;
     tree_max_embedded_ln := tree_max_embedded_ln t; next_node_id := nid |}.

Definition set_root (t : Tree) (r : ChildArc) (nid : Z) : Tree :=
  with_root t (Some r) (root_log_lsn t) (root_splits t) nid.

Definition Tree_new (db_id : Z) (max_entries : nat) : Tree :=
  {| database_id := db_id; max_entries_per_node := max_entries; root := None;
     root_log_lsn := NULL_LSN; root_splits := 0; key_comparator := None; is_locked_hook := None;
     log_manager := None; tree_key_prefixing := false; tree_compact_max_key_length := 16;
     tree_expiration_enabled := true; tree_max_embedded_ln := 16; next_node_id := 1 |}.


Definition is_bin (n : Node) : bool := match n with Bottom _ => true | Internal _ => false end.

Definition get_n_entries (n : Node) : nat :=
  match n with Internal n => length (entries n) | Bottom b => length (bin_entries b) end.

Definition node_level (n : Node) : Z :=
  match n with Internal n => level n | Bottom b => bin_level b end.

(** ** Routing *)

(** [key_cmp], and the [match key_comparator] of the static functions. *)
Definition key_cmp (t : Tree) : key → key → comparison := order_of (key_comparator t).

(** The loop over the entries: the last one that is not greater, slot 0 always
    qualifying. *)
Fixpoint route_loop (cmp : key → key → comparison) (k : key) (i idx : nat) (es : list key) : nat :=
  match es with
  | [] => idx
  | e :: es =>
      match cmp e k with
      | Gt => idx
      | _ => route_loop cmp k (S i) i es
      end
  end.

Definition route (cmp : key → key → comparison) (k : key) (es : list key) : nat :=
  match es with [] => 0%nat | _ :: es => route_loop cmp k 1 0 es end.

(** [slice::partition_point], a binary search. *)
Fixpoint slice_partition {A} (p : A → bool) (v : list A) (fuel lo hi : nat) : option nat :=
  if (lo <? hi)%nat then
    match fuel with
    | O => None
    | S fuel =>
        let mid := (lo + (hi - lo) / 2)%nat in
        x ← v !! mid;
        if p x then slice_partition p v fuel (S mid) hi else slice_partition p v fuel lo mid
    end
  else Some lo.

Definition partition_point {A} (p : A → bool) (v : list A) : option nat :=
  slice_partition p v (length v) 0 (length v).

Definition not_greater (cmp : key → key → comparison) (k e : key) : bool :=
  match cmp e k with Gt => false | _ => true end.

Definition upper_in_floor_index (t : Tree) (es : list key) (k : key) : option nat :=
  if (length es <=? 1)%nat then Some 0%nat
  else partition_point (not_greater (key_cmp t) k) (drop 1 es).

(** ** Fetching nodes *)

Definition tree_fetch_node (t : Tree) (log_lsn : Z) : option (option Node) :=
  match log_manager t with
  | None => Some None
  | Some lg => fetch_node_from_log (key_comparator t) (tree_key_prefixing t) lg log_lsn
  end.

Definition fetch_root_from_log (t : Tree) : option (Tree * option ChildArc) :=
  match root t with
  | Some r => Some (t, Some r)
  | None =>
      node ← tree_fetch_node t (root_log_lsn t);
      match node with
      | Some n => Some (set_root t (Arc n) (next_node_id t), Some (Arc n))
      | None => Some (t, None)
      end
  end.

Definition get_root (t : Tree) : option (Tree * option ChildArc) := fetch_root_from_log t.

(** The child of a slot, read from the log and installed when it is not in
    memory. *)
Definition child_at_or_fetch (t : Tree) (parent : Node) (idx : nat)
    : option (Node * option ChildArc) :=
  match parent with
  | Bottom _ => Some (parent, None)
  | Internal n =>
      match get_child n idx with
      | Some c => Some (parent, Some c)
      | None =>
          if (length (entries n) <=? idx)%nat then Some (parent, None)
          else
            child_lsn ← get_lsn n idx;
            node ← tree_fetch_node t child_lsn;
            match node with
            | None => Some (parent, None)
            | Some nd =>
                n ← set_child n idx (Some (Arc nd));
                Some (Internal n, Some (Arc nd))
            end
      end
  end.

(** ** Splits *)

Inductive SplitEntries :=
| SInternal (es : list key) (cs : list (option ChildArc)) (ls : list Z)
| SBottom (es : list BinEntry) (ls : list Z) (ks : list key).

Definition se_len (s : SplitEntries) : nat :=
  match s with SInternal es _ _ => length es | SBottom es _ _ => length es end.

Definition se_get_key (s : SplitEntries) (i : nat) : option key :=
  match s with SInternal es _ _ => es !! i | SBottom _ _ ks => ks !! i end.

(** [v[lo..hi].to_vec()]. *)
Definition subvec {A} (lo hi : nat) (v : list A) : option (list A) :=
  if (lo <=? hi)%nat && (hi <=? length v)%nat then Some (drop lo (take hi v)) else None.

Definition se_slice (s : SplitEntries) (lo hi : nat) : option SplitEntries :=
  match s with
  | SInternal v c l =>
      v ← subvec lo hi v; c ← subvec lo hi c; l ← subvec lo hi l; Some (SInternal v c l)
  | SBottom v l k =>
      v ← subvec lo hi v; l ← subvec lo hi l; k ← subvec lo hi k; Some (SBottom v l k)
  end.

(** All entries of the node, with full keys for a BIN. *)
Definition gather (n : Node) : option SplitEntries :=
  match n with
  | Internal n =>
      ls ← mapM (get_lsn n) (seq 0 (length (entries n)));
      Some (SInternal (entries n) (get_child n <$> seq 0 (length (entries n))) ls)
  | Bottom b =>
      ls ← mapM (bin_get_lsn b) (seq 0 (length (bin_entries b)));
      Some (SBottom (bin_entries b) ls
              ((λ i, default [] (get_full_key b i)) <$> seq 0 (length (bin_entries b))))
  end.

(** The loop that places the key to insert, and the split point. *)
Definition split_index (cmp : key → key → comparison) (hint : SplitHint) (insert_key : key)
    (ks : list key) : nat :=
  let n := length ks in
  if (2 <=? n)%nat then
    let insert_idx := route cmp insert_key ks in
    match hint with
    | AllLeft => if (insert_idx =? 0)%nat then 1%nat else (n / 2)%nat
    | AllRight => if (insert_idx =? n - 1)%nat then (n - 1)%nat else (n / 2)%nat
    | Normal => (n / 2)%nat
    end
  else (n / 2)%nat.

Definition se_keys (s : SplitEntries) : list key :=
  match s with SInternal es _ _ => es | SBottom _ _ ks => ks end.

(** Installing the children of a half, slot by slot. *)
Fixpoint install_children (n : InNodeStub ChildArc) (i : nat) (cs : list (option ChildArc))
    : option (InNodeStub ChildArc) :=
  match cs with
  | [] => Some n
  | c :: cs =>
      n ← match c with Some _ => set_child n i c | None => Some n end;
      install_children n (S i) cs
  end.

Definition set_in_dirty (n : InNodeStub ChildArc) (d : bool) : InNodeStub ChildArc :=
  {| node_id := node_id n; level := level n; entries := entries n; targets := targets n;
     in_dirty := d; generation := generation n; lsns := lsns n; last_full_lsn := last_full_lsn n |}.

(** The prefix of a new half: computed when the tree compresses prefixes. *)
Definition settle_half (prefixing : bool) (max_len : Z) (b : BinStub) : option BinStub :=
  if prefixing && (2 <=? length (bin_entries b))%nat then recompute_key_prefix b
  else ks ← KeyRep_compact (bin_keys b) max_len; Some (with_keys b ks).

(** The left half stays in the child. *)
Definition install_left (prefixing : bool) (child : Node) (left : SplitEntries)
    : option (result Node TreeError) :=
  match child, left with
  | Internal n, SInternal es cs ls =>
      l ← from_lsns ls;
      n ← install_children (InNode.with_slots n es TNone (lsns n)) 0 cs;
      Some (Ok (Internal (set_in_dirty (InNode.with_slots n (entries n) (targets n) l) true)))
  | Bottom b, SBottom es ls ks =>
      l ← from_lsns ls;
      b ← settle_half prefixing (compact_max_key_length b)
            (Bin.with_slots b [] es (from_keys ks) l);
      Some (Ok (Bottom (with_state b true (bin_last_full_lsn b) (last_delta_lsn b) true)))
  | _, _ => Some (Err SplitRequired)
  end.

(** The right half becomes a new sibling with the settings of the child. *)
Definition inherited_max_len (child : Node) : Z :=
  match child with Bottom b => compact_max_key_length b | Internal _ => 16 end.

Definition sibling_bin (nid : Z) (child : Node) (es : list BinEntry) (ks : list key) (l : LsnRep)
    : BinStub :=
  {| bin_node_id := nid; bin_level := node_level child; bin_entries := es; key_prefix := [];
     bin_dirty := true; is_delta := false; bin_last_full_lsn := NULL_LSN;
     last_delta_lsn := NULL_LSN; bin_generation := 0;
     expiration_in_hours := match child with Bottom b => expiration_in_hours b | Internal _ => true end;
     cursor_count := 0; prohibit_next_delta := false; bin_lsns := l; bin_keys := from_keys ks;
     compact_max_key_length := inherited_max_len child;
     expiration_enabled := match child with Bottom b => expiration_enabled b | Internal _ => true end;
     max_embedded_ln := match child with Bottom b => max_embedded_ln b | Internal _ => 16 end;
     key_prefixing := match child with Bottom b => key_prefixing b | Internal _ => false end |}.

Definition sibling_in (nid : Z) (child : Node) (es : list key) (l : LsnRep) : InNodeStub ChildArc :=
  {| node_id := nid; level := node_level child; entries := es; targets := TNone;
     in_dirty := true; generation := 0; lsns := l; last_full_lsn := NULL_LSN |}.

Definition new_sibling (prefixing : bool) (nid : Z) (child : Node) (right : SplitEntries)
    : option Node :=
  match right with
  | SInternal es cs ls =>
      l ← from_lsns ls;
      n ← install_children (sibling_in nid child es l) 0 cs;
      Some (Internal n)
  | SBottom es ls ks =>
      l ← from_lsns ls;
      b ← settle_half prefixing (inherited_max_len child) (sibling_bin nid child es ks l);
      Some (Bottom b)
  end.

(** Splits the child of [parent] that covers [insert_key]. *)
Definition split_child (t : Tree) (nid : Z) (parent : Node) (child_index : nat) (hint : SplitHint)
    (insert_key : key) : option (Z * Node * result unit TreeError) :=
  match parent with
  | Bottom _ => Some (nid, parent, Err SplitRequired)
  | Internal p =>
      child_index ← (if bool_decide (insert_key = []) then Some child_index
                     else match entries p with
                          | [] => None
                          | _ :: es => partition_point (not_greater (key_cmp t) insert_key) es
                          end);
      match get_child p child_index with
      | None => Some (nid, parent, Err SplitRequired)
      | Some (Arc child) =>
          if (get_n_entries child <? max_entries_per_node t)%nat then Some (nid, parent, Ok ())
          else
            all_entries ← gather child;
            let n := se_len all_entries in
            let split := split_index (key_cmp t) hint insert_key (se_keys all_entries) in
            new_id_key ← se_get_key all_entries split;
            left ← se_slice all_entries 0 split;
            right ← se_slice all_entries split n;
            child' ← install_left (tree_key_prefixing t) child left;
            match child' with
            | Err e => Some (nid, parent, Err e)
            | Ok child' =>
                sibling ← new_sibling (tree_key_prefixing t) nid child right;
                p ← set_child p child_index (Some (Arc child'));
                p ← insert_entry p (S child_index) new_id_key NULL_LSN (Some (Arc sibling));
                Some (nid + 1, Internal (set_in_dirty p true), Ok ())
            end
      end
  end.

(** A node with the single slot 0. *)
Definition one_child (nid lvl lsn : Z) (c : ChildArc) : option (InNodeStub ChildArc) :=
  l ← from_lsns [lsn];
  Some {| node_id := nid; level := lvl; entries := [[]]; targets := TSparse [(0%nat, c)];
          in_dirty := true; generation := 0; lsns := l; last_full_lsn := NULL_LSN |}.

Definition split_root_if_needed (t : Tree) (lsn : Z) : option (Tree * result unit TreeError) :=
  match root t with
  | None => Some (t, Ok ())
  | Some (Arc old_root) =>
      if (get_n_entries old_root <? max_entries_per_node t)%nat then Some (t, Ok ())
      else
        let nid := next_node_id t in
        new_root ← one_child nid (node_level old_root + 1) lsn (Arc old_root);
        '(nid, new_root, r) ← split_child t (nid + 1) (Internal new_root) 0 Normal [];
        match r with
        | Ok _ => Some (with_root t (Some (Arc new_root)) (root_log_lsn t) (root_splits t + 1) nid, Ok ())
        | Err e => Some (set_root t (Arc new_root) nid, Err e)
        end
  end.

(** ** Insertion *)

(** The level-2 root over one BIN with one record. *)
Definition first_key (t : Tree) (k : key) (d : option (list Z)) (lsn : Z) : option Tree :=
  let bin_node_id := next_node_id t in
  let root_node_id := next_node_id t + 1 in
  l ← from_lsns [lsn];
  let bin :=
    {| bin_node_id := bin_node_id; bin_level := BIN_LEVEL;
       bin_entries := [{| data := d; known_deleted := false; pending_deleted := false;
                          e_dirty := false; expiration_time := 0 |}];
       key_prefix := []; bin_dirty := true; is_delta := false; bin_last_full_lsn := NULL_LSN;
       last_delta_lsn := NULL_LSN; bin_generation := 0; expiration_in_hours := true;
       cursor_count := 0; prohibit_next_delta := false; bin_lsns := l; bin_keys := from_keys [k];
       compact_max_key_length := tree_compact_max_key_length t;
       expiration_enabled := tree_expiration_enabled t; max_embedded_ln := tree_max_embedded_ln t;
       key_prefixing := tree_key_prefixing t |} in
  n ← one_child root_node_id (Z.lor MAIN_LEVEL 2) lsn (Arc (Bottom bin));
  Some (set_root t (Arc (Internal n)) (next_node_id t + 2)).

(** [tree.drain_known_deleted_for_split]: nothing to drain in an upper node. *)
Definition drain_node (t : Tree) (n : Node) : option (Node * bool) :=
  match n with
  | Internal _ => Some (n, false)
  | Bottom b =>
      '(b, drained) ← drain_known_deleted_for_split (tree_key_prefixing t) (is_locked_hook t) b;
      Some (Bottom b, drained)
  end.

Definition hint_of (all_left all_right : bool) : SplitHint :=
  if all_left then AllLeft else if all_right then AllRight else Normal.

(** The descent: a non-resident child is fetched, a full child is drained or
    else split, and each time the node is entered again. *)
Fixpoint insert_recursive_inner (fuel : nat) (t : Tree) (nid : Z) (node : Node) (k : key)
    (d : list Z) (lsn : Z) (all_left_so_far all_right_so_far : bool)
    : option (Z * Node * result bool TreeError) :=
  match fuel with
  | O => None
  | S fuel =>
      match node with
      | Bottom b =>
          '(b, is_new) ← insert_in_bin (key_comparator t) (tree_key_prefixing t) b k lsn d;
          Some (nid, Bottom b, Ok is_new)
      | Internal n =>
          let idx := route (key_cmp t) k (entries n) in
          match get_child n idx with
          | None =>
              '(node, c) ← child_at_or_fetch t node idx;
              match c with
              | None => Some (nid, node, Err SplitRequired)
              | Some _ =>
                  insert_recursive_inner fuel t nid node k d lsn all_left_so_far all_right_so_far
              end
          | Some (Arc child) =>
              let all_left := all_left_so_far && (idx =? 0)%nat in
              let all_right := all_right_so_far && (idx =? length (entries n) - 1)%nat in
              if (max_entries_per_node t <=? get_n_entries child)%nat then
                '(child, drained) ← drain_node t child;
                n ← set_child n idx (Some (Arc child));
                if drained : bool then
                  insert_recursive_inner fuel t nid (Internal n) k d lsn
                    all_left_so_far all_right_so_far
                else
                  '(nid, node, r) ← split_child t nid (Internal n) idx (hint_of all_left all_right) k;
                  match r with
                  | Err e => Some (nid, node, Err e)
                  | Ok _ =>
                      insert_recursive_inner fuel t nid node k d lsn
                        all_left_so_far all_right_so_far
                  end
              else
                '(nid, child, r) ←
                  insert_recursive_inner fuel t nid child k d lsn all_left all_right;
                n ← set_child n idx (Some (Arc child));
                Some (nid, Internal n, r)
          end
      end
  end.

Definition insert_recursive (fuel : nat) (t : Tree) (nid : Z) (node : Node) (k : key) (d : list Z)
    (lsn : Z) : option (Z * Node * result bool TreeError) :=
  insert_recursive_inner fuel t nid node k d lsn true true.

(** The root after its split check; [get_root().unwrap()]. *)
Definition resident_root (t : Tree) : option Node :=
  match root t with Some (Arc n) => Some n | None => None end.

Definition insert (fuel : nat) (t : Tree) (k : key) (d : list Z) (lsn : Z)
    : option (Tree * result bool TreeError) :=
  match root t with
  | None => t ← first_key t k (Some d) lsn; Some (t, Ok true)
  | Some _ =>
      '(t, r) ← split_root_if_needed t lsn;
      match r with
      | Err e => Some (t, Err e)
      | Ok _ =>
          n ← resident_root t;
          '(nid, n, r) ← insert_recursive fuel t (next_node_id t) n k d lsn;
          Some (set_root t (Arc n) nid, r)
      end
  end.

(** ** Redo *)

(** The BIN part: an equal or newer version stays. *)
Definition redo_insert_in_bin (t : Tree) (b : BinStub) (k : key) (d : option (list Z)) (lsn : Z)
    : option (BinStub * bool) :=
  slot_lsn ← redo_slot_lsn b k (key_comparator t) (tree_key_prefixing t);
  newer ← match slot_lsn with Some slot_lsn => lsn_le lsn slot_lsn | None => Some false end;
  if newer : bool then Some (b, false)
  else
    '(b, (_, is_new)) ←
      match key_comparator t with
      | Some cmp => insert_cmp b k lsn d cmp
      | None => if tree_key_prefixing t then insert_with_prefix_slice b k lsn d
                else insert_raw b k lsn d
      end;
    Some (with_state b true (bin_last_full_lsn b) (last_delta_lsn b) (prohibit_next_delta b), is_new).

Fixpoint redo_insert_recursive_inner (fuel : nat) (t : Tree) (nid : Z) (node : Node) (k : key)
    (d : option (list Z)) (lsn : Z) (all_left_so_far all_right_so_far : bool)
    : option (Z * Node * result bool TreeError) :=
  match fuel with
  | O => None
  | S fuel =>
      match node with
      | Bottom b =>
          '(b, is_new) ← redo_insert_in_bin t b k d lsn;
          Some (nid, Bottom b, Ok is_new)
      | Internal n =>
          let idx := route (key_cmp t) k (entries n) in
          '(node, c) ← child_at_or_fetch t node idx;
          match c with
          | None => Some (nid, node, Err SplitRequired)
          | Some (Arc child) =>
              let all_left := all_left_so_far && (idx =? 0)%nat in
              let all_right := all_right_so_far && (idx =? length (entries n) - 1)%nat in
              if (max_entries_per_node t <=? get_n_entries child)%nat then
                '(nid, node, r) ← split_child t nid node idx (hint_of all_left all_right) k;
                match r with
                | Err e => Some (nid, node, Err e)
                | Ok _ =>
                    redo_insert_recursive_inner fuel t nid node k d lsn
                      all_left_so_far all_right_so_far
                end
              else
                '(nid, child, r) ←
                  redo_insert_recursive_inner fuel t nid child k d lsn all_left all_right;
                match node with
                | Internal n =>
                    n ← set_child n idx (Some (Arc child)); Some (nid, Internal n, r)
                | Bottom _ => None
                end
          end
      end
  end.

Definition redo_insert (fuel : nat) (t : Tree) (k : key) (d : list Z) (lsn : Z)
    : option (Tree * result bool TreeError) :=
  let data_opt := match d with [] => None | _ => Some d end in
  '(t, _) ← fetch_root_from_log t;
  match root t with
  | None => t ← first_key t k data_opt lsn; Some (t, Ok true)
  | Some _ =>
      '(t, r) ← split_root_if_needed t lsn;
      match r with
      | Err e => Some (t, Err e)
      | Ok _ =>
          n ← resident_root t;
          '(nid, n, r) ←
            redo_insert_recursive_inner fuel t (next_node_id t) n k data_opt lsn true true;
          Some (set_root t (Arc n) nid, r)
      end
  end.

(** ** Deletion *)

Fixpoint delete_recursive (fuel : nat) (t : Tree) (node : Node) (k : key) : option (Node * bool) :=
  match fuel with
  | O => None
  | S fuel =>
      match node with
      | Bottom b => '(b, r) ← delete_in_bin (key_comparator t) b k; Some (Bottom b, r)
      | Internal n =>
          let idx := route (key_cmp t) k (entries n) in
          '(node, c) ← child_at_or_fetch t node idx;
          match c, node with
          | Some (Arc child), Internal n =>
              '(child, r) ← delete_recursive fuel t child k;
              n ← set_child n idx (Some (Arc child)); Some (Internal n, r)
          | _, _ => Some (node, false)
          end
      end
  end.

Definition tree_delete (fuel : nat) (t : Tree) (k : key) : option (Tree * bool) :=
  '(t, r) ← get_root t;
  match r with
  | None => Some (t, false)
  | Some (Arc n) =>
      '(n, r) ← delete_recursive fuel t n k; Some (set_root t (Arc n) (next_node_id t), r)
  end.

(** ** The BIN of a key *)

(** [get_parent_bin_for_child_ln] with what the caller does to the BIN; the
    inner [None]: there is no BIN. *)
Fixpoint at_parent_bin {A} (fuel : nat) (t : Tree) (node : Node) (k : key)
    (f : BinStub → option (BinStub * A)) : option (Node * option A) :=
  match fuel with
  | O => None
  | S fuel =>
      match node with
      | Bottom b => '(b, x) ← f b; Some (Bottom b, Some x)
      | Internal n =>
          if bool_decide (entries n = []) then Some (node, None)
          else
            idx ← upper_in_floor_index t (entries n) k;
            '(node, c) ← child_at_or_fetch t node idx;
            match c, node with
            | Some (Arc child), Internal n =>
                '(child, x) ← at_parent_bin fuel t child k f;
                n ← set_child n idx (Some (Arc child)); Some (Internal n, x)
            | _, _ => Some (node, None)
            end
      end
  end.

Definition with_parent_bin {A} (fuel : nat) (t : Tree) (k : key)
    (f : BinStub → option (BinStub * A)) : option (Tree * option A) :=
  '(t, r) ← get_root t;
  match r with
  | None => Some (t, None)
  | Some (Arc n) =>
      '(n, x) ← at_parent_bin fuel t n k f; Some (set_root t (Arc n) (next_node_id t), x)
  end.

Definition mark_deleted (fuel : nat) (t : Tree) (k : key) (del_lsn : Z) (pending : bool)
    : option (Tree * bool) :=
  '(t, x) ← with_parent_bin fuel t k (λ b, mark_deleted_in_bin (key_comparator t) b k del_lsn pending);
  Some (t, default false x).

Definition redo_advance_deleted_slot_lsn (fuel : nat) (t : Tree) (k : key) (del_lsn : Z)
    : option (Tree * bool) :=
  '(t, x) ← with_parent_bin fuel t k (λ b, redo_advance_in_bin (key_comparator t) b k del_lsn);
  Some (t, default false x).

(** The BIN part of [slot_lsn_any]. *)
Definition slot_lsn_in_bin (kc : option (key → key → comparison)) (b : BinStub) (k : key)
    : option (option (Z * bool)) :=
  '(idx, exact) ← find_in_bin kc b k;
  if exact : bool then
    lsn ← bin_get_lsn b idx; e ← bin_entries b !! idx; Some (Some (lsn, is_deleted e))
  else Some None.

Definition slot_lsn_any (fuel : nat) (t : Tree) (k : key) : option (Tree * option (Z * bool)) :=
  '(t, x) ← with_parent_bin fuel t k
              (λ b, r ← slot_lsn_in_bin (key_comparator t) b k; Some (b, r));
  Some (t, match x with Some r => r | None => None end).

Record SlotFetch := {
  sf_found : bool;
  sf_data : option (list Z);
  sf_lsn : Z;
  sf_slot_index : nat;
  sf_expired_slot : option (Z * nat * Z * bool);
  sf_kd_lsn : option Z;
}.

(** The BIN part of [search_with_data]; [now] is the clock in milliseconds. *)
Definition search_in_bin (kc : option (key → key → comparison)) (now : Z) (b : BinStub) (k : key)
    : option SlotFetch :=
  '(idx, exact) ← find_in_bin kc b k;
  let miss kd expired :=
    {| sf_found := false; sf_data := None; sf_lsn := 0; sf_slot_index := 0;
       sf_expired_slot := expired; sf_kd_lsn := kd |} in
  if exact : bool then
    e ← bin_entries b !! idx;
    lsn ← bin_get_lsn b idx;
    let kd := if is_deleted e then Some lsn else None in
    Some (if slot_is_live b now idx then
            {| sf_found := true; sf_data := data e; sf_lsn := lsn; sf_slot_index := idx;
               sf_expired_slot := None; sf_kd_lsn := kd |}
          else
            miss kd (if slot_expired_not_deleted b now idx
                     then Some (lsn, idx, expiration_time e, expiration_in_hours b) else None))
  else Some (miss None None).

Definition search_with_data (fuel : nat) (t : Tree) (now : Z) (k : key)
    : option (Tree * option SlotFetch) :=
  with_parent_bin fuel t k (λ b, r ← search_in_bin (key_comparator t) now b k; Some (b, r)).

(** The BIN part of [update_key_expiration]. *)
Definition expire_in_bin (kc : option (key → key → comparison)) (b : BinStub) (k : key) (hours : Z)
    : option (BinStub * bool) :=
  '(idx, exact) ← find_in_bin kc b k;
  match exact, bin_entries b !! idx with
  | true, Some e =>
      let e := {| data := data e; known_deleted := known_deleted e;
                  pending_deleted := pending_deleted e; e_dirty := e_dirty e;
                  expiration_time := hours |} in
      let b := with_entries b (<[idx := e]> (bin_entries b)) in
      Some ({| bin_node_id := bin_node_id b; bin_level := bin_level b; bin_entries := bin_entries b;
               key_prefix := key_prefix b; bin_dirty := true; is_delta := is_delta b;
               bin_last_full_lsn := bin_last_full_lsn b; last_delta_lsn := last_delta_lsn b;
               bin_generation := bin_generation b; expiration_in_hours := true;
               cursor_count := cursor_count b; prohibit_next_delta := prohibit_next_delta b;
               bin_lsns := bin_lsns b; bin_keys := bin_keys b;
               compact_max_key_length := compact_max_key_length b;
               expiration_enabled := expiration_enabled b; max_embedded_ln := max_embedded_ln b;
               key_prefixing := key_prefixing b |}, true)
  | _, _ => Some (b, false)
  end.

(** The descent through resident children only. *)
Fixpoint expire_recursive (fuel : nat) (t : Tree) (node : Node) (k : key) (hours : Z)
    : option (Node * bool) :=
  match fuel with
  | O => None
  | S fuel =>
      match node with
      | Bottom b => '(b, r) ← expire_in_bin (key_comparator t) b k hours; Some (Bottom b, r)
      | Internal n =>
          if bool_decide (entries n = []) then Some (node, false)
          else
            idx ← upper_in_floor_index t (entries n) k;
            match get_child n idx with
            | None => Some (node, false)
            | Some (Arc child) =>
                '(child, r) ← expire_recursive fuel t child k hours;
                n ← set_child n idx (Some (Arc child)); Some (Internal n, r)
            end
      end
  end.

(** One attempt: the retries are for splits by other threads. *)
Definition update_key_expiration (fuel : nat) (t : Tree) (k : key) (hours : Z)
    : option (Tree * bool) :=
  '(t, r) ← get_root t;
  match r with
  | None => Some (t, false)
  | Some (Arc n) =>
      '(n, r) ← expire_recursive fuel t n k hours;
      Some (set_root t (Arc n) (next_node_id t), r)
  end.
