(* ===== verification/TreeRep.v ===== *)
(** * What a tree stores

    [node_rep h lo hi nd slots]: the subtree under [nd] has height [h], its
    keys are in the half-open range from [lo] to [hi], every node has at most
    [max] entries, and its BINs hold, from left to right, the list [slots] of
    whole slots.  A child that is not in memory stands for the node its LSN
    fetches from the log.  Every operation of [Tree] is shown to act on the
    list as the operation of the same name acts on the slots of one BIN. *)

From stdpp Require Import sorting.
From S2P Require Import Prelude Bytes Packed Lsn Keys LsnRep TargetRep InNode Bin BinMap NodeImage BinLog Tree.

Abbreviation islot := (key * Z * option ChildArc)%type.
Abbreviation ikey := (λ x : islot, x.1.1).

Section rep.
Context (max : nat) (kc : option (key → key → comparison)) (prefixing : bool) (lg : option log).
Context `{HK : !KeyOrder (order_of kc)}.
Implicit Types (lo hi : option key) (k : key) (slots ss : list slot) (sss : list (list slot)).

Abbreviation cmp := (order_of kc).

(** ** Bounds *)

Definition ge_lo lo k : Prop := match lo with None => True | Some l => cmp l k <> Gt end.
Definition gt_lo lo k : Prop := match lo with None => True | Some l => cmp l k = Lt end.
Definition lt_hi hi k : Prop := match hi with None => True | Some h => cmp k h = Lt end.
Definition within lo hi k : Prop := ge_lo lo k ∧ lt_hi hi k.

Lemma not_gt_cases a b : cmp a b <> Gt ↔ cmp a b = Lt ∨ cmp a b = Eq.
Proof. destruct (cmp a b); intuition congruence. Qed.

Lemma le_lt_trans a b c : cmp a b <> Gt → cmp b c = Lt → cmp a c = Lt.
Proof.
  intros [Hab|Hab]%not_gt_cases Hbc; [by eapply cmp_lt_trans|].
  by rewrite (cmp_eq_l _ _ c Hab).
Qed.

Lemma lt_le_trans a b c : cmp a b = Lt → cmp b c <> Gt → cmp a c = Lt.
Proof.
  intros Hab [Hbc|Hbc]%not_gt_cases; [by eapply cmp_lt_trans|].
  by rewrite <-(cmp_eq_r _ _ a Hbc).
Qed.

Lemma ge_lo_trans lo a b : ge_lo lo a → cmp a b <> Gt → ge_lo lo b.
Proof.
  destruct lo as [l|]; [simpl|done]. intros Hla Hab. apply not_gt_cases in Hab as [Hab|Hab].
  - rewrite (le_lt_trans l a b Hla Hab). done.
  - by rewrite <-(cmp_eq_r _ _ l Hab).
Qed.

Lemma gt_lo_trans lo a b : gt_lo lo a → cmp a b = Lt → gt_lo lo b.
Proof. destruct lo as [l|]; [simpl|done]. intros. by eapply cmp_lt_trans. Qed.

Lemma gt_ge_lo lo a : gt_lo lo a → ge_lo lo a.
Proof. destruct lo as [l|]; [simpl|done]. intros ->. done. Qed.

Lemma ge_lt_lo lo a b : ge_lo lo a → cmp a b = Lt → gt_lo lo b.
Proof. destruct lo as [l|]; [simpl|done]. intros. by eapply le_lt_trans. Qed.

Lemma lt_hi_trans hi a b : cmp a b = Lt → lt_hi hi b → lt_hi hi a.
Proof. destruct hi as [h|]; [simpl|done]. intros. by eapply cmp_lt_trans. Qed.

Lemma lt_hi_le_trans hi a b : cmp a b <> Gt → lt_hi hi b → lt_hi hi a.
Proof. destruct hi as [h|]; [simpl|done]. intros. by eapply le_lt_trans. Qed.

(** ** Nodes *)

Record bin_ok lo hi (b : BinStub) slots : Prop := {
  bo_rep : bin_rep b slots;
  bo_mode : mode_ok kc prefixing b;
  bo_sorted : key_sorted cmp (keys_of slots);
  bo_len : (length slots ≤ max)%nat;
  bo_within : Forall (λ s, within lo hi (slot_key s)) slots;
  bo_lsns : Forall (λ s, in_u 64 (slot_lsn s)) slots;
}.

Definition fetched (lsn : Z) (nd : Node) : Prop :=
  ∃ l, lg = Some l ∧ fetch_node_from_log kc prefixing l lsn = Some (Some nd).

Definition resolves (x : islot) (nd : Node) : Prop :=
  match x.2 with Some (Arc n) => nd = n | None => fetched x.1.2 nd end.

Fixpoint children (R : option key → option key → Node → list slot → Prop) lo hi
    (xs : list islot) sss : Prop :=
  match xs, sss with
  | [x], [ss] => ∃ nd, resolves x nd ∧ R lo hi nd ss
  | x :: ((y :: _) as rest), ss :: sss =>
      (∃ nd, resolves x nd ∧ R lo (Some (ikey y)) nd ss) ∧
      gt_lo lo (ikey y) ∧ lt_hi hi (ikey y) ∧ children R (Some (ikey y)) hi rest sss
  | _, _ => False
  end.

Fixpoint node_rep (h : nat) lo hi (nd : Node) slots : Prop :=
  match h with
  | O => ∃ b, nd = Bottom b ∧ bin_ok lo hi b slots
  | S h =>
      ∃ n xs sss, nd = Internal n ∧ in_node n xs ∧ (length xs ≤ max)%nat ∧
        Forall (λ x : islot, in_u 64 x.1.2) xs ∧ children (node_rep h) lo hi xs sss ∧ slots = concat sss
  end.

Lemma children_cons R lo hi x y rest ss sss :
  children R lo hi (x :: y :: rest) (ss :: sss) ↔
  (∃ nd, resolves x nd ∧ R lo (Some (ikey y)) nd ss) ∧
  gt_lo lo (ikey y) ∧ lt_hi hi (ikey y) ∧ children R (Some (ikey y)) hi (y :: rest) sss.
Proof. done. Qed.

(** Two adjacent runs of children. *)
Lemma children_app R lo hi xs y ys s1 s2 :
  children R lo (Some (ikey y)) xs s1 → children R (Some (ikey y)) hi (y :: ys) s2 →
  gt_lo lo (ikey y) → lt_hi hi (ikey y) →
  children R lo hi (xs ++ y :: ys) (s1 ++ s2).
Proof.
  revert lo s1. induction xs as [|x xs IH]; intros lo s1 H1 H2 Hlo Hhi; [by destruct s1|].
  destruct xs as [|x' xs].
  - destruct s1 as [|ss [|? s1]]; [done| |done]. simpl app. by apply children_cons.
  - destruct s1 as [|ss s1]; [done|]. apply children_cons in H1 as (Hx & Hg & Hl & H1).
    simpl app. apply children_cons. split_and!; [done|done|by eapply lt_hi_trans|].
    by apply IH.
Qed.

Lemma children_split R lo hi xs y ys sss :
  xs <> [] → children R lo hi (xs ++ y :: ys) sss →
  ∃ s1 s2, sss = s1 ++ s2 ∧ length s1 = length xs ∧ children R lo (Some (ikey y)) xs s1 ∧
    children R (Some (ikey y)) hi (y :: ys) s2 ∧ gt_lo lo (ikey y) ∧ lt_hi hi (ikey y).
Proof.
  revert lo sss. induction xs as [|x xs IH]; intros lo sss Hne Hc; [done|]. clear Hne.
  destruct sss as [|ss sss]; [by destruct xs|]. destruct xs as [|x' xs]; simpl app in Hc.
  - apply children_cons in Hc as (Hx & Hg & Hl & Hc). exists [ss], sss. by split_and!.
  - apply children_cons in Hc as (Hx & Hg & Hl & Hc).
    destruct (IH (Some (ikey x')) sss ltac:(done) Hc) as (s1 & s2 & -> & Hlen & H1 & H2 & Hg' & Hl').
    exists (ss :: s1), s2. split; [done|]. split; [by simpl; f_equal|].
    split; [by apply children_cons|]. split; [done|]. split; [by eapply gt_lo_trans|done].
Qed.

Lemma children_length R lo hi xs sss : children R lo hi xs sss → length sss = length xs.
Proof.
  revert lo sss. induction xs as [|x xs IH]; intros lo sss Hc; [done|].
  destruct sss as [|ss sss]; [by destruct xs|]. destruct xs as [|y xs].
  - by destruct sss.
  - apply children_cons in Hc as (_ & _ & _ & Hc). simpl. f_equal. by apply (IH (Some (ikey y))).
Qed.

(** The children of a run stay in its range, in order. *)
Lemma children_within R lo hi xs sss :
  (∀ lo hi nd ss, R lo hi nd ss →
     Forall (λ s, within lo hi (slot_key s)) ss ∧ key_sorted cmp (keys_of ss)) →
  children R lo hi xs sss →
  Forall (λ s, within lo hi (slot_key s)) (concat sss) ∧ key_sorted cmp (keys_of (concat sss)).
Proof.
  intros HR. revert lo sss. induction xs as [|x xs IH]; intros lo sss Hc; [done|].
  destruct sss as [|ss sss]; [by destruct xs|]. destruct xs as [|y xs].
  - destruct sss; [|done]. destruct Hc as (nd & _ & Hc). simpl. rewrite app_nil_r. by eapply HR.
  - apply children_cons in Hc as ((nd & _ & Hx) & Hg & Hl & Hc). destruct (HR _ _ _ _ Hx) as [Hw Hs].
    destruct (IH _ _ Hc) as [Hw' Hs']. simpl concat. split.
    + apply Forall_app. split; eapply Forall_impl; [exact Hw| |exact Hw'|]; intros s [H1 H2].
      * split; [done|]. by eapply lt_hi_trans.
      * split; [|done]. eapply ge_lo_trans; [by apply gt_ge_lo|done].
    + rewrite fmap_app. apply sorted_app_iff. split_and!; [done..|].
      intros a b (s & -> & Hs1)%list_elem_of_fmap (s' & -> & Hs2)%list_elem_of_fmap.
      apply (proj1 (Forall_forall _ _) Hw) in Hs1 as [_ H1].
      apply (proj1 (Forall_forall _ _) Hw') in Hs2 as [H2 _]. by eapply lt_le_trans.
Qed.

Lemma node_rep_within h lo hi nd slots :
  node_rep h lo hi nd slots →
  Forall (λ s, within lo hi (slot_key s)) slots ∧ key_sorted cmp (keys_of slots).
Proof.
  revert lo hi nd slots. induction h as [|h IH]; intros lo hi nd slots.
  - intros (b & -> & []). done.
  - intros (n & xs & sss & -> & _ & _ & _ & Hc & ->). by eapply children_within.
Qed.

(** ** Routing *)

(** How many leading separators are not above the key. *)
Fixpoint prefix_len (p : key → bool) (es : list key) : nat :=
  match es with [] => 0%nat | e :: es => if p e then S (prefix_len p es) else 0%nat end.

Lemma route_loop_len k i es :
  route_loop cmp k (S i) i es = (i + prefix_len (not_greater cmp k) es)%nat.
Proof.
  revert i. induction es as [|e es IH]; intros i; simpl; [lia|].
  unfold not_greater at 1. destruct (cmp e k); rewrite ?IH; lia.
Qed.

Lemma route_len k e es : route cmp k (e :: es) = prefix_len (not_greater cmp k) es.
Proof. unfold route. by rewrite route_loop_len. Qed.

Lemma prefix_len_app p l1 l2 :
  Forall (λ e, p e = true) l1 → match l2 with [] => True | e :: _ => p e = false end →
  prefix_len p (l1 ++ l2) = length l1.
Proof.
  intros H1 H2. induction H1 as [|e l1 He H1 IH]; simpl; [|by rewrite He, IH].
  destruct l2 as [|e l2]; [done|]. simpl. by rewrite H2.
Qed.

Lemma prefix_len_spec p es i e :
  es !! i = Some e → (i < prefix_len p es)%nat → p e = true.
Proof.
  revert i. induction es as [|x es IH]; intros i Hi Hlt; [done|]. simpl in Hlt.
  destruct (p x) eqn:Ex; [|lia]. destruct i as [|i]; [by injection Hi as <-|].
  apply (IH i); [done|lia].
Qed.

Lemma prefix_len_stop p es e : es !! prefix_len p es = Some e → p e = false.
Proof.
  induction es as [|x es IH]; simpl; [done|]. destruct (p x) eqn:Ex; [apply IH|]. by intros [= <-].
Qed.

Lemma prefix_len_le p es : (prefix_len p es ≤ length es)%nat.
Proof. induction es as [|x es IH]; simpl; [lia|]. destruct (p x); lia. Qed.

(** Once above the key, always above it. *)
Definition monotone (p : key → bool) (es : list key) : Prop :=
  ∀ i j a b, (i ≤ j)%nat → es !! i = Some a → es !! j = Some b → p b = true → p a = true.

Lemma slice_partition_spec p es (fuel lo hi : nat) :
  monotone p es → (lo ≤ prefix_len p es ≤ hi)%nat → (hi ≤ length es)%nat → (hi - lo ≤ fuel)%nat →
  slice_partition p es fuel lo hi = Some (prefix_len p es).
Proof.
  intros Hm. revert lo hi. induction fuel as [|fuel IH]; intros lo hi Hr Hhi Hf; simpl.
  { destruct (Nat.ltb_spec lo hi); [lia|]. f_equal. lia. }
  destruct (Nat.ltb_spec lo hi) as [Hlt|]; [|f_equal; lia].
  destruct (mid_bounds lo hi Hlt) as [Hm1 Hm2]. set (mid := (lo + (hi - lo) / 2)%nat) in *.
  destruct (lookup_lt_is_Some_2 es mid ltac:(lia)) as [x Hx].
  change (lo + fst (Nat.divmod (hi - lo) 1 0 1))%nat with mid.
  rewrite Hx. cbn [mbind option_bind]. destruct (p x) eqn:Ex; apply IH; try lia.
  - split; [|lia]. apply Nat.nle_gt. intros Hle.
    destruct (lookup_lt_is_Some_2 es (prefix_len p es) ltac:(lia)) as [y Hy].
    pose proof (prefix_len_stop _ _ _ Hy). pose proof (Hm _ _ _ _ Hle Hy Hx Ex). congruence.
  - split; [lia|]. apply Nat.nlt_ge. intros Hlt'. pose proof (prefix_len_spec _ _ _ _ Hx Hlt'). congruence.
Qed.

Lemma partition_point_spec p es : monotone p es → partition_point p es = Some (prefix_len p es).
Proof.
  intros Hm. apply slice_partition_spec; [done| |lia..]. pose proof (prefix_len_le p es). lia.
Qed.

(** The separators of a run increase. *)
Lemma children_separators R lo hi x xs sss :
  children R lo hi (x :: xs) sss → Forall (gt_lo lo) (ikey <$> xs) ∧ key_sorted cmp (ikey <$> xs).
Proof.
  revert lo x sss. induction xs as [|y xs IH]; intros lo x sss Hc; [split; constructor|].
  destruct sss as [|ss sss]; [done|]. apply children_cons in Hc as (_ & Hg & _ & Hc).
  destruct (IH _ _ _ Hc) as [Hlo Hs]. rewrite fmap_cons. split.
  - apply List.Forall_cons; [done|]. eapply Forall_impl; [exact Hlo|]. intros a Ha. by eapply gt_lo_trans.
  - by constructor.
Qed.

Lemma sorted_monotone k es : key_sorted cmp es → monotone (not_greater cmp k) es.
Proof.
  intros Hs i j a b Hij Ha Hb. unfold not_greater.
  destruct (decide (i = j)) as [->|Hne]; [by simplify_eq|].
  pose proof (StronglySorted_lookup _ _ i j a b Hs ltac:(lia) Ha Hb) as Hab.
  intros Hp. assert (cmp b k <> Gt) as Hbk by (by destruct (cmp b k)).
  by rewrite (lt_le_trans a b k Hab Hbk).
Qed.

(** The three ways to find the slot agree. *)
Lemma routes_agree R lo hi x xs sss k :
  children R lo hi (x :: xs) sss →
  partition_point (not_greater cmp k) (ikey <$> xs) = Some (route cmp k (ikey <$> x :: xs)).
Proof.
  intros Hc. rewrite fmap_cons, route_len. apply partition_point_spec, sorted_monotone.
  by eapply children_separators.
Qed.

(** The child that covers a key, and what may take its place. *)
Record focus R lo hi k (xs : list islot) sss (l1 : list islot) (x : islot) (l2 : list islot)
    (s1 : list (list slot)) ss (s2 : list (list slot)) (lo' hi' : option key) (nd : Node) : Prop := {
  fo_xs : xs = l1 ++ x :: l2;
  fo_sss : sss = s1 ++ ss :: s2;
  fo_len : length s1 = length l1;
  fo_left : Forall (λ y, cmp (ikey y) k <> Gt) (tail (l1 ++ [x]));
  fo_right : match l2 with [] => True | y :: _ => cmp (ikey y) k = Gt end;
  fo_node : resolves x nd;
  fo_rep : R lo' hi' nd ss;
  fo_within : within lo' hi' k;
  fo_close lx sx : children R lo' hi' lx sx → (ikey <$> head lx) = Some (ikey x) →
    children R lo hi (l1 ++ lx ++ l2) (s1 ++ sx ++ s2);
  fo_below s : s ∈ concat s1 → cmp (slot_key s) k = Lt;
  fo_above s : s ∈ concat s2 → cmp (slot_key s) k = Gt;
}.

Lemma children_focus R lo hi k xs sss :
  (∀ lo hi nd ss, R lo hi nd ss →
     Forall (λ s, within lo hi (slot_key s)) ss ∧ key_sorted cmp (keys_of ss)) →
  children R lo hi xs sss → within lo hi k →
  ∃ l1 x l2 s1 ss s2 lo' hi' nd, focus R lo hi k xs sss l1 x l2 s1 ss s2 lo' hi' nd.
Proof.
  intros HR. revert lo sss. induction xs as [|x xs IH]; intros lo sss Hc Hk; [done|].
  destruct sss as [|ss sss]; [by destruct xs|]. destruct xs as [|y xs].
  { destruct sss; [|done]. destruct Hc as (nd & Hres & Hc).
    exists [], x, [], [], ss, [], lo, hi, nd. split; try done; try (by intros ? ?%elem_of_nil).
    intros lx sx Hlx _. simpl. by rewrite !app_nil_r. }
  apply children_cons in Hc as ((nd & Hres & Hx) & Hg & Hl & Hc).
  destruct (decide (cmp (ikey y) k = Gt)) as [Hgt|Hle].
  - exists [], x, (y :: xs), [], ss, sss, lo, (Some (ikey y)), nd.
    split; try done; try (by intros ? ?%elem_of_nil).
    + split; [apply Hk|]. by apply cmp_gt_lt.
    + intros lx sx Hlx _. simpl app. by apply children_app.
    + intros s Hs. destruct (children_within _ _ _ _ _ HR Hc) as [Hw _].
      apply (proj1 (Forall_forall _ _) Hw) in Hs as [Hs _]. apply cmp_gt_lt in Hgt. apply cmp_gt_lt.
      by eapply lt_le_trans.
  - destruct (IH (Some (ikey y)) sss Hc) as (l1 & z & l2 & s1 & ss' & s2 & lo' & hi' & nd' & Hf).
    { split; [done|apply Hk]. }
    destruct Hf as [Hxs Hss Hlen Hleft Hright Hnode Hrep Hwit Hclose Hbelow Habove].
    exists (x :: l1), z, l2, (ss :: s1), ss', s2, lo', hi', nd'. split; try done.
    + by rewrite Hxs.
    + by rewrite Hss.
    + simpl. by f_equal.
    + simpl. destruct l1 as [|y' l1]; injection Hxs as -> ->; simpl in *; by apply List.Forall_cons.
    + intros lx sx Hlx Hhd. specialize (Hclose lx sx Hlx Hhd). simpl app.
      destruct (l1 ++ lx ++ l2) as [|y' rest] eqn:El; [by destruct (s1 ++ sx ++ s2)|].
      assert (ikey y' = ikey y) as Hy.
      { destruct l1 as [|y1 l1]; injection Hxs as -> ->; [|by injection El as -> _].
        destruct lx as [|x' lx]; [discriminate Hhd|]. injection El as -> _. simpl in Hhd. congruence. }
      apply children_cons. rewrite Hy. split; [by exists nd|done].
    + intros s. simpl. intros [Hs|Hs]%elem_of_app; [|by apply Hbelow].
      destruct (HR _ _ _ _ Hx) as [Hw _]. apply (proj1 (Forall_forall _ _) Hw) in Hs as [_ Hs].
      by eapply lt_le_trans.
Qed.

Lemma route_middle k (l1 : list islot) x l2 :
  Forall (λ y, cmp (ikey y) k <> Gt) (tail (l1 ++ [x])) →
  match l2 with [] => True | y :: _ => cmp (ikey y) k = Gt end →
  route cmp k (ikey <$> l1 ++ x :: l2) = length l1.
Proof.
  intros Hleft Hright.
  assert (∀ y, cmp (ikey y) k <> Gt → not_greater cmp k (ikey y) = true) as Hng
    by (intros y; unfold not_greater; by destruct (cmp (ikey y) k)).
  destruct l1 as [|y l1]; simpl app; rewrite fmap_cons, route_len.
  - destruct l2 as [|z l2]; [done|]. simpl. unfold not_greater. by rewrite Hright.
  - rewrite fmap_app. change (tail ((y :: l1) ++ [x])) with (l1 ++ [x]) in Hleft.
    rewrite fmap_cons, cons_middle, app_assoc.
    rewrite prefix_len_app, length_app, length_fmap; [simpl; lia| |].
    + replace ((ikey <$> l1) ++ [ikey x]) with (ikey <$> l1 ++ [x]) by by rewrite fmap_app.
      rewrite Forall_fmap. eapply Forall_impl; [exact Hleft|]. intros y' Hy'. by apply Hng.
    + destruct l2 as [|z l2]; [done|]. simpl. unfold not_greater. by rewrite Hright.
Qed.

Lemma focus_route R lo hi k xs sss l1 x l2 s1 ss s2 lo' hi' nd :
  focus R lo hi k xs sss l1 x l2 s1 ss s2 lo' hi' nd → route cmp k (ikey <$> xs) = length l1.
Proof. intros [-> _ _ Hleft Hright _ _ _ _ _ _]. by apply route_middle. Qed.

(** ** Operations on one key *)

Definition around k (A C : list slot) : Prop :=
  (∀ s, s ∈ A → cmp (slot_key s) k = Lt) ∧ (∀ s, s ∈ C → cmp (slot_key s) k = Gt).

(** An operation on a list that only looks at the slots of its key. *)
Definition local {X} k (op : list slot → list slot * X) : Prop :=
  ∀ A B C, around k A C → op (A ++ B ++ C) = (A ++ (op B).1 ++ C, (op B).2).

Definition local_rel {X} k (R : list slot → list slot → X → Prop) : Prop :=
  ∀ A B C B' x, around k A C → R B B' x → R (A ++ B ++ C) (A ++ B' ++ C) x.

Lemma ref_search_app (f : key → comparison) (ka kb kc' : list key) :
  Forall (λ a, f a = Lt) ka → Forall (λ c, f c = Gt) kc' →
  ref_search f (ka ++ kb ++ kc') =
  match ref_search f kb with
  | Ok i => Ok (length ka + i)%nat
  | Err i => Err (length ka + i)%nat
  end.
Proof.
  intros HA HC. induction HA as [|a ka Ha HA IH]; simpl.
  - induction kb as [|b kb IH]; simpl.
    + destruct HC as [|c kc' Hc]; [done|]. simpl. by rewrite Hc.
    + destruct (f b); [done| |done]. rewrite IH. by destruct (ref_search f kb).
  - rewrite Ha, IH. by destruct (ref_search f kb).
Qed.

Lemma ref_search_around k A B C :
  around k A C →
  ref_search (λ k', cmp k' k) (keys_of (A ++ B ++ C)) =
  match ref_search (λ k', cmp k' k) (keys_of B) with
  | Ok i => Ok (length A + i)%nat
  | Err i => Err (length A + i)%nat
  end.
Proof.
  intros [HA HC]. rewrite !fmap_app, ref_search_app, length_fmap; [done|..];
    rewrite Forall_fmap, Forall_forall; [exact HA|exact HC].
Qed.

Lemma lookup_around {A} (l1 l2 l3 : list A) i :
  (i < length l2)%nat → (l1 ++ l2 ++ l3) !! (length l1 + i)%nat = l2 !! i.
Proof. intros Hi. rewrite lookup_app_r by lia. rewrite lookup_app_l by lia. f_equal. lia. Qed.

Lemma insert_around {A} (l1 l2 l3 : list A) i x :
  (i < length l2)%nat → <[(length l1 + i)%nat := x]> (l1 ++ l2 ++ l3) = l1 ++ <[i := x]> l2 ++ l3.
Proof. intros Hi. rewrite insert_app_r. by rewrite insert_app_l. Qed.

Lemma find_around k A B C :
  around k A C →
  match ref_search (λ k', cmp k' k) (keys_of B) with
  | Ok i => ∃ s, B !! i = Some s ∧ (A ++ B ++ C) !! (length A + i)%nat = Some s ∧ (i < length B)%nat
  | Err i => (i ≤ length B)%nat
  end.
Proof.
  intros _. destruct (ref_search_inv (λ k', cmp k' k) (keys_of B)) as [Hinv _].
  destruct (ref_search _ _) as [i|i].
  - destruct Hinv as (k' & Hk' & _). rewrite list_lookup_fmap in Hk'.
    destruct (B !! i) as [s|] eqn:Hs; [|done]. pose proof (lookup_lt_Some _ _ _ Hs).
    exists s. split_and!; [done| |done]. by rewrite lookup_around.
  - destruct Hinv as [Hi _]. by rewrite length_fmap in Hi.
Qed.

Definition abs_put k lsn d slots : list slot * bool :=
  let r := abs_insert cmp slots k lsn d in (r.1, r.2.2).

Lemma put_local k lsn d : local k (abs_put k lsn d).
Proof.
  intros A B C Hr. unfold abs_put, abs_insert. rewrite (ref_search_around k A B C Hr).
  pose proof (find_around k A B C Hr) as Hf. destruct (ref_search _ (keys_of B)) as [i|i].
  - destruct Hf as (s & Hs & -> & Hi). rewrite Hs. simpl. by rewrite insert_around.
  - simpl. rewrite take_app_add, drop_app_add, take_app_le, drop_app_le by done.
    by rewrite <-!app_assoc.
Qed.

Lemma delete_local k : local k (λ slots, abs_delete cmp slots k).
Proof.
  intros A B C Hr. unfold abs_delete. rewrite (ref_search_around k A B C Hr).
  pose proof (find_around k A B C Hr) as Hf. destruct (ref_search _ (keys_of B)) as [i|i]; [|done].
  destruct Hf as (s & Hs & -> & Hi). rewrite Hs. simpl. f_equal.
  rewrite !delete_take_drop. replace (S (length A + i)) with (length A + S i)%nat by lia.
  rewrite take_app_add, drop_app_add, take_app_le, drop_app_le by lia. by rewrite <-!app_assoc.
Qed.

Lemma mark_local k lsn pending : local k (λ slots, abs_mark cmp slots k lsn pending).
Proof.
  intros A B C Hr. unfold abs_mark. rewrite (ref_search_around k A B C Hr).
  pose proof (find_around k A B C Hr) as Hf. destruct (ref_search _ (keys_of B)) as [i|i]; [|done].
  destruct Hf as (s & Hs & -> & Hi). rewrite Hs. destruct (is_deleted _); [done|]. simpl.
  by rewrite insert_around.
Qed.

(** The redo of a deletion over a deleted slot. *)
Definition abs_advance k (lsn : Z) slots : list slot * bool :=
  match ref_search (λ k', cmp k' k) (keys_of slots) with
  | Ok i =>
      match slots !! i with
      | Some s =>
          let e := slot_entry s in
          if is_deleted e && (is_null (slot_lsn s) || (slot_lsn s <? lsn)) then
            (<[i := (slot_key s, lsn,
                     {| data := data e; known_deleted := known_deleted e;
                        pending_deleted := pending_deleted e; e_dirty := true;
                        expiration_time := expiration_time e |})]> slots, true)
          else (slots, false)
      | None => (slots, false)
      end
  | Err _ => (slots, false)
  end.

Lemma advance_local k lsn : local k (abs_advance k lsn).
Proof.
  intros A B C Hr. unfold abs_advance. rewrite (ref_search_around k A B C Hr).
  pose proof (find_around k A B C Hr) as Hf. destruct (ref_search _ (keys_of B)) as [i|i]; [|done].
  destruct Hf as (s & Hs & -> & Hi). rewrite Hs. cbn zeta. destruct (_ && _); [|done]. simpl.
  by rewrite insert_around.
Qed.

Lemma find_local k A B C :
  around k A C → abs_find (cmp := cmp) (A ++ B ++ C) k = abs_find (cmp := cmp) B k.
Proof.
  intros Hr. unfold abs_find. rewrite (ref_search_around k A B C Hr).
  pose proof (find_around k A B C Hr) as Hf. destruct (ref_search _ (keys_of B)) as [i|i]; [|done].
  by destruct Hf as (s & -> & -> & _).
Qed.

(** The redo of a write: the newer version wins. *)
Definition abs_redo k lsn d slots : list slot * bool :=
  match abs_find (cmp := cmp) slots k with
  | Some s => if lsn <=? slot_lsn s then (slots, false) else abs_put k lsn d slots
  | None => abs_put k lsn d slots
  end.

Lemma redo_local k lsn d : local k (abs_redo k lsn d).
Proof.
  intros A B C Hr. unfold abs_redo. rewrite (find_local k A B C Hr).
  destruct (abs_find B k) as [s|]; [destruct (lsn <=? _); [done|]|]; by apply put_local.
Qed.

(** A lookup. *)
Definition abs_look {X} k (f : option slot → X) slots : list slot * X :=
  (slots, f (abs_find (cmp := cmp) slots k)).

Lemma look_local {X} k (f : option slot → X) : local k (abs_look k f).
Proof. intros A B C Hr. unfold abs_look. by rewrite (find_local k A B C Hr). Qed.

(** A new expiration time. *)
Definition abs_expire k hours slots : list slot * bool :=
  match ref_search (λ k', cmp k' k) (keys_of slots) with
  | Ok i =>
      match slots !! i with
      | Some s =>
          let e := slot_entry s in
          (<[i := (slot_key s, slot_lsn s,
                   {| data := data e; known_deleted := known_deleted e;
                      pending_deleted := pending_deleted e; e_dirty := e_dirty e;
                      expiration_time := hours |})]> slots, true)
      | None => (slots, false)
      end
  | Err _ => (slots, false)
  end.

Lemma expire_local k hours : local k (abs_expire k hours).
Proof.
  intros A B C Hr. unfold abs_expire. rewrite (ref_search_around k A B C Hr).
  pose proof (find_around k A B C Hr) as Hf. destruct (ref_search _ (keys_of B)) as [i|i]; [|done].
  destruct Hf as (s & Hs & -> & Hi). rewrite Hs. simpl. by rewrite insert_around.
Qed.

(** ** The operations on a BIN *)

Lemma bin_ok_update lo hi b b' slots slots' :
  bin_ok lo hi b slots → bin_rep b' slots' → mode_ok kc prefixing b' →
  key_sorted cmp (keys_of slots') → (length slots' ≤ max)%nat →
  (∀ s, s ∈ slots' → s ∈ slots ∨ within lo hi (slot_key s) ∧ in_u 64 (slot_lsn s)) →
  bin_ok lo hi b' slots'.
Proof.
  intros [Hb Hm Hs Hl Hw Hu] Hb' Hm' Hs' Hl' Hin. split; try done; apply Forall_forall; intros s Hi.
  - destruct (Hin s Hi) as [Ho|[Ho _]]; [by apply (proj1 (Forall_forall _ _) Hw)|done].
  - destruct (Hin s Hi) as [Ho|[_ Ho]]; [by apply (proj1 (Forall_forall _ _) Hu)|done].
Qed.

(** A slot whose LSN and entry are replaced. *)
Lemma bin_ok_rewrite lo hi b b' slots i s lsn e :
  bin_ok lo hi b slots → slots !! i = Some s → in_u 64 lsn →
  bin_rep b' (<[i := (slot_key s, lsn, e)]> slots) → mode_ok kc prefixing b' →
  bin_ok lo hi b' (<[i := (slot_key s, lsn, e)]> slots).
Proof.
  intros Hok Hi Hlsn Hb' Hm'. pose proof Hok as [_ _ Hs Hl Hw _].
  destruct (sorted_replace slots i s (slot_key s, lsn, e) Hs Hi (cmp_refl _)) as [Hs' Hin].
  apply (bin_ok_update lo hi b b' slots); try done; [by rewrite length_insert|].
  intros x [[Hx _]| ->]%Hin; [by left|right]. split; [|done].
  apply (proj1 (Forall_forall _ _) Hw s). by eapply list_elem_of_lookup_2.
Qed.

Lemma length_put k lsn d slots : (length (abs_put k lsn d slots).1 ≤ S (length slots))%nat.
Proof.
  unfold abs_put, abs_insert. destruct (ref_search _ _) as [i|i]; simpl.
  - destruct (slots !! i); simpl; rewrite ?length_insert; lia.
  - rewrite length_app. simpl. rewrite length_take, length_drop. lia.
Qed.

Lemma bin_ok_put lo hi b b' k lsn d slots :
  bin_ok lo hi b slots → within lo hi k → (length slots < max)%nat → in_u 64 lsn →
  bin_rep b' (abs_put k lsn d slots).1 → mode_ok kc prefixing b' →
  bin_ok lo hi b' (abs_put k lsn d slots).1.
Proof.
  intros Hok Hk Hlen Hlsn Hb' Hm'.
  destruct (abs_insert_spec slots k lsn d (bo_sorted _ _ _ _ Hok)) as [Hs' Hin].
  apply (bin_ok_update lo hi b b' slots); try done.
  - pose proof (length_put k lsn d slots). lia.
  - intros s [[Hs _]| ->]%Hin; [by left|by right].
Qed.

Lemma bin_put lo hi b slots k lsn d :
  bin_ok lo hi b slots → within lo hi k → (length slots < max)%nat → in_u 64 lsn →
  ∃ b', insert_in_bin kc prefixing b k lsn d = Some (b', (abs_put k lsn (Some d) slots).2) ∧
    bin_ok lo hi b' (abs_put k lsn (Some d) slots).1.
Proof.
  intros Hok Hk Hlen Hlsn. pose proof Hok as [Hb Hm Hs _ _ _].
  destruct (insert_in_bin_spec kc prefixing b slots k lsn d HK Hb Hs Hm Hlsn)
    as (b' & -> & _ & _ & Hm' & Hb').
  exists b'. split; [done|]. by apply (bin_ok_put lo hi b).
Qed.

Lemma bin_delete lo hi b slots k :
  bin_ok lo hi b slots →
  ∃ b', delete_in_bin kc b k = Some (b', (abs_delete cmp slots k).2) ∧
    bin_ok lo hi b' (abs_delete cmp slots k).1.
Proof.
  intros Hok. pose proof Hok as [Hb Hm Hs Hl _ _].
  destruct (delete_in_bin_spec kc prefixing b slots k HK Hb Hs Hm) as (b' & -> & _ & _ & Hm' & Hb').
  exists b'. split; [done|]. destruct (abs_delete_spec slots k Hs) as [Hs' Hin].
  apply (bin_ok_update lo hi b b' slots); try done.
  - unfold abs_delete. destruct (ref_search _ _) as [i|i]; [|done]. simpl.
    rewrite delete_take_drop, length_app, length_take, length_drop. lia.
  - intros s Hs1%Hin. left. by destruct Hs1.
Qed.

Lemma bin_mark lo hi b slots k lsn pending :
  bin_ok lo hi b slots → in_u 64 lsn →
  ∃ b', mark_deleted_in_bin kc b k lsn pending = Some (b', (abs_mark cmp slots k lsn pending).2) ∧
    bin_ok lo hi b' (abs_mark cmp slots k lsn pending).1.
Proof.
  intros Hok Hlsn. pose proof Hok as [Hb Hm Hs Hl _ _].
  destruct (mark_deleted_spec kc prefixing b slots k lsn pending HK Hb Hs Hm Hlsn)
    as (b' & -> & _ & _ & Hm' & Hb').
  exists b'. split; [done|]. revert Hb'. unfold abs_mark.
  destruct (ref_search _ _) as [i|i]; [|intros; by apply (bin_ok_update lo hi b b' slots); auto].
  destruct (slots !! i) as [s|] eqn:Hi; [|intros; by apply (bin_ok_update lo hi b b' slots); auto].
  destruct (is_deleted _); [intros; by apply (bin_ok_update lo hi b b' slots); auto|].
  intros. by apply (bin_ok_rewrite lo hi b).
Qed.

(** The slot of a key, as a search finds it. *)
Lemma bin_find lo hi b slots k :
  bin_ok lo hi b slots →
  ∃ i, find_in_bin kc b k = Some (i, bool_decide (is_Some (abs_find (cmp := cmp) slots k))) ∧
    match ref_search (λ k', cmp k' k) (keys_of slots) with
    | Ok j => j = i ∧ ∃ s, slots !! i = Some s ∧ abs_find (cmp := cmp) slots k = Some s ∧
                bin_entries b !! i = Some (slot_entry s) ∧ bin_get_lsn b i = Some (slot_lsn s)
    | Err _ => abs_find (cmp := cmp) slots k = None
    end.
Proof.
  intros [Hb Hm Hs _ _ _]. rewrite (find_in_bin_spec kc b slots k HK Hb Hs). unfold abs_find.
  destruct (ref_search_inv (λ k', cmp k' k) (keys_of slots)) as [Hinv _].
  destruct (ref_search _ _) as [i|i]; [|by exists i].
  destruct Hinv as (k' & Hk' & _). rewrite list_lookup_fmap in Hk'.
  destruct (slots !! i) as [s|] eqn:Hi; [|done]. exists i. split; [done|]. split; [done|].
  exists s. by destruct (bin_lookup _ _ _ _ Hb Hi).
Qed.

Lemma bin_drain hook lo hi b slots :
  bin_ok lo hi b slots →
  ∃ b', drain_known_deleted_for_split prefixing hook b =
          Some (b', (length (filter (drain_keeps hook) slots) <? length slots)%nat) ∧
    bin_ok lo hi b' (filter (drain_keeps hook) slots).
Proof.
  intros Hok. pose proof Hok as [Hb [Hd Hm] Hs Hl _ _].
  destruct (drain_spec prefixing hook b slots Hb Hd) as (b' & -> & Hf & _ & Hp & Hb').
  exists b'. split; [done|]. apply (bin_ok_update lo hi b b' slots); try done.
  - split; [by rewrite (lf_delta _ _ Hf)|]. intros. by apply Hp.
  - by apply sorted_filter.
  - pose proof (length_filter (drain_keeps hook) slots). lia.
  - intros s [_ Hin]%list_elem_of_filter. by left.
Qed.

(** A list without some of its deleted slots that no lock holds. *)
Inductive drained (hook : option (Z → bool)) : list slot → list slot → Prop :=
| drained_nil : drained hook [] []
| drained_keep s l l' : drained hook l l' → drained hook (s :: l) (s :: l')
| drained_drop s l l' : drain_keeps hook s = false → drained hook l l' → drained hook (s :: l) l'.

Lemma drained_refl hook l : drained hook l l.
Proof. induction l; by constructor. Qed.

Lemma drained_trans hook l1 l2 l3 : drained hook l1 l2 → drained hook l2 l3 → drained hook l1 l3.
Proof.
  intros H. revert l3. induction H as [|s l l' _ IH|s l l' Hd _ IH]; intros l3 H3; [done| |].
  - inversion H3; subst; [constructor; by apply IH|]. apply drained_drop; [done|by apply IH].
  - apply drained_drop; [done|by apply IH].
Qed.

Lemma drained_app hook a a' b b' :
  drained hook a a' → drained hook b b' → drained hook (a ++ b) (a' ++ b').
Proof. intros H Hb. induction H; [done|by constructor..]. Qed.

Lemma drained_middle hook a b b' c : drained hook b b' → drained hook (a ++ b ++ c) (a ++ b' ++ c).
Proof. intros H. apply drained_app; [apply drained_refl|]. apply drained_app; [done|apply drained_refl]. Qed.

Lemma drained_filter hook l : drained hook l (filter (drain_keeps hook) l).
Proof.
  induction l as [|s l IH]; [constructor|]. rewrite filter_cons. destruct (drain_keeps hook s) eqn:Es.
  - rewrite decide_True by done. by constructor.
  - rewrite decide_False by (intros []). by apply drained_drop.
Qed.

Lemma filter_all_kept {X} (P : X → bool) (l : list X) : length (filter P l) = length l → filter P l = l.
Proof.
  induction l as [|x l IH]; [done|]. rewrite filter_cons. destruct (decide (P x)); simpl.
  - intros [= Hl]. f_equal. by apply IH.
  - pose proof (length_filter P l). lia.
Qed.

(** ** Splitting a node in two *)

Lemma mapM_seq {X Y} (f : nat → option Y) (g : X → Y) (l : list X) :
  (∀ i x, l !! i = Some x → f i = Some (g x)) → mapM f (seq 0 (length l)) = Some (g <$> l).
Proof.
  intros Hf. apply mapM_Some, Forall2_same_length_lookup. rewrite length_seq, length_fmap.
  split; [done|]. intros i j y Hj Hy. apply lookup_seq in Hj as [-> _]. simpl.
  rewrite list_lookup_fmap in Hy. destruct (l !! i) as [x|] eqn:Hx; [|done].
  injection Hy as <-. by apply Hf.
Qed.

Lemma fmap_seq {X Y} (f : nat → Y) (g : X → Y) (l : list X) :
  (∀ i x, l !! i = Some x → f i = g x) → f <$> seq 0 (length l) = g <$> l.
Proof.
  intros Hf. apply list_eq. intros i. rewrite !list_lookup_fmap.
  destruct (l !! i) as [x|] eqn:Hx.
  - rewrite lookup_seq_lt by (by eapply lookup_lt_Some). simpl. f_equal. by apply Hf.
  - rewrite lookup_seq_ge; [done|]. by apply lookup_ge_None.
Qed.

Lemma subvec_take {X} i (v : list X) : (i ≤ length v)%nat → subvec 0 i v = Some (take i v).
Proof. intros Hi. unfold subvec. by rewrite (proj2 (Nat.leb_le i _) Hi). Qed.

Lemma subvec_drop {X} i n (v : list X) :
  (i ≤ length v)%nat → n = length v → subvec i n v = Some (drop i v).
Proof.
  intros Hi ->. unfold subvec. rewrite (proj2 (Nat.leb_le i _) Hi), Nat.leb_refl. simpl.
  by rewrite take_ge.
Qed.

Lemma gather_bin b slots :
  bin_rep b slots →
  gather (Bottom b) = Some (SBottom (slot_entry <$> slots) (slot_lsn <$> slots) (keys_of slots)).
Proof.
  intros Hb. unfold gather. rewrite (bin_entries_len _ _ Hb).
  rewrite (mapM_seq _ slot_lsn) by (intros i s Hs; apply (bin_lookup _ _ _ _ Hb Hs)).
  cbn [mbind option_bind]. rewrite (br_entries _ _ Hb). do 2 f_equal.
  apply fmap_seq. intros i s Hs. by rewrite (get_full_key_spec _ _ _ Hb), Hs.
Qed.

(** A BIN rebuilt from whole slots. *)
Lemma settle_half_spec b0 P l max_len :
  lsn_rep l (slot_lsn <$> P) → bin_entries b0 = slot_entry <$> P → key_prefix b0 = [] →
  bin_keys b0 = from_keys (keys_of P) → bin_lsns b0 = l → compact_max_key_length b0 < 2 ^ 16 →
  max_len < 2 ^ 16 →
  ∃ b', settle_half prefixing max_len b0 = Some b' ∧ rekeyed b0 b' ∧ bin_rep b' P ∧
    (prefixing = false → key_prefix b' = []).
Proof.
  intros Hl He Hp Hk Hls Hm Hml.
  assert (bin_rep b0 P) as Hb.
  { split; rewrite ?Hp, ?Hk, ?Hls; try done; [apply Forall_true; intros; apply prefix_nil|].
    simpl. replace ((λ s : slot, drop 0 (slot_key s)) <$> P) with (keys_of P) by done. constructor. }
  unfold settle_half. destruct (prefixing && _) eqn:E.
  - destruct (recompute_key_prefix_spec b0 P Hb) as (b' & -> & Hr & Hb').
    exists b'. split_and!; try done. intros Hpf. by rewrite Hpf in E.
  - destruct (KeyRep_compact_spec _ _ max_len (br_keys _ _ Hb) Hml) as (ks & -> & Hks).
    cbn [mbind option_bind]. eexists. split; [done|]. split; [by eexists _, _|].
    split; [|done]. destruct Hb. by split.
Qed.

Abbreviation ilsn := (λ x : islot, x.1.2).
Abbreviation ichild := (λ x : islot, x.2).

Lemma gather_in n (xs : list islot) :
  in_node n xs → gather (Internal n) = Some (SInternal (ikey <$> xs) (ichild <$> xs) (ilsn <$> xs)).
Proof.
  intros [Hk Hl _ Hc _]. unfold gather. rewrite Hk, length_fmap.
  rewrite (mapM_seq _ ilsn) by (intros i x Hx; unfold get_lsn;
    by rewrite (LsnRep_get_spec _ _ _ Hl), list_lookup_fmap, Hx).
  cbn [mbind option_bind]. do 2 f_equal. apply fmap_seq. intros i x Hx. unfold get_child.
  by rewrite Hc, Hx.
Qed.

Lemma install_children_spec N cs : ∀ (n : InNodeStub ChildArc) i,
  targets_wf N (targets n) → Z.of_nat N ≤ 2 ^ 16 → (i + length cs ≤ N)%nat →
  ∃ t', install_children n i cs = Some (InNode.with_slots n (entries n) t' (lsns n)) ∧
    targets_wf N t' ∧
    ∀ j, TargetRep_get t' j =
         match (if (i <=? j)%nat then cs !! (j - i)%nat else None) with
         | Some (Some c) => Some c
         | _ => TargetRep_get (targets n) j
         end.
Proof.
  induction cs as [|c cs IH]; intros n i Hwf HN Hi; cbn [install_children].
  { exists (targets n). split; [by destruct n|]. split; [done|]. intros j.
    rewrite lookup_nil. by destruct (i <=? j)%nat. }
  assert (∃ t1, match c with Some _ => set_child n i c | None => Some n end =
                  Some (InNode.with_slots n (entries n) t1 (lsns n)) ∧ targets_wf N t1 ∧
                ∀ j, TargetRep_get t1 j = if decide (j = i) then
                       match c with Some c => Some c | None => TargetRep_get (targets n) j end
                     else TargetRep_get (targets n) j) as (t1 & -> & Hwf1 & Hg1).
  { destruct c as [c|]; [|exists (targets n); split; [by destruct n|]; split; [done|]; intros; by case_decide].
    unfold set_child. simpl in Hi.
    destruct (TargetRep_set_spec N (targets n) i (Some c)) as (t1 & -> & Hwf1 & Hg1); [done|lia|done|].
    by exists t1. }
  cbn [mbind option_bind].
  destruct (IH (InNode.with_slots n (entries n) t1 (lsns n)) (S i)) as (t2 & -> & Hwf2 & Hg2);
    [done|done|simpl in *; lia|].
  exists t2. split; [done|]. split; [done|]. intros j. rewrite Hg2. simpl targets. rewrite Hg1.
  destruct (Nat.leb_spec (S i) j), (Nat.leb_spec i j); try lia.
  - rewrite decide_False by lia. replace (j - i)%nat with (S (j - S i)) by lia. done.
  - replace j with i by lia. rewrite decide_True, Nat.sub_diag by done. by destruct c.
  - by rewrite decide_False by lia.
Qed.

(** A node rebuilt from whole slots. *)
Lemma rebuild_in_node (n : InNodeStub ChildArc) (xs : list islot) l :
  entries n = ikey <$> xs → targets n = TNone → lsn_rep l (ilsn <$> xs) →
  Z.of_nat (length xs) < 2 ^ 16 →
  ∃ t', install_children n 0 (ichild <$> xs) = Some (InNode.with_slots n (entries n) t' (lsns n)) ∧
    in_node (InNode.with_slots n (entries n) t' l) xs.
Proof.
  intros He Ht Hl Hu.
  destruct (install_children_spec (length xs) (ichild <$> xs) n 0) as (t' & -> & Hwf & Hg);
    [rewrite Ht; constructor|lia|by rewrite length_fmap|].
  exists t'. split; [done|]. split; simpl; try done. intros i. rewrite Hg, Nat.sub_0_r, Ht. simpl.
  rewrite list_lookup_fmap. destruct (xs !! i) as [x|]; [|done]. simpl. by destruct (x.2).
Qed.

Lemma split_index_bounds hint k ks :
  (2 ≤ length ks)%nat → (0 < split_index cmp hint k ks < length ks)%nat.
Proof.
  intros Hn. unfold split_index. rewrite (proj2 (Nat.leb_le _ _) Hn).
  assert (0 < length ks / 2 < length ks)%nat.
  { pose proof (Nat.div_lt (length ks) 2 ltac:(lia) ltac:(lia)).
    pose proof (Nat.div_le_lower_bound (length ks) 2 1 ltac:(lia) ltac:(lia)). lia. }
  destruct hint; [done|destruct (_ =? _)%nat; lia..].
Qed.

(** Both halves of a node with at least two entries: the child keeps the left
    one, the sibling has the right one, and the first key of the right half
    separates them. *)
Definition splits_at h lo hi (child : Node) slots (sp : nat) (nid : Z) : Prop :=
  ∃ all sep left right child' sib ss1 ss2,
    gather child = Some all ∧ se_len all = get_n_entries child ∧
    length (se_keys all) = get_n_entries child ∧ se_get_key all sp = Some sep ∧
    se_slice all 0 sp = Some left ∧ se_slice all sp (se_len all) = Some right ∧
    install_left prefixing child left = Some (Ok child') ∧
    new_sibling prefixing nid child right = Some sib ∧ slots = ss1 ++ ss2 ∧
    node_rep h lo (Some sep) child' ss1 ∧ node_rep h (Some sep) hi sib ss2 ∧
    gt_lo lo sep ∧ lt_hi hi sep ∧
    get_n_entries child' = sp ∧ get_n_entries sib = (get_n_entries child - sp)%nat.

(** The two parts of a sorted list around a slot. *)
Lemma sorted_halves lo hi slots sp s :
  key_sorted cmp (keys_of slots) → Forall (λ s, within lo hi (slot_key s)) slots →
  slots !! sp = Some s → (0 < sp)%nat →
  key_sorted cmp (keys_of (take sp slots)) ∧ key_sorted cmp (keys_of (drop sp slots)) ∧
  Forall (λ x, within lo (Some (slot_key s)) (slot_key x)) (take sp slots) ∧
  Forall (λ x, within (Some (slot_key s)) hi (slot_key x)) (drop sp slots) ∧
  gt_lo lo (slot_key s) ∧ lt_hi hi (slot_key s).
Proof.
  intros Hs Hw Hsp Hpos. rewrite (take_drop_keys slots sp) in Hs.
  apply sorted_app_iff in Hs as (H1 & H2 & H12).
  pose proof (Forall_take _ sp _ Hw) as Hw1. pose proof (Forall_drop _ sp _ Hw) as Hw2.
  rewrite (drop_S slots s sp Hsp) in H2, H12, Hw2 |- *.
  assert (∀ x, x ∈ take sp slots → cmp (slot_key x) (slot_key s) = Lt) as Hlt.
  { intros x Hx. apply H12; [apply list_elem_of_fmap; by exists x|left]. }
  split_and!; [done|done| | | |].
  - apply Forall_forall. intros x Hx. split; [by apply (proj1 (Forall_forall _ _) Hw1 x)|by apply Hlt].
  - apply StronglySorted_inv in H2 as [_ H2]. apply List.Forall_cons_iff in Hw2 as [Hws Hw2].
    apply List.Forall_cons.
    + split; [simpl; by rewrite (cmp_refl (slot_key s))|apply Hws].
    + apply Forall_forall. intros x Hx. split; [|by apply (proj1 (Forall_forall _ _) Hw2 x)].
      simpl. rewrite (proj1 (Forall_forall _ _) H2 (slot_key x)); [done|].
      apply list_elem_of_fmap. by exists x.
  - destruct slots as [|s0 slots]; [done|]. destruct sp as [|sp]; [lia|].
    apply (ge_lt_lo lo (slot_key s0)); [|apply Hlt; left].
    apply (proj1 (Forall_forall _ _) Hw s0). left.
  - apply List.Forall_cons_iff in Hw2 as [Hws _]. apply Hws.
Qed.

Lemma split_bin lo hi b slots sp nid :
  bin_ok lo hi b slots → (0 < sp < length slots)%nat → splits_at 0 lo hi (Bottom b) slots sp nid.
Proof.
  intros Hok Hsp. pose proof Hok as [Hb [Hd Hm] Hs Hl Hw Hu].
  destruct (lookup_lt_is_Some_2 slots sp ltac:(lia)) as [s Hsep].
  destruct (sorted_halves lo hi slots sp s Hs Hw Hsep ltac:(lia)) as (Hs1 & Hs2 & Hw1 & Hw2 & Hgt & Hlt).
  pose proof (Forall_take _ sp _ Hu) as Hu1. pose proof (Forall_drop _ sp _ Hu) as Hu2.
  destruct (from_lsns_spec (slot_lsn <$> take sp slots)) as (l1 & Hl1 & Hr1); [by apply Forall_fmap|].
  destruct (from_lsns_spec (slot_lsn <$> drop sp slots)) as (l2 & Hl2 & Hr2); [by apply Forall_fmap|].
  destruct (settle_half_spec (Bin.with_slots b [] (slot_entry <$> take sp slots)
              (from_keys (keys_of (take sp slots))) l1) (take sp slots) l1 (compact_max_key_length b))
    as (b1 & Hb1 & (p1 & ks1 & Hk1) & Hrep1 & Hp1); [done..|apply Hb|apply Hb|].
  destruct (settle_half_spec (sibling_bin nid (Bottom b) (slot_entry <$> drop sp slots)
              (keys_of (drop sp slots)) l2) (drop sp slots) l2 (compact_max_key_length b))
    as (b2 & Hb2 & (p2 & ks2 & Hk2) & Hrep2 & Hp2); [done..|apply Hb|apply Hb|].
  unfold splits_at; eexists _, (slot_key s), _, _, _, (Bottom b2), (take sp slots), (drop sp slots).
  rewrite (gather_bin _ _ Hb). split; [done|]. simpl get_n_entries. rewrite (bin_entries_len _ _ Hb).
  split; [simpl; by rewrite length_fmap|]. split; [simpl; by rewrite length_fmap|].
  split; [simpl; by rewrite list_lookup_fmap, Hsep|].
  split; [simpl; rewrite !subvec_take by (rewrite ?length_fmap; lia); done|].
  split; [simpl; rewrite !subvec_drop by (rewrite ?length_fmap; lia); done|].
  split; [simpl; rewrite <-!fmap_take, Hl1; cbn [mbind option_bind]; by rewrite Hb1|].
  split; [simpl; rewrite <-!fmap_drop, Hl2; cbn [mbind option_bind]; by rewrite Hb2|].
  split; [by rewrite take_drop|].
  split; [|split; [|split; [done|split; [done|split]]]].
  - eexists. split; [done|]. split; try done.
    + by apply bin_rep_with_state.
    + subst b1. split; [done|]. simpl. intros. by apply Hp1.
    + rewrite length_take. lia.
  - eexists. split; [done|]. split; try done.
    + subst b2. split; [done|]. simpl. intros. by apply Hp2.
    + rewrite length_drop. lia.
  - simpl. subst b1. simpl. rewrite length_fmap, length_take. lia.
  - simpl. subst b2. simpl. by rewrite length_fmap, length_drop.
Qed.

Lemma split_in h lo hi child slots sp nid :
  Z.of_nat max < 2 ^ 16 → node_rep (S h) lo hi child slots → (0 < sp < get_n_entries child)%nat →
  splits_at (S h) lo hi child slots sp nid.
Proof.
  intros Hmax (n & xs & sss & -> & Hn & Hlen & Hu & Hc & ->) Hsp. pose proof Hn as [Hk _ _ _ _].
  simpl get_n_entries in Hsp. rewrite Hk, length_fmap in Hsp.
  destruct (lookup_lt_is_Some_2 xs sp ltac:(lia)) as [x Hx].
  assert (length (take sp xs) = sp) as Hlt by (rewrite length_take; lia).
  pose proof Hc as Hc'. rewrite <-(take_drop sp xs), (drop_S xs x sp Hx) in Hc'.
  apply children_split in Hc' as (s1 & s2 & -> & _ & Hc1 & Hc2 & Hg & Hh);
    [|intros Hnil; rewrite Hnil in Hlt; simpl in Hlt; lia].
  rewrite <-(drop_S xs x sp Hx) in Hc2.
  pose proof (Forall_take _ sp _ Hu) as Hu1. pose proof (Forall_drop _ sp _ Hu) as Hu2.
  destruct (from_lsns_spec (ilsn <$> take sp xs)) as (l1 & Hl1 & Hr1); [by apply Forall_fmap|].
  destruct (from_lsns_spec (ilsn <$> drop sp xs)) as (l2 & Hl2 & Hr2); [by apply Forall_fmap|].
  assert (length (drop sp xs) = length xs - sp)%nat as Hld by by rewrite length_drop.
  destruct (rebuild_in_node (InNode.with_slots n (ikey <$> take sp xs) TNone (lsns n)) (take sp xs) l1)
    as (t1 & Hi1 & Hn1); [done|done|done|lia|].
  destruct (rebuild_in_node (sibling_in nid (Internal n) (ikey <$> drop sp xs) l2) (drop sp xs) l2)
    as (t2 & Hi2 & Hn2); [done|done|done|lia|].
  unfold splits_at. eexists _, (ikey x), _, _, _, _, (concat s1), (concat s2).
  rewrite (gather_in _ _ Hn). split; [done|]. simpl get_n_entries. rewrite Hk, length_fmap.
  split; [simpl; by rewrite length_fmap|]. split; [simpl; by rewrite length_fmap|].
  split; [simpl; by rewrite list_lookup_fmap, Hx|].
  split; [simpl; rewrite !subvec_take by (rewrite ?length_fmap; lia); done|].
  split; [simpl; rewrite !subvec_drop by (rewrite ?length_fmap; lia); done|].
  split; [simpl; rewrite <-!fmap_take, Hl1; cbn [mbind option_bind]; by rewrite Hi1|].
  split; [simpl; rewrite <-!fmap_drop, Hl2; cbn [mbind option_bind]; by rewrite Hi2|].
  split; [by rewrite concat_app|].
  split; [|split; [|split; [done|split; [done|split]]]].
  - eexists _, (take sp xs), s1. split; [done|]. split; [|split; [lia|done]].
    destruct Hn1. by split.
  - eexists _, (drop sp xs), s2. split; [done|]. split; [done|]. split; [lia|done].
  - simpl. by rewrite length_fmap.
  - simpl. by rewrite length_fmap.
Qed.

Lemma split_node h lo hi child slots sp nid :
  Z.of_nat max < 2 ^ 16 → node_rep h lo hi child slots → (0 < sp < get_n_entries child)%nat →
  splits_at h lo hi child slots sp nid.
Proof.
  intros Hmax Hrep Hsp. destruct h as [|h]; [|by apply split_in].
  destruct Hrep as (b & -> & Hok). apply split_bin; [done|].
  simpl in Hsp. by rewrite (bin_entries_len _ _ (bo_rep _ _ _ _ Hok)) in Hsp.
Qed.

(** ** The child on the way to a key *)

Record at_child h lo hi k (n : InNodeStub ChildArc) slots (xs : list islot) sss l1 x l2 s1 ss s2
    lo' hi' (c : Node) : Prop := {
  ac_in : in_node n xs;
  ac_len : (length xs ≤ max)%nat;
  ac_u64 : Forall (λ x : islot, in_u 64 x.1.2) xs;
  ac_focus : focus (node_rep h) lo hi k xs sss l1 x l2 s1 ss s2 lo' hi' c;
  ac_child : x.2 = Some (Arc c);
  ac_slots : slots = concat sss;
}.

Lemma at_child_around h lo hi k n slots xs sss l1 x l2 s1 ss s2 lo' hi' c :
  at_child h lo hi k n slots xs sss l1 x l2 s1 ss s2 lo' hi' c →
  slots = concat s1 ++ ss ++ concat s2 ∧ around k (concat s1) (concat s2).
Proof.
  intros [_ _ _ [_ -> _ _ _ _ _ _ _ Hb Ha] _ ->]. rewrite concat_app. split; [done|by split].
Qed.

Lemma at_child_get h lo hi k n slots xs sss l1 x l2 s1 ss s2 lo' hi' c :
  at_child h lo hi k n slots xs sss l1 x l2 s1 ss s2 lo' hi' c →
  route cmp k (entries n) = length l1 ∧ get_child n (length l1) = Some (Arc c) ∧
  length (entries n) = length xs.
Proof.
  intros [Hn _ _ Hf Hc _]. pose proof Hn as [Hk _ _ Hg _]. rewrite Hk, length_fmap. split_and!.
  - by eapply focus_route.
  - unfold get_child. rewrite Hg, (fo_xs _ _ _ _ _ _ _ _ _ _ _ _ _ _ _ Hf), list_lookup_middle by done.
    done.
  - done.
Qed.

Lemma at_child_rep h lo hi k n slots xs sss l1 x l2 s1 ss s2 lo' hi' c :
  at_child h lo hi k n slots xs sss l1 x l2 s1 ss s2 lo' hi' c →
  node_rep (S h) lo hi (Internal n) slots.
Proof.
  intros [Hn Hlen Hu Hf Hc ->]. exists n, xs, sss. split; [done|]. split; [done|]. split; [done|].
  split; [done|]. split; [|done]. destruct Hf as [-> -> _ _ _ Hnode Hrep _ Hclose _ _].
  apply (Hclose [x] [ss]); [by exists c|done].
Qed.

(** A changed child goes back into its slot. *)
Lemma at_child_put h lo hi k n slots xs sss l1 x l2 s1 ss s2 lo' hi' c c' ss' :
  at_child h lo hi k n slots xs sss l1 x l2 s1 ss s2 lo' hi' c → node_rep h lo' hi' c' ss' →
  ∃ n', set_child n (length l1) (Some (Arc c')) = Some n' ∧ entries n' = entries n ∧
    at_child h lo hi k n' (concat s1 ++ ss' ++ concat s2) (l1 ++ (x.1, Some (Arc c')) :: l2)
      (s1 ++ ss' :: s2) l1 (x.1, Some (Arc c')) l2 s1 ss' s2 lo' hi' c'.
Proof.
  intros [Hn Hlen Hu Hf Hc _] Hrep. destruct Hf as [-> _ Hl Hleft Hright _ _ Hwit Hclose Hb Ha].
  destruct (set_child_spec n _ (length l1) x (Some (Arc c')) Hn) as (n' & Hset & Hn');
    [by rewrite list_lookup_middle|].
  rewrite insert_app_r_alt, Nat.sub_diag in Hn' by done. simpl in Hn'.
  exists n'. split; [done|]. split.
  { rewrite (in_keys _ _ Hn), (in_keys _ _ Hn'). by rewrite !fmap_app. }
  rewrite Forall_app, Forall_cons in Hu. split; try done.
  - rewrite length_app in *. done.
  - rewrite Forall_app, Forall_cons. done.
  - split; try done. destruct l1 as [|y l1]; [done|]. simpl in *.
    apply Forall_app in Hleft as [H1 H2]. apply Forall_app. split; [done|].
    apply List.Forall_cons_iff in H2 as [H2 _]. apply List.Forall_cons; [done|constructor].
  - by rewrite concat_app.
Qed.
End rep.

(** ** Descents *)

Section descent.
Context (t : Tree) `{HK : !KeyOrder (order_of (key_comparator t))}.
Implicit Types (lo hi : option key) (k : key) (slots ss : list slot).

Abbreviation cmp := (order_of (key_comparator t)).
Abbreviation bin_here :=
  (bin_ok (max_entries_per_node t) (key_comparator t) (tree_key_prefixing t)).
Abbreviation rep :=
  (node_rep (max_entries_per_node t) (key_comparator t) (tree_key_prefixing t) (log_manager t)).
Abbreviation on_child :=
  (at_child (max_entries_per_node t) (key_comparator t) (tree_key_prefixing t) (log_manager t)).
Abbreviation inside := (within (key_comparator t)).

(** Every descent finds the same slot, and its child once it is fetched. *)
Lemma descend h lo hi k node slots :
  rep (S h) lo hi node slots → inside lo hi k →
  ∃ n n' c xs sss l1 x l2 s1 ss s2 lo' hi',
    node = Internal n ∧ route (key_cmp t) k (entries n) = length l1 ∧
    upper_in_floor_index t (entries n) k = Some (length l1) ∧ entries n <> [] ∧
    child_at_or_fetch t node (length l1) = Some (Internal n', Some (Arc c)) ∧
    entries n' = entries n ∧ (get_child n (length l1) = None ∨ n' = n) ∧
    on_child h lo hi k n' slots xs sss l1 x l2 s1 ss s2 lo' hi' c.
Proof.
  intros (n & xs & sss & -> & Hn & Hlen & Hu & Hc & ->) Hk.
  destruct (children_focus _ _ _ _ _ _ k xs sss (node_rep_within _ _ _ _ h) Hc Hk)
    as (l1 & x & l2 & s1 & ss & s2 & lo' & hi' & c & Hf).
  pose proof (focus_route _ _ _ _ _ _ _ _ _ _ _ _ _ _ _ _ _ _ Hf) as Hroute.
  pose proof Hn as [Hkeys Hlsns _ Hg _].
  assert (entries n <> []) as Hne.
  { rewrite Hkeys, (fo_xs _ _ _ _ _ _ _ _ _ _ _ _ _ _ _ _ _ _ Hf). by destruct l1. }
  assert (upper_in_floor_index t (entries n) k = Some (length l1)) as Hfloor.
  { unfold upper_in_floor_index. rewrite Hkeys, <-Hroute. destruct xs as [|x0 xs]; [done|].
    rewrite length_fmap. destruct xs as [|x1 xs]; [done|]. simpl length. simpl Nat.leb.
    rewrite fmap_cons at 1. cbn [drop]. by eapply routes_agree. }
  destruct (decide (x.2 = None)) as [Hnone|Hsome].
  - (* the child is fetched *)
    pose proof (fo_node _ _ _ _ _ _ _ _ _ _ _ _ _ _ _ _ _ _ Hf) as Hres.
    unfold resolves in Hres. rewrite Hnone in Hres. destruct Hres as (lg & Hlg & Hfetch).
    destruct Hf as [-> -> Hl Hleft Hright Hnode Hrep Hwit Hclose Hb Ha].
    assert (get_child n (length l1) = None) as Hget.
    { unfold get_child. by rewrite Hg, list_lookup_middle. }
    destruct (set_child_spec n _ (length l1) x (Some (Arc c)) Hn) as (n' & Hset & Hn');
      [by rewrite list_lookup_middle|].
    rewrite insert_app_r_alt, Nat.sub_diag in Hn' by done. simpl in Hn'.
    eexists n, n', c, _, _, l1, (x.1, Some (Arc c)), l2, s1, ss, s2, lo', hi'.
    split; [done|]. split; [by rewrite Hkeys|]. split; [done|]. split; [done|]. split; [|split; [|split]].
    + simpl. rewrite Hget, Hkeys, length_fmap, (proj2 (Nat.leb_gt _ _)) by (rewrite length_app; simpl; lia).
      unfold get_lsn. rewrite (LsnRep_get_spec _ _ _ Hlsns), list_lookup_fmap, list_lookup_middle by done.
      cbn [mbind option_bind]. simpl default. unfold tree_fetch_node. rewrite Hlg, Hfetch.
      cbn [mbind option_bind]. by rewrite Hset.
    + rewrite (in_keys _ _ Hn), (in_keys _ _ Hn'). by rewrite !fmap_app.
    + by left.
    + rewrite Forall_app, Forall_cons in Hu. split; try done.
      * rewrite length_app in *. done.
      * rewrite Forall_app, Forall_cons. done.
      * split; try done. destruct l1 as [|y l1]; [done|]. simpl in *.
        apply Forall_app in Hleft as [H1 H2]. apply Forall_app. split; [done|].
        apply List.Forall_cons_iff in H2 as [H2 _]. apply List.Forall_cons; [done|constructor].
  - assert (x.2 = Some (Arc c)) as Hx2.
    { pose proof (fo_node _ _ _ _ _ _ _ _ _ _ _ _ _ _ _ _ _ _ Hf) as Hres. unfold resolves in Hres.
      destruct x.2 as [[nd]|]; [by subst|done]. }
    exists n, n, c, xs, sss, l1, x, l2, s1, ss, s2, lo', hi'.
    assert (on_child h lo hi k n (concat sss) xs sss l1 x l2 s1 ss s2 lo' hi' c) as Hac by by split.
    destruct (at_child_get _ _ _ _ _ _ _ _ _ _ _ _ _ _ _ _ _ _ _ _ _ Hac) as (Hr & Hget & _).
    split; [done|]. split; [done|]. split; [done|]. split; [done|].
    split; [simpl; by rewrite Hget|]. split; [done|]. split; [by right|done].
Qed.

(** What an operation on the BIN of a key does to the tree: a relation between
    the slots before and after and the answer, or a function. *)
Definition bin_does_rel {X} (k : key) (f : BinStub → option (BinStub * X))
    (R : list slot → list slot → X → Prop) : Prop :=
  ∀ lo hi b slots, inside lo hi k → bin_here lo hi b slots →
    ∃ b' slots' x, f b = Some (b', x) ∧ bin_here lo hi b' slots' ∧ R slots slots' x.

Definition bin_does {X} (k : key) (f : BinStub → option (BinStub * X)) (op : list slot → list slot * X)
    : Prop :=
  ∀ lo hi b slots, inside lo hi k → bin_here lo hi b slots →
    ∃ b', f b = Some (b', (op slots).2) ∧ bin_here lo hi b' (op slots).1.

Lemma at_parent_bin_rel {X} k (f : BinStub → option (BinStub * X)) R :
  local_rel (key_comparator t) k R → bin_does_rel k f R →
  ∀ h fuel lo hi node slots, (h < fuel)%nat → rep h lo hi node slots → inside lo hi k →
  ∃ node' slots' x, at_parent_bin fuel t node k f = Some (node', Some x) ∧
    rep h lo hi node' slots' ∧ R slots slots' x.
Proof.
  intros Hloc Hf. induction h as [|h IH]; intros [|fuel] lo hi node slots Hfuel Hrep Hk; try lia.
  - destruct Hrep as (b & -> & Hok). destruct (Hf lo hi b slots Hk Hok) as (b' & slots' & x & Hb & Hok' & HR).
    exists (Bottom b'), slots', x. split; [simpl; by rewrite Hb|]. split; [by exists b'|done].
  - destruct (descend h lo hi k node slots Hrep Hk)
      as (n & n' & c & xs & sss & l1 & x & l2 & s1 & ss & s2 & lo' & hi' & -> & _ & Hfl & Hne & Hch & _ & _ & Hac).
    destruct (at_child_around _ _ _ _ _ _ _ _ _ _ _ _ _ _ _ _ _ _ _ _ _ Hac) as [-> Har].
    pose proof (ac_focus _ _ _ _ _ _ _ _ _ _ _ _ _ _ _ _ _ _ _ _ _ Hac) as [_ _ _ _ _ _ Hrc Hwit _ _ _].
    destruct (IH fuel lo' hi' c ss ltac:(lia) Hrc Hwit) as (c' & ss' & r & Hc' & Hrep' & HR).
    destruct (at_child_put _ _ _ _ _ _ _ _ _ _ _ _ _ _ _ _ _ _ _ _ _ _ _ Hac Hrep')
      as (n2 & Hset & _ & Hac2).
    cbn [at_parent_bin]. rewrite bool_decide_false, Hfl by done. cbn [mbind option_bind].
    rewrite Hch. cbn [mbind option_bind]. rewrite Hc'. cbn [mbind option_bind]. rewrite Hset.
    cbn [mbind option_bind]. eexists _, _, r. split; [done|].
    split; [by eapply at_child_rep|by apply Hloc].
Qed.

Lemma at_parent_bin_spec {X} k (f : BinStub → option (BinStub * X)) op :
  local (key_comparator t) k op → bin_does k f op →
  ∀ h fuel lo hi node slots, (h < fuel)%nat → rep h lo hi node slots → inside lo hi k →
  ∃ node', at_parent_bin fuel t node k f = Some (node', Some (op slots).2) ∧
    rep h lo hi node' (op slots).1.
Proof.
  intros Hloc Hf h fuel lo hi node slots Hfuel Hrep Hk.
  destruct (at_parent_bin_rel k f (λ l l' x, op l = (l', x))) with (h := h) (fuel := fuel) (lo := lo) (hi := hi)
    (node := node) (slots := slots) as (node' & slots' & x & He & Hrep' & Hop); try done.
  - intros A B C B' y Har HB. by rewrite (Hloc A B C Har), HB.
  - intros lo0 hi0 b l Hk0 Hok. destruct (Hf lo0 hi0 b l Hk0 Hok) as (b' & Hb & Hok').
    eexists _, _, _. split; [done|]. split; [done|]. by destruct (op l).
  - exists node'. by rewrite Hop.
Qed.

Lemma delete_recursive_spec k : ∀ h fuel lo hi node slots,
  (h < fuel)%nat → rep h lo hi node slots → inside lo hi k →
  ∃ node', delete_recursive fuel t node k = Some (node', (abs_delete cmp slots k).2) ∧
    rep h lo hi node' (abs_delete cmp slots k).1.
Proof.
  induction h as [|h IH]; intros [|fuel] lo hi node slots Hfuel Hrep Hk; try lia.
  - destruct Hrep as (b & -> & Hok). destruct (bin_delete _ _ _ lo hi b slots k Hok) as (b' & Hb & Hok').
    exists (Bottom b'). split; [simpl; by rewrite Hb|]. by exists b'.
  - destruct (descend h lo hi k node slots Hrep Hk)
      as (n & n' & c & xs & sss & l1 & x & l2 & s1 & ss & s2 & lo' & hi' & -> & Hr & _ & Hne & Hch & _ & _ & Hac).
    destruct (at_child_around _ _ _ _ _ _ _ _ _ _ _ _ _ _ _ _ _ _ _ _ _ Hac) as [-> Har].
    pose proof (ac_focus _ _ _ _ _ _ _ _ _ _ _ _ _ _ _ _ _ _ _ _ _ Hac) as [_ _ _ _ _ _ Hrc Hwit _ _ _].
    destruct (IH fuel lo' hi' c ss ltac:(lia) Hrc Hwit) as (c' & Hc' & Hrep').
    destruct (at_child_put _ _ _ _ _ _ _ _ _ _ _ _ _ _ _ _ _ _ _ _ _ _ _ Hac Hrep')
      as (n2 & Hset & _ & Hac2).
    cbn [delete_recursive]. rewrite Hr, Hch. cbn [mbind option_bind]. rewrite Hc'.
    cbn [mbind option_bind]. rewrite Hset. cbn [mbind option_bind].
    rewrite (delete_local _ k _ _ _ Har). eexists. split; [done|]. by eapply at_child_rep.
Qed.

(** ** The operations on the BIN of a key *)

Lemma mark_does k lsn pending :
  in_u 64 lsn →
  bin_does k (λ b, mark_deleted_in_bin (key_comparator t) b k lsn pending)
    (λ slots, abs_mark cmp slots k lsn pending).
Proof. intros Hlsn lo hi b slots _ Hok. by apply bin_mark. Qed.

Lemma look_does {X} k (f : BinStub → option X) (g : option slot → X) :
  (∀ lo hi b slots, bin_here lo hi b slots →
     f b = Some (g (abs_find (cmp := cmp) slots k))) →
  bin_does k (λ b, r ← f b; Some (b, r)) (abs_look (key_comparator t) k g).
Proof.
  intros Hf lo hi b slots _ Hok. exists b. rewrite (Hf lo hi b slots Hok). done.
Qed.

Lemma slot_lsn_does k :
  bin_does k (λ b, r ← slot_lsn_in_bin (key_comparator t) b k; Some (b, r))
    (abs_look (key_comparator t) k (fmap (λ s, (slot_lsn s, is_deleted (slot_entry s))))).
Proof.
  apply look_does. intros lo hi b slots Hok. unfold slot_lsn_in_bin.
  destruct (bin_find _ _ _ lo hi b slots k Hok) as (i & -> & Hi). cbn [mbind option_bind].
  destruct (ref_search _ _) as [j|j].
  - destruct Hi as (-> & s & _ & -> & He & Hl). rewrite bool_decide_true by done. by rewrite Hl, He.
  - rewrite Hi. by rewrite bool_decide_false by (by intros []).
Qed.

Lemma advance_does k lsn :
  valid_lsn lsn →
  bin_does k (λ b, redo_advance_in_bin (key_comparator t) b k lsn) (abs_advance (key_comparator t) k lsn).
Proof.
  intros Hlsn lo hi b slots _ Hok. pose proof Hok as [Hb Hm Hs Hl Hw Hu].
  unfold redo_advance_in_bin, abs_advance.
  destruct (bin_find _ _ _ lo hi b slots k Hok) as (i & -> & Hi). cbn [mbind option_bind].
  destruct (ref_search _ _) as [j|j].
  2:{ rewrite Hi, bool_decide_false by (by intros []). by exists b. }
  destruct Hi as (-> & s & Hsi & -> & He & Hls). rewrite bool_decide_true by done.
  rewrite Hsi, He, Hls. cbn [mbind option_bind negb]. cbn zeta.
  destruct (is_deleted (slot_entry s)); [|by exists b]. cbn [negb andb].
  assert (in_u 64 (slot_lsn s)) as Hus.
  { apply (proj1 (Forall_forall _ _) Hu s). by eapply list_elem_of_lookup_2. }
  assert ((if is_null (slot_lsn s) then Some false
           else c ← lsn_cmp lsn (slot_lsn s); Some (match c with Gt => false | _ => true end)) =
          Some (negb (is_null (slot_lsn s) || (slot_lsn s <? lsn)))) as Hcmp.
  { destruct (is_null (slot_lsn s)) eqn:En; [done|]. rewrite lsn_cmp_compare by (first [done|by apply valid_lsn_u64]).
    rewrite (proj2 (valid_lsn_u64 lsn Hlsn)), En. simpl. f_equal.
    destruct (Z.compare_spec lsn (slot_lsn s)), (Z.ltb_spec (slot_lsn s) lsn); simpl; try done; lia. }
  rewrite Hcmp. cbn [mbind option_bind]. destruct (_ || _); simpl negb; cbn iota; [|by exists b].
  destruct (rewrite_slot_spec b slots i s lsn
    {| data := data (slot_entry s); known_deleted := known_deleted (slot_entry s);
       pending_deleted := pending_deleted (slot_entry s); e_dirty := true;
       expiration_time := expiration_time (slot_entry s) |} Hb Hsi) as (ls & -> & Hb').
  { by apply valid_lsn_u64. }
  cbn [mbind option_bind]. eexists. split; [done|].
  apply (bin_ok_rewrite _ _ _ lo hi b); try done; [by apply valid_lsn_u64|by apply bin_rep_with_state].
Qed.

(** What a search answers for the slot of its key. *)
Definition slot_answers (s : option slot) (f : SlotFetch) : Prop :=
  sf_kd_lsn f = (s ≫= λ s, if is_deleted (slot_entry s) then Some (slot_lsn s) else None) ∧
  if sf_found f then
    ∃ s', s = Some s' ∧ is_deleted (slot_entry s') = false ∧
      sf_data f = data (slot_entry s') ∧ sf_lsn f = slot_lsn s'
  else sf_data f = None ∧
    (∀ s', s = Some s' → is_deleted (slot_entry s') = false → sf_expired_slot f <> None).

Lemma search_does now k :
  bin_does_rel k (λ b, r ← search_in_bin (key_comparator t) now b k; Some (b, r))
    (λ slots slots' f, slots' = slots ∧ slot_answers (abs_find (cmp := cmp) slots k) f).
Proof.
  intros lo hi b slots _ Hok. unfold search_in_bin.
  destruct (bin_find _ _ _ lo hi b slots k Hok) as (i & -> & Hi). cbn [mbind option_bind].
  destruct (ref_search _ _) as [j|j].
  - destruct Hi as (-> & s & _ & -> & He & Hl). rewrite bool_decide_true by done. rewrite He, Hl.
    cbn [mbind option_bind]. eexists _, _, _. split; [done|]. split; [done|]. split; [done|].
    unfold slot_is_live, slot_expired_not_deleted. rewrite He.
    destruct (is_deleted (slot_entry s)) eqn:Ed; cbn [orb andb negb].
    + split; cbn [sf_kd_lsn sf_found sf_data sf_lsn sf_expired_slot mbind option_bind]; rewrite ?Ed; [done|]. split; [done|]. intros s' [= <-]. congruence.
    + destruct (slot_expired b now (slot_entry s)); cbn [negb].
      * split; cbn [sf_kd_lsn sf_found sf_data sf_lsn sf_expired_slot mbind option_bind]; rewrite ?Ed; [done|]. split; [done|]. by intros s' _ _.
      * split; cbn [sf_kd_lsn sf_found sf_data sf_lsn sf_expired_slot mbind option_bind]; rewrite ?Ed; [done|]. by exists s.
  - rewrite Hi, bool_decide_false by (by intros []). eexists _, _, _.
    split; [done|]. split; [done|]. split; [done|]. split; [done|]. by split.
Qed.

Lemma search_local k :
  local_rel (key_comparator t) k
    (λ slots slots' f, slots' = slots ∧ slot_answers (abs_find (cmp := cmp) slots k) f).
Proof. intros A B C B' f Har [-> Hf]. by rewrite (find_local _ k A B C Har). Qed.

(** ** Expiration *)

Lemma expire_does k hours :
  bin_does k (λ b, expire_in_bin (key_comparator t) b k hours) (abs_expire (key_comparator t) k hours).
Proof.
  intros lo hi b slots _ Hok. pose proof Hok as [Hb Hm Hs Hl Hw Hu]. unfold expire_in_bin, abs_expire.
  destruct (bin_find _ _ _ lo hi b slots k Hok) as (i & -> & Hi). cbn [mbind option_bind].
  destruct (ref_search _ _) as [j|j].
  2:{ rewrite Hi, bool_decide_false by (by intros []). by exists b. }
  destruct Hi as (-> & s & Hsi & -> & He & Hls). rewrite bool_decide_true by done.
  rewrite Hsi, He. cbn zeta. eexists. split; [done|].
  apply (bin_ok_rewrite _ _ _ lo hi b); try done.
  - apply (proj1 (Forall_forall _ _) Hu s). by eapply list_elem_of_lookup_2.
  - destruct Hb as [Hp Hk Hes Hlsn Hc]. split; simpl; try done.
    + apply Forall_insert; [done|]. cbn. apply (proj1 (Forall_forall _ _) Hp s).
      by eapply list_elem_of_lookup_2.
    + rewrite list_fmap_insert, list_insert_id; [done|]. by rewrite list_lookup_fmap, Hsi.
    + by rewrite Hes, list_fmap_insert.
    + rewrite list_fmap_insert, list_insert_id; [done|]. by rewrite list_lookup_fmap, Hsi.
Qed.

(** The descent stops at a child that is not in memory. *)
Lemma expire_recursive_spec k hours : ∀ h fuel lo hi node slots,
  (h < fuel)%nat → rep h lo hi node slots → inside lo hi k →
  ∃ node' slots' b, expire_recursive fuel t node k hours = Some (node', b) ∧ rep h lo hi node' slots' ∧
    (slots' = slots ∧ b = false ∨ abs_expire (key_comparator t) k hours slots = (slots', b)).
Proof.
  induction h as [|h IH]; intros [|fuel] lo hi node slots Hfuel Hrep Hk; try lia.
  - destruct Hrep as (b & -> & Hok). destruct (expire_does k hours lo hi b slots Hk Hok) as (b' & Hb & Hok').
    eexists (Bottom b'), _, _. split; [simpl; by rewrite Hb|]. split; [by exists b'|].
    right. by destruct (abs_expire _ _ _ _).
  - destruct (descend h lo hi k node slots Hrep Hk)
      as (n & n' & c & xs & sss & l1 & x & l2 & s1 & ss & s2 & lo' & hi' & -> & _ & Hfl & Hne & Hch & _ & Hsame & Hac).
    cbn [expire_recursive]. rewrite bool_decide_false, Hfl by done. cbn [mbind option_bind].
    destruct (get_child n (length l1)) as [[c0]|] eqn:Hget.
    2:{ eexists _, slots, false. split; [done|]. split; [done|]. by left. }
    destruct Hsame as [Hsame| ->]; [done|].
    destruct (at_child_get _ _ _ _ _ _ _ _ _ _ _ _ _ _ _ _ _ _ _ _ _ Hac) as (_ & Hget' & _).
    rewrite Hget in Hget'. injection Hget' as ->.
    destruct (at_child_around _ _ _ _ _ _ _ _ _ _ _ _ _ _ _ _ _ _ _ _ _ Hac) as [-> Har].
    pose proof (ac_focus _ _ _ _ _ _ _ _ _ _ _ _ _ _ _ _ _ _ _ _ _ Hac) as [_ _ _ _ _ _ Hrc Hwit _ _ _].
    destruct (IH fuel lo' hi' c ss ltac:(lia) Hrc Hwit) as (c' & ss' & r & Hc' & Hrep' & HR).
    destruct (at_child_put _ _ _ _ _ _ _ _ _ _ _ _ _ _ _ _ _ _ _ _ _ _ _ Hac Hrep')
      as (n2 & Hset & _ & Hac2).
    rewrite Hc'. cbn [mbind option_bind]. rewrite Hset. cbn [mbind option_bind].
    eexists _, _, r. split; [done|]. split; [by eapply at_child_rep|].
    destruct HR as [[-> ->]|HR]; [by left|right].
    by rewrite (expire_local _ k hours _ _ _ Har), HR.
Qed.

(** ** Splits on the way down *)

Hypothesis Hmax : (3 ≤ max_entries_per_node t)%nat ∧ Z.of_nat (max_entries_per_node t) < 2 ^ 16.

Lemma tail_app_last {X} (l1 : list X) x y : tail ((l1 ++ [x]) ++ [y]) = tail (l1 ++ [x]) ++ [y].
Proof. by destruct l1. Qed.

Lemma tail_map_last (P : islot → Prop) l1 x x' :
  (P x → P x') → Forall P (tail (l1 ++ [x])) → Forall P (tail (l1 ++ [x'])).
Proof.
  intros Hx. destruct l1 as [|y l1]; [done|]. simpl. rewrite !Forall_app. intros [H1 H2].
  split; [done|]. apply List.Forall_cons_iff in H2 as [H2 _]. apply List.Forall_cons; [auto|constructor].
Qed.

Lemma split_child_spec h lo hi k n slots xs sss l1 x l2 s1 ss s2 lo' hi' c nid hint ik :
  on_child h lo hi k n slots xs sss l1 x l2 s1 ss s2 lo' hi' c →
  get_n_entries c = max_entries_per_node t → (length xs < max_entries_per_node t)%nat →
  ik = [] ∨ ik = k →
  ∃ n', split_child t nid (Internal n) (length l1) hint ik = Some (nid + 1, Internal n', Ok ()) ∧
    rep (S h) lo hi (Internal n') slots ∧ length (entries n') = S (length (entries n)) ∧
    ∃ c', get_child n' (route (key_cmp t) k (entries n')) = Some (Arc c') ∧
      (get_n_entries c' < max_entries_per_node t)%nat.
Proof.
  intros Hac Hfull Hroom Hik.
  pose proof (at_child_rep _ _ _ _ _ _ _ _ _ _ _ _ _ _ _ _ _ _ _ _ _ Hac) as Hrep.
  destruct (at_child_get _ _ _ _ _ _ _ _ _ _ _ _ _ _ _ _ _ _ _ _ _ Hac) as (Hr & Hget & Hlen).
  pose proof Hac as [Hn _ Hu [Hxs Hsss Hl Hleft Hright Hnode Hrc Hwit Hclose Hb Ha] Hc Hslots].
  (* the slot that is split *)
  assert ((if bool_decide (ik = []) then Some (length l1)
           else match entries n with
                | [] => None
                | _ :: es => partition_point (not_greater (key_cmp t) ik) es
                end) = Some (length l1)) as Hidx.
  { case_bool_decide; [done|]. destruct Hik as [| ->]; [done|].
    destruct Hrep as (n0 & xs' & sss' & Hn0 & Hn' & _ & _ & Hch & _). injection Hn0 as <-.
    rewrite <-Hr, (in_keys _ _ Hn'). destruct xs' as [|x0 xs']; [by destruct sss'|].
    rewrite fmap_cons. by eapply routes_agree. }
  (* the two halves *)
  destruct (split_node (max_entries_per_node t) (key_comparator t) (tree_key_prefixing t) (log_manager t) h lo' hi' c ss 1 nid) as (all & _ & _ & _ & _ & _ & _ & _ & Hg & Hsl & Hkl & _);
    [lia|done|lia|].
  set (sp := split_index cmp hint ik (se_keys all)).
  assert (0 < sp < get_n_entries c)%nat as Hsp.
  { unfold sp. rewrite <-Hkl. apply split_index_bounds. lia. }
  destruct (split_node (max_entries_per_node t) (key_comparator t) (tree_key_prefixing t) (log_manager t) h lo' hi' c ss sp nid)
    as (all' & sep & lft & rgt & c1 & c2 & ss1 & ss2 & Hg' & _ & _ & Hsep & Hsl1 & Hsl2 & Hin & Hsib &
        Hss & Hrep1 & Hrep2 & Hgt & Hlt & Hn1 & Hn2); [lia|done|done|].
  rewrite Hg in Hg'. injection Hg' as <-.
  (* the parent *)
  destruct (set_child_spec n xs (length l1) x (Some (Arc c1)) Hn) as (p1 & Hset & Hp1);
    [by rewrite Hxs, list_lookup_middle|].
  rewrite Hxs, insert_app_r_alt, Nat.sub_diag in Hp1 by done. simpl in Hp1.
  rewrite Hxs, length_app in Hroom. simpl in Hroom.
  destruct (insert_entry_spec p1 _ (S (length l1)) sep NULL_LSN (Some (Arc c2)) Hp1)
    as (p2 & Hins & Hp2); [rewrite length_app; simpl; lia|rewrite length_app; simpl; lia|by vm_compute|].
  assert (∀ y z : islot, take (S (length l1)) (l1 ++ y :: l2) ++ z :: drop (S (length l1)) (l1 ++ y :: l2)
          = l1 ++ y :: z :: l2) as Hmid.
  { intros y z. replace (l1 ++ y :: l2) with ((l1 ++ [y]) ++ l2) by by rewrite <-app_assoc.
    rewrite take_app_length', drop_app_length' by (rewrite length_app; simpl; lia).
    by rewrite <-app_assoc. }
  rewrite Hmid in Hp2. set (x1 := (x.1, Some (Arc c1)) : islot) in *.
  set (x2 := (sep, NULL_LSN, Some (Arc c2)) : islot) in *.
  exists (set_in_dirty p2 true).
  assert (entries (set_in_dirty p2 true) = ikey <$> l1 ++ x1 :: x2 :: l2) as Hkeys2 by apply Hp2.
  split; [|split; [|split]].
  - unfold split_child. rewrite Hidx. cbn [mbind option_bind]. rewrite Hget, Hfull, Nat.ltb_irrefl, Hg.
    cbn [mbind option_bind]. change (split_index (key_cmp t) hint ik (se_keys all)) with sp. rewrite Hsep. cbn [mbind option_bind]. rewrite Hsl1.
    cbn [mbind option_bind]. rewrite Hsl2. cbn [mbind option_bind]. rewrite Hin. cbn [mbind option_bind].
    rewrite Hsib. cbn [mbind option_bind]. rewrite Hset. cbn [mbind option_bind]. by rewrite Hins.
  - eexists _, (l1 ++ x1 :: x2 :: l2), (s1 ++ ss1 :: ss2 :: s2). split; [done|].
    split; [destruct Hp2; by split|]. split; [rewrite length_app; simpl; lia|]. split; [|split].
    + rewrite Hxs in Hu. apply Forall_app in Hu as [Hu1 Hu2].
      apply List.Forall_cons_iff in Hu2 as [Hux Hu2]. apply Forall_app. split; [done|].
      apply List.Forall_cons; [exact Hux|]. apply List.Forall_cons; [|done]. by split; vm_compute.
    + apply (Hclose [x1; x2] [ss1; ss2]); [|done]. apply children_cons.
      split; [by exists c1|]. split; [done|]. split; [done|]. by exists c2.
    + rewrite Hslots, Hsss, Hss, !concat_app. simpl. by rewrite <-app_assoc.
  - rewrite Hkeys2, Hlen, Hxs, length_fmap, !length_app. simpl. lia.
  - unfold key_cmp. rewrite Hkeys2.
    assert (∀ i, get_child (set_in_dirty p2 true) i = (l1 ++ x1 :: x2 :: l2) !! i ≫= (λ s, s.2)) as Hgc
      by apply Hp2.
    destruct (decide (cmp sep k = Gt)) as [Hsk|Hsk].
    + rewrite (route_middle _ k l1 x1 (x2 :: l2)); [|by apply (tail_map_last _ l1 x x1)|done].
      rewrite Hgc, list_lookup_middle by done. exists c1. split; [done|]. lia.
    + rewrite cons_middle, app_assoc, (route_middle _ k (l1 ++ [x1]) x2 l2); [| |done].
      * rewrite Hgc, length_app. simpl. rewrite cons_middle, app_assoc, list_lookup_middle
          by (rewrite length_app; done). exists c2. split; [done|]. lia.
      * rewrite tail_app_last. apply Forall_app. split; [by apply (tail_map_last _ l1 x x1)|].
        apply List.Forall_cons; [done|constructor].
Qed.

(** A full child has been drained: either it has room now, or nothing changed. *)
Lemma drain_node_spec h lo hi c ss :
  rep h lo hi c ss →
  ∃ c' b ss', drain_node t c = Some (c', b) ∧ rep h lo hi c' ss' ∧ drained (is_locked_hook t) ss ss' ∧
    (get_n_entries c' ≤ get_n_entries c)%nat ∧
    if b : bool then (get_n_entries c' < get_n_entries c)%nat
    else ss' = ss ∧ get_n_entries c' = get_n_entries c.
Proof.
  destruct h as [|h].
  - intros (b & -> & Hok). destruct (bin_drain _ _ _ (is_locked_hook t) lo hi b ss Hok) as (b' & Hd & Hok').
    simpl. rewrite Hd. cbn [mbind option_bind].
    eexists _, _, _. split; [done|]. split; [by exists b'|]. split; [apply drained_filter|]. simpl.
    rewrite (bin_entries_len _ _ (bo_rep _ _ _ _ _ _ _ Hok)).
    rewrite (bin_entries_len _ _ (bo_rep _ _ _ _ _ _ _ Hok')).
    pose proof (length_filter (drain_keeps (is_locked_hook t)) ss). split; [lia|].
    destruct (Nat.ltb_spec (length (filter (drain_keeps (is_locked_hook t)) ss)) (length ss)); [done|].
    split; [apply filter_all_kept|]; lia.
  - intros Hrep. pose proof Hrep as (n & xs & sss & -> & _). simpl.
    eexists _, _, _. split; [done|]. split; [done|]. split; [apply drained_refl|]. done.
Qed.

Lemma node_entries_max h lo hi c ss : rep h lo hi c ss → (get_n_entries c ≤ max_entries_per_node t)%nat.
Proof.
  destruct h as [|h].
  - intros (b & -> & Hok). simpl. rewrite (bin_entries_len _ _ (bo_rep _ _ _ _ _ _ _ Hok)).
    apply (bo_len _ _ _ _ _ _ _ Hok).
  - intros (n & xs & sss & -> & [Hk _ _ _ _] & Hlen & _). simpl. by rewrite Hk, length_fmap.
Qed.

Lemma insert_recursive_more fuel : ∀ nid node k d lsn al ar r,
  insert_recursive_inner fuel t nid node k d lsn al ar = Some r →
  insert_recursive_inner (S fuel) t nid node k d lsn al ar = Some r.
Proof.
  induction fuel as [|fuel IH]; intros nid node k d lsn al ar r; [done|].
  remember (S fuel) as fuel' eqn:Ef. cbn [insert_recursive_inner]. rewrite Ef at 1.
  cbn [insert_recursive_inner]. destruct node as [n|b]; [|done]. cbn zeta.
  destruct (get_child _ _) as [[c]|].
  - destruct (_ <=? _)%nat.
    + destruct (drain_node t c) as [[c' b]|]; [|done]. cbn [mbind option_bind].
      destruct (set_child _ _ _) as [n'|]; [|done]. cbn [mbind option_bind]. destruct b; [apply IH|].
      destruct (split_child _ _ _ _ _ _) as [[[nid' node'] [[]|e]]|]; [|done..]. cbn [mbind option_bind].
      apply IH.
    + destruct (insert_recursive_inner fuel t _ _ _ _ _ _ _) as [r'|] eqn:Er; [|done].
      by rewrite (IH _ _ _ _ _ _ _ _ Er).
  - destruct (child_at_or_fetch _ _ _) as [[node' [c|]]|]; [|done..]. cbn [mbind option_bind]. apply IH.
Qed.

Section put.
Context (k : key) (d : list Z) (lsn : Z) (Hlsn : in_u 64 lsn).

Abbreviation put := (abs_put (key_comparator t) k lsn (Some d)).

(** What an insertion into a subtree promises, with [fuel] steps. *)
Definition inserts (fuel h : nat) lo hi (node : Node) slots : Prop :=
  ∀ nid al ar, ∃ nid' node' kept,
    insert_recursive_inner fuel t nid node k d lsn al ar = Some (nid', node', Ok (put kept).2) ∧
    drained (is_locked_hook t) slots kept ∧ rep h lo hi node' (put kept).1.

(** More fuel changes nothing. *)
Lemma inserts_more fuel h lo hi node slots :
  inserts fuel h lo hi node slots → inserts (S fuel) h lo hi node slots.
Proof.
  intros Hi nid al ar. destruct (Hi nid al ar) as (nid' & node' & kept & He & H).
  exists nid', node', kept. split; [|done]. by apply insert_recursive_more.
Qed.

(** The child has room. *)
Lemma insert_below h fuel lo hi n slots c :
  (∀ lo hi node slots, rep h lo hi node slots → inside lo hi k →
     (get_n_entries node < max_entries_per_node t)%nat → inserts fuel h lo hi node slots) →
  rep (S h) lo hi (Internal n) slots → inside lo hi k →
  get_child n (route (key_cmp t) k (entries n)) = Some (Arc c) →
  (get_n_entries c < max_entries_per_node t)%nat →
  inserts (S fuel) (S h) lo hi (Internal n) slots.
Proof.
  intros IH Hrep Hk Hget Hroom nid al ar.
  destruct (descend h lo hi k _ slots Hrep Hk)
    as (n0 & n' & c' & xs & sss & l1 & x & l2 & s1 & ss & s2 & lo' & hi' & Hn & Hr & _ & _ & _ & _ & Hsame & Hac).
  injection Hn as <-. rewrite Hr in Hget. destruct Hsame as [Hnone| ->]; [by rewrite Hget in Hnone|].
  destruct (at_child_get _ _ _ _ _ _ _ _ _ _ _ _ _ _ _ _ _ _ _ _ _ Hac) as (_ & Hget' & _).
  rewrite Hget in Hget'. injection Hget' as <-.
  destruct (at_child_around _ _ _ _ _ _ _ _ _ _ _ _ _ _ _ _ _ _ _ _ _ Hac) as [-> Har].
  pose proof (ac_focus _ _ _ _ _ _ _ _ _ _ _ _ _ _ _ _ _ _ _ _ _ Hac) as [_ _ _ _ _ _ Hrc Hwit _ _ _].
  cbn [insert_recursive_inner]. rewrite Hr, Hget, (proj2 (Nat.leb_gt _ _) Hroom).
  destruct (IH lo' hi' c ss Hrc Hwit Hroom nid (al && (length l1 =? 0)%nat)
              (ar && (length l1 =? length (entries n) - 1)%nat))
    as (nid' & c' & kept & -> & Hd & Hrep'). cbn [mbind option_bind].
  destruct (at_child_put _ _ _ _ _ _ _ _ _ _ _ _ _ _ _ _ _ _ _ _ _ _ _ Hac Hrep')
    as (n2 & -> & _ & Hac2). cbn [mbind option_bind].
  exists nid', (Internal n2), (concat s1 ++ kept ++ concat s2).
  rewrite (put_local _ k lsn (Some d) _ _ _ Har). split; [done|]. split; [by apply drained_middle|].
  by eapply at_child_rep.
Qed.

(** The child is in memory. *)
Lemma insert_resident h fuel lo hi n slots c :
  (∀ lo hi node slots, rep h lo hi node slots → inside lo hi k →
     (get_n_entries node < max_entries_per_node t)%nat → inserts fuel h lo hi node slots) →
  rep (S h) lo hi (Internal n) slots → inside lo hi k →
  get_child n (route (key_cmp t) k (entries n)) = Some (Arc c) →
  (length (entries n) < max_entries_per_node t)%nat →
  inserts (S (S fuel)) (S h) lo hi (Internal n) slots.
Proof.
  intros IH Hrep Hk Hget Hlen.
  destruct (le_lt_dec (max_entries_per_node t) (get_n_entries c)) as [Hfull|Hroom].
  2:{ apply (insert_below h (S fuel) lo hi n slots c); try done.
      intros lo0 hi0 nd0 ss0 Hr0 Hk0 Hn0. by apply inserts_more, IH. }
  intros nid al ar.
  destruct (descend h lo hi k _ slots Hrep Hk)
    as (n0 & n' & c' & xs & sss & l1 & x & l2 & s1 & ss & s2 & lo' & hi' & Hn & Hr & _ & _ & _ & _ & Hsame & Hac).
  injection Hn as <-. rewrite Hr in Hget. destruct Hsame as [Hnone| ->]; [by rewrite Hget in Hnone|].
  destruct (at_child_get _ _ _ _ _ _ _ _ _ _ _ _ _ _ _ _ _ _ _ _ _ Hac) as (_ & Hget' & _).
  rewrite Hget in Hget'. injection Hget' as <-.
  destruct (at_child_around _ _ _ _ _ _ _ _ _ _ _ _ _ _ _ _ _ _ _ _ _ Hac) as [-> Har].
  pose proof (ac_focus _ _ _ _ _ _ _ _ _ _ _ _ _ _ _ _ _ _ _ _ _ Hac) as [_ _ _ _ _ _ Hrc Hwit _ _ _].
  destruct (drain_node_spec h lo' hi' c ss Hrc) as (c' & b & ss' & Hdr & Hrc' & Hd & _ & Hb).
  destruct (at_child_put _ _ _ _ _ _ _ _ _ _ _ _ _ _ _ _ _ _ _ _ _ _ _ Hac Hrc')
    as (n2 & Hset & He2 & Hac2).
  pose proof (at_child_rep _ _ _ _ _ _ _ _ _ _ _ _ _ _ _ _ _ _ _ _ _ Hac2) as Hrep2.
  destruct (at_child_get _ _ _ _ _ _ _ _ _ _ _ _ _ _ _ _ _ _ _ _ _ Hac2) as (Hr2 & Hget2 & Hlen2).
  remember (S fuel) as fuel' eqn:Ef. cbn [insert_recursive_inner].
  rewrite Hr, Hget, (proj2 (Nat.leb_le _ _) Hfull), Hdr. cbn [mbind option_bind].
  rewrite Hset. cbn [mbind option_bind]. pose proof (node_entries_max h lo' hi' c ss Hrc) as Hcmax.
  subst fuel'. destruct b.
  - destruct (insert_below h fuel lo hi n2 (concat s1 ++ ss' ++ concat s2) c' IH Hrep2 Hk) with (nid := nid) (al := al) (ar := ar)
      as (nid' & node' & kept & -> & Hkept & Hrep'); [by unfold key_cmp; rewrite Hr2|lia|].
    exists nid', node', kept. split; [done|]. split; [|done].
    eapply drained_trans; [by apply drained_middle|done].
  - destruct Hb as [-> Hb].
    destruct (split_child_spec h lo hi k n2 _ _ _ l1 _ l2 s1 ss s2 lo' hi' c' nid
                (hint_of (al && (length l1 =? 0)%nat) (ar && (length l1 =? length (entries n) - 1)%nat)) k Hac2)
      as (n3 & -> & Hrep3 & _ & c3 & Hget3 & Hroom3); [lia|rewrite <-Hlen2, He2; lia|by right|].
    cbn [mbind option_bind].
    destruct (insert_below h fuel lo hi n3 _ c3 IH Hrep3 Hk Hget3 Hroom3 (nid + 1) al ar)
      as (nid' & node' & kept & -> & Hkept & Hrep'). by exists nid', node', kept.
Qed.

Lemma insert_recursive_inner_spec h : ∀ fuel lo hi node slots,
  (3 * h < fuel)%nat → rep h lo hi node slots → inside lo hi k →
  (get_n_entries node < max_entries_per_node t)%nat → inserts fuel h lo hi node slots.
Proof.
  induction h as [|h IH]; intros [|fuel] lo hi node slots Hfuel Hrep Hk Hroom; try lia.
  { destruct Hrep as (b & -> & Hok). simpl in Hroom.
    rewrite (bin_entries_len _ _ (bo_rep _ _ _ _ _ _ _ Hok)) in Hroom. intros nid al ar.
    destruct (bin_put _ _ _ lo hi b slots k lsn d Hok Hk Hroom Hlsn) as (b' & Hb & Hok').
    exists nid, (Bottom b'), slots. simpl. rewrite Hb. split; [done|]. split; [apply drained_refl|].
    by exists b'. }
  destruct fuel as [|[|[|fuel]]]; try lia.
  assert (∀ lo hi node slots, rep h lo hi node slots → inside lo hi k →
     (get_n_entries node < max_entries_per_node t)%nat → inserts (S fuel) h lo hi node slots) as IH'.
  { intros. apply IH; [lia|done..]. }
  destruct (descend h lo hi k _ slots Hrep Hk)
    as (n & n' & c & xs & sss & l1 & x & l2 & s1 & ss & s2 & lo' & hi' & -> & Hr & _ & _ & Hch & He & Hsame & Hac).
  simpl in Hroom. destruct (at_child_get _ _ _ _ _ _ _ _ _ _ _ _ _ _ _ _ _ _ _ _ _ Hac) as (Hr' & Hget' & _).
  pose proof (at_child_rep _ _ _ _ _ _ _ _ _ _ _ _ _ _ _ _ _ _ _ _ _ Hac) as Hrep'.
  destruct (get_child n (length l1)) as [[c0]|] eqn:Hget.
  - destruct Hsame as [Hsame| ->]; [done|]. apply inserts_more.
    apply (insert_resident h (S fuel) lo hi n slots c0); try done. by rewrite Hr.
  - intros nid al ar. remember (S (S (S fuel))) as fuel' eqn:Ef. cbn [insert_recursive_inner].
    rewrite Hr, Hget, Hch. cbn [mbind option_bind]. subst fuel'.
    apply (insert_resident h (S fuel) lo hi n' slots c); try done; [|by rewrite He].
    unfold key_cmp. by rewrite Hr'.
Qed.
End put.

(** ** Redo of a write *)

Section redo.
Context (k : key) (d : option (list Z)) (lsn : Z) (Hlsn : valid_lsn lsn).

Abbreviation redo := (abs_redo (key_comparator t) k lsn d).

(** The slot of the key has an LSN to compare with. *)
Definition has_lsn slots : Prop :=
  ∀ s, abs_find (cmp := cmp) slots k = Some s → is_null (slot_lsn s) = false.

Lemma redo_slot_lsn_spec lo hi b slots :
  bin_here lo hi b slots →
  redo_slot_lsn b k (key_comparator t) (tree_key_prefixing t) =
  Some (slot_lsn <$> abs_find (cmp := cmp) slots k).
Proof.
  intros Hok. pose proof Hok as [Hb [_ Hm] Hs _ _ _].
  destruct (bin_find _ _ _ lo hi b slots k Hok) as (i & Hf & Hi).
  assert (match key_comparator t with
          | Some c => find_entry_cmp b k c
          | None => if tree_key_prefixing t then find_entry_compressed b k
                    else found <$> key_binary_search b k
          end = find_in_bin (key_comparator t) b k) as Hs'.
  { unfold find_in_bin. destruct (key_comparator t) as [c|] eqn:Ec; [done|].
    destruct (tree_key_prefixing t) eqn:Ep; [done|]. specialize (Hm eq_refl eq_refl).
    change (order_of None) with compare_unsigned_bytes in Hs.
    pose proof (key_binary_search_spec b slots k Hb Hs) as Hk. rewrite Hm in Hk.
    rewrite (find_entry_compressed_spec b slots k Hb Hs).
    change (drop (length (@nil Z)) k) with k in Hk. rewrite Hk by apply prefix_nil. done. }
  unfold redo_slot_lsn. rewrite Hs', Hf. cbn [mbind option_bind]. destruct (ref_search _ _) as [j|j].
  - destruct Hi as (-> & s & _ & -> & _ & ->). rewrite bool_decide_true by done. done.
  - rewrite Hi, bool_decide_false by (by intros []). done.
Qed.

Lemma bin_redo lo hi b slots :
  bin_here lo hi b slots → inside lo hi k → (length slots < max_entries_per_node t)%nat →
  has_lsn slots →
  ∃ b', redo_insert_in_bin t b k d lsn = Some (b', (redo slots).2) ∧ bin_here lo hi b' (redo slots).1.
Proof.
  intros Hok Hk Hlen Hnn. pose proof Hok as [Hb Hm Hs _ _ Hu]. unfold redo_insert_in_bin.
  rewrite (redo_slot_lsn_spec lo hi b slots Hok). cbn [mbind option_bind]. unfold abs_redo.
  assert (match slot_lsn <$> abs_find (cmp := cmp) slots k with
          | Some l => lsn_le lsn l | None => Some false end =
          Some (match abs_find (cmp := cmp) slots k with Some s => lsn <=? slot_lsn s | None => false end))
    as ->.
  { destruct (abs_find slots k) as [s|] eqn:Ef; [|done]. simpl. apply lsn_le_valid; [done|].
    apply u64_valid_lsn; [|by apply Hnn].
    apply (proj1 (Forall_forall _ _) Hu s). by apply abs_find_iff in Ef as [? _]. }
  cbn [mbind option_bind].
  assert (∃ b', ('(b, (_, is_new)) ← insert_any (key_comparator t) (tree_key_prefixing t) b k lsn d;
     Some (with_state b true (bin_last_full_lsn b) (last_delta_lsn b) (prohibit_next_delta b), is_new)) =
       Some (b', (abs_put (key_comparator t) k lsn d slots).2) ∧
       bin_here lo hi b' (abs_put (key_comparator t) k lsn d slots).1) as Hput.
  { destruct (valid_lsn_u64 lsn Hlsn) as [Hl _].
    destruct (insert_any_spec (key_comparator t) (tree_key_prefixing t) b slots k lsn d HK Hb Hs Hm Hl)
      as (b' & -> & _ & Hm' & Hb'). cbn [mbind option_bind]. unfold abs_put.
    destruct (abs_insert cmp slots k lsn d) as [sl [i nw]] eqn:Ea. cbn [fst snd] in *.
    eexists. split; [done|].
    replace sl with (abs_put (key_comparator t) k lsn d slots).1 in * by (unfold abs_put; by rewrite Ea).
    apply (bin_ok_put _ _ _ lo hi b); try done. by apply bin_rep_with_state. }
  destruct (abs_find slots k) as [s|]; [destruct (lsn <=? slot_lsn s); [by exists b|]|]; exact Hput.
Qed.

Definition redoes (fuel h : nat) lo hi (node : Node) slots : Prop :=
  ∀ nid al ar, ∃ nid' node',
    redo_insert_recursive_inner fuel t nid node k d lsn al ar = Some (nid', node', Ok (redo slots).2) ∧
    rep h lo hi node' (redo slots).1.

Lemma redo_below h fuel lo hi node slots :
  (∀ lo hi node slots, rep h lo hi node slots → inside lo hi k → has_lsn slots →
     (get_n_entries node < max_entries_per_node t)%nat → redoes fuel h lo hi node slots) →
  rep (S h) lo hi node slots → inside lo hi k → has_lsn slots →
  (∀ n n' c, node = Internal n →
     child_at_or_fetch t node (route (key_cmp t) k (entries n)) = Some (n', Some (Arc c)) →
     (get_n_entries c < max_entries_per_node t)%nat) →
  redoes (S fuel) (S h) lo hi node slots.
Proof.
  intros IH Hrep Hk Hnn Hroom nid al ar.
  destruct (descend h lo hi k _ slots Hrep Hk)
    as (n & n' & c & xs & sss & l1 & x & l2 & s1 & ss & s2 & lo' & hi' & -> & Hr & _ & _ & Hch & He & _ & Hac).
  destruct (at_child_around _ _ _ _ _ _ _ _ _ _ _ _ _ _ _ _ _ _ _ _ _ Hac) as [-> Har].
  pose proof (ac_focus _ _ _ _ _ _ _ _ _ _ _ _ _ _ _ _ _ _ _ _ _ Hac) as [_ _ _ _ _ _ Hrc Hwit _ _ _].
  specialize (Hroom n (Internal n') c eq_refl). rewrite Hr in Hroom. specialize (Hroom Hch).
  cbn [redo_insert_recursive_inner]. rewrite Hr, Hch. cbn [mbind option_bind].
  rewrite (proj2 (Nat.leb_gt _ _) Hroom).
  destruct (IH lo' hi' c ss Hrc Hwit ltac:(intros s; rewrite <-(find_local _ k _ _ _ Har); apply Hnn) Hroom nid
              (al && (length l1 =? 0)%nat) (ar && (length l1 =? length (entries n) - 1)%nat))
    as (nid' & c' & -> & Hrep'). cbn [mbind option_bind].
  destruct (at_child_put _ _ _ _ _ _ _ _ _ _ _ _ _ _ _ _ _ _ _ _ _ _ _ Hac Hrep')
    as (n2 & -> & _ & Hac2). cbn [mbind option_bind].
  exists nid', (Internal n2). rewrite (redo_local _ k lsn d _ _ _ Har). split; [done|].
  by eapply at_child_rep.
Qed.

Lemma redo_insert_recursive_inner_spec h : ∀ fuel lo hi node slots,
  (2 * h < fuel)%nat → rep h lo hi node slots → inside lo hi k → has_lsn slots →
  (get_n_entries node < max_entries_per_node t)%nat → redoes fuel h lo hi node slots.
Proof.
  induction h as [|h IH]; intros [|fuel] lo hi node slots Hfuel Hrep Hk Hnn Hroom; try lia.
  { destruct Hrep as (b & -> & Hok). simpl in Hroom.
    rewrite (bin_entries_len _ _ (bo_rep _ _ _ _ _ _ _ Hok)) in Hroom. intros nid al ar.
    destruct (bin_redo lo hi b slots Hok Hk Hroom Hnn) as (b' & Hb & Hok').
    exists nid, (Bottom b'). simpl. rewrite Hb. split; [done|]. by exists b'. }
  destruct fuel as [|fuel]; [lia|].
  assert (∀ f, (2 * h < f)%nat → ∀ lo hi node slots, rep h lo hi node slots → inside lo hi k → has_lsn slots →
     (get_n_entries node < max_entries_per_node t)%nat → redoes f h lo hi node slots) as IH'.
  { intros. by apply IH. }
  destruct (descend h lo hi k _ slots Hrep Hk)
    as (n & n' & c & xs & sss & l1 & x & l2 & s1 & ss & s2 & lo' & hi' & -> & Hr & _ & _ & Hch & He & _ & Hac).
  simpl in Hroom.
  destruct (le_lt_dec (max_entries_per_node t) (get_n_entries c)) as [Hfull|Hsmall].
  2:{ apply redo_below; [by apply IH'; lia|done|done|done|].
      intros n0 n1 c0 [= <-]. rewrite Hr, Hch. by intros [= <- <-]. }
  intros nid al ar. remember (S fuel) as fuel' eqn:Ef. cbn [redo_insert_recursive_inner].
  rewrite Hr, Hch. cbn [mbind option_bind]. rewrite (proj2 (Nat.leb_le _ _) Hfull).
  destruct (at_child_get _ _ _ _ _ _ _ _ _ _ _ _ _ _ _ _ _ _ _ _ _ Hac) as (_ & _ & Hlen).
  pose proof (ac_focus _ _ _ _ _ _ _ _ _ _ _ _ _ _ _ _ _ _ _ _ _ Hac) as [_ _ _ _ _ _ Hrc _ _ _ _].
  pose proof (node_entries_max h lo' hi' c ss Hrc) as Hcmax.
  destruct (split_child_spec h lo hi k n' _ _ _ l1 _ l2 s1 ss s2 lo' hi' c nid
              (hint_of (al && (length l1 =? 0)%nat) (ar && (length l1 =? length (entries n) - 1)%nat)) k Hac)
    as (n3 & -> & Hrep3 & _ & c3 & Hget3 & Hroom3); [lia|rewrite <-Hlen, He; lia|by right|].
  cbn [mbind option_bind]. subst fuel'.
  apply (redo_below h fuel lo hi); [by apply IH'; lia|done|done|done|].
  intros n0 n1 c0 [= <-]. simpl child_at_or_fetch. rewrite Hget3. by intros [= <- <-].
Qed.
End redo.
End descent.
