(* ===== verification/TreeMap.v ===== *)
(** * A tree is a map of records

    The operations of [Tree] on whole trees: the root is split before a descent
    that may add a slot, the first key builds the first two levels.  A tree
    stores the map [m] ([tree_map]) when its BINs hold exactly the records of
    [m]; every operation changes [m] at its own key only, except that an
    insertion into a full BIN may also remove records that are marked deleted
    and whose LSN nobody has locked. *)

From stdpp Require Import sorting.
From S2P Require Import Prelude Bytes Packed Lsn Keys LsnRep TargetRep InNode Bin BinMap NodeImage BinLog Tree TreeRep.

(** ** Operations on the map of records *)

Inductive tree_op :=
| TPut (k : key) (d : list Z) (lsn : Z)
| TRedo (k : key) (d : list Z) (lsn : Z)
| TDel (k : key)
| TMark (k : key) (lsn : Z) (pending : bool)
| TAdvance (k : key) (lsn : Z)
| TExpire (k : key) (hours : Z)
| TSlotLsn (k : key)
| TSearch (now : Z) (k : key).

Inductive tree_out :=
| OBool (b : bool)
| OErr (e : TreeError)
| OLsn (r : option (Z * bool))
| OSearch (r : option SlotFetch).

Definition out_of (r : result bool TreeError) : tree_out :=
  match r with Ok b => OBool b | Err e => OErr e end.

Definition tree_step (fuel : nat) (t : Tree) (op : tree_op) : option (Tree * tree_out) :=
  match op with
  | TPut k d lsn => '(t, r) ← insert fuel t k d lsn; Some (t, out_of r)
  | TRedo k d lsn => '(t, r) ← redo_insert fuel t k d lsn; Some (t, out_of r)
  | TDel k => '(t, r) ← tree_delete fuel t k; Some (t, OBool r)
  | TMark k lsn pending => '(t, r) ← mark_deleted fuel t k lsn pending; Some (t, OBool r)
  | TAdvance k lsn => '(t, r) ← redo_advance_deleted_slot_lsn fuel t k lsn; Some (t, OBool r)
  | TExpire k hours => '(t, r) ← update_key_expiration fuel t k hours; Some (t, OBool r)
  | TSlotLsn k => '(t, r) ← slot_lsn_any fuel t k; Some (t, OLsn r)
  | TSearch now k => '(t, r) ← search_with_data fuel t now k; Some (t, OSearch r)
  end.

(** The LSNs that operations carry come from the log. *)
Definition op_ok (op : tree_op) : bool :=
  match op with
  | TPut _ _ lsn | TRedo _ _ lsn | TMark _ lsn _ | TAdvance _ lsn =>
      (0 <=? lsn) && (lsn <? NULL_LSN)
  | _ => true
  end.

Definition rec_lsn (r : record) : Z := r.1.1.1.
Definition rec_deleted (r : record) : bool := r.1.2 || r.2.

(** [m0] is [m] without some deleted records that nobody has locked. *)
Definition may_drain (cmp : key → key → comparison) (hook : option (Z → bool))
    (m m0 : key → option record) : Prop :=
  ∀ k, m0 k = m k ∨ m0 k = record_step cmp (BDrain hook) k (m k).

Definition newer (m : key → option record) (k : key) (lsn : Z) : bool :=
  match m k with Some r => lsn <=? rec_lsn r | None => false end.

Definition redo_data (d : list Z) : option (list Z) := match d with [] => None | _ => Some d end.

(** What a search may answer for the record of its key: the record, unless it
    is deleted or its expiration has passed. *)
Definition search_answers (r : option record) (out : option SlotFetch) : Prop :=
  match out with
  | None => r = None
  | Some f =>
      sf_kd_lsn f = (r ≫= λ r, if rec_deleted r then Some (rec_lsn r) else None) ∧
      if sf_found f then
        ∃ lsn, r = Some (lsn, sf_data f, false, false) ∧ sf_lsn f = lsn
      else sf_data f = None ∧ (live r = true → sf_expired_slot f <> None)
  end.

Definition records_do (cmp : key → key → comparison) (hook : option (Z → bool))
    (m : key → option record) (op : tree_op) (m' : key → option record) (out : tree_out) : Prop :=
  match op with
  | TPut k d lsn =>
      out = OBool (negb (live (m k))) ∧
      ∃ m0, may_drain cmp hook m m0 ∧ ∀ k', m' k' = record_step cmp (BPut k lsn d) k' (m0 k')
  | TRedo k d lsn =>
      out = OBool (negb (newer m k lsn) && negb (live (m k))) ∧
      ∀ k', m' k' = match cmp k k' with
                    | Eq => if newer m k lsn then m k' else Some (lsn, redo_data d, false, false)
                    | _ => m k'
                    end
  | TDel k => out = OBool (live (m k)) ∧ ∀ k', m' k' = record_step cmp (BDel k) k' (m k')
  | TMark k lsn pending =>
      out = OBool (live (m k)) ∧ ∀ k', m' k' = record_step cmp (BMark k lsn pending) k' (m k')
  | TAdvance k lsn =>
      let advances := match m k with
                      | Some r => rec_deleted r && (rec_lsn r <? lsn)
                      | None => false
                      end in
      out = OBool advances ∧
      ∀ k', m' k' = match cmp k k', m k' with
                    | Eq, Some (_, d, kd, pd) => if advances then Some (lsn, d, kd, pd) else m k'
                    | _, _ => m k'
                    end
  | TExpire k _ => (∃ b, out = OBool b ∧ (b = true → m k <> None)) ∧ ∀ k', m' k' = m k'
  | TSlotLsn k => out = OLsn ((λ r, (rec_lsn r, rec_deleted r)) <$> m k) ∧ ∀ k', m' k' = m k'
  | TSearch now k => (∃ r, out = OSearch r ∧ search_answers (m k) r) ∧ ∀ k', m' k' = m k'
  end.

Fixpoint records_run (cmp : key → key → comparison) (hook : option (Z → bool))
    (m : key → option record) (ops : list tree_op) (outs : list tree_out) (m' : key → option record) : Prop :=
  match ops, outs with
  | [], [] => ∀ k, m' k = m k
  | op :: ops, out :: outs =>
      ∃ m1, records_do cmp hook m op m1 out ∧ records_run cmp hook m1 ops outs m'
  | _, _ => False
  end.

(** A lookup of the whole record. *)
Definition tree_record (fuel : nat) (t : Tree) (k : key) : option (option record) :=
  '(_, r) ← with_parent_bin fuel t k (λ b, r ← read_record (key_comparator t) b k; Some (b, r));
  Some (match r with Some r => r | None => None end).

(** ** Trees *)

Section tree.
Context (t0 : Tree) `{HK : !KeyOrder (order_of (key_comparator t0))}.
Hypothesis Hmax : (3 ≤ max_entries_per_node t0)%nat ∧ Z.of_nat (max_entries_per_node t0) < 2 ^ 16.
Hypothesis Hcompact : tree_compact_max_key_length t0 < 2 ^ 16.
Implicit Types (k : key) (slots : list slot) (m : key → option record).

Abbreviation cmp := (order_of (key_comparator t0)).
Abbreviation rep :=
  (node_rep (max_entries_per_node t0) (key_comparator t0) (tree_key_prefixing t0) (log_manager t0)).

(** Two trees with the same settings. *)
Definition same_settings (t : Tree) : Prop :=
  ∃ r l sp nid, t = with_root t0 r l sp nid.

(** The slots of a tree of height [h]. *)
Definition tree_rep (t : Tree) (h : nat) slots : Prop :=
  same_settings t ∧
  match root t with
  | Some (Arc nd) => rep h None None nd slots
  | None => root_log_lsn t = NULL_LSN ∧ slots = []
  end.

Definition records slots k : option record := slot_record <$> abs_find (cmp := cmp) slots k.

Definition tree_map (t : Tree) (h : nat) m : Prop :=
  ∃ slots, tree_rep t h slots ∧ (∀ k, m k = records slots k) ∧
    ∀ k r, m k = Some r → valid_lsn (rec_lsn r).

Lemma same_with_root t r l sp nid : same_settings t → same_settings (with_root t r l sp nid).
Proof. intros (r0 & l0 & sp0 & nid0 & ->). by eexists _, _, _, _. Qed.

Lemma same_set_root t r nid : same_settings t → same_settings (set_root t r nid).
Proof. apply same_with_root. Qed.

Lemma one_child_spec nid lvl lsn c :
  in_u 64 lsn → ∃ n, one_child nid lvl lsn c = Some n ∧ in_node n [([], lsn, Some c)].
Proof.
  intros Hlsn. unfold one_child. destruct (from_lsns_spec [lsn]) as (l & -> & Hr); [by constructor|].
  eexists. split; [done|]. split; simpl; try done.
  - apply wf_sparse; simpl; [apply NoDup_singleton|by repeat constructor|unfold SPARSE_MAX_ENTRIES; lia].
  - by intros [|i].
Qed.

(** The first two levels. *)
Lemma first_key_spec t k d lsn :
  same_settings t → in_u 64 lsn →
  ∃ t', first_key t k d lsn = Some t' ∧
    tree_rep t' 1 [(k, lsn, {| data := d; known_deleted := false; pending_deleted := false;
                               e_dirty := false; expiration_time := 0 |})].
Proof.
  intros Ht Hlsn. unfold first_key.
  destruct (from_lsns_spec [lsn]) as (l & -> & Hr); [by constructor|]. cbn [mbind option_bind].
  match goal with |- context [one_child _ _ _ ?c] =>
    destruct (one_child_spec (next_node_id t + 1) (Z.lor MAIN_LEVEL 2) lsn c Hlsn) as (n & -> & Hn) end.
  cbn [mbind option_bind]. eexists. split; [done|]. split; [by apply same_set_root|].
  simpl root. eexists _, _, [_]. split; [done|]. split; [exact Hn|]. split; [simpl; lia|].
  split; [by constructor|]. split; [|simpl; by rewrite app_nil_r].
  eexists. split; [done|]. eexists. split; [done|]. split; simpl.
  - split; simpl; try done; [constructor; [apply prefix_nil|constructor]|constructor|].
    by destruct Ht as (? & ? & ? & ? & ->).
  - done.
  - repeat constructor.
  - lia.
  - by constructor.
  - by constructor.
Qed.

Lemma split_root_spec t h slots lsn nd :
  tree_rep t h slots → root t = Some (Arc nd) → in_u 64 lsn →
  ∃ t' nd' h', split_root_if_needed t lsn = Some (t', Ok ()) ∧ tree_rep t' h' slots ∧
    root t' = Some (Arc nd') ∧ (get_n_entries nd' < max_entries_per_node t0)%nat ∧ (h ≤ h' ≤ S h)%nat.
Proof.
  intros [Hs Hrep] Hroot Hlsn. rewrite Hroot in Hrep. unfold split_root_if_needed. rewrite Hroot.
  pose proof Hs as (r & lr & sp & nid & Ht).
  assert (max_entries_per_node t = max_entries_per_node t0) as Hm by by rewrite Ht.
  rewrite Hm. destruct (Nat.ltb_spec (get_n_entries nd) (max_entries_per_node t0)) as [Hlt|Hge].
  { exists t, nd, h. split; [done|]. split; [split; [done|by rewrite Hroot]|]. split; [done|]. lia. }
  destruct (one_child_spec (next_node_id t) (node_level nd + 1) lsn (Arc nd) Hlsn) as (n & -> & Hn).
  cbn [mbind option_bind]. set (x := ([], lsn, Some (Arc nd)) : islot) in *.
  assert (at_child (max_entries_per_node t) (key_comparator t) (tree_key_prefixing t) (log_manager t)
            h None None [] n slots [x] [slots] [] x [] [] slots [] None None nd) as Hac.
  { rewrite Ht. simpl. split; try done.
    - simpl. lia.
    - by constructor.
    - split; try done; try (by intros ? ?%elem_of_nil).
      intros lx sx Hlx _. by rewrite !app_nil_r.
    - simpl. by rewrite app_nil_r. }
  assert (KeyOrder (order_of (key_comparator t))) as HK' by by rewrite Ht.
  assert (get_n_entries nd ≤ max_entries_per_node t0)%nat as Hle
    by by apply (node_entries_max t0 h None None nd slots).
  destruct (split_child_spec t (HK := HK') ltac:(by rewrite Hm) h None None [] n slots [x] [slots] [] x []
              [] slots [] None None nd (next_node_id t + 1) Normal [] Hac)
    as (n' & Hsp & Hrep' & Hlen & _); [rewrite Hm; lia|rewrite Hm; simpl; lia|by left|].
  simpl length in Hsp. rewrite Hsp. cbn [mbind option_bind].
  eexists _, (Internal n'), (S h). split; [done|]. split; [|split; [done|]].
  - split; [by apply same_with_root|]. simpl root. cbn iota. clear Hac Hsp. by rewrite Ht in Hrep'.
  - simpl. rewrite Hlen, (in_keys _ _ Hn). simpl. lia.
Qed.

(** An operation on the BIN of a key. *)
Lemma with_parent_bin_spec {X} t h slots k fuel (f : BinStub → option (BinStub * X)) op :
  tree_rep t h slots → local (key_comparator t0) k op → bin_does t0 k f op → (h < fuel)%nat →
  with_parent_bin fuel t k f = Some (t, None) ∧ slots = [] ∧ root t = None ∨
  ∃ t', with_parent_bin fuel t k f = Some (t', Some (op slots).2) ∧ tree_rep t' h (op slots).1.
Proof.
  intros [(r & lr & sp & nid & ->) Hrep] Hloc Hf Hfuel. unfold with_parent_bin, get_root, fetch_root_from_log.
  simpl root in *. destruct r as [[nd]|].
  - right. cbn [mbind option_bind]. set (t := with_root t0 _ _ _ _).
    destruct (at_parent_bin_spec t (HK := HK) k f op Hloc Hf h fuel None None nd slots) as (nd' & -> & Hrep');
      [done|exact Hrep|done|].
    cbn [mbind option_bind]. eexists. split; [done|]. split; [|exact Hrep'].
    apply same_set_root. by eexists _, _, _, _.
  - left. destruct Hrep as [Hnull ->]. simpl in Hnull. subst lr. unfold tree_fetch_node. simpl.
    by destruct (log_manager t0).
Qed.

Lemma tree_rep_sorted t h slots : tree_rep t h slots → key_sorted cmp (keys_of slots).
Proof.
  intros [_ Hrep]. destruct (root t) as [[nd]|]; [|destruct Hrep as [_ ->]; constructor].
  by apply node_rep_within in Hrep as [_ ?].
Qed.

(** ** The records of a list *)

Lemma records_insert slots k lsn d k' :
  key_sorted cmp (keys_of slots) →
  records (abs_insert cmp slots k lsn d).1 k' =
  match cmp k k' with Eq => Some (lsn, d, false, false) | _ => records slots k' end.
Proof.
  intros Hs. unfold records. rewrite abs_find_insert by done.
  destruct (cmp k k'); [|done..]. by destruct (abs_find slots k).
Qed.

Lemma records_eq slots k k' :
  key_sorted cmp (keys_of slots) → cmp k k' = Eq → records slots k' = records slots k.
Proof. intros Hs E. unfold records. by rewrite (abs_find_cmp_eq slots k k' Hs E). Qed.

Lemma drained_in hook slots kept s :
  drained hook slots kept →
  (s ∈ kept → s ∈ slots) ∧ (s ∈ slots → s ∈ kept ∨ drain_keeps hook s = false).
Proof.
  induction 1 as [|x l l' _ [IH1 IH2]|x l l' Hx _ [IH1 IH2]]; [by split; [|left]| |].
  - rewrite !elem_of_cons. split; [intuition|]. intros [->|Hs]; [by left; left|].
    destruct (IH2 Hs); [left; by right|by right].
  - rewrite elem_of_cons. split; [intuition|]. intros [->|Hs]; [by right|by apply IH2].
Qed.

Lemma drained_sorted hook slots kept :
  drained hook slots kept → key_sorted cmp (keys_of slots) → key_sorted cmp (keys_of kept).
Proof.
  induction 1 as [|x l l' Hd IH|x l l' _ _ IH]; [done| |];
    rewrite ?fmap_cons; intros [Hs Hx]%StronglySorted_inv; [|by apply IH].
  constructor; [by apply IH|]. apply Forall_fmap, Forall_forall. intros y Hy.
  apply (proj1 (Forall_forall _ _) Hx (slot_key y)). apply list_elem_of_fmap. exists y.
  split; [done|]. by apply (drained_in hook l l' y).
Qed.

Lemma drained_records hook slots kept :
  key_sorted cmp (keys_of slots) → drained hook slots kept →
  may_drain cmp hook (records slots) (records kept) ∧
  ∀ k, live (records kept k) = live (records slots k).
Proof.
  intros Hs Hd. pose proof (drained_sorted _ _ _ Hd Hs) as Hs'.
  assert (∀ k, abs_find (cmp := cmp) kept k = abs_find (cmp := cmp) slots k ∨
            ∃ s, abs_find (cmp := cmp) slots k = Some s ∧ drain_keeps hook s = false ∧
              abs_find (cmp := cmp) kept k = None) as Hf.
  { intros k. destruct (abs_find kept k) as [s|] eqn:Ek.
    - left. apply abs_find_iff in Ek as [Hin He]; [|done]. symmetry. apply abs_find_iff; [done|].
      split; [|done]. by apply (drained_in hook slots kept).
    - destruct (abs_find slots k) as [s|] eqn:Es; [|by left]. right. exists s. split; [done|].
      split; [|done]. apply abs_find_iff in Es as [Hin He]; [|done].
      destruct (proj2 (drained_in hook slots kept s Hd) Hin) as [Hk|Hk]; [|done].
      by rewrite (proj2 (abs_find_iff kept k s Hs')) in Ek. }
  split; intros k; unfold records; destruct (Hf k) as [->|(s & -> & Hk & ->)]; [by left| |done|].
  - right. revert Hk. unfold drain_keeps, is_deleted. simpl.
    destruct (known_deleted _ || pending_deleted _); [|done]. simpl.
    by destruct (match hook with Some _ => _ | None => false end).
  - revert Hk. unfold drain_keeps, is_deleted. simpl.
    by destruct (known_deleted _ || pending_deleted _).
Qed.

Lemma records_advance slots k lsn k' :
  key_sorted cmp (keys_of slots) →
  let advances := match records slots k with
                  | Some r => rec_deleted r && (is_null (rec_lsn r) || (rec_lsn r <? lsn))
                  | None => false
                  end in
  (abs_advance (key_comparator t0) k lsn slots).2 = advances ∧
  records (abs_advance (key_comparator t0) k lsn slots).1 k' =
  match cmp k k', records slots k' with
  | Eq, Some (_, d, kd, pd) => if advances then Some (lsn, d, kd, pd) else records slots k'
  | _, _ => records slots k'
  end.
Proof.
  intros Hs. cbn zeta. unfold abs_advance.
  destruct (abs_find (cmp := cmp) slots k) as [s|] eqn:Ef.
  2:{ assert (records slots k = None) as Hn by (unfold records; by rewrite Ef). rewrite Hn.
      unfold abs_find in Ef. destruct (ref_search _ _) as [i|]; [rewrite Ef|]; cbn [fst snd];
        split; try done; destruct (cmp k k'), (records slots k') as [[[[? ?] ?] ?]|]; done. }
  destruct (abs_find_unchanged slots k s Hs Ef) as (i & Er & Hi & Heq).
  assert (records slots k = Some (slot_record s)) as Hk by (unfold records; by rewrite Ef).
  rewrite Er, Hi, Hk.
  change (rec_deleted (slot_record s)) with (is_deleted (slot_entry s)).
  change (rec_lsn (slot_record s)) with (slot_lsn s). cbn zeta.
  destruct (_ && _); cbn [fst snd]; (split; [done|]).
  - unfold records at 1.
    match goal with |- context [<[i := ?x]> slots] =>
      rewrite (proj2 (abs_find_replace slots k i s x k' Hs Hi Heq eq_refl)) end.
    destruct (cmp k k') eqn:E; [|done..]. by rewrite (records_eq slots k k' Hs E), Hk.
  - destruct (cmp k k'), (records slots k') as [[[[? ?] ?] ?]|]; done.
Qed.

Lemma records_expire slots k hours k' :
  key_sorted cmp (keys_of slots) →
  (abs_expire (key_comparator t0) k hours slots).2 =
    match records slots k with Some _ => true | None => false end ∧
  records (abs_expire (key_comparator t0) k hours slots).1 k' = records slots k'.
Proof.
  intros Hs. unfold abs_expire, records at 1.
  destruct (abs_find (cmp := cmp) slots k) as [s|] eqn:Ef.
  - destruct (abs_find_unchanged slots k s Hs Ef) as (i & Er & Hi & Heq). rewrite Er, Hi. split; [done|].
    cbn [fst]. unfold records at 1.
    match goal with |- context [<[i := ?x]> slots] =>
      rewrite (proj2 (abs_find_replace slots k i s x k' Hs Hi Heq eq_refl)) end.
    destruct (cmp k k') eqn:E; [|done..]. rewrite (records_eq slots k k' Hs E). unfold records.
    by rewrite Ef.
  - unfold abs_find in Ef. destruct (ref_search _ _) as [i|]; [by rewrite Ef|done].
Qed.

Lemma redo_records slots k lsn d :
  key_sorted cmp (keys_of slots) →
  (abs_redo (key_comparator t0) k lsn d slots).2 =
    negb (newer (records slots) k lsn) && negb (live (records slots k)) ∧
  ∀ k', records (abs_redo (key_comparator t0) k lsn d slots).1 k' =
    match cmp k k' with
    | Eq => if newer (records slots) k lsn then records slots k' else Some (lsn, d, false, false)
    | _ => records slots k'
    end.
Proof.
  intros Hs. unfold abs_redo, newer.
  pose proof (proj1 (abs_outputs (key_comparator t0) slots k lsn d false Hs)) as Hout.
  assert (∀ k', records (abs_put (key_comparator t0) k lsn d slots).1 k' =
            match cmp k k' with Eq => Some (lsn, d, false, false) | _ => records slots k' end) as Hput
    by (intros k'; by apply records_insert).
  assert (records slots k = slot_record <$> abs_find (cmp := cmp) slots k) as Hk by done.
  destruct (abs_find slots k) as [s|] eqn:Ef; rewrite Hk; cbn [fmap option_fmap option_map] in *.
  - change (rec_lsn (slot_record s)) with (slot_lsn s). destruct (lsn <=? slot_lsn s).
    + split; [done|]. intros k'. by destruct (cmp k k').
    + split; [exact Hout|exact Hput].
  - split; [exact Hout|exact Hput].
Qed.

(** ** Whole operations *)

Lemma insert_spec t h slots k d lsn fuel :
  tree_rep t h slots → in_u 64 lsn → (3 * S h < fuel)%nat →
  ∃ t' h' kept slots', insert fuel t k d lsn = Some (t', Ok (negb (live (records slots k)))) ∧
    tree_rep t' h' slots' ∧ (h' ≤ S h)%nat ∧ drained (is_locked_hook t0) slots kept ∧
    ∀ k', records slots' k' = record_step cmp (BPut k lsn d) k' (records kept k').
Proof.
  intros Ht Hlsn Hfuel. pose proof (tree_rep_sorted _ _ _ Ht) as Hsorted. unfold insert.
  destruct (root t) as [[nd]|] eqn:Hroot.
  - destruct (split_root_spec t h slots lsn nd Ht Hroot Hlsn)
      as (t1 & nd1 & h1 & -> & [Hs1 Hrep1] & Hroot1 & Hroom & Hh). cbn [mbind option_bind].
    rewrite Hroot1 in Hrep1. unfold resident_root. rewrite Hroot1. cbn [mbind option_bind].
    destruct Hs1 as (r & lr & sp & nid & ->). set (t1 := with_root t0 _ _ _ _) in *.
    destruct (insert_recursive_inner_spec t1 (HK := HK) Hmax k d lsn Hlsn h1 fuel None None nd1 slots)
      with (nid := next_node_id t1) (al := true) (ar := true)
      as (nid' & nd' & kept & Hi & Hd & Hrep'); [lia|done|done|done|].
    unfold insert_recursive. rewrite Hi. cbn [mbind option_bind].
    assert (key_sorted cmp (keys_of kept)) as Hsk by by eapply drained_sorted.
    destruct (drained_records _ _ _ Hsorted Hd) as [_ Hlive].
    eexists _, h1, kept, _. split; [|split; [split|split; [lia|split; [done|]]]].
    + do 3 f_equal. rewrite <-Hlive.
      exact (proj1 (abs_outputs (key_comparator t0) kept k lsn (Some d) false Hsk)).
    + apply same_set_root. by eexists _, _, _, _.
    + exact Hrep'.
    + intros k'. exact (records_insert kept k lsn (Some d) k' Hsk).
  - destruct Ht as [Hs Hrep]. rewrite Hroot in Hrep. destruct Hrep as [_ ->].
    destruct (first_key_spec t k (Some d) lsn Hs Hlsn) as (t' & -> & Ht'). cbn [mbind option_bind].
    eexists t', 1%nat, [], _. split; [done|]. split; [done|]. split; [lia|]. split; [constructor|].
    intros k'. unfold records, abs_find. simpl. by destruct (cmp k k').
Qed.

Lemma redo_insert_spec t h slots k d lsn fuel :
  tree_rep t h slots → valid_lsn lsn → (∀ r, records slots k = Some r → valid_lsn (rec_lsn r)) →
  (3 * S h < fuel)%nat →
  ∃ t' h' slots', redo_insert fuel t k d lsn =
      Some (t', Ok (negb (newer (records slots) k lsn) && negb (live (records slots k)))) ∧
    tree_rep t' h' slots' ∧ (h' ≤ S h)%nat ∧
    ∀ k', records slots' k' =
      match cmp k k' with
      | Eq => if newer (records slots) k lsn then records slots k' else Some (lsn, redo_data d, false, false)
      | _ => records slots k'
      end.
Proof.
  intros Ht Hlsn Hval Hfuel. pose proof (tree_rep_sorted _ _ _ Ht) as Hsorted.
  pose proof (valid_lsn_u64 lsn Hlsn) as [Hu _]. unfold redo_insert, fetch_root_from_log.
  change (match d with [] => None | _ :: _ => Some d end) with (redo_data d).
  destruct (root t) as [[nd]|] eqn:Hroot.
  - cbn [mbind option_bind]. rewrite Hroot.
    destruct (split_root_spec t h slots lsn nd Ht Hroot Hu)
      as (t1 & nd1 & h1 & -> & [Hs1 Hrep1] & Hroot1 & Hroom & Hh). cbn [mbind option_bind].
    rewrite Hroot1 in Hrep1. unfold resident_root. rewrite Hroot1. cbn [mbind option_bind].
    destruct Hs1 as (r & lr & sp & nid & ->). set (t1 := with_root t0 _ _ _ _) in *.
    destruct (redo_insert_recursive_inner_spec t1 (HK := HK) Hmax k (redo_data d) lsn Hlsn h1 fuel None None nd1 slots)
      with (nid := next_node_id t1) (al := true) (ar := true)
      as (nid' & nd' & Hi & Hrep'); [lia|done|done| |done|].
    { intros s Hf. apply valid_lsn_u64. apply (Hval (slot_record s)). unfold records.
      change (abs_find (cmp := cmp) slots k = Some s) in Hf. by rewrite Hf. }
    rewrite Hi. cbn [mbind option_bind]. eexists _, h1, _.
    destruct (redo_records slots k lsn (redo_data d) Hsorted) as [Hout Hrec].
    split; [|split; [split|split; [lia|]]].
    + do 3 f_equal. exact Hout.
    + apply same_set_root. by eexists _, _, _, _.
    + exact Hrep'.
    + exact Hrec.
  - pose proof Ht as [Hs Hrep]. rewrite Hroot in Hrep. destruct Hrep as [Hnull ->].
    assert (tree_fetch_node t (root_log_lsn t) = Some None) as ->.
    { rewrite Hnull. unfold tree_fetch_node. by destruct (log_manager t). }
    cbn [mbind option_bind]. rewrite Hroot.
    destruct (first_key_spec t k (redo_data d) lsn Hs Hu) as (t' & -> & Ht'). cbn [mbind option_bind].
    eexists t', 1%nat, _. split; [done|]. split; [done|]. split; [lia|].
    intros k'. unfold newer, records, abs_find. simpl. by destruct (cmp k k').
Qed.

Lemma tree_delete_spec t h slots k fuel :
  tree_rep t h slots → (h < fuel)%nat →
  ∃ t', tree_delete fuel t k = Some (t', (abs_delete cmp slots k).2) ∧
    tree_rep t' h (abs_delete cmp slots k).1.
Proof.
  intros [(r & lr & sp & nid & ->) Hrep] Hfuel. unfold tree_delete, get_root, fetch_root_from_log.
  simpl root in *. destruct r as [[nd]|].
  - cbn [mbind option_bind]. set (t := with_root t0 _ _ _ _).
    destruct (delete_recursive_spec t (HK := HK) k h fuel None None nd slots) as (nd' & -> & Hrep');
      [done|exact Hrep|done|].
    cbn [mbind option_bind]. eexists. split; [done|]. split; [|exact Hrep'].
    apply same_set_root. by eexists _, _, _, _.
  - destruct Hrep as [Hnull ->]. simpl in Hnull. subst lr. unfold tree_fetch_node. simpl.
    eexists. split; [by destruct (log_manager t0)|]. split; [by eexists _, _, _, _|done].
Qed.

Lemma update_key_expiration_spec t h slots k hours fuel :
  tree_rep t h slots → (h < fuel)%nat →
  ∃ t' b slots', update_key_expiration fuel t k hours = Some (t', b) ∧ tree_rep t' h slots' ∧
    (b = true → records slots k <> None) ∧ ∀ k', records slots' k' = records slots k'.
Proof.
  intros Ht Hfuel. pose proof (tree_rep_sorted _ _ _ Ht) as Hsorted.
  destruct Ht as [(r & lr & sp & nid & ->) Hrep]. unfold update_key_expiration, get_root, fetch_root_from_log.
  simpl root in *. destruct r as [[nd]|].
  - cbn [mbind option_bind]. set (t := with_root t0 _ _ _ _).
    destruct (expire_recursive_spec t (HK := HK) k hours h fuel None None nd slots)
      as (nd' & slots' & b & -> & Hrep' & Hb); [done|exact Hrep|done|].
    cbn [mbind option_bind]. eexists _, b, slots'. split; [done|].
    split; [split; [apply same_set_root; by eexists _, _, _, _|exact Hrep']|].
    destruct Hb as [[-> ->]|Hb]; [done|].
    change (abs_expire (key_comparator t0) k hours slots = (slots', b)) in Hb.
    split; [|intros k'; pose proof (proj2 (records_expire slots k hours k' Hsorted)) as Hr; by rewrite Hb in Hr].
    pose proof (proj1 (records_expire slots k hours k Hsorted)) as Hr. rewrite Hb in Hr. simpl in Hr.
    intros ->. by destruct (records slots k).
  - destruct Hrep as [Hnull ->]. simpl in Hnull. subst lr. unfold tree_fetch_node. simpl.
    eexists _, false, []. split; [by destruct (log_manager t0)|]. split; [|done].
    split; [by eexists _, _, _, _|done].
Qed.

Lemma settings_comparator t h slots : tree_rep t h slots → key_comparator t = key_comparator t0.
Proof. by intros [(? & ? & ? & ? & ->) _]. Qed.

(** An operation on the BIN of a key that always answers. *)
Lemma on_bin_spec {X} t h slots k fuel (f : BinStub → option (BinStub * X)) op (dflt : X) :
  tree_rep t h slots → local (key_comparator t0) k op → bin_does t0 k f op → (h < fuel)%nat →
  op [] = ([], dflt) →
  ∃ t' x, with_parent_bin fuel t k f = Some (t', x) ∧ default dflt x = (op slots).2 ∧
    tree_rep t' h (op slots).1.
Proof.
  intros Ht Hloc Hf Hfuel Hnil.
  destruct (with_parent_bin_spec t h slots k fuel f op Ht Hloc Hf Hfuel)
    as [(-> & -> & _)|(t' & -> & Ht')].
  - exists t, None. rewrite Hnil. by split_and!.
  - by eexists t', (Some _).
Qed.

Lemma search_spec t h slots now k fuel :
  tree_rep t h slots → (h < fuel)%nat →
  ∃ t' r, search_with_data fuel t now k = Some (t', r) ∧ tree_rep t' h slots ∧
    search_answers (records slots k) r.
Proof.
  intros [(r & lr & sp & nid & ->) Hrep] Hfuel.
  unfold search_with_data, with_parent_bin, get_root, fetch_root_from_log.
  simpl root in *. destruct r as [[nd]|].
  - cbn [mbind option_bind]. set (t := with_root t0 _ _ _ _).
    destruct (at_parent_bin_rel t (HK := HK) k _ _ (search_local t k) (search_does t now k)
                h fuel None None nd slots) as (nd' & slots' & f & -> & Hrep' & -> & Hf);
      [done|exact Hrep|done|].
    cbn [mbind option_bind]. eexists _, _. split; [done|].
    split; [split; [apply same_set_root; by eexists _, _, _, _|exact Hrep']|].
    destruct Hf as [Hkd Hf]. change (abs_find (cmp := order_of (key_comparator t)) slots k)
      with (abs_find (cmp := cmp) slots k) in *.
    unfold search_answers, records. split.
    + rewrite Hkd. by destruct (abs_find slots k).
    + destruct (sf_found f).
      * destruct Hf as (s & -> & Hdel & -> & ->). unfold is_deleted in Hdel. apply orb_false_iff in Hdel as [H1 H2].
        exists (slot_lsn s). split; [|done]. simpl. unfold slot_record. by rewrite H1, H2.
      * destruct Hf as [-> Hf]. split; [done|]. destruct (abs_find slots k) as [s|]; [|done].
        simpl. intros Hl. apply (Hf s eq_refl). unfold is_deleted.
        by destruct (known_deleted _ || pending_deleted _).
  - destruct Hrep as [Hnull ->]. simpl in Hnull. subst lr. unfold tree_fetch_node. simpl.
    eexists _, None. split; [by destruct (log_manager t0)|]. split; [|done].
    split; [by eexists _, _, _, _|done].
Qed.

(** What a step promises. *)
Definition steps (fuel : nat) (t : Tree) (h : nat) m (op : tree_op) : Prop :=
  ∃ t' h' m' out, tree_step fuel t op = Some (t', out) ∧ tree_map t' h' m' ∧ (h' ≤ S h)%nat ∧
    records_do cmp (is_locked_hook t0) m op m' out.

Lemma steps_slots fuel t h m op t' h' slots' out :
  tree_step fuel t op = Some (t', out) → tree_rep t' h' slots' → (h' ≤ S h)%nat →
  (∀ k r, records slots' k = Some r → valid_lsn (rec_lsn r)) →
  records_do cmp (is_locked_hook t0) m op (records slots') out → steps fuel t h m op.
Proof.
  intros Hstep Ht' Hh Hval Hdo. exists t', h', (records slots'), out. split; [done|].
  split; [by exists slots'|done].
Qed.

Section step.
Context (t : Tree) (h : nat) (m : key → option record) (slots : list slot) (fuel : nat).
Hypothesis Ht : tree_rep t h slots.
Hypothesis Hm : ∀ k, m k = records slots k.
Hypothesis Hval : ∀ k r, m k = Some r → valid_lsn (rec_lsn r).
Hypothesis Hfuel : (3 * S h < fuel)%nat.

Lemma records_valid k r : records slots k = Some r → valid_lsn (rec_lsn r).
Proof. rewrite <-Hm. apply Hval. Qed.

Lemma put_step k d lsn : valid_lsn lsn → steps fuel t h m (TPut k d lsn).
Proof.
  intros Hlsn. pose proof (tree_rep_sorted _ _ _ Ht) as Hs.
  destruct (insert_spec t h slots k d lsn fuel Ht) as (t' & h' & kept & slots' & Hi & Ht' & Hh & Hd & Hr);
    [by apply valid_lsn_u64|done|].
  destruct (drained_records _ _ _ Hs Hd) as [Hmd _].
  apply (steps_slots fuel t h m _ t' h' slots' (OBool (negb (live (m k))))); [|done|done| |].
  - simpl. by rewrite Hi, Hm.
  - intros k' r. rewrite Hr. simpl. intros Hk'.
    assert (records kept k' = Some r → valid_lsn (rec_lsn r)) as Hkept.
    { intros Hk. apply (records_valid k'). destruct (Hmd k') as [<-|Hk2]; [done|]. rewrite Hk in Hk2.
      simpl in Hk2. destruct (records slots k') as [[[[l0 d0] kd] pd]|]; [|done].
      by destruct (_ && _). }
    destruct (cmp k k'); [by injection Hk' as <-|by apply Hkept..].
  - split; [done|]. exists (records kept). split; [|done]. intros k'. rewrite Hm. apply Hmd.
Qed.

Lemma redo_step k d lsn : valid_lsn lsn → steps fuel t h m (TRedo k d lsn).
Proof.
  intros Hlsn.
  destruct (redo_insert_spec t h slots k d lsn fuel Ht Hlsn) as (t' & h' & slots' & Hi & Ht' & Hh & Hr);
    [by apply records_valid|done|].
  assert (newer m k lsn = newer (records slots) k lsn) as Hnew by (unfold newer; by rewrite Hm).
  apply (steps_slots fuel t h m _ t' h' slots' (OBool (negb (newer m k lsn) && negb (live (m k)))));
    [|done|done| |].
  - simpl. by rewrite Hi, Hm, Hnew.
  - intros k' r. rewrite Hr. intros Hk'.
    destruct (cmp k k'); [|by apply (records_valid k')..].
    destruct (newer _ _ _); [by apply (records_valid k')|by injection Hk' as <-].
  - split; [done|]. intros k'. by rewrite Hr, Hm, Hnew.
Qed.

Lemma del_step k : steps fuel t h m (TDel k).
Proof.
  pose proof (tree_rep_sorted _ _ _ Ht) as Hs.
  destruct (tree_delete_spec t h slots k fuel Ht ltac:(lia)) as (t' & Hd & Ht').
  assert (∀ k', records (abs_delete cmp slots k).1 k' = record_step cmp (BDel k) k' (records slots k')) as Hr
    by apply (slots_step_spec (key_comparator t0) slots (BDel k) Hs).
  destruct (abs_outputs (key_comparator t0) slots k 0 None false Hs) as (_ & Hout & _).
  apply (steps_slots fuel t h m _ t' h (abs_delete cmp slots k).1 (OBool (live (m k)))); [|done|lia| |].
  - simpl. by rewrite Hd, Hm, Hout.
  - intros k' r. rewrite Hr. simpl. destruct (cmp k k'); [done|apply (records_valid k')..].
  - split; [done|]. intros k'. rewrite Hm. apply Hr.
Qed.

Lemma mark_step k lsn pending : valid_lsn lsn → steps fuel t h m (TMark k lsn pending).
Proof.
  intros Hlsn. pose proof (tree_rep_sorted _ _ _ Ht) as Hs. pose proof (settings_comparator _ _ _ Ht) as Hkc.
  destruct (on_bin_spec t h slots k fuel (λ b, mark_deleted_in_bin (key_comparator t0) b k lsn pending)
              (λ l, abs_mark cmp l k lsn pending) false Ht (mark_local _ k lsn pending))
    as (t' & x & Hx & Hd & Ht'); [by apply mark_does, valid_lsn_u64|lia|done|].
  assert (∀ k', records (abs_mark cmp slots k lsn pending).1 k' =
            record_step cmp (BMark k lsn pending) k' (records slots k')) as Hr
    by apply (slots_step_spec (key_comparator t0) slots (BMark k lsn pending) Hs).
  destruct (abs_outputs (key_comparator t0) slots k lsn None pending Hs) as (_ & _ & Hout).
  apply (steps_slots fuel t h m _ t' h (abs_mark cmp slots k lsn pending).1 (OBool (live (m k))));
    [|done|lia| |].
  - simpl. unfold mark_deleted. rewrite Hkc, Hx. cbn [mbind option_bind]. by rewrite Hd, Hm, Hout.
  - intros k' r. rewrite Hr. simpl. destruct (cmp k k'); [|apply (records_valid k')..].
    destruct (live (records slots k')); [intros Hr2; by injection Hr2 as <-|apply (records_valid k')].
  - split; [done|]. intros k'. rewrite Hm. apply Hr.
Qed.

Lemma advance_step k lsn : valid_lsn lsn → steps fuel t h m (TAdvance k lsn).
Proof.
  intros Hlsn. pose proof (tree_rep_sorted _ _ _ Ht) as Hs. pose proof (settings_comparator _ _ _ Ht) as Hkc.
  destruct (on_bin_spec t h slots k fuel (λ b, redo_advance_in_bin (key_comparator t0) b k lsn)
              (abs_advance (key_comparator t0) k lsn) false Ht (advance_local _ k lsn))
    as (t' & x & Hx & Hd & Ht'); [by apply advance_does|lia|done|].
  assert (match records slots k with
          | Some r => rec_deleted r && (is_null (rec_lsn r) || (rec_lsn r <? lsn)) | None => false end =
          match m k with Some r => rec_deleted r && (rec_lsn r <? lsn) | None => false end) as Hadv.
  { rewrite Hm. destruct (records slots k) as [r|] eqn:Er; [|done].
    by rewrite (proj2 (valid_lsn_u64 _ (records_valid k r Er))). }
  pose proof (λ k', records_advance slots k lsn k' Hs) as Hr. cbn zeta in Hr. rewrite Hadv in Hr.
  eapply (steps_slots fuel t h m _ t' h _ (OBool _)); [|exact Ht'|lia| |].
  - simpl. unfold redo_advance_deleted_slot_lsn. rewrite Hkc, Hx. cbn [mbind option_bind].
    by rewrite Hd, (proj1 (Hr k)).
  - intros k' r. rewrite (proj2 (Hr k')). pose proof (records_valid k') as Hv.
    destruct (cmp k k'); [|apply Hv..]. destruct (records slots k') as [[[[l d] kd] pd]|]; [|done].
    destruct (match m k with Some _ => _ | None => false end); [intros Hr2; by injection Hr2 as <-|apply Hv].
  - split; [done|]. intros k'. rewrite (proj2 (Hr k')), (Hm k').
    destruct (cmp k k'), (records slots k') as [[[[l d] kd] pd]|]; done.
Qed.

Lemma slot_lsn_step k : steps fuel t h m (TSlotLsn k).
Proof.
  pose proof (settings_comparator _ _ _ Ht) as Hkc.
  destruct (on_bin_spec t h slots k fuel (λ b, r ← slot_lsn_in_bin (key_comparator t0) b k; Some (b, r))
              _ None Ht (look_local _ k _) (slot_lsn_does t0 k))
    as (t' & x & Hx & Hd & Ht'); [lia|done|].
  eapply (steps_slots fuel t h m _ t' h slots (OLsn _)); [|exact Ht'|lia|apply records_valid|].
  - simpl. unfold slot_lsn_any. rewrite Hkc, Hx. cbn [mbind option_bind].
    replace (match x with Some r => r | None => None end) with (default None x) by by destruct x.
    by rewrite Hd.
  - split; [|done]. rewrite Hm. unfold records. cbn [abs_look snd]. by destruct (abs_find slots k).
Qed.

Lemma tree_step_slots op : op_ok op = true → steps fuel t h m op.
Proof.
  assert (∀ lsn, (0 <=? lsn) && (lsn <? NULL_LSN) = true → valid_lsn lsn) as Hlsn.
  { intros lsn [?%Z.leb_le ?%Z.ltb_lt]%andb_true_iff. by split. }
  intros Hop. destruct op as [k d lsn|k d lsn|k|k lsn pending|k lsn|k hours|k|now k].
  - by apply put_step, Hlsn.
  - by apply redo_step, Hlsn.
  - apply del_step.
  - by apply mark_step, Hlsn.
  - by apply advance_step, Hlsn.
  - destruct (update_key_expiration_spec t h slots k hours fuel Ht ltac:(lia))
      as (t' & b & slots' & Hx & Ht' & Hb & Hr).
    apply (steps_slots fuel t h m _ t' h slots' (OBool b)); [simpl; by rewrite Hx|done|lia| |].
    + intros k' r. rewrite Hr. apply records_valid.
    + split; [exists b; by rewrite Hm|]. intros k'. by rewrite Hr, Hm.
  - apply slot_lsn_step.
  - destruct (search_spec t h slots now k fuel Ht ltac:(lia)) as (t' & r & Hx & Ht' & Hr).
    apply (steps_slots fuel t h m _ t' h slots (OSearch r)); [simpl; by rewrite Hx|done|lia|apply records_valid|].
    split; [exists r; by rewrite Hm|]. intros k'. by rewrite Hm.
Qed.
End step.

Lemma tree_step_spec t h m op fuel :
  tree_map t h m → op_ok op = true → (3 * S h < fuel)%nat → steps fuel t h m op.
Proof. intros (slots & Ht & Hm & Hval) Hop Hfuel. by apply (tree_step_slots t h m slots). Qed.

(** The record of a key. *)
Lemma tree_record_spec t h m k fuel :
  tree_map t h m → (h < fuel)%nat → tree_record fuel t k = Some (m k).
Proof.
  intros (slots & Ht & Hm & _) Hfuel. unfold tree_record. rewrite (settings_comparator _ _ _ Ht), Hm.
  destruct (on_bin_spec t h slots k fuel (λ b, r ← read_record (key_comparator t0) b k; Some (b, r))
              (abs_look (key_comparator t0) k (fmap slot_record)) None Ht (look_local _ k _))
    as (t' & x & -> & Hd & _); [|lia|done|].
  - apply look_does. intros lo hi b l Hok. pose proof Hok as [Hb Hmo Hs _ _ _].
    apply (read_record_spec (key_comparator t0) (tree_key_prefixing t0) b
             (λ k, slot_record <$> abs_find (cmp := cmp) l k) k). split; [done|]. by exists l.
  - cbn [mbind option_bind]. replace (match x with Some r => r | None => None end) with (default None x)
      by by destruct x. by rewrite Hd.
Qed.
End tree.

(** ** Sequences of operations *)

Lemma tree_run_spec t0 (HK : KeyOrder (order_of (key_comparator t0)))
    (Hmax : (3 ≤ max_entries_per_node t0)%nat ∧ Z.of_nat (max_entries_per_node t0) < 2 ^ 16)
    (Hcompact : tree_compact_max_key_length t0 < 2 ^ 16) fuel ops : ∀ t h m,
  tree_map t0 t h m → forallb op_ok ops = true → (3 * (h + length ops) + 3 < fuel)%nat →
  ∃ t' outs m' h', run_steps (tree_step fuel) t ops = Some (t', outs) ∧
    records_run (order_of (key_comparator t0)) (is_locked_hook t0) m ops outs m' ∧
    tree_map t0 t' h' m' ∧ (h' ≤ h + length ops)%nat.
Proof.
  induction ops as [|op ops IH]; intros t h m Ht Hops Hfuel.
  { exists t, [], m, h. split; [done|]. split; [done|]. split; [done|lia]. }
  simpl in Hops, Hfuel. apply andb_true_iff in Hops as [Hop Hops].
  destruct (tree_step_spec t0 Hmax Hcompact t h m op fuel Ht Hop ltac:(lia))
    as (t1 & h1 & m1 & out & Hstep & Ht1 & Hh & Hdo).
  destruct (IH t1 h1 m1 Ht1 Hops ltac:(lia)) as (t' & outs & m' & h' & Hrun & Hrec & Ht' & Hh').
  exists t', (out :: outs), m', h'. cbn [run_steps]. rewrite Hstep. cbn [mbind option_bind].
  rewrite Hrun. split; [done|]. split; [by exists m1|]. split; [done|]. simpl. lia.
Qed.

Lemma empty_tree_map t :
  root t = None → root_log_lsn t = NULL_LSN → tree_map t t 0 (λ _, None).
Proof.
  intros Hr Hl. exists []. split; [|done]. split; [|by rewrite Hr].
  exists (root t), (root_log_lsn t), (root_splits t), (next_node_id t). by destruct t.
Qed.

(** An insertion while the root is evicted: the first-key path does not look
    at [root_log_lsn], and every record the logged root leads to is gone. *)
Lemma insert_forgets_evicted_root t k d lsn fuel k'
    (HK : KeyOrder (order_of (key_comparator t)))
    (Hmax : (3 ≤ max_entries_per_node t)%nat ∧ Z.of_nat (max_entries_per_node t) < 2 ^ 16)
    (Hcompact : tree_compact_max_key_length t < 2 ^ 16) :
  root t = None → valid_lsn lsn → (1 < fuel)%nat → order_of (key_comparator t) k k' <> Eq →
  ∃ t', insert fuel t k d lsn = Some (t', Ok true) ∧ tree_record fuel t' k' = Some None.
Proof.
  intros Hroot Hlsn Hfuel Hk. unfold insert. rewrite Hroot.
  assert (same_settings t t) as Hs.
  { exists (root t), (root_log_lsn t), (root_splits t), (next_node_id t). by destruct t. }
  destruct (first_key_spec t Hmax Hcompact t k (Some d) lsn Hs) as (t' & -> & Ht');
    [by apply valid_lsn_u64|]. cbn [mbind option_bind]. exists t'. split; [done|].
  set (slots := [(k, lsn, _)]) in Ht'.
  rewrite (tree_record_spec t Hmax t' 1 (records t slots) k' fuel); [|exists slots|lia].
  - f_equal. unfold records, abs_find, slots. simpl. by destruct (order_of (key_comparator t) k k').
  - split; [done|]. split; [done|]. intros k2 r. unfold records, abs_find, slots. simpl.
    destruct (order_of (key_comparator t) k k2); [|done..]. simpl. intros Hr. by injection Hr as <-.
Qed.

(** * Properties *)

(** C2. A tree is a map of records.  On a tree that stores the map [m] (its
    BINs hold exactly the records of [m]; nodes that are not in memory count as
    what their LSN fetches from the log), any sequence of insertions, redo
    insertions, deletions, delete marks, redo advances of deleted slots, new
    expiration times, slot lookups and searches runs without a panic and with
    bounded recursion, through every fetch, drain and split on the way down.
    Each operation answers what the map answers and changes the record of its
    own key only: last write wins, a redo keeps an equal or newer version, and
    an insertion may also drop records that are marked deleted and whose LSN
    nobody has locked.  Afterwards the tree is again a search tree of the same
    order and fanout that stores the resulting map, and a lookup of any key
    reads its record. *)
Theorem tree_refines_record_map (t : Tree) (h : nat) (m : key → option record) (ops : list tree_op)
  (fuel : nat) (HK : KeyOrder (key_cmp t))
  (Hmax : (3 ≤ max_entries_per_node t)%nat ∧ Z.of_nat (max_entries_per_node t) < 2 ^ 16)
  (Hcompact : tree_compact_max_key_length t < 2 ^ 16)
  (Ht : tree_map t t h m) (Hops : forallb op_ok ops = true)
  (Hfuel : (3 * (h + length ops) + 3 < fuel)%nat) :
  ∃ t' outs m' h', run_steps (tree_step fuel) t ops = Some (t', outs) ∧
    records_run (key_cmp t) (is_locked_hook t) m ops outs m' ∧
    tree_map t t' h' m' ∧ (h' ≤ h + length ops)%nat ∧
    ∀ k, tree_record fuel t' k = Some (m' k).
Proof.
  destruct (tree_run_spec t HK Hmax Hcompact fuel ops t h m Ht Hops Hfuel)
    as (t' & outs & m' & h' & Hrun & Hrec & Ht' & Hh).
  exists t', outs, m', h'. split; [done|]. split; [done|]. split; [done|]. split; [done|].
  intros k. apply (tree_record_spec t Hmax t' h'); [done|lia].
Qed.

(** Twelve keys in a tree of fanout 4, a deletion, a delete mark, a redo that
    is too old, and lookups. *)
Definition demo_tree_ops : list tree_op :=
  ((λ i, TPut [i] [i; i] (100 + i)) <$> [1; 2; 3; 4; 5; 6; 7; 8; 9; 10; 11; 12]) ++
  [TDel [5]; TMark [7] 200 false; TRedo [8] [1] 90; TRedo [9] [1] 300; TSlotLsn [7]; TSlotLsn [5]; TSlotLsn [9]].

Lemma tree_refines_record_map_witness :
  (∃ t' outs m' h', run_steps (tree_step 70) (Tree_new 1 4) demo_tree_ops = Some (t', outs) ∧
    records_run compare_unsigned_bytes None (λ _, None) demo_tree_ops outs m' ∧
    tree_map (Tree_new 1 4) t' h' m' ∧ (h' ≤ 19)%nat ∧
    ∀ k, tree_record 70 t' k = Some (m' k)) ∧
  (λ r : Tree * list tree_out, (root_splits r.1, drop 12 r.2)) <$>
    run_steps (tree_step 70) (Tree_new 1 4) demo_tree_ops =
  Some (1, [OBool true; OBool true; OBool false; OBool false; OLsn (Some (200, true)); OLsn None;
            OLsn (Some (300, false))]).
Proof.
  split; [|by vm_compute].
  apply (tree_refines_record_map (Tree_new 1 4) 0 (λ _, None) demo_tree_ops 70).
  - exact bytes_order.
  - simpl. split; [lia|done].
  - done.
  - by apply empty_tree_map.
  - done.
  - simpl. lia.
Defined.
