(* ===== verification/Recovery.v ===== *)
(** * Redo and undo (noxu-recovery, [recovery_manager.rs])

    The passes over the leaf entries of the log: the redo of the writes of
    committed, prepared and non-transactional entries, the chains of rolled
    back transactions, the undo of everything else, and the collection of the
    entries of prepared transactions.

    The trees are used through the class [RecordTree]: the operations of
    [Tree] that recovery calls, with the law [TreeLaws] that they act on a map
    of records.  The real tree is an instance, with the fuel of its recursions.
    The redo of logged nodes ([apply_in_redo_to_trees]), which runs before the
    redo of leaf entries, the statistics and the progress marks are not
    modelled: the passes start from the trees it leaves.

    [None] is a panic, or a tree operation that is out of fuel. *)

From stdpp Require Import sorting.
From S2P Require Import Prelude Bytes Packed Lsn Keys LsnRep TargetRep InNode Bin BinMap NodeImage BinLog Tree TreeRep TreeMap RecoveryLog Rollback Analysis.

(** ** Trees, as recovery sees them *)

Class RecordTree (T : Type) := {
  rt_step : T → tree_op → option (T * tree_out);
  rt_database_id : T → Z;
  rt_comparator : T → option (key → key → comparison);
}.

Inductive RedoAction := Apply | Skip.

Inductive UndoAction := RevertToAbortLsn (abort_lsn : Z) | DeleteSlot | NoAction.

Section passes.
Context {T : Type} `{RecordTree T} {Sc : Type} `{LogScanner Sc}.

(** ** Redo *)

Definition redo_ln_expiration (t : T) (rec : LnRecord) : option T :=
  if ln_expiration rec =? 0 then Some t
  else '(t, _) ← rt_step t (TExpire (ln_key rec) (as_u 32 (ln_expiration rec))); Some t.

Definition apply_redo_ln (t : T) (rec : LnRecord) (lsn : Z) : option T :=
  if negb (rt_database_id t =? ln_db_id rec) then Some t
  else
    match ln_operation rec with
    | LnInsert | LnUpdate =>
        '(t, r) ← rt_step t (TRedo (ln_key rec) (default [] (ln_data rec)) lsn);
        match r with
        | OErr _ => Some t
        | _ => redo_ln_expiration t rec
        end
    | LnDelete =>
        '(t, r) ← rt_step t (TSlotLsn (ln_key rec));
        match r with
        | OLsn (Some (slot_lsn, false)) =>
            current ← or_m (is_null slot_lsn) (lsn_ge lsn slot_lsn);
            if current : bool then '(t, _) ← rt_step t (TMark (ln_key rec) lsn false); Some t
            else Some t
        | OLsn (Some (_, true)) => '(t, _) ← rt_step t (TAdvance (ln_key rec) lsn); Some t
        | _ => Some t
        end
    end.

Definition gated (seeded : gset Z) (ckpt_start lsn : Z) (rec : LnRecord) : option bool :=
  before ← (if ckpt_start =? NULL_LSN then Some false else lsn_lt lsn ckpt_start);
  Some (before && bool_decide (ln_db_id rec ∈ seeded)).

Definition eligible_for_redo_static (tracker : RollbackTracker) (seeded : gset Z) (lsn : Z)
    (rec : LnRecord) (ckpt_start : Z) (txns : TxnSets) : option RedoAction :=
  if ln_is_invisible rec then Some Skip
  else
    rolled ← is_in_rollback_period tracker lsn;
    if rolled : bool then Some Skip
    else
      gate_active ← gated seeded ckpt_start lsn rec;
      Some (match ln_txn_id rec with
            | None => if gate_active : bool then Skip else Apply
            | Some txn_id =>
                if is_prepared txns txn_id then Apply
                else if is_committed txns txn_id then (if gate_active : bool then Skip else Apply)
                else Skip
            end).

(** What the redo pass changes: the trees, the pairs of version and log
    sequence numbers, and the number of entries that the gate skipped. *)
Record RedoState := {
  rs_trees : gmap Z T;
  rs_vlsn_pairs : list (Z * Z);
  rs_lns_gated : Z;
}.

Definition redo_one (st : RedoState) (lsn : Z) (rec : LnRecord) : option RedoState :=
  let pairs := match ln_vlsn rec with Some v => rs_vlsn_pairs st ++ [(v, lsn)] | None => rs_vlsn_pairs st end in
  trees ← match rs_trees st !! ln_db_id rec with
          | Some t => t ← apply_redo_ln t rec lsn; Some (<[ln_db_id rec := t]> (rs_trees st))
          | None => Some (rs_trees st)
          end;
  Some {| rs_trees := trees; rs_vlsn_pairs := pairs; rs_lns_gated := rs_lns_gated st |}.

Definition and_m (a : bool) (b : option bool) : option bool := if a then b else Some false.

(** The count of skipped entries that the seeded root covers. *)
Definition counts_gated (tracker : RollbackTracker) (seeded : gset Z) (lsn : Z) (rec : LnRecord)
    (ckpt_start : Z) (txns : TxnSets) : option bool :=
  g ← gated seeded ckpt_start lsn rec;
  and_m (g && negb (ln_is_invisible rec))
    (rolled ← is_in_rollback_period tracker lsn;
     Some (negb rolled && match ln_txn_id rec with Some t => is_committed txns t | None => true end)).

Definition redo_entry (tracker : RollbackTracker) (seeded : gset Z) (ckpt_start : Z) (txns : TxnSets)
    (st : RedoState) (pe : PositionedEntry) : option RedoState :=
  match pe_entry pe with
  | ELn rec =>
      action ← eligible_for_redo_static tracker seeded (pe_lsn pe) rec ckpt_start txns;
      match action with
      | Apply => redo_one st (pe_lsn pe) rec
      | Skip =>
          c ← counts_gated tracker seeded (pe_lsn pe) rec ckpt_start txns;
          Some (if c : bool
                then {| rs_trees := rs_trees st; rs_vlsn_pairs := rs_vlsn_pairs st;
                        rs_lns_gated := rs_lns_gated st + 1 |}
                else st)
      end
  | _ => Some st
  end.

(** The start of the second scan, from the bounds that the analysis left. *)
Definition stream_redo_lns (s : Sc) (tracker : RollbackTracker) (seeded : gset Z) (c : CkptBounds)
    (txns : TxnSets) (st : RedoState) : option RedoState :=
  scan_forward_fn s (scan_start c) (find_end_of_log s).2
    (redo_entry tracker seeded (checkpoint_start_lsn c) txns) st.

Fixpoint dedup_by_key (l : list (Z * Z)) : list (Z * Z) :=
  match l with
  | [] => []
  | x :: l =>
      match dedup_by_key l with
      | y :: l' => if x.1 =? y.1 then x :: l' else x :: y :: l'
      | [] => [x]
      end
  end.

(** The pairs for the index of version numbers; [sort] is the sort by version
    number, which may leave equal numbers in any order. *)
Definition recovered_vlsns (sort : list (Z * Z) → list (Z * Z)) (st : RedoState)
    (txncommit_vlsns : list (Z * Z)) : list (Z * Z) :=
  dedup_by_key (sort (rs_vlsn_pairs st ++ txncommit_vlsns)).

Definition run_redo_lns (s : Sc) (a : AnState) (seeded : gset Z) (trees : gmap Z T)
    : option RedoState :=
  stream_redo_lns s (an_rollback a) seeded (ckpt (an_result a)) (txns (an_result a))
    {| rs_trees := trees; rs_vlsn_pairs := []; rs_lns_gated := 0 |}.

(** ** Chains of rolled-back transactions *)

Definition active_lns (ids : list Z) (log : list PositionedEntry) : list (Z * (Z * LnRecord)) :=
  omap (λ pe, match pe_entry pe with
              | ELn rec =>
                  txn ← ln_txn_id rec;
                  if bool_decide (as_i 64 txn ∈ ids) then Some (as_i 64 txn, (pe_lsn pe, rec)) else None
              | _ => None
              end) log.

Definition per_txn (l : list (Z * (Z * LnRecord))) (txn : Z) : list (Z * LnRecord) :=
  omap (λ x : Z * (Z * LnRecord), if x.1 =? txn then Some x.2 else None) l.

Definition chain_of (trees : gmap Z T) (matchpoint : Z) (logrecs : list (Z * LnRecord))
    : option TxnChain :=
  match logrecs with
  | [] => None
  | (_, rec) :: _ =>
      TxnChain_build logrecs matchpoint
        (order_of (t ← trees !! ln_db_id rec; rt_comparator t))
  end.

(** The transactions of a period, in the order of their first entry: each goes
    to its own key of the map. *)
Definition period_chains (s : Sc) (trees : gmap Z T) (chains : gmap (Z * Z) TxnChain)
    (p : RollbackPeriod) : option (gmap (Z * Z) TxnChain) :=
  if (rollback_start_lsn p =? NULL_LSN) || bool_decide (active_txn_ids p = []) then Some chains
  else
    log ← scan_forward s NULL_LSN (rollback_start_lsn p);
    let lns := active_lns (active_txn_ids p) log in
    fold_m (λ m txn, c ← chain_of trees (matchpoint_lsn p) (per_txn lns txn);
                     Some (<[(matchpoint_lsn p, txn) := c]> m))
      chains (remove_dups lns.*1).

Definition build_rollback_chains (s : Sc) (tracker : RollbackTracker) (trees : gmap Z T)
    : option (gmap (Z * Z) TxnChain) :=
  fold_m (period_chains s trees) ∅ (rollback_periods tracker ++ pending_periods tracker).

(** ** Undo *)

Definition compute_undo_action (rec : LnRecord) : UndoAction :=
  if ln_abort_lsn rec =? NULL_LSN then DeleteSlot else RevertToAbortLsn (ln_abort_lsn rec).

Definition undo_slot_is_current (t : T) (k : key) (log_lsn : Z) : option (T * bool) :=
  '(t, r) ← rt_step t (TSlotLsn k);
  Some (t, match r with OLsn (Some (lsn, _)) => lsn =? log_lsn | _ => false end).

Definition tree_do (t : T) (op : tree_op) : option T := '(t, _) ← rt_step t op; Some t.

Definition revert_to_deleted (t : T) (k : key) (revert_lsn : Z) : option T :=
  if is_null revert_lsn then tree_do t (TDel k) else tree_do t (TMark k revert_lsn false).

Definition apply_revert_info (t : T) (s : Sc) (rec : LnRecord) (log_lsn : Z) (ri : RevertInfo)
    : option T :=
  '(t, current) ← undo_slot_is_current t (ln_key rec) log_lsn;
  if negb current then Some t
  else if revert_kd ri || revert_pd ri then revert_to_deleted t (ln_key rec) (revert_lsn ri)
  else
    match revert_data ri with
    | Some d => tree_do t (TPut (default (ln_key rec) (revert_key ri)) d (revert_lsn ri))
    | None =>
        if revert_lsn ri =? NULL_LSN then tree_do t (TDel (ln_key rec))
        else
          match read_at_lsn s (revert_lsn ri) with
          | Some (ELn prev) =>
              match ln_data prev with
              | Some d => tree_do t (TPut (default (ln_key prev) (revert_key ri)) d (revert_lsn ri))
              | None => revert_to_deleted t (ln_key rec) (revert_lsn ri)
              end
          | _ => tree_do t (TDel (ln_key rec))
          end
    end.

(** The before-image of an entry goes back into its slot. *)
Definition revert_to_abort_lsn (t : T) (s : Sc) (rec : LnRecord) (abort_lsn : Z) : option T :=
  if ln_abort_known_deleted rec then tree_do t (TDel (ln_key rec))
  else
    match ln_abort_data rec with
    | Some d => tree_do t (TPut (default (ln_key rec) (ln_abort_key rec)) d abort_lsn)
    | None =>
        match read_at_lsn s abort_lsn with
        | Some (ELn before) =>
            match ln_data before with
            | Some d => tree_do t (TPut (default (ln_key before) (ln_abort_key before)) d abort_lsn)
            | None => tree_do t (TDel (ln_key rec))
            end
        | _ => tree_do t (TDel (ln_key rec))
        end
    end.

Definition undo_ln (t : T) (s : Sc) (rec : LnRecord) (lsn : Z) : option T :=
  let action := compute_undo_action rec in
  '(t, current) ← match action with
                  | NoAction => Some (t, true)
                  | _ => undo_slot_is_current t (ln_key rec) lsn
                  end;
  if negb current then Some t
  else
    match action with
    | DeleteSlot => tree_do t (TDel (ln_key rec))
    | RevertToAbortLsn abort_lsn => revert_to_abort_lsn t s rec abort_lsn
    | NoAction => Some t
    end.

Record UndoState := {
  us_trees : gmap Z T;
  us_chains : gmap (Z * Z) TxnChain;
  us_obsolete : list Z;
  us_invisible : list Z;
}.

Definition us_with_trees (st : UndoState) (trees : gmap Z T) : UndoState :=
  {| us_trees := trees; us_chains := us_chains st; us_obsolete := us_obsolete st;
     us_invisible := us_invisible st |}.

(** An entry of a rollback period: its chain gives the version it returns to. *)
Definition rollback_ln (s : Sc) (st : UndoState) (lsn txn_id : Z) (rec : LnRecord)
    (p : RollbackPeriod) : option UndoState :=
  let invisible := if is_complete p then us_invisible st else us_invisible st ++ [lsn] in
  let k := (matchpoint_lsn p, as_i 64 txn_id) in
  match us_chains st !! k with
  | None =>
      Some {| us_trees := us_trees st; us_chains := us_chains st; us_obsolete := us_obsolete st;
              us_invisible := invisible |}
  | Some chain =>
      match TxnChain_pop chain with
      | None =>
          Some {| us_trees := us_trees st; us_chains := us_chains st;
                  us_obsolete := us_obsolete st; us_invisible := invisible |}
      | Some (ri, chain) =>
          let chains := <[k := chain]> (us_chains st) in
          match us_trees st !! ln_db_id rec with
          | None =>
              Some {| us_trees := us_trees st; us_chains := chains; us_obsolete := us_obsolete st;
                      us_invisible := invisible |}
          | Some t =>
              t ← apply_revert_info t s rec lsn ri;
              Some {| us_trees := <[ln_db_id rec := t]> (us_trees st); us_chains := chains;
                      us_obsolete := us_obsolete st ++ [lsn]; us_invisible := invisible |}
          end
      end
  end.

Definition undo_entry (s : Sc) (tracker : RollbackTracker) (txns : TxnSets) (st : UndoState)
    (pe : PositionedEntry) : option UndoState :=
  match pe_entry pe with
  | ELn rec =>
      match ln_txn_id rec with
      | None => Some st
      | Some txn_id =>
          period ← find_period_for_ln tracker (pe_lsn pe) (as_i 64 txn_id);
          match period with
          | Some p => rollback_ln s st (pe_lsn pe) txn_id rec p
          | None =>
              rolled ← is_in_rollback_period tracker (pe_lsn pe);
              if rolled : bool then Some st
              else if is_rollback_active_txn tracker (as_i 64 txn_id) then Some st
              else if is_committed txns txn_id then Some st
              else if is_prepared txns txn_id then Some st
              else
                match us_trees st !! ln_db_id rec with
                | None => Some st
                | Some t =>
                    t ← undo_ln t s rec (pe_lsn pe);
                    Some (us_with_trees st (<[ln_db_id rec := t]> (us_trees st)))
                end
          end
      end
  | _ => Some st
  end.

Definition count_rolled_back (m : gmap Z RebuiltFileSummary) (lsn : Z) : gmap Z RebuiltFileSummary :=
  let f := file_number lsn in
  <[f := count_obsolete_ln (default RebuiltFileSummary_default (m !! f))]> m.

(** The trees, the rebuilt summaries and the LSNs to mark invisible. *)
Definition run_undo_all (s : Sc) (tracker : RollbackTracker) (c : CkptBounds) (txns : TxnSets)
    (summaries : gmap Z RebuiltFileSummary) (trees : gmap Z T)
    : option (gmap Z T * gmap Z RebuiltFileSummary * list Z) :=
  let last_used := (find_end_of_log s).1 in
  if last_used =? NULL_LSN then Some (trees, summaries, [])
  else
    chains ← build_rollback_chains s tracker trees;
    if negb (has_active_txns txns) && bool_decide (aborted_txns txns = ∅) && bool_decide (chains = ∅)
    then Some (trees, summaries, [])
    else
      let stop := if first_active_lsn c =? NULL_LSN then Lsn_new 0 0 else first_active_lsn c in
      entries ← scan_backward s last_used stop;
      st ← fold_m (undo_entry s tracker txns)
             {| us_trees := trees; us_chains := chains; us_obsolete := []; us_invisible := [] |} entries;
      Some (us_trees st, foldl count_rolled_back summaries (us_obsolete st), us_invisible st).

(** ** Entries of prepared transactions *)

Record PreparedLnReplay := {
  pr_db_id : Z;
  pr_original_lsn : Z;
  pr_operation : LnOperation;
  pr_key : key;
  pr_data : option (list Z);
  pr_abort_lsn : Z;
  pr_abort_known_deleted : bool;
  pr_abort_data : option (list Z);
  pr_abort_key : option key;
}.

Definition prepared_before_image (s : Sc) (rec : LnRecord) : option (list Z) * option key :=
  match ln_abort_data rec with
  | Some d => (Some d, ln_abort_key rec)
  | None =>
      if negb (ln_abort_known_deleted rec) && negb (ln_abort_lsn rec =? NULL_LSN) then
        match read_at_lsn s (ln_abort_lsn rec) with
        | Some (ELn before) =>
            (ln_data before,
             match ln_abort_key before with Some k => Some k | None => Some (ln_key before) end)
        | _ => (None, None)
        end
      else (None, None)
  end.

Definition prepared_replay (s : Sc) (lsn : Z) (rec : LnRecord) : PreparedLnReplay :=
  let '(abort_data, abort_key) := prepared_before_image s rec in
  {| pr_db_id := ln_db_id rec; pr_original_lsn := lsn; pr_operation := ln_operation rec;
     pr_key := ln_key rec; pr_data := ln_data rec; pr_abort_lsn := ln_abort_lsn rec;
     pr_abort_known_deleted := ln_abort_known_deleted rec; pr_abort_data := abort_data;
     pr_abort_key := abort_key |}.

Definition collect_entry (s : Sc) (txns : TxnSets)
    (st : gmap Z (list PreparedLnReplay) * gmap Z (list NameLnRecord)) (pe : PositionedEntry)
    : option (gmap Z (list PreparedLnReplay) * gmap Z (list NameLnRecord)) :=
  let '(by_txn, names_by_txn) := st in
  match pe_entry pe with
  | ENameLn rec =>
      Some (match nl_txn_id rec with
            | Some txn =>
                if is_prepared txns txn
                then (by_txn, <[txn := default [] (names_by_txn !! txn) ++ [rec]]> names_by_txn)
                else st
            | None => st
            end)
  | ELn rec =>
      Some (match ln_txn_id rec with
            | Some txn =>
                if is_prepared txns txn
                then (<[txn := default [] (by_txn !! txn) ++ [prepared_replay s (pe_lsn pe) rec]]> by_txn,
                      names_by_txn)
                else st
            | None => st
            end)
  | _ => Some st
  end.

Definition collect_prepared_txn_lns (s : Sc) (c : CkptBounds) (txns : TxnSets)
    : option (gmap Z (list PreparedLnReplay) * gmap Z (list NameLnRecord)) :=
  if bool_decide (prepared_txns txns = ∅) then Some (∅, ∅)
  else scan_forward_fn s (scan_start c) (find_end_of_log s).2 (collect_entry s txns) (∅, ∅).

(** ** The passes in order *)

(** From the trees after the redo of nodes: the redo of leaf entries, then the
    undo. *)
Definition recover_lns (s : Sc) (a : AnState) (seeded : gset Z) (trees : gmap Z T)
    : option (gmap Z T) :=
  st ← run_redo_lns s a seeded trees;
  '(trees, _, _) ← run_undo_all s (an_rollback a) (ckpt (an_result a)) (txns (an_result a))
                     (rebuilt_file_summaries (an_result a)) (rs_trees st);
  Some trees.
End passes.
