(* ===== verification/RecoveryMap.v ===== *)
(** * Recovery restores the committed records

    The redo and undo passes of [Recovery] over trees that store maps of
    records ([TreeLaws], satisfied by [Tree]): after them every record is the
    last write of a committed, prepared or non-transactional entry. *)

From stdpp Require Import sorting.
From S2P Require Import Prelude Bytes Packed Lsn Keys LsnRep TargetRep InNode Bin BinMap NodeImage BinLog Tree TreeRep TreeMap RecoveryLog Rollback Analysis Recovery.

(** ** What recovery asks of a tree *)

(** [rt_stores n t m]: the tree stores the map [m] of records and can run [n]
    more operations. *)
Class TreeLaws (T : Type) `{RecordTree T} := {
  rt_stores : nat → T → (key → option record) → Prop;
  rt_order n t m : rt_stores n t m → KeyOrder (order_of (rt_comparator t));
  rt_valid n t m k r : rt_stores n t m → m k = Some r → valid_lsn (rec_lsn r);
  rt_equal n t m k k' :
    rt_stores n t m → order_of (rt_comparator t) k k' = Eq → m k' = m k;
  rt_less n t m : rt_stores (S n) t m → rt_stores n t m;
  rt_ext n t m m' : rt_stores n t m → (∀ k, m' k = m k) → rt_stores n t m';
  rt_law n t m op : rt_stores (S n) t m → op_ok op = true →
    ∃ t' m' out hook, rt_step t op = Some (t', out) ∧ rt_stores n t' m' ∧
      records_do (order_of (rt_comparator t)) hook m op m' out ∧
      rt_database_id t' = rt_database_id t ∧ rt_comparator t' = rt_comparator t;
}.

(** ** The tree *)

(** A tree whose recursions run with the given fuel. *)
Definition FueledTree (fuel : nat) : Type := Tree.

#[export] Instance tree_record_tree fuel : RecordTree (FueledTree fuel) := {|
  rt_step := tree_step fuel; rt_database_id := database_id; rt_comparator := key_comparator |}.

Definition tree_stores (fuel n : nat) (t : Tree) (m : key → option record) : Prop :=
  ∃ h, KeyOrder (key_cmp t) ∧
    ((3 ≤ max_entries_per_node t)%nat ∧ Z.of_nat (max_entries_per_node t) < 2 ^ 16) ∧
    tree_compact_max_key_length t < 2 ^ 16 ∧ tree_map t t h m ∧ (3 * (h + n) + 3 < fuel)%nat.

(** A tree reached from [t0] stands on its own. *)
Lemma tree_map_self t0 t h m : tree_map t0 t h m → same_settings t0 t ∧ tree_map t t h m.
Proof.
  intros (slots & [(r & l & sp & nid & ->) Hrep] & Hm & Hv). split; [by eexists _, _, _, _|].
  exists slots. split; [|done]. split; [|done]. exists r, l, sp, nid. done.
Qed.

Lemma tree_law fuel n t m op :
  tree_stores fuel (S n) t m → op_ok op = true →
  ∃ t' m' out hook, tree_step fuel t op = Some (t', out) ∧ tree_stores fuel n t' m' ∧
    records_do (key_cmp t) hook m op m' out ∧
    database_id t' = database_id t ∧ key_comparator t' = key_comparator t.
Proof.
  intros (h & HK & Hmax & Hc & Ht & Hfuel) Hop.
  destruct (tree_step_spec t (HK := HK) Hmax Hc t h m op fuel Ht Hop ltac:(lia))
    as (t' & h' & m' & out & Hs & Ht' & Hh & Hdo).
  destruct (tree_map_self t t' h' m' Ht') as [(r & l & sp & nid & ->) Hself].
  eexists _, m', out, _. split; [done|]. split; [|done].
  exists h'. split; [done|]. split; [done|]. split; [done|]. split; [done|lia].
Qed.

#[export] Instance tree_laws fuel : TreeLaws (FueledTree fuel).
Proof.
  refine {| rt_stores := tree_stores fuel : nat → FueledTree fuel → _ → Prop |}.
  - by intros n t m (h & HK & _).
  - intros n t m k r (h & _ & _ & _ & (slots & _ & _ & Hv) & _). apply Hv.
  - intros n t m k k' (h & HK & _ & _ & (slots & Ht & Hm & _) & _) E. rewrite !Hm.
    apply (records_eq t (HK := HK)); [exact (tree_rep_sorted t (HK := HK) t h slots Ht)|done].
  - intros n t m (h & HK & Hmax & Hc & Ht & Hf). exists h. split; [done|]. split; [done|]. split; [done|].
    split; [done|lia].
  - intros n t m m' (h & HK & Hmax & Hc & (slots & Ht & Hm & Hv) & Hf) He. exists h.
    split; [done|]. split; [done|]. split; [done|]. split; [|done]. exists slots. split; [done|].
    split; [intros k; by rewrite He|]. intros k r. rewrite He. apply Hv.
  - exact (tree_law fuel).
Defined.

(** ** One entry *)

(** What the redo of an entry makes of the record of its key. *)
Definition redo_record (lsn : Z) (rec : LnRecord) (r : option record) : option record :=
  match ln_operation rec with
  | LnDelete =>
      match r with
      | Some (l, d, kd, pd) =>
          if kd || pd then (if l <? lsn then Some (lsn, d, kd, pd) else r)
          else (if l <=? lsn then Some (lsn, None, true, false) else r)
      | None => None
      end
  | _ =>
      if match r with Some r => lsn <=? rec_lsn r | None => false end then r
      else Some (lsn, redo_data (default [] (ln_data rec)), false, false)
  end.

Section entries.
Context {T : Type} `{RT : RecordTree T} `{TL : !TreeLaws T} {Sc : Type} `{LS : LogScanner Sc}.

(** The tree after a step, with its settings. *)
Definition becomes (n : nat) (t t' : T) (m' : key → option record) : Prop :=
  rt_stores n t' m' ∧ rt_database_id t' = rt_database_id t ∧ rt_comparator t' = rt_comparator t.

Lemma becomes_trans n n' t1 t2 t3 m2 m3 :
  becomes n t1 t2 m2 → becomes n' t2 t3 m3 → becomes n' t1 t3 m3.
Proof. intros (_ & Hi & Hc) (Hs & Hi' & Hc'). split; [done|]. by rewrite Hi', Hc'. Qed.

Lemma step_law n t m op :
  rt_stores (S n) t m → op_ok op = true →
  ∃ t' m' out hook, rt_step t op = Some (t', out) ∧ becomes n t t' m' ∧
    records_do (order_of (rt_comparator t)) hook m op m' out.
Proof.
  intros Hs Hop. destruct (rt_law n t m op Hs Hop) as (t' & m' & out & hook & H1 & H2 & H3 & H4).
  exists t', m', out, hook. by split_and!.
Qed.

Lemma op_ok_lsn lsn : valid_lsn lsn → (0 <=? lsn) && (lsn <? NULL_LSN) = true.
Proof. intros [H1 H2]. apply andb_true_iff. split; [by apply Z.leb_le|by apply Z.ltb_lt]. Qed.

Abbreviation at_key t rec k' := (order_of (rt_comparator t) (ln_key rec) k').

Lemma becomes_less n t t' m' : becomes (S n) t t' m' → becomes n t t' m'.
Proof. intros (? & ? & ?). split; [by apply rt_less|done]. Qed.

(** The redo of a write. *)
Lemma redo_put_law n t m rec lsn d :
  rt_stores (S (S n)) t m → valid_lsn lsn →
  ∃ t' m', ('(t, r) ← rt_step t (TRedo (ln_key rec) d lsn);
            match r with OErr _ => Some t | _ => redo_ln_expiration t rec end) = Some t' ∧ becomes n t t' m' ∧
    ∀ k', m' k' = match at_key t rec k' with
                  | Eq => if newer m (ln_key rec) lsn then m k' else Some (lsn, redo_data d, false, false)
                  | _ => m k'
                  end.
Proof.
  intros Hs Hlsn. destruct (step_law (S n) t m (TRedo (ln_key rec) d lsn) Hs (op_ok_lsn lsn Hlsn))
    as (t1 & m1 & out & hook & -> & Hb & -> & Hm1). cbn [mbind option_bind]. unfold redo_ln_expiration.
  destruct (ln_expiration rec =? 0).
  - exists t1, m1. split; [done|]. split; [by apply becomes_less|done].
  - destruct (step_law n t1 m1 (TExpire (ln_key rec) (as_u 32 (ln_expiration rec))) (proj1 Hb) eq_refl)
      as (t2 & m2 & out2 & hook2 & -> & Hb2 & _ & Hm2). cbn [mbind option_bind].
    exists t2, m2. split; [done|]. split; [by eapply becomes_trans|]. intros k'. by rewrite Hm2, Hm1.
Qed.

(** The redo of a deletion, after the look at the slot. *)
Lemma redo_delete_law n t m rec lsn l d kd pd :
  rt_stores (S n) t m → valid_lsn lsn → m (ln_key rec) = Some (l, d, kd, pd) →
  ln_operation rec = LnDelete →
  ∃ t' m', (if kd || pd then '(t, _) ← rt_step t (TAdvance (ln_key rec) lsn); Some t
            else current ← or_m (is_null l) (lsn_ge lsn l);
                 if current : bool then '(t, _) ← rt_step t (TMark (ln_key rec) lsn false); Some t
                 else Some t) = Some t' ∧ becomes n t t' m' ∧
    ∀ k', m' k' = match at_key t rec k' with Eq => redo_record lsn rec (m k') | _ => m k' end.
Proof.
  intros Hs Hlsn Em Eop. pose proof (rt_valid _ _ _ _ _ Hs Em) as Hl. unfold redo_record. rewrite Eop.
  assert (∀ k', at_key t rec k' = Eq → m k' = Some (l, d, kd, pd)) as Hk.
  { intros k' E. by rewrite (rt_equal _ _ _ _ _ Hs E). }
  unfold rec_lsn in Hl. cbn [fst] in Hl. destruct (kd || pd) eqn:Ed.
  - destruct (step_law n t m (TAdvance (ln_key rec) lsn) Hs (op_ok_lsn lsn Hlsn))
      as (t2 & m2 & out2 & hook2 & -> & Hb2 & _ & Hm2). cbn [mbind option_bind].
    exists t2, m2. split; [done|]. split; [done|]. intros k'.
    rewrite Hm2, Em. unfold rec_deleted, rec_lsn. cbn [fst snd]. rewrite Ed. cbn [andb].
    destruct (at_key t rec k') eqn:E; [|done..]. by rewrite (Hk k' E), Ed.
  - rewrite (proj2 (valid_lsn_u64 _ Hl)). unfold or_m, lsn_ge. rewrite lsn_le_valid by done.
    cbn [mbind option_bind]. destruct (l <=? lsn) eqn:El.
    + destruct (step_law n t m (TMark (ln_key rec) lsn false) Hs (op_ok_lsn lsn Hlsn))
        as (t2 & m2 & out2 & hook2 & -> & Hb2 & _ & Hm2). cbn [mbind option_bind].
      exists t2, m2. split; [done|]. split; [done|]. intros k'. rewrite Hm2. cbn [record_step].
      destruct (at_key t rec k') eqn:E; [|done..]. rewrite (Hk k' E). unfold live. by rewrite Ed, El.
    + exists t, m. split; [done|]. split; [by split; [apply rt_less|]|]. intros k'.
      destruct (at_key t rec k') eqn:E; [|done..]. by rewrite (Hk k' E), Ed, El.
Qed.

Lemma apply_redo_ln_spec n t m rec lsn :
  rt_stores (S (S n)) t m → valid_lsn lsn → rt_database_id t = ln_db_id rec →
  ∃ t' m', apply_redo_ln t rec lsn = Some t' ∧ becomes n t t' m' ∧
    ∀ k', m' k' = match at_key t rec k' with Eq => redo_record lsn rec (m k') | _ => m k' end.
Proof.
  intros Hs Hlsn Hid. unfold apply_redo_ln. rewrite Hid, Z.eqb_refl. cbn [negb].
  destruct (ln_operation rec) eqn:Eop.
  1,2: destruct (redo_put_law n t m rec lsn (default [] (ln_data rec)) Hs Hlsn) as (t' & m' & Hr & Hb & Hm');
       exists t', m'; (split; [exact Hr|]); (split; [done|]); intros k'; rewrite Hm'; unfold redo_record; rewrite Eop;
       destruct (at_key t rec k') eqn:E; [|done..]; unfold newer; by rewrite (rt_equal _ _ _ _ _ Hs E).
  destruct (step_law (S n) t m (TSlotLsn (ln_key rec)) Hs eq_refl)
    as (t1 & m1 & out & hook & -> & Hb & -> & Hm1). cbn [mbind option_bind].
  destruct (m (ln_key rec)) as [[[[l d] kd] pd]|] eqn:Em; cbn [fmap option_fmap option_map].
  - destruct (redo_delete_law n t1 m1 rec lsn l d kd pd (proj1 Hb) Hlsn) as (t' & m' & Hr & Hb' & Hm');
      [by rewrite Hm1|done|].
    exists t', m'. unfold rec_lsn, rec_deleted. cbn [fst snd]. split; [|split; [by eapply becomes_trans|]].
    + by destruct (kd || pd).
    + intros k'. by rewrite Hm', (proj2 (proj2 Hb)), Hm1.
  - exists t1, m1. split; [done|]. split; [by apply becomes_less|]. intros k'. rewrite Hm1.
    destruct (at_key t rec k') eqn:E; [|done..]. unfold redo_record. by rewrite Eop, (rt_equal _ _ _ _ _ Hs E), Em.
Qed.

(** *** Undo *)

(** The key and the data of the version that an undone entry returns to. *)
Definition before_image (s : Sc) (rec : LnRecord) : option (key * list Z) :=
  if (ln_abort_lsn rec =? NULL_LSN) || ln_abort_known_deleted rec then None
  else
    match ln_abort_data rec with
    | Some d => Some (default (ln_key rec) (ln_abort_key rec), d)
    | None =>
        match read_at_lsn s (ln_abort_lsn rec) with
        | Some (ELn before) =>
            d ← ln_data before; Some (default (ln_key before) (ln_abort_key before), d)
        | _ => None
        end
    end.

(** The slot holds the version that was logged at [lsn]. *)
Definition current (r : option record) (lsn : Z) : bool :=
  match r with Some r => rec_lsn r =? lsn | None => false end.

(** The part of [undo_ln] after the check of the slot. *)
Lemma revert_law n t m s rec :
  rt_stores (S n) t m → bound_ok (ln_abort_lsn rec) →
  ∃ t' m', match compute_undo_action rec with
           | DeleteSlot => tree_do t (TDel (ln_key rec))
           | RevertToAbortLsn l => revert_to_abort_lsn t s rec l
           | NoAction => Some t
           end = Some t' ∧ becomes n t t' m' ∧
    match before_image s rec with
    | None => ∀ k', m' k' = match at_key t rec k' with Eq => None | _ => m k' end
    | Some (bk, d) =>
        ∃ hook m0, may_drain (order_of (rt_comparator t)) hook m m0 ∧
          ∀ k', m' k' = match order_of (rt_comparator t) bk k' with
                        | Eq => Some (ln_abort_lsn rec, Some d, false, false) | _ => m0 k' end
    end.
Proof.
  intros Hs Hab.
  assert (∃ t' m', tree_do t (TDel (ln_key rec)) = Some t' ∧ becomes n t t' m' ∧
            ∀ k', m' k' = match at_key t rec k' with Eq => None | _ => m k' end) as Hdel.
  { destruct (step_law n t m (TDel (ln_key rec)) Hs eq_refl) as (t' & m' & out & hook & Hst & Hb & _ & Hm).
    exists t', m'. unfold tree_do. by rewrite Hst. }
  assert (∀ bk d l, valid_lsn l → ∃ t' m', tree_do t (TPut bk d l) = Some t' ∧ becomes n t t' m' ∧
            ∃ hook m0, may_drain (order_of (rt_comparator t)) hook m m0 ∧
              ∀ k', m' k' = match order_of (rt_comparator t) bk k' with
                            | Eq => Some (l, Some d, false, false) | _ => m0 k' end) as Hput.
  { intros bk d l Hl. destruct (step_law n t m (TPut bk d l) Hs (op_ok_lsn l Hl))
      as (t' & m' & out & hook & Hst & Hb & _ & m0 & Hd & Hm).
    exists t', m'. unfold tree_do. rewrite Hst. split; [done|]. split; [done|]. by exists hook, m0. }
  unfold compute_undo_action, before_image. destruct Hab as [Hn|Hv].
  { rewrite Hn. exact Hdel. }
  assert ((ln_abort_lsn rec =? NULL_LSN) = false) as -> by exact (proj2 (valid_lsn_u64 _ Hv)).
  unfold revert_to_abort_lsn. destruct (ln_abort_known_deleted rec); [exact Hdel|]. cbn [orb].
  destruct (ln_abort_data rec) as [d|]; [by apply Hput|].
  destruct (read_at_lsn s (ln_abort_lsn rec)) as [e|]; [|exact Hdel].
  destruct e as [?|before|?|?|?|?|?|?|?|?|?|?]; try exact Hdel.
  destruct (ln_data before) as [d|]; [by apply Hput|exact Hdel].
Qed.

Lemma undo_ln_spec n t m s rec lsn :
  rt_stores (S (S n)) t m → bound_ok (ln_abort_lsn rec) →
  ∃ t' m', undo_ln t s rec lsn = Some t' ∧ becomes n t t' m' ∧
    if current (m (ln_key rec)) lsn then
      match before_image s rec with
      | None => ∀ k', m' k' = match at_key t rec k' with Eq => None | _ => m k' end
      | Some (bk, d) =>
          ∃ hook m0, may_drain (order_of (rt_comparator t)) hook m m0 ∧
            ∀ k', m' k' = match order_of (rt_comparator t) bk k' with
                          | Eq => Some (ln_abort_lsn rec, Some d, false, false) | _ => m0 k' end
      end
    else ∀ k', m' k' = m k'.
Proof.
  intros Hs Hab. unfold undo_ln.
  assert (match compute_undo_action rec with
          | NoAction => Some (t, true) | _ => undo_slot_is_current t (ln_key rec) lsn end =
          undo_slot_is_current t (ln_key rec) lsn) as ->.
  { unfold compute_undo_action. by destruct (_ =? _). }
  unfold undo_slot_is_current.
  destruct (step_law (S n) t m (TSlotLsn (ln_key rec)) Hs eq_refl)
    as (t1 & m1 & out & hook & -> & Hb & -> & Hm1). cbn [mbind option_bind].
  assert (match (λ r, (rec_lsn r, rec_deleted r)) <$> m (ln_key rec) with
          | Some (l, _) => l =? lsn | None => false end = current (m (ln_key rec)) lsn) as ->
    by by destruct (m (ln_key rec)).
  destruct (current (m (ln_key rec)) lsn); cbn [negb].
  - destruct (revert_law n t1 m1 s rec (proj1 Hb) Hab) as (t' & m' & -> & Hb' & Hm').
    exists t', m'. split; [done|]. split; [by eapply becomes_trans|].
    rewrite (proj2 (proj2 Hb)) in Hm'. destruct (before_image s rec) as [[bk d]|].
    + destruct Hm' as (hk & m0 & Hd & Hm'). exists hk, m0. split; [|done]. intros k'.
      specialize (Hd k'). by rewrite Hm1 in Hd.
    + intros k'. by rewrite Hm', Hm1.
  - exists t1, m1. split; [done|]. split; [by apply becomes_less|done].
Qed.
End entries.

(** ** The versions of one record *)

(** What a reader sees of a record. *)
Definition visible (r : option record) : option (Z * list Z) :=
  match r with Some (l, d, false, false) => Some (l, default [] d) | _ => None end.

Definition is_delete (rec : LnRecord) : bool :=
  match ln_operation rec with LnDelete => true | _ => false end.

Definition version (x : Z * LnRecord) : option (Z * list Z) :=
  if is_delete x.2 then None else Some (x.1, default [] (ln_data x.2)).

Definition last_version (l : list (Z * LnRecord)) : option (Z * list Z) :=
  last l ≫= version.

(** The slot [r] holds the version that was logged as [x]. *)
Definition holds_version (r : record) (x : Z * LnRecord) : Prop :=
  rec_lsn r = x.1 ∧ rec_deleted r = is_delete x.2 ∧ visible (Some r) = version x.

Definition lsn_lt2 (x y : Z * LnRecord) : Prop := x.1 < y.1.

Definition redo_all (r : option record) (l : list (Z * LnRecord)) : option record :=
  foldl (λ r x, redo_record x.1 x.2 r) r l.

Lemma default_redo_data d : default [] (redo_data d) = d.
Proof. by destruct d. Qed.

(** A newer version always takes the slot; only the redo of a deletion leaves
    an empty slot empty. *)
Lemma redo_record_newer r x :
  (∀ r', r = Some r' → rec_lsn r' < x.1) →
  visible (redo_record x.1 x.2 r) = version x ∧
  ∀ r', redo_record x.1 x.2 r = Some r' → holds_version r' x.
Proof.
  intros Hlt.
  assert (is_delete x.2 = false → ∀ d, redo_record x.1 x.2 r = Some (x.1, d, false, false) →
    default [] d = default [] (ln_data x.2) →
    visible (redo_record x.1 x.2 r) = version x ∧
    ∀ r', redo_record x.1 x.2 r = Some r' → holds_version r' x) as Hput.
  { intros Hx d Hr Hd. rewrite Hr. unfold holds_version, visible, version. rewrite Hx, Hd.
    split; [done|]. intros r' [= <-]. by rewrite Hd. }
  unfold redo_record in *. destruct (ln_operation x.2) eqn:Eop.
  1,2: assert (match r with Some r' => x.1 <=? rec_lsn r' | None => false end = false) as Hnew
         by (destruct r as [r'|]; [apply Z.leb_gt; by apply Hlt|done]);
       rewrite Hnew in *; eapply Hput; [unfold is_delete; by rewrite Eop|done|apply default_redo_data].
  clear Hput. assert (is_delete x.2 = true) as Hx by (unfold is_delete; by rewrite Eop).
  unfold holds_version, version. rewrite !Hx.
  destruct r as [[[[l d] kd] pd]|]; [|done]. specialize (Hlt _ eq_refl).
  unfold rec_lsn, rec_deleted in *. simpl in Hlt. destruct (kd || pd) eqn:Ed.
  - rewrite (proj2 (Z.ltb_lt _ _) Hlt). split; [by destruct kd, pd|]. intros r' [= <-].
    split; [done|]. split; [done|]. by destruct kd, pd.
  - rewrite (proj2 (Z.leb_le _ _)) by lia. split; [done|]. by intros r' [= <-].
Qed.

(** An older version never does. *)
Lemma redo_record_older r x y :
  holds_version r y → x.1 ≤ y.1 → (x.1 = y.1 → x = y) →
  redo_record x.1 x.2 (Some r) = Some r.
Proof.
  intros (Hl & Hd & _) Hle Heq. unfold redo_record. destruct r as [[[l d] kd] pd].
  unfold rec_lsn, rec_deleted in *. simpl in *. subst l.
  destruct (ln_operation x.2) eqn:Eop; [by rewrite (proj2 (Z.leb_le _ _) Hle)..|].
  rewrite Hd. destruct (Z.eq_dec x.1 y.1) as [E|E].
  - specialize (Heq E) as ->. unfold is_delete. rewrite Eop. by rewrite Z.ltb_irrefl.
  - destruct (is_delete y.2); [by rewrite (proj2 (Z.ltb_ge _ _)) by lia|].
    by rewrite (proj2 (Z.leb_gt _ _)) by lia.
Qed.

Lemma sorted_snoc_inv {A : Type} (R : A → A → Prop) l x :
  StronglySorted R (l ++ [x]) → StronglySorted R l ∧ Forall (λ y, R y x) l.
Proof.
  induction l as [|y l IH]; simpl; [by split; constructor|].
  intros [Hs Hy]%StronglySorted_inv. destruct (IH Hs) as [Hl Hx].
  apply Forall_app in Hy as [Hy Hyx]. apply Forall_inv in Hyx.
  split; [by constructor|by apply List.Forall_cons].
Qed.

Lemma versions_sorted_filter {A : Type} (R : A → A → Prop) (P : A → bool) l :
  StronglySorted R l → StronglySorted R (filter P l).
Proof.
  induction 1 as [|x l Hs IH Hx]; [constructor|]. rewrite filter_bool_cons.
  destruct (P x); [|done]. constructor; [done|]. apply Forall_forall. intros y.
  rewrite list_elem_of_filter. intros [_ Hy]. by apply (proj1 (Forall_forall _ _) Hx).
Qed.

Lemma sorted_last {A : Type} (R : A → A → Prop) l x y :
  StronglySorted R l → last l = Some x → y ∈ l → y = x ∨ R y x.
Proof.
  destruct l as [|z l _] using rev_ind; [done|]. intros [_ Hz]%sorted_snoc_inv. rewrite last_snoc.
  intros [= ->] [Hy| ->%list_elem_of_singleton]%elem_of_app; [|by left].
  right. by apply (proj1 (Forall_forall _ _) Hz).
Qed.

(** The redo of a list of versions in the order of the log. *)
Lemma redo_all_spec r0 l :
  StronglySorted lsn_lt2 l →
  (∀ r, r0 = Some r → ∃ y, holds_version r y ∧ ∀ x, x ∈ l → x.1 = y.1 → x = y) →
  (redo_all r0 l = r0 ∧ (r0 = None → l = []) ∧
     ∀ r y, r0 = Some r → holds_version r y → Forall (λ x, x.1 ≤ y.1) l) ∨
  (∃ x, last l = Some x ∧ visible (redo_all r0 l) = version x ∧
     ∀ r, redo_all r0 l = Some r → holds_version r x).
Proof.
  induction l as [|x l IH] using rev_ind; intros Hs Hr0; [left; by split_and!|].
  unfold redo_all. rewrite foldl_app. simpl. fold (redo_all r0 l).
  apply sorted_snoc_inv in Hs as [Hs Hx].
  assert (∀ r', redo_all r0 l = Some r' → rec_lsn r' < x.1 → (∃ x0, last (l ++ [x]) = Some x0 ∧
     visible (redo_record x.1 x.2 (redo_all r0 l)) = version x0 ∧
     ∀ r, redo_record x.1 x.2 (redo_all r0 l) = Some r → holds_version r x0)) as Hnew.
  { intros r' Hr' Hlt. exists x. rewrite last_snoc. split; [done|]. apply redo_record_newer.
    intros r2 Hr2. rewrite Hr' in Hr2. by injection Hr2 as <-. }
  destruct IH as [(He & Hnil & Hall)|(x0 & Hlast & Hv & Hh)]; [done| | |].
  { intros r Hr. destruct (Hr0 r Hr) as (y & Hy & Hu). exists y. split; [done|].
    intros z Hz. apply Hu. apply elem_of_app. by left. }
  - destruct r0 as [r|].
    + destruct (Hr0 r eq_refl) as (y & Hy & Hu). destruct (Z_lt_le_dec y.1 x.1) as [Hlt|Hle].
      * right. apply (Hnew r); [done|]. by destruct Hy as [-> _].
      * left. rewrite He. split; [|split; [done|]].
        { apply (redo_record_older r x y); [done|done|]. apply Hu. apply elem_of_app. right. left. }
        intros r2 y2 [= <-] Hy2. apply Forall_app. split; [by eapply Hall|].
        apply List.Forall_cons; [|constructor]. destruct Hy as [E _], Hy2 as [E2 _]. lia.
    + right. exists x. rewrite last_snoc. split; [done|]. rewrite He. by apply redo_record_newer.
  - right. exists x. rewrite last_snoc. split; [done|]. apply redo_record_newer.
    intros r Hr. destruct (Hh r Hr) as [-> _]. apply last_Some_elem_of in Hlast.
    by apply (proj1 (Forall_forall _ _) Hx).
Qed.

(** ** The history of a key *)

Definition is_eq (c : comparison) : bool := match c with Eq => true | _ => false end.

Definition ln_at (cmp : key → key → comparison) (db : Z) (k : key) (pe : PositionedEntry)
    : option (Z * LnRecord) :=
  match pe_entry pe with
  | ELn rec => if (ln_db_id rec =? db) && is_eq (cmp (ln_key rec) k) then Some (pe_lsn pe, rec) else None
  | _ => None
  end.

(** The versions of a record that the log has. *)
Definition lns_of cmp db k (log : list PositionedEntry) : list (Z * LnRecord) :=
  omap (ln_at cmp db k) log.

(** The entry counts: it has no transaction, or its transaction committed or is
    prepared. *)
Definition wins (txns : TxnSets) (rec : LnRecord) : bool :=
  match ln_txn_id rec with
  | None => true
  | Some txn => is_committed txns txn || is_prepared txns txn
  end.

(** The record of a key as the transactions of the log leave it. *)
Definition committed (txns : TxnSets) cmp db k log : option (Z * list Z) :=
  last_version (filter (λ x, wins txns x.2) (lns_of cmp db k log)).

Lemma elem_of_lns_of cmp db k log x :
  x ∈ lns_of cmp db k log ↔
  {| pe_lsn := x.1; pe_entry := ELn x.2 |} ∈ log ∧ ln_db_id x.2 = db ∧ cmp (ln_key x.2) k = Eq.
Proof.
  unfold lns_of. rewrite list_elem_of_omap. unfold ln_at. split.
  - intros ([l e] & Hin & Hx). simpl in Hx. destruct e; try done.
    destruct (_ && _) eqn:E; [|done]. injection Hx as <-. simpl.
    apply andb_true_iff in E as [?%Z.eqb_eq E]. by destruct (cmp _ k).
  - intros (Hin & Hdb & Hk). exists {| pe_lsn := x.1; pe_entry := ELn x.2 |}. split; [done|]. simpl.
    rewrite Hdb, Z.eqb_refl, Hk. by destruct x.
Qed.

Lemma lns_of_app cmp db k l1 l2 : lns_of cmp db k (l1 ++ l2) = lns_of cmp db k l1 ++ lns_of cmp db k l2.
Proof. apply omap_app. Qed.

Lemma lns_of_sorted cmp db k log : log_wf log → StronglySorted lsn_lt2 (lns_of cmp db k log).
Proof.
  intros [_ Hs]. induction Hs as [|pe log Hs IH Hall]; [constructor|]. simpl.
  destruct (ln_at cmp db k pe) as [x|] eqn:E; [|done]. constructor; [done|].
  apply Forall_forall. intros y (Hy & _)%elem_of_lns_of.
  apply (proj1 (Forall_forall _ _) Hall) in Hy. unfold lsn_lt2, lsn_before in *. simpl in Hy.
  unfold ln_at in E. destruct (pe_entry pe); try done. destruct (_ && _); [|done]. by injection E as <-.
Qed.

Lemma lns_of_unique cmp db k log x y :
  log_wf log → x ∈ lns_of cmp db k log → y ∈ lns_of cmp db k log → x.1 = y.1 → x = y.
Proof.
  intros Hwf (Hx & _)%elem_of_lns_of (Hy & _)%elem_of_lns_of E.
  apply (entry_at_elem _ _ Hwf) in Hx, Hy. simpl in *. rewrite E, Hy in Hx.
  destruct x, y. simpl in *. by simplify_eq.
Qed.

(** The versions of equal keys. *)
Lemma lns_of_equal cmp `{!KeyOrder cmp} db k k' log :
  cmp k k' = Eq → lns_of cmp db k log = lns_of cmp db k' log.
Proof.
  intros E. induction log as [|pe log IH]; [done|]. simpl. rewrite IH.
  assert (ln_at cmp db k pe = ln_at cmp db k' pe) as ->; [|done].
  unfold ln_at. destruct (pe_entry pe); try done. by rewrite (cmp_eq_r k k' _ E).
Qed.

(** ** Redo, for one key *)

Section key_history.
Context (txns : TxnSets) (seeded : gset Z) (ckpt_start : Z).

(** The checkpoint image covers the entry. *)
Definition gate (x : Z * LnRecord) : bool :=
  negb (ckpt_start =? NULL_LSN) && (x.1 <? ckpt_start) && bool_decide (ln_db_id x.2 ∈ seeded).

Definition of_prepared (rec : LnRecord) : bool :=
  match ln_txn_id rec with Some txn => is_prepared txns txn | None => false end.

(** The entries that the redo pass applies, and the winners that it leaves to
    the checkpoint image. *)
Definition redone (x : Z * LnRecord) : bool := wins txns x.2 && (of_prepared x.2 || negb (gate x)).
Definition covered (x : Z * LnRecord) : bool := wins txns x.2 && negb (redone x).

(** A prepared transaction keeps its locks: nobody else writes the record
    after it. *)
Definition locks_kept (h : list (Z * LnRecord)) : Prop :=
  ∀ x y, x ∈ h → y ∈ h → x.1 < y.1 → of_prepared x.2 = true → ln_txn_id y.2 = ln_txn_id x.2.

(** The record that the checkpoint image and the logged nodes give a key is one
    of its versions, not older than any winner that the redo pass leaves out,
    and not an uncommitted deletion, unless the redo of a later winner replaces
    it; without a record no winner that is left out is live. *)
Definition image_ok (r : option record) (h : list (Z * LnRecord)) : Prop :=
  match r with
  | None => last_version (filter covered h) = None
  | Some r => ∃ x, x ∈ h ∧ holds_version r x ∧ (∀ w, w ∈ h → covered w = true → w.1 ≤ x.1) ∧
      (wins txns x.2 = false → is_delete x.2 = true → ∃ w, w ∈ h ∧ redone w = true ∧ x.1 < w.1)
  end.

(** The record is the one the winners leave. *)
Definition settled (r : option record) (h : list (Z * LnRecord)) : Prop :=
  visible r = last_version (filter (λ x, wins txns x.2) h) ∧
  ∀ r', r = Some r' → ∃ w, w ∈ h ∧ wins txns w.2 = true ∧ rec_lsn r' = w.1.

(** The record is the write of a loser, which no winner follows. *)
Definition pending (r : option record) (h : list (Z * LnRecord)) (x : Z * LnRecord) : Prop :=
  ∃ r', r = Some r' ∧ holds_version r' x ∧ x ∈ h ∧ wins txns x.2 = false ∧ is_delete x.2 = false ∧
    ∀ w, w ∈ h → wins txns w.2 = true → w.1 < x.1.

Lemma covered_before_redone h x y :
  locks_kept h → x ∈ h → y ∈ h → covered x = true → redone y = true → ln_db_id x.2 = ln_db_id y.2 →
  y.1 < x.1 → False.
Proof.
  unfold covered, redone. intros Hlocks Hx Hy Hcx Hry Hdb Hlt.
  apply andb_true_iff in Hcx as [Hw Hnr]. rewrite Hw in Hnr. simpl in Hnr.
  apply negb_true_iff, orb_false_iff in Hnr as [Hnp Hg]. apply negb_false_iff in Hg.
  apply andb_true_iff in Hry as [Hwy Hor]. apply orb_true_iff in Hor as [Hp|Hng].
  - pose proof (Hlocks y x Hy Hx Hlt Hp) as E. unfold of_prepared in *. rewrite E in Hnp. congruence.
  - unfold gate in *. rewrite Hdb in Hg.
    apply andb_true_iff in Hg as [[Hg1 Hg2%Z.ltb_lt]%andb_true_iff Hg3].
    rewrite Hg1, Hg3, (proj2 (Z.ltb_lt y.1 ckpt_start)) in Hng by lia. done.
Qed.

Lemma last_winner h w :
  StronglySorted lsn_lt2 h → w ∈ h → wins txns w.2 = true →
  (∀ w', w' ∈ h → wins txns w'.2 = true → w'.1 ≤ w.1) → (∀ w', w' ∈ h → w'.1 = w.1 → w' = w) →
  last (filter (λ x, wins txns x.2) h) = Some w.
Proof.
  induction h as [|x h IH] using rev_ind; intros Hs Hin Hw Hmax Hu; [by apply elem_of_nil in Hin|].
  apply sorted_snoc_inv in Hs as [Hs Hx].
  rewrite filter_app, filter_bool_cons, filter_nil.
  apply elem_of_app in Hin as [Hin| ->%list_elem_of_singleton]; [|by rewrite Hw, last_snoc].
  pose proof (proj1 (Forall_forall _ _) Hx w Hin) as Hlt. unfold lsn_lt2 in Hlt.
  destruct (wins txns x.2) eqn:Ex.
  { specialize (Hmax x ltac:(apply elem_of_app; right; left) Ex). lia. }
  rewrite app_nil_r. apply IH; [done|done|done| |]; intros w' Hw'; [apply Hmax|apply Hu]; apply elem_of_app; by left.
Qed.

(** The redo of the winners that the image does not cover. *)
Lemma redo_settles r h db :
  StronglySorted lsn_lt2 h → (∀ x y, x ∈ h → y ∈ h → x.1 = y.1 → x = y) →
  (∀ x, x ∈ h → ln_db_id x.2 = db) → locks_kept h → image_ok r h →
  settled (redo_all r (filter redone h)) h ∨ ∃ x, pending (redo_all r (filter redone h)) h x.
Proof.
  intros Hs Hu Hdb Hlocks Himg.
  assert (∀ w, w ∈ h → wins txns w.2 = true → covered w = true ∨ redone w = true) as Hsplit.
  { intros w Hw Hwin. unfold covered. rewrite Hwin. destruct (redone w); [by right|by left]. }
  destruct (redo_all_spec r (filter redone h)) as [(He & Hnil & Hall)|(x & Hx & Hv & Hh)].
  - by apply versions_sorted_filter.
  - intros r' ->. destruct Himg as (x & Hx & Hh & _). exists x. split; [done|].
    intros y Hy. apply list_elem_of_filter in Hy as [_ Hy]. by apply Hu.
  - rewrite He. destruct r as [r|].
    + destruct Himg as (x & Hx & Hh & Hcov & Hdel).
      assert (∀ w, w ∈ h → wins txns w.2 = true → w.1 ≤ x.1) as Hmax.
      { intros w Hw Hwin. destruct (Hsplit w Hw Hwin) as [Hc|Hr]; [by apply Hcov|].
        apply (proj1 (Forall_forall _ _) (Hall r x eq_refl Hh) w). apply list_elem_of_filter.
        split; [by rewrite Hr|done]. }
      destruct (wins txns x.2) eqn:Ewin.
      * left. pose proof Hh as (Hl & _ & Hv). split.
        { rewrite Hv. unfold last_version. by rewrite (last_winner h x) by naive_solver. }
        intros r' [= <-]. by exists x.
      * right. exists x, r. split; [done|]. split; [done|]. split; [done|]. split; [done|].
        split.
        { destruct (is_delete x.2); [|done]. destruct (Hdel eq_refl eq_refl) as (w & Hw & Hr & Hlt).
          pose proof Hr as [Hwin _]%andb_true_iff. specialize (Hmax w Hw Hwin). lia. }
        intros w Hw Hwin. specialize (Hmax w Hw Hwin).
        destruct (Z.eq_dec w.1 x.1) as [E|]; [|lia]. apply (Hu w x Hw Hx) in E. congruence.
    + left. split; [|done]. simpl in *. rewrite <-Himg. f_equal. apply filter_bool_ext.
      intros w Hw. unfold covered. destruct (redone w) eqn:Er; [|by rewrite andb_true_r].
      assert (w ∈ filter redone h) as Hin by (apply list_elem_of_filter; by rewrite Er).
      rewrite (Hnil eq_refl) in Hin. by apply elem_of_nil in Hin.
  - pose proof Hx as (Hr & Hin)%last_Some_elem_of%list_elem_of_filter.
    apply Is_true_true in Hr. pose proof Hr as [Hwin _]%andb_true_iff.
    left. assert (last (filter (λ x, wins txns x.2) h) = Some x) as Hlast.
    { apply last_winner; [done|done|done| |by intros w' Hw'; apply Hu].
      intros w Hw Hww. destruct (Hsplit w Hw Hww) as [Hc|Hrw].
      - destruct (Z_lt_le_dec x.1 w.1); [|done]. exfalso.
        apply (covered_before_redone h w x); try done. by rewrite !Hdb.
      - destruct (sorted_last lsn_lt2 _ x w (versions_sorted_filter _ redone _ Hs) Hx) as [->|Hlt];
          [apply list_elem_of_filter; by rewrite Hrw|done|unfold lsn_lt2 in Hlt; lia]. }
    split; [unfold last_version; by rewrite Hlast|].
    intros r' Hr'. exists x. split; [done|]. split; [done|]. by destruct (Hh r' Hr').
Qed.
End key_history.

(** ** Logs without rollbacks *)

Lemma seen_all c log : log_wf log → scan_start c = 0 → seen c log = log.
Proof.
  intros [Hv _] H0. unfold seen. rewrite H0. induction Hv as [|pe log [Hl _] _ IH]; [done|].
  rewrite filter_bool_cons, IH. unfold above. by rewrite (proj2 (Z.leb_le 0 _) Hl), orb_true_r.
Qed.

(** An entry of a log in which nothing was rolled back to a matchpoint.  The
    checkpointer logs [Lsn(0,0)] as the first active LSN of every checkpoint. *)
Definition plain_entry (pe : PositionedEntry) : Prop :=
  match pe_entry pe with
  | ELn rec => ln_is_invisible rec = false ∧ bound_ok (ln_abort_lsn rec)
  | ECkptEnd rec => bound_ok (ce_checkpoint_start_lsn rec) ∧ ce_first_active_lsn rec = 0
  | ERollbackStart _ | ERollbackEnd _ => False
  | _ => True
  end.

Lemma plain_entry_ok pe : plain_entry pe → entry_ok (pe_entry pe).
Proof.
  unfold plain_entry, entry_ok. destruct (pe_entry pe); try done.
  intros [H1 ->]. split; [done|]. right. by vm_compute.
Qed.

Lemma fold_m_keeps {A S : Type} (f : S → A → option S) (I : S → Prop) l s s' :
  fold_m f s l = Some s' → I s → (∀ s x s', x ∈ l → f s x = Some s' → I s → I s') → I s'.
Proof.
  revert s. induction l as [|x l IH]; simpl; intros s Hf Hs Hstep; [by injection Hf as <-|].
  apply bind_Some in Hf as (s1 & Hx & Hf). apply (IH s1 Hf).
  - apply (Hstep s x); [left|done|done].
  - intros s2 y s3 Hy. apply Hstep. by right.
Qed.

Lemma process_plain s pe s' :
  plain_entry pe → process s pe = Some s' →
  an_rollback s' = an_rollback s ∧
  (scan_start (ckpt (an_result s)) = 0 → scan_start (ckpt (an_result s')) = 0).
Proof.
  unfold plain_entry, process. intros Hp.
  assert (an_rollback (relog_step s (pe_entry pe)) = an_rollback s ∧
          ckpt (an_result (relog_step s (pe_entry pe))) = ckpt (an_result s)) as [<- <-]
    by by destruct (pe_entry pe).
  generalize (relog_step s (pe_entry pe)). clear s. intros s Hs.
  destruct (pe_entry pe) as [rec|rec|rec|rec|rec|rec|rec|rec|rec|rec|rec|rec]; try done;
    try (injection Hs as <-; done).
  - unfold analyze_in in Hs. apply bind_Some in Hs as (b & _ & Hs).
    destruct b; [|by injection Hs as <-]. apply bind_Some in Hs as (r & Hr & Hs). injection Hs as <-.
    unfold record_dirty_in in Hr. apply bind_Some in Hr as (b & _ & Hr). by injection Hr as <-.
  - injection Hs as <-. split; [done|]. unfold analyze_ln. simpl. by destruct (ln_txn_id rec).
  - apply bind_Some in Hs as (r & Hr & Hs). injection Hs as <-.
    unfold analyze_ckpt_end in Hr. apply bind_Some in Hr as (b & _ & Hr). injection Hr as <-.
    split; [done|]. simpl. destruct b; [|done]. unfold scan_start. simpl. by rewrite (proj2 Hp).
Qed.

(** The analysis of such a log finds no rollback, and leaves bounds from which
    the other passes read the whole log. *)
Lemma run_analysis_plain `{LS : LogScanner Sc} (s : Sc) (log : list PositionedEntry)
    {Sco : ScannerOf s log} c a :
  ckpt_ok c → scan_start c = 0 → Forall plain_entry log → run_analysis s c = Some a →
  an_rollback a = RollbackTracker_new ∧ ckpt_ok (ckpt (an_result a)) ∧
  scan_start (ckpt (an_result a)) = 0 ∧
  txns (an_result a) = foldl txn_step TxnSets_new (pe_entry <$> log).
Proof.
  intros Hc H0 Hplain Hrun.
  destruct (run_analysis_total c Hc) as (a' & Hrun' & Ht & _ & Hck).
  { apply Forall_forall. intros pe Hpe. by apply plain_entry_ok, (proj1 (Forall_forall _ _) Hplain). }
  rewrite Hrun in Hrun'. injection Hrun' as <-.
  assert (seen c log = log) as Hseen by (apply seen_all; [apply scanner_log|done]).
  rewrite Hseen in Ht. revert Hrun. unfold run_analysis, scan_forward_fn. rewrite (scan_seen c Hc), Hseen.
  cbn [mbind option_bind]. intros Hrun.
  apply bind_Some in Hrun as (st & Hfold & Hrun).
  assert (an_rollback st = RollbackTracker_new ∧ scan_start (ckpt (an_result st)) = 0) as [Hr Hs].
  { apply (fold_m_keeps process (λ st, an_rollback st = RollbackTracker_new ∧
      scan_start (ckpt (an_result st)) = 0) log (AnState_new c)); [done|by split|].
    intros s1 pe s2 Hpe Hs [Hr Hz]. apply (proj1 (Forall_forall _ _) Hplain) in Hpe.
    destruct (process_plain s1 pe s2 Hpe Hs) as [-> Hk]. split; [done|by apply Hk]. }
  assert (an_rollback a = an_rollback st ∧ ckpt (an_result a) = ckpt (an_result st)) as [Ha Hca].
  { case_bool_decide; [by injection Hrun as <-|]. apply bind_Some in Hrun as (m & _ & Hrun).
    by injection Hrun as <-. }
  rewrite Ha. split; [done|]. split; [done|]. by rewrite Hca.
Qed.

(** ** The passes *)

Section log_passes.
Context {T : Type} `{RT : RecordTree T} `{TL : !TreeLaws T} {Sc : Type} `{LS : LogScanner Sc}.
Context (C : Z → option (key → key → comparison)).

Abbreviation cmp db := (order_of (C db)).

(** The trees store the maps of their databases and can run [n] operations. *)
Definition trees_store (n : nat) (trees : gmap Z T) (M : Z → key → option record) : Prop :=
  ∀ db t, trees !! db = Some t → rt_stores n t (M db) ∧ rt_database_id t = db ∧ rt_comparator t = C db.

Definition set_map (M : Z → key → option record) (db : Z) (m : key → option record)
    : Z → key → option record :=
  λ db', if db' =? db then m else M db'.

Lemma rt_weaken n n' t m : (n' ≤ n)%nat → rt_stores n t m → rt_stores n' t m.
Proof. induction 1 as [|n Hle IH]; [done|]. intros Hs. by apply IH, rt_less. Qed.

Lemma trees_weaken n n' trees M : (n' ≤ n)%nat → trees_store n trees M → trees_store n' trees M.
Proof. intros Hle Hs db t Ht. destruct (Hs db t Ht) as [H1 H2]. split; [by eapply rt_weaken|done]. Qed.

Lemma trees_become n n' trees M db t t' m' :
  (n' ≤ n)%nat → trees_store n trees M → trees !! db = Some t → becomes n' t t' m' →
  trees_store n' (<[db := t']> trees) (set_map M db m').
Proof.
  intros Hle Hs Ht (Hb & Hi & Hc) db2 t2. unfold set_map.
  intros [[<- <-]|[Hne H2]]%lookup_insert_Some.
  - rewrite Z.eqb_refl, Hi, Hc. split; [done|]. apply (Hs db t Ht).
  - rewrite (proj2 (Z.eqb_neq _ _)) by done. by apply (trees_weaken n n' trees M Hle Hs).
Qed.

(** *** Redo *)

Lemma eligible_spec txns seeded ckpt_start lsn rec :
  bound_ok ckpt_start → valid_lsn lsn → ln_is_invisible rec = false →
  eligible_for_redo_static RollbackTracker_new seeded lsn rec ckpt_start txns =
  Some (if redone txns seeded ckpt_start (lsn, rec) then Apply else Skip) ∧
  ∃ b, counts_gated RollbackTracker_new seeded lsn rec ckpt_start txns = Some b.
Proof.
  intros Hc Hl Hinv. unfold eligible_for_redo_static, counts_gated. rewrite Hinv.
  assert (gated seeded ckpt_start lsn rec = Some (gate seeded ckpt_start (lsn, rec))) as ->.
  { unfold gated, gate. destruct (ckpt_start =? NULL_LSN) eqn:E; [done|].
    destruct Hc as [Hn|Hv]; [by rewrite Hn in E|]. by rewrite lsn_lt_valid. }
  cbn [mbind option_bind is_in_rollback_period any_m RollbackTracker_new rollback_periods].
  change (pending_values RollbackTracker_new) with (@nil RollbackPeriod). cbn [any_m mbind option_bind].
  split.
  - f_equal. unfold redone, wins, of_prepared. simpl. destruct (ln_txn_id rec) as [txn|].
    + destruct (is_prepared txns txn), (is_committed txns txn), (gate _ _ _); done.
    + by destruct (gate _ _ _).
  - unfold and_m. destruct (_ && _); by eexists.
Qed.

Lemma filter_bool_snoc {A : Type} (P : A → bool) l x :
  filter P (l ++ [x]) = if P x then filter P l ++ [x] else filter P l.
Proof. rewrite filter_app, filter_bool_cons, filter_nil. destruct (P x); [done|apply app_nil_r]. Qed.

Lemma lns_of_snoc c db k l pe :
  lns_of c db k (l ++ [pe]) = lns_of c db k l ++ match ln_at c db k pe with Some x => [x] | None => [] end.
Proof. rewrite lns_of_app. simpl. by destruct (ln_at c db k pe). Qed.

(** The record of a key after the redo of a part of the log. *)
Definition redo_of txns seeded cs (M : Z → key → option record) (db : Z) (k : key)
    (l : list PositionedEntry) : option record :=
  redo_all (M db k) (filter (redone txns seeded cs) (lns_of (cmp db) db k l)).

Lemma redo_of_snoc txns seeded cs M db k l pe :
  redo_of txns seeded cs M db k (l ++ [pe]) =
  match ln_at (cmp db) db k pe with
  | Some x =>
      if redone txns seeded cs x then redo_record x.1 x.2 (redo_of txns seeded cs M db k l)
      else redo_of txns seeded cs M db k l
  | None => redo_of txns seeded cs M db k l
  end.
Proof.
  unfold redo_of. rewrite lns_of_snoc. destruct (ln_at (cmp db) db k pe) as [x|]; [|by rewrite app_nil_r].
  rewrite filter_bool_snoc. destruct (redone txns seeded cs x); [|done].
  unfold redo_all. by rewrite foldl_app.
Qed.

Lemma redo_entry_spec txns seeded cs n M M1 st l pe :
  bound_ok cs → valid_lsn (pe_lsn pe) → plain_entry pe →
  trees_store (S (S n)) (rs_trees st) M1 →
  (∀ db k, is_Some (rs_trees st !! db) → M1 db k = redo_of txns seeded cs M db k l) →
  ∃ st' M2, redo_entry RollbackTracker_new seeded cs txns st pe = Some st' ∧
    trees_store n (rs_trees st') M2 ∧ dom (rs_trees st') = dom (rs_trees st) ∧
    ∀ db k, is_Some (rs_trees st !! db) → M2 db k = redo_of txns seeded cs M db k (l ++ [pe]).
Proof.
  intros Hcs Hl Hpe Hst HM1.
  assert (∀ st', rs_trees st' = rs_trees st →
    (∀ db k x, is_Some (rs_trees st !! db) → ln_at (cmp db) db k pe = Some x → redone txns seeded cs x = false) →
    ∃ st2 M2, Some st' = Some st2 ∧ trees_store n (rs_trees st2) M2 ∧ dom (rs_trees st2) = dom (rs_trees st) ∧
    ∀ db k, is_Some (rs_trees st !! db) → M2 db k = redo_of txns seeded cs M db k (l ++ [pe])) as Hsame.
  { intros st' E Hr. exists st', M1. split; [done|]. rewrite E. split; [|split; [done|]].
    - eapply trees_weaken; [|done]. lia.
    - intros db k Hdb. rewrite redo_of_snoc, HM1 by done.
      destruct (ln_at (cmp db) db k pe) as [x|] eqn:Ex; [|done]. by rewrite (Hr db k x). }
  unfold redo_entry. unfold plain_entry, ln_at in *.
  destruct (pe_entry pe) as [?|rec|?|?|?|?|?|?|?|?|?|?] eqn:Epe; try by apply Hsame.
  destruct (eligible_spec txns seeded cs (pe_lsn pe) rec Hcs Hl (proj1 Hpe)) as [-> [b Hb]].
  cbn [mbind option_bind]. destruct (redone txns seeded cs (pe_lsn pe, rec)) eqn:Er.
  2:{ rewrite Hb. cbn [mbind option_bind]. apply Hsame; [by destruct b|]. intros db k x _.
      destruct (_ && _); [|done]. by intros [= <-]. }
  unfold redo_one. destruct (rs_trees st !! ln_db_id rec) as [t|] eqn:Et.
  2:{ apply Hsame; [done|]. intros db k x Hdb.
      destruct (_ && _) eqn:E; [|done]. apply andb_true_iff in E as [<-%Z.eqb_eq _].
      rewrite Et in Hdb. by destruct Hdb. }
  destruct (Hst _ _ Et) as (Hs & Hid & Hc).
  destruct (apply_redo_ln_spec n t (M1 (ln_db_id rec)) rec (pe_lsn pe) Hs Hl Hid) as (t' & m' & -> & Hbt & Hm').
  cbn [mbind option_bind]. eexists _, (set_map M1 (ln_db_id rec) m'). split; [done|]. cbn [rs_trees].
  split; [by eapply (trees_become (S (S n))); [lia|..]|]. split; [by apply dom_insert_lookup_L|].
  intros db k Hdb. unfold set_map. rewrite redo_of_snoc, <-(HM1 db k Hdb). unfold ln_at. rewrite Epe.
  destruct (Z.eqb_spec db (ln_db_id rec)) as [->|Hne]; simpl.
  - rewrite Hm', Hc, Z.eqb_refl. destruct (cmp _ (ln_key rec) k); simpl; [by rewrite Er|done..].
  - by rewrite (proj2 (Z.eqb_neq _ _)) by done.
Qed.

Lemma redo_pass (s : Sc) (log : list PositionedEntry) {Sco : ScannerOf s log} txns seeded c n trees M :
  ckpt_ok c → seen c log = log → Forall plain_entry log → trees_store (2 * length log + n) trees M →
  ∃ st M1, stream_redo_lns s RollbackTracker_new seeded c txns
      {| rs_trees := trees; rs_vlsn_pairs := []; rs_lns_gated := 0 |} = Some st ∧
    trees_store n (rs_trees st) M1 ∧ dom (rs_trees st) = dom trees ∧
    ∀ db k, db ∈ dom trees → M1 db k = redo_of txns seeded (checkpoint_start_lsn c) M db k log.
Proof.
  intros Hc Hseen Hplain Hst. unfold stream_redo_lns, scan_forward_fn. rewrite (scan_seen c Hc), Hseen.
  cbn [mbind option_bind].
  destruct (fold_m_inv (redo_entry RollbackTracker_new seeded (checkpoint_start_lsn c) txns)
    (λ l st, ∃ M1, trees_store (2 * (length log - length l) + n) (rs_trees st) M1 ∧
       dom (rs_trees st) = dom trees ∧
       ∀ db k, db ∈ dom trees → M1 db k = redo_of txns seeded (checkpoint_start_lsn c) M db k l)
    log {| rs_trees := trees; rs_vlsn_pairs := []; rs_lns_gated := 0 |}) as (st & -> & M1 & Hs & Hd & HM).
  - exists M. simpl. rewrite Nat.sub_0_r. by split_and!.
  - intros l1 pe l2 st Heq (M1 & Hs & Hd & HM).
    assert (pe ∈ log) as Hin by (rewrite Heq; apply elem_of_app; right; left).
    destruct (redo_entry_spec txns seeded (checkpoint_start_lsn c) (2 * (length log - length (l1 ++ [pe])) + n)
      M M1 st l1 pe) as (st' & M2 & Hr & Hs' & Hd' & HM').
    + apply Hc.
    + apply (proj1 (Forall_forall _ _) (proj1 scanner_log) pe Hin).
    + by apply (proj1 (Forall_forall _ _) Hplain).
    + eapply trees_weaken; [|exact Hs]. rewrite Heq, !length_app. simpl. lia.
    + intros db k Hdb. apply HM. rewrite <-Hd. by apply elem_of_dom.
    + exists st'. split; [done|]. exists M2. split; [done|]. rewrite Hd'. split; [done|].
      intros db k Hdb. apply HM', elem_of_dom. by rewrite Hd.
  - exists st, M1. split; [done|]. by rewrite Nat.sub_diag in Hs.
Qed.

(** *** Undo *)

(** The before-image of an entry is the record that the winners of [l1] left. *)
Definition returns_to_winners (s : Sc) txns (l1 : list PositionedEntry) (rec : LnRecord) : Prop :=
  match before_image s rec with
  | None => committed txns (cmp (ln_db_id rec)) (ln_db_id rec) (ln_key rec) l1 = None
  | Some (bk, d) =>
      cmp (ln_db_id rec) bk (ln_key rec) = Eq ∧
      committed txns (cmp (ln_db_id rec)) (ln_db_id rec) (ln_key rec) l1 = Some (ln_abort_lsn rec, d)
  end.

(** So it is for every loser, as the lock on the record ensures. *)
Definition before_images_ok (s : Sc) txns (log : list PositionedEntry) : Prop :=
  ∀ l1 pe l2 rec, log = l1 ++ pe :: l2 → pe_entry pe = ELn rec → wins txns rec = false →
  returns_to_winners s txns l1 rec.

(** The record is settled, or the entry that it waits for is still to come. *)
Definition undo_inv txns (log l1 : list PositionedEntry) (db : Z) (k : key) (r : option record) : Prop :=
  settled txns r (lns_of (cmp db) db k log) ∨
  ∃ x, pending txns r (lns_of (cmp db) db k log) x ∧ x ∈ lns_of (cmp db) db k l1.

(** Draining a deleted slot hides nothing. *)
Lemma undo_inv_drained txns log l1 l2 db k r (hook : option (Z → bool)) c :
  (∀ x, x ∈ lns_of (cmp db) db k l1 → x ∈ lns_of (cmp db) db k l2) →
  undo_inv txns log l1 db k r → undo_inv txns log l2 db k (record_step c (BDrain hook) k r).
Proof.
  intros Hsub [[Hv Hl]|(x & (r' & -> & Hx & Hrest) & Hin)].
  - left. destruct r as [[[[l d] kd] pd]|]; [|by split]. simpl.
    destruct ((kd || pd) && _) eqn:E; [|by split]. apply andb_true_iff in E as [E _].
    split; [|done]. rewrite <-Hv. by destruct kd, pd.
  - right. exists x. split; [|by apply Hsub]. exists r'. split; [|done].
    destruct Hx as (_ & Hd & _), Hrest as (_ & _ & Hndel & _). rewrite Hndel in Hd.
    destruct r' as [[[l d] kd] pd]. unfold rec_deleted in Hd. simpl in *. by rewrite Hd.
Qed.

Lemma undo_inv_mono txns log l1 l2 db k r :
  (∀ x, x ∈ lns_of (cmp db) db k l1 → x ∈ lns_of (cmp db) db k l2) →
  undo_inv txns log l1 db k r → undo_inv txns log l2 db k r.
Proof. intros Hsub [Hs|(x & Hp & Hin)]; [by left|]. right. exists x. split; [done|by apply Hsub]. Qed.

(** The winners of a log are those before an entry that they all precede. *)
Lemma committed_prefix txns c db k l1 pe rec l2 :
  log_wf (l1 ++ pe :: l2) → pe_entry pe = ELn rec → wins txns rec = false →
  (∀ w, w ∈ lns_of c db k (l1 ++ pe :: l2) → wins txns w.2 = true → w.1 < pe_lsn pe) →
  filter (λ x, wins txns x.2) (lns_of c db k (l1 ++ pe :: l2)) =
  filter (λ x, wins txns x.2) (lns_of c db k l1).
Proof.
  intros Hwf He Hw Hall. rewrite lns_of_app, filter_app.
  assert (filter (λ x, wins txns x.2) (lns_of c db k (pe :: l2)) = []) as ->; [|by rewrite app_nil_r].
  apply filter_none. intros w Hin Hwin. apply Is_true_true in Hwin.
  specialize (Hall w ltac:(rewrite lns_of_app; apply elem_of_app; by right) Hwin).
  apply elem_of_lns_of in Hin as [Hin _].
  apply elem_of_cons in Hin as [<-|Hin]; [simpl in *; lia|].
  destruct (log_wf_app (l1 ++ [pe]) l2) as (_ & _ & Hlt); [by rewrite <-app_assoc|].
  specialize (Hlt pe _ ltac:(apply elem_of_app; right; left) Hin). simpl in Hlt. lia.
Qed.

Lemma ln_at_self c db k pe rec :
  pe_entry pe = ELn rec →
  ln_at c db k pe =
  if (ln_db_id rec =? db) && is_eq (c (ln_key rec) k) then Some (pe_lsn pe, rec) else None.
Proof. intros He. unfold ln_at. by rewrite He. Qed.

(** What undoing an entry makes of the map of its database. *)
Definition undo_outcome (s : Sc) (db : Z) (rec : LnRecord) (lsn : Z) (m m' : key → option record) : Prop :=
  if current (m (ln_key rec)) lsn then
    match before_image s rec with
    | None => ∀ k', m' k' = match cmp db (ln_key rec) k' with Eq => None | _ => m k' end
    | Some (bk, d) =>
        ∃ hook m0, may_drain (cmp db) hook m m0 ∧
          ∀ k', m' k' = match cmp db bk k' with
                        | Eq => Some (ln_abort_lsn rec, Some d, false, false) | _ => m0 k' end
    end
  else ∀ k', m' k' = m k'.

Section undo_one.
Context (s : Sc) (txns : TxnSets) (log l1 l2 : list PositionedEntry) (pe : PositionedEntry) (rec : LnRecord).
Context (m m' : key → option record).
Hypothesis Hlog : log = l1 ++ pe :: l2.
Hypothesis Hwf : log_wf log.
Hypothesis Hpe : pe_entry pe = ELn rec.
Hypothesis Hlose : wins txns rec = false.
Hypothesis Hbefore : before_images_ok s txns log.
Context `{HK : !KeyOrder (cmp (ln_db_id rec))}.
Hypothesis Heq : ∀ k k', cmp (ln_db_id rec) k k' = Eq → m k' = m k.
Hypothesis Hout : undo_outcome s (ln_db_id rec) rec (pe_lsn pe) m m'.

Abbreviation db := (ln_db_id rec).
Abbreviation x := (pe_lsn pe, rec).

Lemma undone_elem k : cmp db (ln_key rec) k = Eq → x ∈ lns_of (cmp db) db k log.
Proof.
  intros E. apply elem_of_lns_of. simpl. split; [|done].
  rewrite Hlog. apply elem_of_app. right. rewrite <-Hpe. destruct pe. left.
Qed.

(** The slot of the entry's key waits for this very entry, and returns to the
    record of the winners. *)
Lemma undone_settles k :
  current (m (ln_key rec)) (pe_lsn pe) = true → cmp db (ln_key rec) k = Eq →
  undo_inv txns log (l1 ++ [pe]) db k (m k) → settled txns (m' k) (lns_of (cmp db) db k log).
Proof.
  intros Hcur E Hinv. rewrite <-(Heq _ _ E) in Hcur. pose proof (undone_elem k E) as Hx.
  assert (∀ w, w ∈ lns_of (cmp db) db k log → wins txns w.2 = true → w.1 < pe_lsn pe) as Hall.
  { destruct (m k) as [r|]; [simpl in Hcur; apply Z.eqb_eq in Hcur|done].
    destruct Hinv as [[_ Hw]|(y & (r' & [= <-] & (Hl & _) & Hy & _ & _ & Hall) & _)].
    - destruct (Hw r eq_refl) as (w & Hin & Hwin & El).
      rewrite (lns_of_unique _ _ _ _ w x Hwf Hin Hx) in Hwin by (simpl; congruence). simpl in Hwin. congruence.
    - rewrite (lns_of_unique _ _ _ _ y x Hwf Hy Hx) in Hall by (simpl; congruence). done. }
  rewrite Hlog in Hall. unfold settled.
  pose proof (committed_prefix txns (cmp db) db k l1 pe rec l2 ltac:(by rewrite <-Hlog) Hpe Hlose Hall) as Hpre.
  specialize (Hbefore l1 pe l2 rec Hlog Hpe Hlose). unfold returns_to_winners, committed in Hbefore.
  rewrite <-Hlog in Hpre. rewrite (lns_of_equal _ _ _ _ _ E), <-Hpre in Hbefore.
  unfold undo_outcome in Hout. rewrite <-(Heq _ _ E), Hcur in Hout.
  destruct (before_image s rec) as [[bk d]|].
  - destruct Hout as (hook & m0 & _ & Hm'). destruct Hbefore as [Ebk Hb].
    rewrite Hm', (cmp_eq_l bk (ln_key rec) k Ebk), E, Hb. split; [done|]. intros r' [= <-].
    unfold last_version in Hb. apply bind_Some in Hb as (w & Hw & Hv).
    apply last_Some_elem_of, list_elem_of_filter in Hw as [Hwin Hin].
    exists w. split; [done|]. split; [by apply Is_true_true|].
    unfold version in Hv. destruct (is_delete w.2); [done|]. by injection Hv.
  - rewrite Hout, E, Hbefore. by split.
Qed.

Lemma undo_key k :
  undo_inv txns log (l1 ++ [pe]) db k (m k) → undo_inv txns log l1 db k (m' k).
Proof.
  intros Hinv. destruct (is_eq (cmp db (ln_key rec) k)) eqn:E.
  - assert (cmp db (ln_key rec) k = Eq) as E' by by destruct (cmp db (ln_key rec) k).
    destruct (current (m (ln_key rec)) (pe_lsn pe)) eqn:Hcur; [left; by apply undone_settles|].
    unfold undo_outcome in Hout. rewrite Hcur in Hout. rewrite Hout.
    destruct Hinv as [Hs|(y & Hp & Hy)]; [by left|]. right. exists y. split; [done|].
    rewrite lns_of_snoc, (ln_at_self _ _ _ _ _ Hpe), Z.eqb_refl, E in Hy. simpl in Hy.
    apply elem_of_app in Hy as [Hy| ->%list_elem_of_singleton]; [done|]. exfalso.
    destruct Hp as (r' & Hr & (Hl & _) & _). rewrite <-(Heq _ _ E'), Hr in Hcur. simpl in *.
    apply Z.eqb_neq in Hcur. lia.
  - assert (∀ y, y ∈ lns_of (cmp db) db k (l1 ++ [pe]) → y ∈ lns_of (cmp db) db k l1) as Hsub.
    { intros y. rewrite lns_of_snoc, (ln_at_self _ _ _ _ _ Hpe), E, andb_false_r. by rewrite app_nil_r. }
    assert (m' k = m k ∨ ∃ hook, m' k = record_step (cmp db) (BDrain hook) k (m k)) as [->|[hook ->]].
    { unfold undo_outcome in Hout. destruct (current _ _); [|left; apply Hout].
      specialize (Hbefore l1 pe l2 rec Hlog Hpe Hlose). unfold returns_to_winners in Hbefore.
      destruct (before_image s rec) as [[bk d]|].
      - destruct Hout as (hook & m0 & Hd & Hm'). rewrite Hm', (cmp_eq_l bk (ln_key rec) k (proj1 Hbefore)).
        destruct (cmp db (ln_key rec) k); [done|..]; destruct (Hd k) as [-> | ->]; eauto.
      - left. rewrite Hout. by destruct (cmp db (ln_key rec) k). }
    + by apply (undo_inv_mono _ _ (l1 ++ [pe])).
    + by apply (undo_inv_drained _ _ (l1 ++ [pe])).
Qed.
End undo_one.

Lemma undo_entry_plain (s : Sc) txns (st : UndoState (T := T)) pe :
  undo_entry s RollbackTracker_new txns st pe =
  match pe_entry pe with
  | ELn rec =>
      if wins txns rec then Some st
      else
        match us_trees st !! ln_db_id rec with
        | None => Some st
        | Some t =>
            t ← undo_ln t s rec (pe_lsn pe);
            Some (us_with_trees st (<[ln_db_id rec := t]> (us_trees st)))
        end
  | _ => Some st
  end.
Proof.
  unfold undo_entry, wins. destruct (pe_entry pe) as [?|rec|?|?|?|?|?|?|?|?|?|?]; try done.
  destruct (ln_txn_id rec) as [txn|]; [|done].
  assert (find_period_for_ln RollbackTracker_new (pe_lsn pe) (as_i 64 txn) = Some None) as -> by done.
  cbn [mbind option_bind].
  assert (is_in_rollback_period RollbackTracker_new (pe_lsn pe) = Some false) as -> by done.
  cbn [mbind option_bind].
  assert (is_rollback_active_txn RollbackTracker_new (as_i 64 txn) = false) as -> by done.
  by destruct (is_committed txns txn), (is_prepared txns txn).
Qed.

Lemma undo_entry_spec (s : Sc) txns n log l1 pe l2 M (st : UndoState (T := T)) :
  log = l1 ++ pe :: l2 → log_wf log → plain_entry pe → before_images_ok s txns log →
  trees_store (S (S n)) (us_trees st) M →
  (∀ db k, is_Some (us_trees st !! db) → undo_inv txns log (l1 ++ [pe]) db k (M db k)) →
  ∃ st' M', undo_entry s RollbackTracker_new txns st pe = Some st' ∧
    trees_store n (us_trees st') M' ∧ dom (us_trees st') = dom (us_trees st) ∧
    ∀ db k, is_Some (us_trees st !! db) → undo_inv txns log l1 db k (M' db k).
Proof.
  intros Hlog Hwf Hpl Hbefore Hst Hinv. rewrite undo_entry_plain.
  assert ((∀ db k x, is_Some (us_trees st !! db) → ln_at (cmp db) db k pe = Some x → wins txns x.2 = true) →
    ∃ st' M', Some st = Some st' ∧ trees_store n (us_trees st') M' ∧ dom (us_trees st') = dom (us_trees st) ∧
      ∀ db k, is_Some (us_trees st !! db) → undo_inv txns log l1 db k (M' db k)) as Hsame.
  { intros Hno. exists st, M. split; [done|]. split; [eapply trees_weaken; [|done]; lia|]. split; [done|].
    intros db k Hdb. destruct (Hinv db k Hdb) as [Hs|(x & Hp & Hx)]; [by left|]. right. exists x.
    split; [done|]. rewrite lns_of_snoc in Hx. apply elem_of_app in Hx as [Hx|Hx]; [done|].
    destruct (ln_at (cmp db) db k pe) as [y|] eqn:Ey; [|by apply elem_of_nil in Hx].
    apply list_elem_of_singleton in Hx as ->. destruct Hp as (_ & _ & _ & _ & Hl & _).
    by rewrite (Hno db k y Hdb Ey) in Hl. }
  unfold plain_entry, ln_at in *. destruct (pe_entry pe) as [?|rec|?|?|?|?|?|?|?|?|?|?] eqn:Hpe; try by apply Hsame.
  destruct (wins txns rec) eqn:Hw.
  { apply Hsame. intros db k x _. destruct (_ && _); [|done]. by intros [= <-]. }
  destruct (us_trees st !! ln_db_id rec) as [t|] eqn:Et.
  2:{ apply Hsame. intros db k x Hdb. destruct (_ && _) eqn:E; [|done].
      apply andb_true_iff in E as [<-%Z.eqb_eq _]. rewrite Et in Hdb. by destruct Hdb. }
  clear Hsame. destruct (Hst _ _ Et) as (Hs & Hid & Hc). pose proof (rt_order _ _ _ Hs) as HK. rewrite Hc in HK.
  destruct (undo_ln_spec n t (M (ln_db_id rec)) s rec (pe_lsn pe) Hs (proj2 Hpl)) as (t' & m' & -> & Hb & Hm').
  cbn [mbind option_bind]. eexists _, (set_map M (ln_db_id rec) m'). split; [done|].
  unfold us_with_trees. cbn [us_trees].
  split; [by eapply (trees_become (S (S n))); [lia|..]|]. split; [by apply dom_insert_lookup_L|].
  intros db k Hdb. specialize (Hinv db k Hdb). unfold set_map.
  destruct (Z.eqb_spec db (ln_db_id rec)) as [->|Hne].
  - eapply (undo_key s txns log l1 l2 pe rec (M (ln_db_id rec))); try done.
    + intros k1 k2 E. apply (rt_equal _ _ _ k1 k2 Hs). by rewrite Hc.
    + unfold undo_outcome. by rewrite <-Hc.
  - eapply undo_inv_mono; [|done]. intros x.
    rewrite lns_of_snoc, (ln_at_self _ _ _ _ _ Hpe), (proj2 (Z.eqb_neq _ _)) by done.
    by rewrite app_nil_r.
Qed.

Lemma undo_pass (s : Sc) (log : list PositionedEntry) {Sco : ScannerOf s log} txns n trees M st :
  Forall plain_entry log → before_images_ok s txns log → us_trees st = trees →
  trees_store (2 * length log + n) trees M →
  (∀ db k, db ∈ dom trees → undo_inv txns log log db k (M db k)) →
  ∃ st' M', fold_m (undo_entry s RollbackTracker_new txns) st (reverse log) = Some st' ∧
    trees_store n (us_trees st') M' ∧ dom (us_trees st') = dom trees ∧
    ∀ db k, db ∈ dom trees → settled txns (M' db k) (lns_of (cmp db) db k log).
Proof.
  intros Hplain Hbefore <- Hst Hinv.
  destruct (fold_m_inv (undo_entry s RollbackTracker_new txns)
    (λ l st', ∃ M', trees_store (2 * (length log - length l) + n) (us_trees st') M' ∧
       dom (us_trees st') = dom (us_trees st) ∧
       ∀ l1 db k, log = l1 ++ reverse l → db ∈ dom (us_trees st) → undo_inv txns log l1 db k (M' db k))
    (reverse log) st) as (st' & -> & M' & Hs & Hd & HM).
  - exists M. simpl. rewrite Nat.sub_0_r. split; [done|]. split; [done|]. intros l1 db k.
    rewrite reverse_nil, app_nil_r. intros <-. apply Hinv.
  - intros l1 pe l2 st1 Heq (M1 & Hs & Hd & HM). apply (f_equal reverse) in Heq.
    rewrite reverse_involutive, reverse_app, reverse_cons, <-app_assoc in Heq. simpl in Heq.
    destruct (undo_entry_spec s txns (2 * (length log - length (l1 ++ [pe])) + n) log (reverse l2) pe (reverse l1)
      M1 st1) as (st' & M' & Hr & Hs' & Hd' & HM'); [done|apply scanner_log| |done| | |].
    + apply (proj1 (Forall_forall _ _) Hplain). rewrite Heq. apply elem_of_app. right. left.
    + eapply trees_weaken; [|exact Hs]. rewrite Heq, !length_app, !length_reverse. simpl.
      rewrite !length_reverse. lia.
    + intros db k Hdb. apply HM; [by rewrite Heq, <-app_assoc|]. rewrite <-Hd. by apply elem_of_dom.
    + exists st'. split; [done|]. exists M'. split; [done|]. rewrite Hd'. split; [done|].
      intros l db k Hl Hdb. rewrite reverse_app in Hl. simpl in Hl. rewrite Heq in Hl.
      assert (l = reverse l2) as ->; [|apply HM', elem_of_dom; by rewrite Hd].
      change (reverse [pe]) with [pe] in Hl. simpl in Hl.
      by apply (inj (λ l, l ++ pe :: reverse l1)) in Hl.
  - exists st', M'. split; [done|]. rewrite length_reverse, Nat.sub_diag in Hs. split; [done|].
    split; [done|]. intros db k Hdb. specialize (HM [] db k). rewrite reverse_involutive in HM.
    destruct (HM eq_refl Hdb) as [?|(x & _ & Hx)]; [done|]. by apply elem_of_nil in Hx.
Qed.

(** *** The passes together *)

Lemma scan_all_backward (s : Sc) (log : list PositionedEntry) {Sco : ScannerOf s log} :
  log <> [] → valid_lsn (find_end_of_log s).1 ∧ scan_backward s (find_end_of_log s).1 0 = Some (reverse log).
Proof.
  intros Hne. rewrite scanner_last. destruct log as [|pe log _] using rev_ind; [done|]. rewrite last_snoc.
  simpl. pose proof scanner_log as [Hv Hs]. pose proof (proj2 (proj1 (Forall_app _ _ _) Hv)) as Hpe.
  apply Forall_inv in Hpe. split; [done|].
  rewrite scanner_backward by (by right). do 2 f_equal.
  rewrite (filter_bool_ext _ (λ _, true)); [by apply filter_id|].
  intros x Hx. pose proof (proj1 (Forall_forall _ _) Hv x Hx) as [Hx0 _].
  unfold up_to, above. rewrite (proj2 (Z.leb_le 0 _) Hx0), orb_true_r, andb_true_r.
  apply orb_true_iff. right. apply Z.leb_le. apply elem_of_app in Hx as [Hx| ->%list_elem_of_singleton]; [|lia].
  apply sorted_snoc_inv in Hs as [_ Hlt]. apply (proj1 (Forall_forall _ _) Hlt) in Hx. unfold lsn_before in Hx. lia.
Qed.

(** Every transaction that wrote is known. *)
Lemma no_losers (log : list PositionedEntry) pe rec :
  let t := foldl txn_step TxnSets_new (pe_entry <$> log) in
  active_txns t = ∅ → aborted_txns t = ∅ → pe ∈ log → pe_entry pe = ELn rec → wins t rec = true.
Proof.
  intros t Ha Hb Hin He. unfold wins. destruct (ln_txn_id rec) as [txn|] eqn:Etxn; [|done].
  destruct (writer_is_classified (pe_entry <$> log) txn) as [Hw|Hw].
  - apply existsb_exists. exists (ELn rec). split.
    + apply list_elem_of_In, list_elem_of_fmap. by exists pe.
    + simpl. rewrite Etxn. by apply bool_decide_eq_true.
  - fold t in Hw. unfold is_aborted in Hw. rewrite Hb, bool_decide_eq_false_2, orb_false_r in Hw by set_solver.
    done.
  - fold t in Hw. rewrite Ha in Hw. set_solver.
Qed.

Lemma undo_all (s : Sc) (log : list PositionedEntry) {Sco : ScannerOf s log} c sums n trees M :
  let t := foldl txn_step TxnSets_new (pe_entry <$> log) in
  scan_start c = 0 → Forall plain_entry log → before_images_ok s t log →
  trees_store (2 * length log + n) trees M →
  (∀ db k, db ∈ dom trees → undo_inv t log log db k (M db k)) →
  ∃ trees' sums' inv M', run_undo_all s RollbackTracker_new c t sums trees = Some (trees', sums', inv) ∧
    trees_store n trees' M' ∧ dom trees' = dom trees ∧
    ∀ db k, db ∈ dom trees → settled t (M' db k) (lns_of (cmp db) db k log).
Proof.
  intros t H0 Hplain Hbefore Hst Hinv.
  assert ((∀ pe rec, pe ∈ log → pe_entry pe = ELn rec → wins t rec = true) →
    ∃ trees' sums' inv M', Some (trees, sums, @nil Z) = Some (trees', sums', inv) ∧
      trees_store n trees' M' ∧ dom trees' = dom trees ∧
      ∀ db k, db ∈ dom trees → settled t (M' db k) (lns_of (cmp db) db k log)) as Hnone.
  { intros Hwin. exists trees, sums, [], M. split; [done|]. split; [eapply trees_weaken; [|done]; lia|].
    split; [done|]. intros db k Hdb. destruct (Hinv db k Hdb) as [Hs|(x & (_ & _ & _ & Hx & Hl & _) & _)]; [done|].
    apply elem_of_lns_of in Hx as (Hx & _). by rewrite (Hwin _ _ Hx eq_refl) in Hl. }
  unfold run_undo_all. destruct (decide (log = [])) as [->|Hne].
  { rewrite scanner_last. simpl. apply Hnone. by intros pe rec ?%elem_of_nil. }
  destruct (scan_all_backward s log Hne) as [Hlast Hback].
  assert (((find_end_of_log s).1 =? NULL_LSN) = false) as -> by exact (proj2 (valid_lsn_u64 _ Hlast)).
  change (build_rollback_chains s RollbackTracker_new trees) with (Some (∅ : gmap (Z * Z) TxnChain)).
  cbn [mbind option_bind].
  destruct (negb (has_active_txns t) && _ && _) eqn:Efast.
  { apply Hnone. intros pe rec. unfold has_active_txns in Efast.
    rewrite negb_involutive, !andb_true_iff, !bool_decide_eq_true in Efast. destruct Efast as [[Ha Hb] _].
    by apply no_losers. }
  assert ((if first_active_lsn c =? NULL_LSN then Lsn_new 0 0 else first_active_lsn c) = 0) as ->.
  { unfold scan_start in H0. by destruct (first_active_lsn c =? NULL_LSN). }
  rewrite Hback. cbn [mbind option_bind].
  destruct (undo_pass s log t n trees M
    {| us_trees := trees; us_chains := ∅; us_obsolete := []; us_invisible := [] |}) as (st & M' & -> & H); [done..|].
  cbn [mbind option_bind]. by eexists _, _, _, M'.
Qed.
End log_passes.


(** *** Concrete logs *)

Definition put_ln (txn : Z) (k d : Z) (abort_lsn : Z) : LogEntry :=
  ELn (LnRecord_new 1 (Some txn) (if abort_lsn =? NULL_LSN then LnInsert else LnUpdate) [k] (Some [d])
         abort_lsn (abort_lsn =? NULL_LSN)).

Definition delete_ln (txn : Z) (k : Z) (abort_lsn : Z) : LogEntry :=
  ELn (LnRecord_new 1 (Some txn) LnDelete [k] None abort_lsn false).

Definition commit_entry (txn lsn : Z) : LogEntry :=
  ETxnCommit {| tc_txn_id := txn; tc_lsn := lsn; tc_dtvlsn := None |}.

Definition ckpt_end_entry (start : Z) : LogEntry :=
  ECkptEnd {| ce_id := 1; ce_checkpoint_start_lsn := start; ce_first_active_lsn := 0;
              ce_root_lsn := 5; ce_last_local_node_id := 8; ce_last_replicated_node_id := 0;
              ce_last_local_db_id := 2; ce_last_replicated_db_id := 0;
              ce_last_local_txn_id := 2; ce_last_replicated_txn_id := 0; ce_per_db_roots := [] |}.

Definition positioned (l : list (Z * LogEntry)) : list PositionedEntry :=
  (λ x, {| pe_lsn := x.1; pe_entry := x.2 |}) <$> l.

(** Transaction 1 commits before the checkpoint, 3 after it; 2 writes around
    the checkpoint and is still open. *)
Definition crash_log : list PositionedEntry :=
  positioned
    [(10, put_ln 1 65 1 NULL_LSN); (20, commit_entry 1 20); (25, put_ln 2 66 2 NULL_LSN);
     (30, ECkptStart {| cs_id := 1; cs_lsn := 30 |}); (35, ckpt_end_entry 30);
     (40, put_ln 2 65 9 10); (50, put_ln 3 68 4 NULL_LSN); (60, commit_entry 3 60)].

Definition crash_bounds (start ckpt_end : Z) : CkptBounds :=
  {| checkpoint_start_lsn := start; checkpoint_end_lsn := ckpt_end; last_checkpoint_id := None;
     first_active_lsn := 0; use_root_lsn := 5; per_db_roots := [] |}.

Definition analysis_of (log : list PositionedEntry) (c : CkptBounds) : AnState :=
  default (AnState_new c) (run_analysis (scanner_of_log log) c).

(** The records of the database in the checkpoint: the write of transaction 1
    and the first one of transaction 2. *)
Definition crash_image : list tree_op := [TPut [65] [1] 10; TPut [66] [2] 25].

Lemma lns_of_bytes db k log :
  lns_of compare_unsigned_bytes db k log =
  omap (λ pe, match pe_entry pe with
              | ELn rec => if (ln_db_id rec =? db) && bool_decide (ln_key rec = k)
                           then Some (pe_lsn pe, rec) else None
              | _ => None
              end) log.
Proof.
  induction log as [|pe log IH]; [done|]. simpl. rewrite IH. unfold ln_at.
  destruct (pe_entry pe); try done.
  assert (is_eq (compare_unsigned_bytes (ln_key rec) k) = bool_decide (ln_key rec = k)) as ->; [|done].
  unfold compare_unsigned_bytes. case_bool_decide as E.
  - by rewrite E, (proj2 (lex_cmp_eq k k)).
  - destruct (lex_cmp (ln_key rec) k) eqn:E2; [|done..]. by apply lex_cmp_eq in E2.
Qed.

(** A full node with an uncommitted deletion. *)
Definition drain_log : list PositionedEntry :=
  positioned
    [(10, put_ln 1 65 1 NULL_LSN); (12, put_ln 1 66 2 NULL_LSN); (13, put_ln 1 67 3 NULL_LSN);
     (14, put_ln 1 68 4 NULL_LSN); (20, commit_entry 1 20); (25, delete_ln 2 65 10);
     (30, ECkptStart {| cs_id := 1; cs_lsn := 30 |}); (35, ckpt_end_entry 30); (40, put_ln 2 66 9 12)].

(** The image of the full bottom node: the deletion and the update of
    transaction 2 are in it. *)
Definition drain_image : list tree_op :=
  [TPut [65] [1] 10; TPut [66] [9] 40; TPut [67] [3] 13; TMark [65] 25 false; TPut [68] [4] 14].

Definition recovered_records (log : list PositionedEntry) (c : CkptBounds) (image : list tree_op)
    (ks : list key) : option (list (option (option record))) :=
  '(t, _) ← run_steps (tree_step 200) (Tree_new 1 4) image;
  trees ← recover_lns (T := FueledTree 200) (scanner_of_log log) (analysis_of log c) {[1]} {[1 := t]};
  t ← trees !! 1;
  Some (tree_record 200 t <$> ks).

(** An uncommitted deletion in the image is not undone if the undo of another
    entry puts a record into its full node: the insertion drains the deleted
    slot, which no lock protects during recovery, and the committed record of
    the key is lost. *)
Lemma undo_loses_drained_deletion :
  committed (txns (an_result (analysis_of drain_log (crash_bounds 30 35)))) compare_unsigned_bytes
    1 [65] drain_log = Some (10, [1]) ∧
  recovered_records drain_log (crash_bounds 30 35) drain_image [[65]; [66]] =
  Some [Some None; Some (Some (12, Some [2], false, false))].
Proof. split; by vm_compute. Qed.

(** A map of records that stay through any draining. *)
Lemma may_drain_live c hook m m0 :
  may_drain c hook m m0 → (∀ k r, m k = Some r → rec_deleted r = false) → ∀ k, m0 k = m k.
Proof.
  intros Hd Hl k. destruct (Hd k) as [-> | ->]; [done|]. simpl. destruct (m k) as [[[[l d] kd] pd]|] eqn:E; [|done].
  specialize (Hl k _ E). unfold rec_deleted in Hl. simpl in Hl. by rewrite Hl.
Qed.

Definition two_records (k : key) : option record :=
  if bool_decide (k = [66]) then Some (25, Some [2], false, false)
  else if bool_decide (k = [65]) then Some (10, Some [1], false, false) else None.

Lemma crash_image_stores :
  ∃ t outs, run_steps (tree_step 200) (Tree_new 1 4) crash_image = Some (t, outs) ∧
    tree_stores 200 32 t two_records ∧ database_id t = 1 ∧ key_comparator t = None.
Proof.
  assert (tree_stores 200 34 (Tree_new 1 4) (λ _, None)) as H0.
  { exists 0%nat. split; [exact bytes_order|]. split; [simpl; split; [lia|done]|]. split; [done|].
    split; [by apply empty_tree_map|lia]. }
  destruct (tree_law 200 33 _ _ (TPut [65] [1] 10) H0 eq_refl)
    as (t1 & m1 & o1 & h1 & E1 & H1 & (_ & d1 & Hd1 & Hm1) & Hi1 & Hc1).
  assert (∀ k r, m1 k = Some r → rec_deleted r = false) as Hl1.
  { intros k r. rewrite Hm1, (may_drain_live _ _ _ _ Hd1) by done. simpl. case_match; [|done..]. by intros [= <-]. }
  destruct (tree_law 200 32 _ _ (TPut [66] [2] 25) H1 eq_refl)
    as (t2 & m2 & o2 & h2 & E2 & H2 & (_ & d2 & Hd2 & Hm2) & Hi2 & Hc2).
  exists t2, [o1; o2]. cbn [run_steps crash_image]. rewrite E1. cbn [mbind option_bind]. rewrite E2.
  split; [done|]. rewrite Hi2, Hi1, Hc2, Hc1. split; [|done].
  assert (∀ k, two_records k = m2 k) as Hm.
  { intros k. rewrite Hm2, (may_drain_live _ _ _ _ Hd2 Hl1), Hm1, (may_drain_live _ _ _ _ Hd1) by done.
    unfold two_records. unfold key_cmp. rewrite Hc1. cbn [record_step Tree_new key_comparator]. change (order_of None) with compare_unsigned_bytes. unfold compare_unsigned_bytes.
    repeat case_bool_decide; subst; [done..|].
    destruct (lex_cmp [66] k) eqn:E66; [by apply lex_cmp_eq in E66|..];
      (destruct (lex_cmp [65] k) eqn:E65; [by apply lex_cmp_eq in E65|done..]). }
  exact (rt_ext (T := FueledTree 200) 32 t2 m2 two_records H2 Hm).
Qed.

Lemma crash_log_versions k :
  lns_of compare_unsigned_bytes 1 k crash_log =
  if bool_decide (k = [65]) then lns_of compare_unsigned_bytes 1 [65] crash_log
  else if bool_decide (k = [66]) then lns_of compare_unsigned_bytes 1 [66] crash_log
  else if bool_decide (k = [68]) then lns_of compare_unsigned_bytes 1 [68] crash_log else [].
Proof.
  repeat case_bool_decide; subst; try done. rewrite lns_of_bytes. simpl.
  by rewrite !bool_decide_eq_false_2 by done.
Qed.

Abbreviation crash_analysis := (analysis_of crash_log (crash_bounds 30 35)).

Lemma crash_image_ok k :
  image_ok (txns (an_result crash_analysis)) {[1]} 30 (two_records k)
    (lns_of compare_unsigned_bytes 1 k crash_log).
Proof.
  rewrite crash_log_versions. unfold two_records. repeat case_bool_decide; subst; try done.
  - exists (25, LnRecord_new 1 (Some 2) LnInsert [66] (Some [2]) NULL_LSN true).
    split; [left|]. split; [done|]. split; [by intros w ->%list_elem_of_singleton|done].
  - exists (10, LnRecord_new 1 (Some 1) LnInsert [65] (Some [1]) NULL_LSN true).
    split; [left|]. split; [done|]. split; [|done].
    intros w [->|Hw%list_elem_of_singleton]%elem_of_cons; [done|]. subst w. by vm_compute.
Qed.

Lemma crash_before_images :
  before_images_ok (λ _, None) (scanner_of_log crash_log) (txns (an_result crash_analysis)) crash_log.
Proof.
  intros l1 pe l2 rec Hl Hpe Hw. revert rec Hpe Hw. revert l1 pe l2 Hl.
  refine (splits_forall (λ l1 pe, ∀ rec, pe_entry pe = ELn rec → wins _ rec = false →
    returns_to_winners (λ _, None) _ _ l1 rec) crash_log _).
  repeat (apply List.Forall_cons; [intros rec|]); [..|constructor]; try done; intros [= <-]; by vm_compute.
Qed.

Lemma crash_committed :
  let committed_at k := committed (txns (an_result crash_analysis)) compare_unsigned_bytes 1 k crash_log in
  committed_at [65] = Some (10, [1]) ∧ committed_at [66] = None ∧ committed_at [68] = Some (50, [4]).
Proof. by vm_compute. Qed.

