(* ===== verification/Fsync.v ===== *)
(** * Group commit (noxu-log, [fsync_manager.rs], [log_manager.rs])

    Committers that need their log entries on stable storage meet in the fsync
    manager: one becomes the leader of a cohort and drains and syncs the log,
    the others wait for it.  The operations on a cohort ([FSyncGroup]), on the
    state of the manager ([FsyncState]) and on the watermarks of the log are
    functions; [exec] composes them to the calls of
    [LogManager::flush_sync_if_needed] and [flush_sync], cut where the code
    takes and releases its locks or touches an atomic variable, and [step] is
    any interleaving of calls, appends, flushes without sync and ticks of the
    clock.

    The log is summarised by its watermarks: the next LSN to be assigned, the
    LSN below which everything is in the page cache, and the LSN below which
    everything is on stable storage.  A drain under the log write latch writes
    all that was appended; a sync makes durable what was in the page cache when
    it began.  Every write and every sync may fail.  A waiter may wake at any
    time, which includes the notifications; statistics are left out. *)

From S2P Require Import Prelude Bytes Packed Lsn.

(** ** Configuration *)

Record FsyncManager := {
  grpc_threshold : Z;
  grpc_interval_ms : Z;
  max_leaders : Z;
  adaptive_leaders : Z;
  batch_trigger : Z;
  grp_wait_on : bool;
  fsync_timeout : Z;
}.

Definition with_clock (threshold interval_ms leaders : Z) : FsyncManager :=
  let leaders := Z.max leaders 1 in
  {| grpc_threshold := threshold; grpc_interval_ms := interval_ms; max_leaders := leaders;
     adaptive_leaders := leaders; batch_trigger := 0;
     grp_wait_on := negb (threshold =? 0) && negb (interval_ms =? 0);
     fsync_timeout := 500 * 1000000 |}.

Definition with_pipeline := with_clock.

Definition FsyncManager_new (threshold interval_ms : Z) : FsyncManager :=
  with_clock threshold interval_ms 1.

Definition with_adaptive_window (c : FsyncManager) (leaders trigger : Z) : FsyncManager :=
  {| grpc_threshold := grpc_threshold c; grpc_interval_ms := grpc_interval_ms c;
     max_leaders := max_leaders c; adaptive_leaders := Z.max leaders (max_leaders c);
     batch_trigger := trigger; grp_wait_on := grp_wait_on c; fsync_timeout := fsync_timeout c |}.

Definition effective_ceiling (c : FsyncManager) (num_next_waiters : Z) : Z :=
  if (max_leaders c <? adaptive_leaders c) && (num_next_waiters <? batch_trigger c)
  then adaptive_leaders c else max_leaders c.

(** ** Cohorts *)

Record FSyncGroup := {
  work_done_atomic : bool;
  work_done : bool;
  leader_exists : bool;
  leader_notified : bool;
  error : option string;
  result_lsn : Z;
}.

Inductive WaitStatus := NoFsyncNeeded | DoLeaderFsync | DoTimeoutFsync.

Definition FSyncGroup_new : FSyncGroup :=
  {| work_done_atomic := false; work_done := false; leader_exists := false;
     leader_notified := false; error := None; result_lsn := 0 |}.

Definition with_leader (g : FSyncGroup) (exists_ notified : bool) : FSyncGroup :=
  {| work_done_atomic := work_done_atomic g; work_done := work_done g; leader_exists := exists_;
     leader_notified := notified; error := error g; result_lsn := result_lsn g |}.

(** [wait_for_event] up to its wait: under the lock of the cohort. *)
Definition wait_precheck (g : FSyncGroup) : FSyncGroup * option WaitStatus :=
  if work_done g then (g, Some NoFsyncNeeded)
  else if negb (leader_exists g) && leader_notified g
  then (with_leader g true false, Some DoLeaderFsync)
  else (g, None).

Definition timed_out (c : FsyncManager) (start now : Z) : bool :=
  fsync_timeout c <=? Z.max 0 (now - start).

(** [wait_for_event] after a wake-up. *)
Definition wait_woken (c : FsyncManager) (start now : Z) (g : FSyncGroup)
    : FSyncGroup * option WaitStatus :=
  if work_done g then (g, Some NoFsyncNeeded)
  else if negb (leader_exists g) then (with_leader g true false, Some DoLeaderFsync)
  else if timed_out c start now then (g, Some DoTimeoutFsync)
  else (g, None).

(** The first half of both [wakeup_all] and [wakeup_all_with_error]. *)
Definition announce (g : FSyncGroup) : FSyncGroup :=
  {| work_done_atomic := true; work_done := work_done g; leader_exists := leader_exists g;
     leader_notified := leader_notified g; error := error g; result_lsn := result_lsn g |}.

(** Their second half, under the lock of the cohort. *)
Definition wakeup_all (g : FSyncGroup) (lsn : Z) : FSyncGroup :=
  {| work_done_atomic := work_done_atomic g; work_done := true; leader_exists := leader_exists g;
     leader_notified := leader_notified g; error := None; result_lsn := lsn |}.

Definition wakeup_all_with_error (g : FSyncGroup) (msg : string) : FSyncGroup :=
  {| work_done_atomic := work_done_atomic g; work_done := true; leader_exists := leader_exists g;
     leader_notified := leader_notified g; error := Some msg; result_lsn := result_lsn g |}.

Definition wakeup_one (g : FSyncGroup) : FSyncGroup :=
  if leader_exists g then g else with_leader g false true.

Definition handoff_leader (g : FSyncGroup) : FSyncGroup :=
  if work_done g then g else with_leader g false true.

(** ** The state of the manager *)

(** Cohorts are shared: [next_fsync_waiters] is the identity of one. *)
Record FsyncState := {
  leaders_in_flight : Z;
  next_fsync_waiters : nat;
  num_next_waiters : Z;
  start_next_wait_ns : option Z;
}.

Definition slots_taken (c : FsyncManager) (s : FsyncState) : bool :=
  effective_ceiling c (num_next_waiters s) <=? leaders_in_flight s.

Definition join_waiters (c : FsyncManager) (now : Z) (s : FsyncState) : FsyncState :=
  let n := num_next_waiters s + 1 in
  {| leaders_in_flight := leaders_in_flight s; next_fsync_waiters := next_fsync_waiters s;
     num_next_waiters := n;
     start_next_wait_ns := if grp_wait_on c && (n =? 1) then Some now else start_next_wait_ns s |}.

Definition take_slot (s : FsyncState) : FsyncState :=
  {| leaders_in_flight := leaders_in_flight s + 1; next_fsync_waiters := next_fsync_waiters s;
     num_next_waiters := num_next_waiters s; start_next_wait_ns := start_next_wait_ns s |}.

Definition release_slot (s : FsyncState) : FsyncState :=
  {| leaders_in_flight := leaders_in_flight s - 1; next_fsync_waiters := next_fsync_waiters s;
     num_next_waiters := num_next_waiters s; start_next_wait_ns := start_next_wait_ns s |}.

(** A fresh cohort takes the place of the one that is being served. *)
Definition new_cohort (fresh : nat) (s : FsyncState) : FsyncState :=
  {| leaders_in_flight := leaders_in_flight s; next_fsync_waiters := fresh;
     num_next_waiters := 0; start_next_wait_ns := start_next_wait_ns s |}.

(** Whether [grpc_wait] waits for more members. *)
Definition grpc_wait (c : FsyncManager) (now : Z) (s : FsyncState) : bool :=
  if num_next_waiters s =? 0 then false
  else if num_next_waiters s <? grpc_threshold c then
    let elapsed := match start_next_wait_ns s with Some t => Z.max 0 (now - t) | None => 0 end in
    elapsed <? as_u 64 (grpc_interval_ms c * 1000000)
  else false.

(** ** The log, by its watermarks *)

Record LogState := {
  next_lsn : Z;
  cached_lsn : Z;
  durable_lsn : Z;
  last_flush_lsn : Z;
  last_synced_lsn : Z;
  io_invalid : bool;
}.

Definition invalidate_log (l : LogState) : LogState :=
  {| next_lsn := next_lsn l; cached_lsn := cached_lsn l; durable_lsn := durable_lsn l;
     last_flush_lsn := last_flush_lsn l; last_synced_lsn := last_synced_lsn l; io_invalid := true |}.

(** [advance_watermark_max]: the loop ends with the maximum. *)
Definition advance_watermark_max (cell value : Z) : Z := if cell <? value then value else cell.

Definition advance_flush (l : LogState) (eol : Z) : LogState :=
  {| next_lsn := next_lsn l; cached_lsn := cached_lsn l; durable_lsn := durable_lsn l;
     last_flush_lsn := advance_watermark_max (last_flush_lsn l) eol;
     last_synced_lsn := last_synced_lsn l; io_invalid := io_invalid l |}.

Definition advance_synced (l : LogState) (eol : Z) : LogState :=
  {| next_lsn := next_lsn l; cached_lsn := cached_lsn l; durable_lsn := durable_lsn l;
     last_flush_lsn := last_flush_lsn l;
     last_synced_lsn := advance_watermark_max (last_synced_lsn l) eol; io_invalid := io_invalid l |}.

(** Every appended byte goes to the page cache. *)
Definition write_pending (l : LogState) : LogState :=
  {| next_lsn := next_lsn l; cached_lsn := next_lsn l; durable_lsn := durable_lsn l;
     last_flush_lsn := last_flush_lsn l; last_synced_lsn := last_synced_lsn l;
     io_invalid := io_invalid l |}.

Definition sync_to (l : LogState) (cached : Z) : LogState :=
  {| next_lsn := next_lsn l; cached_lsn := cached_lsn l; durable_lsn := Z.max (durable_lsn l) cached;
     last_flush_lsn := last_flush_lsn l; last_synced_lsn := last_synced_lsn l;
     io_invalid := io_invalid l |}.

Definition set_next (l : LogState) (next : Z) : LogState :=
  {| next_lsn := next; cached_lsn := cached_lsn l; durable_lsn := durable_lsn l;
     last_flush_lsn := last_flush_lsn l; last_synced_lsn := last_synced_lsn l;
     io_invalid := io_invalid l |}.

Definition invalid_msg : string := "environment permanently invalidated by prior I/O error".
Definition io_msg : string := "I/O error".

(** The part of [leader_work] under the log write latch: the end of the log, or
    an error.  [ok] is the outcome of the writes. *)
Definition leader_drain (l : LogState) (ok : bool) : LogState * (string + Z) :=
  if io_invalid l then (l, inl invalid_msg)
  else if ok then (write_pending l, inr (next_lsn l))
  else (invalidate_log l, inl io_msg).

Definition flush_no_sync (l : LogState) (ok : bool) : LogState * (string + Z) :=
  match leader_drain l ok with
  | (l, inr eol) => (advance_flush l eol, inr eol)
  | r => r
  end.

(** What an append does to the pending bytes: they stay in the buffers; the
    buffers are full and are written; the entry is too large for a buffer and is
    written itself, after them; a new file begins, after the old one is written
    and synced; a write or the sync fails. *)
Inductive AppendKind := Buffered | Spilled | Oversized | Flipped | Failed.

(** An append of [log_internal]; [next] is the LSN after the new entry. *)
Definition log_append (l : LogState) (kind : AppendKind) (next : Z) : LogState :=
  if io_invalid l then l
  else
    match kind with
    | Buffered => set_next l next
    | Spilled => set_next (write_pending l) next
    | Oversized => write_pending (set_next l next)
    | Flipped => set_next (sync_to (write_pending l) (next_lsn l)) next
    | Failed => invalidate_log l
    end.

(** ** A call *)

(** Where a call of [flush_sync_if_needed] or [flush_sync] is.  [lead] is the
    cohort that the caller leads, if it is a leader. *)
Inductive Pc :=
| PCheckInvalid
| PFastPath
| PEnter
| PGrpcWait (my_group : option nat)
| PWaitFast (g : nat)
| PWaitLock (g : nat)
| PParked (g : nat) (start : Z)
| PTakeError (g : nat)
| PResultLsn (g : nat)
| PRecheck (g : nat) (status : WaitStatus)
| PHandoff (g : nat)
| PReadWatermark
| PLeadAgain (g : nat)
| PDrain (lead : option nat)
| PAdvanceFlush (lead : option nat) (eol : Z)
| PSyncBegin (lead : option nat) (eol : Z)
| PSyncEnd (lead : option nat) (eol cached : Z)
| PAnnounce (g : nat) (res : string + Z)
| PWakeup (g : nat) (res : string + Z)
| PRelease (res : string + Z)
| PFinish (res : string + Z)
| PReload
| PReturned (res : string + Z).

(** [target]: the LSN that the caller needs, [NULL_LSN] for all; [0] is the
    argument of [flush_sync].  [called]: the end of the log at the call. *)
Record Call := { target : Z; called : Z; pc : Pc }.

Record World := {
  fs : FsyncState;
  groups : list FSyncGroup;
  clock : Z;
  log_state : LogState;
  calls : list Call;
}.

Definition with_calls (w : World) (cs : list Call) : World :=
  {| fs := fs w; groups := groups w; clock := clock w; log_state := log_state w; calls := cs |}.

Definition with_log (w : World) (l : LogState) : World :=
  {| fs := fs w; groups := groups w; clock := clock w; log_state := l; calls := calls w |}.

Definition with_fs (w : World) (s : FsyncState) : World :=
  {| fs := s; groups := groups w; clock := clock w; log_state := log_state w; calls := calls w |}.

Definition with_group (w : World) (g : nat) (x : FSyncGroup) : World :=
  {| fs := fs w; groups := <[g := x]> (groups w); clock := clock w; log_state := log_state w;
     calls := calls w |}.

Definition goto (w : World) (i : nat) (cl : Call) (p : Pc) : World :=
  with_calls w (<[i := {| target := target cl; called := called cl; pc := p |}]> (calls w)).

(** The leader serves the given cohort, by default the one that waits. *)
Definition capture (w : World) (i : nat) (cl : Call) (my_group : option nat) : World :=
  let lead := default (next_fsync_waiters (fs w)) my_group in
  goto {| fs := new_cohort (length (groups w)) (fs w); groups := groups w ++ [FSyncGroup_new];
          clock := clock w; log_state := log_state w; calls := calls w |} i cl (PDrain (Some lead)).

Definition lead_or_wait (c : FsyncManager) (w : World) (i : nat) (cl : Call) (my_group : option nat)
    : World :=
  let w := with_fs w (take_slot (fs w)) in
  if grp_wait_on c && grpc_wait c (clock w) (fs w) then goto w i cl (PGrpcWait my_group)
  else capture w i cl my_group.

Definition after_wait (w : World) (i : nat) (cl : Call) (g : nat) (st : WaitStatus) : World :=
  match st with
  | NoFsyncNeeded => goto w i cl (PTakeError g)
  | st => goto w i cl (PRecheck g st)
  end.

Definition after_work (w : World) (i : nat) (cl : Call) (lead : option nat) (res : string + Z)
    : World :=
  match lead with
  | Some g => goto w i cl (PAnnounce g res)
  | None => goto w i cl (PFinish res)
  end.

(** One atomic part of call [i]; [ok] is the outcome of its I/O. *)
Definition exec (c : FsyncManager) (w : World) (i : nat) (ok : bool) : option World :=
  cl ← calls w !! i;
  let l := log_state w in
  match pc cl with
  | PCheckInvalid =>
      Some (if io_invalid l then goto w i cl (PReturned (inl invalid_msg)) else goto w i cl PFastPath)
  | PFastPath =>
      Some (if negb (target cl =? NULL_LSN) && (target cl <? last_synced_lsn l)
            then goto w i cl (PReturned (inr (last_synced_lsn l))) else goto w i cl PEnter)
  | PEnter =>
      Some (if slots_taken c (fs w)
            then goto (with_fs w (join_waiters c (clock w) (fs w))) i cl
                   (PWaitFast (next_fsync_waiters (fs w)))
            else lead_or_wait c w i cl None)
  | PGrpcWait my_group => Some (capture w i cl my_group)
  | PWaitFast g =>
      x ← groups w !! g;
      Some (if work_done_atomic x then goto w i cl (PTakeError g) else goto w i cl (PWaitLock g))
  | PWaitLock g =>
      x ← groups w !! g;
      let '(x, st) := wait_precheck x in
      let w := with_group w g x in
      Some (match st with
            | Some st => after_wait w i cl g st
            | None => if timed_out c (clock w) (clock w) then after_wait w i cl g DoTimeoutFsync
                      else goto w i cl (PParked g (clock w))
            end)
  | PParked g start =>
      x ← groups w !! g;
      let '(x, st) := wait_woken c start (clock w) x in
      let w := with_group w g x in
      Some (match st with Some st => after_wait w i cl g st | None => w end)
  | PTakeError g =>
      x ← groups w !! g;
      Some (match error x with
            | Some msg => goto w i cl (PFinish (inl msg))
            | None => goto w i cl (PResultLsn g)
            end)
  | PResultLsn g => x ← groups w !! g; Some (goto w i cl (PFinish (inr (result_lsn x))))
  | PRecheck g st =>
      Some (if negb (target cl =? 0) && (target cl <? last_synced_lsn l) then goto w i cl (PHandoff g)
            else match st with DoLeaderFsync => goto w i cl (PLeadAgain g) | _ => goto w i cl (PDrain None) end)
  | PHandoff g => x ← groups w !! g; Some (goto (with_group w g (handoff_leader x)) i cl PReadWatermark)
  | PReadWatermark => Some (goto w i cl (PFinish (inr (last_synced_lsn l))))
  | PLeadAgain g =>
      Some (if slots_taken c (fs w) then goto w i cl (PDrain None) else lead_or_wait c w i cl (Some g))
  | PDrain lead =>
      let '(l, r) := leader_drain l ok in
      let w := with_log w l in
      Some (match r with
            | inl msg => after_work w i cl lead (inl msg)
            | inr eol => goto w i cl (PAdvanceFlush lead eol)
            end)
  | PAdvanceFlush lead eol => Some (goto (with_log w (advance_flush l eol)) i cl (PSyncBegin lead eol))
  | PSyncBegin lead eol => Some (goto w i cl (PSyncEnd lead eol (cached_lsn l)))
  | PSyncEnd lead eol cached =>
      Some (if ok then after_work (with_log w (sync_to l cached)) i cl lead (inr eol)
            else after_work (with_log w (invalidate_log l)) i cl lead (inl io_msg))
  | PAnnounce g res => x ← groups w !! g; Some (goto (with_group w g (announce x)) i cl (PWakeup g res))
  | PWakeup g res =>
      x ← groups w !! g;
      let x := match res with inr lsn => wakeup_all x lsn | inl msg => wakeup_all_with_error x msg end in
      Some (goto (with_group w g x) i cl (PRelease res))
  | PRelease res =>
      let g := next_fsync_waiters (fs w) in
      x ← groups w !! g;
      Some (goto (with_fs (with_group w g (wakeup_one x)) (release_slot (fs w))) i cl (PFinish res))
  | PFinish (inr eol) => Some (goto (with_log w (advance_synced l eol)) i cl PReload)
  | PFinish (inl msg) => Some (goto (with_log w (invalidate_log l)) i cl (PReturned (inl msg)))
  | PReload => Some (goto w i cl (PReturned (inr (last_synced_lsn l))))
  | PReturned _ => None
  end.

(** ** Interleavings *)

Inductive Action :=
| AFlushSyncIfNeeded (lsn : Z)
| AFlushSync
| ARun (i : nat) (ok : bool)
| AAppend (kind : AppendKind) (next : Z)
| AFlushNoSync (ok : bool)
| ATick (ns : Z).

Definition add_call (w : World) (lsn : Z) (p : Pc) : World :=
  with_calls w (calls w ++ [{| target := lsn; called := next_lsn (log_state w); pc := p |}]).

Definition act (c : FsyncManager) (w : World) (a : Action) : option World :=
  let l := log_state w in
  match a with
  | AFlushSyncIfNeeded lsn =>
      if (lsn =? NULL_LSN) || (0 <? lsn) && (lsn <? next_lsn l)
      then Some (add_call w lsn PCheckInvalid) else None
  | AFlushSync => Some (add_call w 0 PEnter)
  | ARun i ok => exec c w i ok
  | AAppend kind next =>
      if (next_lsn l <? next) && (next <? NULL_LSN)
      then Some (with_log w (log_append l kind next)) else None
  | AFlushNoSync ok => Some (with_log w (flush_no_sync l ok).1)
  | ATick ns =>
      if 0 <=? ns then
        Some {| fs := fs w; groups := groups w; clock := clock w + ns; log_state := log_state w;
                calls := calls w |}
      else None
  end.

Fixpoint run_actions (c : FsyncManager) (w : World) (acts : list Action) : option World :=
  match acts with
  | [] => Some w
  | a :: acts => w ← act c w a; run_actions c w acts
  end.

Definition FsyncState_new : FsyncState :=
  {| leaders_in_flight := 0; next_fsync_waiters := 0; num_next_waiters := 0;
     start_next_wait_ns := None |}.

(** A log that ends at [next], all of it on stable storage. *)
Definition World_new (next : Z) : World :=
  {| fs := FsyncState_new; groups := [FSyncGroup_new]; clock := 0;
     log_state := {| next_lsn := next; cached_lsn := next; durable_lsn := next;
                     last_flush_lsn := 0; last_synced_lsn := 0; io_invalid := false |};
     calls := [] |}.

(** * Theorems *)

(** ** The invariant *)

(** The call may return: what it needs is on stable storage, or the log is
    invalid. *)
Definition safe (l : LogState) (target called : Z) : Prop :=
  io_invalid l = true ∨ called ≤ durable_lsn l ∨
  (target <> 0 ∧ target <> NULL_LSN ∧ target < durable_lsn l).

Definition waits_in (p : Pc) (g : nat) : Prop :=
  match p with PWaitFast g' | PWaitLock g' | PParked g' _ => g' = g | _ => False end.

(** What the calls that wait in a cohort need. *)
Definition waiting (cs : list Call) (g : nat) (t cd : Z) : Prop :=
  ∃ i p, cs !! i = Some {| target := t; called := cd; pc := p |} ∧ waits_in p g.

Record log_ok (l : LogState) : Prop := {
  lo_next : 0 < next_lsn l < NULL_LSN;
  lo_cached : cached_lsn l ≤ next_lsn l;
  lo_zero : 0 ≤ durable_lsn l;
  lo_durable : durable_lsn l ≤ cached_lsn l;
  lo_synced : last_synced_lsn l ≤ durable_lsn l;
  lo_flush : last_flush_lsn l ≤ cached_lsn l;
}.

Record log_le (l l' : LogState) : Prop := {
  ll_next : next_lsn l ≤ next_lsn l';
  ll_cached : cached_lsn l ≤ cached_lsn l';
  ll_durable : durable_lsn l ≤ durable_lsn l';
  ll_invalid : io_invalid l = true → io_invalid l' = true;
}.

Definition res_ok (l : LogState) (P : Z → Prop) (res : string + Z) : Prop :=
  match res with inl _ => io_invalid l = true | inr e => e ≤ durable_lsn l ∧ P e end.

Section pc_ok.
Context (l : LogState) (n next : nat) (W : nat → Z → Z → Prop) (cl : Call).

Definition lead_ok (lead : option nat) : Prop :=
  match lead with Some g => (g < n)%nat ∧ g <> next | None => True end.

(** The drain up to [e] serves the leader and the waiters of its cohort. *)
Definition serves (lead : option nat) (e : Z) : Prop :=
  lead_ok lead ∧ called cl ≤ e ∧
  match lead with Some g => ∀ t cd, W g t cd → cd ≤ e | None => True end.

Definition pc_ok : Prop :=
  match pc cl with
  | PCheckInvalid | PFastPath => target cl <> 0
  | PEnter | PGrpcWait None => True
  | PGrpcWait (Some g) | PWaitFast g | PWaitLock g | PParked g _ | PRecheck g _ | PLeadAgain g =>
      (g < n)%nat
  | PTakeError g | PResultLsn g | PHandoff g => (g < n)%nat ∧ safe l (target cl) (called cl)
  | PReadWatermark | PReload => safe l (target cl) (called cl)
  | PDrain lead => lead_ok lead
  | PAdvanceFlush lead eol | PSyncBegin lead eol => serves lead eol ∧ eol ≤ cached_lsn l
  | PSyncEnd lead eol cached => serves lead eol ∧ eol ≤ cached ∧ cached ≤ cached_lsn l
  | PAnnounce g res | PWakeup g res => lead_ok (Some g) ∧ res_ok l (serves (Some g)) res
  | PRelease res | PFinish res | PReturned res => res_ok l (λ _, safe l (target cl) (called cl)) res
  end.
End pc_ok.

Definition call_ok (l : LogState) (cl : Call) : Prop :=
  called cl ≤ next_lsn l ∧ (target cl = NULL_LSN ∨ target cl < called cl).

Definition group_ok (l : LogState) (next : nat) (W : nat → Z → Z → Prop) (g : nat) (x : FSyncGroup) : Prop :=
  result_lsn x ≤ durable_lsn l ∧ (error x <> None → io_invalid l = true) ∧
  (work_done_atomic x || work_done x = true → g <> next ∧ ∀ t cd, W g t cd → safe l t cd).

Record inv (w : World) : Prop := {
  inv_log : log_ok (log_state w);
  inv_next : (next_fsync_waiters (fs w) < length (groups w))%nat;
  inv_groups g x : groups w !! g = Some x →
    group_ok (log_state w) (next_fsync_waiters (fs w)) (waiting (calls w)) g x;
  inv_calls i cl : calls w !! i = Some cl → call_ok (log_state w) cl ∧
    pc_ok (log_state w) (length (groups w)) (next_fsync_waiters (fs w)) (waiting (calls w)) cl;
}.

(** *** Growth of the log *)

Lemma log_le_refl l : log_le l l.
Proof. by split. Qed.

Lemma safe_le l l' t cd : log_le l l' → safe l t cd → safe l' t cd.
Proof. intros [_ _ Hd Hi] [H|[H|(H1 & H2 & H3)]]; [left; by apply Hi|right; left; lia|right; right]. split_and!; try done. lia. Qed.

Lemma res_ok_le l l' (P P' : Z → Prop) res :
  log_le l l' → (∀ e, P e → P' e) → res_ok l P res → res_ok l' P' res.
Proof.
  intros [_ _ Hd Hi] HP. destruct res as [m|e]; simpl; [apply Hi|]. intros [H1 H2]. split; [lia|by apply HP].
Qed.

Lemma call_ok_le l l' cl : log_le l l' → call_ok l cl → call_ok l' cl.
Proof. intros [Hn _ _ _] [H1 H2]. split; [lia|done]. Qed.

(** More cohorts, and fewer waiters outside the one that takes new members. *)
Lemma pc_ok_le l l' n n' next next' (W W' : nat → Z → Z → Prop) cl :
  log_le l l' → (n ≤ n')%nat → (next' = next ∨ (n ≤ next')%nat) →
  (∀ g t cd, g <> next → W' g t cd → W g t cd) →
  pc_ok l n next W cl → pc_ok l' n' next' W' cl.
Proof.
  intros Hl Hn Hnext HW.
  assert (∀ lead, lead_ok n next lead → lead_ok n' next' lead) as Hlead.
  { intros [g|]; [|done]. simpl. lia. }
  assert (∀ lead e, serves n next W cl lead e → serves n' next' W' cl lead e) as Hserves.
  { intros lead e (H1 & H2 & H3). split; [by apply Hlead|]. split; [done|].
    destruct lead as [g|]; [|done]. intros t cd Hw. eapply H3, HW; [|done]. by destruct H1. }
  pose proof (ll_cached _ _ Hl) as Hc.
  unfold pc_ok. destruct (pc cl) as [| | |[g|]|g|g|g st|g|g|g st|g| |g|lead|lead eol|lead eol|lead eol c|g res|g res|res|res| |res];
    try done; try (intros; lia).
  - intros [H1 H2]. split; [lia|by eapply safe_le].
  - intros [H1 H2]. split; [lia|by eapply safe_le].
  - intros [H1 H2]. split; [lia|by eapply safe_le].
  - by apply safe_le.
  - apply Hlead.
  - intros [H1 H2]. split; [by apply Hserves|lia].
  - intros [H1 H2]. split; [by apply Hserves|lia].
  - intros (H1 & H2 & H3). split; [by apply Hserves|lia].
  - intros [H1 H2]. split; [by apply Hlead|]. eapply res_ok_le; [done| |done]. intros e. apply Hserves.
  - intros [H1 H2]. split; [by apply Hlead|]. eapply res_ok_le; [done| |done]. intros e. apply Hserves.
  - apply res_ok_le; [done|]. intros _. by apply safe_le.
  - apply res_ok_le; [done|]. intros _. by apply safe_le.
  - by apply safe_le.
  - apply res_ok_le; [done|]. intros _. by apply safe_le.
Qed.

(** *** One call moves *)

Definition at_pc (cl : Call) (p : Pc) : Call := {| target := target cl; called := called cl; pc := p |}.

(** The waiters after call [i] has moved to [p]. *)
Lemma waiting_move cs i cl p g t cd :
  cs !! i = Some cl → waiting (<[i := at_pc cl p]> cs) g t cd →
  waiting cs g t cd ∨ (t = target cl ∧ cd = called cl ∧ waits_in p g).
Proof.
  intros Hi (j & q & Hj & Hw).
  apply list_lookup_insert_Some in Hj as [(-> & E & _)|(Hne & Hj)].
  - right. injection E as <- <- <-. done.
  - left. by exists j, q.
Qed.

(** The call [i] moves to [p], and with it the log, the cohorts and the state
    of the manager. *)
Lemma inv_move w i cl p s gs l :
  inv w → calls w !! i = Some cl →
  log_le (log_state w) l → log_ok l →
  (length (groups w) ≤ length gs)%nat →
  (next_fsync_waiters s = next_fsync_waiters (fs w) ∨ (length (groups w) ≤ next_fsync_waiters s)%nat) →
  (next_fsync_waiters s < length gs)%nat →
  (∀ g, waits_in p g → waits_in (pc cl) g ∨
     g = next_fsync_waiters (fs w) ∧ next_fsync_waiters s = next_fsync_waiters (fs w)) →
  (∀ g x, gs !! g = Some x → group_ok l (next_fsync_waiters s) (waiting (calls w)) g x) →
  pc_ok l (length gs) (next_fsync_waiters s) (waiting (calls w)) (at_pc cl p) →
  inv {| fs := s; groups := gs; clock := clock w; log_state := l; calls := <[i := at_pc cl p]> (calls w) |}.
Proof.
  intros [Hlog Hnext Hgs Hcs] Hi Hl Hlog' Hlen Hns Hns' Hp Hg Hpc.
  assert (∀ g t cd, g <> next_fsync_waiters (fs w) ∨ g <> next_fsync_waiters s →
            waiting (<[i := at_pc cl p]> (calls w)) g t cd → waiting (calls w) g t cd) as HW.
  { intros g t cd Hne Hw. apply (waiting_move _ _ _ _ _ _ _ Hi) in Hw as [Hw|(-> & -> & Hw)]; [done|].
    destruct (Hp g Hw) as [Hw'|[-> E]]; [exists i, (pc cl); by destruct cl|]. by destruct Hne. }
  split; cbn [fs groups log_state calls]; [done|done| |].
  - intros g x Hx. destruct (Hg g x Hx) as (H1 & H2 & H3). split; [done|]. split; [done|].
    intros Hd. destruct (H3 Hd) as [Hne Hs]. split; [done|]. intros t cd Hw. apply Hs, HW; [by right|done].
  - intros j clj Hj. apply list_lookup_insert_Some in Hj as [(-> & <- & _)|(Hne & Hj)].
    + destruct (Hcs _ _ Hi) as [Hc _]. split; [exact (call_ok_le (log_state w) l cl Hl Hc)|].
      eapply (pc_ok_le l l _ _ (next_fsync_waiters s)); [apply log_le_refl|reflexivity|by left| |exact Hpc]. intros g t cd Hg'. apply HW. by right.
    + destruct (Hcs _ _ Hj) as [Hc Hpj]. split; [exact (call_ok_le _ _ _ Hl Hc)|].
      eapply (pc_ok_le (log_state w) l); [done|exact Hlen|exact Hns| |exact Hpj]. intros g t cd Hg'. apply HW. by left.
Qed.

(** The cohorts stay as they are. *)
Lemma groups_le w l g x :
  inv w → log_le (log_state w) l → groups w !! g = Some x →
  group_ok l (next_fsync_waiters (fs w)) (waiting (calls w)) g x.
Proof.
  intros Hinv Hl Hx. destruct (inv_groups _ Hinv g x Hx) as (H1 & H2 & H3). pose proof (ll_durable _ _ Hl).
  split; [lia|]. split; [intros He; by apply (ll_invalid _ _ Hl), H2|].
  intros Hd. destruct (H3 Hd) as [Hne Hs]. split; [done|]. intros t cd Hw. by eapply safe_le, Hs.
Qed.

Lemma inv_goto w i cl p l s :
  inv w → calls w !! i = Some cl → log_le (log_state w) l → log_ok l →
  next_fsync_waiters s = next_fsync_waiters (fs w) →
  (∀ g, waits_in p g → waits_in (pc cl) g ∨ g = next_fsync_waiters (fs w)) →
  pc_ok l (length (groups w)) (next_fsync_waiters (fs w)) (waiting (calls w)) (at_pc cl p) →
  inv (goto (with_fs (with_log w l) s) i cl p).
Proof.
  intros Hinv Hi Hl Hlo Hs Hp Hpc. apply (inv_move w i cl p s (groups w) l); [done|done|done|done|reflexivity|by left| | | |].
  - rewrite Hs. apply (inv_next _ Hinv).
  - intros g Hg. rewrite Hs. destruct (Hp g Hg); [by left|by right].
  - intros g x Hx. rewrite Hs. by apply groups_le.
  - by rewrite Hs.
Qed.

(** Only the call moves. *)
Lemma inv_pc w i cl p :
  inv w → calls w !! i = Some cl → (∀ g, waits_in p g → waits_in (pc cl) g) →
  pc_ok (log_state w) (length (groups w)) (next_fsync_waiters (fs w)) (waiting (calls w)) (at_pc cl p) →
  inv (goto w i cl p).
Proof.
  intros Hinv Hi Hp Hpc. pose proof (inv_goto w i cl p (log_state w) (fs w) Hinv Hi) as H.
  assert (with_fs (with_log w (log_state w)) (fs w) = w) as E by by destruct w. rewrite E in H.
  apply H; [apply log_le_refl|apply (inv_log _ Hinv)|done| |done]. intros g Hg. left. by apply Hp.
Qed.

(** A cohort changes, and what it says stays true. *)
Lemma inv_group w i cl p g x x' s :
  inv w → calls w !! i = Some cl → groups w !! g = Some x →
  group_ok (log_state w) (next_fsync_waiters (fs w)) (waiting (calls w)) g x' →
  next_fsync_waiters s = next_fsync_waiters (fs w) →
  (∀ g, waits_in p g → waits_in (pc cl) g) →
  pc_ok (log_state w) (length (groups w)) (next_fsync_waiters (fs w)) (waiting (calls w)) (at_pc cl p) →
  inv (goto (with_fs (with_group w g x') s) i cl p).
Proof.
  intros Hinv Hi Hx Hx' Hs Hp Hpc.
  apply (inv_move w i cl p s (<[g := x']> (groups w)) (log_state w));
    [done|done|apply log_le_refl|apply (inv_log _ Hinv)| | | | | |].
  - by rewrite length_insert.
  - by left.
  - rewrite length_insert, Hs. apply (inv_next _ Hinv).
  - intros g' Hg'. left. by apply Hp.
  - rewrite Hs. intros g' y Hy. apply list_lookup_insert_Some in Hy as [(-> & <- & _)|(_ & Hy)]; [done|].
    by apply (inv_groups _ Hinv).
  - by rewrite length_insert, Hs.
Qed.

(** A change of the flags for leaders says nothing about the work. *)
Lemma group_ok_leader l next W g x e n : group_ok l next W g x → group_ok l next W g (with_leader x e n).
Proof. done. Qed.

Lemma inv_capture w i cl my_group :
  inv w → calls w !! i = Some cl →
  match my_group with Some g => (g < length (groups w))%nat | None => True end →
  inv (capture w i cl my_group).
Proof.
  intros Hinv Hi Hg. pose proof (inv_next _ Hinv) as Hn.
  apply (inv_move w i cl _ (new_cohort (length (groups w)) (fs w)) (groups w ++ [FSyncGroup_new]) (log_state w));
    [done|done|apply log_le_refl|apply (inv_log _ Hinv)| | | | | |].
  - rewrite length_app. lia.
  - by right.
  - rewrite length_app. simpl. lia.
  - done.
  - simpl. intros g x [Hx|[_ Hx]]%lookup_app_Some.
    + destruct (inv_groups _ Hinv g x Hx) as (H1 & H2 & H3). split; [done|]. split; [done|].
      intros Hd. destruct (H3 Hd) as [_ Hs]. split; [|done]. apply lookup_lt_Some in Hx. lia.
    + apply list_lookup_singleton_Some in Hx as [_ <-].
      split; [exact (lo_zero _ (inv_log _ Hinv))|done].
  - rewrite length_app. unfold pc_ok, at_pc. cbn. destruct my_group as [g|]; simpl in *; lia.
Qed.

Lemma inv_lead c w i cl my_group :
  inv w → calls w !! i = Some cl →
  match my_group with Some g => (g < length (groups w))%nat | None => True end →
  inv (lead_or_wait c w i cl my_group).
Proof.
  intros Hinv Hi Hg. unfold lead_or_wait.
  assert (inv (with_fs w (take_slot (fs w)))) as Hinv' by by destruct Hinv.
  destruct (grp_wait_on c && _).
  - apply inv_pc; [done|done|done|]. unfold pc_ok, at_pc. by destruct my_group.
  - by apply inv_capture.
Qed.

(** *** Every part of a call keeps the invariant *)

(** A watermark that covers the target. *)
Lemma synced_safe l cl :
  log_ok l → call_ok l cl → target cl <> 0 → target cl < last_synced_lsn l → safe l (target cl) (called cl).
Proof.
  intros [Hn Hc _ Hd Hs _] [Hcl Ht] H0 Hlt. right. right. split; [done|].
  destruct Ht as [E|Hlt']; [rewrite E in *; lia|]. lia.
Qed.


Lemma with_group_same w g x : groups w !! g = Some x → with_group w g x = w.
Proof. intros Hx. unfold with_group. rewrite list_insert_id by done. by destruct w. Qed.

Section exec.
Context (c : FsyncManager) (w : World) (i : nat) (cl : Call) (ok : bool).
Hypothesis Hinv : inv w.
Hypothesis Hi : calls w !! i = Some cl.

Abbreviation l := (log_state w).
Abbreviation n := (length (groups w)).
Abbreviation next := (next_fsync_waiters (fs w)).
Abbreviation W := (waiting (calls w)).

Lemma call_facts : call_ok l cl ∧ pc_ok l n next W cl.
Proof. by apply (inv_calls _ Hinv i). Qed.

Lemma waiting_self g : waits_in (pc cl) g → W g (target cl) (called cl).
Proof. intros Hw. exists i, (pc cl). split; [|done]. rewrite Hi. by destruct cl. Qed.

(** The log moves on, and the call with it. *)
Lemma inv_log_step l' p :
  log_le l l' → log_ok l' → (∀ g, ¬ waits_in p g) →
  pc_ok l' n next W (at_pc cl p) → inv (goto (with_log w l') i cl p).
Proof.
  intros Hl Hlo Hp Hpc. pose proof (inv_goto w i cl p l' (fs w) Hinv Hi Hl Hlo eq_refl) as H.
  assert (with_fs (with_log w l') (fs w) = with_log w l') as E by done. rewrite E in H.
  apply H; [|done]. intros g Hg. by apply Hp in Hg.
Qed.

Definition wait_pc (g : nat) (st : option WaitStatus) (q : Pc) : Pc :=
  match st with
  | Some NoFsyncNeeded => PTakeError g
  | Some st => PRecheck g st
  | None => q
  end.

(** A waiter looks at its cohort and goes on, or waits again. *)
Lemma inv_wait_status g x st q e m :
  groups w !! g = Some x → waits_in (pc cl) g → (st = Some NoFsyncNeeded → work_done x = true) →
  waits_in q g → (∀ g', waits_in q g' → g' = g) →
  inv (goto (with_group w g (with_leader x e m)) i cl (wait_pc g st q)).
Proof.
  intros Hx Hw Hdone Hq Hq'.
  pose proof (inv_groups _ Hinv g x Hx) as Hg. pose proof (lookup_lt_Some _ _ _ Hx) as Hlt.
  apply (inv_group w i cl _ g x (with_leader x e m) (fs w)); [done|done|done|exact Hg|done| |].
  - intros g' Hg'. destruct st as [[]|]; try done. by rewrite (Hq' g' Hg').
  - unfold pc_ok, at_pc. cbn. destruct st as [[]|]; cbn; try done.
    + split; [done|]. destruct Hg as (_ & _ & H3).
      destruct H3 as [_ H3]; [by rewrite (Hdone eq_refl), orb_true_r|]. by apply H3, waiting_self.
    + destruct q; simpl in Hq; try done; by subst.
Qed.

Lemma with_leader_same x : with_leader x (leader_exists x) (leader_notified x) = x.
Proof. by destruct x. Qed.

Lemma inv_wait_same g x st q :
  groups w !! g = Some x → waits_in (pc cl) g → (st = Some NoFsyncNeeded → work_done x = true) →
  waits_in q g → (∀ g', waits_in q g' → g' = g) →
  inv (goto (with_group w g x) i cl (wait_pc g st q)).
Proof.
  intros Hx Hw Hd Hq Hq'. rewrite <-(with_leader_same x). by apply inv_wait_status.
Qed.

(** The waits of a call. *)
Lemma exec_waits w' :
  match pc cl with PWaitFast _ | PWaitLock _ | PParked _ _ | PTakeError _ | PResultLsn _ => True | _ => False end →
  exec c w i ok = Some w' → inv w'.
Proof.
  destruct call_facts as [Hcl Hpc]. unfold exec. rewrite Hi. cbn [mbind option_bind]. unfold pc_ok in Hpc.
  destruct (pc cl) as [| | |mg|g|g|g start|g|g|g st|g| |g|lead|lead eol|lead eol|lead eol cd|g res|g res|res|res| |res] eqn:Epc;
    try done; intros _ Hex; apply bind_Some in Hex as (x & Hx & Hex).
  - injection Hex as <-. destruct (work_done_atomic x) eqn:Ed.
    + apply inv_pc; [done|done|done|]. split; [done|]. destruct (inv_groups _ Hinv g x Hx) as (_ & _ & H3).
      destruct H3 as [_ H3]; [by rewrite Ed|]. apply H3, waiting_self. by rewrite Epc.
    + apply inv_pc; [done|done|by rewrite Epc|done].
  - unfold wait_precheck in Hex. destruct (work_done x) eqn:Ed.
    { injection Hex as <-. apply (inv_wait_same g x (Some NoFsyncNeeded) (PWaitLock g)); solve [done | by rewrite Epc | by intros ? <-]. }
    destruct (negb (leader_exists x) && leader_notified x); injection Hex as <-.
    { apply (inv_wait_status g x (Some DoLeaderFsync) (PWaitLock g)); solve [done | by rewrite Epc | by intros ? <-]. }
    destruct (timed_out c _ _).
    { apply (inv_wait_same g x (Some DoTimeoutFsync) (PWaitLock g)); solve [done | by rewrite Epc | by intros ? <-]. }
    apply (inv_wait_same g x None (PParked g (clock w))); solve [done | by rewrite Epc | by intros ? <-].
  - unfold wait_woken in Hex. destruct (work_done x) eqn:Ed.
    { injection Hex as <-. apply (inv_wait_same g x (Some NoFsyncNeeded) (PWaitLock g)); solve [done | by rewrite Epc | by intros ? <-]. }
    destruct (negb (leader_exists x)).
    { injection Hex as <-. apply (inv_wait_status g x (Some DoLeaderFsync) (PWaitLock g)); solve [done | by rewrite Epc | by intros ? <-]. }
    destruct (timed_out c start (clock w)); injection Hex as <-.
    { apply (inv_wait_same g x (Some DoTimeoutFsync) (PWaitLock g)); solve [done | by rewrite Epc | by intros ? <-]. }
    by rewrite with_group_same.
  - injection Hex as <-. destruct (inv_groups _ Hinv g x Hx) as (_ & H2 & _). destruct (error x) as [msg|] eqn:Ee.
    + apply inv_pc; [done..|]. simpl. by apply H2.
    + by apply inv_pc; [done..|].
  - injection Hex as <-. apply inv_pc; [done..|]. simpl.
    split; [apply (inv_groups _ Hinv g x Hx)|by destruct Hpc].
Qed.

(** The decisions of a call. *)
Lemma exec_decides w' :
  match pc cl with
  | PCheckInvalid | PFastPath | PEnter | PGrpcWait _ | PRecheck _ _ | PHandoff _ | PReadWatermark | PLeadAgain _ => True
  | _ => False
  end → exec c w i ok = Some w' → inv w'.
Proof.
  destruct call_facts as [Hcl Hpc]. pose proof (inv_log _ Hinv) as Hlog.
  unfold exec. rewrite Hi. cbn [mbind option_bind]. unfold pc_ok in Hpc.
  destruct (pc cl) as [| | |mg|g|g|g start|g|g|g st|g| |g|lead|lead eol|lead eol|lead eol cd|g res|g res|res|res| |res] eqn:Epc;
    try done; intros _ Hex.
  - injection Hex as <-. destruct (io_invalid l) eqn:Ei; by apply inv_pc.
  - injection Hex as <-. destruct (_ && _) eqn:Es; [|by apply inv_pc].
    apply andb_true_iff in Es as [_ Hlt%Z.ltb_lt]. apply inv_pc; [done..|]. simpl.
    split; [apply (lo_synced _ Hlog)|by apply synced_safe].
  - injection Hex as <-. destruct (slots_taken c (fs w)); [|by apply inv_lead].
    apply (inv_goto w i cl (PWaitFast next) l (join_waiters c (clock w) (fs w)));
      [done|done|apply log_le_refl|done|done| |].
    + simpl. intros g <-. by right.
    + apply (inv_next _ Hinv).
  - injection Hex as <-. apply inv_capture; [done|done|]. by destruct mg.
  - injection Hex as <-. destruct (_ && _) eqn:Es.
    + apply andb_true_iff in Es as [H0%negb_true_iff%Z.eqb_neq Hlt%Z.ltb_lt]. apply inv_pc; [done..|].
      split; [done|by apply synced_safe].
    + destruct st; by apply inv_pc.
  - apply bind_Some in Hex as (x & Hx & Hex). injection Hex as <-.
    apply (inv_group w i cl _ g x (handoff_leader x) (fs w)); [done..| |done|done|by destruct Hpc].
    unfold handoff_leader. destruct (work_done x); exact (inv_groups _ Hinv g x Hx).
  - injection Hex as <-. apply inv_pc; [done..|]. split; [apply (lo_synced _ Hlog)|done].
  - injection Hex as <-. destruct (slots_taken c (fs w)); [by apply inv_pc|by apply inv_lead].
Qed.

Lemma inv_after_work l' lead res :
  log_le l l' → log_ok l' →
  match lead with
  | Some g => lead_ok n next lead ∧ res_ok l' (serves n next W cl lead) res
  | None => res_ok l' (λ e, called cl ≤ e) res
  end → inv (after_work (with_log w l') i cl lead res).
Proof.
  intros Hl Hlo Hres. destruct lead as [g|]; (apply inv_log_step; [done|done|by intros ? []|]).
  - exact Hres.
  - destruct res as [m|e]; [done|]. destruct Hres as [H1 H2]. split; [done|]. right. left. cbn in *. lia.
Qed.

Lemma write_pending_ok l0 : log_ok l0 → log_le l0 (write_pending l0) ∧ log_ok (write_pending l0).
Proof. intros [? ? ? ? ? ?]. split; split; simpl; try done; lia. Qed.

Lemma invalidate_ok l0 : log_ok l0 → log_le l0 (invalidate_log l0) ∧ log_ok (invalidate_log l0).
Proof. intros [? ? ? ? ? ?]. split; split; simpl; done. Qed.

Lemma sync_to_ok l0 cached :
  log_ok l0 → cached ≤ cached_lsn l0 → log_le l0 (sync_to l0 cached) ∧ log_ok (sync_to l0 cached).
Proof. intros [? ? ? ? ? ?] Hc. split; split; simpl; try done; lia. Qed.

Lemma advance_max a b : advance_watermark_max a b = Z.max a b.
Proof. unfold advance_watermark_max. destruct (Z.ltb_spec a b); lia. Qed.

Lemma advance_flush_ok l0 eol :
  log_ok l0 → eol ≤ cached_lsn l0 → log_le l0 (advance_flush l0 eol) ∧ log_ok (advance_flush l0 eol).
Proof. intros [? ? ? ? ? ?] Hc. split; split; simpl; rewrite ?advance_max; try done; lia. Qed.

Lemma advance_synced_ok l0 eol :
  log_ok l0 → eol ≤ durable_lsn l0 → log_le l0 (advance_synced l0 eol) ∧ log_ok (advance_synced l0 eol).
Proof. intros [? ? ? ? ? ?] Hc. split; split; simpl; rewrite ?advance_max; try done; lia. Qed.

(** The drain and the sync. *)
Lemma exec_works w' :
  match pc cl with PDrain _ | PAdvanceFlush _ _ | PSyncBegin _ _ | PSyncEnd _ _ _ => True | _ => False end →
  exec c w i ok = Some w' → inv w'.
Proof.
  destruct call_facts as [[Hcl _] Hpc]. pose proof (inv_log _ Hinv) as Hlog.
  unfold exec. rewrite Hi. cbn [mbind option_bind]. unfold pc_ok in Hpc.
  destruct (pc cl) as [| | |mg|g|g|g start|g|g|g st|g| |g|lead|lead eol|lead eol|lead eol cd|g res|g res|res|res| |res] eqn:Epc;
    try done; intros _ Hex.
  - unfold leader_drain in Hex. destruct (io_invalid l) eqn:Ei; [|destruct ok]; injection Hex as <-.
    + apply inv_after_work; [apply log_le_refl|done|]. by destruct lead.
    + destruct (write_pending_ok l Hlog) as [Hl Hlo]. apply inv_log_step; [done|done|by intros ? []|].
      simpl. split; [|done]. split; [done|]. split; [done|]. destruct lead as [g|]; [|done].
      intros t cd (j & q & Hj & _). by apply (inv_calls _ Hinv) in Hj as [[? _] _].
    + destruct (invalidate_ok l Hlog) as [Hl Hlo]. apply inv_after_work; [done|done|]. by destruct lead.
  - injection Hex as <-. destruct Hpc as [Hs He]. destruct (advance_flush_ok l eol Hlog He) as [Hl Hlo].
    apply inv_log_step; [done|done|by intros ? []|]. by split.
  - injection Hex as <-. destruct Hpc as [Hs He]. by apply inv_pc; [done..|].
  - destruct Hpc as (Hs & He & Hc). destruct ok; injection Hex as <-.
    + destruct (sync_to_ok l cd Hlog Hc) as [Hl Hlo]. apply inv_after_work; [done|done|].
      destruct lead as [g|]; simpl; [split; [by destruct Hs|]|]; (split; [lia|]); [done|by destruct Hs as (_ & ? & _)].
    + destruct (invalidate_ok l Hlog) as [Hl Hlo]. apply inv_after_work; [done|done|].
      destruct lead as [g|]; [|done]. split; [by destruct Hs|done].
Qed.

(** Waking the cohort and returning. *)
Lemma exec_finishes w' :
  match pc cl with PAnnounce _ _ | PWakeup _ _ | PRelease _ | PFinish _ | PReload | PReturned _ => True | _ => False end →
  exec c w i ok = Some w' → inv w'.
Proof.
  destruct call_facts as [[Hcl _] Hpc]. pose proof (inv_log _ Hinv) as Hlog.
  unfold exec. rewrite Hi. cbn [mbind option_bind]. unfold pc_ok in Hpc.
  destruct (pc cl) as [| | |mg|g|g|g start|g|g|g st|g| |g|lead|lead eol|lead eol|lead eol cd|g res|g res|res|res| |res] eqn:Epc;
    try done; intros _ Hex.
  1,2: apply bind_Some in Hex as (x & Hx & Hex); injection Hex as <-; destruct Hpc as [Hlead Hres];
       assert (∀ t cd, W g t cd → safe l t cd) as Hsafe by
         (intros t cd Hw; destruct res as [m|e]; [by left|]; destruct Hres as (He & _ & _ & Hs); right; left;
          specialize (Hs t cd Hw); lia);
       destruct (inv_groups _ Hinv g x Hx) as (H1 & H2 & H3).
  - apply (inv_group w i cl _ g x (announce x) (fs w)); [done..| |done|done|done].
    split; [done|]. split; [done|]. intros _. split; [apply Hlead|done].
  - apply (inv_group w i cl _ g x _ (fs w)); [done..| |done|done|].
    + destruct res as [m|e]; simpl in *; (split; [|split; [|intros _; split; [apply Hlead|done]]]); try done.
      by destruct Hres.
    + destruct res as [m|e]; [done|]. destruct Hres as (He & _ & Hc & _). split; [done|]. right. left. simpl. lia.
  - apply bind_Some in Hex as (x & Hx & Hex). injection Hex as <-.
    apply (inv_group w i cl _ next x (wakeup_one x) (release_slot (fs w))); [done..| |done|done|done].
    unfold wakeup_one. destruct (leader_exists x); exact (inv_groups _ Hinv next x Hx).
  - destruct res as [m|e]; injection Hex as <-.
    + destruct (invalidate_ok l Hlog) as [Hl Hlo]. by apply inv_log_step; [done|done|intros ? []|].
    + destruct Hpc as [He Hs]. destruct (advance_synced_ok l e Hlog He) as [Hl Hlo].
      apply inv_log_step; [done|done|by intros ? []|done].
  - injection Hex as <-. apply inv_pc; [done..|]. split; [apply (lo_synced _ Hlog)|done].
Qed.

Lemma exec_inv w' : exec c w i ok = Some w' → inv w'.
Proof.
  intros Hex. destruct (pc cl) eqn:Epc;
    first [apply exec_waits; [by rewrite Epc|done] | apply exec_decides; [by rewrite Epc|done] |
           apply exec_works; [by rewrite Epc|done] | apply exec_finishes; [by rewrite Epc|done]].
Qed.
End exec.

(** A new call waits in no cohort. *)
Lemma inv_add_call w lsn p :
  inv w → (lsn = NULL_LSN ∨ lsn < next_lsn (log_state w)) →
  (p = PCheckInvalid ∧ lsn <> 0 ∨ p = PEnter) → inv (add_call w lsn p).
Proof.
  intros [Hlog Hnext Hgs Hcs] Hlsn Hp.
  assert (∀ g t cd, waiting (calls w ++ [{| target := lsn; called := next_lsn (log_state w); pc := p |}]) g t cd →
            waiting (calls w) g t cd) as HW.
  { intros g t cd (j & q & [Hj|[_ Hj]]%lookup_app_Some & Hw); [by exists j, q|].
    apply list_lookup_singleton_Some in Hj as [_ E]. injection E as <- <- <-. by destruct Hp as [[-> _]| ->]. }
  split; cbn [fs groups log_state calls add_call with_calls]; [done|done| |].
  - intros g x Hx. destruct (Hgs g x Hx) as (H1 & H2 & H3). split; [done|]. split; [done|].
    intros Hd. destruct (H3 Hd) as [Hne Hs]. split; [done|]. intros t cd Hw. by apply Hs, HW.
  - intros i cl [Hi|[_ Hi]]%lookup_app_Some.
    + destruct (Hcs i cl Hi) as [Hc Hpc]. split; [done|].
      eapply (pc_ok_le (log_state w) (log_state w)); [apply log_le_refl|reflexivity|by left| |exact Hpc].
      intros g t cd _. apply HW.
    + apply list_lookup_singleton_Some in Hi as [_ <-]. split; [by split|].
      by destruct Hp as [[-> ?]| ->].
Qed.

(** The log moves on by itself. *)
Lemma inv_with_log w l : inv w → log_le (log_state w) l → log_ok l → inv (with_log w l).
Proof.
  intros Hinv Hl Hlo. pose proof Hinv as [_ Hnext _ Hcs]. split; cbn [fs groups log_state calls with_log]; [done|done| |].
  - intros g x Hx. by apply groups_le.
  - intros i cl Hi. destruct (Hcs i cl Hi) as [Hc Hpc]. split; [by eapply call_ok_le|].
    eapply (pc_ok_le (log_state w) l); [done|reflexivity|by left| |exact Hpc]. done.
Qed.

Lemma log_append_ok l kind next :
  log_ok l → next_lsn l < next < NULL_LSN → log_le l (log_append l kind next) ∧ log_ok (log_append l kind next).
Proof.
  intros Hlog Hn. unfold log_append. destruct (io_invalid l) eqn:Ei; [by split; [apply log_le_refl|]|].
  destruct Hlog as [? ? ? ? ? ?].
  destruct kind; (split; split; simpl; rewrite ?Ei; try done; lia).
Qed.

Lemma flush_no_sync_ok l ok : log_ok l → log_le l (flush_no_sync l ok).1 ∧ log_ok (flush_no_sync l ok).1.
Proof.
  intros Hlog. unfold flush_no_sync, leader_drain. destruct (io_invalid l) eqn:Ei; [by split; [apply log_le_refl|]|].
  destruct ok; [|by apply invalidate_ok]. destruct Hlog as [? ? ? ? ? ?].
  split; split; simpl; rewrite ?advance_max; try done; lia.
Qed.

Lemma act_inv c w a w' : inv w → act c w a = Some w' → inv w'.
Proof.
  intros Hinv. pose proof (inv_log _ Hinv) as Hlog. destruct a as [lsn| |i ok|kind next|ok|ns]; simpl.
  - destruct (_ || _) eqn:E; [|done]. intros [= <-]. apply inv_add_call; [done| |left; split; [done|]].
    + apply orb_true_iff in E as [E%Z.eqb_eq|[_ E%Z.ltb_lt]%andb_true_iff]; [by left|by right].
    + intros ->. done.
  - intros [= <-]. apply inv_add_call; [done|right; apply Hlog|by right].
  - intros Hex. destruct (calls w !! i) as [cl|] eqn:Hi; [|unfold exec in Hex; by rewrite Hi in Hex].
    by eapply exec_inv.
  - destruct (_ && _) eqn:E; [|done]. apply andb_true_iff in E as [H1%Z.ltb_lt H2%Z.ltb_lt]. intros [= <-].
    destruct (log_append_ok (log_state w) kind next Hlog) as [Hl Hlo]; [done|]. by apply inv_with_log.
  - intros [= <-]. destruct (flush_no_sync_ok (log_state w) ok Hlog). by apply inv_with_log.
  - destruct (0 <=? ns); [|done]. intros [= <-]. by destruct Hinv.
Qed.

Lemma run_inv c acts : ∀ w w', inv w → run_actions c w acts = Some w' → inv w'.
Proof.
  induction acts as [|a acts IH]; simpl; intros w w' Hinv Hrun; [by injection Hrun as <-|].
  apply bind_Some in Hrun as (w1 & Ha & Hrun). eapply IH; [|done]. by eapply act_inv.
Qed.

Lemma World_new_inv next : 0 < next < NULL_LSN → inv (World_new next).
Proof.
  intros Hn. split; simpl; [split; simpl; lia|lia| |].
  - intros g x Hx. apply list_lookup_singleton_Some in Hx as [_ <-]. split; [simpl; lia|done].
  - intros i cl Hi. by rewrite lookup_nil in Hi.
Qed.

(** C5. Group commit is durable.  In every interleaving of calls of
    [flush_sync_if_needed] and [flush_sync], appends, flushes without sync and
    ticks of the clock, with any number of leaders and any failures: the
    published watermark never exceeds what is on stable storage; a call that
    returns an error has invalidated the log; and as long as no write or sync
    has failed, a call that returns successfully has its LSN on stable storage,
    or everything that was appended before it if it asked for that. *)
Theorem group_commit_durable (c : FsyncManager) (next : Z) (acts : list Action) (w : World)
    (Hnext : 0 < next < NULL_LSN) (Hrun : run_actions c (World_new next) acts = Some w) :
  last_synced_lsn (log_state w) ≤ durable_lsn (log_state w) ∧
  durable_lsn (log_state w) ≤ cached_lsn (log_state w) ≤ next_lsn (log_state w) ∧
  ∀ i cl, calls w !! i = Some cl →
    match pc cl with
    | PReturned (inl _) => io_invalid (log_state w) = true
    | PReturned (inr v) =>
        v ≤ durable_lsn (log_state w) ∧
        (io_invalid (log_state w) = false →
         if (target cl =? 0) || (target cl =? NULL_LSN) then called cl ≤ durable_lsn (log_state w)
         else target cl < durable_lsn (log_state w))
    | _ => True
    end.
Proof.
  pose proof (run_inv c acts _ w (World_new_inv next Hnext) Hrun) as [[] _ _ Hcs].
  split; [done|]. split; [done|]. intros i cl Hi. destruct (Hcs i cl Hi) as [[Hcl Ht] Hpc]. unfold pc_ok in Hpc.
  destruct (pc cl); try done. destruct res as [m|v]; [done|]. destruct Hpc as [Hv Hs]. split; [done|]. intros Hi0.
  destruct Hs as [H|[H|(H1 & H2 & H3)]]; [congruence| |].
  - destruct (_ || _) eqn:E; [done|]. apply orb_false_iff in E as [_ E%Z.eqb_neq]. lia.
  - rewrite (proj2 (Z.eqb_neq _ _) H1), (proj2 (Z.eqb_neq _ _) H2). done.
Qed.

(** ** Leader slots *)

(** The call holds a leader slot. *)
Definition leads (p : Pc) : bool :=
  match p with
  | PGrpcWait _ | PDrain (Some _) | PAdvanceFlush (Some _) _ | PSyncBegin (Some _) _
  | PSyncEnd (Some _) _ _ | PAnnounce _ _ | PWakeup _ _ | PRelease _ => true
  | _ => false
  end.

Definition leader_count (cs : list Call) : Z := Z.of_nat (length (filter (λ cl, leads (pc cl)) cs)).

Lemma leader_count_move cs i cl p :
  cs !! i = Some cl →
  leader_count (<[i := at_pc cl p]> cs) = leader_count cs + Z.b2z (leads p) - Z.b2z (leads (pc cl)).
Proof.
  intros Hi. unfold leader_count. pose proof (lookup_lt_Some _ _ _ Hi) as Hlt.
  rewrite <-(take_drop_middle cs i cl Hi) at 2. rewrite insert_take_drop by done.
  rewrite !filter_app, !filter_cons, !length_app. cbn [at_pc pc].
  destruct (leads p), (leads (pc cl)); simpl; lia.
Qed.

Lemma exec_leaders c w i ok cl w' :
  calls w !! i = Some cl → exec c w i ok = Some w' →
  (w' = w ∨ ∃ p, calls w' = <[i := at_pc cl p]> (calls w) ∧
     leaders_in_flight (fs w') = leaders_in_flight (fs w) + Z.b2z (leads p) - Z.b2z (leads (pc cl)) ∧
     (leads p = true → leads (pc cl) = true ∨ leaders_in_flight (fs w) < effective_ceiling c (num_next_waiters (fs w)))).
Proof.
  intros Hi. unfold exec. rewrite Hi. cbn [mbind option_bind].
  unfold after_work, lead_or_wait, capture, after_wait, leader_drain, wait_precheck, wait_woken.
  destruct (pc cl) as [| | |mg|g|g|g start|g|g|g st|g| |g|lead|lead eol|lead eol|lead eol cd|g res|g res|res|res| |res] eqn:Epc;
    intros Hex; try (apply bind_Some in Hex as (x & Hx & Hex)); try done.
  all: repeat case_match; simplify_eq.
  all: try (right; eexists; (split; [reflexivity|]); simpl; split; [lia|]; solve [done | by left | right; by apply Z.leb_gt]).
  left. by eapply with_group_same.
Qed.

Definition slots_ok (c : FsyncManager) (w : World) : Prop :=
  leaders_in_flight (fs w) = leader_count (calls w) ∧
  leader_count (calls w) ≤ Z.max (max_leaders c) (adaptive_leaders c).

Lemma act_slots c w a w' : slots_ok c w → act c w a = Some w' → slots_ok c w'.
Proof.
  intros [H1 H2]. unfold slots_ok.
  assert (∀ lsn p, leads p = false → leader_count (calls (add_call w lsn p)) = leader_count (calls w)) as Hadd.
  { intros lsn p Hp. unfold leader_count. simpl. rewrite filter_app, filter_cons, length_app. simpl.
    rewrite Hp. simpl. lia. }
  destruct a as [lsn| |i ok|kind next|ok|ns]; simpl.
  - destruct (_ || _); [|done]. intros [= <-]. by rewrite Hadd.
  - intros [= <-]. by rewrite Hadd.
  - intros Hex. destruct (calls w !! i) as [cl|] eqn:Hi; [|unfold exec in Hex; by rewrite Hi in Hex].
    destruct (exec_leaders c w i ok cl w' Hi Hex) as [->|(p & -> & -> & Hp)]; [done|].
    rewrite (leader_count_move _ _ _ _ Hi). split; [lia|].
    destruct (leads p) eqn:Ep; [|destruct (leads (pc cl)); simpl; lia].
    destruct (Hp eq_refl) as [->|Hlt]; [simpl; lia|]. unfold effective_ceiling in Hlt.
    destruct (_ && _) in Hlt; destruct (leads (pc cl)); simpl; lia.
  - destruct (_ && _); [|done]. by intros [= <-].
  - by intros [= <-].
  - destruct (0 <=? ns); [|done]. by intros [= <-].
Qed.

(** The number of leaders in flight is the number of calls that hold a slot,
    and it stays below the ceiling: the release of a slot never underflows. *)
Lemma leader_slots_bounded c next acts w :
  0 ≤ max_leaders c → run_actions c (World_new next) acts = Some w →
  leaders_in_flight (fs w) = leader_count (calls w) ∧
  leader_count (calls w) ≤ Z.max (max_leaders c) (adaptive_leaders c).
Proof.
  intros Hc. assert (slots_ok c (World_new next)) as H by (split; [done|]; unfold leader_count; simpl; lia).
  revert H. generalize (World_new next). induction acts as [|a acts IH]; simpl; intros w0 H Hrun;
    [by injection Hrun as <-|].
  apply bind_Some in Hrun as (w1 & Ha & Hrun). apply (IH w1); [|done]. by eapply act_slots.
Qed.

(** ** Concrete runs *)

Fixpoint runs (n : nat) (i : nat) : list Action :=
  match n with O => [] | S n => ARun i true :: runs n i end.

(** Three committers: the first leads, the second waits for the first and the
    third, which leads next, serves both. *)
Definition group_commit_run : list Action :=
  [AAppend Buffered 110; AFlushSyncIfNeeded 100] ++ runs 4 0 ++
  [AAppend Buffered 120; AFlushSyncIfNeeded 110] ++ runs 3 1 ++ runs 8 0 ++
  [AAppend Buffered 130; AFlushSyncIfNeeded 120] ++ runs 12 2 ++ runs 5 1.

(** The same, but the sync of the third fails, and the second looks at its
    cohort between the two halves of [wakeup_all_with_error]. *)
Definition failed_commit_run : list Action :=
  [AAppend Buffered 110; AFlushSyncIfNeeded 100] ++ runs 4 0 ++
  [AAppend Buffered 120; AFlushSyncIfNeeded 110] ++ runs 3 1 ++ runs 8 0 ++
  [AAppend Buffered 130; AFlushSyncIfNeeded 120] ++ runs 5 2 ++ [ARun 2 true; ARun 2 false; ARun 2 true] ++ runs 5 1.

(** A waiter of a sync that failed may return successfully: the flag
    [work_done_atomic] is set before the error is recorded.  The second call
    returns without an error, and its LSN 110 is not on stable storage. *)
Lemma failed_sync_acknowledged :
  (λ w, (pc <$> calls w !! 1%nat, durable_lsn (log_state w), io_invalid (log_state w))) <$>
    run_actions (FsyncManager_new 0 0) (World_new 100) failed_commit_run =
  Some (Some (PReturned (inr 110)), 110, true).
Proof. by vm_compute. Qed.

Definition group_commit_world : World :=
  default (World_new 100) (run_actions (FsyncManager_new 0 0) (World_new 100) group_commit_run).

Lemma group_commit_durable_witness :
  run_actions (FsyncManager_new 0 0) (World_new 100) group_commit_run = Some group_commit_world ∧
  calls group_commit_world !! 1%nat =
    Some {| target := 110; called := 120; pc := PReturned (inr 130) |} ∧
  110 < durable_lsn (log_state group_commit_world).
Proof.
  assert (run_actions (FsyncManager_new 0 0) (World_new 100) group_commit_run = Some group_commit_world) as Hrun
    by by vm_compute.
  assert (calls group_commit_world !! 1%nat =
    Some {| target := 110; called := 120; pc := PReturned (inr 130) |}) as Hcl by by vm_compute.
  split; [exact Hrun|]. split; [exact Hcl|].
  destruct (group_commit_durable (FsyncManager_new 0 0) 100 group_commit_run group_commit_world) as (_ & _ & H).
  - split; by vm_compute.
  - exact Hrun.
  - destruct (H 1%nat _ Hcl) as [_ H']. apply H'. by vm_compute.
Defined.
