(* ===== verification/LogFile.v ===== *)
(** * Log files (noxu-log)

    The header of a log file ([file_header.rs]) and the part of the file manager
    ([file_manager.rs], [file_handle.rs]) through which the log manager writes
    and reads: positions, creation of files, positional reads and writes, the
    cache of handles, [fdatasync].  A directory is a map from file numbers to
    bytes, with the bytes that are on stable storage beside it; the system calls
    succeed.  [Platform] is what comes from outside: the checksum of
    [crc32fast], the clock, and what the cache of handles of the [lru] crate
    evicts. *)

From stdpp Require Import sorting.
From S2P Require Import Prelude Bytes Reader Lsn LogEntry.

Class Platform := {
  crc32 : list Z → Z;
  created_at : Z → Z;
  lru_evict : nat → list (Z * Z) → list (Z * Z);
  crc32_range : ∀ l, in_u 32 (crc32 l);
  created_at_range : ∀ f, in_u 64 (created_at f);
}.

(** ** Results *)

(** The errors that these operations return; for a message, the numbers it shows. *)
Inductive LogError :=
| Io (what : string)
| InvalidHeader (file_num : Z)
| VersionMismatch (expected found file_num : Z)
| HeaderChecksumMismatch (file_num expected found : Z)
| FileNotFound (file_num : Z)
| WriteFailed (what : string)
| Internal (what : string)
| UnexpectedEof (lsn : Z)
| InvalidEntrySize (lsn size : Z)
| InvalidEntryType (type_num lsn : Z)
| Checksum (lsn expected found : Z).

(** A computation on a state: [None] is a panic, an error keeps the state. *)
Definition M (S A : Type) : Type := S → option (S * result A LogError).

Definition ret {S A} (x : A) : M S A := λ s, Some (s, Ok x).
Definition throw {S A} (e : LogError) : M S A := λ s, Some (s, Err e).
Definition panic {S A} : M S A := λ _, None.
Definition bind {S A B} (m : M S A) (k : A → M S B) : M S B := λ s,
  match m s with
  | None => None
  | Some (s, Err e) => Some (s, Err e)
  | Some (s, Ok x) => k x s
  end.
Definition get {S} : M S S := λ s, Some (s, Ok s).
Definition modify {S} (f : S → S) : M S unit := λ s, Some (f s, Ok ()).
Definition unwrap {S A} (o : option A) : M S A :=
  match o with Some x => ret x | None => panic end.
Definition try_ {S A} (r : result A LogError) : M S A :=
  match r with Ok x => ret x | Err e => throw e end.

Notation "'let!' x := m 'in' k" := (bind m (λ x, k))
  (at level 10, x pattern, m at level 200, k at level 200).
Notation "m ';;!' k" := (bind m (λ _, k)) (at level 100, k at level 200, right associativity).

(** [?] on a result. *)
Definition res_bind {A B} (m : result A LogError) (k : A → result B LogError) : result B LogError :=
  match m with Ok x => k x | Err e => Err e end.
Notation "'let^' x := m 'in' k" := (res_bind m (λ x, k))
  (at level 10, x pattern, m at level 200, k at level 200).

(** [&l[a..b]]. *)
Definition slice (a b : nat) (l : list Z) : option (list Z) :=
  if ((a <=? b) && (b <=? length l))%nat then Some (take (b - a) (drop a l)) else None.

(** ** The file header *)

Module FileHeader.

Definition FILE_MAGIC : list Z := [0x4E; 0x4F; 0x58; 0x55; 0x44; 0x42; 0; 0].
Definition BYTE_ORDER_BIG_ENDIAN : Z := 0.
Definition LOG_VERSION : Z := 3.
Definition MIN_LOG_VERSION : Z := 2.
Definition FILE_HEADER_SIZE_V2 : nat := 8 + 4 + 1 + 3 + 8 + 4 + 4.
Definition FILE_HEADER_SIZE : nat := FILE_HEADER_SIZE_V2 + 4.

Definition on_disk_size (version : Z) : nat :=
  if version <? LOG_VERSION then FILE_HEADER_SIZE_V2 else FILE_HEADER_SIZE.

Record t := {
  timestamp : Z;
  file_number : Z;
  last_entry_in_prev_file : Z;
  log_version : Z;
}.

Section header.
Context `{Platform}.

Definition new (file_number last_entry_in_prev_file : Z) : t :=
  {| timestamp := created_at file_number; file_number := file_number;
     last_entry_in_prev_file := last_entry_in_prev_file; log_version := LOG_VERSION |}.

(** The 32 bytes that the checksum covers. *)
Definition covered (h : t) : list Z :=
  FILE_MAGIC ++ be_bytes 4 (log_version h) ++ [BYTE_ORDER_BIG_ENDIAN] ++ [0; 0; 0] ++
  be_bytes 8 (timestamp h) ++ be_bytes 4 (file_number h) ++ be_bytes 4 (last_entry_in_prev_file h).

Definition write_to (h : t) : list Z := covered h ++ be_bytes 4 (crc32 (covered h)).

(** [read_exact] and [read_u32] of a short cursor. *)
Definition read_bytes (n : nat) (r : list Z) : result (list Z * list Z) LogError :=
  match read_exact n r with Some x => Ok x | None => Err (Io "failed to fill whole buffer") end.

Definition read_from (reader : list Z) : result t LogError :=
  let^ (magic, r) := read_bytes 8 reader in
  if negb (bool_decide (magic = FILE_MAGIC)) then Err (InvalidHeader (2 ^ 32 - 1))
  else
    let^ (v, r) := read_bytes 4 r in
    let log_version := be_val v in
    if negb ((MIN_LOG_VERSION <=? log_version) && (log_version <=? LOG_VERSION))
    then Err (VersionMismatch LOG_VERSION log_version (2 ^ 32 - 1))
    else
      let^ (byte_order, r) := read_bytes 1 r in
      if negb (be_val byte_order =? BYTE_ORDER_BIG_ENDIAN) then Err (InvalidHeader (2 ^ 32 - 1))
      else
        let^ (_, r) := read_bytes 3 r in
        let^ (timestamp, r) := read_bytes 8 r in
        let^ (file_number, r) := read_bytes 4 r in
        let^ (last_entry, r) := read_bytes 4 r in
        let h := {| timestamp := be_val timestamp; file_number := be_val file_number;
                    last_entry_in_prev_file := be_val last_entry; log_version := log_version |} in
        if LOG_VERSION <=? log_version then
          let expected_crc := crc32 (covered h) in
          let^ (stored, _) := read_bytes 4 r in
          let stored_crc := be_val stored in
          if negb (stored_crc =? expected_crc)
          then Err (HeaderChecksumMismatch (be_val file_number) expected_crc stored_crc)
          else Ok h
        else Ok h.

Definition validate (h : t) (expected_file_num : Z) : result Z LogError :=
  if LOG_VERSION <? log_version h then Err (VersionMismatch LOG_VERSION (log_version h) (file_number h))
  else if negb (file_number h =? expected_file_num) then Err (InvalidHeader (file_number h))
  else Ok (log_version h).

End header.
End FileHeader.

Import FileHeader (FILE_HEADER_SIZE, LOG_VERSION).

(** ** The file manager *)

Definition first_log_entry_offset : Z := Z.of_nat FILE_HEADER_SIZE.

(** [files] is what reads see, [durable] what is on stable storage. *)
Record FileManager := {
  read_only : bool;
  max_file_size : Z;
  file_cache : list (Z * Z);
  cache_capacity : nat;
  current_file_num : Z;
  next_available_lsn : Z;
  last_used_lsn : Z;
  force_new_file : bool;
  closed : bool;
  per_file_last_lsn : gmap Z Z;
  files : gmap Z (list Z);
  durable : gmap Z (list Z);
}.

(** The manager of a directory before its files are checked. *)
Definition initial_manager (dir : gmap Z (list Z)) (read_only : bool) (max_file_size : Z)
    (cache_size : nat) : FileManager :=
  {| read_only := read_only; max_file_size := max_file_size; file_cache := [];
     cache_capacity := Nat.max cache_size 1; current_file_num := 0;
     next_available_lsn := Lsn_new 0 first_log_entry_offset; last_used_lsn := NULL_LSN;
     force_new_file := false; closed := false; per_file_last_lsn := ∅; files := dir; durable := dir |}.

Definition list_file_numbers (dir : gmap Z (list Z)) : list Z :=
  merge_sort Z.le (elements (dom dir)).

Definition set_cache (fm : FileManager) (c : list (Z * Z)) : FileManager :=
  {| read_only := read_only fm; max_file_size := max_file_size fm; file_cache := c;
     cache_capacity := cache_capacity fm; current_file_num := current_file_num fm;
     next_available_lsn := next_available_lsn fm; last_used_lsn := last_used_lsn fm;
     force_new_file := force_new_file fm; closed := closed fm;
     per_file_last_lsn := per_file_last_lsn fm; files := files fm; durable := durable fm |}.

Definition set_files (fm : FileManager) (m d : gmap Z (list Z)) : FileManager :=
  {| read_only := read_only fm; max_file_size := max_file_size fm; file_cache := file_cache fm;
     cache_capacity := cache_capacity fm; current_file_num := current_file_num fm;
     next_available_lsn := next_available_lsn fm; last_used_lsn := last_used_lsn fm;
     force_new_file := force_new_file fm; closed := closed fm;
     per_file_last_lsn := per_file_last_lsn fm; files := m; durable := d |}.

Definition set_force (fm : FileManager) (b : bool) : FileManager :=
  {| read_only := read_only fm; max_file_size := max_file_size fm; file_cache := file_cache fm;
     cache_capacity := cache_capacity fm; current_file_num := current_file_num fm;
     next_available_lsn := next_available_lsn fm; last_used_lsn := last_used_lsn fm;
     force_new_file := b; closed := closed fm;
     per_file_last_lsn := per_file_last_lsn fm; files := files fm; durable := durable fm |}.

Definition force_new_log_file (fm : FileManager) : FileManager := set_force fm true.

Definition take_force_new_file (fm : FileManager) : FileManager * bool :=
  (set_force fm false, force_new_file fm).

Definition set_last_position (fm : FileManager) (next last_used : Z) : FileManager :=
  {| read_only := read_only fm; max_file_size := max_file_size fm; file_cache := file_cache fm;
     cache_capacity := cache_capacity fm; current_file_num := file_number next;
     next_available_lsn := next; last_used_lsn := last_used;
     force_new_file := force_new_file fm; closed := closed fm;
     per_file_last_lsn := <[file_number last_used := last_used]> (per_file_last_lsn fm);
     files := files fm; durable := durable fm |}.

(** *** The cache of handles, least recently used last; a handle is its log version *)

Fixpoint cache_find (c : list (Z * Z)) (f : Z) : option Z :=
  match c with
  | [] => None
  | (g, v) :: c => if g =? f then Some v else cache_find c f
  end.
Definition cache_pop (c : list (Z * Z)) (f : Z) : list (Z * Z) :=
  List.filter (λ e, negb (e.1 =? f)) c.
Definition cache_touch (c : list (Z * Z)) (f v : Z) : list (Z * Z) := (f, v) :: cache_pop c f.

(** *** Positional input and output *)

(** [pread]: fewer bytes at the end of the file. *)
Definition pread (off len : nat) (d : list Z) : list Z := take len (drop off d).

(** [pwrite] of all bytes: a gap behind the end of the file is zeros. *)
Definition pwrite (off : nat) (bytes d : list Z) : list Z :=
  take off (d ++ replicate (off - length d) 0) ++ bytes ++ drop (off + length bytes) d.

Section files.
Context `{Platform}.

Definition cache_put (capacity : nat) (c : list (Z * Z)) (f v : Z) : list (Z * Z) :=
  lru_evict capacity (cache_touch c f v).

Definition read_and_validate_header (file : list Z) (file_num : Z) : result Z LogError :=
  let read_size := Nat.min FILE_HEADER_SIZE (length file) in
  let header_buf := pread 0 read_size file in
  let^ header := FileHeader.read_from header_buf in
  FileHeader.validate header file_num.

(** The handle is its log version. *)
Definition get_file_handle (file_num : Z) : M FileManager Z :=
  let! fm := get in
  if closed fm then throw (Internal "FileManager is closed")
  else
    match cache_find (file_cache fm) file_num with
    | Some v =>
        modify (λ fm, set_cache fm (cache_touch (file_cache fm) file_num v)) ;;!
        ret v
    | None =>
        match files fm !! file_num with
        | None => throw (FileNotFound file_num)
        | Some file =>
            let! log_version := try_ (read_and_validate_header file file_num) in
            modify (λ fm, set_cache fm
              (cache_put (cache_capacity fm) (file_cache fm) file_num log_version)) ;;!
            ret log_version
        end
    end.

(** A file without a byte has no header and is skipped. *)
Fixpoint check_headers (file_nums : list Z) : M FileManager unit :=
  match file_nums with
  | [] => ret ()
  | f :: rest =>
      let! fm := get in
      match files fm !! f with
      | None => throw (FileNotFound f)
      | Some [] => ret ()
      | Some _ => get_file_handle f ;;! ret ()
      end ;;!
      check_headers rest
  end.

Definition FileManager_new (dir : gmap Z (list Z)) (read_only : bool) (max_file_size : Z)
    (cache_size : nat) : option (FileManager * result unit LogError) :=
  check_headers (list_file_numbers dir) (initial_manager dir read_only max_file_size cache_size).

Definition file_header_size_for (file_num : Z) : M FileManager nat :=
  let! v := get_file_handle file_num in ret (FileHeader.on_disk_size v).

(** The header is synced, and the directory entry with it. *)
Definition create_file_internal (file_num : Z) : M FileManager Z :=
  let! fm := get in
  if read_only fm then throw (WriteFailed "Cannot create file in read-only mode")
  else if bool_decide (is_Some (files fm !! file_num)) then throw (Io "File exists")
  else
    let last_entry_offset :=
      if 0 <? file_num
      then match per_file_last_lsn fm !! (file_num - 1) with
           | Some lsn => file_offset lsn
           | None => 0
           end
      else 0 in
    let bytes := FileHeader.write_to (FileHeader.new file_num last_entry_offset) in
    modify (λ fm, set_files fm (<[file_num := bytes]> (files fm)) (<[file_num := bytes]> (durable fm))) ;;!
    modify (λ fm, set_cache fm
      (cache_put (cache_capacity fm) (file_cache fm) file_num LOG_VERSION)) ;;!
    ret LOG_VERSION.

Definition write_at_handle (file_num : Z) (off : nat) (bytes : list Z) : M FileManager unit :=
  modify (λ fm, set_files fm (alter (pwrite off bytes) file_num (files fm)) (durable fm)).

Definition write_buffer_to_file (file_num : Z) (bytes : list Z) (off : Z) : M FileManager unit :=
  let! fm := get in
  if read_only fm then throw (WriteFailed "Cannot write in read-only mode")
  else
    (if bool_decide (is_Some (files fm !! file_num)) then get_file_handle file_num
     else create_file_internal file_num) ;;!
    write_at_handle file_num (Z.to_nat off) bytes.

Definition read_from_file_random (file_num off : Z) (len : nat) : M FileManager (list Z) :=
  get_file_handle file_num ;;!
  let! fm := get in
  ret (pread (Z.to_nat off) len (default [] (files fm !! file_num))).

Definition sync_log_end : M FileManager unit :=
  let! fm := get in
  if read_only fm then ret ()
  else
    let file_num := current_file_num fm in
    match files fm !! file_num with
    | None => ret ()
    | Some file =>
        get_file_handle file_num ;;!
        modify (λ fm, set_files fm (files fm) (<[file_num := file]> (durable fm)))
    end.

Definition sync_log_end_and_finish_file : M FileManager unit :=
  sync_log_end ;;!
  modify (λ fm, set_cache fm (cache_pop (file_cache fm) (current_file_num fm))).

End files.

(** ** What is written is read back *)

Lemma bind_ok {S A B} (m : M S A) (k : A → M S B) s s' x :
  m s = Some (s', Ok x) → bind m k s = k x s'.
Proof. intros E. unfold bind. by rewrite E. Qed.

Lemma length_pwrite off bytes d :
  length (pwrite off bytes d) = Nat.max (length d) (off + length bytes).
Proof.
  unfold pwrite. rewrite !length_app, length_take, length_app, length_replicate, length_drop. lia.
Qed.

Lemma pwrite_new off bytes d i :
  (off ≤ i < off + length bytes)%nat → pwrite off bytes d !! i = bytes !! (i - off)%nat.
Proof.
  intros Hi. unfold pwrite.
  assert (length (take off (d ++ replicate (off - length d) 0)) = off) as Hl.
  { rewrite length_take, length_app, length_replicate. lia. }
  rewrite lookup_app_r, Hl by lia. by rewrite lookup_app_l by lia.
Qed.

Lemma pwrite_old off bytes d i x :
  ¬ (off ≤ i < off + length bytes)%nat → d !! i = Some x → pwrite off bytes d !! i = Some x.
Proof.
  intros Hi Hx. pose proof (lookup_lt_Some _ _ _ Hx) as Hlt. unfold pwrite.
  assert (length (take off (d ++ replicate (off - length d) 0)) = off) as Hl.
  { rewrite length_take, length_app, length_replicate. lia. }
  destruct (decide (i < off)%nat).
  - rewrite lookup_app_l by lia. rewrite lookup_take_lt by lia. by rewrite lookup_app_l by lia.
  - rewrite lookup_app_r, Hl by lia. rewrite lookup_app_r, lookup_drop by lia.
    rewrite <- Hx. f_equal. lia.
Qed.

Lemma pwrite_prefix n off bytes d :
  (n ≤ off)%nat → (n ≤ length d)%nat → take n (pwrite off bytes d) = take n d.
Proof.
  intros Ho Hd. apply list_eq. intros i. destruct (decide (i < n)%nat) as [Hi|Hi].
  - rewrite !lookup_take_lt by done. destruct (lookup_lt_is_Some_2 d i) as [x Hx]; [lia|].
    rewrite Hx. apply pwrite_old; [lia|done].
  - by rewrite !lookup_take_ge by lia.
Qed.

Section laws.
Context `{Platform}.

Lemma length_covered h : length (FileHeader.covered h) = FileHeader.FILE_HEADER_SIZE_V2.
Proof. unfold FileHeader.covered. rewrite !length_app, !length_be_bytes. reflexivity. Qed.

Lemma length_header h : length (FileHeader.write_to h) = FILE_HEADER_SIZE.
Proof.
  unfold FileHeader.write_to. rewrite length_app, length_covered, length_be_bytes. reflexivity.
Qed.

Lemma read_bytes_app l n r : length l = n → FileHeader.read_bytes n (l ++ r) = Ok (l, r).
Proof. intros E. unfold FileHeader.read_bytes. by rewrite read_exact_app'. Qed.

Definition header_range (h : FileHeader.t) : Prop :=
  in_u 64 (FileHeader.timestamp h) ∧ in_u 32 (FileHeader.file_number h) ∧
  in_u 32 (FileHeader.last_entry_in_prev_file h) ∧ FileHeader.log_version h = LOG_VERSION.

Lemma read_from_write_to h r :
  header_range h → FileHeader.read_from (FileHeader.write_to h ++ r) = Ok h.
Proof.
  unfold header_range. destruct h as [ts fn pv v].
  cbn [FileHeader.timestamp FileHeader.file_number FileHeader.last_entry_in_prev_file
       FileHeader.log_version]. intros (Ht & Hf & Hp & ->).
  unfold FileHeader.write_to. set (c := crc32 _).
  assert (in_u 32 c) as Hc by apply crc32_range.
  unfold FileHeader.covered. rewrite <- !app_assoc. unfold FileHeader.read_from.
  cbn [FileHeader.timestamp FileHeader.file_number FileHeader.last_entry_in_prev_file
       FileHeader.log_version].
  rewrite read_bytes_app by reflexivity. cbn [res_bind]. rewrite (bool_decide_true (_ = _)) by done. cbn [negb].
  rewrite read_bytes_app by apply length_be_bytes. cbn [res_bind].
  rewrite (be_val_u 32 4 LOG_VERSION) by done.
  change (negb ((FileHeader.MIN_LOG_VERSION <=? LOG_VERSION) && (LOG_VERSION <=? LOG_VERSION)))
    with false. cbn match.
  rewrite (read_bytes_app [_]) by reflexivity. cbn [res_bind].
  change (negb (be_val [_] =? _)) with false. cbn match.
  rewrite (read_bytes_app [_; _; _]) by reflexivity. cbn [res_bind].
  do 3 (rewrite read_bytes_app by apply length_be_bytes; cbn [res_bind]).
  change (LOG_VERSION <=? LOG_VERSION) with true. cbn match.
  rewrite !(be_val_u 32 4), (be_val_u 64 8) by done. fold c.
  rewrite <- (app_nil_r (be_bytes 4 c)), <- app_assoc, read_bytes_app by apply length_be_bytes.
  cbn [res_bind]. rewrite (be_val_u 32) by done. by rewrite Z.eqb_refl.
Qed.

(** The first bytes of a file are a header for its number. *)
Definition header_ok (f : Z) (d : list Z) : Prop :=
  ∃ prev, in_u 32 prev ∧ take FILE_HEADER_SIZE d = FileHeader.write_to (FileHeader.new f prev).

Lemma header_ok_length f d : header_ok f d → (FILE_HEADER_SIZE ≤ length d)%nat.
Proof.
  intros (prev & _ & E). apply (f_equal length) in E. rewrite length_take, length_header in E. lia.
Qed.

Lemma validate_header f d :
  in_u 32 f → header_ok f d → read_and_validate_header d f = Ok LOG_VERSION.
Proof.
  intros Hf Hok. pose proof (header_ok_length _ _ Hok) as Hl. destruct Hok as (prev & Hp & E).
  unfold read_and_validate_header, pread. rewrite drop_0, Nat.min_l by done. rewrite E.
  rewrite <- (app_nil_r (FileHeader.write_to _)), read_from_write_to.
  - simpl. unfold FileHeader.validate. simpl. by rewrite Z.eqb_refl.
  - unfold header_range. simpl. auto using created_at_range.
Qed.

(** A file manager that is open for writing, and whose files have headers. *)
Record fm_open (fm : FileManager) : Prop := {
  fm_not_closed : closed fm = false;
  fm_writable : read_only fm = false;
  fm_headers : ∀ f d, files fm !! f = Some d → in_u 32 f ∧ header_ok f d;
}.

Lemma get_file_handle_ok fm f d :
  fm_open fm → files fm !! f = Some d →
  ∃ c v, get_file_handle f fm = Some (set_cache fm c, Ok v).
Proof.
  intros Hfm Hd. destruct (fm_headers fm Hfm f d Hd) as [Hf Hok].
  unfold get_file_handle, bind, get. rewrite (fm_not_closed fm Hfm).
  destruct (cache_find (file_cache fm) f) as [v|]; [by eexists _, v|].
  rewrite Hd, validate_header by done. by eexists _, _.
Qed.

Lemma check_headers_ok nums : ∀ fm,
  fm_open fm → (∀ f, f ∈ nums → is_Some (files fm !! f)) →
  ∃ c, check_headers nums fm = Some (set_cache fm c, Ok ()).
Proof.
  induction nums as [|f nums IH]; intros fm Hfm Hin; [exists (file_cache fm); by destruct fm|].
  destruct (Hin f) as [d Hd]; [by left|]. cbn [check_headers]. unfold bind at 1, get. rewrite Hd.
  assert (∃ c, (match d with [] => ret () | _ => get_file_handle f ;;! ret () end : M FileManager unit) fm =
    Some (set_cache fm c, Ok ())) as (c & E).
  { destruct d; [exists (file_cache fm); by destruct fm|].
    destruct (get_file_handle_ok fm f _ Hfm Hd) as (c & v & E). exists c. by rewrite (bind_ok _ _ _ _ _ E). }
  rewrite (bind_ok _ _ _ _ _ E). destruct (IH (set_cache fm c)) as (c' & E').
  - by destruct Hfm.
  - intros g Hg. apply Hin. by right.
  - exists c'. by rewrite E'.
Qed.

Lemma FileManager_new_ok dir max cache :
  (∀ f d, dir !! f = Some d → in_u 32 f ∧ header_ok f d) →
  ∃ c, FileManager_new dir false max cache = Some (set_cache (initial_manager dir false max cache) c, Ok ()).
Proof.
  intros Hdir. apply check_headers_ok; [by split|]. intros f Hf. unfold list_file_numbers in Hf.
  rewrite merge_sort_Permutation, elem_of_elements, elem_of_dom in Hf. done.
Qed.

(** The offset of the last entry of the file before [f], as far as it is known. *)
Definition prev_link (fm : FileManager) (f : Z) : Z :=
  if 0 <? f
  then match per_file_last_lsn fm !! (f - 1) with Some lsn => file_offset lsn | None => 0 end
  else 0.

Definition new_file (fm : FileManager) (f : Z) : list Z :=
  FileHeader.write_to (FileHeader.new f (prev_link fm f)).

Definition file_or_new (fm : FileManager) (f : Z) : list Z := default (new_file fm f) (files fm !! f).

Definition written_file (fm : FileManager) (f : Z) (off : nat) (bytes : list Z) : FileManager :=
  set_files fm (<[f := pwrite off bytes (file_or_new fm f)]> (files fm))
    (match files fm !! f with Some _ => durable fm | None => <[f := new_file fm f]> (durable fm) end).

Lemma write_buffer_to_file_ok fm f bytes off :
  fm_open fm →
  ∃ c, write_buffer_to_file f bytes off fm =
       Some (set_cache (written_file fm f (Z.to_nat off) bytes) c, Ok ()).
Proof.
  intros Hfm. unfold write_buffer_to_file, written_file, file_or_new.
  unfold bind at 1, get at 1. rewrite (fm_writable fm Hfm).
  destruct (files fm !! f) as [d|] eqn:Hd.
  - rewrite bool_decide_true by done.
    destruct (get_file_handle_ok fm f d Hfm Hd) as (c & v & E). rewrite (bind_ok _ _ _ _ _ E).
    exists c. unfold write_at_handle, modify. simpl.
    by rewrite (alter_alt_Some _ _ _ _ Hd).
  - change (bool_decide (is_Some None)) with false. unfold create_file_internal, bind, get. cbn match.
    assert (bool_decide (is_Some (files fm !! f)) = false) as ->.
    { apply bool_decide_eq_false_2. rewrite Hd. by intros [? ?]. }
    rewrite (fm_writable fm Hfm). eexists. unfold write_at_handle, modify, ret. simpl.
    by rewrite alter_insert_eq.
Qed.

End laws.
