(* ===== verification/LogBuffer.v ===== *)
(** * Write buffers of the log (noxu-log)

    A buffer of appended entries ([log_buffer.rs]) and the ring of buffers
    ([log_buffer_pool.rs]).  Appends and drains hold the log write latch and
    reads the latch of the buffer, with no reservation outstanding, so each
    operation is atomic and the pin counts are not part of the state. *)

From S2P Require Import Prelude Bytes Lsn LogEntry LogFile.

(** ** A buffer *)

(** [lb_data] has the length [capacity]; what was appended is the part before
    [write_position]. *)
Record LogBuffer := {
  lb_data : list Z;
  first_lsn : Z;
  last_lsn : Z;
  capacity : nat;
  write_position : nat;
  rewrite_allowed : bool;
  flushed_len : nat;
}.

Definition LogBuffer_new (cap : nat) : LogBuffer :=
  {| lb_data := replicate cap 0; first_lsn := NULL_LSN; last_lsn := NULL_LSN; capacity := cap;
     write_position := 0; rewrite_allowed := false; flushed_len := 0 |}.

Definition reinit (b : LogBuffer) : LogBuffer :=
  {| lb_data := lb_data b; first_lsn := NULL_LSN; last_lsn := NULL_LSN; capacity := capacity b;
     write_position := 0; rewrite_allowed := false; flushed_len := 0 |}.

Definition content_len (b : LogBuffer) : nat := write_position b.

Definition get_unflushed_data (b : LogBuffer) : option (list Z) :=
  slice (flushed_len b) (content_len b) (lb_data b).

Definition flushed_file_offset (b : LogBuffer) : Z :=
  file_offset (first_lsn b) + Z.of_nat (flushed_len b).

Definition mark_flushed (b : LogBuffer) : LogBuffer :=
  {| lb_data := lb_data b; first_lsn := first_lsn b; last_lsn := last_lsn b; capacity := capacity b;
     write_position := write_position b; rewrite_allowed := rewrite_allowed b;
     flushed_len := content_len b |}.

Definition with_lsns (b : LogBuffer) (first last : Z) : LogBuffer :=
  {| lb_data := lb_data b; first_lsn := first; last_lsn := last; capacity := capacity b;
     write_position := write_position b; rewrite_allowed := rewrite_allowed b;
     flushed_len := flushed_len b |}.

(** [None]: the assertion that LSNs ascend fails. *)
Definition register_lsn (b : LogBuffer) (lsn : Z) : option LogBuffer :=
  let ascends := if is_null (last_lsn b) then Some true else lsn_gt lsn (last_lsn b) in
  match ascends with
  | Some true =>
      let first := if is_null (first_lsn b) then lsn else first_lsn b in
      Some (with_lsns b first lsn)
  | _ => None
  end.

Definition has_room (b : LogBuffer) (num_bytes : nat) : bool :=
  (num_bytes <=? capacity b - content_len b)%nat.

Definition contains_lsn (b : LogBuffer) (lsn : Z) : option bool :=
  if is_null lsn then None
  else
    let first := first_lsn b in
    Some (if negb (is_null first) && (file_number first =? file_number lsn)
          then let last_content_offset :=
                 as_u 32 (file_offset first + as_u 32 (Z.of_nat (content_len b))) in
               (file_offset first <=? file_offset lsn) && (file_offset lsn <? last_content_offset)
          else false).

Definition with_position (b : LogBuffer) (data : list Z) (pos : nat) : LogBuffer :=
  {| lb_data := data; first_lsn := first_lsn b; last_lsn := last_lsn b; capacity := capacity b;
     write_position := pos; rewrite_allowed := rewrite_allowed b; flushed_len := flushed_len b |}.

(** The segment is its offset in the buffer. *)
Definition allocate (b : LogBuffer) (size : nat) : option (LogBuffer * nat) :=
  let off := write_position b in
  if (capacity b <? off + size)%nat then None
  else Some (with_position b (lb_data b) (off + size), off).

(** [put] on the segment of [size] bytes at [off]. *)
Definition put (b : LogBuffer) (off size : nat) (bytes : list Z) : option LogBuffer :=
  if (length bytes =? size)%nat
  then Some (with_position b (LogEntry.write_at off bytes (lb_data b)) (write_position b))
  else None.

Definition get_bytes (b : LogBuffer) (offset : Z) : option (list Z) :=
  slice (Z.to_nat (offset - file_offset (first_lsn b))) (content_len b) (lb_data b).

(** ** The ring of buffers *)

Record LogBufferPool := {
  buffers : list LogBuffer;
  dirty_start : Z;
  dirty_end : Z;
  current_write_buffer_index : nat;
  min_buffer_lsn : Z;
}.

Definition LogBufferPool_new (num_buffers buffer_size : nat) : LogBufferPool :=
  {| buffers := replicate num_buffers (LogBuffer_new buffer_size); dirty_start := -1;
     dirty_end := -1; current_write_buffer_index := 0; min_buffer_lsn := 0 |}.

Definition set_buffers (p : LogBufferPool) (bs : list LogBuffer) : LogBufferPool :=
  {| buffers := bs; dirty_start := dirty_start p; dirty_end := dirty_end p;
     current_write_buffer_index := current_write_buffer_index p;
     min_buffer_lsn := min_buffer_lsn p |}.

Definition clear_dirty (p : LogBufferPool) : LogBufferPool :=
  {| buffers := buffers p; dirty_start := -1; dirty_end := -1;
     current_write_buffer_index := current_write_buffer_index p;
     min_buffer_lsn := min_buffer_lsn p |}.

Definition get_next_slot (p : LogBufferPool) (slot : nat) : nat :=
  if (slot <? length (buffers p) - 1)%nat then S slot else 0.

(** The outer [None] is a panic; [false]: there is no free buffer. *)
Definition bump_current (p : LogBufferPool) : option (LogBufferPool * bool) :=
  let cur := current_write_buffer_index p in
  current ← buffers p !! cur;
  if is_null (first_lsn current) then Some (p, true)
  else
    let next := get_next_slot p cur in
    if (0 <=? dirty_start p) && (Z.of_nat next =? dirty_start p) then Some (p, false)
    else
      let start := if 0 <=? dirty_start p then dirty_start p else Z.of_nat cur in
      let initial := get_next_slot p next in
      b ← buffers p !! next;
      let bs := <[next := reinit b]> (buffers p) in
      i ← bs !! initial;
      let new_min_lsn := first_lsn i in
      Some ({| buffers := bs; dirty_start := start; dirty_end := Z.of_nat cur;
               current_write_buffer_index := next;
               min_buffer_lsn :=
                 if is_null new_min_lsn then min_buffer_lsn p else new_min_lsn |}, true).

(** The bytes of a buffer that are not written yet, with their file and offset;
    the buffer counts them as flushed. *)
Definition take_unflushed (b : LogBuffer) : option (LogBuffer * option (Z * list Z * Z)) :=
  if is_null (first_lsn b) then Some (b, None)
  else
    unflushed ← get_unflushed_data b;
    match unflushed with
    | [] => Some (b, None)
    | _ => Some (mark_flushed b,
                 Some (file_number (first_lsn b), unflushed, flushed_file_offset b))
    end.

Section pool.
Context `{Platform}.

(** The pool holds a reference to the file manager. *)
Abbreviation PoolM := (M (LogBufferPool * FileManager)).

Definition on_pool (f : LogBufferPool → LogBufferPool) : PoolM unit := modify (λ s, (f s.1, s.2)).

Definition on_files {A} (m : M FileManager A) : PoolM A := λ s,
  match m s.2 with None => None | Some (fm, r) => Some ((s.1, fm), r) end.

Definition write_one (slot : nat) : PoolM unit :=
  let! s := get in
  let! b := unwrap (buffers s.1 !! slot) in
  let! (b, pending) := unwrap (take_unflushed b) in
  on_pool (λ p, set_buffers p (<[slot := b]> (buffers p))) ;;!
  match pending with
  | None => ret ()
  | Some (file_num, bytes, off) => on_files (write_buffer_to_file file_num bytes off)
  end.

(** The loop of [write_dirty]; it visits each slot at most once. *)
Fixpoint write_dirty_loop (fuel : nat) (slot : nat) : PoolM unit :=
  match fuel with
  | O => panic
  | S fuel =>
      let! s := get in
      write_one slot ;;!
      if Z.of_nat slot =? dirty_end s.1 then ret ()
      else write_dirty_loop fuel (get_next_slot s.1 slot)
  end.

Definition write_dirty : PoolM unit :=
  let! s := get in
  if dirty_start s.1 <? 0 then ret ()
  else
    write_dirty_loop (length (buffers s.1)) (Z.to_nat (dirty_start s.1)) ;;!
    on_pool clear_dirty.

Definition bump : PoolM bool := λ s,
  match bump_current s.1 with None => None | Some (p, b) => Some ((p, s.2), Ok b) end.

Definition bump_and_write_dirty : PoolM unit :=
  let! bumped := bump in
  (if bumped then ret ()
   else
     write_dirty ;;!
     let! bumped := bump in
     if bumped then ret ()
     else throw (Internal "No free log buffers after flushing dirty buffers")) ;;!
  write_dirty.

Definition current_has_room (size_needed : nat) : PoolM bool :=
  let! s := get in
  let! b := unwrap (buffers s.1 !! current_write_buffer_index s.1) in
  ret (has_room b size_needed).

(** The buffer is the slot of the ring. *)
Definition get_write_buffer (size_needed : nat) (flipped_file : bool) : PoolM nat :=
  (if flipped_file then
     bump_and_write_dirty ;;!
     on_files sync_log_end_and_finish_file
   else
     let! room := current_has_room size_needed in
     if room then ret ()
     else
       let! bumped := bump in
       if bumped then
         let! room := current_has_room size_needed in
         if room then ret () else bump_and_write_dirty
       else bump_and_write_dirty) ;;!
  let! s := get in
  ret (current_write_buffer_index s.1).

End pool.

(** The size of the entry whose first bytes are [buf]: header and payload. *)
Definition peek_header_size (buf : list Z) : nat :=
  let flags := nth 5 buf 0 in
  if flag_set flags VLSN_PRESENT_MASK || flag_set flags REPLICATED_MASK then 22 else 14.
Definition peek_item_size (buf : list Z) : Z := le_val (take 4 (drop 10 buf)).
Definition peek_entry_size (buf : list Z) : nat :=
  peek_header_size buf + Z.to_nat (peek_item_size buf).

(** The copy of an entry out of a buffer that contains its LSN. *)
Definition copy_entry (b : LogBuffer) (lsn : Z) : option (list Z) :=
  sl ← get_bytes b (file_offset lsn);
  Some (if (14 <=? length sl)%nat then take (Nat.min (peek_entry_size sl) (length sl)) sl else sl).

(** The outer [None] is a panic. *)
Fixpoint search_buffers (bs : list LogBuffer) (lsn : Z) (order : list nat) : option (option (list Z)) :=
  match order with
  | [] => Some None
  | i :: order =>
      b ← bs !! i;
      found ← contains_lsn b lsn;
      if found : bool then bytes ← copy_entry b lsn; Some (Some bytes)
      else search_buffers bs lsn order
  end.

Definition get_read_buffer_bytes_by_lsn (p : LogBufferPool) (lsn : Z) : option (option (list Z)) :=
  if lsn <? min_buffer_lsn p then Some None
  else
    let active := current_write_buffer_index p in
    let order := List.filter (λ i, negb (i =? active)%nat) (seq 0 (length (buffers p))) ++ [active] in
    search_buffers (buffers p) lsn order.
