(* ===== verification/WriteLog.v ===== *)
(** * The write-ahead log (noxu-log, log_manager.rs)

    Appends and flushes hold the log write latch for their whole length, so a
    run of the log manager is a sequence of them; the concurrency of callers
    that wait for a sync is [Fsync].  The observer of the cleaner is not
    modelled. *)

From S2P Require Import Prelude Bytes Lsn LogEntry LogFile LogBuffer.
Import LogFile.FileHeader (FILE_HEADER_SIZE).

(** ** The code *)

Record LogManager := {
  buffer_pool : LogBufferPool;
  file_manager : FileManager;
  last_flush_lsn : Z;
  last_synced_lsn : Z;
  io_invalid : bool;
  checksum_on_read : bool;
}.

Definition LogManager_new (fm : FileManager) (num_buffers buffer_size : nat) : LogManager :=
  {| buffer_pool := LogBufferPool_new num_buffers buffer_size; file_manager := fm;
     last_flush_lsn := 0; last_synced_lsn := 0; io_invalid := false; checksum_on_read := true |}.

Definition with_pool (l : LogManager) (s : LogBufferPool * FileManager) : LogManager :=
  {| buffer_pool := s.1; file_manager := s.2; last_flush_lsn := last_flush_lsn l;
     last_synced_lsn := last_synced_lsn l; io_invalid := io_invalid l;
     checksum_on_read := checksum_on_read l |}.

Definition with_watermarks (l : LogManager) (flush synced : Z) : LogManager :=
  {| buffer_pool := buffer_pool l; file_manager := file_manager l; last_flush_lsn := flush;
     last_synced_lsn := synced; io_invalid := io_invalid l;
     checksum_on_read := checksum_on_read l |}.

Definition invalidate_log (l : LogManager) : LogManager :=
  {| buffer_pool := buffer_pool l; file_manager := file_manager l;
     last_flush_lsn := last_flush_lsn l; last_synced_lsn := last_synced_lsn l; io_invalid := true;
     checksum_on_read := checksum_on_read l |}.

(** [advance_watermark_max]: the loop of compare-and-swaps ends with the maximum. *)
Definition advance_watermark_max (cell value : Z) : Z := if cell <? value then value else cell.

Section log.
Context `{Platform}.

Abbreviation LogM := (M LogManager).

Definition on_pool_files {A} (m : M (LogBufferPool * FileManager) A) : LogM A := λ l,
  match m (buffer_pool l, file_manager l) with
  | None => None
  | Some (s, r) => Some (with_pool l s, r)
  end.
Definition on_fm {A} (m : M FileManager A) : LogM A := on_pool_files (on_files m).

(** [self.invalidate_log()] and the error, if there is one. *)
Definition or_invalidate {A} (m : LogM A) : LogM A := λ l,
  match m l with
  | Some (l, Err e) => Some (invalidate_log l, Err e)
  | r => r
  end.

Definition check_valid : LogM unit :=
  let! l := get in
  if io_invalid l
  then throw (WriteFailed "environment permanently invalidated by prior I/O error")
  else ret ().

Inductive SlotPlacement := Buffered (slot off : nat) | Oversized (file_num file_offset : Z).
Record SlotResult := { sr_lsn : Z; sr_prev_offset : Z; sr_placement : SlotPlacement }.

Definition assign_slot (entry_size : nat) : LogM SlotResult :=
  let! l := get in
  let next_lsn := next_available_lsn (file_manager l) in
  let current_file := file_number next_lsn in
  let '(fm, forced) := take_force_new_file (file_manager l) in
  modify (λ l, with_pool l (buffer_pool l, fm)) ;;!
  let flipped := forced || (max_file_size fm <? file_offset next_lsn + Z.of_nat entry_size) in
  let file_num := if flipped then as_u 32 (current_file + 1) else current_file in
  let current_lsn := if flipped then Lsn_new file_num first_log_entry_offset else next_lsn in
  let last_used := last_used_lsn fm in
  let prev_offset :=
    if is_null last_used || negb (file_number last_used =? file_num) then 0
    else file_offset last_used in
  let! slot := on_pool_files (get_write_buffer entry_size flipped) in
  let new_next :=
    Lsn_new file_num (as_u 32 (file_offset current_lsn + as_u 32 (Z.of_nat entry_size))) in
  modify (λ l, with_pool l (buffer_pool l, set_last_position (file_manager l) new_next current_lsn)) ;;!
  let! l := get in
  let! b := unwrap (buffers (buffer_pool l) !! slot) in
  let! placement :=
    match allocate b entry_size with
    | Some (b, off) =>
        let! b := unwrap (register_lsn b current_lsn) in
        modify (λ l, with_pool l
          (set_buffers (buffer_pool l) (<[slot := b]> (buffers (buffer_pool l))), file_manager l)) ;;!
        ret (Buffered slot off)
    | None => ret (Oversized file_num (file_offset current_lsn))
    end in
  ret {| sr_lsn := current_lsn; sr_prev_offset := prev_offset; sr_placement := placement |}.

(** The entry before its place is known: the checksum and the offset of the
    previous entry are zero.  [None]: the payload does not fit the length field
    and the copy panics. *)
Definition marshal (t : LogEntryType) (payload : list Z) (prov : Provisional) (opt_vlsn : option Z)
    : option (list Z) :=
  let item_size := as_u 32 (Z.of_nat (length payload)) in
  let flags := match prov with PYes => 0x80 | PBeforeCkptEnd => 0x40 | PNo => 0x00 end in
  let flags := match opt_vlsn with Some _ => Z.lor (Z.lor flags 0x20) 0x08 | None => flags end in
  let vlsn_bytes := match opt_vlsn with Some v => le_bytes 8 (as_u 64 v) | None => [] end in
  if Z.of_nat (length payload) =? item_size
  then Some (le_bytes 4 0 ++ [type_num t] ++ [flags] ++ le_bytes 4 0 ++ le_bytes 4 item_size ++
             vlsn_bytes ++ payload)
  else None.

(** The offset of the previous entry and the checksum. *)
Definition finish (entry_buf : list Z) (prev_offset : Z) : list Z :=
  let entry_buf := LogEntry.write_at 6 (le_bytes 4 prev_offset) entry_buf in
  LogEntry.write_at 0 (le_bytes 4 (crc32 (drop 4 entry_buf))) entry_buf.

Definition place (p : SlotPlacement) (entry_buf : list Z) : LogM unit :=
  match p with
  | Oversized file_num off => or_invalidate (on_fm (write_buffer_to_file file_num entry_buf off))
  | Buffered slot off =>
      let! l := get in
      let! b := unwrap (buffers (buffer_pool l) !! slot) in
      let! b := unwrap (put b off (length entry_buf) entry_buf) in
      modify (λ l, with_pool l
        (set_buffers (buffer_pool l) (<[slot := b]> (buffers (buffer_pool l))), file_manager l))
  end.

(** [fill_flush_pending] over the slots of the ring. *)
Fixpoint fill_flush_pending (bs : list LogBuffer)
    : option (list LogBuffer * list (Z * list Z * Z)) :=
  match bs with
  | [] => Some ([], [])
  | b :: bs =>
      '(b, pending) ← take_unflushed b;
      '(bs, rest) ← fill_flush_pending bs;
      Some (b :: bs, opt_list pending ++ rest)
  end.

Fixpoint write_all (pending : list (Z * list Z * Z)) : M FileManager unit :=
  match pending with
  | [] => ret ()
  | (file_num, bytes, off) :: rest => write_buffer_to_file file_num bytes off ;;! write_all rest
  end.

(** The part of a flush under the latch. *)
Definition drain : LogM unit :=
  check_valid ;;!
  let! l := get in
  let! (bs, pending) := unwrap (fill_flush_pending (buffers (buffer_pool l))) in
  modify (λ l, with_pool l (set_buffers (buffer_pool l) bs, file_manager l)) ;;!
  or_invalidate (on_fm (write_all pending)).

Definition flush_no_sync : LogM Z :=
  drain ;;!
  let! l := get in
  let eol := next_available_lsn (file_manager l) in
  modify (λ l, with_watermarks l (advance_watermark_max (last_flush_lsn l) eol) (last_synced_lsn l)) ;;!
  ret eol.

(** [flush_sync_to] of a caller that finds no other one: it leads and waits for
    nobody. *)
Definition flush_sync : LogM Z :=
  let! eol := flush_no_sync in
  or_invalidate (on_fm sync_log_end) ;;!
  modify (λ l, with_watermarks l (last_flush_lsn l) (advance_watermark_max (last_synced_lsn l) eol)) ;;!
  let! l := get in
  ret (last_synced_lsn l).

Definition flush_sync_if_needed (lsn : Z) : LogM Z :=
  check_valid ;;!
  let! l := get in
  if negb (is_null lsn) && (lsn <? last_synced_lsn l) then ret (last_synced_lsn l)
  else flush_sync.

Definition log_internal (t : LogEntryType) (payload : list Z) (prov : Provisional)
    (flush_required fsync_required : bool) (opt_vlsn : option Z) : LogM Z :=
  check_valid ;;!
  let! entry_buf := unwrap (marshal t payload prov opt_vlsn) in
  let! slot := or_invalidate (assign_slot (length entry_buf)) in
  place (sr_placement slot) (finish entry_buf (sr_prev_offset slot)) ;;!
  (if fsync_required then flush_sync_if_needed (sr_lsn slot) ;;! ret ()
   else if flush_required then flush_no_sync ;;! ret ()
   else ret ()) ;;!
  ret (sr_lsn slot).

Definition log (t : LogEntryType) (payload : list Z) (prov : Provisional)
    (flush_required fsync_required : bool) : LogM Z :=
  log_internal t payload prov flush_required fsync_required None.

Definition log_with_vlsn (t : LogEntryType) (payload : list Z) (vlsn : Z)
    (flush_required fsync_required : bool) : LogM Z :=
  log_internal t payload PNo flush_required fsync_required (Some vlsn).

(** ** Reading *)

Definition LOG_FAULT_READ_SIZE : nat := 2048.

Definition read_entry_from_disk (lsn : Z) : LogM (LogEntryType * list Z) :=
  let! l := get in
  let off := file_offset lsn in
  let! buf := on_fm (read_from_file_random (file_number lsn) off LOG_FAULT_READ_SIZE) in
  if (length buf <? 14)%nat then throw (UnexpectedEof lsn)
  else
    let stored_checksum := le_val (take 4 buf) in
    let entry_type_num := nth 4 buf 0 in
    let item_size := peek_item_size buf in
    if 100000000 <? item_size then throw (InvalidEntrySize lsn (as_i 32 item_size))
    else
      let header_size := peek_header_size buf in
      let entry_size := peek_entry_size buf in
      let! full_buf :=
        (if (entry_size <=? length buf)%nat then ret (take entry_size buf)
         else
           let! full_buf := on_fm (read_from_file_random (file_number lsn) off entry_size) in
           if (length full_buf <? entry_size)%nat then throw (UnexpectedEof lsn) else ret full_buf) in
      let full_buf := LogEntry.write_at 5 [Z.ldiff (nth 5 full_buf 0) 0x10] full_buf in
      let computed_crc := crc32 (drop 4 full_buf) in
      if checksum_on_read l && negb (computed_crc =? stored_checksum)
      then throw (Checksum lsn stored_checksum computed_crc)
      else
        match from_type_num entry_type_num with
        | None => throw (InvalidEntryType entry_type_num lsn)
        | Some t => ret (t, drop header_size full_buf)
        end.

Definition read_entry (lsn : Z) : LogM (LogEntryType * list Z) :=
  let! l := get in
  let! copied :=
    (if min_buffer_lsn (buffer_pool l) <=? lsn
     then unwrap (get_read_buffer_bytes_by_lsn (buffer_pool l) lsn)
     else ret None) in
  match copied with
  | Some sl =>
      if ((14 <=? length sl) && (peek_entry_size sl <=? length sl))%nat
      then
        match from_type_num (nth 4 sl 0) with
        | None => throw (InvalidEntryType (nth 4 sl 0) lsn)
        | Some t => ret (t, take (Z.to_nat (peek_item_size sl)) (drop (peek_header_size sl) sl))
        end
      else read_entry_from_disk lsn
  | None => read_entry_from_disk lsn
  end.

End log.
