(* ===== verification/LogSpec.v ===== *)
(** * The log as a list of entries

    The abstract log is the list of entries in the order of their appends, each
    with its LSN and the offset of the entry before it in its file.  [body] is
    the contents of a file behind its header, [cell] one byte of it.  [log_wf]
    says where entries lie; what follows from it is what the write path
    ([LogInv]) maintains against buffers and files. *)

From stdpp Require Import sorting.
From S2P Require Import Prelude Bytes Lsn LogEntry LogFile LogBuffer WriteLog.
Import LogFile.FileHeader (FILE_HEADER_SIZE).

Record Rec := {
  r_lsn : Z;
  r_type : LogEntryType;
  r_payload : list Z;
  r_prov : Provisional;
  r_vlsn : option Z;
  r_prev : Z;
}.

Definition r_file (r : Rec) : Z := file_number (r_lsn r).
Definition r_off (r : Rec) : nat := Z.to_nat (file_offset (r_lsn r)).

(** The largest payload that a read from disk accepts, and a bound on the ones
    that an append can place in a file with 32-bit offsets. *)
Definition MAX_READ_SIZE : Z := 100000000.
Definition MAX_PAYLOAD : Z := 2 ^ 32 - 64.

Section spec.
Context `{Platform}.

Definition r_bytes (r : Rec) : list Z :=
  finish (default [] (marshal (r_type r) (r_payload r) (r_prov r) (r_vlsn r))) (r_prev r).

Definition in_file (f : Z) (L : list Rec) : list Rec := filter (λ r, r_file r = f) L.

Definition body (L : list Rec) (f : Z) : list Z := concat (r_bytes <$> in_file f L).

Definition end_off (L : list Rec) (f : Z) : nat := FILE_HEADER_SIZE + length (body L f).

Definition cell (L : list Rec) (f : Z) (i : nat) : option Z :=
  if (i <? FILE_HEADER_SIZE)%nat then None else body L f !! (i - FILE_HEADER_SIZE)%nat.

(** The offset of the last entry of a file, 0 if there is none. *)
Definition last_off (L : list Rec) (f : Z) : Z :=
  match last (in_file f L) with Some r => file_offset (r_lsn r) | None => 0 end.

Definition payload_ok (r : Rec) : Prop := Z.of_nat (length (r_payload r)) ≤ MAX_PAYLOAD.
Definition readable (r : Rec) : Prop := Z.of_nat (length (r_payload r)) ≤ MAX_READ_SIZE.

Inductive log_wf : list Rec → Prop :=
| wf_nil : log_wf []
| wf_snoc L r :
    log_wf L → in_u 32 (r_file r) →
    r_lsn r = Lsn_new (r_file r) (Z.of_nat (end_off L (r_file r))) →
    Z.of_nat (end_off L (r_file r) + length (r_bytes r)) < 2 ^ 32 →
    (∀ r', r' ∈ L → r_file r' ≤ r_file r) →
    (∀ r', last L = Some r' → r_file r ≤ r_file r' + 1) →
    r_prev r = last_off L (r_file r) → payload_ok r →
    log_wf (L ++ [r]).

(** ** Bytes of an entry *)

Lemma length_write_at off bytes buf :
  (off + length bytes ≤ length buf)%nat → length (LogEntry.write_at off bytes buf) = length buf.
Proof.
  intros Hl. unfold LogEntry.write_at. rewrite !length_app, length_take, length_drop. lia.
Qed.

Definition r_header_size (v : option Z) : nat := match v with Some _ => 22 | None => 14 end.

Definition r_flags (p : Provisional) (v : option Z) : Z :=
  let flags := match p with PYes => 0x80 | PBeforeCkptEnd => 0x40 | PNo => 0x00 end in
  match v with Some _ => Z.lor (Z.lor flags 0x20) 0x08 | None => flags end.

Definition r_tail (r : Rec) : list Z :=
  match r_vlsn r with Some v => le_bytes 8 (as_u 64 v) | None => [] end ++ r_payload r.

Lemma marshal_form t payload p v :
  Z.of_nat (length payload) ≤ MAX_PAYLOAD →
  marshal t payload p v =
    Some (le_bytes 4 0 ++ [type_num t] ++ [r_flags p v] ++ le_bytes 4 0 ++
          le_bytes 4 (Z.of_nat (length payload)) ++
          match v with Some v => le_bytes 8 (as_u 64 v) | None => [] end ++ payload).
Proof.
  intros Hl. unfold MAX_PAYLOAD in Hl. unfold marshal.
  rewrite as_u_id by (unfold in_u; lia). by rewrite Z.eqb_refl.
Qed.

Lemma r_bytes_form r :
  payload_ok r →
  ∃ sum, in_u 32 sum ∧
    r_bytes r = le_bytes 4 sum ++ [type_num (r_type r)] ++ [r_flags (r_prov r) (r_vlsn r)] ++
                le_bytes 4 (r_prev r) ++ le_bytes 4 (Z.of_nat (length (r_payload r))) ++ r_tail r ∧
    sum = crc32 (drop 4 (r_bytes r)).
Proof.
  intros Hp. unfold r_bytes. rewrite marshal_form by done. cbn [default from_option]. fold (r_tail r).
  unfold finish. eexists. split; [apply crc32_range|].
  split; reflexivity.
Qed.

Lemma length_r_bytes r :
  payload_ok r → length (r_bytes r) = (r_header_size (r_vlsn r) + length (r_payload r))%nat.
Proof.
  intros Hp. destruct (r_bytes_form r Hp) as (sum & _ & -> & _). unfold r_tail.
  by destruct (r_vlsn r).
Qed.

Lemma length_marshal t payload p v b :
  Z.of_nat (length payload) ≤ MAX_PAYLOAD → marshal t payload p v = Some b →
  length b = (r_header_size v + length payload)%nat.
Proof. intros Hl. rewrite marshal_form by done. intros [= <-]. by destruct v. Qed.

(** ** Places of entries *)

Lemma body_snoc L r f : body (L ++ [r]) f = body L f ++ (if decide (r_file r = f) then r_bytes r else []).
Proof.
  unfold body, in_file. rewrite filter_snoc, fmap_app, concat_app. f_equal.
  destruct (decide (r_file r = f)); [simpl; by rewrite app_nil_r|done].
Qed.

Lemma end_off_snoc L r f :
  end_off (L ++ [r]) f = (end_off L f + if decide (r_file r = f) then length (r_bytes r) else 0)%nat.
Proof. unfold end_off. rewrite body_snoc, length_app. destruct (decide _); simpl; lia. Qed.

Lemma cell_mono L r f i x : cell L f i = Some x → cell (L ++ [r]) f i = Some x.
Proof.
  unfold cell. destruct (Nat.ltb_spec i FILE_HEADER_SIZE); [done|]. rewrite body_snoc. apply lookup_app_l_Some.
Qed.

Lemma cell_bound L f i x : cell L f i = Some x → (FILE_HEADER_SIZE ≤ i < end_off L f)%nat.
Proof.
  unfold cell, end_off. destruct (Nat.ltb_spec i FILE_HEADER_SIZE); [done|].
  intros Hx%lookup_lt_Some. lia.
Qed.

Lemma cell_snoc_inv L r f i x :
  cell (L ++ [r]) f i = Some x →
  cell L f i = Some x ∨
  f = r_file r ∧ (end_off L f ≤ i < end_off L f + length (r_bytes r))%nat ∧
  r_bytes r !! (i - end_off L f)%nat = Some x.
Proof.
  unfold cell, end_off. destruct (Nat.ltb_spec i FILE_HEADER_SIZE); [done|]. rewrite body_snoc.
  intros [Hx|[Hge Hx]]%lookup_app_Some; [by left|right].
  destruct (decide (r_file r = f)) as [<-|]; [|by rewrite lookup_nil in Hx].
  pose proof (lookup_lt_Some _ _ _ Hx).
  split_and!; [done|lia|lia|]. rewrite <- Hx. f_equal. lia.
Qed.

Lemma cell_snoc_new L r j :
  (j < length (r_bytes r))%nat →
  cell (L ++ [r]) (r_file r) (end_off L (r_file r) + j) = r_bytes r !! j.
Proof.
  intros Hj. unfold cell, end_off.
  destruct (Nat.ltb_spec (FILE_HEADER_SIZE + length (body L (r_file r)) + j) FILE_HEADER_SIZE); [lia|].
  rewrite body_snoc, decide_True by done. rewrite lookup_app_r by lia. f_equal. lia.
Qed.

Lemma wf_place L r :
  log_wf L → r ∈ L →
  in_u 32 (r_file r) ∧ file_offset (r_lsn r) = Z.of_nat (r_off r) ∧
  r_lsn r = Lsn_new (r_file r) (Z.of_nat (r_off r)) ∧ payload_ok r ∧
  (FILE_HEADER_SIZE ≤ r_off r)%nat ∧
  (r_off r + length (r_bytes r) ≤ end_off L (r_file r))%nat ∧
  Z.of_nat (r_off r + length (r_bytes r)) < 2 ^ 32 ∧
  ∀ j, (j < length (r_bytes r))%nat → cell L (r_file r) (r_off r + j) = r_bytes r !! j.
Proof.
  induction 1 as [|L r' Hwf IH Hf Hlsn Hlt Hle Hnext Hprev Hp]; [by intros ?%elem_of_nil|].
  intros [Hr| ->%list_elem_of_singleton]%elem_of_app.
  - destruct (IH Hr) as (? & ? & ? & ? & ? & ? & ? & Hc). split_and!; [done..| |done|].
    + rewrite end_off_snoc. lia.
    + intros j Hj. destruct (lookup_lt_is_Some_2 _ _ Hj) as [x Hx]. rewrite Hx.
      apply cell_mono. by rewrite Hc.
  - assert (in_u 32 (Z.of_nat (end_off L (r_file r')))) as Ho by (unfold in_u; lia).
    assert (file_offset (r_lsn r') = Z.of_nat (end_off L (r_file r'))) as Hoff
      by (rewrite Hlsn at 1; by apply file_offset_new).
    assert (r_off r' = end_off L (r_file r')) as Eo by (unfold r_off; rewrite Hoff; lia).
    rewrite Eo. split_and!; [done|done|done|done| |  |done|].
    + unfold end_off. lia.
    + rewrite end_off_snoc, decide_True by done. lia.
    + intros j Hj. by apply cell_snoc_new.
Qed.

Lemma wf_sorted L : log_wf L → StronglySorted Z.lt (r_lsn <$> L).
Proof.
  induction 1 as [|L r Hwf IH Hf Hlsn Hlt Hle Hnext Hprev Hp]; [constructor|].
  rewrite fmap_app. apply StronglySorted_app_2; [|done|by repeat constructor].
  intros a b (r' & -> & Hr')%list_elem_of_fmap ->%list_elem_of_singleton.
  destruct (wf_place L r' Hwf Hr') as (Hf' & _ & -> & _ & _ & Hend & Hlt' & _).
  specialize (Hle r' Hr'). rewrite Hlsn at 1.
  assert (0 < length (r_bytes r'))%nat.
  { destruct (wf_place L r' Hwf Hr') as (_ & _ & _ & Hp' & _).
    rewrite length_r_bytes by done. destruct (r_vlsn r'); simpl; lia. }
  rewrite !Lsn_new_add by (unfold in_u in *; lia).
  destruct (decide (r_file r' = r_file r)) as [E|Hne].
  - rewrite E in Hend |- *. lia.
  - unfold in_u in *. lia.
Qed.

(** ** A file that holds the bytes of an entry *)

Definition stored (fs : gmap Z (list Z)) (r : Rec) : Prop :=
  ∀ j, (j < length (r_bytes r))%nat →
  ∃ d, fs !! r_file r = Some d ∧ d !! (r_off r + j)%nat = r_bytes r !! j.

Lemma stored_drop fs r :
  payload_ok r → stored fs r →
  ∃ d rest, fs !! r_file r = Some d ∧ drop (r_off r) d = r_bytes r ++ rest.
Proof.
  intros Hp Hs. destruct (Hs 0%nat) as (d & Hd & _).
  { rewrite length_r_bytes by done. destruct (r_vlsn r); simpl; lia. }
  exists d, (drop (length (r_bytes r)) (drop (r_off r) d)). split; [done|].
  rewrite <- (take_drop (length (r_bytes r)) (drop (r_off r) d)) at 1. f_equal.
  apply list_eq. intros j. destruct (decide (j < length (r_bytes r))%nat) as [Hj|Hj].
  - rewrite lookup_take_lt, lookup_drop by done. destruct (Hs j Hj) as (d' & Hd' & <-).
    by rewrite Hd in Hd'; injection Hd' as ->.
  - rewrite lookup_take_ge by lia. by rewrite lookup_ge_None_2 by lia.
Qed.

(** ** Reading an entry *)

(** The fields that a reader takes from the first bytes of an entry. *)
Lemma peek_entry r rest n :
  payload_ok r → (14 ≤ n)%nat → let buf := take n (r_bytes r ++ rest) in
  (14 ≤ length buf)%nat ∧ le_val (take 4 buf) = crc32 (drop 4 (r_bytes r)) ∧
  nth 4 buf 0 = type_num (r_type r) ∧ nth 5 buf 0 = r_flags (r_prov r) (r_vlsn r) ∧
  peek_item_size buf = Z.of_nat (length (r_payload r)) ∧
  peek_header_size buf = r_header_size (r_vlsn r) ∧ peek_entry_size buf = length (r_bytes r).
Proof.
  intros Hp Hn. rewrite length_r_bytes by done.
  destruct (r_bytes_form r Hp) as (sum & Hsum & E & <-). rewrite E.
  assert (∃ m, n = (14 + m)%nat) as [m ->] by (exists (n - 14)%nat; lia).
  unfold payload_ok, MAX_PAYLOAD in Hp.
  assert (le_val (le_bytes 4 sum) = sum) as Hs by (apply le_val_bytes; exact Hsum).
  assert (le_val (le_bytes 4 (Z.of_nat (length (r_payload r)))) = Z.of_nat (length (r_payload r))) as Hi.
  { apply le_val_bytes. simpl. lia. }
  set (buf := take _ _).
  assert (peek_item_size buf = Z.of_nat (length (r_payload r))) as Hitem by exact Hi.
  assert (peek_header_size buf = r_header_size (r_vlsn r)) as Hhdr.
  { unfold peek_header_size, buf. simpl. by destruct (r_prov r), (r_vlsn r). }
  unfold peek_entry_size. rewrite Hitem, Hhdr, Nat2Z.id.
  split_and!; [unfold buf; simpl; lia|exact Hs|done..].
Qed.

(** A read clears the invisible bit, which an append never sets. *)
Lemma clear_invisible r :
  payload_ok r → LogEntry.write_at 5 [Z.ldiff (nth 5 (r_bytes r) 0) 0x10] (r_bytes r) = r_bytes r.
Proof.
  intros Hp. destruct (r_bytes_form r Hp) as (sum & _ & -> & _). unfold LogEntry.write_at. simpl.
  do 5 f_equal. by destruct (r_prov r), (r_vlsn r).
Qed.

Lemma r_bytes_payload r : payload_ok r → drop (r_header_size (r_vlsn r)) (r_bytes r) = r_payload r.
Proof.
  intros Hp. destruct (r_bytes_form r Hp) as (sum & _ & -> & _). unfold r_tail. by destruct (r_vlsn r).
Qed.

Lemma read_random_stored l r rest d n :
  fm_open (file_manager l) → files (file_manager l) !! r_file r = Some d →
  file_offset (r_lsn r) = Z.of_nat (r_off r) → drop (r_off r) d = r_bytes r ++ rest →
  ∃ c, on_fm (read_from_file_random (file_number (r_lsn r)) (file_offset (r_lsn r)) n) l =
       Some (with_pool l (buffer_pool l, set_cache (file_manager l) c), Ok (take n (r_bytes r ++ rest))).
Proof.
  intros Hfm Hd Hoff Hdrop. destruct (get_file_handle_ok _ _ _ Hfm Hd) as (c & v & E). exists c.
  unfold on_fm, on_pool_files, on_files, read_from_file_random. cbn [fst snd]. fold (r_file r).
  rewrite (bind_ok _ _ _ _ _ E). unfold bind, get, ret. cbn [files set_cache].
  rewrite Hd. change (default [] (Some d)) with d. unfold pread. by rewrite Hoff, Nat2Z.id, Hdrop.
Qed.

Lemma read_stored l r :
  fm_open (file_manager l) → payload_ok r → readable r → file_offset (r_lsn r) = Z.of_nat (r_off r) →
  stored (files (file_manager l)) r →
  ∃ c, read_entry_from_disk (r_lsn r) l =
       Some (with_pool l (buffer_pool l, set_cache (file_manager l) c), Ok (r_type r, r_payload r)).
Proof.
  intros Hfm Hp Hrd Hoff Hst. destruct (stored_drop _ _ Hp Hst) as (d & rest & Hd & Hdrop).
  pose proof (peek_entry r rest LOG_FAULT_READ_SIZE Hp ltac:(unfold LOG_FAULT_READ_SIZE; lia))
    as (Hlen & Hsum & Htype & _ & Hitem & Hhdr & Hsize).
  destruct (read_random_stored l r rest d LOG_FAULT_READ_SIZE Hfm Hd Hoff Hdrop) as (c & E1).
  unfold read_entry_from_disk. unfold bind at 1, get. rewrite (bind_ok _ _ _ _ _ E1).
  rewrite (proj2 (Nat.ltb_ge _ _)) by done. rewrite Hitem, Hhdr, Hsize, Hsum, Htype.
  rewrite (proj2 (Z.ltb_ge _ _)) by (unfold readable, MAX_READ_SIZE in Hrd; lia).
  set (l1 := with_pool _ _) in *. set (buf := take LOG_FAULT_READ_SIZE _) in *.
  assert (∃ c', (if (length (r_bytes r) <=? length buf)%nat then ret (take (length (r_bytes r)) buf)
     else
       let! full_buf := on_fm (read_from_file_random (file_number (r_lsn r)) (file_offset (r_lsn r))
                                 (length (r_bytes r))) in
       if (length full_buf <? length (r_bytes r))%nat then throw (UnexpectedEof (r_lsn r))
       else ret full_buf) l1
    = Some (with_pool l (buffer_pool l, set_cache (file_manager l) c'), Ok (r_bytes r))) as (c' & E2).
  { destruct (Nat.leb_spec (length (r_bytes r)) (length buf)) as [Hle|_].
    - exists c. unfold ret. do 3 f_equal. unfold buf in *. rewrite length_take in Hle.
      rewrite take_take, Nat.min_l by lia. by rewrite take_app_length.
    - destruct (read_random_stored l1 r rest d (length (r_bytes r))) as (c' & E2); [by destruct Hfm|done..|].
      exists c'. rewrite (bind_ok _ _ _ _ _ E2), take_app_length, (proj2 (Nat.ltb_ge _ _)) by lia. done. }
  exists c'. rewrite (bind_ok _ _ _ _ _ E2), clear_invisible, r_bytes_payload by done.
  by rewrite Z.eqb_refl, andb_false_r, from_type_num_type.
Qed.

(** A larger one is refused. *)
Lemma read_large l r :
  fm_open (file_manager l) → payload_ok r → ¬ readable r → file_offset (r_lsn r) = Z.of_nat (r_off r) →
  stored (files (file_manager l)) r →
  ∃ c, read_entry_from_disk (r_lsn r) l =
       Some (with_pool l (buffer_pool l, set_cache (file_manager l) c),
             Err (InvalidEntrySize (r_lsn r) (as_i 32 (Z.of_nat (length (r_payload r)))))).
Proof.
  intros Hfm Hp Hrd Hoff Hst. destruct (stored_drop _ _ Hp Hst) as (d & rest & Hd & Hdrop).
  pose proof (peek_entry r rest LOG_FAULT_READ_SIZE Hp ltac:(unfold LOG_FAULT_READ_SIZE; lia))
    as (Hlen & _ & _ & _ & Hitem & _ & _).
  destruct (read_random_stored l r rest d LOG_FAULT_READ_SIZE Hfm Hd Hoff Hdrop) as (c & E1).
  exists c. unfold read_entry_from_disk. unfold bind at 1, get. rewrite (bind_ok _ _ _ _ _ E1).
  rewrite (proj2 (Nat.ltb_ge _ _)) by done. rewrite Hitem.
  rewrite (proj2 (Z.ltb_lt _ _)) by (unfold readable, MAX_READ_SIZE in Hrd; lia). done.
Qed.

End spec.
