(* ===== verification/LogInv.v ===== *)
(** * What the write path of the log maintains

    The invariant between the abstract log ([LogSpec]) and the state of the log
    manager: every byte of the log is in a buffer that has still to write it or
    in its file; buffers hold whole entries; the ring of buffers is ordered by
    age, with the buffers that have bytes to write between [dirty_start] and the
    current one; files carry the header that links them to the file before.  The
    operations preserve it, and it makes every entry readable. *)

From stdpp Require Import sorting.
From S2P Require Import Prelude Bytes Lsn LogEntry LogFile LogBuffer WriteLog LogSpec.
Import LogFile.FileHeader (FILE_HEADER_SIZE).

Section inv.
Context `{Platform}.

(** ** Buffers *)

Definition live (b : LogBuffer) : Prop := is_null (first_lsn b) = false.
Definition b_file (b : LogBuffer) : Z := file_number (first_lsn b).
Definition b_off (b : LogBuffer) : nat := Z.to_nat (file_offset (first_lsn b)).
Definition b_end (b : LogBuffer) : nat := (b_off b + write_position b)%nat.
Definition dirty (b : LogBuffer) : Prop := (flushed_len b < write_position b)%nat.

Record buf_ok (L : list Rec) (b : LogBuffer) : Prop := {
  bo_len : length (lb_data b) = capacity b;
  bo_pos : (flushed_len b ≤ write_position b ≤ capacity b)%nat;
  bo_null : ¬ live b → write_position b = 0%nat ∧ is_null (last_lsn b) = true;
  bo_live : live b → (0 < write_position b)%nat;
  bo_lsn : live b → first_lsn b ∈ r_lsn <$> L ∧ last_lsn b ∈ r_lsn <$> L;
  bo_data : live b → ∀ j, (j < write_position b)%nat →
    lb_data b !! j = cell L (b_file b) (b_off b + j);
  bo_align : live b → ∀ r, r ∈ L → r_file r = b_file b →
    (b_end b ≤ r_off r ∨ r_off r + length (r_bytes r) ≤ b_off b ∨
     b_off b ≤ r_off r ∧ r_off r + length (r_bytes r) ≤ b_end b)%nat;
}.

(** A byte that the buffers have still to write. *)
Definition unflushed (b : LogBuffer) (f : Z) (i : nat) : Prop :=
  live b ∧ b_file b = f ∧ (b_off b + flushed_len b ≤ i < b_end b)%nat.
Definition pend (bs : list LogBuffer) (f : Z) (i : nat) : Prop :=
  ∃ k b, bs !! k = Some b ∧ unflushed b f i.

Definition cells_ok (L : list Rec) (P : Z → nat → Prop) (fs : gmap Z (list Z)) : Prop :=
  ∀ f i x, cell L f i = Some x → P f i ∨ ∃ d, fs !! f = Some d ∧ d !! i = Some x.

(** ** The ring *)

(** The age of a slot: the current one is the youngest. *)
Definition pos (n cur i : nat) : nat :=
  if (i <=? cur)%nat then (i + n - cur - 1)%nat else (i - cur - 1)%nat.

Record pool_ok (L : list Rec) (p : LogBufferPool) (f : Z) (o : nat) : Prop := {
  po_n : (2 ≤ length (buffers p))%nat;
  po_cur : (current_write_buffer_index p < length (buffers p))%nat;
  po_buf : ∀ i b, buffers p !! i = Some b → buf_ok L b;
  po_current : ∀ b, buffers p !! current_write_buffer_index p = Some b → live b →
    b_file b = f ∧ b_end b = o;
  po_order : ∀ i j a b, buffers p !! i = Some a → buffers p !! j = Some b → live a → live b →
    (pos (length (buffers p)) (current_write_buffer_index p) i <
     pos (length (buffers p)) (current_write_buffer_index p) j)%nat → first_lsn a ≤ first_lsn b;
  po_min : ∀ i b, buffers p !! i = Some b → live b → min_buffer_lsn p ≤ first_lsn b;
  po_min_lsn : min_buffer_lsn p = 0 ∨ min_buffer_lsn p ∈ r_lsn <$> L;
  po_file : ∀ i b, buffers p !! i = Some b → dirty b → b_file b = f;
}.

(** The buffers to write, but for the current one, are the ones from
    [dirty_start] on. *)
Definition dirty_ok (p : LogBufferPool) : Prop :=
  let n := length (buffers p) in
  let cur := current_write_buffer_index p in
  (0 ≤ dirty_start p →
   (Z.to_nat (dirty_start p) < n)%nat ∧ Z.to_nat (dirty_start p) ≠ cur ∧
   0 ≤ dirty_end p ∧ (Z.to_nat (dirty_end p) < n)%nat ∧
   S (pos n cur (Z.to_nat (dirty_end p))) = (n - 1)%nat) ∧
  ∀ i b, buffers p !! i = Some b → i ≠ cur → dirty b →
    0 ≤ dirty_start p ∧ (pos n cur (Z.to_nat (dirty_start p)) ≤ pos n cur i)%nat.

(** ** Files *)

Definition link (L : list Rec) (f : Z) : Z := if 0 <? f then last_off L (f - 1) else 0.
Definition header (L : list Rec) (f : Z) : list Z :=
  FileHeader.write_to (FileHeader.new f (link L f)).

Record fm_ok (L : list Rec) (fm : FileManager) : Prop := {
  fo_closed : closed fm = false;
  fo_writable : read_only fm = false;
  fo_cur : 0 ≤ current_file_num fm ≤ Z.of_nat (length L);
  fo_size : Z.of_nat (length L) < 2 ^ 32 - 1;
  fo_end : Z.of_nat (end_off L (current_file_num fm)) < 2 ^ 32;
  fo_next : next_available_lsn fm =
    Lsn_new (current_file_num fm) (Z.of_nat (end_off L (current_file_num fm)));
  fo_last : last_used_lsn fm = from_option r_lsn NULL_LSN (last L);
  fo_per : ∀ f, per_file_last_lsn fm !! f = r_lsn <$> last (in_file f L);
  fo_files : ∀ f d, files fm !! f = Some d →
    0 ≤ f ≤ current_file_num fm ∧ take FILE_HEADER_SIZE d = header L f;
  fo_durable : ∀ f d, durable fm !! f = Some d →
    is_Some (files fm !! f) ∧ take FILE_HEADER_SIZE d = header L f;
  fo_last_file : ∀ r, last L = Some r → r_file r = current_file_num fm;
  fo_le : ∀ r, r ∈ L → r_file r ≤ current_file_num fm;
}.

(** What was synced is on stable storage. *)
Definition durable_ok (L : list Rec) (fm : FileManager) (synced : Z) : Prop :=
  ∀ r, r ∈ L → r_lsn r < synced ∨ r_file r < current_file_num fm → stored (durable fm) r.

Record Inv (L : list Rec) (l : LogManager) : Prop := {
  i_wf : log_wf L;
  i_fm : fm_ok L (file_manager l);
  i_pool : pool_ok L (buffer_pool l) (current_file_num (file_manager l))
             (end_off L (current_file_num (file_manager l)));
  i_dirty : dirty_ok (buffer_pool l);
  i_cells : cells_ok L (pend (buffers (buffer_pool l))) (files (file_manager l));
  i_durable : durable_ok L (file_manager l) (last_synced_lsn l);
  i_synced : last_synced_lsn l ≤ next_available_lsn (file_manager l);
  i_valid : io_invalid l = false;
}.

(** ** Facts about entries *)

Lemma r_bytes_pos r : payload_ok r → (14 ≤ length (r_bytes r))%nat.
Proof. intros Hp. rewrite length_r_bytes by done. destruct (r_vlsn r); simpl; lia. Qed.

Lemma wf_lsn L r : log_wf L → r ∈ L → in_u 64 (r_lsn r) ∧ is_null (r_lsn r) = false.
Proof.
  intros Hwf Hr. destruct (wf_place L r Hwf Hr) as (Hf & _ & -> & Hp & _ & _ & Hlt & _).
  pose proof (r_bytes_pos r Hp).
  assert (in_u 32 (Z.of_nat (r_off r))) by (unfold in_u; lia).
  rewrite Lsn_new_add by done. unfold is_null, NULL_LSN, in_u in *. rewrite Z.eqb_neq. lia.
Qed.

Lemma wf_lsn_elem L x : log_wf L → x ∈ r_lsn <$> L → in_u 64 x ∧ is_null x = false.
Proof. intros Hwf (r & -> & Hr)%list_elem_of_fmap. by apply wf_lsn with L. Qed.

(** The place of a live buffer is the place of its first entry. *)
Lemma live_place L b :
  log_wf L → buf_ok L b → live b →
  in_u 32 (b_file b) ∧ (FILE_HEADER_SIZE ≤ b_off b)%nat ∧
  file_offset (first_lsn b) = Z.of_nat (b_off b) ∧
  first_lsn b = Lsn_new (b_file b) (Z.of_nat (b_off b)) ∧ Z.of_nat (b_off b) < 2 ^ 32.
Proof.
  intros Hwf Hb Hl. destruct (bo_lsn L b Hb Hl) as [(r & E & Hr)%list_elem_of_fmap _].
  destruct (wf_place L r Hwf Hr) as (? & ? & ? & ? & ? & ? & ? & ?).
  unfold b_file, b_off. rewrite E. unfold r_off, r_file in *. split_and!; try done; lia.
Qed.

Lemma live_bound L b :
  log_wf L → buf_ok L b → live b → (b_end b ≤ end_off L (b_file b))%nat.
Proof.
  intros Hwf Hb Hl. pose proof (bo_live L b Hb Hl).
  destruct (bo_pos L b Hb) as [_ Hc].
  destruct (lookup_lt_is_Some_2 (lb_data b) (write_position b - 1)) as [x Hx].
  { rewrite (bo_len L b Hb). lia. }
  rewrite (bo_data L b Hb Hl) in Hx by lia. apply cell_bound in Hx. unfold b_end. lia.
Qed.

Lemma dirty_live L b : buf_ok L b → dirty b → live b.
Proof.
  intros Hb Hd. unfold live. destruct (is_null (first_lsn b)) eqn:E; [|done]. exfalso.
  destruct (bo_null L b Hb) as [Hw _]; [unfold live; congruence|]. unfold dirty in Hd. lia.
Qed.

(** ** Files: opening, links *)

Lemma last_off_range L f : log_wf L → in_u 32 (last_off L f).
Proof.
  intros Hwf. unfold last_off. destruct (last (in_file f L)) as [r|] eqn:E; [|by unfold in_u].
  unfold file_offset, as_u. apply Z.mod_pos_bound. lia.
Qed.

Lemma link_range L f : log_wf L → in_u 32 (link L f).
Proof. intros Hwf. unfold link. destruct (0 <? f); [by apply last_off_range|by unfold in_u]. Qed.

Lemma fm_ok_open L fm : log_wf L → fm_ok L fm → fm_open fm.
Proof.
  intros Hwf Hfm. split; [apply Hfm..|]. intros f d Hd. destruct (fo_files L fm Hfm f d Hd) as [Hf E].
  pose proof (fo_cur L fm Hfm). pose proof (fo_size L fm Hfm).
  split; [unfold in_u; lia|]. exists (link L f). split; [by apply link_range|done].
Qed.

Lemma prev_link_link L fm f : fm_ok L fm → prev_link fm f = link L f.
Proof.
  intros Hfm. unfold prev_link, link, last_off. destruct (0 <? f); [|done].
  rewrite (fo_per L fm Hfm). by destruct (last _).
Qed.

Lemma new_file_header L fm f : fm_ok L fm → new_file fm f = header L f.
Proof. intros Hfm. unfold new_file, header. by rewrite (prev_link_link L). Qed.

Lemma take_header L f : take FILE_HEADER_SIZE (header L f) = header L f.
Proof. apply take_ge. unfold header. by rewrite length_header. Qed.

Lemma file_or_new_header L fm f :
  fm_ok L fm → take FILE_HEADER_SIZE (file_or_new fm f) = header L f ∧
  (FILE_HEADER_SIZE ≤ length (file_or_new fm f))%nat.
Proof.
  intros Hfm. assert (take FILE_HEADER_SIZE (file_or_new fm f) = header L f) as E.
  { unfold file_or_new. destruct (files fm !! f) as [d|] eqn:Hd; cbn [from_option].
    - by apply (fo_files L fm Hfm).
    - rewrite (new_file_header L) by done. apply take_header. }
  split; [done|]. apply (f_equal length) in E. unfold header in E. rewrite length_take, length_header in E. lia.
Qed.

Lemma fm_ok_set L fm m dm c :
  fm_ok L fm →
  (∀ f d, m !! f = Some d → 0 ≤ f ≤ current_file_num fm ∧ take FILE_HEADER_SIZE d = header L f) →
  (∀ f d, dm !! f = Some d → is_Some (m !! f) ∧ take FILE_HEADER_SIZE d = header L f) →
  fm_ok L (set_cache (set_files fm m dm) c).
Proof. intros [] ??. by split. Qed.

Lemma fm_ok_cache L fm c : fm_ok L fm → fm_ok L (set_cache fm c).
Proof. intros []. by split. Qed.

(** What reads and writes of files leave alone. *)
Definition same_meta (fm fm' : FileManager) : Prop :=
  current_file_num fm' = current_file_num fm ∧ max_file_size fm' = max_file_size fm ∧
  force_new_file fm' = force_new_file fm.

#[export] Instance same_meta_preorder : PreOrder same_meta.
Proof. unfold same_meta. split; red; naive_solver congruence. Qed.

Lemma written_fm_ok L fm f off bytes c :
  fm_ok L fm → 0 ≤ f ≤ current_file_num fm → (FILE_HEADER_SIZE ≤ off)%nat →
  fm_ok L (set_cache (written_file fm f off bytes) c).
Proof.
  intros Hfm Hf Hoff. destruct (file_or_new_header L fm f Hfm) as [Hh Hhl]. apply fm_ok_set; [done|..].
  - intros g d [[<- <-]|[Hne Hd]]%lookup_insert_Some; [|by apply (fo_files L fm Hfm)].
    split; [done|]. by rewrite pwrite_prefix.
  - intros g d Hd. rewrite lookup_insert_is_Some'.
    destruct (files fm !! f) as [d0|] eqn:Ed.
    + destruct (fo_durable L fm Hfm g d Hd). naive_solver.
    + apply lookup_insert_Some in Hd as [[<- <-]|[Hne Hd]].
      * split; [by left|]. rewrite (new_file_header L) by done. apply take_header.
      * destruct (fo_durable L fm Hfm g d Hd). naive_solver.
Qed.

Lemma written_durable L fm f off bytes c synced :
  log_wf L → fm_ok L fm → durable_ok L fm synced →
  durable_ok L (set_cache (written_file fm f off bytes) c) synced.
Proof.
  intros Hwf Hfm Hdur r Hr Hs j Hj. destruct (Hdur r Hr Hs j Hj) as (d & Hd & Hx).
  exists d. split; [|done]. unfold written_file. cbn [durable set_cache set_files]. destruct (files fm !! f) as [d0|] eqn:Ed; [done|].
  destruct (fo_durable L fm Hfm _ _ Hd) as [[d1 Hd1] _].
  rewrite lookup_insert_ne by congruence. done.
Qed.

Lemma written_cells L fm f off bytes (P Q : Z → nat → Prop) :
  (∀ j, (j < length bytes)%nat → cell L f (off + j) = bytes !! j) →
  cells_ok L P (files fm) →
  (∀ g i, P g i → ¬ (g = f ∧ (off ≤ i < off + length bytes)%nat) → Q g i) →
  cells_ok L Q (files (written_file fm f off bytes)).
Proof.
  intros Hb Hc HQ g i x Hx. unfold written_file. cbn [files set_files].
  destruct (decide (g = f ∧ (off ≤ i < off + length bytes)%nat)) as [[-> Hi]|Hi].
  - right. eexists. split; [apply lookup_insert_eq|]. rewrite pwrite_new by done.
    rewrite <- Hx, <- (Hb (i - off)%nat) by lia. f_equal. lia.
  - destruct (Hc g i x Hx) as [Hp|(d & Hd & Hdx)]; [left; by apply HQ|right].
    destruct (decide (g = f)) as [->|Hne].
    + eexists. split; [apply lookup_insert_eq|]. unfold file_or_new. rewrite Hd.
      apply pwrite_old; [naive_solver|done].
    + exists d. by rewrite lookup_insert_ne by done.
Qed.

Lemma disk_write L (P Q : Z → nat → Prop) fm f off bytes synced :
  log_wf L → fm_ok L fm → 0 ≤ f ≤ current_file_num fm → (FILE_HEADER_SIZE ≤ off)%nat →
  (∀ j, (j < length bytes)%nat → cell L f (off + j) = bytes !! j) →
  cells_ok L P (files fm) → durable_ok L fm synced →
  (∀ g i, P g i → ¬ (g = f ∧ (off ≤ i < off + length bytes)%nat) → Q g i) →
  ∃ fm', write_buffer_to_file f bytes (Z.of_nat off) fm = Some (fm', Ok ()) ∧
    fm_ok L fm' ∧ cells_ok L Q (files fm') ∧ durable_ok L fm' synced ∧ same_meta fm fm'.
Proof.
  intros Hwf Hfm Hf Hoff Hb Hc Hdur HQ.
  destruct (write_buffer_to_file_ok fm f bytes (Z.of_nat off)) as (c & E); [by apply (fm_ok_open L)|].
  rewrite Nat2Z.id in E. eexists. split; [exact E|]. split_and!.
  - by apply written_fm_ok.
  - by apply (written_cells L fm f off bytes P Q).
  - by apply written_durable.
  - by split_and!.
Qed.

(** ** Writing a buffer *)

Lemma mark_flushed_ok L b : buf_ok L b → buf_ok L (mark_flushed b) ∧ ¬ dirty (mark_flushed b).
Proof.
  intros [? [? ?] ? ? ? ? ?]. split; [|unfold dirty; simpl; unfold content_len; lia].
  split; try done; simpl; unfold content_len; lia.
Qed.

Lemma take_unflushed_clean L b : buf_ok L b → ¬ dirty b → take_unflushed b = Some (b, None).
Proof.
  intros Hb Hd. unfold take_unflushed. destruct (is_null (first_lsn b)); [done|].
  destruct (bo_pos L b Hb) as [Hle Hc]. unfold dirty in Hd. unfold get_unflushed_data, slice, content_len.
  rewrite (bo_len L b Hb), !(proj2 (Nat.leb_le _ _)) by lia.
  replace (write_position b - flushed_len b)%nat with 0%nat by lia. done.
Qed.

Lemma take_unflushed_dirty L b :
  log_wf L → buf_ok L b → dirty b →
  ∃ bytes, take_unflushed b =
      Some (mark_flushed b, Some (b_file b, bytes, Z.of_nat (b_off b + flushed_len b))) ∧
    length bytes = (write_position b - flushed_len b)%nat ∧
    ∀ j, (j < length bytes)%nat →
      cell L (b_file b) (b_off b + flushed_len b + j) = bytes !! j.
Proof.
  intros Hwf Hb Hd. pose proof (dirty_live L b Hb Hd) as Hl. unfold dirty in Hd.
  destruct (bo_pos L b Hb) as [Hle Hc].
  destruct (live_place L b Hwf Hb Hl) as (_ & _ & Hoff & _).
  set (bytes := take (write_position b - flushed_len b) (drop (flushed_len b) (lb_data b))).
  assert (length bytes = (write_position b - flushed_len b)%nat) as Hlen.
  { unfold bytes. rewrite length_take, length_drop, (bo_len L b Hb). lia. }
  exists bytes. split_and!; [|done|].
  - unfold take_unflushed, get_unflushed_data, slice, content_len. rewrite Hl.
    rewrite (bo_len L b Hb), !(proj2 (Nat.leb_le _ _)) by lia. cbn [andb mbind option_bind].
    fold bytes. destruct bytes as [|x bytes'] eqn:E; [simpl in Hlen; lia|].
    unfold flushed_file_offset. rewrite Hoff. by rewrite Nat2Z.inj_add.
  - intros j Hj. unfold bytes. rewrite lookup_take_lt, lookup_drop by lia.
    rewrite (bo_data L b Hb Hl) by lia. f_equal. lia.
Qed.

(** Buffers of which some were written. *)
Definition flush_of (bs bs' : list LogBuffer) : Prop :=
  length bs' = length bs ∧
  ∀ i b', bs' !! i = Some b' → ∃ b, bs !! i = Some b ∧ (b' = b ∨ b' = mark_flushed b).

#[export] Instance flush_of_preorder : PreOrder flush_of.
Proof.
  split.
  - intros bs. split; [done|]. naive_solver.
  - intros a b c [Hab Hb] [Hbc Hc]. split; [congruence|]. intros i x Hx.
    destruct (Hc i x Hx) as (y & Hy & Hxy). destruct (Hb i y Hy) as (z & Hz & Hyz).
    exists z. split; [done|]. destruct Hxy as [-> | ->], Hyz as [-> | ->]; auto.
Qed.

Lemma flush_of_insert bs k b b' :
  bs !! k = Some b → b' = b ∨ b' = mark_flushed b → flush_of bs (<[k := b']> bs).
Proof.
  intros Hb Hb'. split; [apply length_insert|]. intros i x Hx.
  apply list_lookup_insert_Some in Hx as [(-> & -> & _)|[_ Hx]]; eauto.
Qed.

Lemma flush_of_clean bs bs' i b b' :
  flush_of bs bs' → bs !! i = Some b → bs' !! i = Some b' → dirty b' → b' = b.
Proof.
  intros [_ Hf] Hb Hb' Hd. destruct (Hf i b' Hb') as (b0 & Hb0 & [-> | ->]).
  - congruence.
  - unfold dirty in Hd. simpl in Hd. unfold content_len in Hd. lia.
Qed.

Lemma pool_ok_flush L p bs' f o :
  flush_of (buffers p) bs' → pool_ok L p f o → pool_ok L (set_buffers p bs') f o.
Proof.
  intros [Hlen Hf] [Hn Hcur Hbuf Hcurr Hord Hmin Hml Hfile].
  split; cbn [buffers current_write_buffer_index min_buffer_lsn set_buffers]; rewrite ?Hlen; try done.
  - intros i b' (b & Hb & [-> | ->])%Hf; [by apply (Hbuf i)|]. by apply mark_flushed_ok, (Hbuf i).
  - intros b' (b & Hb & [-> | ->])%Hf Hl; exact (Hcurr b Hb Hl).
  - intros i j a' b' (a & Ha & Ea)%Hf (b & Hb & Eb)%Hf Hla Hlb Hij.
    destruct Ea as [-> | ->], Eb as [-> | ->]; exact (Hord i j a b Ha Hb Hla Hlb Hij).
  - intros i b' (b & Hb & [-> | ->])%Hf Hl; exact (Hmin i b Hb Hl).
  - intros i b' (b & Hb & [-> | ->])%Hf; [by apply (Hfile i)|].
    unfold dirty. simpl. unfold content_len. lia.
Qed.

Lemma dirty_ok_flush p bs' : flush_of (buffers p) bs' → dirty_ok p → dirty_ok (set_buffers p bs').
Proof.
  intros Hfl [Hs Hd]. pose proof Hfl as [Hlen Hf].
  split; cbn [buffers dirty_start dirty_end current_write_buffer_index set_buffers]; rewrite Hlen; [done|].
  intros i b' Hb' Hi Hdb. destruct (Hf i b' Hb') as (b & Hb & _).
  rewrite (flush_of_clean _ _ _ _ _ Hfl Hb Hb' Hdb) in Hdb. by apply (Hd i b).
Qed.

(** The files, for buffers that still have bytes to write. *)
Definition disk_ok (L : list Rec) (bs : list LogBuffer) (fm : FileManager) (synced : Z) : Prop :=
  fm_ok L fm ∧ cells_ok L (pend bs) (files fm) ∧ durable_ok L fm synced.

Lemma pend_mark bs k b f i :
  bs !! k = Some b → pend bs f i →
  ¬ (f = b_file b ∧ (b_off b + flushed_len b ≤ i < b_end b)%nat) →
  pend (<[k := mark_flushed b]> bs) f i.
Proof.
  intros Hb (k' & b' & Hb' & Hu) Hi. destruct (decide (k' = k)) as [->|Hne].
  - rewrite Hb in Hb'. injection Hb' as <-. destruct Hu as (Hl & Hf & Hr). destruct Hi. by split.
  - exists k', b'. by rewrite list_lookup_insert_ne by done.
Qed.

Lemma write_unflushed L bs fm synced k b bytes :
  log_wf L → disk_ok L bs fm synced → bs !! k = Some b → buf_ok L b → dirty b →
  b_file b = current_file_num fm → length bytes = (write_position b - flushed_len b)%nat →
  (∀ j, (j < length bytes)%nat → cell L (b_file b) (b_off b + flushed_len b + j) = bytes !! j) →
  ∃ fm', write_buffer_to_file (b_file b) bytes (Z.of_nat (b_off b + flushed_len b)) fm =
           Some (fm', Ok ()) ∧
    disk_ok L (<[k := mark_flushed b]> bs) fm' synced ∧ same_meta fm fm'.
Proof.
  intros Hwf (Hfm & Hc & Hdur) Hk Hb Hd Hfile Hlen Hcell.
  destruct (live_place L b Hwf Hb (dirty_live L b Hb Hd)) as (? & Hoff & _).
  destruct (disk_write L (pend bs) (pend (<[k := mark_flushed b]> bs)) fm (b_file b)
    (b_off b + flushed_len b) bytes synced) as (fm' & E & Hfm' & Hc' & Hdur' & Hm); try done.
  - rewrite Hfile. pose proof (fo_cur L fm Hfm). lia.
  - lia.
  - intros g i Hp Hi. apply pend_mark; [done|done|]. unfold dirty, b_end in *. rewrite Hlen in Hi.
    intros [-> ?]. apply Hi. split; [done|lia].
  - by exists fm'.
Qed.

Lemma write_one_ok L p fm synced o k b :
  log_wf L → pool_ok L p (current_file_num fm) o → disk_ok L (buffers p) fm synced →
  buffers p !! k = Some b →
  ∃ fm' b', write_one k (p, fm) = Some ((set_buffers p (<[k := b']> (buffers p)), fm'), Ok ()) ∧
    ¬ dirty b' ∧ (b' = b ∨ b' = mark_flushed b) ∧
    disk_ok L (<[k := b']> (buffers p)) fm' synced ∧ same_meta fm fm'.
Proof.
  intros Hwf Hp Hdisk Hk. pose proof (po_buf _ _ _ _ Hp k b Hk) as Hb.
  unfold write_one, bind, get, on_pool, modify. cbn [fst]. rewrite Hk. unfold unwrap at 1, ret at 1.
  destruct (decide (dirty b)) as [Hd|Hd].
  - destruct (take_unflushed_dirty L b Hwf Hb Hd) as (bytes & -> & Hlen & Hcell).
    destruct (write_unflushed L (buffers p) fm synced k b bytes) as (fm' & E & Hdisk' & Hm); try done.
    { by apply (po_file _ _ _ _ Hp k). }
    exists fm', (mark_flushed b). split_and!; [|by apply (mark_flushed_ok L)|by right|done..].
    unfold unwrap, ret, on_files. cbn [fst snd]. by rewrite E.
  - rewrite (take_unflushed_clean L) by done. exists fm, b. split_and!; [done|done|by left| |done].
    by rewrite list_insert_id.
Qed.

(** ** The loop over the dirty buffers *)

Lemma pos_inj n cur i j :
  (i < n)%nat → (j < n)%nat → (cur < n)%nat → pos n cur i = pos n cur j → i = j.
Proof. unfold pos. destruct (Nat.leb_spec i cur), (Nat.leb_spec j cur); lia. Qed.

Lemma pos_next p cur k :
  (k < length (buffers p))%nat → (cur < length (buffers p))%nat → k ≠ cur →
  (get_next_slot p k < length (buffers p))%nat ∧
  pos (length (buffers p)) cur (get_next_slot p k) = S (pos (length (buffers p)) cur k).
Proof.
  unfold pos, get_next_slot. intros. destruct (Nat.ltb_spec k (length (buffers p) - 1)).
  - destruct (Nat.leb_spec k cur), (Nat.leb_spec (S k) cur); lia.
  - destruct (Nat.leb_spec k cur), (Nat.leb_spec 0 cur); lia.
Qed.

Lemma write_dirty_loop_ok L synced o m : ∀ fuel p fm k,
  let n := length (buffers p) in
  let cur := current_write_buffer_index p in
  log_wf L → pool_ok L p (current_file_num fm) o → disk_ok L (buffers p) fm synced →
  (k < n)%nat → (m < fuel)%nat → S (pos n cur k + m) = (n - 1)%nat →
  0 ≤ dirty_end p → (Z.to_nat (dirty_end p) < n)%nat →
  S (pos n cur (Z.to_nat (dirty_end p))) = (n - 1)%nat →
  ∃ bs' fm', write_dirty_loop fuel k (p, fm) = Some ((set_buffers p bs', fm'), Ok ()) ∧
    flush_of (buffers p) bs' ∧ disk_ok L bs' fm' synced ∧ same_meta fm fm' ∧
    ∀ i b', bs' !! i = Some b' → i ≠ cur → (pos n cur k ≤ pos n cur i)%nat → ¬ dirty b'.
Proof.
  induction m as [|m IH]; intros [|fuel] p fm k n cur Hwf Hp Hdisk Hk Hm Hpos Hde Hden Hdep; try lia;
    pose proof (po_cur _ _ _ _ Hp) as Hcur; fold n cur in Hcur;
    destruct (lookup_lt_is_Some_2 (buffers p) k Hk) as [b Hb];
    destruct (write_one_ok L p fm synced o k b Hwf Hp Hdisk Hb)
      as (fm1 & b1 & E1 & Hc1 & Hb1 & Hd1 & Hm1);
    pose proof (flush_of_insert _ _ _ _ Hb Hb1) as Hf1;
    cbn [write_dirty_loop]; unfold bind at 1, get; rewrite (bind_ok _ _ _ _ _ E1); cbn [fst].
  - assert (k = Z.to_nat (dirty_end p)) as Ek by (apply (pos_inj n cur); lia).
    rewrite (proj2 (Z.eqb_eq _ _)) by lia. exists (<[k := b1]> (buffers p)), fm1.
    split_and!; [done..|]. intros i b' Hb' Hi Hle.
    assert (i = k) as ->.
    { apply (pos_inj n cur); [|done|done|].
      - apply lookup_lt_Some in Hb'. by rewrite length_insert in Hb'.
      - assert (pos n cur i < n - 1)%nat; [|lia]. apply lookup_lt_Some in Hb'.
        rewrite length_insert in Hb'. unfold pos. fold n in Hb'. destruct (Nat.leb_spec i cur); lia. }
    rewrite list_lookup_insert_eq in Hb' by done. congruence.
  - assert (k ≠ Z.to_nat (dirty_end p)) as Ek by (intros ->; lia).
    rewrite (proj2 (Z.eqb_neq _ _)) by lia.
    assert (k ≠ cur) as Hkc.
    { intros ->. unfold pos in Hpos. destruct (Nat.leb_spec cur cur); lia. }
    destruct (pos_next p cur k Hk Hcur Hkc) as [Hnk Hnp]. fold n in Hnk, Hnp.
    destruct (IH fuel (set_buffers p (<[k := b1]> (buffers p))) fm1 (get_next_slot p k))
      as (bs' & fm' & E2 & Hf2 & Hd2 & Hm2 & Hc2);
      cbn [buffers current_write_buffer_index dirty_end set_buffers]; rewrite ?length_insert; fold n cur;
      try done; try lia.
    { rewrite (proj1 Hm1). by apply pool_ok_flush. }
    exists bs', fm'. cbn [buffers set_buffers current_write_buffer_index] in Hf2, Hc2.
    rewrite length_insert in Hc2. fold n cur in Hc2. split_and!.
    + exact E2.
    + by transitivity (<[k := b1]> (buffers p)).
    + done.
    + by transitivity fm1.
    + intros i b' Hb' Hi Hle. destruct (decide (i = k)) as [->|Hik].
      * intros Hdb. apply Hc1. rewrite <- (flush_of_clean _ _ k b1 b' Hf2); [done| |done|done].
        by apply list_lookup_insert_eq.
      * apply (Hc2 i b' Hb' Hi). rewrite Hnp.
        assert (pos n cur i ≠ pos n cur k); [|lia]. intros Hpe. apply Hik.
        apply (pos_inj n cur); [|done..]. apply lookup_lt_Some in Hb'.
        by rewrite (proj1 Hf2), length_insert in Hb'.
Qed.

(** ** The ring: bumping, draining *)

(** The state of the pool and of the files between two operations. *)
Record ring_ok (L : list Rec) (o : nat) (synced : Z) (s : LogBufferPool * FileManager) : Prop := {
  ro_pool : pool_ok L s.1 (current_file_num s.2) o;
  ro_dirty : dirty_ok s.1;
  ro_disk : disk_ok L (buffers s.1) s.2 synced;
}.

(** The current buffer is empty. *)
Definition cur_empty (p : LogBufferPool) : Prop :=
  ∀ b, buffers p !! current_write_buffer_index p = Some b → ¬ live b.

Lemma write_dirty_ok L o synced p fm :
  log_wf L → ring_ok L o synced (p, fm) →
  ∃ p' fm', write_dirty (p, fm) = Some ((p', fm'), Ok ()) ∧ ring_ok L o synced (p', fm') ∧
    same_meta fm fm' ∧ dirty_start p' < 0 ∧ (cur_empty p → cur_empty p').
Proof.
  intros Hwf [Hp Hd Hdisk]. cbn [fst snd] in *. unfold write_dirty, bind at 1, get. cbn [fst].
  destruct (Z.ltb_spec (dirty_start p) 0) as [Hs|Hs]; [by exists p, fm|].
  destruct Hd as [Hd1 Hd2]. destruct (Hd1 Hs) as (Hsn & Hsc & Hde & Hden & Hdep).
  pose proof (po_cur _ _ _ _ Hp) as Hcur.
  destruct (write_dirty_loop_ok L synced o
      (length (buffers p) - 2 - pos (length (buffers p)) (current_write_buffer_index p) (Z.to_nat (dirty_start p)))
      (length (buffers p)) p fm (Z.to_nat (dirty_start p)))
    as (bs' & fm' & E & Hf & Hdk & Hm & Hc); try done.
  { pose proof (po_n _ _ _ _ Hp). lia. }
  { pose proof (po_n _ _ _ _ Hp). unfold pos.
    destruct (Nat.leb_spec (Z.to_nat (dirty_start p)) (current_write_buffer_index p)); lia. }
  rewrite (bind_ok _ _ _ _ _ E). exists (clear_dirty (set_buffers p bs')), fm'.
  split_and!; [done| |done|done|].
  - split; cbn [fst snd]; [|split|done].
    + rewrite (proj1 Hm). destruct (pool_ok_flush L p bs' _ o Hf Hp). by split.
    + cbn [dirty_start clear_dirty]. lia.
    + cbn [dirty_start clear_dirty buffers current_write_buffer_index set_buffers].
      rewrite (proj1 Hf). intros i b' Hb' Hi Hdb. exfalso.
      destruct (proj2 Hf i b' Hb') as (b & Hb & _).
      apply (Hc i b' Hb' Hi); [|done]. apply (Hd2 i b); [done|done|].
      by rewrite <- (flush_of_clean _ _ i b b' Hf).
  - intros He b' Hb'. cbn [buffers current_write_buffer_index clear_dirty set_buffers] in Hb'.
    destruct (proj2 Hf _ _ Hb') as (b & Hb & [-> | ->]); by apply (He b).
Qed.

Lemma reinit_ok L b : buf_ok L b → buf_ok L (reinit b).
Proof.
  intros Hb. assert (¬ live (reinit b)) as Hn by done.
  split; try (by intros ?); cbn [lb_data capacity flushed_len write_position reinit]; [apply Hb|lia].
Qed.

(** The slot after the current one is the oldest of the ring. *)
Lemma pos_bump p i :
  let n := length (buffers p) in
  let cur := current_write_buffer_index p in
  (2 ≤ n)%nat → (cur < n)%nat → (i < n)%nat → i ≠ get_next_slot p cur →
  S (pos n (get_next_slot p cur) i) = pos n cur i ∧
  pos n cur (get_next_slot p cur) = 0%nat ∧
  pos n (get_next_slot p cur) (get_next_slot p cur) = (n - 1)%nat ∧
  (get_next_slot p cur < n)%nat ∧ get_next_slot p cur ≠ cur.
Proof.
  unfold pos, get_next_slot. intros.
  destruct (Nat.ltb_spec (current_write_buffer_index p) (length (buffers p) - 1));
    repeat match goal with |- context [(?a <=? ?b)%nat] => destruct (Nat.leb_spec a b) end; lia.
Qed.

(** The ring after a bump; [start] and [m] are the new bounds. *)
Definition bumped (p : LogBufferPool) (b0 : LogBuffer) (start m : Z) : LogBufferPool :=
  {| buffers := <[get_next_slot p (current_write_buffer_index p) := reinit b0]> (buffers p);
     dirty_start := start; dirty_end := Z.of_nat (current_write_buffer_index p);
     current_write_buffer_index := get_next_slot p (current_write_buffer_index p);
     min_buffer_lsn := m |}.

Section bump.
Context (L : list Rec) (o : nat) (f : Z) (p : LogBufferPool) (b0 : LogBuffer).
Context (Hp : pool_ok L p f o)
  (H0 : buffers p !! get_next_slot p (current_write_buffer_index p) = Some b0) (Hc0 : ¬ dirty b0).

Lemma bumped_lookup start m i b :
  buffers (bumped p b0 start m) !! i = Some b →
  (i = get_next_slot p (current_write_buffer_index p) ∧ b = reinit b0) ∨
  (i ≠ get_next_slot p (current_write_buffer_index p) ∧ buffers p !! i = Some b).
Proof. intros Hb. apply list_lookup_insert_Some in Hb. naive_solver. Qed.

Lemma bumped_pool_ok start m :
  (∀ i b, i ≠ get_next_slot p (current_write_buffer_index p) → buffers p !! i = Some b → live b →
     m ≤ first_lsn b) →
  m = 0 ∨ m ∈ r_lsn <$> L →
  pool_ok L (bumped p b0 start m) f o.
Proof.
  intros Hmin Hml. pose proof Hp as [Hn Hcur Hbuf Hcurr Hord _ _ Hfile].
  split; cbn [current_write_buffer_index min_buffer_lsn bumped].
  - cbn [buffers bumped]. by rewrite length_insert.
  - cbn [buffers bumped]. rewrite length_insert. by apply lookup_lt_Some in H0.
  - intros i b [[-> ->]|[_ Hb]]%bumped_lookup; [by eapply reinit_ok, Hbuf|by apply (Hbuf i)].
  - intros b [[_ ->]|[? _]]%bumped_lookup; done.
  - intros i j a b [[-> ->]|[Hi Ha]]%bumped_lookup [[-> ->]|[Hj Hb]]%bumped_lookup Hla Hlb Hij; try done.
    cbn [buffers bumped] in Hij. rewrite length_insert in Hij. apply (Hord i j); try done.
    destruct (pos_bump p i) as (Hpi & _); [done..|by apply lookup_lt_Some in Ha|done|].
    destruct (pos_bump p j) as (Hpj & _); [done..|by apply lookup_lt_Some in Hb|done|]. lia.
  - intros i b [[-> ->]|[Hi Hb]]%bumped_lookup Hl; [done|by apply (Hmin i)].
  - done.
  - intros i b [[-> ->]|[Hi Hb]]%bumped_lookup Hd; [by unfold dirty in Hd; simpl in Hd; lia|by apply (Hfile i)].
Qed.

Lemma bumped_dirty_ok start m :
  dirty_ok p → start = (if 0 <=? dirty_start p then dirty_start p else Z.of_nat (current_write_buffer_index p)) →
  ¬ (0 ≤ dirty_start p ∧ Z.of_nat (get_next_slot p (current_write_buffer_index p)) = dirty_start p) →
  dirty_ok (bumped p b0 start m).
Proof.
  intros [Hd1 Hd2] -> Hne. pose proof Hp as [Hn Hcur _ _ _ _ _ _].
  destruct (pos_bump p (current_write_buffer_index p)) as (Hpc & Hp0 & Hpn & Hnn & Hnc); [done..| |].
  { intros E. unfold get_next_slot in E. destruct (Nat.ltb_spec (current_write_buffer_index p) (length (buffers p) - 1)); lia. }
  assert (pos (length (buffers p)) (current_write_buffer_index p) (current_write_buffer_index p) =
    (length (buffers p) - 1)%nat) as Hpcc by (unfold pos; destruct (Nat.leb_spec (current_write_buffer_index p) (current_write_buffer_index p)); lia).
  split; cbn [dirty_start dirty_end current_write_buffer_index bumped].
  - intros _. cbn [buffers bumped]. rewrite length_insert, Nat2Z.id.
    destruct (Z.leb_spec 0 (dirty_start p)) as [Hs|Hs].
    + destruct (Hd1 Hs) as (? & ? & _). split_and!; [done| |lia|done|lia]. intros E. apply Hne. lia.
    + rewrite Nat2Z.id. split_and!; [done|congruence|lia|done|lia].
  - intros i b [[-> ->]|[Hi Hb]]%bumped_lookup Hin Hd; [done|]. cbn [buffers bumped]. rewrite length_insert.
    pose proof (lookup_lt_Some _ _ _ Hb) as Hil.
    destruct (pos_bump p i) as (Hpi & _); [done..|].
    destruct (decide (i = current_write_buffer_index p)) as [->|Hic].
    + destruct (Z.leb_spec 0 (dirty_start p)) as [Hs|Hs]; [|rewrite Nat2Z.id; lia].
      destruct (Hd1 Hs) as (Hsn & Hsc & _). split; [lia|].
      destruct (pos_bump p (Z.to_nat (dirty_start p))) as (Hps & _); [done..|intros E; apply Hne; lia|].
      assert (pos (length (buffers p)) (current_write_buffer_index p) (Z.to_nat (dirty_start p)) < length (buffers p))%nat; [|lia].
      unfold pos. destruct (Nat.leb_spec (Z.to_nat (dirty_start p)) (current_write_buffer_index p)); lia.
    + destruct (Hd2 i b Hb Hic Hd) as [Hs Hle]. rewrite (proj2 (Z.leb_le _ _)) by done. split; [done|].
      destruct (Hd1 Hs) as (Hsn & Hsc & _).
      destruct (pos_bump p (Z.to_nat (dirty_start p))) as (Hps & _); [done..|intros E; apply Hne; lia|]. lia.
Qed.

Lemma bumped_disk_ok start m fm synced :
  disk_ok L (buffers p) fm synced → disk_ok L (buffers (bumped p b0 start m)) fm synced.
Proof.
  intros (Hfm & Hc & Hdur). split_and!; [done| |done]. intros g i x Hx.
  destruct (Hc g i x Hx) as [(k & b & Hb & Hu)|Hd]; [left|by right]. exists k, b. split; [|done].
  cbn [buffers bumped]. rewrite list_lookup_insert_ne; [done|]. intros <-.
  rewrite H0 in Hb. injection Hb as <-. destruct Hu as (_ & _ & ?). unfold dirty, b_end in *. lia.
Qed.

End bump.

(** The slot after the new current one is the oldest that is left. *)
Lemma bumped_min L o f p b0 i j b' :
  let next := get_next_slot p (current_write_buffer_index p) in
  pool_ok L p f o → (next < length (buffers p))%nat → next ≠ current_write_buffer_index p →
  <[next := reinit b0]> (buffers p) !! get_next_slot p next = Some i →
  j ≠ next → buffers p !! j = Some b' → live b' →
  (if is_null (first_lsn i) then min_buffer_lsn p else first_lsn i) ≤ first_lsn b'.
Proof.
  intros next Hp Hnext Hnc Hbi Hj Hb' Hl. pose proof (po_cur _ _ _ _ Hp) as Hcur.
  pose proof (po_n _ _ _ _ Hp) as Hn.
  destruct (is_null (first_lsn i)) eqn:Hni; [by apply (po_min _ _ _ _ Hp j)|].
  set (initial := get_next_slot p next) in *. pose proof (lookup_lt_Some _ _ _ Hbi) as Hi.
  rewrite length_insert in Hi.
  destruct (decide (initial = next)) as [E|Hin].
  { rewrite E, list_lookup_insert_eq in Hbi by done. by injection Hbi as <-. }
  rewrite list_lookup_insert_ne in Hbi by done.
  destruct (decide (j = initial)) as [->|Hji].
  { rewrite Hb' in Hbi. injection Hbi as ->. lia. }
  apply (po_order _ _ _ _ Hp initial j); [done..|].
  pose proof (lookup_lt_Some _ _ _ Hb') as Hjl.
  destruct (pos_bump p j) as (Hpj & _); [done..|].
  destruct (pos_next p (current_write_buffer_index p) next) as [_ Hpn]; [done..|]. fold initial in Hpn.
  destruct (pos_bump p (current_write_buffer_index p)) as (_ & Hp0 & _); [done..|exact (not_eq_sym Hnc)|].
  fold next in Hp0. rewrite Hp0 in Hpn. rewrite Hpn.
  assert (pos (length (buffers p)) (current_write_buffer_index p) j ≠ 1%nat); [|lia].
  intros E. apply Hji. apply (pos_inj (length (buffers p)) (current_write_buffer_index p)); lia.
Qed.

Lemma bump_ok L o synced p fm :
  log_wf L → ring_ok L o synced (p, fm) →
  (∃ p', bump (p, fm) = Some ((p', fm), Ok true) ∧ ring_ok L o synced (p', fm) ∧ cur_empty p') ∨
  (bump (p, fm) = Some ((p, fm), Ok false) ∧ 0 ≤ dirty_start p).
Proof.
  intros Hwf Hr. pose proof Hr as [Hp Hd Hdisk]. cbn [fst snd] in *. unfold bump, bump_current. cbn [fst snd].
  pose proof (po_cur _ _ _ _ Hp) as Hcur. pose proof (po_n _ _ _ _ Hp) as Hn.
  destruct (lookup_lt_is_Some_2 _ _ Hcur) as [b Hb]. rewrite Hb. cbn [mbind option_bind].
  destruct (is_null (first_lsn b)) eqn:Hnull.
  { left. exists p. split_and!; [done..|]. intros b' Hb'. unfold live. congruence. }
  set (next := get_next_slot p (current_write_buffer_index p)).
  assert (next < length (buffers p) ∧ next ≠ current_write_buffer_index p)%nat as [Hnext Hnc].
  { unfold next, get_next_slot.
    destruct (Nat.ltb_spec (current_write_buffer_index p) (length (buffers p) - 1)); lia. }
  destruct ((0 <=? dirty_start p) && (Z.of_nat next =? dirty_start p)) eqn:Ht.
  { right. reflect_bools. done. }
  left. destruct (lookup_lt_is_Some_2 _ _ Hnext) as [b0 H0]. rewrite H0. cbn [mbind option_bind].
  assert (¬ (0 ≤ dirty_start p ∧ Z.of_nat next = dirty_start p)) as Hne.
  { intros [? ?]. rewrite (proj2 (Z.leb_le _ _)), (proj2 (Z.eqb_eq _ _)) in Ht by done. done. }
  assert (¬ dirty b0) as Hc0.
  { intros Hdb. destruct Hd as [Hd1 Hd2]. destruct (Hd2 next b0 H0 Hnc Hdb) as [Hs Hle].
    destruct (Hd1 Hs) as (Hsn & Hsc & _).
    destruct (pos_bump p (current_write_buffer_index p)) as (_ & Hp0 & _); [done..|exact (not_eq_sym Hnc)|].
    fold next in Hp0. apply Hne. split; [done|].
    rewrite (pos_inj _ _ _ _ Hnext Hsn Hcur) by lia. lia. }
  set (initial := get_next_slot p next). set (bs := <[next := reinit b0]> (buffers p)).
  assert (initial < length bs)%nat as Hi.
  { unfold initial, get_next_slot, bs. rewrite length_insert.
    destruct (Nat.ltb_spec next (length (buffers p) - 1)); lia. }
  destruct (lookup_lt_is_Some_2 _ _ Hi) as [i Hbi]. rewrite Hbi. cbn [mbind option_bind].
  eexists (bumped p b0 _ _). split; [reflexivity|]. split; [|by intros b' [[_ ->]|[? _]]%bumped_lookup].
  split; cbn [fst snd].
  - apply bumped_pool_ok; [done..| |].
    + intros j b' Hj Hb' Hl. by apply (bumped_min L o (current_file_num fm) p b0 i j b').
    + destruct (is_null (first_lsn i)) eqn:Hni; [by apply (po_min_lsn _ _ _ _ Hp)|right].
      destruct (decide (initial = next)) as [E|Hin].
      { unfold bs in Hbi. rewrite E, list_lookup_insert_eq in Hbi by done. by injection Hbi as <-. }
      unfold bs in Hbi. rewrite list_lookup_insert_ne in Hbi by done.
      by apply (bo_lsn L i), Hni; apply (po_buf _ _ _ _ Hp initial).
  - by apply (bumped_dirty_ok L o (current_file_num fm)).
  - by apply bumped_disk_ok.
Qed.

Lemma bump_and_write_dirty_ok L o synced p fm :
  log_wf L → ring_ok L o synced (p, fm) →
  ∃ p' fm', bump_and_write_dirty (p, fm) = Some ((p', fm'), Ok ()) ∧ ring_ok L o synced (p', fm') ∧
    same_meta fm fm' ∧ dirty_start p' < 0 ∧ cur_empty p'.
Proof.
  intros Hwf Hr. unfold bump_and_write_dirty.
  destruct (bump_ok L o synced p fm Hwf Hr) as [(p1 & E & Hr1 & He)|[E Hs]]; rewrite (bind_ok _ _ _ _ _ E).
  - destruct (write_dirty_ok L o synced p1 fm Hwf Hr1) as (p2 & fm2 & E2 & ? & ? & ? & ?).
    exists p2, fm2. by split_and!; auto.
  - destruct (write_dirty_ok L o synced p fm Hwf Hr) as (p1 & fm1 & E1 & Hr1 & Hm1 & Hs1 & _).
    destruct (bump_ok L o synced p1 fm1 Hwf Hr1) as [(p2 & E2 & Hr2 & He)|[_ ?]]; [|lia].
    destruct (write_dirty_ok L o synced p2 fm1 Hwf Hr2) as (p3 & fm3 & E3 & ? & Hm3 & ? & ?).
    exists p3, fm3. split_and!; [|done|by transitivity fm1|done|auto].
    unfold bind. rewrite E1, E2. exact E3.
Qed.

(** ** Syncing *)

Lemma sync_log_end_ok L fm :
  log_wf L → fm_ok L fm →
  ∃ fm', sync_log_end fm = Some (fm', Ok ()) ∧ fm_ok L fm' ∧ same_meta fm fm' ∧
    files fm' = files fm ∧
    (∀ f, f ≠ current_file_num fm → durable fm' !! f = durable fm !! f) ∧
    (∀ d, files fm !! current_file_num fm = Some d → durable fm' !! current_file_num fm = Some d).
Proof.
  intros Hwf Hfm. unfold sync_log_end, bind at 1, get. rewrite (fo_writable L fm Hfm).
  destruct (files fm !! current_file_num fm) as [d|] eqn:Hd.
  - destruct (get_file_handle_ok fm _ d (fm_ok_open L fm Hwf Hfm) Hd) as (c & v & E).
    rewrite (bind_ok _ _ _ _ _ E). eexists. split; [reflexivity|].
    cbn [files durable set_files set_cache]. split_and!.
    + change (fm_ok L (set_cache (set_files fm (files fm) (<[current_file_num fm := d]> (durable fm))) c)).
      apply fm_ok_set; [done|by apply (fo_files L fm Hfm)|].
      intros g d' [[<- <-]|[_ Hd']]%lookup_insert_Some; [|by apply (fo_durable L fm Hfm)].
      split; [done|by apply (fo_files L fm Hfm)].
    + done.
    + done.
    + intros g Hg. by rewrite lookup_insert_ne by done.
    + intros d' [= <-]. apply lookup_insert_eq.
  - exists fm. by split_and!.
Qed.

(** With nothing left to write, a sync makes the current file durable. *)
Lemma all_stored L P fm :
  cells_ok L P (files fm) → log_wf L → (∀ f i, ¬ P f i) → ∀ r, r ∈ L → stored (files fm) r.
Proof.
  intros Hc Hwf HP r Hr j Hj. destruct (wf_place L r Hwf Hr) as (_ & _ & _ & _ & _ & _ & _ & Hcell).
  destruct (lookup_lt_is_Some_2 _ _ Hj) as [x Hx].
  destruct (Hc (r_file r) (r_off r + j)%nat x) as [Hp|(d & Hd & Hdx)]; [by rewrite Hcell|by destruct (HP _ _ Hp)|].
  exists d. by rewrite Hx.
Qed.

Lemma synced_durable L P fm fm' synced synced' :
  log_wf L → fm_ok L fm → cells_ok L P (files fm) → (∀ f i, ¬ P f i) → durable_ok L fm synced →
  (∀ f, f ≠ current_file_num fm → durable fm' !! f = durable fm !! f) →
  (∀ d, files fm !! current_file_num fm = Some d → durable fm' !! current_file_num fm = Some d) →
  current_file_num fm' = current_file_num fm →
  durable_ok L fm' synced' ∧ ∀ r, r ∈ L → stored (durable fm') r.
Proof.
  intros Hwf Hfm Hc HP Hdur Hne Heq Hcur.
  assert (∀ r, r ∈ L → stored (durable fm') r) as Hall.
  { intros r Hr. pose proof (fo_le L fm Hfm r Hr) as Hle.
    destruct (decide (r_file r = current_file_num fm)) as [E|Hn].
    - intros j Hj. destruct (all_stored L P fm Hc Hwf HP r Hr j Hj) as (d & Hd & Hx).
      exists d. split; [|done]. rewrite E in Hd |- *. by apply Heq.
    - intros j Hj. destruct (Hdur r Hr) with (j := j) as (d & Hd & Hx); [right; lia|done|].
      exists d. by rewrite Hne. }
  split; [|done]. intros r Hr _. by apply Hall.
Qed.

Lemma unflushed_dirty b f i : unflushed b f i → live b ∧ dirty b.
Proof. intros (? & _ & ?). unfold dirty, b_end in *. split; [done|lia]. Qed.

Lemma settled_no_pend L o synced p fm :
  ring_ok L o synced (p, fm) → dirty_start p < 0 → cur_empty p → ∀ f i, ¬ pend (buffers p) f i.
Proof.
  intros [_ [_ Hd] _] Hs He f i (k & b & Hb & [Hl Hdb]%unflushed_dirty). cbn [fst snd] in *.
  destruct (decide (k = current_write_buffer_index p)) as [->|Hk]; [by apply (He b)|].
  destruct (Hd k b Hb Hk Hdb). lia.
Qed.

Lemma finish_file_ok L o synced p fm :
  log_wf L → ring_ok L o synced (p, fm) → (∀ f i, ¬ pend (buffers p) f i) →
  ∃ fm', on_files sync_log_end_and_finish_file (p, fm) = Some ((p, fm'), Ok ()) ∧
    ring_ok L o synced (p, fm') ∧ same_meta fm fm' ∧ ∀ r, r ∈ L → stored (durable fm') r.
Proof.
  intros Hwf [Hp Hd (Hfm & Hc & Hdur)] Hn. cbn [fst snd] in *.
  destruct (sync_log_end_ok L fm Hwf Hfm) as (fm1 & E & Hfm1 & Hm & Hfs & Hne & Heq).
  destruct (synced_durable L _ fm fm1 synced synced Hwf Hfm Hc Hn Hdur Hne Heq (proj1 Hm)) as [Hd1 Hall].
  unfold on_files, sync_log_end_and_finish_file. cbn [fst snd]. rewrite (bind_ok _ _ _ _ _ E).
  eexists. split; [reflexivity|]. split; [|by split]. split; cbn [fst snd].
  - cbn [current_file_num set_cache]. by rewrite (proj1 Hm).
  - done.
  - split_and!; [by apply fm_ok_cache|cbn [files set_cache]; by rewrite Hfs|exact Hd1].
Qed.

Lemma current_has_room_ok L o synced p fm size :
  ring_ok L o synced (p, fm) →
  ∃ b, buffers p !! current_write_buffer_index p = Some b ∧
    current_has_room size (p, fm) = Some ((p, fm), Ok (has_room b size)).
Proof.
  intros [Hp _ _]. destruct (lookup_lt_is_Some_2 _ _ (po_cur _ _ _ _ Hp)) as [b Hb]. exists b.
  split; [done|]. unfold current_has_room, bind, get. by rewrite Hb.
Qed.

(** The buffer that an append gets: empty, or with room for the entry. *)
Definition slot_ready (p : LogBufferPool) (size : nat) (flipped : bool) : Prop :=
  ∃ b, buffers p !! current_write_buffer_index p = Some b ∧
       (¬ live b ∨ has_room b size = true ∧ flipped = false).

Lemma cur_empty_ready L o synced p fm size flipped :
  ring_ok L o synced (p, fm) → cur_empty p → slot_ready p size flipped.
Proof.
  intros [Hp _ _] He. destruct (lookup_lt_is_Some_2 _ _ (po_cur _ _ _ _ Hp)) as [b Hb].
  exists b. split; [done|left]. by apply He.
Qed.

Lemma get_write_buffer_ok L o synced p fm size flipped :
  log_wf L → ring_ok L o synced (p, fm) →
  ∃ p' fm', get_write_buffer size flipped (p, fm) =
      Some ((p', fm'), Ok (current_write_buffer_index p')) ∧
    ring_ok L o synced (p', fm') ∧ same_meta fm fm' ∧ slot_ready p' size flipped ∧
    (flipped = true → (∀ f i, ¬ pend (buffers p') f i) ∧ ∀ r, r ∈ L → stored (durable fm') r).
Proof.
  intros Hwf Hr. unfold get_write_buffer. destruct flipped.
  - destruct (bump_and_write_dirty_ok L o synced p fm Hwf Hr) as (p1 & fm1 & E1 & Hr1 & Hm1 & Hs1 & He1).
    pose proof (settled_no_pend L o synced p1 fm1 Hr1 Hs1 He1) as Hn.
    destruct (finish_file_ok L o synced p1 fm1 Hwf Hr1 Hn) as (fm2 & E2 & Hr2 & Hm2 & Hall).
    exists p1, fm2. unfold bind. rewrite E1, E2. split_and!; [done|done|by transitivity fm1| |done].
    by eapply cur_empty_ready.
  - destruct (current_has_room_ok L o synced p fm size Hr) as (b & Hb & E). unfold bind. rewrite E.
    destruct (has_room b size) eqn:Hroom.
    { exists p, fm. split_and!; [done|done|done| |done]. exists b. auto. }
    destruct (bump_ok L o synced p fm Hwf Hr) as [(p1 & E1 & Hr1 & He1)|[E1 Hs]]; rewrite E1.
    + destruct (current_has_room_ok L o synced p1 fm size Hr1) as (b1 & Hb1 & E2). rewrite E2.
      destruct (has_room b1 size) eqn:Hroom1.
      { exists p1, fm. split_and!; [done|done|done|by eapply cur_empty_ready|done]. }
      destruct (bump_and_write_dirty_ok L o synced p1 fm Hwf Hr1) as (p2 & fm2 & E3 & Hr2 & Hm2 & _ & He2).
      exists p2, fm2. rewrite E3. split_and!; [done|done|done|by eapply cur_empty_ready|done].
    + destruct (bump_and_write_dirty_ok L o synced p fm Hwf Hr) as (p2 & fm2 & E3 & Hr2 & Hm2 & _ & He2).
      exists p2, fm2. rewrite E3. split_and!; [done|done|done|by eapply cur_empty_ready|done].
Qed.

End inv.
