(* ===== verification/LogRun.v ===== *)
(** * Runs of the log manager

    An append extends the abstract log by one entry, a flush writes what the
    buffers hold, a read finds its entry in a buffer or in its file: over any
    sequence of operations every entry that was appended is read back, and what
    a sync covered is read back after a crash. *)

From stdpp Require Import sorting.
From S2P Require Import Prelude Bytes Lsn LogEntry LogFile LogBuffer WriteLog LogSpec LogInv.
Import LogFile.FileHeader (FILE_HEADER_SIZE).

Section run.
Context `{Platform}.

(** ** A longer log *)

Lemma wf_snoc_inv L r :
  log_wf (L ++ [r]) →
  log_wf L ∧ in_u 32 (r_file r) ∧ r_off r = end_off L (r_file r) ∧
  r_lsn r = Lsn_new (r_file r) (Z.of_nat (end_off L (r_file r))) ∧
  Z.of_nat (end_off L (r_file r) + length (r_bytes r)) < 2 ^ 32 ∧
  (∀ r', r' ∈ L → r_file r' ≤ r_file r) ∧ payload_ok r ∧
  (∀ x, x ∈ r_lsn <$> L → x < r_lsn r).
Proof.
  intros Hwf'. inversion Hwf' as [E|L' r' Hwf Hf Hlsn Hlt Hle _ Hprev Hp E].
  { by destruct L. }
  apply app_inj_tail in E as [-> ->].
  destruct (wf_place (L ++ [r]) r Hwf') as (_ & Hoff & Hl & _); [set_solver|].
  assert (file_offset (r_lsn r) = Z.of_nat (end_off L (r_file r))) as Ho.
  { rewrite Hlsn at 1. apply file_offset_new; [done|unfold in_u; lia]. }
  split_and!; try done.
  - unfold r_off. rewrite Ho. lia.
  - pose proof (wf_sorted _ Hwf') as Hs. rewrite fmap_app, StronglySorted_app in Hs.
    destruct Hs as [Hs _]. intros x Hx. apply Hs; set_solver.
Qed.

Lemma buf_ok_snoc L r b : log_wf (L ++ [r]) → buf_ok L b → buf_ok (L ++ [r]) b.
Proof.
  intros Hwf' Hb. destruct (wf_snoc_inv L r Hwf') as (Hwf & _ & Hoff & _).
  pose proof Hb as [Hlen Hpos Hnull Hlive Hlsn Hdata Halign]. split; try done.
  - intros Hl. rewrite fmap_app. set_solver.
  - intros Hl j Hj. rewrite (Hdata Hl j Hj).
    destruct (lookup_lt_is_Some_2 (lb_data b) j) as [x Hx]; [lia|].
    rewrite (Hdata Hl j Hj) in Hx. rewrite Hx. symmetry. by apply cell_mono.
  - intros Hl r' [Hr'| ->%list_elem_of_singleton]%elem_of_app Hf; [by apply Halign|]. left.
    rewrite Hoff, Hf. by apply live_bound.
Qed.

Lemma last_snoc_ne L r f : r_file r ≠ f → in_file f (L ++ [r]) = in_file f L.
Proof. intros Hne. unfold in_file. rewrite filter_snoc, decide_False by done. apply app_nil_r. Qed.

Lemma in_file_snoc L r : in_file (r_file r) (L ++ [r]) = in_file (r_file r) L ++ [r].
Proof. unfold in_file. by rewrite filter_snoc, decide_True. Qed.

Lemma header_snoc L r f : f ≤ r_file r → header (L ++ [r]) f = header L f.
Proof.
  intros Hf. unfold header, link, last_off. destruct (Z.ltb_spec 0 f); [|done].
  by rewrite last_snoc_ne by lia.
Qed.

Lemma fm_ok_append L fm r :
  fm_ok L fm → log_wf (L ++ [r]) →
  current_file_num fm ≤ r_file r ≤ current_file_num fm + 1 →
  Z.of_nat (length (L ++ [r])) < 2 ^ 32 - 1 →
  fm_ok (L ++ [r]) (set_last_position fm
    (Lsn_new (r_file r) (Z.of_nat (end_off (L ++ [r]) (r_file r)))) (r_lsn r)).
Proof.
  intros Hfm Hwf' Hr Hsize. destruct (wf_snoc_inv L r Hwf') as (Hwf & Hf & Hoff & Hlsn & Hlt & Hle & Hp & _).
  pose proof Hfm as [Hcl Hwr Hcur _ _ _ _ Hper Hfiles Hdurable _ Hfle].
  assert (end_off (L ++ [r]) (r_file r) = (end_off L (r_file r) + length (r_bytes r))%nat) as Hend
    by (by rewrite end_off_snoc, decide_True).
  assert (in_u 32 (Z.of_nat (end_off (L ++ [r]) (r_file r)))) as Ho by (unfold in_u; lia).
  split; cbn [closed read_only current_file_num next_available_lsn last_used_lsn per_file_last_lsn files
              durable set_last_position]; rewrite ?(file_number_new _ _ Hf Ho); try done.
  - rewrite length_app. simpl. lia.
  - lia.
  - by rewrite last_snoc.
  - intros f. fold (r_file r). destruct (decide (r_file r = f)) as [<-|Hne].
    + by rewrite lookup_insert_eq, in_file_snoc, last_snoc.
    + by rewrite lookup_insert_ne, last_snoc_ne, Hper by done.
  - intros f d Hd. destruct (Hfiles f d Hd). rewrite header_snoc by lia. split; [lia|done].
  - intros f d Hd. destruct (Hdurable f d Hd) as [[d' Hd'] ?]. destruct (Hfiles f d' Hd').
    rewrite header_snoc by lia. by rewrite Hd'.
  - intros r'. rewrite last_snoc. by intros [= <-].
  - intros r' [Hr'| ->%list_elem_of_singleton]%elem_of_app; [by apply Hle|done].
Qed.

(** ** The current buffer with one more entry *)

Definition appended (b : LogBuffer) (lsn : Z) (bytes : list Z) : LogBuffer :=
  with_position
    (with_lsns b (if is_null (first_lsn b) then lsn else first_lsn b) lsn)
    (LogEntry.write_at (write_position b) bytes (lb_data b)) (write_position b + length bytes).

Lemma write_at_lookup off bytes l i :
  (off + length bytes ≤ length l)%nat →
  LogEntry.write_at off bytes l !! i =
    (if decide (off ≤ i < off + length bytes)%nat then bytes !! (i - off)%nat else l !! i).
Proof.
  intros Hl. unfold LogEntry.write_at.
  assert (length (take off l) = off) as Ht by (rewrite length_take; lia).
  destruct (decide (i < off)%nat).
  - rewrite lookup_app_l, lookup_take_lt, decide_False by lia. done.
  - rewrite lookup_app_r, Ht by lia. destruct (decide (off ≤ i < off + length bytes)%nat).
    + by rewrite lookup_app_l by lia.
    + rewrite lookup_app_r, lookup_drop by lia. f_equal. lia.
Qed.

Lemma appended_place L r b f o :
  log_wf (L ++ [r]) → buf_ok L b →
  (live b → b_file b = f ∧ b_end b = o ∧ r_file r = f ∧ o = end_off L f) →
  live (appended b (r_lsn r) (r_bytes r)) ∧
  b_file (appended b (r_lsn r) (r_bytes r)) = r_file r ∧
  (b_off (appended b (r_lsn r) (r_bytes r)) + write_position b)%nat = end_off L (r_file r).
Proof.
  intros Hwf' Hb Hcur. destruct (wf_snoc_inv L r Hwf') as (Hwf & _ & Hoff & _).
  unfold live, b_file, b_off. cbn [first_lsn appended with_position with_lsns].
  destruct (is_null (first_lsn b)) eqn:Hn.
  - destruct (wf_lsn (L ++ [r]) r Hwf') as [_ ?]; [set_solver|].
    destruct (bo_null L b Hb) as [Hw _]; [unfold live; congruence|].
    split_and!; [done|done|]. rewrite Hw. fold (r_off r). lia.
  - destruct (Hcur Hn) as (Hf & He & Hr & ->). split_and!; [done|by rewrite Hr|].
    rewrite Hr. exact He.
Qed.

Lemma appended_ok L r b f o :
  log_wf (L ++ [r]) → buf_ok L b → (write_position b + length (r_bytes r) ≤ capacity b)%nat →
  (live b → b_file b = f ∧ b_end b = o ∧ r_file r = f ∧ o = end_off L f) →
  buf_ok (L ++ [r]) (appended b (r_lsn r) (r_bytes r)).
Proof.
  intros Hwf' Hb Hroom Hcur. destruct (wf_snoc_inv L r Hwf') as (Hwf & _ & Hoff & _ & _ & _ & Hp & _).
  pose proof (r_bytes_pos r Hp) as Hpos.
  destruct (appended_place L r b f o Hwf' Hb Hcur) as (Hl & Hfile & Hend).
  pose proof (buf_ok_snoc L r b Hwf' Hb) as Hb'. pose proof (bo_len L b Hb) as Hlen.
  destruct (bo_pos L b Hb) as [Hfl Hc].
  set (b' := appended _ _ _) in *.
  assert (live b → b_off b' = b_off b) as Hoffb.
  { intros Hlb. unfold b_off, b'. cbn [first_lsn appended with_position with_lsns]. by rewrite Hlb. }
  split.
  - cbn [lb_data b' appended with_position capacity with_lsns].
    rewrite length_write_at; [done|]. by rewrite Hlen.
  - cbn [flushed_len write_position capacity b' appended with_position with_lsns]. lia.
  - intros Hn. by destruct (Hn Hl).
  - intros _. cbn [write_position b' appended with_position with_lsns]. lia.
  - intros _. cbn [first_lsn last_lsn b' appended with_position with_lsns]. rewrite fmap_app.
    destruct (is_null (first_lsn b)) eqn:Hn; [set_solver|].
    destruct (bo_lsn L b Hb Hn). set_solver.
  - intros _ j Hj. rewrite Hfile.
    cbn [lb_data write_position b' appended with_position with_lsns] in Hj |- *.
    rewrite write_at_lookup by lia. destruct (decide (_ ≤ j < _)%nat) as [Hin|Hout].
    + rewrite <- (cell_snoc_new L r) by lia. f_equal. lia.
    + destruct (decide (live b)) as [Hlb|Hlb].
      * rewrite (bo_data _ _ Hb' Hlb) by lia. destruct (Hcur Hlb) as (-> & _ & -> & _).
        by rewrite Hoffb.
      * destruct (bo_null L b Hb Hlb). lia.
  - intros _ r' Hr' Hrf. rewrite Hfile in Hrf.
    unfold b_end in *. cbn [write_position b' appended with_position with_lsns].
    apply elem_of_app in Hr' as [Hr'| ->%list_elem_of_singleton]; [|right; right; lia].
    destruct (wf_place L r' Hwf Hr') as (_ & _ & _ & Hp' & _ & Hle & _). rewrite Hrf in Hle.
    pose proof (r_bytes_pos r' Hp').
    destruct (decide (live b)) as [Hlb|Hlb]; [|destruct (bo_null L b Hb Hlb); right; left; lia].
    destruct (Hcur Hlb) as (Hbf & Hbe & Hrf' & ->).
    rewrite (Hoffb Hlb) in *. rewrite Hrf' in *.
    unfold b_end in *. destruct (bo_align _ _ Hb Hlb r' Hr') as [?|?]; [congruence|unfold b_end in *; lia|].
    right. unfold b_end in *. lia.
Qed.

(** ** The ring and the files after an append *)

Lemma no_pend_clean L f o p :
  pool_ok L p f o → (∀ g i, ¬ pend (buffers p) g i) →
  ∀ k b, buffers p !! k = Some b → ¬ dirty b.
Proof.
  intros Hp Hn k b Hb Hd. pose proof (po_buf _ _ _ _ Hp k b Hb) as Hbo.
  apply (Hn (b_file b) (b_off b + flushed_len b)%nat). exists k, b. split; [done|].
  split_and!; [by apply (dirty_live L)|done|lia|]. unfold dirty, b_end in *. lia.
Qed.

(** The place of the new entry: in the current file, or the first of the next
    one, with nothing left to write in the old one. *)
Record new_place (L : list Rec) (r : Rec) (p : LogBufferPool) (fm : FileManager) : Prop := {
  np_wf : log_wf (L ++ [r]);
  np_file : r_file r = current_file_num fm ∨
    r_file r = current_file_num fm + 1 ∧ (∀ g i, ¬ pend (buffers p) g i) ∧
    ∀ r', r' ∈ L → stored (durable fm) r';
  np_size : Z.of_nat (length (L ++ [r])) < 2 ^ 32 - 1;
}.

Lemma pool_ok_append L r p f o b b' :
  log_wf (L ++ [r]) → pool_ok L p f o → buffers p !! current_write_buffer_index p = Some b →
  (r_file r = f ∨ ∀ g i, ¬ pend (buffers p) g i) →
  buf_ok (L ++ [r]) b' →
  (live b' → b_file b' = r_file r ∧ b_end b' = end_off (L ++ [r]) (r_file r) ∧
             (live b ∧ first_lsn b' = first_lsn b ∨ first_lsn b' = r_lsn r)) →
  pool_ok (L ++ [r]) (set_buffers p (<[current_write_buffer_index p := b']> (buffers p)))
    (r_file r) (end_off (L ++ [r]) (r_file r)).
Proof.
  intros Hwf' Hp Hb Hclean Hb' Hl'. destruct (wf_snoc_inv L r Hwf') as (Hwf & _ & _ & _ & _ & _ & _ & Hlt).
  pose proof Hp as [Hn Hcur Hbuf _ Hord Hmin Hml Hfile].
  assert (∀ i c, <[current_write_buffer_index p := b']> (buffers p) !! i = Some c →
    i = current_write_buffer_index p ∧ c = b' ∨ i ≠ current_write_buffer_index p ∧ buffers p !! i = Some c) as Hlk.
  { intros i c Hc. apply list_lookup_insert_Some in Hc. naive_solver. }
  assert (∀ i c, buffers p !! i = Some c → live c → first_lsn c < r_lsn r) as Hold.
  { intros i c Hc Hlc. apply Hlt. by apply (bo_lsn L c (Hbuf i c Hc)). }
  split; cbn [buffers current_write_buffer_index min_buffer_lsn set_buffers]; rewrite ?length_insert; try done.
  - intros i c [[-> ->]|[_ Hc]]%Hlk; [done|]. by apply buf_ok_snoc, (Hbuf i).
  - intros c [[_ ->]|[? _]]%Hlk Hl; [|done]. by destruct (Hl' Hl) as (? & ? & _).
  - intros i j a c [[-> ->]|[Hi Ha]]%Hlk [[-> ->]|[Hj Hc]]%Hlk Hla Hlc Hij; [lia| | |by apply (Hord i j)].
    + apply lookup_lt_Some in Hc. unfold pos in Hij. exfalso.
      destruct (Nat.leb_spec (current_write_buffer_index p) (current_write_buffer_index p)),
        (Nat.leb_spec j (current_write_buffer_index p)); lia.
    + destruct (Hl' Hlc) as (_ & _ & [[Hlb ->]| ->]); [by apply (Hord i (current_write_buffer_index p))|].
      pose proof (Hold i a Ha Hla). lia.
  - intros i c [[-> ->]|[_ Hc]]%Hlk Hl; [|by apply (Hmin i)].
    destruct (Hl' Hl) as (_ & _ & [[Hlb ->]| ->]); [by apply (Hmin _ _ Hb)|].
    destruct (wf_lsn (L ++ [r]) r Hwf') as [[? _] _]; [set_solver|].
    destruct Hml as [-> |Hml]; [done|]. pose proof (Hlt _ Hml). lia.
  - rewrite fmap_app. set_solver.
  - intros i c [[-> ->]|[_ Hc]]%Hlk Hd.
    + by apply Hl', (dirty_live (L ++ [r])).
    + destruct Hclean as [-> |Hclean]; [by apply (Hfile i)|].
      by destruct (no_pend_clean L f o p Hp Hclean i c Hc).
Qed.

Lemma dirty_ok_current p b' :
  dirty_ok p → dirty_ok (set_buffers p (<[current_write_buffer_index p := b']> (buffers p))).
Proof.
  intros [Hd1 Hd2]. split; cbn [buffers dirty_start dirty_end current_write_buffer_index set_buffers];
    rewrite length_insert; [done|].
  intros i b Hb Hi. rewrite list_lookup_insert_ne in Hb by done. by apply Hd2.
Qed.

Lemma durable_ok_append L r fm p synced next :
  new_place L r p fm → durable_ok L fm synced → synced ≤ r_lsn r →
  file_number next = r_file r →
  durable_ok (L ++ [r]) (set_last_position fm next (r_lsn r)) synced.
Proof.
  intros [_ Hf _] Hdur Hs Hn r' [Hr'| ->%list_elem_of_singleton]%elem_of_app Hor;
    cbn [current_file_num durable set_last_position] in *; rewrite Hn in Hor; [|lia].
  destruct Hf as [Hf|(Hf & _ & Hall)]; [|by apply Hall]. apply Hdur; [done|]. by rewrite <- Hf.
Qed.

Lemma cells_buffered L r p fm b :
  log_wf (L ++ [r]) → pool_ok L p (current_file_num fm) (end_off L (current_file_num fm)) →
  cells_ok L (pend (buffers p)) (files fm) →
  buffers p !! current_write_buffer_index p = Some b →
  (live b → r_file r = current_file_num fm) →
  cells_ok (L ++ [r])
    (pend (<[current_write_buffer_index p := appended b (r_lsn r) (r_bytes r)]> (buffers p))) (files fm).
Proof.
  intros Hwf' Hp Hc Hb Hlive f i x Hx. pose proof (po_cur _ _ _ _ Hp) as Hcur.
  pose proof (po_buf _ _ _ _ Hp _ _ Hb) as Hbo. destruct (bo_pos L b Hbo) as [Hfl _].
  destruct (appended_place L r b (current_file_num fm) (end_off L (current_file_num fm)) Hwf' Hbo)
    as (Hl & Hfile & Hend).
  { intros Hlb. destruct (po_current _ _ _ _ Hp b Hb Hlb). auto. }
  set (b' := appended _ _ _) in *.
  assert (write_position b' = write_position b + length (r_bytes r))%nat as Hw' by done.
  assert (flushed_len b' = flushed_len b) as Hf' by done.
  apply cell_snoc_inv in Hx as [Hx|(-> & Hi & _)].
  - destruct (Hc f i x Hx) as [(k & c & Hk & Hu)|?]; [left|by right].
    destruct (decide (k = current_write_buffer_index p)) as [->|Hne].
    + exists (current_write_buffer_index p), b'. rewrite list_lookup_insert_eq by done. split; [done|].
      rewrite Hb in Hk. injection Hk as <-. destruct Hu as (Hlb & <- & Hr). unfold unflushed, b_end in *.
      assert (b_off b' = b_off b) as -> by (unfold b_off, b'; cbn [first_lsn appended with_position with_lsns]; by rewrite Hlb).
      split_and!; [done| |lia|lia]. rewrite Hfile, (Hlive Hlb). symmetry. by apply (po_current _ _ _ _ Hp).
    + exists k, c. by rewrite list_lookup_insert_ne by done.
  - left. exists (current_write_buffer_index p), b'. rewrite list_lookup_insert_eq by done.
    split; [done|]. unfold unflushed, b_end. split_and!; [done|done|lia|lia].
Qed.

(** ** An append *)

Lemma ring_force L o synced p fm b : ring_ok L o synced (p, fm) → ring_ok L o synced (p, set_force fm b).
Proof.
  intros [Hp Hd (Hfm & Hc & Hdur)]. split; [done|done|]. split_and!; [|done|done].
  destruct Hfm. by split.
Qed.

Lemma wf_last_file L r0 r : log_wf L → last L = Some r0 → r ∈ L → r_file r ≤ r_file r0.
Proof.
  intros Hwf Hl Hr. apply last_Some in Hl as [L0 ->].
  destruct (wf_snoc_inv L0 r0 Hwf) as (_ & _ & _ & _ & _ & Hle & _).
  apply elem_of_app in Hr as [Hr| ->%list_elem_of_singleton]; [by apply Hle|done].
Qed.

Lemma no_entries_last_off L g : (∀ r, r ∈ L → r_file r ≠ g) → in_file g L = [].
Proof.
  intros Hn. unfold in_file. induction L as [|r L IH]; [done|].
  rewrite filter_cons, decide_False by (apply Hn; left). apply IH. intros r' ?. apply Hn. by right.
Qed.

(** The offset of the previous entry that an append computes. *)
Lemma prev_offset_ok L g :
  log_wf L → (∀ r, r ∈ L → r_file r ≤ g) →
  let last_used := from_option r_lsn NULL_LSN (last L) in
  (if is_null last_used || negb (file_number last_used =? g) then 0 else file_offset last_used) =
  last_off L g.
Proof.
  intros Hwf Hle. cbv zeta. destruct (last L) as [r0|] eqn:Hl; cbn [from_option].
  - assert (r0 ∈ L) as Hr0 by (by apply last_Some_elem_of).
    destruct (wf_lsn L r0 Hwf Hr0) as [_ ->]. cbn [orb]. fold (r_file r0).
    destruct (Z.eqb_spec (r_file r0) g) as [<-|Hne]; cbn [negb].
    + apply last_Some in Hl as [L0 ->]. unfold last_off. by rewrite in_file_snoc, last_snoc.
    + unfold last_off. rewrite no_entries_last_off; [done|]. intros r Hr.
      pose proof (wf_last_file L r0 r Hwf Hl Hr). pose proof (Hle r0 Hr0). lia.
  - apply last_None in Hl as ->. done.
Qed.

(** Appends of the entry [r] to the current buffer, or straight to its file. *)
Lemma buffered_ring L r p fm b synced :
  new_place L r p fm → ring_ok L (end_off L (current_file_num fm)) synced (p, fm) → synced ≤ r_lsn r →
  buffers p !! current_write_buffer_index p = Some b → (live b → r_file r = current_file_num fm) →
  (write_position b + length (r_bytes r) ≤ capacity b)%nat →
  ring_ok (L ++ [r]) (end_off (L ++ [r]) (r_file r)) synced
    (set_buffers p (<[current_write_buffer_index p := appended b (r_lsn r) (r_bytes r)]> (buffers p)),
     set_last_position fm (Lsn_new (r_file r) (Z.of_nat (end_off (L ++ [r]) (r_file r)))) (r_lsn r)).
Proof.
  intros Hnp [Hp Hd (Hfm & Hc & Hdur)] Hs Hb Hlive Hroom. cbn [fst snd] in *.
  pose proof Hnp as [Hwf' Hfile Hsize].
  destruct (wf_snoc_inv L r Hwf') as (Hwf & Hf & Hoff & _ & Hlt & _ & Hpl & _).
  pose proof (po_buf _ _ _ _ Hp _ _ Hb) as Hbo.
  assert (end_off (L ++ [r]) (r_file r) = (end_off L (r_file r) + length (r_bytes r))%nat) as Hend
    by (by rewrite end_off_snoc, decide_True).
  assert (file_number (Lsn_new (r_file r) (Z.of_nat (end_off (L ++ [r]) (r_file r)))) = r_file r) as Hnum
    by (apply file_number_new; [done|unfold in_u; lia]).
  assert (live b → b_file b = current_file_num fm ∧ b_end b = end_off L (current_file_num fm) ∧
    r_file r = current_file_num fm ∧ end_off L (current_file_num fm) = end_off L (current_file_num fm)) as Hcur.
  { intros Hlb. destruct (po_current _ _ _ _ Hp b Hb Hlb). auto. }
  split; cbn [fst snd].
  - cbn [current_file_num set_last_position]. rewrite Hnum.
    apply (pool_ok_append L r p (current_file_num fm) (end_off L (current_file_num fm)) b); try done.
    + destruct Hfile as [?|(_ & ? & _)]; auto.
    + by eapply appended_ok.
    + intros Hl. destruct (appended_place L r b _ _ Hwf' Hbo Hcur) as (_ & Hbf & Hbe).
      split_and!; [done| |].
      * unfold b_end. cbn [write_position appended with_position with_lsns]. lia.
      * cbn [first_lsn appended with_position with_lsns]. unfold live.
        destruct (is_null (first_lsn b)); auto.
  - by apply dirty_ok_current.
  - split_and!.
    + apply fm_ok_append; try done. destruct Hfile as [?|(? & _)]; lia.
    + exact (cells_buffered L r p fm b Hwf' Hp Hc Hb Hlive).
    + by apply (durable_ok_append L r fm p).
Qed.

Lemma oversized_ring L r p fm b synced :
  new_place L r p fm → ring_ok L (end_off L (current_file_num fm)) synced (p, fm) → synced ≤ r_lsn r →
  buffers p !! current_write_buffer_index p = Some b → ¬ live b →
  let fm1 := set_last_position fm (Lsn_new (r_file r) (Z.of_nat (end_off (L ++ [r]) (r_file r)))) (r_lsn r) in
  ∃ fm', write_buffer_to_file (r_file r) (r_bytes r) (file_offset (r_lsn r)) fm1 = Some (fm', Ok ()) ∧
    ring_ok (L ++ [r]) (end_off (L ++ [r]) (r_file r)) synced (p, fm') ∧ same_meta fm1 fm'.
Proof.
  intros Hnp [Hp Hd (Hfm & Hc & Hdur)] Hs Hb Hlive fm1. cbn [fst snd] in *.
  pose proof Hnp as [Hwf' Hfile Hsize].
  destruct (wf_snoc_inv L r Hwf') as (Hwf & Hf & Hoff & Hlsn & Hlt & _ & Hpl & _).
  assert (end_off (L ++ [r]) (r_file r) = (end_off L (r_file r) + length (r_bytes r))%nat) as Hend
    by (by rewrite end_off_snoc, decide_True).
  assert (file_number (Lsn_new (r_file r) (Z.of_nat (end_off (L ++ [r]) (r_file r)))) = r_file r) as Hnum
    by (apply file_number_new; [done|unfold in_u; lia]).
  assert (fm_ok (L ++ [r]) fm1) as Hfm1.
  { apply fm_ok_append; try done. destruct Hfile as [?|(? & _)]; lia. }
  assert (current_file_num fm1 = r_file r) as Hcur1 by (cbn [current_file_num set_last_position fm1]; done).
  destruct (wf_place (L ++ [r]) r Hwf') as (_ & Hro & _ & _ & Hge & _); [set_solver|].
  destruct (disk_write (L ++ [r])
    (λ f i, pend (buffers p) f i ∨ f = r_file r ∧ (r_off r ≤ i < r_off r + length (r_bytes r))%nat)
    (pend (buffers p)) fm1 (r_file r) (r_off r) (r_bytes r) synced)
    as (fm' & E & Hfm' & Hc' & Hdur' & Hm); try done.
  - rewrite Hcur1. unfold in_u in Hf. lia.
  - intros j Hj. rewrite Hoff. by apply cell_snoc_new.
  - intros f i x [Hx|(-> & Hi & _)]%cell_snoc_inv; [|left; right; rewrite Hoff; done].
    destruct (Hc f i x Hx) as [?|?]; auto.
  - by apply (durable_ok_append L r fm p).
  - tauto.
  - exists fm'. rewrite Hro. split_and!; [done| |done]. split; cbn [fst snd]; [|done|by split_and!].
    rewrite (proj1 Hm), Hcur1.
    assert (set_buffers p (<[current_write_buffer_index p := b]> (buffers p)) = p) as <-.
    { rewrite list_insert_id by done. by destruct p. }
    apply (pool_ok_append L r p (current_file_num fm) (end_off L (current_file_num fm)) b); try done.
    + destruct Hfile as [?|(_ & ? & _)]; auto.
    + by apply buf_ok_snoc, (po_buf _ _ _ _ Hp _ _ Hb).
Qed.

(** The decision of [assign_slot] to begin a new file, and the new entry. *)
Definition flips (fm : FileManager) (size : nat) : bool :=
  force_new_file fm ||
  (max_file_size fm <? file_offset (next_available_lsn fm) + Z.of_nat size).

Definition new_rec (L : list Rec) (fm : FileManager) (t : LogEntryType) (payload : list Z)
    (prov : Provisional) (v : option Z) : Rec :=
  let g := if flips fm (r_header_size v + length payload) then current_file_num fm + 1
           else current_file_num fm in
  {| r_lsn := Lsn_new g (Z.of_nat (end_off L g)); r_type := t; r_payload := payload; r_prov := prov;
     r_vlsn := v; r_prev := last_off L g |}.

Section new_entry.
Context (L : list Rec) (fm : FileManager) (t : LogEntryType) (payload : list Z) (prov : Provisional)
  (v : option Z).
Context (Hwf : log_wf L) (Hfm : fm_ok L fm) (Hpl : Z.of_nat (length payload) ≤ MAX_PAYLOAD)
  (Hmax : max_file_size fm < 2 ^ 32) (Hlen : Z.of_nat (length L) + 1 < 2 ^ 32 - 1).

Let size := (r_header_size v + length payload)%nat.
Let r := new_rec L fm t payload prov v.
Let g := if flips fm size then current_file_num fm + 1 else current_file_num fm.

Lemma next_offset :
  file_number (next_available_lsn fm) = current_file_num fm ∧
  file_offset (next_available_lsn fm) = Z.of_nat (end_off L (current_file_num fm)).
Proof.
  pose proof (fo_cur L fm Hfm). pose proof (fo_size L fm Hfm). pose proof (fo_end L fm Hfm).
  rewrite (fo_next L fm Hfm). split; [apply file_number_new|apply file_offset_new]; unfold in_u; lia.
Qed.

Lemma new_file_empty : end_off L (current_file_num fm + 1) = FILE_HEADER_SIZE.
Proof.
  unfold end_off, body. rewrite no_entries_last_off; [done|].
  intros r' Hr'. pose proof (fo_le L fm Hfm r' Hr'). lia.
Qed.

Lemma new_end : Z.of_nat (end_off L g + size) < 2 ^ 32.
Proof.
  assert (size ≤ 22 + length payload)%nat as Hs by (unfold size; destruct v; simpl; lia).
  unfold MAX_PAYLOAD in Hpl. unfold g, flips. destruct (_ || _) eqn:E.
  - rewrite new_file_empty. change FILE_HEADER_SIZE with 36%nat. lia.
  - apply orb_false_iff in E as [_ E]. reflect_bools. rewrite (proj2 next_offset) in E. lia.
Qed.

Lemma new_file_num : in_u 32 g ∧ current_file_num fm ≤ g ≤ current_file_num fm + 1.
Proof.
  pose proof (fo_cur L fm Hfm). pose proof (fo_size L fm Hfm). unfold g, in_u. destruct (flips _ _); lia.
Qed.

Lemma new_rec_wf :
  log_wf (L ++ [r]) ∧ r_file r = g ∧ length (r_bytes r) = size ∧
  file_offset (r_lsn r) = Z.of_nat (end_off L g).
Proof.
  destruct new_file_num as [Hg Hle]. pose proof new_end as He.
  assert (in_u 32 (Z.of_nat (end_off L g))) as Ho by (unfold in_u; lia).
  assert (r_file r = g) as Hf by (by apply file_number_new).
  assert (length (r_bytes r) = size) as Hsize by (by apply length_r_bytes).
  split_and!; [|done|done|by apply file_offset_new].
  constructor; rewrite ?Hf, ?Hsize; try done.
  - intros r' Hr'. pose proof (fo_le L fm Hfm r' Hr'). lia.
  - intros r' Hr'. rewrite (fo_last_file L fm Hfm r' Hr'). lia.
Qed.

(** What [assign_slot] computes. *)
Lemma assigned_lsn :
  (if flips fm size then as_u 32 (file_number (next_available_lsn fm) + 1)
   else file_number (next_available_lsn fm)) = g ∧
  (if flips fm size then Lsn_new g first_log_entry_offset else next_available_lsn fm) = r_lsn r.
Proof.
  pose proof (fo_cur L fm Hfm). unfold r, new_rec, g. cbn [r_lsn]. fold size.
  rewrite (proj1 next_offset), (fo_next L fm Hfm). pose proof new_file_empty as En.
  destruct (flips fm size); [rewrite En|].
  - by rewrite as_u_id by (unfold in_u; lia).
  - done.
Qed.

Lemma assigned_next :
  Lsn_new g (as_u 32 (file_offset (r_lsn r) + as_u 32 (Z.of_nat size))) =
  Lsn_new (r_file r) (Z.of_nat (end_off (L ++ [r]) (r_file r))).
Proof.
  destruct new_rec_wf as (_ & Hf & Hs & Ho). pose proof new_end. rewrite Hf, Ho, end_off_snoc, decide_True, Hs by done.
  rewrite !as_u_id by (rewrite ?as_u_id; unfold in_u; lia). f_equal. lia.
Qed.

Lemma assigned_prev :
  (if is_null (last_used_lsn fm) || negb (file_number (last_used_lsn fm) =? g) then 0
   else file_offset (last_used_lsn fm)) = r_prev r.
Proof.
  rewrite (fo_last L fm Hfm). destruct new_file_num as [_ Hle]. apply prev_offset_ok; [done|].
  intros r' Hr'. pose proof (fo_le L fm Hfm r' Hr'). lia.
Qed.

Lemma new_rec_after : next_available_lsn fm ≤ r_lsn r.
Proof.
  pose proof (fo_cur L fm Hfm). pose proof (fo_end L fm Hfm). destruct new_file_num as [Hg Hle].
  pose proof new_end. rewrite (fo_next L fm Hfm). unfold r, new_rec. cbn [r_lsn]. fold size g.
  rewrite !Lsn_new_add by (unfold in_u in *; lia).
  destruct (decide (g = current_file_num fm)) as [->|Hne]; lia.
Qed.

End new_entry.

(** What an operation leaves alone in the log manager. *)
Definition same_config (l l' : LogManager) : Prop :=
  max_file_size (file_manager l') = max_file_size (file_manager l) ∧
  checksum_on_read l' = checksum_on_read l.

#[export] Instance same_config_preorder : PreOrder same_config.
Proof. unfold same_config. split; red; naive_solver congruence. Qed.

Lemma inv_ring L l :
  Inv L l →
  ring_ok L (end_off L (current_file_num (file_manager l))) (last_synced_lsn l)
    (buffer_pool l, file_manager l).
Proof. intros []. by split. Qed.

Lemma ring_inv L l s :
  log_wf L → ring_ok L (end_off L (current_file_num s.2)) (last_synced_lsn l) s →
  last_synced_lsn l ≤ next_available_lsn s.2 → io_invalid l = false → Inv L (with_pool l s).
Proof. intros Hwf [Hp Hd (Hfm & Hc & Hdur)] Hs Hv. by split. Qed.

(** [register_lsn] accepts an LSN after all others. *)
Lemma register_ok L r b pos :
  log_wf (L ++ [r]) → buf_ok L b →
  register_lsn (with_position b (lb_data b) pos) (r_lsn r) =
    Some (with_lsns (with_position b (lb_data b) pos)
            (if is_null (first_lsn b) then r_lsn r else first_lsn b) (r_lsn r)).
Proof.
  intros Hwf' Hb. destruct (wf_snoc_inv L r Hwf') as (Hwf & _ & _ & _ & _ & _ & _ & Hlt).
  unfold register_lsn. cbn [last_lsn first_lsn with_position].
  destruct (is_null (last_lsn b)) eqn:Hl; [done|].
  assert (live b) as Hlb.
  { unfold live. destruct (is_null (first_lsn b)) eqn:E; [|done].
    destruct (bo_null L b Hb) as [_ ?]; [unfold live; congruence|congruence]. }
  destruct (bo_lsn L b Hb Hlb) as [_ Hlast].
  destruct (wf_lsn_elem L _ Hwf Hlast) as [H1 H2]. destruct (wf_lsn (L ++ [r]) r Hwf') as [H3 H4]; [set_solver|].
  unfold lsn_gt. rewrite lsn_lt_valid by (by apply u64_valid_lsn).
  rewrite (proj2 (Z.ltb_lt _ _)); [done|]. by apply Hlt.
Qed.

Section append.
Context (L : list Rec) (l : LogManager) (t : LogEntryType) (payload : list Z) (prov : Provisional)
  (v : option Z) (buf : list Z).
Context (Hinv : Inv L l) (Hpl : Z.of_nat (length payload) ≤ MAX_PAYLOAD)
  (Hbuf : marshal t payload prov v = Some buf) (Hmax : max_file_size (file_manager l) < 2 ^ 32)
  (Hlen : Z.of_nat (length L) + 1 < 2 ^ 32 - 1).

Let fm := file_manager l.
Let r := new_rec L fm t payload prov v.
Let size := (r_header_size v + length payload)%nat.

(** The slot, and the state before the bytes are put in place. *)
Lemma assign_slot_ok :
  ∃ p1 fm1 b, get_write_buffer size (flips fm size) (buffer_pool l, set_force fm false) =
      Some ((p1, fm1), Ok (current_write_buffer_index p1)) ∧
    ring_ok L (end_off L (current_file_num fm1)) (last_synced_lsn l) (p1, fm1) ∧
    same_meta (set_force fm false) fm1 ∧ new_place L r p1 fm1 ∧
    buffers p1 !! current_write_buffer_index p1 = Some b ∧
    (¬ live b ∨ has_room b size = true) ∧ (live b → r_file r = current_file_num fm1) ∧
    let fm2 := set_last_position fm1
      (Lsn_new (r_file r) (Z.of_nat (end_off (L ++ [r]) (r_file r)))) (r_lsn r) in
    assign_slot size l =
      match allocate b size with
      | Some (b', off) =>
          Some (with_pool l
            (set_buffers p1 (<[current_write_buffer_index p1 :=
               with_lsns b' (if is_null (first_lsn b) then r_lsn r else first_lsn b) (r_lsn r)]> (buffers p1)),
             fm2),
            Ok {| sr_lsn := r_lsn r; sr_prev_offset := r_prev r;
                  sr_placement := Buffered (current_write_buffer_index p1) off |})
      | None =>
          Some (with_pool l (p1, fm2),
            Ok {| sr_lsn := r_lsn r; sr_prev_offset := r_prev r;
                  sr_placement := Oversized (r_file r) (file_offset (r_lsn r)) |})
      end.
Proof.
  pose proof (i_wf L l Hinv) as Hwf. pose proof (i_fm L l Hinv) as Hfm. fold fm in Hfm, Hmax.
  destruct (new_rec_wf L fm t payload prov v Hwf Hfm Hpl Hmax Hlen) as (Hwf' & Hf & Hsize & Ho).
  fold r size in Hwf', Hf, Hsize, Ho.
  destruct (get_write_buffer_ok L _ _ _ _ size (flips fm size) Hwf
    (ring_force _ _ _ _ _ false (inv_ring L l Hinv))) as (p1 & fm1 & E & Hr1 & Hm & (b & Hb & Hready) & Hflip).
  fold fm in E, Hm, Hr1. assert (current_file_num fm1 = current_file_num fm) as Hc1 by apply Hm.
  exists p1, fm1, b.
  assert (live b → r_file r = current_file_num fm1) as Hlive.
  { intros Hlb. destruct Hready as [?|[_ Hnf]]; [done|]. by rewrite Hf, Hnf, Hc1. }
  split_and!; [done|by rewrite Hc1|done| |done|naive_solver|done|].
  - split; [done| |rewrite length_app; simpl; lia].
    rewrite Hf, Hc1. destruct (flips fm size); [right|by left]. by destruct Hflip.
  - intros fm2. destruct (assigned_lsn L fm t payload prov v Hfm Hlen) as [Eg El]. fold r size in Eg, El.
    pose proof (assigned_next L fm t payload prov v Hwf Hfm Hpl Hmax Hlen) as En.
    pose proof (assigned_prev L fm t payload prov v Hwf Hfm Hlen) as Ep. fold r size in En, Ep.
    rewrite <- Hf in Eg, El, En, Ep.
    unfold assign_slot, bind at 1, get at 1. cbn [take_force_new_file]. fold fm.
    change (max_file_size (set_force fm false)) with (max_file_size fm).
    fold (flips fm size). rewrite Eg, El.
    change (last_used_lsn (set_force fm false)) with (last_used_lsn fm). rewrite Ep, En.
    unfold bind, modify, get, on_pool_files. cbn [buffer_pool file_manager with_pool fst snd].
    rewrite E. cbn [buffer_pool file_manager with_pool fst snd]. rewrite Hb.
    unfold unwrap at 1, ret at 1. unfold allocate. destruct (_ <? _)%nat; [done|].
    rewrite (register_ok L) by (done || by apply (po_buf _ _ _ _ (ro_pool _ _ _ _ Hr1) _ _ Hb)).
    reflexivity.
Qed.

Lemma append_ok :
  ∃ l1 slot l', assign_slot (length buf) l = Some (l1, Ok slot) ∧
    place (sr_placement slot) (finish buf (sr_prev_offset slot)) l1 = Some (l', Ok ()) ∧
    sr_lsn slot = r_lsn r ∧ Inv (L ++ [r]) l' ∧ same_config l l' ∧
    last_synced_lsn l' = last_synced_lsn l.
Proof.
  pose proof (i_wf L l Hinv) as Hwf. pose proof (i_fm L l Hinv) as Hfm. fold fm in Hfm.
  assert (length buf = size) as Hlb by (by apply (length_marshal t payload prov v)).
  destruct assign_slot_ok as (p1 & fm1 & b & _ & Hr1 & Hm & Hnp & Hb & Hready & Hlive & Ea).
  rewrite Hlb.
  destruct (new_rec_wf L fm t payload prov v Hwf Hfm Hpl Hmax Hlen) as (Hwf' & _ & Hsize & _).
  fold r size in Hwf', Hsize.
  assert (finish buf (r_prev r) = r_bytes r) as Hfin.
  { unfold r_bytes, r, new_rec. cbn [r_type r_payload r_prov r_vlsn r_prev]. by rewrite Hbuf. }
  pose proof (po_buf _ _ _ _ (ro_pool _ _ _ _ Hr1) _ _ Hb) as Hbo.
  assert (next_available_lsn fm ≤ r_lsn r) as Hafter
    by (by apply new_rec_after).
  pose proof (i_synced L l Hinv) as Hs. fold fm in Hs.
  destruct (wf_snoc_inv L r Hwf') as (_ & Hf32 & _ & Hlsn & Hlt & _).
  assert (last_synced_lsn l ≤ Lsn_new (r_file r) (Z.of_nat (end_off (L ++ [r]) (r_file r)))) as Hs'.
  { rewrite end_off_snoc, decide_True by done. rewrite Hlsn in Hafter.
    rewrite Lsn_new_add in Hafter |- * by (unfold in_u in *; lia). lia. }
  assert (file_number (Lsn_new (r_file r) (Z.of_nat (end_off (L ++ [r]) (r_file r)))) = r_file r) as Hnum.
  { apply file_number_new; [done|]. rewrite end_off_snoc, decide_True by done. unfold in_u. lia. }
  cbv zeta in Ea. rewrite Ea. unfold allocate. pose proof (bo_pos L b Hbo) as [_ Hcap].
  destruct (Nat.ltb_spec (capacity b) (write_position b + size)) as [Hno|Hyes].
  - assert (¬ live b) as Hnl.
    { destruct Hready as [?|Hroom]; [done|]. unfold has_room, content_len in Hroom. reflect_bools. lia. }
    destruct (oversized_ring L r p1 fm1 b (last_synced_lsn l) Hnp Hr1) as (fm' & E & Hr' & Hm'); [lia|done|done|].
    eexists _, _, (with_pool l (p1, fm')). split; [reflexivity|]. cbn [sr_placement sr_prev_offset sr_lsn place].
    rewrite Hfin. split.
    { unfold or_invalidate, on_fm, on_pool_files, on_files. cbn [buffer_pool file_manager with_pool fst snd].
      by rewrite E. }
    split_and!; try done; [|split; [exact (eq_trans (proj1 (proj2 Hm')) (proj1 (proj2 Hm)))|done]].
    apply ring_inv; [done| | |by apply (i_valid L l Hinv)]; cbn [snd].
    + rewrite (proj1 Hm'). cbn [current_file_num set_last_position]. by rewrite Hnum.
    + destruct Hr' as [_ _ (Hfm' & _)]. cbn [fst snd] in Hfm'. rewrite (fo_next _ _ Hfm'), (proj1 Hm').
      cbn [current_file_num set_last_position]. by rewrite Hnum.
  - pose proof (buffered_ring L r p1 fm1 b (last_synced_lsn l) Hnp Hr1 ltac:(lia) Hb Hlive
      ltac:(rewrite Hsize; lia)) as Hr'.
    eexists _, _, (with_pool l
      (set_buffers p1 (<[current_write_buffer_index p1 := appended b (r_lsn r) (r_bytes r)]> (buffers p1)),
       set_last_position fm1 (Lsn_new (r_file r) (Z.of_nat (end_off (L ++ [r]) (r_file r)))) (r_lsn r))).
    split; [reflexivity|]. cbn [sr_placement sr_prev_offset sr_lsn place].
    rewrite Hfin. split.
    { unfold bind, get, modify, unwrap. cbn [buffer_pool file_manager with_pool fst snd buffers set_buffers].
      rewrite list_lookup_insert_eq by (by apply lookup_lt_Some in Hb). unfold put.
      rewrite Nat.eqb_refl. unfold ret. cbn [buffer_pool file_manager with_pool fst snd buffers set_buffers].
      rewrite list_insert_insert_eq. rewrite <- Hsize. reflexivity. }
    split_and!; try done; [|split; [exact (proj1 (proj2 Hm))|done]].
    apply ring_inv; [done| |done|by apply (i_valid L l Hinv)]; cbn [snd current_file_num set_last_position].
    rewrite Hnum. exact Hr'.
Qed.

End append.

(** ** Flushes *)

Lemma flush_of_cons b b' bs bs' :
  b' = b ∨ b' = mark_flushed b → flush_of bs bs' → flush_of (b :: bs) (b' :: bs').
Proof.
  intros Hb [Hlen Hf]. split; [simpl; congruence|]. intros [|i] c Hc; simpl in *; [|by apply Hf].
  injection Hc as <-. eauto.
Qed.

Lemma drain_loop L synced bs : ∀ pre fm,
  log_wf L → (∀ b, b ∈ bs → buf_ok L b ∧ (dirty b → b_file b = current_file_num fm)) →
  disk_ok L (pre ++ bs) fm synced →
  ∃ bs' pending fm', fill_flush_pending bs = Some (bs', pending) ∧
    write_all pending fm = Some (fm', Ok ()) ∧ flush_of bs bs' ∧ (∀ b, b ∈ bs' → ¬ dirty b) ∧
    disk_ok L (pre ++ bs') fm' synced ∧ same_meta fm fm'.
Proof.
  induction bs as [|b bs IH]; intros pre fm Hwf Hbs Hdisk.
  { exists [], [], fm. split_and!; try done. by intros ? ?%elem_of_nil. }
  destruct (Hbs b) as [Hb Hfile]; [by left|].
  assert (∃ b' pending fm1, take_unflushed b = Some (b', pending) ∧ (b' = b ∨ b' = mark_flushed b) ∧
    ¬ dirty b' ∧ write_all (opt_list pending) fm = Some (fm1, Ok ()) ∧
    disk_ok L (pre ++ b' :: bs) fm1 synced ∧ same_meta fm fm1)
    as (b' & pending & fm1 & E1 & Hb' & Hc & Ew & Hd1 & Hm1).
  { destruct (decide (dirty b)) as [Hd|Hd].
    - destruct (take_unflushed_dirty L b Hwf Hb Hd) as (bytes & E & Hlen & Hcell).
      destruct (write_unflushed L (pre ++ b :: bs) fm synced (length pre) b bytes)
        as (fm1 & Ew & Hd1 & Hm1); [done|done|by apply list_lookup_middle|done|done|by apply Hfile|done|done|].
      rewrite insert_app_r_alt, Nat.sub_diag in Hd1 by done. cbn in Hd1.
      eexists (mark_flushed b), _, fm1. split_and!; [exact E|by right|by apply (mark_flushed_ok L)| |done|done].
      cbn [opt_list write_all]. unfold bind. by rewrite Ew.
    - exists b, None, fm. split_and!; try done; [by apply (take_unflushed_clean L)|by left]. }
  destruct (IH (pre ++ [b']) fm1) as (bs' & rest & fm2 & E2 & Ew2 & Hf2 & Hc2 & Hd2 & Hm2); [done| | |].
  { intros c Hcb. rewrite (proj1 Hm1). apply Hbs. by right. }
  { by rewrite <- app_assoc. }
  exists (b' :: bs'), (opt_list pending ++ rest), fm2. split_and!.
  - cbn [fill_flush_pending]. rewrite E1. cbn [mbind option_bind]. rewrite E2. done.
  - destruct pending as [[[g bytes] off]|]; cbn [opt_list app write_all] in *.
    + unfold bind in *. destruct (write_buffer_to_file g bytes off fm) as [[fm1' [[]|]]|]; [|done..].
      injection Ew as ->. exact Ew2.
    + injection Ew as <-. exact Ew2.
  - by apply flush_of_cons.
  - intros c [-> |Hcb]%elem_of_cons; [done|by apply Hc2].
  - by rewrite <- app_assoc in Hd2.
  - by transitivity fm1.
Qed.

Lemma clean_no_pend bs : (∀ b, b ∈ bs → ¬ dirty b) → ∀ f i, ¬ pend bs f i.
Proof.
  intros Hc f i (k & b & Hb & [_ Hd]%unflushed_dirty). apply (Hc b); [|done].
  by apply list_elem_of_lookup_2 in Hb.
Qed.

Lemma drain_ok L l :
  Inv L l →
  ∃ l', drain l = Some (l', Ok ()) ∧ Inv L l' ∧ same_config l l' ∧
    (∀ f i, ¬ pend (buffers (buffer_pool l')) f i) ∧
    last_synced_lsn l' = last_synced_lsn l.
Proof.
  intros Hinv. pose proof (inv_ring L l Hinv) as [Hp Hd Hdisk]. cbn [fst snd] in *.
  pose proof (i_wf L l Hinv) as Hwf.
  destruct (drain_loop L (last_synced_lsn l) (buffers (buffer_pool l)) [] (file_manager l) Hwf)
    as (bs' & pending & fm' & E1 & E2 & Hf & Hc & Hd' & Hm); [|done|].
  { intros b [k Hb]%list_elem_of_lookup_1. split; [by apply (po_buf _ _ _ _ Hp k)|by apply (po_file _ _ _ _ Hp k)]. }
  exists (with_pool l (set_buffers (buffer_pool l) bs', fm')). split_and!; try done.
  - unfold drain, check_valid, bind, get, modify, unwrap, or_invalidate, on_fm, on_pool_files, on_files.
    rewrite (i_valid L l Hinv). unfold ret. rewrite E1.
    cbn [buffer_pool file_manager with_pool fst snd]. by rewrite E2.
  - pose proof (i_synced L l Hinv) as Hs. rewrite (fo_next _ _ (i_fm L l Hinv)) in Hs.
    apply ring_inv; [done| | |by apply (i_valid L l Hinv)]; cbn [fst snd].
    + rewrite (proj1 Hm). split; cbn [fst snd]; [rewrite (proj1 Hm); by apply pool_ok_flush|by apply dirty_ok_flush|done].
    + destruct Hd' as [Hfm' _]. by rewrite (fo_next _ _ Hfm'), (proj1 Hm).
  - split; [apply Hm|done].
  - by apply clean_no_pend.
Qed.

Lemma flush_no_sync_inv L l :
  Inv L l →
  ∃ l', flush_no_sync l = Some (l', Ok (next_available_lsn (file_manager l'))) ∧ Inv L l' ∧ same_config l l' ∧
    (∀ f i, ¬ pend (buffers (buffer_pool l')) f i) ∧ last_synced_lsn l' = last_synced_lsn l.
Proof.
  intros Hinv. destruct (drain_ok L l Hinv) as (l1 & E & Hinv1 & Hcfg & Hn & Hs).
  unfold flush_no_sync. rewrite (bind_ok _ _ _ _ _ E). unfold bind, get, modify, ret.
  exists (with_watermarks l1 (advance_watermark_max (last_flush_lsn l1) (next_available_lsn (file_manager l1)))
            (last_synced_lsn l1)).
  split; [reflexivity|]. split; [|by split]. by destruct Hinv1.
Qed.

Lemma flush_sync_ok L l :
  Inv L l →
  ∃ l', flush_sync l = Some (l', Ok (last_synced_lsn l')) ∧ Inv L l' ∧ same_config l l' ∧
    next_available_lsn (file_manager l') ≤ last_synced_lsn l'.
Proof.
  intros Hinv. destruct (flush_no_sync_inv L l Hinv) as (l1 & E & Hinv1 & Hcfg & Hn & Hs).
  unfold flush_sync. rewrite (bind_ok _ _ _ _ _ E).
  destruct Hinv1 as [Hwf Hfm Hp Hd Hc Hdur Hsy Hv].
  destruct (sync_log_end_ok L (file_manager l1) Hwf Hfm) as (fm2 & E2 & Hfm2 & Hm & Hfs & Hne & Heq).
  unfold bind, get, modify, ret, or_invalidate, on_fm, on_pool_files, on_files. cbn [fst snd]. rewrite E2.
  assert (next_available_lsn fm2 = next_available_lsn (file_manager l1)) as Hnx.
  { by rewrite (fo_next _ _ Hfm2), (fo_next _ _ Hfm), (proj1 Hm). }
  set (sy := advance_watermark_max (last_synced_lsn l1) (next_available_lsn (file_manager l1))).
  exists (with_watermarks (with_pool l1 (buffer_pool l1, fm2)) (last_flush_lsn l1) sy).
  split; [reflexivity|].
  assert (sy = next_available_lsn (file_manager l1)) as Hsy'.
  { unfold sy, advance_watermark_max.
    destruct (Z.ltb_spec (last_synced_lsn l1) (next_available_lsn (file_manager l1))); lia. }
  cbn [file_manager last_synced_lsn with_watermarks with_pool snd]. split_and!; [|split|lia].
  - split; cbn [file_manager buffer_pool last_synced_lsn io_invalid with_watermarks with_pool fst snd];
      rewrite ?(proj1 Hm); try done.
    + by rewrite Hfs.
    + eapply (synced_durable L _ (file_manager l1) fm2); try done. apply Hm.
    + lia.
  - etransitivity; [apply Hm|apply Hcfg].
  - apply Hcfg.
Qed.

(** ** Reads *)

Lemma end_off_range L f : log_wf L → Z.of_nat (end_off L f) < 2 ^ 32.
Proof.
  induction 1 as [|L r Hwf IH Hf Hlsn Hlt Hle Hnext Hprev Hp]; [done|].
  rewrite end_off_snoc. destruct (decide (r_file r = f)) as [<-|]; lia.
Qed.

(** The buffer holds the entry. *)
Definition holds (b : LogBuffer) (r : Rec) : Prop :=
  live b ∧ b_file b = r_file r ∧ (b_off b ≤ r_off r < b_end b)%nat.

#[export] Instance holds_dec b r : Decision (holds b r).
Proof. unfold holds, live. apply _. Defined.

Section read.
Context (L : list Rec) (r : Rec) (Hwf : log_wf L) (Hr : r ∈ L).

Lemma contains_holds b : buf_ok L b → contains_lsn b (r_lsn r) = Some (bool_decide (holds b r)).
Proof.
  intros Hb. destruct (wf_lsn L r Hwf Hr) as [_ Hn]. unfold contains_lsn. rewrite Hn. f_equal.
  destruct (wf_place L r Hwf Hr) as (_ & Hro & _). apply eq_true_iff_eq.
  rewrite bool_decide_eq_true. unfold holds, live.
  destruct (is_null (first_lsn b)) eqn:E; cbn [negb andb]; [naive_solver|].
  fold (b_file b) (r_file r). destruct (live_place L b Hwf Hb E) as (_ & _ & Hbo & _).
  pose proof (live_bound L b Hwf Hb E) as Hbe. pose proof (end_off_range L (b_file b) Hwf) as He.
  rewrite Hbo, Hro. unfold content_len, b_end in *. rewrite !as_u_id by (rewrite ?as_u_id; unfold in_u; lia).
  destruct (Z.eqb_spec (b_file b) (r_file r)) as [Ef|Ef]; [|naive_solver].
  rewrite andb_true_iff, Z.leb_le, Z.ltb_lt. split; intros; [split_and!; [done|done|lia|lia]|lia].
Qed.

Lemma holds_whole b : buf_ok L b → holds b r → (r_off r + length (r_bytes r) ≤ b_end b)%nat.
Proof.
  intros Hb (Hl & Hf & Hi). destruct (wf_place L r Hwf Hr) as (_ & _ & _ & Hp & _).
  pose proof (r_bytes_pos r Hp). destruct (bo_align L b Hb Hl r Hr) as [?|[?|?]]; [done|lia..].
Qed.

Lemma copy_holds b : buf_ok L b → holds b r → copy_entry b (r_lsn r) = Some (r_bytes r).
Proof.
  intros Hb Hh. pose proof (holds_whole b Hb Hh) as Hw. pose proof Hh as (Hl & Hf & Hi).
  destruct (wf_place L r Hwf Hr) as (_ & Hro & _ & Hp & _ & _ & _ & Hcell).
  destruct (live_place L b Hwf Hb Hl) as (_ & _ & Hbo & _). destruct (bo_pos L b Hb) as [_ Hc].
  pose proof (bo_len L b Hb) as Hlen. unfold b_end in *.
  unfold copy_entry, get_bytes, slice, content_len. rewrite Hro, Hbo.
  replace (Z.to_nat (Z.of_nat (r_off r) - Z.of_nat (b_off b))) with (r_off r - b_off b)%nat by lia.
  rewrite Hlen, !(proj2 (Nat.leb_le _ _)) by lia. cbn [andb mbind option_bind].
  set (k := (r_off r - b_off b)%nat). set (sl := take (write_position b - k) (drop k (lb_data b))).
  assert (length sl = write_position b - k)%nat as Hsl.
  { unfold sl. rewrite length_take, length_drop. lia. }
  assert (take (length (r_bytes r)) sl = r_bytes r) as Htake.
  { apply list_eq. intros j. destruct (decide (j < length (r_bytes r))%nat) as [Hj|Hj].
    - rewrite lookup_take_lt by done. unfold sl. rewrite lookup_take_lt, lookup_drop by lia.
      rewrite (bo_data L b Hb Hl) by lia. rewrite <- (Hcell j Hj), Hf. f_equal. lia.
    - rewrite lookup_take_ge by lia. by rewrite lookup_ge_None_2 by lia. }
  pose proof (r_bytes_pos r Hp).
  destruct (peek_entry r (drop (length (r_bytes r)) sl) (length sl) Hp) as (_ & _ & _ & _ & _ & _ & Hpe); [lia|].
  rewrite <- Htake in Hpe at 1. rewrite take_drop, firstn_all in Hpe.
  rewrite (proj2 (Nat.leb_le _ _)), Hpe, Nat.min_l by lia. by rewrite Htake.
Qed.

Lemma search_buffers_spec bs order :
  (∀ i b, bs !! i = Some b → buf_ok L b) → (∀ i, i ∈ order → (i < length bs)%nat) →
  search_buffers bs (r_lsn r) order = Some (Some (r_bytes r)) ∨
  search_buffers bs (r_lsn r) order = Some None ∧ ∀ i b, i ∈ order → bs !! i = Some b → ¬ holds b r.
Proof.
  intros Hbs. induction order as [|i order IH]; intros Ho; simpl.
  { right. split; [done|]. by intros i b ?%elem_of_nil. }
  destruct (lookup_lt_is_Some_2 bs i) as [b Hb]; [apply Ho; by left|]. rewrite Hb. cbn [mbind option_bind].
  rewrite contains_holds by (by apply (Hbs i)). cbn [mbind option_bind].
  case_bool_decide as Hh; [left; by rewrite copy_holds by (done || by apply (Hbs i))|].
  destruct IH as [?|[? Hn]]; [intros j ?; apply Ho; by right|by left|right].
  split; [done|]. intros j c [-> |Hj]%elem_of_cons Hc; [congruence|by apply (Hn j)].
Qed.

(** An entry that no buffer holds is in its file. *)
Lemma not_held_stored bs fs :
  (∀ i b, bs !! i = Some b → buf_ok L b) → cells_ok L (pend bs) fs →
  (∀ i b, bs !! i = Some b → ¬ holds b r) → stored fs r.
Proof.
  intros Hbs Hc Hn j Hj. destruct (wf_place L r Hwf Hr) as (_ & _ & _ & Hp & _ & _ & _ & Hcell).
  destruct (lookup_lt_is_Some_2 _ _ Hj) as [x Hx]. rewrite Hx.
  destruct (Hc (r_file r) (r_off r + j)%nat x) as [(k & b & Hb & Hl & Hf & Hi)|Hd]; [by rewrite Hcell| |done].
  destruct (Hn k b Hb). split_and!; [done|done|..];
    destruct (bo_align L b (Hbs k b Hb) Hl r Hr) as [?|[?|?]]; try done; unfold b_end in *; lia.
Qed.

End read.

(** A read, for buffers that are right where they hold something. *)
Lemma read_entry_gen L l r :
  log_wf L → r ∈ L → readable r → fm_open (file_manager l) →
  (current_write_buffer_index (buffer_pool l) < length (buffers (buffer_pool l)))%nat →
  (∀ i b, buffers (buffer_pool l) !! i = Some b →
     buf_ok L b ∧ (live b → min_buffer_lsn (buffer_pool l) ≤ first_lsn b)) →
  ((∀ i b, buffers (buffer_pool l) !! i = Some b → ¬ holds b r) → stored (files (file_manager l)) r) →
  ∃ c, read_entry (r_lsn r) l =
       Some (with_pool l (buffer_pool l, set_cache (file_manager l) c), Ok (r_type r, r_payload r)).
Proof.
  intros Hwf Hr Hrd Hfm Hcur Hbs Hst.
  destruct (wf_place L r Hwf Hr) as (Hf & Hro & Hlsn & Hpl & _ & _ & Hlt & _). pose proof (r_bytes_pos r Hpl) as Hpos.
  assert ((∀ i b, buffers (buffer_pool l) !! i = Some b → ¬ holds b r) →
    ∃ c, read_entry_from_disk (r_lsn r) l =
         Some (with_pool l (buffer_pool l, set_cache (file_manager l) c), Ok (r_type r, r_payload r))) as Hcold.
  { intros Hn. apply read_stored; auto. }
  unfold read_entry, bind at 1, get. destruct (Z.leb_spec (min_buffer_lsn (buffer_pool l)) (r_lsn r)) as [Hm|Hm].
  - unfold get_read_buffer_bytes_by_lsn. rewrite (proj2 (Z.ltb_ge _ _)) by done.
    set (order := List.filter _ _ ++ _).
    assert (∀ i, i ∈ order ↔ (i < length (buffers (buffer_pool l)))%nat) as Ho.
    { intros i. unfold order.
      rewrite elem_of_app, list_elem_of_singleton, list_elem_of_In, filter_In, <- list_elem_of_In, elem_of_seq.
      rewrite negb_true_iff, Nat.eqb_neq. lia. }
    destruct (search_buffers_spec L r Hwf Hr (buffers (buffer_pool l)) order) as [E|[E Hn]];
      [by intros; eapply Hbs|by intros; apply Ho|..]; rewrite E; unfold unwrap, bind, ret.
    + destruct (peek_entry r [] (length (r_bytes r)) Hpl) as (_ & _ & Ht & _ & Hi & Hh & Hs); [done|].
      rewrite app_nil_r, firstn_all in Ht, Hi, Hh, Hs. rewrite Ht, Hi, Hh, Hs, Nat.leb_refl, from_type_num_type.
      rewrite (proj2 (Nat.leb_le _ _)), Nat2Z.id, r_bytes_payload, firstn_all by done.
      exists (file_cache (file_manager l)). by destruct l as [? []].
    + apply Hcold. intros i b Hb. apply (Hn i); [|done]. apply Ho. by apply lookup_lt_Some in Hb.
  - unfold bind, ret. apply Hcold. intros i b Hb (Hl & Hbf & Hbi).
    destruct (Hbs i b Hb) as [Hbo Hmin]. specialize (Hmin Hl).
    destruct (live_place L b Hwf Hbo Hl) as (_ & _ & _ & Hfl & Hboff).
    rewrite Hfl, Hbf in Hmin. rewrite Hlsn in Hm.
    rewrite Lsn_new_add in Hmin, Hm by (unfold in_u in *; lia). lia.
Qed.

Lemma read_entry_ok L l r :
  Inv L l → r ∈ L → readable r →
  ∃ l', read_entry (r_lsn r) l = Some (l', Ok (r_type r, r_payload r)) ∧ Inv L l' ∧ same_config l l' ∧
        last_synced_lsn l' = last_synced_lsn l.
Proof.
  intros Hinv Hr Hrd. pose proof Hinv as [Hwf Hfm Hp Hd Hc Hdur Hsy Hv].
  destruct (read_entry_gen L l r Hwf Hr Hrd (fm_ok_open L _ Hwf Hfm) (po_cur _ _ _ _ Hp)) as (c & E).
  - intros i b Hb. split; [by apply (po_buf _ _ _ _ Hp i)|by apply (po_min _ _ _ _ Hp i)].
  - apply (not_held_stored L r Hwf Hr (buffers (buffer_pool l))); [apply (po_buf _ _ _ _ Hp)|done].
  - eexists. split; [exact E|]. split_and!; [|done..]. split; try done. by apply fm_ok_cache.
Qed.

End run.
