(* ===== verification/LogStore.v ===== *)
(** * The log as a store of entries

    The abstract log is a list of entries and a number of them that are durable.
    A client appends, flushes, asks for a new file, and reads what it appended
    by the LSNs that it was given; [log_refines_entries] says that it sees the
    abstract log, now and after a crash, [log_walks_back] that the links between
    entries and files lead a reader from the end of the log to its beginning. *)

From stdpp Require Import sorting.
From S2P Require Import Prelude Bytes Lsn LogEntry LogFile LogBuffer WriteLog LogSpec LogInv LogRun.
Import LogFile.FileHeader (FILE_HEADER_SIZE).

(** ** The abstract log *)

Abbreviation entry := (LogEntryType * list Z)%type.

Record ALog := { a_entries : list entry; a_durable : nat }.

Inductive LogOp :=
| OpLog (t : LogEntryType) (payload : list Z) (prov : Provisional) (v : option Z) (flush fsync : bool)
| OpFlushNoSync
| OpFlushSync
| OpForceNewFile
| OpRead (i : nat).

Inductive LogOut := OutAppended (i : nat) | OutDone | OutEntry (e : entry).

(** [None]: the payload is too large for a read, the log has too many entries,
    or there is no such entry. *)
Definition alog_step (a : ALog) (op : LogOp) : option (ALog * LogOut) :=
  match op with
  | OpLog t payload _ _ _ fsync =>
      if (Z.of_nat (length payload) <=? MAX_READ_SIZE) &&
         (Z.of_nat (length (a_entries a)) <? 2 ^ 32 - 2)
      then Some ({| a_entries := a_entries a ++ [(t, payload)];
                    a_durable := if fsync then S (length (a_entries a)) else a_durable a |},
                 OutAppended (length (a_entries a)))
      else None
  | OpFlushNoSync | OpForceNewFile => Some (a, OutDone)
  | OpFlushSync => Some ({| a_entries := a_entries a; a_durable := length (a_entries a) |}, OutDone)
  | OpRead i => e ← a_entries a !! i; Some (a, OutEntry e)
  end.

Section store.
Context `{Platform}.

(** ** A client of the log manager *)

Record Client := { c_log : LogManager; c_lsns : list Z }.

Definition done {A} (c : Client) (lsns : A → list Z) (out : A → LogOut)
    (r : option (LogManager * result A LogError)) : option (Client * LogOut) :=
  match r with
  | Some (l, Ok x) => Some ({| c_log := l; c_lsns := c_lsns c ++ lsns x |}, out x)
  | _ => None
  end.

Definition client_step (c : Client) (op : LogOp) : option (Client * LogOut) :=
  match op with
  | OpLog t payload prov v flush fsync =>
      done c (λ lsn, [lsn]) (λ _, OutAppended (length (c_lsns c)))
        (log_internal t payload prov flush fsync v (c_log c))
  | OpFlushNoSync => done c (λ _, []) (λ _, OutDone) (flush_no_sync (c_log c))
  | OpFlushSync => done c (λ _, []) (λ _, OutDone) (flush_sync (c_log c))
  | OpForceNewFile =>
      Some ({| c_log := with_pool (c_log c)
                 (buffer_pool (c_log c), force_new_log_file (file_manager (c_log c)));
               c_lsns := c_lsns c |}, OutDone)
  | OpRead i =>
      lsn ← c_lsns c !! i;
      done c (λ _, []) OutEntry (read_entry lsn (c_log c))
  end.

(** A log manager on a directory, with nothing appended yet. *)
Definition open_log (dir : gmap Z (list Z)) (max_file_size : Z) (cache num_buffers buffer_size : nat)
    : option LogManager :=
  match FileManager_new dir false max_file_size cache with
  | Some (fm, Ok _) => Some (LogManager_new fm num_buffers buffer_size)
  | _ => None
  end.

(** ** Appends with their flush *)

Lemma before_next L l r :
  Inv L l → r ∈ L → r_lsn r < next_available_lsn (file_manager l).
Proof.
  intros [Hwf Hfm _ _ _ _ _ _] Hr. destruct (wf_place L r Hwf Hr) as (Hf & _ & -> & Hp & _ & Hend & Hlt & _).
  pose proof (r_bytes_pos r Hp). pose proof (fo_le L _ Hfm r Hr). pose proof (fo_cur L _ Hfm).
  pose proof (fo_size L _ Hfm). pose proof (fo_end L _ Hfm). rewrite (fo_next L _ Hfm).
  rewrite !Lsn_new_add by (unfold in_u in *; lia).
  destruct (decide (r_file r = current_file_num (file_manager l))) as [E|]; [rewrite E in *|]; lia.
Qed.

Lemma flush_sync_if_needed_ok L l r :
  Inv L l → r ∈ L →
  ∃ l' x, flush_sync_if_needed (r_lsn r) l = Some (l', Ok x) ∧ Inv L l' ∧ same_config l l' ∧
    (last_synced_lsn l' = last_synced_lsn l ∨
     next_available_lsn (file_manager l') ≤ last_synced_lsn l') ∧
    r_lsn r < last_synced_lsn l'.
Proof.
  intros Hinv Hr. unfold flush_sync_if_needed, check_valid, bind at 1 2 3, get at 1 2.
  rewrite (i_valid L l Hinv). unfold ret at 1. destruct (wf_lsn L r (i_wf L l Hinv) Hr) as [_ ->].
  cbn [negb andb]. destruct (Z.ltb_spec (r_lsn r) (last_synced_lsn l)) as [Hlt|_].
  - exists l, (last_synced_lsn l). split_and!; try done. by left.
  - destruct (flush_sync_ok L l Hinv) as (l' & E & Hinv' & Hc & Hn). exists l', (last_synced_lsn l').
    split_and!; [done|done|done|by right|]. pose proof (before_next L l' r Hinv' Hr). lia.
Qed.

Lemma log_internal_ok L l t payload prov flush fsync v :
  Inv L l → Z.of_nat (length payload) ≤ MAX_PAYLOAD → max_file_size (file_manager l) < 2 ^ 32 →
  Z.of_nat (length L) + 1 < 2 ^ 32 - 1 →
  ∃ l' r, log_internal t payload prov flush fsync v l = Some (l', Ok (r_lsn r)) ∧
    (r_type r, r_payload r) = (t, payload) ∧ Inv (L ++ [r]) l' ∧ same_config l l' ∧
    last_synced_lsn l ≤ last_synced_lsn l' ∧ (fsync = true → r_lsn r < last_synced_lsn l').
Proof.
  intros Hinv Hpl Hmax Hlen.
  destruct (marshal t payload prov v) as [buf|] eqn:Hbuf; [|by rewrite marshal_form in Hbuf].
  destruct (append_ok L l t payload prov v buf Hinv Hpl Hbuf Hmax Hlen)
    as (l1 & slot & l2 & Ea & Ep & Elsn & Hinv2 & Hc2 & Hs2).
  set (r := new_rec L (file_manager l) t payload prov v) in *.
  assert (r ∈ L ++ [r]) as Hr by set_solver.
  pose proof (i_synced (L ++ [r]) l2 Hinv2) as Hsy.
  unfold log_internal, check_valid, bind, get, unwrap, or_invalidate. rewrite (i_valid L l Hinv), Hbuf.
  unfold ret at 1 2. rewrite Ea, Ep, Elsn. destruct fsync; [|destruct flush].
  - destruct (flush_sync_if_needed_ok (L ++ [r]) l2 r Hinv2 Hr) as (l3 & x & E & Hinv3 & Hc3 & Hs3 & Hlt).
    rewrite E. exists l3, r. split_and!; [done|done|done|by transitivity l2| |done].
    destruct Hs3 as [Hs3|Hs3]; [lia|].
    pose proof (i_synced (L ++ [r]) l3 Hinv3). pose proof (before_next _ _ _ Hinv2 Hr).
    assert (next_available_lsn (file_manager l3) = next_available_lsn (file_manager l2)); [|lia].
    rewrite (fo_next _ _ (i_fm _ _ Hinv3)), (fo_next _ _ (i_fm _ _ Hinv2)).
    rewrite <- (fo_last_file _ _ (i_fm _ _ Hinv3) r), <- (fo_last_file _ _ (i_fm _ _ Hinv2) r); [done|by rewrite last_snoc..].
  - destruct (flush_no_sync_inv (L ++ [r]) l2 Hinv2) as (l3 & E & Hinv3 & Hc3 & _ & Hs3).
    rewrite E. exists l3, r. split_and!; [done|done|done|by transitivity l2|lia|done].
  - exists l2, r. split_and!; [done|done|done|done|lia|done].
Qed.

(** ** The refinement *)

Record client_ok (c : Client) (a : ALog) : Prop := {
  co_inv : ∃ L, Inv L (c_log c) ∧ c_lsns c = r_lsn <$> L ∧
    a_entries a = (λ r, (r_type r, r_payload r)) <$> L ∧ (a_durable a ≤ length L)%nat ∧ Forall readable L ∧
    ∀ i r, (i < a_durable a)%nat → L !! i = Some r → r_lsn r < last_synced_lsn (c_log c);
  co_max : max_file_size (file_manager (c_log c)) < 2 ^ 32;
}.

Lemma inv_force L l :
  Inv L l → Inv L (with_pool l (buffer_pool l, force_new_log_file (file_manager l))).
Proof. intros [Hwf [] Hp Hd Hc Hdur Hsy Hv]. by split. Qed.

Lemma durable_snoc (L : list Rec) r synced synced' n (fsync : bool) :
  synced ≤ synced' → (fsync = true → r_lsn r < synced') →
  (fsync = true → StronglySorted Z.lt (r_lsn <$> L ++ [r])) →
  (n ≤ length L)%nat →
  (∀ i x, (i < n)%nat → L !! i = Some x → r_lsn x < synced) →
  ∀ i x, (i < if fsync then S (length L) else n)%nat → (L ++ [r]) !! i = Some x → r_lsn x < synced'.
Proof.
  intros Hle Hr Hs Hn Hd i x Hi Hx. apply lookup_app_Some in Hx as [Hx|[Hge Hx]].
  - destruct fsync.
    + specialize (Hs eq_refl). rewrite fmap_app, StronglySorted_app in Hs. destruct Hs as [Hs _].
      assert (r_lsn x < r_lsn r); [|specialize (Hr eq_refl); lia]. apply Hs; [|set_solver].
      apply list_elem_of_fmap_2, (list_elem_of_lookup_2 _ _ _ Hx).
    + specialize (Hd i x Hi Hx). lia.
  - destruct fsync; [|lia]. apply list_lookup_singleton_Some in Hx as [_ <-]. by apply Hr.
Qed.

Lemma client_refines c a op a' out :
  client_ok c a → alog_step a op = Some (a', out) →
  ∃ c', client_step c op = Some (c', out) ∧ client_ok c' a'.
Proof.
  intros [(L & Hinv & Hlsns & Hes & Hnd & Hrd & Hd) Hmax] Hs.
  assert (length (a_entries a) = length L) as Hlen by (rewrite Hes; apply length_fmap).
  destruct op as [t payload prov v flush fsync| | | |i]; cbn [alog_step client_step] in *.
  - destruct (_ && _) eqn:E; [|done]. injection Hs as <- <-. reflect_bools.
    destruct (log_internal_ok L (c_log c) t payload prov flush fsync v Hinv)
      as (l' & r & El & Er & Hinv' & Hc & Hle & Hsync); [unfold MAX_READ_SIZE, MAX_PAYLOAD in *; lia|done|lia|].
    rewrite El. cbn [done]. rewrite Hlsns, length_fmap, <- Hlen. eexists. split; [done|].
    split; cbn [c_log c_lsns a_entries a_durable].
    + exists (L ++ [r]). rewrite Hes, !fmap_app. simpl. rewrite Er. split_and!; [done..| | |].
      * rewrite <- Hes, Hlen, length_app. simpl. destruct fsync; lia.
      * apply Forall_app. split; [done|]. apply Forall_singleton. unfold readable. by injection Er as _ ->.
      * rewrite <- Hes, Hlen. eapply durable_snoc; try done. intros _. apply wf_sorted, Hinv'.
    + by rewrite (proj1 Hc).
  - injection Hs as <- <-. destruct (flush_no_sync_inv L (c_log c) Hinv) as (l' & El & Hinv' & Hc & _ & Hsy).
    rewrite El. cbn [done]. rewrite app_nil_r. eexists. split; [done|].
    split; cbn [c_log c_lsns]; [|by rewrite (proj1 Hc)]. exists L. by rewrite Hsy.
  - injection Hs as <- <-. destruct (flush_sync_ok L (c_log c) Hinv) as (l' & El & Hinv' & Hc & Hn).
    rewrite El. cbn [done]. rewrite app_nil_r. eexists. split; [done|].
    split; cbn [c_log c_lsns a_entries a_durable]; [|by rewrite (proj1 Hc)]. exists L.
    split_and!; [done..|by rewrite Hlen|done|]. intros i r _ Hr.
    pose proof (before_next L l' r Hinv' (list_elem_of_lookup_2 _ _ _ Hr)). lia.
  - injection Hs as <- <-. eexists. split; [done|]. split; [|done]. exists L.
    split_and!; try done. by apply inv_force.
  - destruct (a_entries a !! i) as [e|] eqn:Ee; [|done]. injection Hs as <- <-.
    rewrite Hes in Ee. apply list_lookup_fmap_Some in Ee as (r & -> & Hr).
    rewrite Hlsns, list_lookup_fmap, Hr. cbn [fmap option_fmap option_map mbind option_bind].
    destruct (read_entry_ok L (c_log c) r Hinv) as (l' & El & Hinv' & Hc & Hsy);
      [by apply list_elem_of_lookup_2 in Hr|by apply (Forall_lookup_1 _ _ _ _ Hrd Hr)|].
    rewrite El. cbn [done]. rewrite app_nil_r. eexists. split; [done|].
    split; cbn [c_log c_lsns]; [|by rewrite (proj1 Hc)]. exists L. by rewrite Hsy.
Qed.

(** ** A new log, and one after a crash *)

Lemma buf_ok_new L cap : buf_ok L (LogBuffer_new cap).
Proof.
  assert (¬ live (LogBuffer_new cap)) by done.
  split; try (by intros ?); cbn [lb_data capacity flushed_len write_position LogBuffer_new]; [|lia].
  apply length_replicate.
Qed.

Lemma new_pool_lookup n size i b :
  buffers (LogBufferPool_new n size) !! i = Some b → b = LogBuffer_new size.
Proof. intros Hb. by apply lookup_replicate in Hb as [-> _]. Qed.

Lemma new_pool_ok L n size f o : (2 ≤ n)%nat → pool_ok L (LogBufferPool_new n size) f o.
Proof.
  intros Hn. split; cbn [current_write_buffer_index min_buffer_lsn LogBufferPool_new].
  - cbn [buffers LogBufferPool_new]. by rewrite length_replicate.
  - cbn [buffers LogBufferPool_new]. rewrite length_replicate. lia.
  - intros i b ->%new_pool_lookup. apply buf_ok_new.
  - by intros b ->%new_pool_lookup.
  - by intros i j a b ->%new_pool_lookup.
  - by intros i b ->%new_pool_lookup.
  - by left.
  - intros i b ->%new_pool_lookup Hd. unfold dirty in Hd. simpl in Hd. lia.
Qed.

Lemma open_empty_ok max cache n size :
  (2 ≤ n)%nat → max < 2 ^ 32 →
  ∃ l, open_log ∅ max cache n size = Some l ∧
    client_ok {| c_log := l; c_lsns := [] |} {| a_entries := []; a_durable := 0 |}.
Proof.
  intros Hn Hmax. destruct (FileManager_new_ok ∅ max cache) as (c & E).
  { intros f d Hd. by rewrite lookup_empty in Hd. }
  unfold open_log. rewrite E. eexists. split; [done|]. split; [|done]. exists [].
  cbn [c_log c_lsns a_entries a_durable fmap list_fmap]. split_and!; try done.
  split; cbn [file_manager buffer_pool last_synced_lsn io_invalid LogManager_new]; try done.
  - constructor.
  - split; cbn [closed read_only current_file_num next_available_lsn last_used_lsn per_file_last_lsn
                files durable set_cache initial_manager]; try done.
    by intros r ?%elem_of_nil.
  - by apply new_pool_ok.
  - split; [done|]. intros i b ->%new_pool_lookup _ Hd. unfold dirty in Hd. simpl in Hd. lia.
  - intros f i x Hx. unfold cell, body in Hx. simpl in Hx. rewrite lookup_nil in Hx.
    by destruct (Nat.ltb i FILE_HEADER_SIZE).
  - by intros r ?%elem_of_nil.
Qed.

Lemma durable_headers L fm f d :
  log_wf L → fm_ok L fm → durable fm !! f = Some d → in_u 32 f ∧ header_ok f d.
Proof.
  intros Hwf Hfm Hd. destruct (fo_durable L fm Hfm f d Hd) as [[d' Hd'] Hh].
  destruct (fo_files L fm Hfm f d' Hd') as [Hf _]. pose proof (fo_cur L fm Hfm). pose proof (fo_size L fm Hfm).
  split; [unfold in_u; lia|]. exists (link L f). split; [by apply link_range|done].
Qed.

Lemma crash_reads L l r max cache n size :
  Inv L l → r ∈ L → readable r → r_lsn r < last_synced_lsn l → (0 < n)%nat →
  ∃ l1 l2, open_log (durable (file_manager l)) max cache n size = Some l1 ∧
    read_entry (r_lsn r) l1 = Some (l2, Ok (r_type r, r_payload r)).
Proof.
  intros [Hwf Hfm _ _ _ Hdur _ _] Hr Hrd Hs Hn. set (dir := durable (file_manager l)).
  destruct (FileManager_new_ok dir max cache) as (c & E).
  { intros f d. by apply (durable_headers L). }
  unfold open_log. rewrite E.
  destruct (read_entry_gen L (LogManager_new (set_cache (initial_manager dir false max cache) c) n size) r)
    as (c' & E'); [done|done|done|..].
  - split; try done. intros f d. by apply (durable_headers L).
  - cbn [current_write_buffer_index buffers buffer_pool LogManager_new LogBufferPool_new].
    by rewrite length_replicate.
  - intros i b ->%new_pool_lookup. split; [apply buf_ok_new|done].
  - intros _. apply Hdur; [done|by left].
  - eexists _, _. by split; [|exact E'].
Qed.

(** ** Links between entries and files *)

Lemma wf_links L i r r' :
  log_wf L → L !! i = Some r → L !! S i = Some r' →
  r_file r' = r_file r ∧ r_prev r' = file_offset (r_lsn r) ∨
  r_file r' = r_file r + 1 ∧ r_prev r' = 0 ∧ last_off L (r_file r) = file_offset (r_lsn r).
Proof.
  induction 1 as [|L r0 Hwf IH Hf Hlsn Hlt Hle Hnext Hprev Hp]; [done|].
  intros Hr Hr'. apply lookup_app_Some in Hr' as [Hr'|[Hge Hr']].
  - pose proof (lookup_lt_Some _ _ _ Hr') as Hil.
    rewrite lookup_app_l in Hr by lia. destruct (IH Hr Hr') as [?|(E & ? & ?)]; [by left|right].
    split_and!; [done..|]. unfold last_off in *. rewrite last_snoc_ne; [done|].
    pose proof (Hle r' (list_elem_of_lookup_2 _ _ _ Hr')). lia.
  - apply list_lookup_singleton_Some in Hr' as [Hi ->].
    pose proof (lookup_lt_Some _ _ _ Hr) as Hil. rewrite length_app in Hil. simpl in Hil.
    assert (i < length L)%nat as HiL.
    { destruct (decide (i < length L)%nat); [done|].
      rewrite lookup_app_r in Hr by lia. replace (i - length L)%nat with 0%nat in Hr by lia. lia. }
    rewrite lookup_app_l in Hr by lia.
    assert (last L = Some r) as Hlast.
    { rewrite last_lookup. rewrite <- Hr. f_equal. lia. }
    pose proof (Hle r (list_elem_of_lookup_2 _ _ _ Hr)) as H1. pose proof (Hnext r Hlast) as H2.
    assert (last_off L (r_file r) = file_offset (r_lsn r)) as Hlo.
    { apply last_Some in Hlast as [L0 ->]. unfold last_off. by rewrite in_file_snoc, last_snoc. }
    destruct (decide (r_file r' = r_file r)) as [E|Hne]; [left; by rewrite Hprev, E|right].
    split_and!; [lia| |].
    + rewrite Hprev. unfold last_off. rewrite no_entries_last_off; [done|]. intros x Hx.
      pose proof (wf_last_file L r x Hwf Hlast Hx). lia.
    + unfold last_off in *. by rewrite last_snoc_ne.
Qed.

Lemma wf_first L r : log_wf L → L !! 0%nat = Some r → r_prev r = 0.
Proof.
  induction 1 as [|L r0 Hwf IH Hf Hlsn Hlt Hle Hnext Hprev Hp]; [done|].
  destruct L as [|x L]; [|exact IH]. intros [= <-]. by rewrite Hprev.
Qed.

Lemma header_read_rec r rest :
  payload_ok r → readable r → in_u 32 (r_prev r) →
  ∃ h, header_read (r_bytes r ++ rest) = Ok h ∧ entry_type h = r_type r ∧ prev_offset h = r_prev r.
Proof.
  intros Hp Hrd Hprev. destruct (peek_entry r rest (length (r_bytes r ++ rest)) Hp) as (Hl & _ & Ht & _ & Hi & _).
  { rewrite length_app. pose proof (r_bytes_pos r Hp). lia. }
  rewrite firstn_all in Hl, Ht, Hi. unfold peek_item_size in Hi. unfold payload_ok, MAX_PAYLOAD in Hp.
  unfold header_read. rewrite (proj2 (Nat.ltb_ge _ _)) by done. rewrite Hi.
  destruct (r_bytes_form r Hp) as (sum & _ & E & _). rewrite E.
  change (le_val (take 1 (drop 4 _))) with (type_num (r_type r) + 256 * 0). rewrite Z.add_0_r, from_type_num_type.
  rewrite (proj2 (Z.ltb_ge _ _)) by (unfold readable, MAX_READ_SIZE, MAX_ITEM_SIZE in *; lia).
  change (le_val (take 4 (drop 6 _))) with (le_val (le_bytes 4 (r_prev r))).
  rewrite (le_val_bytes 4 (r_prev r)) by exact Hprev.
  change (le_val (take 1 (drop 5 _))) with (r_flags (r_prov r) (r_vlsn r) + 256 * 0). rewrite Z.add_0_r.
  unfold r_tail. destruct (r_vlsn r); simpl length; cbv zeta.
  - match goal with |- context [if ?c then Err _ else _] => assert (c = false) as -> end.
    { apply andb_false_iff. right. done. }
    eexists. by split_and!.
  - assert (flag_set (r_flags (r_prov r) None) VLSN_PRESENT_MASK || flag_set (r_flags (r_prov r) None) REPLICATED_MASK = false)
      as -> by (by destruct (r_prov r)). cbn [andb]. eexists. by split_and!.
Qed.

(** ** The theorems *)

(** C6. The log manager is a store of entries: over any sequence of appends, with
    or without a flush or a sync, of flushes, syncs, requests for a new file and
    reads, with any sizes of buffers and files, no operation fails or panics, the
    LSNs that appends return ascend, a read by the LSN of an append returns the
    type and the payload that were appended, and after a crash that loses all
    that was not synced the log opens and every entry that was appended with a
    sync, or before one, is read back. *)
Theorem log_refines_entries (max_file_size : Z) (cache num_buffers buffer_size : nat)
    (ops : list LogOp) (a : ALog) (outs : list LogOut)
    (Hmax : max_file_size < 2 ^ 32) (Hbuf : (2 ≤ num_buffers)%nat)
    (Hops : run_steps alog_step {| a_entries := []; a_durable := 0 |} ops = Some (a, outs)) :
  ∃ l c, open_log ∅ max_file_size cache num_buffers buffer_size = Some l ∧
    run_steps client_step {| c_log := l; c_lsns := [] |} ops = Some (c, outs) ∧
    StronglySorted Z.lt (c_lsns c) ∧ length (c_lsns c) = length (a_entries a) ∧
    ∀ i e lsn, (i < a_durable a)%nat → a_entries a !! i = Some e → c_lsns c !! i = Some lsn →
    ∃ l1 l2, open_log (durable (file_manager (c_log c))) max_file_size cache num_buffers buffer_size = Some l1 ∧
             read_entry lsn l1 = Some (l2, Ok e).
Proof.
  destruct (open_empty_ok max_file_size cache num_buffers buffer_size Hbuf Hmax) as (l & El & Hc).
  destruct (run_steps_refine client_ok client_step alog_step client_refines _ _ _ _ _ Hc Hops)
    as (c & Ec & [(L & Hinv & Hlsns & Hes & Hnd & Hrd & Hd) _]).
  exists l, c. rewrite Hlsns, Hes. split_and!; [done|done|by apply wf_sorted, Hinv|by rewrite !length_fmap|].
  intros i e lsn Hi (r & -> & Hr)%list_lookup_fmap_Some Hlsn.
  rewrite list_lookup_fmap, Hr in Hlsn. injection Hlsn as <-.
  apply (crash_reads L); [done|by apply list_elem_of_lookup_2 in Hr|by apply (Forall_lookup_1 _ _ _ _ Hrd Hr)| |lia].
  by apply (Hd i r).
Qed.

(** The entry at [y] leads to the one at [x] before it: by its own header in the
    same file, by the header of its file across files. *)
Definition links_back (fs : gmap Z (list Z)) (x y : Z) : Prop :=
  ∃ d h, fs !! file_number y = Some d ∧ header_read (drop (Z.to_nat (file_offset y)) d) = Ok h ∧
    (file_number y = file_number x ∧ prev_offset h = file_offset x ∨
     file_number y = file_number x + 1 ∧ prev_offset h = 0 ∧
     ∃ fh, FileHeader.read_from d = Ok fh ∧ FileHeader.file_number fh = file_number y ∧
           FileHeader.last_entry_in_prev_file fh = file_offset x).

Lemma stored_links L fm i r r' :
  log_wf L → fm_ok L fm → Forall readable L → (∀ x, x ∈ L → stored (files fm) x) →
  L !! i = Some r → L !! S i = Some r' → links_back (files fm) (r_lsn r) (r_lsn r').
Proof.
  intros Hwf Hfm Hrd Hst Hr Hr'.
  pose proof (list_elem_of_lookup_2 _ _ _ Hr) as Hin. pose proof (list_elem_of_lookup_2 _ _ _ Hr') as Hin'.
  destruct (wf_place L r' Hwf Hin') as (Hf' & Hoff' & _ & Hp' & _).
  destruct (wf_place L r Hwf Hin) as (Hf & _).
  destruct (stored_drop _ _ Hp' (Hst r' Hin')) as (d & rest & Hd & Hdrop).
  assert (in_u 32 (r_prev r')) as Hprev.
  { destruct (wf_links L i r r' Hwf Hr Hr') as [[_ ->]|(_ & -> & _)]; [|by unfold in_u].
    unfold file_offset, as_u. apply Z.mod_pos_bound. lia. }
  destruct (header_read_rec r' rest Hp' (Forall_lookup_1 _ _ _ _ Hrd Hr') Hprev) as (h & Eh & _ & Ehp).
  exists d, h. fold (r_file r) (r_file r'). rewrite Hoff', Nat2Z.id, Hdrop.
  split_and!; [done|done|].
  destruct (wf_links L i r r' Hwf Hr Hr') as [[Ef Ep]|(Ef & Ep & El)]; [left; by rewrite Ehp|right].
  split_and!; [done|by rewrite Ehp|].
  destruct (fo_files L fm Hfm _ _ Hd) as [_ Hh]. exists (FileHeader.new (r_file r') (link L (r_file r'))).
  rewrite <- (take_drop FILE_HEADER_SIZE d), Hh. unfold header. rewrite read_from_write_to.
  - split_and!; [done|done|]. cbn [FileHeader.last_entry_in_prev_file FileHeader.new]. unfold link.
    unfold in_u in Hf. rewrite (proj2 (Z.ltb_lt _ _)) by lia. by rewrite Ef, Z.add_simpl_r.
  - split; [apply created_at_range|split; [done|split; [by apply link_range|done]]].
Qed.

(** C17. The links of the log lead back through all of it: after any sequence of
    operations and a flush, the entry of each append is in its file, its header
    holds the offset of the entry before it in the file, 0 for the first one of
    a file, and the header of each file holds the offset of the last entry of
    the file before. *)
Theorem log_walks_back (max_file_size : Z) (cache num_buffers buffer_size : nat)
    (ops : list LogOp) (a : ALog) (outs : list LogOut)
    (Hmax : max_file_size < 2 ^ 32) (Hbuf : (2 ≤ num_buffers)%nat)
    (Hops : run_steps alog_step {| a_entries := []; a_durable := 0 |} ops = Some (a, outs)) :
  ∃ l c outs', open_log ∅ max_file_size cache num_buffers buffer_size = Some l ∧
    run_steps client_step {| c_log := l; c_lsns := [] |} (ops ++ [OpFlushNoSync]) = Some (c, outs') ∧
    length (c_lsns c) = length (a_entries a) ∧
    ∀ i x y, c_lsns c !! i = Some x → c_lsns c !! S i = Some y →
      links_back (files (file_manager (c_log c))) x y.
Proof.
  destruct (open_empty_ok max_file_size cache num_buffers buffer_size Hbuf Hmax) as (l & El & Hc).
  destruct (run_steps_refine client_ok client_step alog_step client_refines _ _ _ _ _ Hc Hops)
    as (c & Ec & [(L & Hinv & Hlsns & Hes & Hnd & Hrd & Hd) _]).
  destruct (flush_no_sync_inv L (c_log c) Hinv) as (l' & Ef & Hinv' & _ & Hn & _).
  exists l, {| c_log := l'; c_lsns := r_lsn <$> L |}, (outs ++ [OutDone]).
  split_and!; [done| |cbn [c_lsns]; by rewrite Hes, !length_fmap|].
  - eapply run_steps_snoc; [exact Ec|]. cbn [client_step]. rewrite Ef. cbn [done].
    by rewrite app_nil_r, Hlsns.
  - intros i x y. cbn [c_lsns c_log]. rewrite !list_lookup_fmap_Some.
    intros (r & -> & Hr) (r' & -> & Hr'). destruct Hinv' as [Hwf Hfm _ _ Hcells _ _ _].
    apply (stored_links L _ i); try done. by apply (all_stored L (pend (buffers (buffer_pool l')))).
Qed.

(** ** An entry that is too large to be read *)

Lemma search_new n size lsn order :
  is_null lsn = false → (∀ i, i ∈ order → (i < n)%nat) →
  search_buffers (buffers (LogBufferPool_new n size)) lsn order = Some None.
Proof.
  intros Hn. induction order as [|i order IH]; intros Ho; [done|]. cbn [search_buffers].
  cbn [buffers LogBufferPool_new] in *. rewrite lookup_replicate_2 by (apply Ho; by left).
  cbn [mbind option_bind]. unfold contains_lsn. rewrite Hn. cbn [first_lsn LogBuffer_new].
  apply IH. intros j Hj. apply Ho. by right.
Qed.

Lemma read_new fm n size lsn :
  is_null lsn = false → 0 ≤ lsn → (0 < n)%nat →
  read_entry lsn (LogManager_new fm n size) = read_entry_from_disk lsn (LogManager_new fm n size).
Proof.
  intros Hn Hlsn Hpos. unfold read_entry, bind at 1, get.
  cbn [buffer_pool LogManager_new min_buffer_lsn LogBufferPool_new].
  rewrite (proj2 (Z.leb_le _ _)) by done. unfold get_read_buffer_bytes_by_lsn.
  rewrite (proj2 (Z.ltb_ge _ _)) by done. rewrite search_new; [done|done|].
  intros i. rewrite elem_of_app, list_elem_of_singleton, list_elem_of_In, filter_In, <- list_elem_of_In, elem_of_seq.
  cbn [buffers LogBufferPool_new current_write_buffer_index]. rewrite length_replicate. lia.
Qed.

(** Appends accept what reads refuse.  A payload of more than 100,000,000 bytes
    is appended, flushed and synced without an error; a read of its LSN after
    the log is opened again reports an invalid size. *)
Theorem large_entry_unreadable (max_file_size : Z) (cache num_buffers buffer_size : nat)
    (t : LogEntryType) (payload : list Z)
    (Hmax : max_file_size < 2 ^ 32) (Hbuf : (2 ≤ num_buffers)%nat)
    (Hlarge : MAX_READ_SIZE < Z.of_nat (length payload) ≤ MAX_PAYLOAD) :
  ∃ l l1 lsn l2 l3, open_log ∅ max_file_size cache num_buffers buffer_size = Some l ∧
    log t payload PNo false true l = Some (l1, Ok lsn) ∧
    open_log (durable (file_manager l1)) max_file_size cache num_buffers buffer_size = Some l2 ∧
    read_entry lsn l2 =
      Some (l3, Err (InvalidEntrySize lsn (as_i 32 (Z.of_nat (length payload))))).
Proof.
  destruct (open_empty_ok max_file_size cache num_buffers buffer_size Hbuf Hmax)
    as (l & El & [(L & Hinv & HL & _) Hm]). cbn [c_log c_lsns] in *.
  symmetry in HL. apply fmap_nil_inv in HL as ->.
  destruct (log_internal_ok [] l t payload PNo false true None Hinv) as (l1 & r & E1 & Er & Hinv1 & _ & _ & Hs);
    [lia|done|done|]. specialize (Hs eq_refl).
  assert (r ∈ [r]) as Hr by set_solver. pose proof Hinv1 as [Hwf Hfm _ _ _ Hdur _ _]. cbn [app] in *.
  destruct (wf_place _ r Hwf Hr) as (_ & Hoff & _ & Hp & _). destruct (wf_lsn _ r Hwf Hr) as [[Hpos _] Hnn].
  destruct (FileManager_new_ok (durable (file_manager l1)) max_file_size cache) as (c & E2).
  { intros f d. by apply (durable_headers [r]). }
  set (l2 := LogManager_new (set_cache (initial_manager (durable (file_manager l1)) false max_file_size cache) c)
               num_buffers buffer_size).
  destruct (read_large l2 r) as (c' & E3).
  - split; try done. intros f d. by apply (durable_headers [r]).
  - done.
  - unfold readable. injection Er as _ ->. lia.
  - done.
  - apply Hdur; [done|by left].
  - assert (r_payload r = payload) as Hpay by congruence. rewrite Hpay in E3.
    exists l, l1, (r_lsn r), l2. eexists. split_and!; [done|exact E1| |].
    + unfold open_log. by rewrite E2.
    + unfold l2. rewrite read_new by (done || lia). exact E3.
Qed.

End store.

(** ** Witnesses *)

(** A platform with a checksum that is easy to evaluate. *)
Definition sum_crc (l : list Z) : Z := foldr (λ b h, (b + 31 * h) mod 2 ^ 32) 7 l.

Lemma sum_crc_range l : in_u 32 (sum_crc l).
Proof. destruct l; unfold in_u; simpl; [lia|]. apply Z.mod_pos_bound. lia. Qed.

Lemma epoch_range (f : Z) : in_u 64 1700000000000.
Proof. by unfold in_u. Qed.

Definition sum_platform : Platform :=
  {| crc32 := sum_crc; created_at := λ _, 1700000000000; lru_evict := take; crc32_range := sum_crc_range;
     created_at_range := epoch_range |}.

(** Files of 200 bytes and two buffers of 64: the third entry goes straight to
    the second file, the last two are in a buffer. *)
Definition demo_ops : list LogOp :=
  [OpLog InsertLNTxn [1; 2; 3] PNo None false false; OpLog TxnCommit [] PNo (Some 7) false true;
   OpLog BIN (replicate 100 9) PYes None false false; OpRead 0; OpForceNewFile;
   OpLog CkptEnd [5] PNo None true false; OpLog Trace [6] PNo None false false; OpRead 4].

Definition demo_log : ALog :=
  {| a_entries := [(InsertLNTxn, [1; 2; 3]); (TxnCommit, []); (BIN, replicate 100 9); (CkptEnd, [5]);
                   (Trace, [6])]; a_durable := 2 |}.
Definition demo_outs : list LogOut :=
  [OutAppended 0; OutAppended 1; OutAppended 2; OutEntry (InsertLNTxn, [1; 2; 3]); OutDone;
   OutAppended 3; OutAppended 4; OutEntry (Trace, [6])].

Lemma demo_run : run_steps alog_step {| a_entries := []; a_durable := 0 |} demo_ops = Some (demo_log, demo_outs).
Proof. vm_compute. reflexivity. Qed.

Lemma log_refines_entries_witness :
  ∃ l c, @open_log sum_platform ∅ 200 2 2 64 = Some l ∧
    run_steps (@client_step sum_platform) {| c_log := l; c_lsns := [] |} demo_ops = Some (c, demo_outs) ∧
    StronglySorted Z.lt (c_lsns c).
Proof.
  destruct (@log_refines_entries sum_platform 200 2 2 64 demo_ops demo_log demo_outs) as (l & c & H1 & H2 & H3 & _);
    [lia|lia|exact demo_run|].
  exists l, c. split; [exact H1|]. split; [exact H2|exact H3].
Defined.

Lemma log_walks_back_witness :
  ∃ l c outs', @open_log sum_platform ∅ 200 2 2 64 = Some l ∧
    run_steps (@client_step sum_platform) {| c_log := l; c_lsns := [] |} (demo_ops ++ [OpFlushNoSync]) =
      Some (c, outs') ∧ length (c_lsns c) = 5%nat.
Proof.
  destruct (@log_walks_back sum_platform 200 2 2 64 demo_ops demo_log demo_outs)
    as (l & c & outs' & H1 & H2 & H3 & _); [lia|lia|exact demo_run|].
  exists l, c, outs'. split; [exact H1|]. split; [exact H2|exact H3].
Defined.
