(* ===== verification/TxnOps.v ===== *)
(** * Transactions (noxu-txn, txn.rs)

    A transaction keeps the books of its locks and the LSNs of its log entries,
    and calls the lock manager and the log.  Its methods are programs: trees of
    calls with what follows each answer, so that [TxnSystem] can interleave the
    calls of many transactions.  A method takes [&mut self]: between two calls
    nobody else sees the books, and the program returns them.

    [HashOrder] is the order in which the hash tables of [hashbrown] are
    iterated. *)

From S2P Require Import Prelude Bytes LockType LockImpl Lock Deadlock LockManager LockSystem.
From S2P Require Import Reader Lsn LogEntry.

(** ** Programs *)

(** The calls.  [BufferCommit] asks the group commit, [Elapsed] and [Now] the
    clock, [NoteFirst] is the shared map of first LSNs, [Hook] a hook or a
    callback; the last ones go to the environment, to the databases and to the
    replicas. *)
Inductive call :=
| LmLock (r : request) (non_blocking : bool)
| LmTimeout
| LmSteal (lsn : Z) (t : LockType)
| LmRelease (lsn : Z)
| LmDemote (lsn : Z)
| LmOwnedType (lsn : Z)
| LmProbe (lsn : Z)
| LmClearPreempted
| LmSetNonPreemptable (b : bool)
| LogAppend (t : LogEntryType) (payload : list Z) (flush fsync : bool)
| LogSync (lsn : Z)
| LogFlush
| LogObsolete (infos : list (Z * Z * Z))
| BufferCommit
| Elapsed (since : Z)
| Now
| NoteFirst (lsn : Z)
| Hook (n : nat)
| EnvValid
| WritesRefused
| ReplicaScreened
| AwaitAcks
| UndoDelete (db : Z) (key : list Z)
| UndoInsert (db : Z) (key data : list Z) (lsn : Z).

Inductive AckWaitErrorKind := NotMaster | AckTimeout | AckShutdown.

Definition answer (c : call) : Type :=
  match c with
  | LmLock _ _ => result LockGrantType TxnError
  | LmTimeout | Elapsed _ | Now => Z
  | LmOwnedType _ => option LockType
  | LmSteal _ _ | LmProbe _ | BufferCommit | EnvValid | WritesRefused | ReplicaScreened => bool
  | AwaitAcks => option AckWaitErrorKind
  | LogAppend _ _ _ _ | LogSync _ | LogFlush => result Z string
  | _ => unit
  end.

Inductive Prog (A : Type) : Type :=
| Ret (a : A)
| Do (c : call) (k : answer c → Prog A).
Arguments Ret {A} a.
Arguments Do {A} c k.

Fixpoint seq_ {A B} (p : Prog A) (k : A → Prog B) : Prog B :=
  match p with
  | Ret a => k a
  | Do c f => Do c (λ x, seq_ (f x) k)
  end.

Notation "'let*' x := p 'in' k" := (seq_ p (λ x, k))
  (at level 10, x pattern, p at level 200, k at level 200).
Notation "'do*' x := c 'in' k" := (Do c (λ x, k))
  (at level 10, x pattern, c at level 200, k at level 200).

(** A call for each element. *)
Fixpoint for_each {X A} (f : X → Prog unit) (l : list X) (k : Prog A) : Prog A :=
  match l with
  | [] => k
  | x :: l => let* _ := f x in for_each f l k
  end.

Class HashOrder := {
  iter : gset Z → list Z;
  iter_perm : ∀ s, iter s ≡ₚ elements s;
}.

(** ** Data *)

Record WriteLockInfo := {
  abort_lsn : Z;
  abort_known_deleted : bool;
  abort_key : option (list Z);
  abort_data : option (list Z);
  abort_counted_at_log_time : bool;
  abort_vlsn : Z;
  abort_log_size : Z;
  abort_expiration : Z;
  abort_expiration_in_hours : bool;
  never_locked : bool;
  database_id : Z;
}.

Definition WriteLockInfo_new : WriteLockInfo :=
  {| abort_lsn := NULL_LSN; abort_known_deleted := false; abort_key := None; abort_data := None;
     abort_counted_at_log_time := false; abort_vlsn := -1; abort_log_size := 0;
     abort_expiration := 0; abort_expiration_in_hours := false; never_locked := true;
     database_id := 0 |}.

Definition set_abort_info (w : WriteLockInfo) (lsn : Z) (key data : option (list Z))
    (vlsn log_size : Z) (known_deleted : bool) (expiration : Z) (in_hours : bool) : WriteLockInfo :=
  {| abort_lsn := lsn; abort_known_deleted := known_deleted; abort_key := key; abort_data := data;
     abort_counted_at_log_time := abort_counted_at_log_time w; abort_vlsn := vlsn;
     abort_log_size := log_size; abort_expiration := expiration;
     abort_expiration_in_hours := in_hours; never_locked := never_locked w;
     database_id := database_id w |}.

Record UndoRecord := {
  u_current_lsn : Z;
  u_abort_lsn : Z;
  u_abort_known_deleted : bool;
  u_abort_data : option (list Z);
  u_abort_key : option (list Z);
  u_database_id : Z;
}.

Inductive Durability := CommitSync | CommitWriteNoSync | CommitNoSync.
Inductive TxnState := Open | MustAbort | Committed | Aborted.

#[export] Instance TxnState_eq_dec : EqDecision TxnState.
Proof. solve_decision. Defined.

Definition IS_PREPARED : Z := 1.
Definition IS_AUTO_TXN : Z := 16.
Definition SUPPRESS_OWN_END_FRAME : Z := 32.

(** The end of a transaction in the log, as noxu-txn writes it. *)
Definition end_payload (id timestamp_ms last_lsn rep_master_node_id dtvlsn : Z) : list Z :=
  be_bytes 8 (as_u 64 id) ++ be_bytes 8 timestamp_ms ++ be_bytes 8 last_lsn ++
  be_bytes 4 (as_u 32 rep_master_node_id) ++ be_bytes 8 (as_u 64 dtvlsn).

(** The fields that only setters change; [group_commit], [has_log] and the
    hooks say whether there is one, [sink] whether first LSNs are reported. *)
Record Options := {
  lock_timeout_ms : Z;
  txn_timeout_ms : Z;
  txn_start : Z;
  read_uncommitted_default : bool;
  no_wait : bool;
  local_write : bool;
  serializable_isolation : bool;
  read_committed_isolation : bool;
  has_log : bool;
  sink : bool;
  pre_commit_hook : option nat;
  post_commit_hook : option nat;
  group_commit : bool;
}.

Module Txn.

Record t := {
  id : Z;
  state : TxnState;
  txn_flags : Z;
  read_locks : gset Z;
  write_locks : gmap Z WriteLockInfo;
  last_lsn : Z;
  first_lsn : Z;
  cursor_count : Z;
  importunate : bool;
  undo_records : list UndoRecord;
  commit_lsn : Z;
  abort_lsn : Z;
  precommit_catalog_callbacks : list nat;
  opts : Options;
}.

Definition new_with_flags (id flags : Z) (o : Options) : t :=
  {| id := id; state := Open; txn_flags := flags; read_locks := ∅; write_locks := ∅;
     last_lsn := NULL_LSN; first_lsn := NULL_LSN; cursor_count := 0; importunate := false;
     undo_records := []; commit_lsn := NULL_LSN; abort_lsn := NULL_LSN;
     precommit_catalog_callbacks := []; opts := o |}.

(** Field assignments. *)
Definition with_locks (x : t) (r : gset Z) (w : gmap Z WriteLockInfo) : t :=
  {| id := id x; state := state x; txn_flags := txn_flags x; read_locks := r; write_locks := w;
     last_lsn := last_lsn x; first_lsn := first_lsn x; cursor_count := cursor_count x;
     importunate := importunate x; undo_records := undo_records x; commit_lsn := commit_lsn x;
     abort_lsn := abort_lsn x; precommit_catalog_callbacks := precommit_catalog_callbacks x;
     opts := opts x |}.
Definition with_state (x : t) (s : TxnState) (flags : Z) : t :=
  {| id := id x; state := s; txn_flags := flags; read_locks := read_locks x;
     write_locks := write_locks x; last_lsn := last_lsn x; first_lsn := first_lsn x;
     cursor_count := cursor_count x; importunate := importunate x;
     undo_records := undo_records x; commit_lsn := commit_lsn x; abort_lsn := abort_lsn x;
     precommit_catalog_callbacks := precommit_catalog_callbacks x; opts := opts x |}.
Definition with_lsns (x : t) (first last commit abort : Z) : t :=
  {| id := id x; state := state x; txn_flags := txn_flags x; read_locks := read_locks x;
     write_locks := write_locks x; last_lsn := last; first_lsn := first;
     cursor_count := cursor_count x; importunate := importunate x;
     undo_records := undo_records x; commit_lsn := commit; abort_lsn := abort;
     precommit_catalog_callbacks := precommit_catalog_callbacks x; opts := opts x |}.
Definition with_undo (x : t) (u : list UndoRecord) : t :=
  {| id := id x; state := state x; txn_flags := txn_flags x; read_locks := read_locks x;
     write_locks := write_locks x; last_lsn := last_lsn x; first_lsn := first_lsn x;
     cursor_count := cursor_count x; importunate := importunate x; undo_records := u;
     commit_lsn := commit_lsn x; abort_lsn := abort_lsn x;
     precommit_catalog_callbacks := precommit_catalog_callbacks x; opts := opts x |}.
Definition with_misc (x : t) (cursors : Z) (imp : bool) (cbs : list nat) (o : Options) : t :=
  {| id := id x; state := state x; txn_flags := txn_flags x; read_locks := read_locks x;
     write_locks := write_locks x; last_lsn := last_lsn x; first_lsn := first_lsn x;
     cursor_count := cursors; importunate := imp; undo_records := undo_records x;
     commit_lsn := commit_lsn x; abort_lsn := abort_lsn x; precommit_catalog_callbacks := cbs;
     opts := o |}.

Definition set_state (x : t) (s : TxnState) : t := with_state x s (txn_flags x).
Definition clear_callbacks (x : t) : t := with_misc x (cursor_count x) (importunate x) [] (opts x).

(** ** The code: observers *)

Definition flag (x : t) (mask : Z) : bool := negb (Z.land (txn_flags x) mask =? 0).
Definition is_auto_txn (x : t) : bool := flag x IS_AUTO_TXN.
Definition is_prepared (x : t) : bool := flag x IS_PREPARED.
Definition suppress_own_end_frame (x : t) : bool := flag x SUPPRESS_OWN_END_FRAME.
Definition has_logged_entries (x : t) : bool := negb (last_lsn x =? NULL_LSN).
Definition has_open_cursors (x : t) : bool := 0 <? cursor_count x.
Definition owns_write_lock (x : t) (lsn : Z) : bool := bool_decide (lsn ∈ dom (write_locks x)).
Definition owns_any_lock (x : t) (lsn : Z) : bool :=
  bool_decide (lsn ∈ read_locks x) || owns_write_lock x lsn.

Definition invalid (x : t) (s : string) : TxnError := InvalidTransaction (id x) s.

Definition check_state (x : t) : result unit TxnError :=
  match state x with
  | Open => Ok ()
  | MustAbort => Err (invalid x "MUST_ABORT")
  | Committed => Err (invalid x "COMMITTED")
  | Aborted => Err (invalid x "ABORTED")
  end.

Definition set_only_abortable (x : t) : t :=
  if decide (state x = Open) then set_state x MustAbort else x.

Definition write_lock_abort_recorded (x : t) (lsn : Z) : bool :=
  match write_locks x !! lsn with Some w => negb (never_locked w) | None => false end.

Definition recorded_abort_lsn (x : t) (lsn : Z) : option Z :=
  w ← write_locks x !! lsn; if never_locked w then None else Some (TxnOps.abort_lsn w).

(** ** The code: locks *)

(** [LockManager::lock]: the timeout of the manager. *)
Definition lm_lock (lsn : Z) (ty : LockType) (nb : bool) : Prog (result LockGrantType TxnError) :=
  do* timeout := LmTimeout in
  do* r := LmLock (mkRequest lsn ty timeout None) nb in Ret r.

Definition lock_importunate_with_timeout (lsn : Z) (ty : LockType) (nb : bool) (timeout : Z)
    : Prog (result LockGrantType TxnError) :=
  if bool_decide (ty = NoLock) then Ret (Ok NoneNeeded)
  else if bool_decide (ty = RestartLock) then Ret (Err RangeRestart)
  else
    let* r := lm_lock lsn ty true in
    match r with
    | Ok g => Ret (Ok g)
    | Err (LockNotAvailable _) =>
        do* stolen := LmSteal lsn ty in
        if stolen then Ret (Ok New)
        else if nb then Ret (Err (LockNotAvailable lsn))
        else do* r := LmLock (mkRequest lsn ty timeout None) false in Ret r
    | Err e => Ret (Err e)
    end.

Definition txn_timeout_remaining_ms (x : t) : Prog (option Z) :=
  if txn_timeout_ms (opts x) =? 0 then Ret None
  else
    do* elapsed := Elapsed (txn_start (opts x)) in
    Ret (Some (Z.max 0 (txn_timeout_ms (opts x) - elapsed))).

(** A failed request that poisons the transaction. *)
Definition poisons (e : TxnError) : bool :=
  match e with
  | LockConflictError _ | LockTimeout _ _ _ _ _ | TransactionTimeout _ _ | DeadlockError _ _ _ _ => true
  | _ => false
  end.

Definition with_txn_timeout (x : t) (e : TxnError) : TxnError :=
  match e with
  | TransactionTimeout _ txn => TransactionTimeout (txn_timeout_ms (opts x)) txn
  | e => e
  end.

Definition track (x : t) (lsn : Z) (ty : LockType) : t * option WriteLockInfo :=
  if is_write_lock ty
  then
    let w := default WriteLockInfo_new (write_locks x !! lsn) in
    (with_locks x (read_locks x ∖ {[lsn]}) (<[lsn := w]> (write_locks x)), Some w)
  else (with_locks x ({[lsn]} ∪ read_locks x) (write_locks x), None).

Definition lock (x : t) (lsn : Z) (ty : LockType) (non_blocking : bool)
    : Prog (t * result (LockGrantType * option WriteLockInfo) TxnError) :=
  match check_state x with
  | Err e => Ret (x, Err e)
  | Ok _ =>
      let nb := non_blocking || no_wait (opts x) in
      let timeout := lock_timeout_ms (opts x) in
      let* raw :=
        (if importunate x then lock_importunate_with_timeout lsn ty nb timeout
         else
           let* remaining := txn_timeout_remaining_ms x in
           do* r := LmLock (mkRequest lsn ty timeout remaining) nb in
           Ret (match r with Ok g => Ok g | Err e => Err (with_txn_timeout x e) end)) in
      match raw with
      | Err e =>
          Ret (if negb non_blocking && poisons e then set_only_abortable x else x, Err e)
      | Ok NoneNeeded => Ret (x, Ok (NoneNeeded, None))
      | Ok g => let '(x, w) := track x lsn ty in Ret (x, Ok (g, w))
      end
  end.

Definition release_lock (x : t) (lsn : Z) : Prog (t * result unit TxnError) :=
  if bool_decide (lsn ∈ read_locks x)
  then
    do* _ := LmRelease lsn in
    Ret (with_locks x (read_locks x ∖ {[lsn]}) (write_locks x), Ok ())
  else Ret (x, Ok ()).

Definition holds_range_insert (x : t) (lsn : Z) : Prog bool :=
  if bool_decide (lsn ∈ read_locks x)
  then do* ty := LmOwnedType lsn in Ret (bool_decide (ty = Some RangeInsert))
  else Ret false.

Definition release_range_insert_for_write (x : t) (lsn : Z) : Prog (t * bool) :=
  if owns_write_lock x lsn || negb (bool_decide (lsn ∈ read_locks x)) then Ret (x, false)
  else
    do* ty := LmOwnedType lsn in
    if bool_decide (ty = Some RangeInsert)
    then
      do* _ := LmRelease lsn in
      Ret (with_locks x (read_locks x ∖ {[lsn]}) (write_locks x), true)
    else Ret (x, false).

Definition probe_read_uncontended (x : t) (lsn : Z) : Prog (result bool TxnError) :=
  match check_state x with
  | Err e => Ret (Err e)
  | Ok _ => do* b := LmProbe lsn in Ret (Ok b)
  end.

Definition demote_lock (x : t) (lsn : Z) : Prog (t * result unit TxnError) :=
  match check_state x with
  | Err e => Ret (x, Err e)
  | Ok _ =>
      if owns_write_lock x lsn
      then
        do* _ := LmDemote lsn in
        Ret (with_locks x ({[lsn]} ∪ read_locks x) (delete lsn (write_locks x)), Ok ())
      else Ret (x, Ok ())
  end.

Definition move_write_lock_to_new_lsn (x : t) (old_lsn new_lsn : Z) : Prog (t * result unit TxnError) :=
  match write_locks x !! old_lsn with
  | None => Ret (x, Ok ())
  | Some wli =>
      let* r := lm_lock new_lsn Write false in
      match r with
      | Err e => Ret (x, Err e)
      | Ok _ =>
          let w := <[new_lsn := wli]> (delete old_lsn (write_locks x)) in
          Ret (with_locks x (read_locks x) (<[old_lsn := WriteLockInfo_new]> w), Ok ())
      end
  end.

Definition set_write_lock_abort_info (x : t) (lsn abort_lsn : Z) (key data : option (list Z))
    (known_deleted : bool) (database_id : Z) : t :=
  match write_locks x !! lsn with
  | Some w =>
      if never_locked w
      then
        let w := set_abort_info w abort_lsn key data (-1) 0 known_deleted 0 false in
        with_locks x (read_locks x)
          (<[lsn := {| TxnOps.abort_lsn := TxnOps.abort_lsn w;
                       abort_known_deleted := abort_known_deleted w; abort_key := abort_key w;
                       abort_data := abort_data w;
                       abort_counted_at_log_time := abort_counted_at_log_time w;
                       abort_vlsn := abort_vlsn w; abort_log_size := abort_log_size w;
                       abort_expiration := abort_expiration w;
                       abort_expiration_in_hours := abort_expiration_in_hours w;
                       never_locked := false; database_id := database_id |}]> (write_locks x))
      else x
  | None => x
  end.

Definition lock_after_lsn_change (x : t) (old_lsn new_lsn : Z) : Prog (t * result unit TxnError) :=
  match write_locks x !! old_lsn with
  | Some wli =>
      do* _ := LmRelease old_lsn in
      let* _ := lm_lock new_lsn Write false in
      Ret (with_locks x (read_locks x) (<[new_lsn := wli]> (delete old_lsn (write_locks x))), Ok ())
  | None =>
      if bool_decide (old_lsn ∈ read_locks x)
      then
        do* _ := LmRelease old_lsn in
        let* _ := lm_lock new_lsn Read false in
        Ret (with_locks x ({[new_lsn]} ∪ (read_locks x ∖ {[old_lsn]})) (write_locks x), Ok ())
      else Ret (x, Ok ())
  end.

(** ** The code: log entries *)

Definition note_log_entry (x : t) (lsn : Z) : Prog t :=
  let x' := with_lsns x (if first_lsn x =? NULL_LSN then lsn else first_lsn x) lsn (commit_lsn x)
              (abort_lsn x) in
  if (first_lsn x =? NULL_LSN) && sink (opts x)
  then do* _ := NoteFirst lsn in Ret x'
  else Ret x'.

Definition log_entry (x : t) (ty : LogEntryType) (payload : list Z) (fsync : bool)
    : Prog (result Z TxnError) :=
  if has_log (opts x)
  then
    do* r := LogAppend ty payload true fsync in
    Ret (match r with Ok lsn => Ok lsn | Err e => Err (LogError e) end)
  else Ret (Ok NULL_LSN).

Section ops.
Context `{HashOrder}.

(** The versions that the commit makes obsolete, each LSN once. *)
Fixpoint collect_obsolete (ws : gmap Z WriteLockInfo) (lsns : list Z) (seen : gset Z)
    : list (Z * Z * Z) :=
  match lsns with
  | [] => []
  | k :: lsns =>
      match ws !! k with
      | None => collect_obsolete ws lsns seen
      | Some w =>
          let a := TxnOps.abort_lsn w in
          if (a =? NULL_LSN) || abort_known_deleted w then collect_obsolete ws lsns seen
          else if abort_counted_at_log_time w then collect_obsolete ws lsns seen
          else if bool_decide (a ∈ seen) then collect_obsolete ws lsns seen
          else (a, as_u 32 (database_id w), abort_log_size w) :: collect_obsolete ws lsns ({[a]} ∪ seen)
      end
  end.

Definition collect_obsolete_abort_lsns (x : t) : list (Z * Z * Z) :=
  if has_log (opts x) then collect_obsolete (write_locks x) (iter (dom (write_locks x))) ∅ else [].

Definition merge_obsolete_lsns (x : t) (infos : list (Z * Z * Z)) : Prog unit :=
  match infos with
  | [] => Ret ()
  | _ => if has_log (opts x) then do* _ := LogObsolete infos in Ret () else Ret ()
  end.

(** ** The code: the end of a transaction *)

Definition release_each {A} (lsns : list Z) (k : Prog A) : Prog A :=
  for_each (λ lsn, do* _ := LmRelease lsn in Ret ()) lsns k.

Definition release_all_locks (x : t) : Prog t :=
  release_each (iter (dom (write_locks x)))
    (release_each (iter (read_locks x))
      (do* _ := LmClearPreempted in
       Ret (with_locks (clear_callbacks x) ∅ ∅))).

Inductive PendingSync := PsCommit (commit_lsn : Z) | PsLn (ln_lsn : Z) | PsNone.

Record PendingCommit := {
  assigned_lsn : Z;
  pending_sync : PendingSync;
  obsolete_lsns : list (Z * Z * Z);
}.

Definition run_hook (h : option nat) : Prog unit :=
  match h with Some n => do* _ := Hook n in Ret () | None => Ret () end.

Definition commit_append_phase (x : t) : Prog (result PendingCommit TxnError) :=
  let obsolete := collect_obsolete_abort_lsns x in
  if has_logged_entries x && negb (is_auto_txn x)
  then
    if suppress_own_end_frame x
    then Ret (Ok {| assigned_lsn := NULL_LSN; pending_sync := PsNone; obsolete_lsns := obsolete |})
    else
      let* _ := run_hook (pre_commit_hook (opts x)) in
      do* now := Now in
      let* r := log_entry x TxnCommit (end_payload (id x) now (last_lsn x) 0 0) false in
      match r with
      | Err e => Ret (Err e)
      | Ok lsn =>
          let* _ := run_hook (post_commit_hook (opts x)) in
          Ret (Ok {| assigned_lsn := lsn; pending_sync := PsCommit lsn; obsolete_lsns := obsolete |})
      end
  else if is_auto_txn x && has_logged_entries x
  then Ret (Ok {| assigned_lsn := NULL_LSN; pending_sync := PsLn (last_lsn x);
                  obsolete_lsns := obsolete |})
  else Ret (Ok {| assigned_lsn := NULL_LSN; pending_sync := PsNone; obsolete_lsns := [] |}).

Definition log_result (r : result Z string) : result unit TxnError :=
  match r with Ok _ => Ok () | Err e => Err (LogError e) end.

Definition commit_durable_phase (x : t) (d : Durability) (p : PendingSync) : Prog (result unit TxnError) :=
  let log := has_log (opts x) in
  let flush :=
    match d with
    | CommitWriteNoSync => if log then do* r := LogFlush in Ret (log_result r) else Ret (Ok ())
    | _ => Ret (Ok ())
    end in
  match p, d with
  | PsCommit lsn, CommitSync =>
      let* skip := (if group_commit (opts x) then do* b := BufferCommit in Ret b else Ret false) in
      if negb skip && log then do* r := LogSync lsn in Ret (log_result r) else Ret (Ok ())
  | PsCommit _, _ => flush
  | PsLn lsn, CommitSync =>
      if log then do* r := LogSync lsn in Ret (log_result r) else Ret (Ok ())
  | PsLn _, _ => flush
  | PsNone, _ => Ret (Ok ())
  end.

Definition commit_with_durability (x : t) (d : Durability) : Prog (t * result Z TxnError) :=
  if is_prepared x then Ret (x, Err (invalid x "PREPARED"))
  else
    match check_state x with
    | Err e => let* x := release_all_locks x in Ret (x, Err e)
    | Ok _ =>
        if has_open_cursors x then Ret (x, Err (invalid x "has open cursors"))
        else
          release_each (iter (read_locks x))
          (let x := with_locks x ∅ (write_locks x) in
           let* r := commit_append_phase x in
           match r with
           | Err e =>
               let* x := release_all_locks x in
               Ret (set_state x MustAbort, Err e)
           | Ok pending =>
               let x := with_lsns x (first_lsn x) (last_lsn x) (assigned_lsn pending) (abort_lsn x) in
               let* r := commit_durable_phase x d (pending_sync pending) in
               match r with
               | Err e =>
                   let* x := release_all_locks x in
                   Ret (set_state x MustAbort, Err e)
               | Ok _ =>
                   for_each (λ n, do* _ := Hook n in Ret ()) (precommit_catalog_callbacks x)
                   (let x := clear_callbacks x in
                    release_each (iter (dom (write_locks x)))
                    (let x := with_locks x (read_locks x) ∅ in
                     let* _ := merge_obsolete_lsns x (obsolete_lsns pending) in
                     do* _ := LmClearPreempted in
                     Ret (set_state x Committed, Ok (assigned_lsn pending))))
               end
           end)
    end.

Definition commit (x : t) : Prog (t * result Z TxnError) := commit_with_durability x CommitSync.

(** The undo information of the write locks. *)
Definition undo_of (ws : gmap Z WriteLockInfo) (lsn : Z) : option UndoRecord :=
  w ← ws !! lsn;
  if abort_known_deleted w || negb (TxnOps.abort_lsn w =? NULL_LSN)
  then Some {| u_current_lsn := lsn; u_abort_lsn := TxnOps.abort_lsn w;
               u_abort_known_deleted := abort_known_deleted w; u_abort_data := abort_data w;
               u_abort_key := abort_key w; u_database_id := database_id w |}
  else None.

Definition undo_info (x : t) : list UndoRecord :=
  omap (undo_of (write_locks x)) (iter (dom (write_locks x))).

(** The abort entry of a transaction that writes its own. *)
Definition log_abort (x : t) : Prog (result Z TxnError) :=
  if has_logged_entries x && negb (is_auto_txn x) && negb (suppress_own_end_frame x)
  then
    do* now := Now in
    log_entry x TxnAbort (end_payload (id x) now (last_lsn x) 0 0) false
  else Ret (Ok NULL_LSN).

Definition with_abort_lsn (x : t) (lsn : Z) : t :=
  with_lsns x (first_lsn x) (last_lsn x) (commit_lsn x) lsn.

Definition abort (x : t) : Prog (t * result Z TxnError) :=
  if decide (state x = Aborted) then Ret (x, Ok NULL_LSN)
  else if is_prepared x then Ret (x, Err (invalid x "PREPARED"))
  else if decide (state x = Committed) then Ret (x, Err (invalid x "COMMITTED"))
  else
    let x := set_state x Aborted in
    let* r := log_abort x in
    match r with
    | Err e => Ret (x, Err e)
    | Ok lsn =>
        let x := with_abort_lsn x lsn in
        let x := with_undo x (undo_records x ++ undo_info x) in
        let* x := release_all_locks x in
        Ret (x, Ok lsn)
    end.

(** The locks stay until the caller has applied the records. *)
Definition abort_collect_undo (x : t) : Prog (t * result (list UndoRecord) TxnError) :=
  if decide (state x = Aborted) then Ret (with_undo x [], Ok (undo_records x))
  else if decide (state x = Committed) then Ret (x, Err (invalid x "COMMITTED"))
  else
    let x := set_state x Aborted in
    let* r := log_abort x in
    match r with
    | Err e => Ret (x, Err e)
    | Ok lsn =>
        let x := with_abort_lsn x lsn in
        Ret (with_undo x (undo_records x ++ undo_info x), Ok (undo_info x))
    end.

Definition take_undo_records (x : t) : t * list UndoRecord := (with_undo x [], undo_records x).

Definition set_prepared (x : t) : t := with_state x (state x) (Z.lor (txn_flags x) IS_PREPARED).
Definition clear_prepared_flag (x : t) : t :=
  with_state x (state x) (Z.ldiff (txn_flags x) IS_PREPARED).

Definition prepare (x : t) (xid_format_id : Z) (xid_gtrid xid_bqual : list Z)
    : Prog (t * result Z TxnError) :=
  if is_prepared x then Ret (x, Err (invalid x "PREPARED"))
  else
    match check_state x with
    | Err e => Ret (x, Err e)
    | Ok _ =>
        if has_open_cursors x then Ret (x, Err (invalid x "has open cursors"))
        else if negb (has_logged_entries x) || suppress_own_end_frame x
        then Ret (set_prepared x, Ok NULL_LSN)
        else
          do* now := Now in
          match TxnPrep.new (id x) now (first_lsn x) (last_lsn x) xid_format_id xid_gtrid xid_bqual with
          | Err _ => Ret (x, Err (StateError "prepare"))
          | Ok entry =>
              let* r := log_entry x TxnPrepare (TxnPrep.write_to_log entry) true in
              match r with
              | Err e => Ret (x, Err e)
              | Ok lsn =>
                  let* r :=
                    (if has_log (opts x) then do* r := LogSync lsn in Ret (log_result r)
                     else Ret (Ok ())) in
                  match r with
                  | Err e => Ret (x, Err e)
                  | Ok _ =>
                      let* x := note_log_entry x lsn in
                      Ret (set_prepared x, Ok lsn)
                  end
              end
          end
    end.

Definition resolved_commit_after_prepare (x : t) : Prog (t * result Z TxnError) :=
  if is_prepared x then commit_with_durability (clear_prepared_flag x) CommitSync
  else Ret (x, Err (invalid x "not prepared")).

Definition resolved_abort_after_prepare (x : t) : Prog (t * result Z TxnError) :=
  if is_prepared x then abort (clear_prepared_flag x)
  else Ret (x, Err (invalid x "not prepared")).

Definition close (x : t) : Prog t :=
  match state x with
  | Open | MustAbort => let* (x, _) := abort x in Ret x
  | _ => Ret x
  end.

Definition set_importunate (x : t) (v : bool) : Prog t :=
  do* _ := LmSetNonPreemptable v in
  Ret (with_misc x (cursor_count x) v (precommit_catalog_callbacks x) (opts x)).

Definition register_cursor (x : t) : t :=
  with_misc x (as_i 32 (cursor_count x + 1)) (importunate x) (precommit_catalog_callbacks x) (opts x).
Definition unregister_cursor (x : t) : t :=
  with_misc x (as_i 32 (cursor_count x - 1)) (importunate x) (precommit_catalog_callbacks x) (opts x).
Definition register_precommit_catalog_callback (x : t) (n : nat) : t :=
  with_misc x (cursor_count x) (importunate x) (precommit_catalog_callbacks x ++ [n]) (opts x).

(** The setters of the other fields; the log and the shared map are fixed. *)
Definition set_options (x : t) (o : Options) : t :=
  with_misc x (cursor_count x) (importunate x) (precommit_catalog_callbacks x)
    {| lock_timeout_ms := lock_timeout_ms o; txn_timeout_ms := txn_timeout_ms o;
       txn_start := txn_start (opts x); read_uncommitted_default := read_uncommitted_default o;
       no_wait := no_wait o; local_write := local_write o;
       serializable_isolation := serializable_isolation o;
       read_committed_isolation := read_committed_isolation o; has_log := has_log (opts x);
       sink := sink (opts x); pre_commit_hook := pre_commit_hook o;
       post_commit_hook := post_commit_hook o; group_commit := group_commit o |}.

End ops.
End Txn.

(** ** Locks of a cursor (noxu-dbi, cursor_impl.rs), with a transaction *)

Module Cursor.

(** The lock of a read, [true] if it had to wait. *)
Definition lock_ln_mode (x : Txn.t) (op_read_uncommitted : bool) (lsn : Z) (range_lock : bool)
    : Prog (Txn.t * result bool TxnError) :=
  if lsn =? NULL_LSN then Ret (x, Ok false)
  else if op_read_uncommitted || read_uncommitted_default (Txn.opts x)
  then
    let* (x, r) := Txn.lock x lsn NoLock false in
    Ret (x, match r with Ok _ => Ok false | Err e => Err e end)
  else
    let ty := if range_lock && serializable_isolation (Txn.opts x) then RangeRead else Read in
    let rc := read_committed_isolation (Txn.opts x) in
    let* probed :=
      (if rc
       then
         let* h := Txn.holds_range_insert x lsn in
         if h then Ret (Ok false) else Txn.probe_read_uncontended x lsn
       else Ret (Ok false)) in
    match probed with
    | Err e => Ret (x, Err e)
    | Ok true => Ret (x, Ok false)
    | Ok false =>
        let* h := Txn.holds_range_insert x lsn in
        if h then Ret (x, Ok false)
        else
          let* (x, r) := Txn.lock x lsn ty true in
          let* (x, r) :=
            match r with
            | Ok _ => Ret (x, Ok false)
            | Err (LockNotAvailable _) =>
                let* (x, r) := Txn.lock x lsn ty false in
                Ret (x, match r with Ok _ => Ok true | Err e => Err e end)
            | Err e => Ret (x, Err e)
            end in
          match r with
          | Err e => Ret (x, Err e)
          | Ok contended =>
              if rc then
                let* (x, _) := Txn.release_lock x lsn in Ret (x, Ok contended)
              else Ret (x, Ok contended)
          end
    end.

(** The blocking lock of a re-read, [true] if the caller has to release it. *)
Definition lock_ln_hold (x : Txn.t) (lsn : Z) : Prog (Txn.t * result bool TxnError) :=
  if lsn =? NULL_LSN then Ret (x, Ok false)
  else if read_uncommitted_default (Txn.opts x)
  then
    let* (x, r) := Txn.lock x lsn NoLock false in
    Ret (x, match r with Ok _ => Ok false | Err e => Err e end)
  else
    let ty := if serializable_isolation (Txn.opts x) then RangeRead else Read in
    let* h := Txn.holds_range_insert x lsn in
    if h then Ret (x, Ok false)
    else
      let already_held := Txn.owns_any_lock x lsn in
      let* (x', r) := Txn.lock x lsn ty false in
      Ret (x', match r with
               | Ok _ => Ok (read_committed_isolation (Txn.opts x) && negb already_held)
               | Err e => Err e
               end).

Definition lock_ln_release_held (x : Txn.t) (lsn : Z) (held : bool) : Prog Txn.t :=
  if held then let* (x, _) := Txn.release_lock x lsn in Ret x else Ret x.

(** The write lock of a slot; [lsn_to_lock] is the LSN of the slot, or the
    synthetic one of the key when there is none. *)
Definition acquire_slot_write_lock (x : Txn.t) (lsn_to_lock : Z)
    : Prog (Txn.t * result LockGrantType TxnError) :=
  let* (x, _) := Txn.release_range_insert_for_write x lsn_to_lock in
  let* (x, r) := Txn.lock x lsn_to_lock Write false in
  Ret (x, match r with Ok (g, _) => Ok g | Err e => Err e end).

(** The lock of a slot that moved meanwhile is given back. *)
Definition revert_slot_write_lock (x : Txn.t) (lsn : Z) (grant : LockGrantType) : Prog Txn.t :=
  match grant with
  | New | WaitNew => let* (x, _) := Txn.release_lock x lsn in Ret x
  | Promotion | WaitPromotion => let* (x, _) := Txn.demote_lock x lsn in Ret x
  | _ => Ret x
  end.

Definition lock_write_before_log (x : Txn.t) (lsn_to_lock : Z) : Prog (Txn.t * result unit TxnError) :=
  let* (x, _) := Txn.release_range_insert_for_write x lsn_to_lock in
  let* (x, r) := Txn.lock x lsn_to_lock Write false in
  Ret (x, match r with Ok _ => Ok () | Err e => Err e end).

(** The lock of a deleted key, held to the end. *)
Definition lock_synthetic_key_for_delete (x : Txn.t) (synthetic_lsn : Z) : Prog (Txn.t * result unit TxnError) :=
  let* (x, r) := Txn.lock x synthetic_lsn Write false in
  Ret (x, match r with Ok _ => Ok () | Err e => Err e end).

(** The probe of a key that is not there; the own write lock is let alone. *)
Definition contest_synthetic_key_for_missing_read (x : Txn.t) (synthetic_lsn : Z)
    : Prog (Txn.t * result unit TxnError) :=
  if read_uncommitted_default (Txn.opts x) then Ret (x, Ok ())
  else if Txn.owns_write_lock x synthetic_lsn then Ret (x, Ok ())
  else
    let* (x, r) := Txn.lock x synthetic_lsn Read true in
    match r with
    | Ok _ => let* (x, _) := Txn.release_lock x synthetic_lsn in Ret (x, Ok ())
    | Err (LockNotAvailable _) =>
        let* (x, r) := Txn.lock x synthetic_lsn Read false in
        match r with
        | Ok _ => let* (x, _) := Txn.release_lock x synthetic_lsn in Ret (x, Ok ())
        | Err e => Ret (x, Err e)
        end
    | Err e => Ret (x, Err e)
    end.

(** The lock follows the record to the LSN of its new version. *)
Definition finalize_write_lock (x : Txn.t) (old_lsn : Z) (old_exists : bool) (new_lsn : Z)
    (abort_key abort_data : option (list Z)) (db_id : Z) (txn_manager : bool)
    : Prog (Txn.t * result unit TxnError) :=
  if new_lsn =? NULL_LSN then Ret (x, Ok ())
  else
    let* (x, r) :=
      (if negb (old_lsn =? NULL_LSN) then Txn.move_write_lock_to_new_lsn x old_lsn new_lsn
       else
         let* (x, r) := Txn.lock x new_lsn Write false in
         Ret (x, match r with Ok _ => Ok () | Err e => Err e end)) in
    match r with
    | Err e => Ret (x, Err e)
    | Ok _ =>
        let x :=
          Txn.set_write_lock_abort_info x new_lsn old_lsn abort_key abort_data (negb old_exists) db_id in
        let* x := Txn.note_log_entry x new_lsn in
        if txn_manager then do* _ := NoteFirst new_lsn in Ret (x, Ok ()) else Ret (x, Ok ())
    end.

End Cursor.

(** ** Transactions of the public interface (noxu-db, transaction.rs) *)

Module Transaction.

Inductive TransactionState := TrOpen | TrPrepared | TrCommitted | TrAborted | TrMustAbort.

(** A transaction of an environment; [acks] says that there is a coordinator
    and that the policy waits for replicas.  Its id is that of the inner one. *)
Record t := {
  tr_state : TransactionState;
  read_only : bool;
  log_manager : bool;
  acks : bool;
  inner : Txn.t;
}.

Definition set_inner (x : t) (i : Txn.t) : t :=
  {| tr_state := tr_state x; read_only := read_only x; log_manager := log_manager x; acks := acks x;
     inner := i |}.
Definition set_tr_state (x : t) (s : TransactionState) : t :=
  {| tr_state := s; read_only := read_only x; log_manager := log_manager x; acks := acks x;
     inner := inner x |}.

Inductive NoxuError :=
| EnvironmentFailure
| OperationNotAllowed (what : string)
| ReplicationNotSupported
| ReplicaWrite
| LogWriteFailed (what : string)
| InsufficientAcks
| TxnFailed (e : TxnError).

Definition state (x : t) : TransactionState :=
  match tr_state x, Txn.state (inner x) with
  | TrOpen, MustAbort => TrMustAbort
  | s, _ => s
  end.

Definition check_open (x : t) : result unit NoxuError :=
  match state x with
  | TrOpen => Ok ()
  | TrPrepared => Err (OperationNotAllowed "Transaction has been prepared; use xa_commit / xa_rollback")
  | TrCommitted => Err (OperationNotAllowed "Transaction has been committed")
  | TrAborted => Err (OperationNotAllowed "Transaction has been aborted")
  | TrMustAbort => Err (OperationNotAllowed "Transaction must be aborted due to previous error")
  end.

Definition end_entry (id timestamp : Z) (is_commit : bool) : list Z :=
  TxnEnd.write_to_log
    {| TxnEnd.end_type := if is_commit then TxnEnd.Commit else TxnEnd.Abort; TxnEnd.txn_id := id;
       TxnEnd.last_lsn := NULL_LSN; TxnEnd.timestamp := timestamp; TxnEnd.master_node_id := 0;
       TxnEnd.dtvlsn := NULL_VLSN |}.

Definition write_txn_end (x : t) (is_commit fsync flush : bool) : Prog (result unit NoxuError) :=
  do* now := Now in
  do* r := LogAppend (if is_commit then TxnCommit else TxnAbort)
             (end_entry (Txn.id (inner x)) now is_commit) flush fsync in
  Ret (match r with Ok _ => Ok () | Err e => Err (LogWriteFailed e) end).

Section ops.
Context `{HashOrder}.

Definition sync_policy (d : Durability) : bool * bool :=
  match d with
  | CommitSync => (true, true)
  | CommitWriteNoSync => (false, true)
  | CommitNoSync => (false, false)
  end.

Definition commit_with_durability (x : t) (d : Durability) : Prog (t * result unit NoxuError) :=
  do* valid := EnvValid in
  if negb valid then Ret (x, Err EnvironmentFailure)
  else
    match check_open x with
    | Err e => Ret (x, Err e)
    | Ok _ =>
        let logged_data := Txn.has_logged_entries (inner x) in
        let writes := negb (read_only x) && logged_data in
        let* refused := (if writes then do* b := WritesRefused in Ret b else Ret false) in
        if refused : bool then Ret (x, Err ReplicationNotSupported)
        else
          let* screened := (if writes then do* b := ReplicaScreened in Ret b else Ret false) in
          if screened : bool then Ret (x, Err ReplicaWrite)
          else
            let* ended :=
              (if writes && log_manager x
               then let '(fsync, flush) := sync_policy d in write_txn_end x true fsync flush
               else Ret (Ok ())) in
            match ended with
            | Err e => Ret (x, Err e)
            | Ok _ =>
                let* ack_err := (if writes && acks x then do* b := AwaitAcks in Ret b else Ret None) in
                let* (i, r) := Txn.commit_with_durability (inner x) d in
                let x := set_tr_state (set_inner x i) TrCommitted in
                Ret (x, match r with
                        | Err e => Err (TxnFailed e)
                        | Ok _ =>
                            match ack_err with
                            | None => Ok ()
                            | Some NotMaster => Err ReplicaWrite
                            | Some _ => Err InsufficientAcks
                            end
                        end)
            end
    end.

(** [sort_by_key] with the newest LSN first; the sort is stable. *)
Fixpoint insert_undo (u : UndoRecord) (l : list UndoRecord) : list UndoRecord :=
  match l with
  | [] => [u]
  | v :: l => if u_current_lsn v <=? u_current_lsn u then u :: v :: l else v :: insert_undo u l
  end.
Definition sort_undo (l : list UndoRecord) : list UndoRecord := foldr insert_undo [] l.

(** An undo record on the tree of its database. *)
Definition apply_undo (u : UndoRecord) : Prog unit :=
  match u_abort_key u with
  | None => Ret ()
  | Some key =>
      if u_abort_known_deleted u then do* _ := UndoDelete (u_database_id u) key in Ret ()
      else
        match u_abort_data u with
        | Some data => do* _ := UndoInsert (u_database_id u) key data (u_abort_lsn u) in Ret ()
        | None => Ret ()
        end
  end.

Definition abort (x : t) : Prog (t * result unit NoxuError) :=
  match tr_state x with
  | TrCommitted => Ret (x, Err (OperationNotAllowed "Cannot abort a committed transaction"))
  | TrAborted => Ret (x, Err (OperationNotAllowed "Transaction already aborted"))
  | TrPrepared =>
      Ret (x, Err (OperationNotAllowed "Cannot abort a prepared transaction directly; use xa_rollback / resolved_abort_after_prepare"))
  | TrOpen | TrMustAbort =>
      do* valid := EnvValid in
      if negb valid
      then
        let* i := Txn.release_all_locks (inner x) in
        Ret (set_tr_state (set_inner x i) TrAborted, Err EnvironmentFailure)
      else
        let* ended :=
          (if negb (read_only x) && Txn.has_logged_entries (inner x) && log_manager x
           then write_txn_end x false false false else Ret (Ok ())) in
        match ended with
        | Err e => Ret (x, Err e)
        | Ok _ =>
            let* (i, r) := Txn.abort_collect_undo (inner x) in
            let undo := match r with Ok l => l | Err _ => [] end in
            for_each apply_undo (sort_undo undo)
              (let* i := Txn.release_all_locks i in
               Ret (set_tr_state (set_inner x i) TrAborted, Ok ()))
        end
  end.

End ops.
End Transaction.
