(* ===== verification/TxnSystem.v ===== *)
(** * Many transactions on one lock manager

    A transaction is idle or runs a method, a program of [TxnOps]; a step of the
    system is one call of one program, or a part of the wait of a blocked lock
    request, in any order, together with the calls of lockers that are no
    transactions.  The answers of the log, the clock, the environment and the
    replicas are arbitrary.  As in [LockSystem], a lock is demoted by an owner
    only: a transaction whose lock was stolen does not demote it (a thin lock
    would demote the thief's, [Lock.thin_demote_ignores_locker]). *)

From S2P Require Import Prelude Bytes LockType LockImpl Lock Deadlock LockManager LockSystem.
From S2P Require Import Lsn LogEntry TxnOps.

(** ** The calls on the lock manager *)

(** The call [c] of locker [id] returns [a]. *)
Definition returns (id : Z) (s : sys) (c : call) : answer c → sys → Prop :=
  let m := mgr s in
  let idle := pending s !! id = None in
  match c with
  | LmLock r nb => λ a s',
      (idle ∧ ∃ m', lock_attempt m (rq_lsn r) id (rq_type r) nb false = (m', Returned a) ∧
                    s' = mkSys m' (pending s)) ∨
      (∃ w snap elapsed_ms timed_out m', pending s !! id = Some w ∧ w_request w = r ∧
         wait_step m snap id w elapsed_ms timed_out = (m', inr a) ∧
         s' = mkSys m' (delete id (pending s)))
  | LmSteal lsn t => λ a s',
      idle ∧ t ≠ NoLock ∧ t ≠ RestartLock ∧
      ∃ m', steal_lock_in_wait m lsn id t = (m', a) ∧ s' = mkSys m' (pending s)
  | LmRelease lsn => λ _ s', idle ∧ s' = mkSys (release m lsn id) (pending s)
  | LmDemote lsn => λ _ s',
      idle ∧ is_Some (get_owned_lock_type m lsn id) ∧ s' = mkSys (demote m lsn id) (pending s)
  | LmClearPreempted => λ _ s', idle ∧ s' = mkSys (clear_preempted m id) (pending s)
  | LmSetNonPreemptable b => λ _ s',
      idle ∧ s' = mkSys (if b then register_non_preemptable m id else unregister_non_preemptable m id)
                    (pending s)
  | LmTimeout => λ a s', idle ∧ s' = s ∧ a = LockManager.lock_timeout_ms m
  | LmOwnedType lsn => λ a s', idle ∧ s' = s ∧ a = get_owned_lock_type m lsn id
  | LmProbe lsn => λ a s', idle ∧ s' = s ∧ a = probe_read_uncontended m lsn id
  | _ => λ _ s', idle ∧ s' = s
  end.

(** The call goes on: it is queued, or its wait makes a step. *)
Definition waits (id : Z) (s : sys) (c : call) (s' : sys) : Prop :=
  match c with
  | LmLock r nb =>
      (pending s !! id = None ∧ ∃ m' g owner_ids pair,
         lock_attempt (mgr s) (rq_lsn r) id (rq_type r) nb false = (m', MustWait g owner_ids pair) ∧
         s' = mkSys m' (<[id := mkWaiting r g owner_ids pair Queued]> (pending s))) ∨
      (∃ w snap elapsed_ms timed_out m' pc, pending s !! id = Some w ∧ w_request w = r ∧
         wait_step (mgr s) snap id w elapsed_ms timed_out = (m', inl pc) ∧
         s' = mkSys m' (<[id := set_pc w pc]> (pending s)))
  | _ => False
  end.

(** ** The methods *)

Inductive Op :=
| OpLock (lsn : Z) (t : LockType) (non_blocking : bool)
| OpReleaseLock (lsn : Z)
| OpReleaseRangeInsert (lsn : Z)
| OpDemote (lsn : Z)
| OpMove (old_lsn new_lsn : Z)
| OpAbortInfo (lsn abort_lsn : Z) (key data : option (list Z)) (known_deleted : bool) (db : Z)
| OpAfterLsnChange (old_lsn new_lsn : Z)
| OpNote (lsn : Z)
| OpTxnCommit (d : Durability)
| OpTxnAbort
| OpCollectUndo
| OpReleaseAll
| OpTakeUndo
| OpPrepare (fmt : Z) (gtrid bqual : list Z)
| OpResolvedCommit
| OpResolvedAbort
| OpClose
| OpOnlyAbortable
| OpImportunate (b : bool)
| OpCursorOpened
| OpCursorClosed
| OpCallback (n : nat)
| OpOptions (o : Options)
| OpRead (read_uncommitted : bool) (lsn : Z) (range_lock : bool)
| OpReread (lsn : Z)
| OpContest (synthetic_lsn : Z)
| OpLockSynthetic (synthetic_lsn : Z)
| OpAcquire (lsn_to_lock : Z)
| OpBeforeWrite (lsn_to_lock : Z)
| OpRevert (lsn : Z) (grant : LockGrantType)
| OpFinalize (old_lsn : Z) (old_exists : bool) (new_lsn : Z) (key data : option (list Z)) (db : Z)
    (txn_manager : bool)
| OpCommit (d : Durability)
| OpAbort.

(** The state that a method leaves, its result apart. *)
Definition state_of {A B} (p : Prog (A * B)) : Prog A := let* (x, _) := p in Ret x.

Section system.
Context `{HashOrder}.

Definition run_txn (op : Op) (x : Txn.t) : Prog Txn.t :=
  match op with
  | OpLock lsn t nb => state_of (Txn.lock x lsn t nb)
  | OpReleaseLock lsn => state_of (Txn.release_lock x lsn)
  | OpReleaseRangeInsert lsn => state_of (Txn.release_range_insert_for_write x lsn)
  | OpDemote lsn => state_of (Txn.demote_lock x lsn)
  | OpMove old new => state_of (Txn.move_write_lock_to_new_lsn x old new)
  | OpAbortInfo lsn a key data kd db => Ret (Txn.set_write_lock_abort_info x lsn a key data kd db)
  | OpAfterLsnChange old new => state_of (Txn.lock_after_lsn_change x old new)
  | OpNote lsn => Txn.note_log_entry x lsn
  | OpTxnCommit d => state_of (Txn.commit_with_durability x d)
  | OpTxnAbort => state_of (Txn.abort x)
  | OpCollectUndo => state_of (Txn.abort_collect_undo x)
  | OpReleaseAll => Txn.release_all_locks x
  | OpTakeUndo => Ret (Txn.take_undo_records x).1
  | OpPrepare fmt gtrid bqual => state_of (Txn.prepare x fmt gtrid bqual)
  | OpResolvedCommit => state_of (Txn.resolved_commit_after_prepare x)
  | OpResolvedAbort => state_of (Txn.resolved_abort_after_prepare x)
  | OpClose => Txn.close x
  | OpOnlyAbortable => Ret (Txn.set_only_abortable x)
  | OpImportunate b => Txn.set_importunate x b
  | OpCursorOpened => Ret (Txn.register_cursor x)
  | OpCursorClosed => Ret (Txn.unregister_cursor x)
  | OpCallback n => Ret (Txn.register_precommit_catalog_callback x n)
  | OpOptions o => Ret (Txn.set_options x o)
  | OpRead ru lsn range => state_of (Cursor.lock_ln_mode x ru lsn range)
  | OpReread lsn =>
      let* (x, r) := Cursor.lock_ln_hold x lsn in
      match r with Ok held => Cursor.lock_ln_release_held x lsn held | Err _ => Ret x end
  | OpContest lsn => state_of (Cursor.contest_synthetic_key_for_missing_read x lsn)
  | OpLockSynthetic lsn => state_of (Cursor.lock_synthetic_key_for_delete x lsn)
  | OpAcquire lsn => state_of (Cursor.acquire_slot_write_lock x lsn)
  | OpBeforeWrite lsn => state_of (Cursor.lock_write_before_log x lsn)
  | OpRevert lsn grant => Cursor.revert_slot_write_lock x lsn grant
  | OpFinalize old old_exists new key data db tm =>
      state_of (Cursor.finalize_write_lock x old old_exists new key data db tm)
  | OpCommit _ | OpAbort => Ret x
  end.

Definition run (op : Op) (x : Transaction.t) : Prog Transaction.t :=
  match op with
  | OpCommit d => state_of (Transaction.commit_with_durability x d)
  | OpAbort => state_of (Transaction.abort x)
  | _ => let* i := run_txn op (Transaction.inner x) in Ret (Transaction.set_inner x i)
  end.

(** ** The system *)

(** What a method has told the log, the databases and the environment. *)
Inductive ev :=
| EvAppended (t : LogEntryType) (payload : list Z) (flush fsync : bool)
| EvUndoDelete (db : Z) (key : list Z)
| EvUndoInsert (db : Z) (key data : list Z) (lsn : Z)
| EvEnvInvalid.

Definition events (c : call) : answer c → list ev :=
  match c with
  | LogAppend t payload flush fsync => λ a,
      match a with Ok _ => [EvAppended t payload flush fsync] | Err _ => [] end
  | UndoDelete db key => λ _, [EvUndoDelete db key]
  | UndoInsert db key data lsn => λ _, [EvUndoInsert db key data lsn]
  | EnvValid => λ a, if a : bool then [] else [EvEnvInvalid]
  | _ => λ _, []
  end.

Inductive thread :=
| Idle (x : Transaction.t)
| Running (x0 : Transaction.t) (op : Op) (h : list ev) (p : Prog Transaction.t).

Record world := mkWorld { w_sys : sys; w_threads : gmap Z thread }.

(** No lock of the table belongs to [id]. *)
Definition owns_nothing (m : LockManager) (id : Z) : Prop :=
  ∀ lsn o, o ∈ ow m lsn → locker_id o ≠ id.

Section steps.
Context (initial : Transaction.t → Prop) (allowed : Transaction.t → Op → Prop).

Inductive wstep : world → world → Prop :=
| ws_begin s ts id x :
    ts !! id = None → pending s !! id = None → owns_nothing (mgr s) id →
    Txn.id (Transaction.inner x) = id → initial x →
    wstep (mkWorld s ts) (mkWorld s (<[id := Idle x]> ts))
| ws_start s ts id x op :
    ts !! id = Some (Idle x) → allowed x op →
    wstep (mkWorld s ts) (mkWorld s (<[id := Running x op [] (run op x)]> ts))
| ws_call s ts id x op h c k a s' :
    ts !! id = Some (Running x op h (Do c k)) → returns id s c a s' →
    wstep (mkWorld s ts) (mkWorld s' (<[id := Running x op (h ++ events c a) (k a)]> ts))
| ws_wait s ts id x op h c k s' :
    ts !! id = Some (Running x op h (Do c k)) → waits id s c s' →
    wstep (mkWorld s ts) (mkWorld s' ts)
| ws_return s ts id x op h x' :
    ts !! id = Some (Running x op h (Ret x')) →
    wstep (mkWorld s ts) (mkWorld s (<[id := Idle x']> ts))
| ws_other s ts id c a s' :
    ts !! id = None → returns id s c a s' → wstep (mkWorld s ts) (mkWorld s' ts)
| ws_other_waits s ts id c s' :
    ts !! id = None → waits id s c s' → wstep (mkWorld s ts) (mkWorld s' ts).

Inductive wreachable (m0 : LockManager) : world → Prop :=
| wr_init : wreachable m0 (mkWorld (mkSys m0 ∅) ∅)
| wr_step w w' : wreachable m0 w → wstep w w' → wreachable m0 w'.

End steps.
End system.

(** ** What a call changes *)

(** A grant to a request that waited at [lsn]. *)
Definition granted_meanwhile (s : sys) (id lsn : Z) (o : LockInfo) : Prop :=
  ∃ w, pending s !! id = Some w ∧ rq_lsn (w_request w) = lsn ∧ entry id w ∈ wt (mgr s) lsn ∧
    w_initial w ≠ WaitRestart ∧
    ((∃ o0, o0 ∈ ow (mgr s) lsn ∧ locker_id o0 = id) ∨ lock_type o = rq_type (w_request w)).

(** What a step leaves to a locker that does not make it. *)
Record others_keep (id : Z) (s s' : sys) : Prop := {
  ok_pending : pending s' !! id = pending s !! id;
  ok_preempted : id ∈ preempted (mgr s) → id ∈ preempted (mgr s');
  ok_holds k t : holds_in (ow (mgr s) k) id t →
    holds_in (ow (mgr s') k) id t ∨ id ∈ preempted (mgr s');
  ok_gains k o : o ∈ ow (mgr s') k → locker_id o = id →
    o ∈ ow (mgr s) k ∨ granted_meanwhile s id k o;
}.

(** The locks of [id] are in [O], but for the one that its request was granted
    in the meantime. *)
Definition own_ok (id : Z) (O : gset Z) (s : sys) : Prop :=
  ∀ k o, o ∈ ow (mgr s) k → locker_id o = id →
    k ∈ O ∨ ∃ w, pending s !! id = Some w ∧ rq_lsn (w_request w) = k ∧
      lock_type o = rq_type (w_request w) ∧ w_initial w ≠ WaitRestart.

Definition held_ok (id : Z) (W : gset Z) (s : sys) : Prop :=
  ∀ k, k ∈ W → holds_in (ow (mgr s) k) id Write ∨ id ∈ preempted (mgr s).

(** The bounds after a call: more can be owned after a grant, less is held after
    a release. *)
Definition own_after (c : call) : answer c → gset Z → gset Z :=
  match c with
  | LmLock r _ => λ a O,
      match a with Ok NoneNeeded | Err _ => O | Ok _ => {[rq_lsn r]} ∪ O end
  | LmSteal lsn _ => λ a O, if a : bool then {[lsn]} ∪ O else O
  | LmRelease lsn => λ _ O, O ∖ {[lsn]}
  | _ => λ _ O, O
  end.

Definition held_after (c : call) : answer c → gset Z → gset Z :=
  match c with
  | LmLock r _ => λ a W,
      match a with
      | Ok NoneNeeded | Err _ => W
      | Ok _ => if is_write_lock (rq_type r) then {[rq_lsn r]} ∪ W else W
      end
  | LmSteal lsn t => λ a W, if (a : bool) && is_write_lock t then {[lsn]} ∪ W else W
  | LmRelease lsn | LmDemote lsn => λ _ W, W ∖ {[lsn]}
  | LmClearPreempted => λ _ _, ∅
  | _ => λ _ W, W
  end.

Definition possible (c : call) : answer c → Prop :=
  match c with
  | LmLock r _ => λ a, ∀ g, a = Ok g → (g = NoneNeeded ↔ rq_type r = NoLock)
  | _ => λ _, True
  end.

Section effects.
Context (sh : Z → Z → bool).
Context (sh_sym : ∀ a b, sh a b = sh b a).

Lemma own_ok_others id O s s' :
  sys_inv sh s → others_keep id s s' → own_ok id O s → own_ok id O s'.
Proof.
  intros Hi [Hp _ _ Hg] Ho k o Hin Hid. rewrite Hp.
  destruct (Hg k o Hin Hid) as [Hin'|(w & Hw & Hk & He & Hr & Hc)]; [by eapply Ho|].
  destruct Hc as [(o0 & Ho0 & Hid0)|Ht]; [|right; eauto 6].
  destruct (Ho k o0 Ho0 Hid0) as [?|(w' & Hw' & _ & Ht & _)]; [by left|].
  assert (w' = w) as -> by congruence. subst k.
  by destruct (si_fresh _ _ Hi id w o0 Hw He Ho0 Hid0).
Qed.

Lemma held_ok_others id W s s' : others_keep id s s' → held_ok id W s → held_ok id W s'.
Proof.
  intros [_ Hp Hh _] Hk k Hin. destruct (Hk k Hin) as [?|?]; [by apply Hh|right; by apply Hp].
Qed.

(** ** The calls, one by one *)

(** A step that changes one lock. *)
Lemma others_changes id m m' p p' lsn s0 :
  changes m m' lsn s0 → p' !! id = p !! id → (id ∈ preempted m → id ∈ preempted m') →
  (∀ t, holds_in (ow m lsn) id t → holds s0 id t ∨ id ∈ preempted m') →
  (∀ o, o ∈ owners s0 → locker_id o = id → o ∈ ow m lsn ∨ granted_meanwhile (mkSys m p) id lsn o) →
  others_keep id (mkSys m p) (mkSys m' p').
Proof.
  intros (Hk & Ho & _) Hp Hpre Hh Hg. split; simpl; try done; intros k; destruct (decide (k = lsn)) as [->|Hne].
  - rewrite Ho. apply Hh.
  - rewrite (proj1 (Hk k Hne)). by left.
  - rewrite Ho. apply Hg.
  - rewrite (proj1 (Hk k Hne)). by left.
Qed.

(** A step that changes no owner. *)
Lemma others_same id m m' p p' :
  (∀ k, ow m' k = ow m k) → p' !! id = p !! id → (id ∈ preempted m → id ∈ preempted m') →
  others_keep id (mkSys m p) (mkSys m' p').
Proof.
  intros Hk Hp Hpre. split; simpl; try done; intros k; rewrite Hk; by left.
Qed.

Lemma held_same id W m m' p p' :
  (∀ k, ow m' k = ow m k) → (id ∈ preempted m → id ∈ preempted m') →
  held_ok id W (mkSys m p) → held_ok id W (mkSys m' p').
Proof. intros Hk Hp Hh k Hin. simpl. rewrite Hk. destruct (Hh k Hin); [by left|right; by apply Hp]. Qed.

Lemma own_same id O m m' p :
  (∀ k, ow m' k = ow m k) → own_ok id O (mkSys m p) → own_ok id O (mkSys m' p).
Proof. intros Hk Ho k o. simpl. rewrite Hk. apply Ho. Qed.

(** An idle locker owns nothing beside what is known. *)
Lemma own_idle id O m p k o :
  p !! id = None → own_ok id O (mkSys m p) → o ∈ ow m k → locker_id o = id → k ∈ O.
Proof.
  intros Hp Ho Hin Hid. destruct (Ho k o Hin Hid) as [?|(w & Hw & _)]; [done|]. simpl in Hw. congruence.
Qed.

Lemma holds_in_write os id t :
  is_write_lock t = true → holds_in os id t → holds_in os id Write.
Proof.
  intros Ht (o & Ho & Hid & Hc). exists o. split_and!; [done..|].
  destruct Hc as [Hc|Hc]; [rewrite Hc|]; unfold covers in *;
    destruct t, (lock_type o); simpl in *; try done; auto; try congruence.
Qed.

Lemma lock_ow_refused s t id nb jump shares s' g :
  lock_post s t id nb jump shares s' g → is_granted g = false → must_wait g = false →
  owners s' = owners s.
Proof. destruct g; try done; simpl; [by intros (_ & -> & _)|]. by intros (_ & -> & _). Qed.

Lemma lock_attempt_NoLock m lsn id nb jump :
  lock_attempt m lsn id NoLock nb jump = (m, Returned (Ok NoneNeeded)).
Proof. done. Qed.

Lemma lock_returned_self m p id r nb m' a O W :
  sys_inv sh (mkSys m p) → p !! id = None →
  lock_attempt m (rq_lsn r) id (rq_type r) nb false = (m', Returned a) →
  own_ok id O (mkSys m p) → held_ok id W (mkSys m p) →
  possible (LmLock r nb) a ∧ own_ok id (own_after (LmLock r nb) a O) (mkSys m' p) ∧
  held_ok id (held_after (LmLock r nb) a W) (mkSys m' p).
Proof.
  intros Hi Hidle Hl Ho Hh. pose proof (si_mgr _ _ Hi) as Hm. simpl in Hm.
  destruct (decide (rq_type r = NoLock)) as [Et|Et].
  { rewrite Et, lock_attempt_NoLock in Hl. injection Hl as <- <-. split_and!; [|done..].
    intros g [= <-]. by rewrite Et. }
  apply lock_attempt_post in Hl as [(-> & res & [= <-] & [[Ht ->]|[e ->]])|[_ Hl]]; [done| | |done];
    [split_and!; [by intros ?|done|done]|].
  destruct Hl as (s0 & s1 & g & Hs0 & Hw0 & Hpost & _ & _ & Hmw & (Hk & Hlo & _) & (_ & Hpre & _) & Hok & Herr).
  pose proof (si_owners _ _ Hi (rq_lsn r)) as [Hnd _]. simpl in Hnd. rewrite <- Hs0 in Hnd.
  destruct a as [g'|e].
  - destruct (Hok g' eq_refl) as [-> Hg].
    assert (g ≠ NoneNeeded) as Hne by (intros ->; done).
    assert (∀ k t, holds_in (ow m k) id t → holds_in (ow m' k) id t) as Hmono.
    { intros k t Hin. destruct (decide (k = rq_lsn r)) as [->|Hne']; [|by rewrite (proj1 (Hk k Hne'))].
      rewrite Hlo. rewrite <- Hs0 in Hin. by eapply lock_post_holds_mono. }
    split_and!; [by intros g0 [= <-]| |].
    + assert (own_after (LmLock r nb) (Ok g) O = {[rq_lsn r]} ∪ O) as -> by (by destruct g).
      intros k o Hin Hid. left. simpl in Hin. destruct (decide (k = rq_lsn r)) as [->|Hne']; [set_solver|].
      rewrite (proj1 (Hk k Hne')) in Hin. pose proof (own_idle _ _ _ _ _ _ Hidle Ho Hin Hid). set_solver.
    + assert (held_after (LmLock r nb) (Ok g) W =
        if is_write_lock (rq_type r) then {[rq_lsn r]} ∪ W else W) as -> by (by destruct g).
      assert (∀ k, k ∈ W → holds_in (ow m' k) id Write ∨ id ∈ preempted m') as HW.
      { intros k Hin. rewrite Hpre. destruct (Hh k Hin) as [?|?]; [left; by apply Hmono|by right]. }
      destruct (is_write_lock (rq_type r)) eqn:Ew; [|exact HW].
      intros k [->%elem_of_singleton|Hin]%elem_of_union; [left|by apply HW].
      simpl. rewrite Hlo. eapply holds_in_write; [done|]. by eapply lock_post_holds.
  - pose proof (lock_ow_refused _ _ _ _ _ _ _ _ Hpost (Herr e eq_refl) Hmw) as Hsame.
    assert (∀ k, ow m' k = ow m k) as Hall.
    { intros k. destruct (decide (k = rq_lsn r)) as [->|Hne']; [congruence|]. by apply Hk. }
    split_and!; [done|by eapply own_same|]. eapply held_same; [done| |done]. by rewrite Hpre.
Qed.

Lemma lock_returned_others m p id r nb m' a id' :
  sys_inv sh (mkSys m p) → id' ≠ id →
  lock_attempt m (rq_lsn r) id (rq_type r) nb false = (m', Returned a) →
  others_keep id' (mkSys m p) (mkSys m' p).
Proof.
  intros Hi Hne Hl. pose proof (si_mgr _ _ Hi) as Hm. simpl in Hm.
  apply lock_attempt_post in Hl as [(-> & _)|[_ Hl]]; [by apply others_same| |done].
  destruct Hl as (s0 & s1 & g & Hs0 & Hw0 & Hpost & _ & _ & Hmw & Hc & (_ & Hpre & _) & _).
  pose proof (si_owners _ _ Hi (rq_lsn r)) as [Hnd _]. simpl in Hnd. rewrite <- Hs0 in Hnd.
  eapply others_changes; [done|done|by rewrite Hpre| |].
  - intros t Hh. left. rewrite <- Hs0 in Hh. by eapply lock_post_holds_mono.
  - intros o Ho Hid. left. rewrite <- Hs0. eapply lock_post_others; [done..|congruence].
Qed.

(** A request that is queued changes no owner. *)
Lemma lock_waits_ow m p id r nb m' g owner_ids pr :
  sys_inv sh (mkSys m p) → p !! id = None →
  lock_attempt m (rq_lsn r) id (rq_type r) nb false = (m', MustWait g owner_ids pr) →
  (∀ k, ow m' k = ow m k) ∧ preempted m' = preempted m.
Proof.
  intros Hi Hidle Hl. pose proof (si_mgr _ _ Hi) as Hm. simpl in Hm.
  apply lock_attempt_post in Hl as [(_ & res & [=] & _)|[_ Hl]]; [|done].
  destruct Hl as (s0 & s1 & g' & Hs0 & Hw0 & Hpost & _ & _ & -> & Hmw & -> & (Hk & Hlo & _) & _ & Hpre & _).
  split; [|done]. intros k. destruct (decide (k = rq_lsn r)) as [->|Hne]; [|by apply Hk].
  rewrite Hlo, owners_set_waiter_notify, <- Hs0.
  apply (lock_post_queue _ _ _ _ _ _ _ _ 0%nat Hpost Hmw). rewrite Hw0. intros (e & -> & He)%list_elem_of_fmap.
  destruct (si_queue _ _ Hi _ e He) as (w' & Hw' & _). simpl in Hw'. congruence.
Qed.

(** The steps of a wait change no owner; a request that fails was not granted. *)
Lemma wait_step_ow m p snap id w elapsed_ms timed_out m' out :
  sys_inv sh (mkSys m p) → p !! id = Some w →
  wait_step m snap id w elapsed_ms timed_out = (m', out) →
  (∀ k, ow m' k = ow m k) ∧ preempted m' = preempted m ∧
  match out with
  | inl _ => True
  | inr (Ok g) => g ≠ NoneNeeded
  | inr (Err _) => w_initial w = WaitRestart ∨
      ∀ o, o ∈ ow m (rq_lsn (w_request w)) → locker_id o = id → lock_type o ≠ rq_type (w_request w)
  end.
Proof.
  intros Hi Hw Hs. destruct (si_request _ _ Hi id w Hw) as [_ Hmw]. simpl in Hmw.
  assert (finish m id w = (m', out) →
    (∀ k, ow m' k = ow m k) ∧ preempted m' = preempted m ∧
    match out with
    | inl _ => True
    | inr (Ok g) => g ≠ NoneNeeded
    | inr (Err _) => w_initial w = WaitRestart ∨
        ∀ o, o ∈ ow m (rq_lsn (w_request w)) → locker_id o = id → lock_type o ≠ rq_type (w_request w)
    end) as Hfin.
  { unfold finish. intros [= <- <-]. split_and!; [done..|].
    destruct (w_initial w); try done; by left. }
  unfold wait_step in Hs. destruct (w_pc w).
  - case_bool_decide; by injection Hs as <- <-.
  - destruct (check_deadlock_for_waiter _ _ _ _ _); by injection Hs as <- <-.
  - destruct (granted m w); [by apply Hfin|]. repeat split_match_in Hs; by injection Hs as <- <-.
  - destruct (granted m w); [by apply Hfin|]. by injection Hs as <- <-.
  - destruct (check_deadlock_for_waiter _ _ _ _ _); by injection Hs as <- <-.
  - destruct (granted m w); [by apply Hfin|]. repeat split_match_in Hs; by injection Hs as <- <-.
  - pose proof (validate_spec sh m p id w Hi Hw) as Hsp. simpl in Hsp.
    destruct (validate_ownership_or_flush m (rq_lsn (w_request w)) id (rq_type (w_request w))) as [m1 b].
    destruct Hsp as ((_ & Hpre & _) & Hk & Hb). destruct b.
    + unfold finish in Hs. injection Hs as <- <-. split_and!; [by intros k; apply Hk|done|].
      destruct (w_initial w); try done; by left.
    + injection Hs as <- <-.
      assert (∀ k, ow (if count then count_timeout m1 else m1) k = ow m k) as Hk'.
      { intros k. destruct count; apply Hk. }
      split_and!; [done|by destruct count|]. right. intros o Ho Hid Ht.
      by assert (false = true) by (apply Hb; eauto).
Qed.

Lemma wait_end_self m p snap id w elapsed_ms timed_out m' a nb O W :
  sys_inv sh (mkSys m p) → p !! id = Some w →
  wait_step m snap id w elapsed_ms timed_out = (m', inr a) →
  own_ok id O (mkSys m p) → held_ok id W (mkSys m p) → rq_type (w_request w) ≠ NoLock →
  let c := LmLock (w_request w) nb in
  possible c a ∧ own_ok id (own_after c a O) (mkSys m' (delete id p)) ∧
  held_ok id (held_after c a W) (mkSys m' (delete id p)).
Proof.
  intros Hi Hw Hs Ho Hh Hnl c.
  destruct (wait_step_ow m p snap id w elapsed_ms timed_out m' _ Hi Hw Hs) as (Hk & Hpre & Hout).
  pose proof (wait_step_sys sh m snap p id w elapsed_ms timed_out m' (inr a) Hi Hw Hs) as [_ Hend].
  assert (∀ k, k ∈ W → holds_in (ow m' k) id Write ∨ id ∈ preempted m') as HW.
  { intros k Hin. rewrite Hk, Hpre. by apply Hh. }
  destruct a as [g|e].
  - split_and!; [by intros g0 [= <-]| |].
    + assert (own_after c (Ok g) O = {[rq_lsn (w_request w)]} ∪ O) as -> by (by destruct g).
      intros k o Hin Hid. left. simpl in Hin. rewrite Hk in Hin.
      destruct (Ho k o Hin Hid) as [?|(w' & Hw' & <- & _)]; [set_solver|]. simpl in Hw'.
      assert (w' = w) as -> by congruence. set_solver.
    + assert (held_after c (Ok g) W = if is_write_lock (rq_type (w_request w))
        then {[rq_lsn (w_request w)]} ∪ W else W) as -> by (by destruct g).
      destruct (is_write_lock (rq_type (w_request w))) eqn:Ew; [|exact HW].
      intros k [->%elem_of_singleton|Hin]%elem_of_union; [|by apply HW].
      destruct (Hend g eq_refl) as [?|Hhold]; [by right|left]. by eapply holds_in_write.
  - split_and!; [by intros g0 [=]| |exact HW].
    intros k o Hin Hid. left. simpl in Hin. rewrite Hk in Hin.
    destruct (Ho k o Hin Hid) as [?|(w' & Hw' & <- & Ht & Hr)]; [done|]. simpl in Hw'.
    assert (w' = w) as -> by congruence. destruct Hout as [?|Hno]; [done|]. by destruct (Hno o Hin Hid).
Qed.

(** The new entry of a woken locker. *)
Lemma woken_entry shares s0 ws s1 o :
  woken shares s0 ws s1 → NoDup (locker_id <$> ws) → o ∈ owners s1 →
  o ∈ owners s0 ∨
  ∃ w, w ∈ ws ∧ locker_id w = locker_id o ∧ lock_type w ≠ RestartLock ∧
    ((∃ o0, o0 ∈ owners s0 ∧ locker_id o0 = locker_id o) ∨ lock_type o = lock_type w).
Proof.
  induction 1 as [s0|s0 w ws s1 g s2 Hw Hg Hwo IH]; [by left|].
  intros [Hnin Hnd]%NoDup_cons Ho.
  assert (∀ o', o' ∈ owners s1 → o' ∈ owners s0 ∨
    locker_id w = locker_id o' ∧ lock_type w ≠ RestartLock ∧
    ((∃ o0, o0 ∈ owners s0 ∧ locker_id o0 = locker_id o') ∨ o' = w)) as Hone.
  { intros o' Ho'. unfold wake_waiter, try_lock in Hw. case_decide as Hr; [injection Hw as <- _; by left|].
    pose proof (try_lock_post s0 w true (λ _, false)) as Hp. rewrite Hw in Hp.
    destruct (decide (locker_id o' = locker_id w)) as [Hid|Hne]; [right|left; by eapply grant_post_others].
    split_and!; [done..|]. destruct Hp as [_ Hp]. destruct g; try done.
    - destruct Hp as (Hn & _ & _ & Hperm). right. rewrite Hperm in Ho'.
      apply elem_of_cons in Ho' as [->|Hin]; [done|]. destruct Hn. rewrite <- Hid. by apply elem_of_ids.
    - destruct Hp as (_ & o0 & t & Ho0 & Hid0 & _). left. exists o0. by rewrite Hid.
    - destruct Hp as (o0 & Ho0 & Hid0 & _). left. exists o0. by rewrite Hid. }
  destruct (IH Hnd Ho) as [Hin|(w' & Hw' & Hid & Hr & Hc)].
  - rewrite owners_pop in Hin. destruct (Hone o Hin) as [?|(Hid & Hr & Hc)]; [by left|right].
    exists w. split_and!; [set_solver|done..|]. destruct Hc as [?| ->]; auto.
  - right. exists w'. split_and!; [set_solver|done..|]. destruct Hc as [(o0 & Ho0 & Hid0)|?]; [|by right].
    rewrite owners_pop in Ho0. destruct (Hone o0 Ho0) as [?|(Hidw & _ & [(o1 & Ho1 & Hid1)| ->])].
    + left. eauto.
    + left. exists o1. split; [done|congruence].
    + destruct Hnin. apply list_elem_of_fmap. exists w'. split; [congruence|done].
Qed.

(** A release takes the entry of its locker away and wakes a part of the queue,
    or finds no entry. *)
Lemma release_spec m p lsn id :
  sys_inv sh (mkSys m p) →
  let m' := release m lsn id in
  preempted m' = preempted m ∧
  (((∀ k, ow m' k = ow m k) ∧ ∀ o, o ∈ ow m lsn → locker_id o ≠ id) ∨
   ∃ s1 s' ws o shares, changes m m' lsn s' ∧ ow m lsn ≡ₚ o :: owners s1 ∧ locker_id o = id ∧
     woken shares s1 ws s' ∧ lock_inv sh s1 ∧ (∀ e, e ∈ ws → e ∈ wt m lsn) ∧
     NoDup (locker_id <$> ws)).
Proof.
  intros Hi m'. pose proof (si_mgr _ _ Hi) as Hm. simpl in Hm. unfold m', release.
  set (shares := build_shares_fn m id).
  destruct (get_lock m lsn) as [l|] eqn:Hl.
  2:{ unfold release_at. rewrite Hl. split; [done|]. left. split; [done|]. intros o.
      unfold ow. rewrite Hl. by intros ?%elem_of_nil. }
  destruct (Lock.release_with_sharing l id shares) as [l' r] eqn:Hr.
  destruct (release_at_changes sh sh_sym m lsn id shares l l' r Hm Hl Hr) as (_ & Hc & _ & Hpre & _).
  pose proof (lock_inv_in sh m p lsn l Hi Hl) as Hli.
  pose proof (release_repr_eq l id shares) as Heq. rewrite Hr in Heq. simpl in Heq.
  pose proof (release_with_sharing_post (repr l) id shares) as Hpost. rewrite <- Heq in Hpost.
  split; [done|]. rewrite (ow_get m lsn l) by done.
  destruct r as [[ids sig]|].
  - right. destruct Hpost as (o & s1 & ws & Hin & Hid & Hperm & Hw1 & Hwo & Hws & _).
    exists s1, (repr l'), ws, o, shares. split_and!; [done..| | |].
    + unfold lock_inv in *. rewrite Hperm in Hli. by eapply compatible_owners_tail.
    + intros e He. rewrite (wt_get m lsn l) by done. rewrite Hws. set_solver.
    + pose proof (si_nodup _ _ Hi lsn) as Hnd. simpl in Hnd. rewrite (wt_get m lsn l) in Hnd by done.
      rewrite Hws, fmap_app in Hnd. by apply NoDup_app in Hnd as [? _].
  - left. destruct Hpost as [Hs Hn]. destruct Hc as (Hk & Hlo & _). split.
    + intros k. destruct (decide (k = lsn)) as [->|Hne]; [|by apply Hk].
      by rewrite Hlo, Hs, (ow_get m lsn l).
    + intros o Ho Hid. destruct Hn. rewrite <- Hid. by apply elem_of_ids.
Qed.

Lemma idle_not_queued m p id lsn e :
  sys_inv sh (mkSys m p) → p !! id = None → e ∈ wt m lsn → locker_id e ≠ id.
Proof. intros Hi Hp He <-. destruct (si_queue _ _ Hi _ e He) as (w & Hw & _). simpl in Hw. congruence. Qed.

Lemma release_self m p id lsn O W :
  sys_inv sh (mkSys m p) → p !! id = None → own_ok id O (mkSys m p) → held_ok id W (mkSys m p) →
  own_ok id (O ∖ {[lsn]}) (mkSys (release m lsn id) p) ∧
  held_ok id (W ∖ {[lsn]}) (mkSys (release m lsn id) p).
Proof.
  intros Hi Hidle Ho Hh. destruct (release_spec m p lsn id Hi) as [Hpre Hs]. simpl in *.
  assert (∀ k, k ≠ lsn → ow (release m lsn id) k = ow m k) as Hk.
  { destruct Hs as [[Hk _]|(s1 & s' & ws & o & shs & (Hk & _) & _)]; [done|]. intros k Hne. by apply Hk. }
  split.
  - intros k o Hin Hid. simpl in Hin. left. apply elem_of_difference. rewrite elem_of_singleton.
    destruct (decide (k = lsn)) as [->|Hne].
    2:{ rewrite Hk in Hin by done. split; [by eapply own_idle|done]. }
    exfalso. destruct Hs as [[Hk' Hno]|(s1 & s' & ws & o1 & shs & (_ & Hlo & _) & Hp & Hid1 & Hwo & _ & Hws & Hnd)].
    { rewrite Hk' in Hin. by apply (Hno o). }
    rewrite Hlo in Hin. destruct (woken_entry _ _ _ _ _ Hwo Hnd Hin) as [Hin1|(w & Hw & Hidw & _)].
    + destruct (si_owners _ _ Hi lsn) as [Hnd1 _]. simpl in Hnd1. rewrite Hp in Hnd1. simpl in Hnd1.
      apply NoDup_cons in Hnd1 as [Hn _]. apply Hn. rewrite Hid1, <- Hid. by apply elem_of_ids.
    + apply (idle_not_queued m p id lsn w Hi Hidle (Hws w Hw)). congruence.
  - intros k [Hin Hne]%elem_of_difference. rewrite elem_of_singleton in Hne. simpl.
    rewrite Hk, Hpre by done. by apply Hh.
Qed.

Lemma release_others m p id lsn id' :
  sys_inv sh (mkSys m p) → id' ≠ id →
  others_keep id' (mkSys m p) (mkSys (release m lsn id) p).
Proof.
  intros Hi Hne. destruct (release_spec m p lsn id Hi) as [Hpre Hs]. simpl in *.
  destruct Hs as [[Hk _]|(s1 & s' & ws & o1 & shs & Hc & Hp & Hid1 & Hwo & Hli & Hws & Hnd)].
  { apply others_same; [done..|]. by rewrite Hpre. }
  eapply others_changes; [done..|by rewrite Hpre| |].
  - intros t (o & Ho & Hid & Ht). left. eapply woken_holds_mono; [done..|]. exists o. split; [|done].
    rewrite Hp in Ho. apply elem_of_cons in Ho as [->|?]; [congruence|done].
  - intros o Ho Hid. destruct (woken_entry _ _ _ _ _ Hwo Hnd Ho) as [Hin|(e & He & Hide & Hr & Hty)].
    { left. rewrite Hp. by right. }
    right. destruct (si_queue _ _ Hi lsn e (Hws e He)) as (w & Hw & Hlsn & Hent & _). simpl in Hw.
    rewrite Hide, Hid in *. exists w. split_and!; [done..| | |].
    + simpl. rewrite <- Hent. by apply Hws.
    + intros Hwr. apply Hr. rewrite Hent. unfold entry. simpl. by rewrite decide_True.
    + destruct Hty as [(o0 & Ho0 & Hid0)|Hty]; [left; exists o0; simpl; rewrite Hp; split; [by right|done]|right].
      rewrite Hty, Hent. unfold entry. simpl. rewrite decide_False; [done|].
      intros Hwr. apply Hr. rewrite Hent. unfold entry. simpl. by rewrite decide_True.
Qed.

Lemma demote_changes m p lsn id :
  sys_inv sh (mkSys m p) → is_Some (get_owned_lock_type m lsn id) →
  ∃ s0, owners s0 = ow m lsn ∧ NoDup (locker_id <$> owners s0) ∧
    changes m (demote m lsn id) lsn (LockImpl.demote s0 id) ∧
    preempted (demote m lsn id) = preempted m.
Proof.
  intros Hi Hown. unfold demote, get_owned_lock_type in *.
  destruct (get_lock m lsn) as [l|] eqn:Hl; [|by destruct Hown].
  assert (repr (Lock.demote l id) = LockImpl.demote (repr l) id) as Hd.
  { apply demote_repr_eq. destruct Hown as [t Ht].
    rewrite get_owned_lock_type_repr in Ht. unfold LockImpl.get_owned_lock_type in Ht.
    rewrite get_owner_lock_info_find in Ht.
    destruct (find_locker id (owners (repr l))) as [o|] eqn:Ho; [|done].
    apply find_locker_Some in Ho as [Ho <-]. by apply list_elem_of_fmap_2. }
  exists (repr l). rewrite (ow_get m lsn l) by done. split_and!; [done| | |done].
  - apply (lock_inv_in sh m p lsn l Hi Hl).
  - rewrite <- Hd. apply changes_put, (si_mgr _ _ Hi).
Qed.

Lemma demote_self m p id lsn O W :
  sys_inv sh (mkSys m p) → p !! id = None → is_Some (get_owned_lock_type m lsn id) →
  own_ok id O (mkSys m p) → held_ok id W (mkSys m p) →
  own_ok id O (mkSys (demote m lsn id) p) ∧ held_ok id (W ∖ {[lsn]}) (mkSys (demote m lsn id) p).
Proof.
  intros Hi Hidle Hown Ho Hh.
  destruct (demote_changes m p lsn id Hi Hown) as (s0 & Hs0 & _ & (Hk & Hlo & _) & Hpre). split.
  - intros k o Hin Hid. simpl in Hin. left. destruct (decide (k = lsn)) as [->|Hne].
    + assert (id ∈ locker_id <$> owners s0) as (o0 & Hid0 & Ho0)%list_elem_of_fmap.
      { rewrite Hlo in Hin. apply elem_of_ids in Hin. by rewrite owners_demote_ids, Hid in Hin. }
      rewrite Hs0 in Ho0. by eapply (own_idle id O m p lsn o0).
    + rewrite (proj1 (Hk k Hne)) in Hin. by eapply own_idle.
  - intros k [Hin Hne]%elem_of_difference. rewrite elem_of_singleton in Hne. simpl.
    rewrite (proj1 (Hk k Hne)), Hpre. by apply Hh.
Qed.

Lemma demote_keeps_others m p id lsn id' :
  sys_inv sh (mkSys m p) → id' ≠ id → is_Some (get_owned_lock_type m lsn id) →
  others_keep id' (mkSys m p) (mkSys (demote m lsn id) p).
Proof.
  intros Hi Hne Hown.
  destruct (demote_changes m p lsn id Hi Hown) as (s0 & Hs0 & Hnd & Hc & Hpre).
  eapply others_changes; [done..|by rewrite Hpre| |].
  - intros t Hh. left. rewrite <- Hs0 in Hh. by apply demote_holds_other.
  - intros o Ho Hid. left. rewrite <- Hs0. apply (demote_others s0 id); [done|congruence].
Qed.

(** What a steal leaves of the lock. *)
Lemma steal_spec m p lsn id t :
  sys_inv sh (mkSys m p) →
  let m' := (steal_lock_in_wait m lsn id t).1 in
  ∃ s', changes m m' lsn s' ∧ (∀ i, i ∈ preempted m → i ∈ preempted m') ∧
    (∀ i t', holds_in (ow m lsn) i t' → holds s' i t' ∨ i ∈ preempted m') ∧
    (∀ o, o ∈ owners s' → locker_id o ≠ id → o ∈ ow m lsn) ∧
    if (steal_lock_in_wait m lsn id t).2 then holds s' id t
    else ∀ o, o ∈ owners s' → o ∈ ow m lsn.
Proof.
  intros Hi m'. pose proof (si_mgr _ _ Hi) as Hm. simpl in Hm.
  destruct (steal_in_wait_changes sh sh_sym m lsn id t Hm) as (s0 & pf & Ho & Hw & Hc & _ & _ & _ & Hpre & Hres).
  fold m' in Hc, Hpre. rewrite Hres.
  pose proof (owners_flush_waiter s0 id) as Hfo. set (s1 := LockImpl.flush_waiter s0 id) in *.
  pose proof (owners_steal s1 id pf) as Hso. pose proof (steal_holds s1 id pf) as Hsh.
  unfold stolen in Hc. fold s1 in Hc.
  destruct (LockImpl.steal_lock_preemptable s1 id pf) as [s2 vs]. simpl in *.
  pose proof (lock_with_sharing_post s2 t id true false (build_shares_fn m id)) as Hpost.
  destruct (LockImpl.lock_with_sharing s2 t id true false _) as [s3 r]. simpl in *.
  destruct Hpost as [Hsucc Hpost].
  assert (NoDup (locker_id <$> owners s2)) as Hnd.
  { rewrite Hso, Hfo, Ho. eapply sublist_NoDup; [apply (si_owners _ _ Hi lsn)|].
    apply fmap_sublist, sublist_filter. }
  assert (∀ o, o ∈ owners s2 → o ∈ ow m lsn) as Hsub.
  { intros o Hin. rewrite Hso, Hfo, Ho in Hin. by apply list_elem_of_filter in Hin as [_ ?]. }
  exists s3. rewrite Hpre. split_and!; [done|set_solver| | |].
  - intros i t' Hh. rewrite <- Ho, <- Hfo in Hh. destruct (Hsh i t' Hh) as [Hh'|Hin]; [left|right; set_solver].
    by eapply lock_post_holds_mono.
  - intros o Hin Hne. apply Hsub. by eapply lock_post_others.
  - destruct (success r) eqn:Es.
    + eapply lock_post_holds; [done..|]. congruence.
    + intros o Hin. apply Hsub. destruct (must_wait (lock_grant r)) eqn:Emw.
      * by destruct (lock_grant r); try done; destruct Hpost.
      * erewrite <- (lock_ow_refused s2); [done..|congruence|done].
Qed.

Lemma steal_self m p id lsn t m' a O W :
  sys_inv sh (mkSys m p) → p !! id = None → steal_lock_in_wait m lsn id t = (m', a) →
  own_ok id O (mkSys m p) → held_ok id W (mkSys m p) →
  own_ok id (own_after (LmSteal lsn t) a O) (mkSys m' p) ∧
  held_ok id (held_after (LmSteal lsn t) a W) (mkSys m' p).
Proof.
  intros Hi Hidle Hst Ho Hh. pose proof (steal_spec m p lsn id t Hi) as (s' & (Hk & Hlo & _) & Hpre & Hhold & Hoth & Hres).
  rewrite Hst in *. simpl in *.
  assert (∀ k, k ∈ W → holds_in (ow m' k) id Write ∨ id ∈ preempted m') as HW.
  { intros k Hin. destruct (Hh k Hin) as [Hin'|?]; [|right; by apply Hpre].
    destruct (decide (k = lsn)) as [->|Hne]; [|left; by rewrite (proj1 (Hk k Hne))].
    rewrite Hlo. by apply Hhold. }
  split.
  - intros k o Hin Hid. simpl in Hin. left. destruct (decide (k = lsn)) as [->|Hne].
    + destruct a; [set_solver|]. rewrite Hlo in Hin. eapply own_idle; [done..| |done]. by apply Hres.
    + rewrite (proj1 (Hk k Hne)) in Hin. pose proof (own_idle _ _ _ _ _ _ Hidle Ho Hin Hid).
      destruct a; set_solver.
  - destruct a; simpl; [|exact HW]. destruct (is_write_lock t) eqn:Ew; [|exact HW].
    intros k [->%elem_of_singleton|Hin]%elem_of_union; [left|by apply HW].
    simpl. rewrite Hlo. by eapply holds_in_write.
Qed.

Lemma steal_others m p id lsn t id' :
  sys_inv sh (mkSys m p) → id' ≠ id →
  others_keep id' (mkSys m p) (mkSys (steal_lock_in_wait m lsn id t).1 p).
Proof.
  intros Hi Hne. pose proof (steal_spec m p lsn id t Hi) as (s' & Hc & Hpre & Hhold & Hoth & _).
  simpl in *. eapply others_changes; [done..|by apply Hpre| |].
  - intros t'. apply Hhold.
  - intros o Ho Hid. left. apply Hoth; [done|congruence].
Qed.

(** ** Any call *)

Lemma returns_inv id s c a s' : sys_inv sh s → returns id s c a s' → sys_inv sh s'.
Proof.
  intros Hi Hr. destruct s as [m p]. destruct c; simpl in *;
    try (destruct Hr as [_ ->]; done); try (destruct Hr as (_ & -> & _); done).
  - destruct Hr as [(Hidle & m' & Hl & ->)|(w & snap & el & to & m' & Hw & <- & Hs & ->)].
    + by eapply lock_returned_sys.
    + by eapply (wait_step_sys sh _ _ _ _ _ _ _ _ (inr a)).
  - destruct Hr as (Hidle & _ & _ & m' & Hst & ->).
    pose proof (steal_sys sh sh_sym m p id lsn t Hi Hidle) as Hi'. by rewrite Hst in Hi'.
  - destruct Hr as [Hidle ->]. by apply release_at_sys.
  - destruct Hr as (Hidle & Hown & ->). by apply demote_sys.
  - destruct Hr as [Hidle ->]. by apply clear_preempted_sys.
  - destruct Hr as [Hidle ->]. destruct b; by apply non_preemptable_sys.
Qed.

Lemma waits_inv id s c s' : sys_inv sh s → waits id s c s' → sys_inv sh s'.
Proof.
  intros Hi Hw. destruct s as [m p]. destruct c; try done. simpl in Hw.
  destruct Hw as [(Hidle & m' & g & os & pr & Hl & ->)|(w & snap & el & to & m' & pc & Hp & <- & Hs & ->)].
  - by eapply lock_waits_sys.
  - by eapply (wait_step_sys sh _ _ _ _ _ _ _ _ (inl pc)).
Qed.

Lemma returns_self id s c a s' O W :
  sys_inv sh s → returns id s c a s' → own_ok id O s → held_ok id W s →
  (∀ w, pending s !! id = Some w → rq_type (w_request w) ≠ NoLock) →
  possible c a ∧ own_ok id (own_after c a O) s' ∧ held_ok id (held_after c a W) s' ∧
  pending s' !! id = None.
Proof.
  intros Hi Hr Ho Hh Hnl. destruct s as [m p]. destruct c; simpl in Hr;
    try (destruct Hr as [Hidle ->]; done); try (destruct Hr as (Hidle & -> & _); done).
  - destruct Hr as [(Hidle & m' & Hl & ->)|(w & snap & el & to & m' & Hw & <- & Hs & ->)].
    + destruct (lock_returned_self m p id r non_blocking m' a O W Hi Hidle Hl Ho Hh) as (? & ? & ?).
      by split_and!.
    + destruct (wait_end_self m p snap id w el to m' a non_blocking O W Hi Hw Hs Ho Hh (Hnl w Hw)) as (? & ? & ?).
      split_and!; [done..|]. apply lookup_delete_eq.
  - destruct Hr as (Hidle & _ & _ & m' & Hst & ->).
    destruct (steal_self m p id lsn t m' a O W Hi Hidle Hst Ho Hh). by split_and!.
  - destruct Hr as [Hidle ->]. destruct (release_self m p id lsn O W Hi Hidle Ho Hh). by split_and!.
  - destruct Hr as (Hidle & Hown & ->). destruct (demote_self m p id lsn O W Hi Hidle Hown Ho Hh). by split_and!.
  - destruct Hr as [Hidle ->]. split_and!; [done| | |done].
    + apply (own_same id O m); [by destruct b|done].
    + apply (held_same id W m _ p); [by destruct b..|done].
Qed.

Lemma returns_others id id' s c a s' :
  sys_inv sh s → id' ≠ id → returns id s c a s' → others_keep id' s s'.
Proof.
  intros Hi Hne Hr. destruct s as [m p]. destruct c; simpl in Hr;
    try (destruct Hr as [_ ->]; by apply others_same); try (destruct Hr as (_ & -> & _); by apply others_same).
  - destruct Hr as [(Hidle & m' & Hl & ->)|(w & snap & el & to & m' & Hw & <- & Hs & ->)].
    + by eapply lock_returned_others.
    + destruct (wait_step_ow m p snap id w el to m' _ Hi Hw Hs) as (Hk & Hpre & _).
      apply others_same; [done|by rewrite lookup_delete_ne|by rewrite Hpre].
  - destruct Hr as (Hidle & _ & _ & m' & Hst & ->).
    pose proof (steal_others m p id lsn t id' Hi Hne) as Hs. by rewrite Hst in Hs.
  - destruct Hr as [_ ->]. by apply release_others.
  - destruct Hr as (_ & Hown & ->). by apply demote_keeps_others.
  - destruct Hr as [_ ->]. apply others_same; [done..|]. simpl. set_solver.
  - destruct Hr as [_ ->]. apply others_same; by destruct b.
Qed.

Lemma waits_effect id s c s' :
  sys_inv sh s → waits id s c s' →
  ∃ r nb w, c = LmLock r nb ∧ pending s' !! id = Some w ∧ w_request w = r ∧
    (pending s !! id = None → rq_type r ≠ NoLock) ∧
    (∀ k, ow (mgr s') k = ow (mgr s) k) ∧ preempted (mgr s') = preempted (mgr s) ∧
    (∀ id', id' ≠ id → pending s' !! id' = pending s !! id') ∧
    (pending s !! id = None ∨ ∃ w0, pending s !! id = Some w0 ∧ w_request w0 = r ∧ w_initial w0 = w_initial w).
Proof.
  intros Hi Hw. destruct s as [m p]. destruct c; try done. simpl in Hw.
  destruct Hw as [(Hidle & m' & g & os & pr & Hl & ->)|(w & snap & el & to & m' & pc & Hp & <- & Hs & ->)].
  - destruct (lock_waits_ow m p id r non_blocking m' g os pr Hi Hidle Hl) as [Hk Hpre].
    eexists r, non_blocking, _. simpl. rewrite lookup_insert_eq.
    split_and!; [done..| |done|done| |by left]; [by intros _ Et; rewrite Et in Hl|].
    intros id' Hne. by rewrite lookup_insert_ne.
  - destruct (wait_step_ow m p snap id w el to m' _ Hi Hp Hs) as (Hk & Hpre & _).
    eexists (w_request w), non_blocking, _. simpl. rewrite lookup_insert_eq. split_and!; [done..|congruence|done|done| |right; by exists w].
    intros id' Hne. by rewrite lookup_insert_ne.
Qed.

Lemma waits_self id s c s' O W :
  sys_inv sh s → waits id s c s' → own_ok id O s → held_ok id W s →
  own_ok id O s' ∧ held_ok id W s'.
Proof.
  intros Hi Hw Ho Hh.
  destruct (waits_effect id s c s' Hi Hw) as (r & nb & w & _ & Hw' & Hr & _ & Hk & Hpre & _ & Hw0).
  split; [|intros k Hin; rewrite Hk, Hpre; by apply Hh].
  intros k o Hin Hid. rewrite Hk in Hin.
  destruct (Ho k o Hin Hid) as [?|(w1 & Hw1 & Hk1 & Ht & Hi1)]; [by left|right].
  destruct Hw0 as [?|(w0 & Hw0 & Hr0 & Hi0)]; [congruence|]. assert (w1 = w0) as -> by congruence.
  exists w. split_and!; [done|congruence..].
Qed.

Lemma waits_others id id' s c s' :
  sys_inv sh s → id' ≠ id → waits id s c s' → others_keep id' s s'.
Proof.
  intros Hi Hne Hw. destruct (waits_effect id s c s' Hi Hw) as (r & nb & w & _ & _ & _ & _ & Hk & Hpre & Hp & _).
  destruct s, s'. apply others_same; [done|by apply Hp|]. simpl in *. by rewrite Hpre.
Qed.

End effects.
