(* ===== verification/TxnLocks.v ===== *)
(** * The books of transactions and the lock table

    Two theorems about every interleaving of the methods of transactions:
    [locks_are_in_the_books] says that a lock of the table that belongs to a
    transaction is in its books, so that none outlives a commit, and
    [write_locks_to_the_end] that a write lock stays in the table until the commit
    entry is in the log, or the changes are undone.  They follow from one
    invariant: a program is [safe] for bounds [O] and [W] on what its locker owns
    and holds. *)

From S2P Require Import Prelude Bytes LockType LockImpl Lock Deadlock LockManager LockSystem.
From S2P Require Import Lsn LogEntry TxnOps TxnSystem.

(** ** Safe programs *)

Section safe.
Context (I : list ev → gset Z → Prop).

(** [I] holds before each call and at the end, [Q] of what is returned. *)
Fixpoint safe {A} (Q : list ev → gset Z → gset Z → A → Prop) (h : list ev) (O W : gset Z)
    (p : Prog A) : Prop :=
  I h W ∧
  match p with
  | Ret a => Q h O W a
  | Do c k => ∀ a, possible c a →
      safe Q (h ++ events c a) (own_after c a O) (held_after c a W) (k a)
  end.

Lemma safe_ret {A} Q h O W (a : A) : I h W → Q h O W a → safe Q h O W (Ret a).
Proof. done. Qed.

Lemma safe_do {A} (Q : list ev → gset Z → gset Z → A → Prop) h O W c k :
  I h W →
  (∀ a, possible c a → safe Q (h ++ events c a) (own_after c a O) (held_after c a W) (k a)) →
  safe Q h O W (Do c k).
Proof. done. Qed.

Lemma safe_seq {A B} (Q : list ev → gset Z → gset Z → B → Prop) h O W (p : Prog A) (k : A → Prog B) :
  safe (λ h O W a, safe Q h O W (k a)) h O W p → safe Q h O W (seq_ p k).
Proof.
  revert h O W. induction p as [a|c f IH]; intros h O W [HI Hp]; [done|].
  split; [done|]. intros a Ha. by apply IH, Hp.
Qed.

Lemma safe_mono {A} (Q Q' : list ev → gset Z → gset Z → A → Prop) h O W p :
  (∀ h O W a, I h W → Q h O W a → Q' h O W a) → safe Q h O W p → safe Q' h O W p.
Proof.
  intros HQ. revert h O W. induction p as [a|c f IH]; intros h O W [HI Hp]; split; auto.
Qed.

Lemma safe_I {A} (Q : list ev → gset Z → gset Z → A → Prop) h O W p : safe Q h O W p → I h W.
Proof. by destruct p as [a|c k]; intros [? _]. Qed.

End safe.

(** ** The invariant of the system *)

Section world.
Context `{HashOrder}.
Context (initial : Transaction.t → Prop) (allowed : Transaction.t → Op → Prop).
Context (ok : Transaction.t → gset Z → gset Z → Prop).
Context (keeps : Transaction.t → Op → list ev → gset Z → Prop).
Context (initial_ok : ∀ x, initial x → ok x ∅ ∅).
Context (run_safe : ∀ x op O W, ok x O W → allowed x op →
  safe (keeps x op) (λ _ O W x', ok x' O W ∧ Txn.id (Transaction.inner x') = Txn.id (Transaction.inner x))
    [] O W (run op x)).
Context (sh : Z → Z → bool).
Context (sh_sym : ∀ a b, sh a b = sh b a).

Definition thread_ok (s : sys) (id : Z) (th : thread) : Prop :=
  ∃ O W, own_ok id O s ∧ held_ok id W s ∧
    match th with
    | Idle x => ok x O W ∧ pending s !! id = None ∧ Txn.id (Transaction.inner x) = id
    | Running x op h p =>
        safe (keeps x op)
          (λ _ O W x', ok x' O W ∧ Txn.id (Transaction.inner x') = Txn.id (Transaction.inner x)) h O W p ∧
        (∀ w, pending s !! id = Some w → ∃ r nb k, p = Do (LmLock r nb) k ∧ w_request w = r ∧ rq_type r ≠ NoLock) ∧
        Txn.id (Transaction.inner x) = id
    end.

Definition world_ok (w : world) : Prop :=
  sys_inv sh (w_sys w) ∧ ∀ id th, w_threads w !! id = Some th → thread_ok (w_sys w) id th.

Lemma thread_ok_others id s s' th :
  sys_inv sh s → others_keep id s s' → thread_ok s id th → thread_ok s' id th.
Proof.
  intros Hi Hk (O & W & Ho & Hh & Hth). exists O, W.
  split_and!; [by eapply own_ok_others|by eapply held_ok_others|].
  destruct Hk as [Hp _ _ _]. destruct th; by rewrite Hp.
Qed.

Lemma wstep_ok w w' : world_ok w → wstep initial allowed w w' → world_ok w'.
Proof.
  intros [Hi Hts] Hs. destruct Hs as
    [s ts id x Hnone Hp Hown Hid Hx|s ts id x op Hth Ha|s ts id x op h c k a s' Hth Hr|
     s ts id x op h c k s' Hth Hw|s ts id x op h x' Hth|s ts id c a s' Hnone Hr|s ts id c s' Hnone Hw];
    simpl in *.
  - split; [done|]. simpl. intros id' th [[<- <-]|[_ Hth]]%lookup_insert_Some; [|by apply Hts].
    exists ∅, ∅. split_and!; [|by intros k ?%elem_of_empty|by apply initial_ok|done..].
    intros k o Hin Hio. by destruct (Hown k o Hin).
  - split; [done|]. simpl. intros id' th [[<- <-]|[_ Hth']]%lookup_insert_Some; [|by apply Hts].
    destruct (Hts id _ Hth) as (O & W & Ho & Hh & Hok & Hp & Hid). exists O, W. split_and!; [done..| | |done].
    + by apply run_safe.
    + simpl. congruence.
  - pose proof (returns_inv sh sh_sym id s c a s' Hi Hr) as Hi'. split; [done|].
    simpl. intros id' th [[<- <-]|[Hne Hth']]%lookup_insert_Some.
    + destruct (Hts id _ Hth) as (O & W & Ho & Hh & [_ Hsafe] & Hpend & Hid).
      destruct (returns_self sh sh_sym id s c a s' O W Hi Hr Ho Hh) as (Hpos & Ho' & Hh' & Hp');
        [by intros w Hw; destruct (Hpend w Hw) as (r & nb & k' & _ & -> & ?)|].
      eexists _, _. split_and!; [done..|by apply Hsafe| |done]. simpl. congruence.
    + eapply thread_ok_others; [exact Hi| |by apply Hts]. by eapply returns_others.
  - pose proof (waits_inv sh sh_sym id s c s' Hi Hw) as Hi'. split; [done|]. simpl. intros id' th Hth'.
    destruct (decide (id' = id)) as [->|Hne].
    + assert (th = Running x op h (Do c k)) as -> by congruence.
      destruct (Hts id _ Hth) as (O & W & Ho & Hh & Hsafe & Hpend & Hid).
      destruct (waits_self sh id s c s' O W Hi Hw Ho Hh) as [Ho' Hh'].
      destruct (waits_effect sh id s c s' Hi Hw) as (r & nb & w & -> & Hw' & Hwr & Hnl & _).
      exists O, W. split_and!; [done..| |done]. intros w1 Hw1. simpl in Hw1.
      exists r, nb, k. split_and!; [done|congruence|].
      destruct (pending s !! id) as [w0|] eqn:E0; [|by apply Hnl].
      destruct (Hpend w0 eq_refl) as (r0 & nb0 & k0 & Heq & _ & ?). by injection Heq as -> _ _.
    + eapply thread_ok_others; [exact Hi| |by apply Hts]. by eapply waits_others.
  - split; [done|]. simpl. intros id' th [[<- <-]|[_ Hth']]%lookup_insert_Some; [|by apply Hts].
    destruct (Hts id _ Hth) as (O & W & Ho & Hh & [_ [Hok Hid']] & Hp & Hid). exists O, W.
    split_and!; [done..| |congruence].
    destruct (pending s !! id) as [w|] eqn:Ew; [|done]. by destruct (Hp w eq_refl) as (r & nb & k & [=] & _).
  - split; [by eapply returns_inv|]. simpl. intros id' th Hth. assert (id' ≠ id) by congruence.
    eapply thread_ok_others; [exact Hi| |by apply Hts]. by eapply returns_others.
  - split; [by eapply waits_inv|]. simpl. intros id' th Hth. assert (id' ≠ id) by congruence.
    eapply thread_ok_others; [exact Hi| |by apply Hts]. by eapply waits_others.
Qed.

Lemma wreachable_ok m0 w :
  sys_inv sh (mkSys m0 ∅) → wreachable initial allowed m0 w → world_ok w.
Proof.
  intros Hi Hw. induction Hw as [|w w' _ IH Hs]; [|by eapply wstep_ok].
  split; [done|]. intros id th. simpl. by rewrite lookup_empty.
Qed.

End world.

(** ** The methods of a transaction *)

Definition books (i : Txn.t) : gset Z := Txn.read_locks i ∪ dom (Txn.write_locks i).

(** It writes its own commit and abort entries. *)
Definition own_frames (i : Txn.t) : bool :=
  has_log (Txn.opts i) && negb (Txn.is_auto_txn i) && negb (Txn.suppress_own_end_frame i).

Definition evolves (i i' : Txn.t) : Prop :=
  Txn.id i' = Txn.id i ∧
  (Txn.state i' = Txn.state i ∨ Txn.state i = Open ∧ Txn.state i' = MustAbort).

Lemma evolves_refl i : evolves i i.
Proof. split; auto. Qed.

Lemma evolves_locks i r w : evolves i (Txn.with_locks i r w).
Proof. split; [done|by left]. Qed.

Lemma evolves_trans i j k : evolves i j → evolves j k → evolves i k.
Proof. unfold evolves. intuition congruence. Qed.

Section methods.
Context `{HashOrder}.

(** With [strict] the methods are used as they are meant to be, and the locks
    [D] that were write locked at the start may go when [gu] says so. *)
Context (strict : bool) (D : gset Z) (gu : list ev → Z → Prop).
Context (gu_mono : ∀ h h' l, h ⊆ h' → gu h l → gu h' l).

Definition inv (h : list ev) (W : gset Z) : Prop :=
  strict = true → ∀ l, l ∈ D → l ∈ W ∨ gu h l.

Definition free (h : list ev) : Prop := strict = true → ∀ l, l ∈ D → gu h l.

Record base_ok (i : Txn.t) (O W : gset Z) : Prop := {
  bo_own : O ⊆ books i;
  bo_done : Txn.state i = Committed → books i = ∅;
  bo_strict : strict = true →
    dom (Txn.write_locks i) ⊆ W ∧ Txn.read_locks i ## dom (Txn.write_locks i) ∧ own_frames i = false;
}.

Record txn_ok (i : Txn.t) (O W : gset Z) : Prop := {
  tk_base : base_ok i O W;
  tk_kept : strict = true → D ⊆ dom (Txn.write_locks i);
}.

Lemma txn_ok_inv i O W h : txn_ok i O W → inv h W.
Proof.
  intros [[_ _ Hs] Hk] E l Hl. left. destruct (Hs E) as [Hd _]. specialize (Hk E). set_solver.
Qed.

Lemma free_inv h W : free h → inv h W.
Proof. intros Hf E l Hl. right. by apply Hf. Qed.

Lemma free_mono h h' : h ⊆ h' → free h → free h'.
Proof. intros Hh Hf E l Hl. eapply gu_mono; [done|]. by apply Hf. Qed.

(** The same locks, another state. *)
Lemma base_ok_same i i' O W :
  Txn.read_locks i' = Txn.read_locks i → Txn.write_locks i' = Txn.write_locks i →
  (Txn.state i' = Committed → Txn.state i = Committed) → own_frames i' = own_frames i →
  base_ok i O W → base_ok i' O W.
Proof. intros Hr Hw Hst Hf [Ho Hd Hs]. unfold books in *. split; unfold books; rewrite ?Hr, ?Hw, ?Hf; auto. Qed.

Lemma txn_ok_same i i' O W :
  Txn.read_locks i' = Txn.read_locks i → Txn.write_locks i' = Txn.write_locks i →
  (Txn.state i' = Committed → Txn.state i = Committed) → own_frames i' = own_frames i →
  txn_ok i O W → txn_ok i' O W.
Proof. intros Hr Hw Hst Hf [Hb Hk]. split; [by eapply base_ok_same|]. by rewrite Hw. Qed.

Lemma not_committed i O W lsn :
  base_ok i O W → lsn ∈ books i → Txn.state i ≠ Committed.
Proof. intros [_ Hd _] Hin E. rewrite (Hd E) in Hin. set_solver. Qed.

(** Tactics: a goal about a program is worked off call by call. *)
Ltac safe_step :=
  match goal with
  | |- safe _ _ _ _ _ (seq_ _ _) => apply safe_seq
  | |- safe _ _ _ _ _ (Ret _) => apply safe_ret
  | |- safe _ _ _ _ _ (Do _ _) => apply safe_do; [|intros ? ?]
  | |- safe _ _ _ _ _ (match ?e with _ => _ end) => destruct e eqn:?
  end.

Lemma inv_mono h h' W W' : h ⊆ h' → W ⊆ W' → inv h W → inv h' W'.
Proof.
  intros Hh HW Hi E l Hl. destruct (Hi E l Hl) as [?|?]; [left; set_solver|right]. by eapply gu_mono.
Qed.

(** The bounds after a lock request. *)
Definition after_lock (lsn : Z) (ty : LockType) (r : result LockGrantType TxnError)
    (O W O' W' : gset Z) : Prop :=
  (∀ g, r = Ok g → (g = NoneNeeded ↔ ty = NoLock)) ∧
  match r with
  | Err _ | Ok NoneNeeded => O' = O ∧ W' = W
  | Ok _ => O' = {[lsn]} ∪ O ∧ W' = if is_write_lock ty then {[lsn]} ∪ W else W
  end.

Lemma after_lock_inv lsn ty r O W O' W' h : after_lock lsn ty r O W O' W' → inv h W → inv h W'.
Proof.
  intros [_ Ha]. apply inv_mono; [done|].
  destruct r as [[]|]; destruct Ha as [_ ->]; try done; destruct (is_write_lock ty); set_solver.
Qed.

Lemma call_lock_safe {A} (Q : list ev → gset Z → gset Z → A → Prop) r nb h O W k :
  inv h W →
  (∀ a O' W', after_lock (rq_lsn r) (rq_type r) a O W O' W' → inv h W' → safe inv Q h O' W' (k a)) →
  safe inv Q h O W (Do (LmLock r nb) k).
Proof.
  intros Hi HQ. apply safe_do; [done|]. intros a Ha. change (events (LmLock r nb) a) with (@nil ev).
  rewrite app_nil_r.
  assert (after_lock (rq_lsn r) (rq_type r) a O W (own_after (LmLock r nb) a O)
            (held_after (LmLock r nb) a W)) as Hl.
  { split; [exact Ha|]. by destruct a as [[]|]. }
  apply HQ; [done|]. by eapply after_lock_inv.
Qed.

(** A call that changes neither the locks nor the history. *)
Lemma call_safe {A} (Q : list ev → gset Z → gset Z → A → Prop) c k h O W :
  (∀ a, events c a = []) → (∀ a, own_after c a O = O) → (∀ a, held_after c a W = W) →
  inv h W → (∀ a, safe inv Q h O W (k a)) → safe inv Q h O W (Do c k).
Proof.
  intros He Ho Hh Hi HQ. apply safe_do; [done|]. intros a _. by rewrite He, Ho, Hh, app_nil_r.
Qed.

Ltac quiet := apply call_safe; [done|done|done|done|intros ?].

Lemma lm_lock_safe lsn ty nb Q h O W :
  inv h W →
  (∀ O' W' r, after_lock lsn ty r O W O' W' → inv h W' → Q h O' W' r) →
  safe inv Q h O W (Txn.lm_lock lsn ty nb).
Proof.
  intros Hi HQ. unfold Txn.lm_lock. quiet. apply call_lock_safe; [done|]. intros r O' W' Ha Hi'.
  apply safe_ret; [done|]. by apply HQ.
Qed.

Lemma lock_importunate_safe lsn ty nb timeout Q h O W :
  inv h W →
  (∀ O' W' r, after_lock lsn ty r O W O' W' → inv h W' → Q h O' W' r) →
  safe inv Q h O W (Txn.lock_importunate_with_timeout lsn ty nb timeout).
Proof.
  intros Hi HQ. unfold Txn.lock_importunate_with_timeout.
  assert (∀ e', safe inv Q h O W (Ret (Err e'))) as Herr.
  { intros e'. apply safe_ret; [done|]. apply HQ; [|done]. split; [by intros g [=]|done]. }
  case_bool_decide as Hn.
  { apply safe_ret; [done|]. apply HQ; [|done]. split; [by intros g [= <-]|done]. }
  case_bool_decide; [apply Herr|].
  apply safe_seq, lm_lock_safe; [done|]. intros O' W' r Ha Hi'.
  destruct r as [g|e]; [apply safe_ret; [done|]; by apply HQ|].
  destruct Ha as [_ [-> ->]].
  destruct e; try apply Herr.
  apply safe_do; [done|]. intros b _. change (events (LmSteal _ _) b) with (@nil ev). rewrite app_nil_r.
  destruct b; simpl.
  - assert (after_lock lsn ty (Ok New) O W ({[lsn]} ∪ O) (if is_write_lock ty then {[lsn]} ∪ W else W)) as Ha.
    { split; [by intros g [= <-]|done]. }
    apply safe_ret; [by eapply after_lock_inv|]. apply HQ; [done|]. by eapply after_lock_inv.
  - destruct nb; [apply Herr|]. apply call_lock_safe; [done|]. intros r O' W' Ha Hi''.
    apply safe_ret; [done|]. by apply HQ.
Qed.

(** The books after a grant. *)
Lemma track_ok i lsn ty r O W O' W' i' w :
  txn_ok i O W → Txn.state i = Open → (∀ e, r ≠ Err e) → r ≠ Ok NoneNeeded →
  after_lock lsn ty r O W O' W' → Txn.track i lsn ty = (i', w) →
  (strict = true → is_write_lock ty = true ∨ ty = NoLock ∨ lsn ∉ dom (Txn.write_locks i)) →
  txn_ok i' O' W' ∧ evolves i i'.
Proof.
  intros [[Ho Hd Hs] Hk] Hst Hne Hnn [Ht0 Ha] Ht Hdis.
  assert (O' = {[lsn]} ∪ O ∧ W' = if is_write_lock ty then {[lsn]} ∪ W else W) as [-> ->].
  { destruct r as [[]|e]; try done. by destruct (Hne e). }
  unfold Txn.track in Ht. destruct (is_write_lock ty) eqn:Ew; injection Ht as <- <-; (split; [|split; auto]).
  - split; [split|]; unfold books in *; simpl.
    + rewrite dom_insert_L. intros k Hin. destruct (decide (k = lsn)); set_solver.
    + intros E. simpl in E. congruence.
    + intros E. destruct (Hs E) as (H1 & H2 & H3). rewrite dom_insert_L. split_and!; [set_solver..|done].
    + intros E. rewrite dom_insert_L. specialize (Hk E). set_solver.
  - split; [split|]; unfold books in *; simpl.
    + set_solver.
    + intros E. simpl in E. congruence.
    + intros E. destruct (Hs E) as (H1 & H2 & H3). split_and!; [done| |done].
      destruct (Hdis E) as [?|[->|?]]; [done| |set_solver].
      destruct r as [g|e]; [|by destruct (Hne e)]. destruct Hnn. f_equal. by apply Ht0.
    + done.
Qed.

(** What is left to show after a method that keeps the books right. *)
Definition kept {R} (i : Txn.t) (h : list ev) (Q : list ev → gset Z → gset Z → Txn.t * R → Prop) : Prop :=
  ∀ O' W' i' r, txn_ok i' O' W' → evolves i i' → Q h O' W' (i', r).

Lemma kept_evolves {R} i i' h (Q : list ev → gset Z → gset Z → Txn.t * R → Prop) :
  evolves i i' → kept i h Q → kept i' h Q.
Proof. intros He HQ O' W' j r Hj Hij. apply HQ; [done|]. by eapply evolves_trans. Qed.

Lemma ret_kept {R} i i' h O W Q (r : R) :
  txn_ok i' O W → evolves i i' → kept i h Q → safe inv Q h O W (Ret (i', r)).
Proof. intros Hi He HQ. apply safe_ret; [by eapply txn_ok_inv|]. by apply HQ. Qed.

Lemma unchanged {R} i h O W Q (r : R) : txn_ok i O W → kept i h Q → safe inv Q h O W (Ret (i, r)).
Proof. intros Hi. apply ret_kept; [done|apply evolves_refl]. Qed.

Lemma only_abortable_ok i O W :
  txn_ok i O W → txn_ok (Txn.set_only_abortable i) O W ∧ evolves i (Txn.set_only_abortable i).
Proof.
  intros Hi. unfold Txn.set_only_abortable. destruct (decide _) as [Hs|Hs]; [|split; [done|apply evolves_refl]].
  split; [|split; [done|right; done]]. by eapply txn_ok_same; [..|exact Hi].
Qed.

(** Reads and re-reads of a record that is write locked take no other lock. *)
Definition disciplined (i : Txn.t) (lsn : Z) (ty : LockType) : Prop :=
  strict = true → is_write_lock ty = true ∨ ty = NoLock ∨ lsn ∉ dom (Txn.write_locks i).

(** A read lock leaves the write locks as they are. *)
Definition kept_lock {R} (i : Txn.t) (ty : LockType) (h : list ev)
    (Q : list ev → gset Z → gset Z → Txn.t * R → Prop) : Prop :=
  ∀ O' W' i' r, txn_ok i' O' W' → evolves i i' →
    (is_write_lock ty = false → Txn.write_locks i' = Txn.write_locks i) → Q h O' W' (i', r).

Lemma kept_kept_lock {R} i ty h (Q : list ev → gset Z → gset Z → Txn.t * R → Prop) :
  kept i h Q → kept_lock i ty h Q.
Proof. intros HQ O' W' i' r Hi He _. by apply HQ. Qed.

Definition granted (i : Txn.t) (lsn : Z) (ty : LockType) (nb : bool) (raw : result LockGrantType TxnError)
    : Prog (Txn.t * result (LockGrantType * option WriteLockInfo) TxnError) :=
  match raw with
  | Err e => Ret (if negb nb && Txn.poisons e then Txn.set_only_abortable i else i, Err e)
  | Ok NoneNeeded => Ret (i, Ok (NoneNeeded, None))
  | Ok g => let '(x, w) := Txn.track i lsn ty in Ret (x, Ok (g, w))
  end.

Lemma granted_safe i lsn ty nb raw Q h O W O' W' :
  txn_ok i O W → Txn.state i = Open → disciplined i lsn ty → after_lock lsn ty raw O W O' W' →
  kept_lock i ty h Q → safe inv Q h O' W' (granted i lsn ty nb raw).
Proof.
  intros Hi Hst Hdis Ha HQ.
  assert (∀ i' r, txn_ok i' O' W' → evolves i i' →
    (is_write_lock ty = false → Txn.write_locks i' = Txn.write_locks i) → safe inv Q h O' W' (Ret (i', r))) as Hret.
  { intros i' r Hi' He Hw. apply safe_ret; [by eapply txn_ok_inv|]. by apply HQ. }
  assert (∀ g, raw = Ok g → g ≠ NoneNeeded → safe inv Q h O' W'
    (let '(x, w) := Txn.track i lsn ty in Ret (x, Ok (g, w)))) as Hg.
  { intros g -> Hg. destruct (Txn.track i lsn ty) as [i' w] eqn:Ht.
    destruct (track_ok i lsn ty (Ok g) O W O' W' i' w) as [Hi' He]; [done|done|done|congruence|done..|].
    apply Hret; [done..|]. intros Hty. unfold Txn.track in Ht. rewrite Hty in Ht. by injection Ht as <- _. }
  unfold granted. destruct raw as [[]|e]; try by apply Hg.
  - destruct Ha as [_ [-> ->]]. by apply Hret; [|apply evolves_refl|].
  - destruct Ha as [_ [-> ->]]. destruct (only_abortable_ok i O W Hi).
    destruct (negb nb && Txn.poisons e); [|by apply Hret; [|apply evolves_refl|]].
    apply Hret; [done..|]. intros _. unfold Txn.set_only_abortable. by destruct (decide (Txn.state i = Open)).
Qed.

Lemma lock_safe i lsn ty nb Q h O W :
  txn_ok i O W → disciplined i lsn ty → kept_lock i ty h Q → safe inv Q h O W (Txn.lock i lsn ty nb).
Proof.
  intros Hi Hdis HQ. pose proof (txn_ok_inv i O W h Hi) as Hinv. unfold Txn.lock.
  destruct (Txn.check_state i) as [?|e] eqn:Hc.
  2: { apply safe_ret; [done|]. by apply HQ; [|apply evolves_refl|]. }
  assert (Txn.state i = Open) as Hst by (unfold Txn.check_state in Hc; by destruct (Txn.state i)).
  change (safe inv Q h O W
    (let* raw := if Txn.importunate i
       then Txn.lock_importunate_with_timeout lsn ty (nb || no_wait (Txn.opts i)) (lock_timeout_ms (Txn.opts i))
       else
         let* remaining := Txn.txn_timeout_remaining_ms i in
         do* r := LmLock (mkRequest lsn ty (lock_timeout_ms (Txn.opts i)) remaining) (nb || no_wait (Txn.opts i)) in
         Ret (match r with Ok g => Ok g | Err e => Err (Txn.with_txn_timeout i e) end)
     in granted i lsn ty nb raw)).
  apply safe_seq. destruct (Txn.importunate i).
  - apply lock_importunate_safe; [done|]. intros O' W' r Ha _. by apply granted_safe with O W.
  - apply safe_seq. unfold Txn.txn_timeout_remaining_ms.
    destruct (txn_timeout_ms (Txn.opts i) =? 0); [|quiet]; (apply safe_ret; [done|]);
      (apply call_lock_safe; [done|]; intros r O' W' Ha Hi'; apply safe_ret; [done|];
       apply granted_safe with O W; try done;
       destruct r as [[]|e]; try done; destruct Ha as [_ Ha]; by split; [intros ? [=]|]).
Qed.

(** A lock that is read only is given back. *)
Lemma unread_ok i lsn O W :
  txn_ok i O W → lsn ∈ Txn.read_locks i →
  txn_ok (Txn.with_locks i (Txn.read_locks i ∖ {[lsn]}) (Txn.write_locks i)) (O ∖ {[lsn]}) (W ∖ {[lsn]}).
Proof.
  intros [[Ho Hd Hs] Hk] Hin. split; [split|done]; unfold books in *; simpl.
  - set_solver.
  - intros E. specialize (Hd E). set_solver.
  - intros E. destruct (Hs E) as (H1 & H2 & H3). split_and!; [set_solver..|done].
Qed.

Lemma call_release_safe {A} (Q : list ev → gset Z → gset Z → A → Prop) lsn k h O W :
  inv h W → safe inv Q h (O ∖ {[lsn]}) (W ∖ {[lsn]}) (k tt) → safe inv Q h O W (Do (LmRelease lsn) k).
Proof.
  intros Hi HQ. apply safe_do; [done|]. intros [] _. change (events (LmRelease lsn) tt) with (@nil ev).
  by rewrite app_nil_r.
Qed.

Lemma release_lock_safe i lsn Q h O W :
  txn_ok i O W → kept i h Q → safe inv Q h O W (Txn.release_lock i lsn).
Proof.
  intros Hi HQ. unfold Txn.release_lock. case_bool_decide as Hin; [|by apply unchanged].
  apply call_release_safe; [by eapply txn_ok_inv|]. apply ret_kept with i; [by apply unread_ok|apply evolves_locks|done].
Qed.

Lemma holds_range_insert_safe i lsn Q h O W :
  inv h W → (∀ b, Q h O W b) → safe inv Q h O W (Txn.holds_range_insert i lsn).
Proof.
  intros Hi HQ. unfold Txn.holds_range_insert. case_bool_decide; [quiet|]; by apply safe_ret.
Qed.

Lemma release_range_insert_safe i lsn Q h O W :
  txn_ok i O W → kept i h Q → safe inv Q h O W (Txn.release_range_insert_for_write i lsn).
Proof.
  intros Hi HQ. pose proof (txn_ok_inv i O W h Hi) as Hinv. unfold Txn.release_range_insert_for_write.
  case_bool_decide as Hin; [|by rewrite orb_true_r; apply unchanged].
  rewrite orb_false_r. destruct (Txn.owns_write_lock i lsn); [by apply unchanged|].
  quiet. case_bool_decide; [|by apply unchanged].
  apply call_release_safe; [done|]. apply ret_kept with i; [by apply unread_ok|apply evolves_locks|done].
Qed.

Lemma probe_safe i lsn Q h O W :
  inv h W → (∀ r, Q h O W r) → safe inv Q h O W (Txn.probe_read_uncontended i lsn).
Proof.
  intros Hi HQ. unfold Txn.probe_read_uncontended. destruct (Txn.check_state i); [quiet|]; by apply safe_ret.
Qed.

(** The lock of a record moves with it. *)
Lemma move_safe i old new Q h O W :
  txn_ok i O W → (strict = true → new ∉ Txn.read_locks i) → kept i h Q →
  safe inv Q h O W (Txn.move_write_lock_to_new_lsn i old new).
Proof.
  intros Hi Hnew HQ. pose proof (txn_ok_inv i O W h Hi) as Hinv. unfold Txn.move_write_lock_to_new_lsn.
  destruct (Txn.write_locks i !! old) as [wli|] eqn:Hold; [|by apply unchanged].
  apply safe_seq, lm_lock_safe; [done|]. intros O' W' r [Hr Ha] Hi'.
  destruct r as [g|e]; [|destruct Ha as [-> ->]; by apply unchanged].
  assert (O' = {[new]} ∪ O ∧ W' = {[new]} ∪ W) as [-> ->].
  { destruct g; try done. discriminate (proj1 (Hr NoneNeeded eq_refl) eq_refl). }
  assert (old ∈ dom (Txn.write_locks i)) as Hdom by (apply elem_of_dom; eauto).
  apply ret_kept with i; [|apply evolves_locks|done]. destruct Hi as [[Ho Hd Hs] Hk].
  assert (dom (<[old := WriteLockInfo_new]> (<[new := wli]> (delete old (Txn.write_locks i)))) =
          {[new]} ∪ dom (Txn.write_locks i)) as Hdw.
  { rewrite !dom_insert_L, dom_delete_L. apply set_eq. intros k. destruct (decide (k = old)); set_solver. }
  split; [split|]; unfold books in *; simpl; rewrite ?Hdw; simpl.
  - set_solver.
  - intros E. specialize (Hd E). set_solver.
  - intros E. destruct (Hs E) as (H1 & H2 & H3). specialize (Hnew E). split_and!; [set_solver..|done].
  - intros E. specialize (Hk E). set_solver.
Qed.

(** A demoted lock is still owned, but not held. *)
Lemma demote_safe i lsn Q h O W :
  txn_ok i O W → (strict = true → gu h lsn) →
  (∀ W' i' r, base_ok i' O W' → inv h W' → evolves i i' → Q h O W' (i', r)) →
  safe inv Q h O W (Txn.demote_lock i lsn).
Proof.
  intros Hi Hgu HQ. pose proof (txn_ok_inv i O W h Hi) as Hinv. unfold Txn.demote_lock.
  assert (∀ r, safe inv Q h O W (Ret (i, r))) as Hsame.
  { intros r. apply safe_ret; [done|]. apply HQ; [apply Hi|done|apply evolves_refl]. }
  destruct (Txn.check_state i) eqn:Hc; [|done].
  destruct (Txn.owns_write_lock i lsn) eqn:How; [|done].
  apply bool_decide_eq_true in How. apply safe_do; [done|]. intros [] _.
  change (events (LmDemote lsn) tt) with (@nil ev). rewrite app_nil_r. simpl.
  destruct Hi as [[Ho Hd Hs] Hk].
  assert (inv h (W ∖ {[lsn]})) as Hinv'.
  { intros E l Hl. destruct (decide (l = lsn)) as [->|Hne]; [right; by apply Hgu|].
    destruct (Hinv E l Hl); [left; set_solver|by right]. }
  split; [done|]. apply HQ; [|done|apply evolves_locks].
  split; unfold books in *; simpl; rewrite ?dom_delete_L.
  - intros k Hin. destruct (decide (k = lsn)); set_solver.
  - intros E. unfold Txn.check_state in Hc. by rewrite E in Hc.
  - intros E. destruct (Hs E) as (H1 & H2 & H3). split_and!; [set_solver..|done].
Qed.

Lemma abort_info_ok i lsn a key data kd db O W :
  txn_ok i O W →
  txn_ok (Txn.set_write_lock_abort_info i lsn a key data kd db) O W ∧
  evolves i (Txn.set_write_lock_abort_info i lsn a key data kd db).
Proof.
  intros Hi. unfold Txn.set_write_lock_abort_info.
  destruct (Txn.write_locks i !! lsn) as [w|] eqn:E; [|split; [done|apply evolves_refl]].
  destruct (never_locked w); [|split; [done|apply evolves_refl]].
  split; [|apply evolves_locks].
  assert (lsn ∈ dom (Txn.write_locks i)) by (apply elem_of_dom; eauto).
  destruct Hi as [[Ho Hd Hs] Hk].
  assert (∀ w', dom (<[lsn := w']> (Txn.write_locks i)) = dom (Txn.write_locks i)) as Hdom.
  { intros w'. rewrite dom_insert_L. set_solver. }
  split; [split|]; unfold books in *; simpl; rewrite ?Hdom; auto.
Qed.

Lemma note_log_entry_safe i lsn Q h O W :
  txn_ok i O W → (∀ i', txn_ok i' O W → evolves i i' → Q h O W i') →
  safe inv Q h O W (Txn.note_log_entry i lsn).
Proof.
  intros Hi HQ. pose proof (txn_ok_inv i O W h Hi) as Hinv. unfold Txn.note_log_entry.
  assert (∀ f, safe inv Q h O W
    (Ret (Txn.with_lsns i f lsn (Txn.commit_lsn i) (Txn.abort_lsn i)))) as Hend.
  { intros f. apply safe_ret; [done|]. apply HQ; [|split; [done|by left]].
    by eapply txn_ok_same; [..|exact Hi]. }
  destruct (_ && _); [quiet|]; apply Hend.
Qed.

(** ** The end of a transaction *)

Lemma release_each_safe {A} (Q : list ev → gset Z → gset Z → A → Prop) l k h O W :
  safe inv Q h (O ∖ list_to_set l) (W ∖ list_to_set l) k →
  safe inv Q h O W (Txn.release_each l k).
Proof.
  revert O W. induction l as [|lsn l IH]; intros O W Hk; simpl in *.
  { by rewrite !difference_empty_L in Hk. }
  change (safe inv Q h O W (do* _ := LmRelease lsn in Txn.release_each l k)).
  apply call_release_safe; [|apply IH; by rewrite !difference_difference_l_L].
  eapply inv_mono; [done| |by eapply safe_I]. set_solver.
Qed.

Lemma list_to_set_iter (s : gset Z) : list_to_set (iter s) = s.
Proof. rewrite (iter_perm s). apply list_to_set_elements_L. Qed.

Lemma frames_locks i r w : own_frames (Txn.with_locks i r w) = own_frames i.
Proof. done. Qed.

(** A transaction that owns nothing. *)
Lemma empty_ok i W :
  Txn.read_locks i = ∅ → Txn.write_locks i = ∅ → (strict = true → own_frames i = false) → base_ok i ∅ W.
Proof.
  intros Hr Hw Hf. split; unfold books; rewrite ?Hr, ?Hw, ?dom_empty_L; [set_solver..|].
  intros E. split_and!; [set_solver..|by apply Hf].
Qed.

Lemma release_all_safe i Q h O W :
  base_ok i O W → free h →
  (∀ i', base_ok i' ∅ ∅ → Txn.id i' = Txn.id i → Txn.state i' = Txn.state i →
     Txn.read_locks i' = ∅ → Txn.write_locks i' = ∅ → own_frames i' = own_frames i → Q h ∅ ∅ i') →
  safe inv Q h O W (Txn.release_all_locks i).
Proof.
  intros [Ho Hd Hs] Hf HQ. unfold Txn.release_all_locks. do 2 apply release_each_safe.
  rewrite !list_to_set_iter. apply safe_do; [by apply free_inv|]. intros [] _.
  change (events LmClearPreempted tt) with (@nil ev). rewrite app_nil_r. simpl.
  split; [by apply free_inv|].
  assert (O ∖ dom (Txn.write_locks i) ∖ Txn.read_locks i = ∅) as ->.
  { unfold books in Ho. set_solver. }
  apply HQ; try done. apply empty_ok; try done. intros E. by destruct (Hs E) as (_ & _ & ?).
Qed.

(** What is left to show after a method that may have ended the transaction. *)
Definition ended {R} (i : Txn.t) (h : list ev) (Q : list ev → gset Z → gset Z → Txn.t * R → Prop) : Prop :=
  ∀ h' O' W' i' r, h ⊆ h' → base_ok i' O' W' → Txn.id i' = Txn.id i → Q h' O' W' (i', r).

Lemma ret_ended {R} i i' h h' O W Q (r : R) :
  base_ok i' O W → free h' → h ⊆ h' → Txn.id i' = Txn.id i → ended i h Q →
  safe inv Q h' O W (Ret (i', r)).
Proof. intros Hi Hf Hh He HQ. apply safe_ret; [by apply free_inv|]. by apply HQ. Qed.

(** A program that only talks to the log, the clock and the hooks. *)
Definition silent {A} (p : Prog A) : Prop :=
  ∀ Q h O W, free h → (∀ h' a, h ⊆ h' → Q h' O W a) → safe inv Q h O W p.

Lemma silent_ret {A} (a : A) : silent (Ret a).
Proof. intros Q h O W Hf HQ. apply safe_ret; [by apply free_inv|]. by apply HQ. Qed.

Lemma silent_do {A} c (k : answer c → Prog A) :
  (∀ a O, own_after c a O = O) → (∀ a W, held_after c a W = W) → (∀ a, silent (k a)) → silent (Do c k).
Proof.
  intros Ho Hh Hk Q h O W Hf HQ. apply safe_do; [by apply free_inv|]. intros a _. rewrite Ho, Hh.
  apply Hk; [eapply free_mono; [|done]; set_solver|]. intros h' b Hb. apply HQ. set_solver.
Qed.

Lemma silent_seq {A B} (p : Prog A) (k : A → Prog B) : silent p → (∀ a, silent (k a)) → silent (seq_ p k).
Proof.
  intros Hp Hk Q h O W Hf HQ. apply safe_seq, Hp; [done|]. intros h' a Hh.
  apply Hk; [by eapply free_mono|]. intros h'' b Hb. apply HQ. set_solver.
Qed.

Ltac silence :=
  repeat first
    [ apply silent_ret
    | apply silent_do; [done|done|intros ?]
    | apply silent_seq; [|intros ?]
    | match goal with |- silent (match ?e with _ => _ end) => destruct e end ].

Lemma append_phase_silent i : silent (Txn.commit_append_phase i).
Proof. unfold Txn.commit_append_phase, Txn.run_hook, Txn.log_entry. silence. Qed.

Lemma durable_phase_silent i d p : silent (Txn.commit_durable_phase i d p).
Proof. unfold Txn.commit_durable_phase. silence. Qed.

Lemma merge_silent i l : silent (Txn.merge_obsolete_lsns i l).
Proof. unfold Txn.merge_obsolete_lsns. silence. Qed.

Lemma log_abort_silent i : silent (Txn.log_abort i).
Proof. unfold Txn.log_abort, Txn.log_entry. silence. Qed.

Lemma hooks_silent l : silent (for_each (λ n, do* _ := Hook n in Ret ()) l (Ret ())).
Proof. induction l as [|n l IH]; simpl; [apply silent_ret|]. silence. apply IH. Qed.

Lemma for_each_seq {X A} (f : X → Prog unit) l (k : Prog A) Q h O W :
  safe inv Q h O W (seq_ (for_each f l (Ret ())) (λ _, k)) → safe inv Q h O W (for_each f l k).
Proof.
  revert h O W. induction l as [|x l IH]; intros h O W; simpl; [done|].
  generalize (f x). intros p. revert h O W. induction p as [a|c g IHp]; intros h O W; simpl; [apply IH|].
  intros [Hi Hs]. split; [done|]. intros b Hb. by apply IHp, Hs.
Qed.

(** The locks go, whatever the state. *)
Lemma release_then_safe {R} i j h h' O W Q (f : Txn.t → Txn.t) (r : R) :
  base_ok j O W → free h' → h ⊆ h' → Txn.id j = Txn.id i →
  (∀ x, Txn.read_locks (f x) = Txn.read_locks x ∧ Txn.write_locks (f x) = Txn.write_locks x ∧
        Txn.id (f x) = Txn.id x ∧ own_frames (f x) = own_frames x) →
  ended i h Q → safe inv Q h' O W (let* x := Txn.release_all_locks j in Ret (f x, r)).
Proof.
  intros Hj Hf Hh Hid Hfx HQ. apply safe_seq, release_all_safe; [done..|].
  intros x Hx Hxi _ Hr Hw Hfr. destruct (Hfx x) as (Hr' & Hw' & Hi' & Hf').
  apply ret_ended with i h; [|done|done|congruence|done]. apply empty_ok; [congruence..|].
  intros E. rewrite Hf'. by destruct (bo_strict _ _ _ Hx E) as (_ & _ & ?).
Qed.

(** The second half of a commit: the write locks go after the hooks. *)
Lemma commit_release_safe i j h h' O W (Q : list ev → gset Z → gset Z → Txn.t * result Z TxnError → Prop)
    (p : Txn.PendingCommit) :
  base_ok j O W → Txn.read_locks j = ∅ → free h' → h ⊆ h' → Txn.id j = Txn.id i → ended i h Q →
  safe inv Q h' O W
    (for_each (λ n, do* _ := Hook n in Ret ()) (Txn.precommit_catalog_callbacks j)
      (let x := Txn.clear_callbacks j in
       Txn.release_each (iter (dom (Txn.write_locks x)))
         (let x := Txn.with_locks x (Txn.read_locks x) ∅ in
          let* _ := Txn.merge_obsolete_lsns x (Txn.obsolete_lsns p) in
          do* _ := LmClearPreempted in
          Ret (Txn.set_state x Committed, Ok (Txn.assigned_lsn p))))).
Proof.
  intros [Ho Hd Hs] Hr Hf Hh Hid HQ. apply for_each_seq, safe_seq, hooks_silent; [done|]. intros h1 _ Hh1.
  cbv zeta. apply release_each_safe. rewrite list_to_set_iter. apply safe_seq, merge_silent.
  { by eapply free_mono. }
  intros h2 _ Hh2. assert (free h2) as Hf2 by (eapply free_mono; [|exact Hf]; set_solver).
  apply safe_do; [by apply free_inv|]. intros [] _. change (events LmClearPreempted tt) with (@nil ev).
  rewrite app_nil_r. simpl.
  assert (O ∖ dom (Txn.write_locks j) = ∅) as -> by (unfold books in Ho; set_solver).
  split; [by apply free_inv|]. apply HQ; [set_solver| |done].
  apply empty_ok; [done..|]. intros E. by destruct (Hs E) as (_ & _ & ?).
Qed.

Lemma commit_safe i d Q h O W :
  base_ok i O W → free h → ended i h Q → safe inv Q h O W (Txn.commit_with_durability i d).
Proof.
  intros Hi Hf HQ. unfold Txn.commit_with_durability.
  destruct (Txn.is_prepared i); [by apply ret_ended with i h|].
  destruct (Txn.check_state i) eqn:Hc.
  2: { by apply (release_then_safe i i h h O W Q (λ x, x)). }
  destruct (Txn.has_open_cursors i); [by apply ret_ended with i h|].
  apply release_each_safe. rewrite list_to_set_iter. cbv zeta.
  set (j := Txn.with_locks i ∅ (Txn.write_locks i)).
  assert (base_ok j (O ∖ Txn.read_locks i) (W ∖ Txn.read_locks i)) as Hj.
  { destruct Hi as [Ho Hd Hs]. split; unfold books in *; simpl.
    - set_solver.
    - intros E. unfold Txn.check_state in Hc. by rewrite E in Hc.
    - intros E. destruct (Hs E) as (H1 & H2 & H3). split_and!; [set_solver..|done]. }
  apply safe_seq, append_phase_silent; [done|]. intros h1 r Hh1.
  assert (free h1) as Hf1 by (by eapply free_mono).
  destruct r as [p|e].
  2: { by apply (release_then_safe i j h h1 _ _ Q (λ x, Txn.set_state x MustAbort)). }
  apply safe_seq, durable_phase_silent; [done|]. intros h2 r Hh2.
  assert (free h2) as Hf2 by (by eapply free_mono). assert (h ⊆ h2) by set_solver.
  set (j' := Txn.with_lsns j (Txn.first_lsn j) (Txn.last_lsn j) (Txn.assigned_lsn p) (Txn.abort_lsn j)).
  assert (base_ok j' (O ∖ Txn.read_locks i) (W ∖ Txn.read_locks i)) as Hj'.
  { by eapply base_ok_same; [..|exact Hj]. }
  destruct r as [_|e].
  - by apply commit_release_safe with i h.
  - by apply (release_then_safe i j' h h2 _ _ Q (λ x, Txn.set_state x MustAbort)).
Qed.

Lemma abort_safe i Q h O W :
  base_ok i O W → free h → ended i h Q → safe inv Q h O W (Txn.abort i).
Proof.
  intros Hi Hf HQ. unfold Txn.abort.
  destruct (decide _); [by apply ret_ended with i h|].
  destruct (Txn.is_prepared i); [by apply ret_ended with i h|].
  destruct (decide _); [by apply ret_ended with i h|].
  assert (base_ok (Txn.set_state i Aborted) O W) as Hi' by (by eapply base_ok_same; [..|exact Hi]).
  cbv zeta. apply safe_seq, log_abort_silent; [done|]. intros h1 r Hh1.
  assert (free h1) by (by eapply free_mono).
  destruct r as [lsn|e]; [|by apply ret_ended with i h].
  apply (release_then_safe i _ h h1 O W Q (λ x, x)); try done. by eapply base_ok_same; [..|exact Hi'].
Qed.

(** The abort that leaves the locks to its caller. *)
Lemma collect_undo_safe i Q h O W :
  base_ok i O W → inv h W → (strict = false ∨ Txn.state i = Open ∨ Txn.state i = MustAbort) →
  (∀ h' i' r, h ⊆ h' → base_ok i' O W → Txn.id i' = Txn.id i →
     (strict = true → h' = h ∧ r = Ok (Txn.undo_info i)) → Q h' O W (i', r)) →
  safe inv Q h O W (Txn.abort_collect_undo i).
Proof.
  intros Hi Hinv Hst HQ. unfold Txn.abort_collect_undo.
  assert (strict = true → Txn.state i = Open ∨ Txn.state i = MustAbort) as Hst'
    by (intros ?; destruct Hst as [?|?]; [congruence|done]).
  assert (∀ r, Txn.state i = Aborted ∨ Txn.state i = Committed → ∀ i', base_ok i' O W →
            Txn.id i' = Txn.id i → safe inv Q h O W (Ret (i', r))) as Hover.
  { intros r Hs i' Hi' Hid. apply safe_ret; [done|]. apply HQ; try done. intros E.
    destruct (Hst' E), Hs; congruence. }
  destruct (decide _) as [Hs|_].
  { apply Hover; [by left| |done]. by eapply base_ok_same; [..|exact Hi]. }
  destruct (decide _) as [Hs|_]; [apply Hover; auto|]. clear Hover.
  assert (∀ lsn u, base_ok (Txn.with_undo (Txn.with_abort_lsn (Txn.set_state i Aborted) lsn) u) O W) as Hend.
  { intros lsn u. by eapply base_ok_same; [..|exact Hi]. }
  cbv zeta. apply safe_seq. destruct strict eqn:E.
  - destruct (bo_strict _ _ _ Hi E) as (_ & _ & Hfr).
    assert (Txn.log_abort (Txn.set_state i Aborted) = Ret (Ok NULL_LSN) ∨
            ∃ k, Txn.log_abort (Txn.set_state i Aborted) = Do Now k ∧ ∀ now, k now = Ret (Ok NULL_LSN)) as Hl.
    { unfold Txn.log_abort, Txn.log_entry, own_frames in *. simpl in *.
      change (Txn.is_auto_txn (Txn.set_state i Aborted)) with (Txn.is_auto_txn i).
      change (Txn.suppress_own_end_frame (Txn.set_state i Aborted)) with (Txn.suppress_own_end_frame i).
      destruct (has_log (Txn.opts i)), (Txn.is_auto_txn i), (Txn.suppress_own_end_frame i); try discriminate Hfr; clear Hfr;
        rewrite ?andb_false_r; try (left; reflexivity);
        (destruct (Txn.has_logged_entries _); [right; eexists; split; [reflexivity|done]|by left]). }
    destruct Hl as [->|(k & -> & Hk)].
    + apply safe_ret; [done|]. apply safe_ret; [done|]. by apply HQ.
    + quiet. rewrite Hk. apply safe_ret; [done|]. apply safe_ret; [done|]. by apply HQ.
  - apply log_abort_silent; [by intros ?; congruence|]. intros h1 r Hh1.
    assert (inv h1 W) by (intros ?; congruence).
    destruct r; apply safe_ret; try done; apply HQ; try done.
    by eapply base_ok_same; [..|exact Hi].
Qed.

(** ** The locks of a cursor *)

Lemma lock_then_safe {R} i lsn ty nb (f : Txn.t → result (LockGrantType * option WriteLockInfo) TxnError → R)
    Q h O W :
  txn_ok i O W → disciplined i lsn ty → kept i h Q →
  safe inv Q h O W (let* (x, r) := Txn.lock i lsn ty nb in Ret (x, f x r)).
Proof.
  intros Hi Hd HQ. apply safe_seq, lock_safe; [done..|]. intros O' W' i' r Hi' He _.
  by apply ret_kept with i.
Qed.

Lemma disciplined_same i i' lsn ty :
  Txn.write_locks i' = Txn.write_locks i → disciplined i lsn ty → disciplined i' lsn ty.
Proof. unfold disciplined. by intros ->. Qed.

Lemma NoLock_disciplined i lsn : disciplined i lsn NoLock.
Proof. intros _. auto. Qed.

Lemma Write_disciplined i lsn : disciplined i lsn Write.
Proof. intros _. by left. Qed.

(** Reads of others' records, or dirty ones. *)
Definition reads_ok (i : Txn.t) (ru : bool) (lsn : Z) : Prop :=
  strict = true → ru || read_uncommitted_default (Txn.opts i) = true ∨ lsn ∉ dom (Txn.write_locks i).

Lemma lock_ln_mode_safe i ru lsn range Q h O W :
  txn_ok i O W → reads_ok i ru lsn → kept i h Q → safe inv Q h O W (Cursor.lock_ln_mode i ru lsn range).
Proof.
  intros Hi Hr HQ. pose proof (txn_ok_inv i O W h Hi) as Hinv. unfold Cursor.lock_ln_mode.
  destruct (lsn =? NULL_LSN); [by apply unchanged|]. unfold reads_ok in Hr.
  destruct (ru || _).
  { apply (lock_then_safe i lsn NoLock false (λ _ r, match r with Ok _ => Ok false | Err e => Err e end)); 
      [done|apply NoLock_disciplined|done]. }
  cbv zeta. set (ty := if range && _ then RangeRead else Read).
  assert (is_write_lock ty = false) as Hty by (unfold ty; by destruct (_ && _)).
  assert (disciplined i lsn ty) as Hdis.
  { intros E. destruct (Hr E) as [?|?]; [done|]. right. by right. }
  apply safe_seq.
  match goal with |- safe _ (λ h O W r, @?F h O W r) _ _ _ _ =>
    assert (∀ r, F h O W r) as Hprobed; [|] end.
  { intros [[]|e]; [by apply unchanged| |by apply unchanged].
    apply safe_seq, holds_range_insert_safe; [done|]. intros []; [by apply unchanged|].
    apply safe_seq, lock_safe; [done..|]. intros O1 W1 i1 r1 Hi1 He1 Hd1.
    cbv beta match. apply safe_seq.
    match goal with |- safe _ ?F _ _ _ _ => assert (kept i1 h F) as Hrest end.
    { intros O2 W2 i2 r2 Hi2 He2. cbv beta match.
      assert (kept i2 h Q) by (apply (kept_evolves i); [by eapply evolves_trans|done]).
      destruct r2 as [c|e]; [|by apply unchanged].
      destruct (read_committed_isolation _); [|by apply unchanged].
      apply safe_seq, release_lock_safe; [done|]. intros O3 W3 i3 r3 Hi3 He3. by apply ret_kept with i2. }
    destruct r1 as [p|e]; [by apply unchanged|].
    destruct e; try (by apply unchanged).
    apply (lock_then_safe i1 lsn ty false (λ _ r, match r with Ok _ => Ok true | Err e => Err e end)); [done| |done].
    eapply disciplined_same; [by apply Hd1|done]. }
  destruct (read_committed_isolation _); [|apply safe_ret; [done|apply (Hprobed (Ok false))]].
  apply safe_seq, holds_range_insert_safe; [done|]. intros [].
  - apply safe_ret; [done|apply (Hprobed (Ok false))].
  - apply probe_safe; [done|apply Hprobed].
Qed.

Lemma lock_ln_hold_safe i lsn Q h O W :
  txn_ok i O W → reads_ok i false lsn → kept i h Q → safe inv Q h O W (Cursor.lock_ln_hold i lsn).
Proof.
  intros Hi Hr HQ. pose proof (txn_ok_inv i O W h Hi) as Hinv. unfold Cursor.lock_ln_hold.
  destruct (lsn =? NULL_LSN); [by apply unchanged|]. unfold reads_ok in Hr. simpl in Hr.
  destruct (read_uncommitted_default _).
  { apply (lock_then_safe i lsn NoLock false (λ _ r, match r with Ok _ => Ok false | Err e => Err e end)); 
      [done|apply NoLock_disciplined|done]. }
  cbv zeta. apply safe_seq, holds_range_insert_safe; [done|]. intros []; [by apply unchanged|].
  set (c := _ && negb (Txn.owns_any_lock i lsn)).
  apply (lock_then_safe i lsn _ false (λ _ r, match r with Ok _ => Ok c | Err e => Err e end)); [done| |done].
  intros E. destruct (Hr E) as [?|?]; [done|]. right. by right.
Qed.

Lemma release_held_safe i lsn held Q h O W :
  txn_ok i O W → (∀ O' W' i', txn_ok i' O' W' → evolves i i' → Q h O' W' i') →
  safe inv Q h O W (Cursor.lock_ln_release_held i lsn held).
Proof.
  intros Hi HQ. unfold Cursor.lock_ln_release_held. destruct held.
  - apply safe_seq, release_lock_safe; [done|]. intros O' W' i' r Hi' He.
    apply safe_ret; [by eapply txn_ok_inv|]. by apply HQ.
  - apply safe_ret; [by eapply txn_ok_inv|]. by apply HQ, evolves_refl.
Qed.

Lemma write_lock_safe {R} i lsn (f : Txn.t → result (LockGrantType * option WriteLockInfo) TxnError → R) Q h O W :
  txn_ok i O W → kept i h Q →
  safe inv Q h O W
    (let* (x, _) := Txn.release_range_insert_for_write i lsn in
     let* (x, r) := Txn.lock x lsn Write false in Ret (x, f x r)).
Proof.
  intros Hi HQ. apply safe_seq, release_range_insert_safe; [done|]. intros O' W' i' r Hi' He.
  apply lock_then_safe; [done|apply Write_disciplined|]. by apply (kept_evolves i).
Qed.

Lemma contest_safe i lsn Q h O W :
  txn_ok i O W → kept i h Q → safe inv Q h O W (Cursor.contest_synthetic_key_for_missing_read i lsn).
Proof.
  intros Hi HQ. unfold Cursor.contest_synthetic_key_for_missing_read.
  destruct (read_uncommitted_default _); [by apply unchanged|].
  destruct (Txn.owns_write_lock i lsn) eqn:How; [by apply unchanged|].
  apply bool_decide_eq_false in How.
  assert (∀ j, Txn.write_locks j = Txn.write_locks i → disciplined j lsn Read) as Hdis.
  { intros j Hj _. rewrite Hj. auto. }
  assert (∀ j O W, txn_ok j O W → evolves i j →
    safe inv Q h O W (let* (x, _) := Txn.release_lock j lsn in Ret (x, Ok ()))) as Hrel.
  { intros j O' W' Hj He. apply safe_seq, release_lock_safe; [done|]. intros O2 W2 i2 r2 Hi2 He2.
    apply ret_kept with i; [done|by eapply evolves_trans|done]. }
  apply safe_seq, lock_safe; [done|by apply Hdis|]. intros O1 W1 i1 r1 Hi1 He1 Hw1. cbv beta match.
  destruct r1 as [p|e]; [by apply Hrel|]. destruct e; try (by apply ret_kept with i).
  apply safe_seq, lock_safe; [done|by apply Hdis, Hw1|]. intros O2 W2 i2 r2 Hi2 He2 _. cbv beta match.
  assert (evolves i i2) by (by eapply evolves_trans).
  destruct r2; [by apply Hrel|by apply ret_kept with i].
Qed.

Lemma finalize_safe i old old_exists new key data db tm Q h O W :
  txn_ok i O W → (strict = true → new ∉ Txn.read_locks i) → kept i h Q →
  safe inv Q h O W (Cursor.finalize_write_lock i old old_exists new key data db tm).
Proof.
  intros Hi Hnew HQ. unfold Cursor.finalize_write_lock.
  destruct (new =? NULL_LSN); [by apply unchanged|]. apply safe_seq.
  match goal with |- safe _ ?F _ _ _ _ => assert (kept i h F) as Hrest end.
  { intros O1 W1 i1 r1 Hi1 He1. cbv beta match.
    destruct r1 as [_|e]; [|by apply ret_kept with i]. cbv zeta.
    destruct (abort_info_ok i1 new old key data (negb old_exists) db O1 W1 Hi1) as [Hi2 He2].
    apply safe_seq, note_log_entry_safe; [done|]. intros i3 Hi3 He3.
    assert (evolves i i3) by eauto using evolves_trans.
    assert (inv h W1) by (by eapply txn_ok_inv).
    destruct tm; [quiet|]; by apply ret_kept with i. }
  destruct (negb (old =? NULL_LSN)); [by apply move_safe|].
  apply (lock_then_safe i new Write false (λ _ r, match r with Ok _ => Ok () | Err e => Err e end));
    [done|apply Write_disciplined|done].
Qed.

Lemma revert_safe i lsn g Q h O W :
  txn_ok i O W → (strict = true → g = Promotion ∨ g = WaitPromotion → gu h lsn) →
  (∀ O' W' i', base_ok i' O' W' → inv h W' → evolves i i' → Q h O' W' i') →
  safe inv Q h O W (Cursor.revert_slot_write_lock i lsn g).
Proof.
  intros Hi Hgu HQ. pose proof (txn_ok_inv i O W h Hi) as Hinv.
  assert (safe inv Q h O W (let* (x, _) := Txn.release_lock i lsn in Ret x)) as Hrel.
  { apply safe_seq, release_lock_safe; [done|]. intros O' W' i' r Hi' He.
    assert (inv h W') by (by eapply txn_ok_inv). apply safe_ret; [done|]. apply HQ; [apply Hi'|done..]. }
  assert (g = Promotion ∨ g = WaitPromotion →
    safe inv Q h O W (let* (x, _) := Txn.demote_lock i lsn in Ret x)) as Hdem.
  { intros Hg. apply safe_seq, demote_safe; [done|auto|]. intros W' i' r Hb Hi' He.
    apply safe_ret; [done|]. by apply HQ. }
  unfold Cursor.revert_slot_write_lock. destruct g; auto;
    (apply safe_ret; [done|]; apply HQ; [apply Hi|done|apply evolves_refl]).
Qed.

(** ** Methods outside the discipline *)

Lemma after_lsn_change_safe i old new Q h O W :
  strict = false → base_ok i O W → ended i h Q →
  safe inv Q h O W (Txn.lock_after_lsn_change i old new).
Proof.
  intros E [Ho Hd _] HQ.
  assert (∀ h W, inv h W) as Hinv by (intros h0 W0 ?; congruence).
  assert (∀ j O' W' (r : result unit TxnError), O' ⊆ books j → Txn.state j ≠ Committed → Txn.id j = Txn.id i →
            safe inv Q h O' W' (Ret (j, r))) as Hret.
  { intros j O' W' r HO Hj Hid. apply safe_ret; [done|]. apply HQ; [done| |done].
    split; [done|done|]. congruence. }
  assert (∀ lsn, lsn ∈ books i → Txn.state i ≠ Committed) as Hnc.
  { intros lsn Hin Hc. rewrite (Hd Hc) in Hin. set_solver. }
  assert (∀ ty a O0 W0 O' W', after_lock new ty a O0 W0 O' W' → O' ⊆ {[new]} ∪ O0) as Hgrow.
  { intros ty a O0 W0 O' W' [_ Ha]. destruct a as [[]|]; destruct Ha as [-> _]; set_solver. }
  unfold Txn.lock_after_lsn_change, books in *. destruct (Txn.write_locks i !! old) as [w|] eqn:Hw.
  - assert (old ∈ dom (Txn.write_locks i)) as Hin by (apply elem_of_dom; eauto).
    apply call_release_safe; [done|]. apply safe_seq, lm_lock_safe; [done|]. intros O' W' r Ha _.
    apply Hgrow in Ha. apply Hret; [|apply (Hnc old); set_solver|done]. unfold books. simpl.
    rewrite dom_insert_L, dom_delete_L. intros k Hk%Ha. specialize (Ho k). clear -Hk Ho. destruct (decide (k = new)); set_solver.
  - case_bool_decide as Hin.
    + apply call_release_safe; [done|]. apply safe_seq, lm_lock_safe; [done|]. intros O' W' r Ha _.
      apply Hgrow in Ha. apply Hret; [|apply (Hnc old); set_solver|done]. unfold books. simpl.
      intros k Hk%Ha. specialize (Ho k). clear -Hk Ho. destruct (decide (k = new)); set_solver.
    + apply safe_ret; [done|]. apply HQ; [done| |done]. split; [done|done|congruence].
Qed.

Lemma prepare_safe i fmt gtrid bqual Q h O W :
  strict = false → base_ok i O W → ended i h Q → safe inv Q h O W (Txn.prepare i fmt gtrid bqual).
Proof.
  intros E Hi HQ.
  assert (∀ h, free h) as Hf by (intros h0 ?; congruence).
  assert (∀ h' j (r : result Z TxnError), h ⊆ h' → base_ok j O W → Txn.id j = Txn.id i →
            safe inv Q h' O W (Ret (j, r))) as Hret.
  { intros. by apply ret_ended with i h. }
  assert (∀ j, base_ok j O W → base_ok (Txn.set_prepared j) O W) as Hprep.
  { intros j [Ho Hd _]. split; [done..|congruence]. }
  unfold Txn.prepare. destruct (Txn.is_prepared i); [by apply Hret|].
  destruct (Txn.check_state i); [|by apply Hret]. destruct (Txn.has_open_cursors i); [by apply Hret|].
  destruct (_ || _); [by apply Hret; auto|].
  assert (inv h W) by (by apply free_inv). quiet.
  destruct (TxnPrep.new _ _ _ _ _ _ _) as [entry|]; [|by apply Hret].
  apply safe_seq. unfold Txn.log_entry.
  assert (∀ A (p : Prog A) (k : A → _), silent p →
    (∀ h' a, h ⊆ h' → safe inv Q h' O W (k a)) → ∀ h', h ⊆ h' → safe inv (λ h O W a, safe inv Q h O W (k a)) h' O W p) as Hsil.
  { intros A p k Hp Hk h' Hh. apply Hp; [done|]. intros h'' b Hh'. apply Hk. set_solver. }
  apply Hsil; [silence| |done]. intros h1 r Hh1. destruct r as [lsn|e]; [|by apply Hret].
  apply safe_seq, Hsil; [silence| |done]. intros h2 r Hh2. destruct r as [_|e]; [|by apply Hret].
  apply safe_seq, note_log_entry_safe; [by split; [done|congruence]|]. intros i' Hi' [Hid _].
  apply Hret; [done| |done]. apply Hprep, Hi'.
Qed.

End methods.
