(* ===== verification/TxnBooks.v ===== *)
(** * What transactions own, from begin to end

    The methods of the public interface ([Transaction]) on top of [TxnLocks], and
    the theorems about every interleaving of the methods of transactions:
    [locks_are_in_the_books] says that a lock of the table that belongs to a
    transaction is in its books, so that none outlives a commit, and
    [write_locks_to_the_end] that a write lock stays in the table until the commit
    entry is in the log, or the changes are undone. *)

From S2P Require Import Prelude Bytes LockType LockImpl Lock Deadlock LockManager LockSystem.
From S2P Require Import Reader Lsn LogEntry TxnOps TxnSystem TxnLocks.

(** ** What has to be done before a write lock may go *)

(** The commit entry is in the log, flushed as the durability asks, where the
    transaction has logged a change. *)
Definition commit_logged (x : Transaction.t) (d : Durability) (h : list ev) : Prop :=
  negb (Transaction.read_only x) && Txn.has_logged_entries (Transaction.inner x) &&
    Transaction.log_manager x = true →
  ∃ now, EvAppended TxnCommit (Transaction.end_entry (Txn.id (Transaction.inner x)) now true)
           (Transaction.sync_policy d).2 (Transaction.sync_policy d).1 ∈ h.

(** The old version of the record is back in the tree. *)
Definition undone (u : UndoRecord) (h : list ev) : Prop :=
  match u_abort_key u with
  | None => True
  | Some key =>
      if u_abort_known_deleted u then EvUndoDelete (u_database_id u) key ∈ h
      else
        match u_abort_data u with
        | Some data => EvUndoInsert (u_database_id u) key data (u_abort_lsn u) ∈ h
        | None => True
        end
  end.

Section books.
Context `{HashOrder}.

Definition gives_up (x : Transaction.t) (op : Op) (h : list ev) (lsn : Z) : Prop :=
  match op with
  | OpDemote k => lsn = k
  | OpRevert k g => lsn = k ∧ (g = Promotion ∨ g = WaitPromotion)
  | OpCommit d => commit_logged x d h
  | OpAbort =>
      EvEnvInvalid ∈ h ∨ ∀ u, u ∈ Txn.undo_info (Transaction.inner x) → undone u h
  | _ => False
  end.

(** How the other crates use a transaction: no read lock for a record that the
    transaction has write locked, new LSNs for new versions, and an end by
    [commit] or [abort]. *)
Definition disciplined_op (x : Transaction.t) (op : Op) : Prop :=
  let i := Transaction.inner x in
  match op with
  | OpLock lsn ty _ =>
      is_write_lock ty = true ∨ ty = NoLock ∨ lsn ∉ dom (Txn.write_locks i)
  | OpRead ru lsn _ =>
      ru || read_uncommitted_default (Txn.opts i) = true ∨ lsn ∉ dom (Txn.write_locks i)
  | OpReread lsn =>
      read_uncommitted_default (Txn.opts i) = true ∨ lsn ∉ dom (Txn.write_locks i)
  | OpMove _ new | OpFinalize _ _ new _ _ _ _ => new ∉ Txn.read_locks i
  | OpAfterLsnChange _ _ | OpTxnCommit _ | OpTxnAbort | OpCollectUndo | OpReleaseAll | OpTakeUndo
  | OpPrepare _ _ _ | OpResolvedCommit | OpResolvedAbort | OpClose => False
  | _ => True
  end.

(** A new transaction; the second kind leaves its end entries to
    [Transaction]. *)
Definition begun (x : Transaction.t) : Prop :=
  ∃ id flags o ro log acks,
    x = {| Transaction.tr_state := Transaction.TrOpen; Transaction.read_only := ro;
           Transaction.log_manager := log; Transaction.acks := acks;
           Transaction.inner := Txn.new_with_flags id flags o |}.

Definition begun_suppressed (x : Transaction.t) : Prop :=
  begun x ∧ own_frames (Transaction.inner x) = false.

Lemma gives_up_mono x op h h' l : h ⊆ h' → gives_up x op h l → gives_up x op h' l.
Proof.
  intros Hh. destruct op; simpl; auto.
  - intros Hc Hw. destruct (Hc Hw) as (now & ?). exists now. by apply Hh.
  - intros [?|Hu]; [left; by apply Hh|right]. intros u Hin. specialize (Hu u Hin). unfold undone in *.
    destruct (u_abort_key u), (u_abort_known_deleted u), (u_abort_data u); auto.
Qed.

Section runs.
Context (strict : bool).

Record ok (x : Transaction.t) (O W : gset Z) : Prop := {
  ok_base : base_ok strict (Transaction.inner x) O W;
  ok_live : strict = true →
    Transaction.tr_state x = Transaction.TrOpen ∨ Transaction.tr_state x = Transaction.TrMustAbort →
    Txn.state (Transaction.inner x) = Open ∨ Txn.state (Transaction.inner x) = MustAbort;
}.

Definition keeps (x : Transaction.t) (op : Op) : list ev → gset Z → Prop :=
  inv strict (dom (Txn.write_locks (Transaction.inner x))) (gives_up x op).

Definition post (x : Transaction.t) (_ : list ev) (O W : gset Z) (x' : Transaction.t) : Prop :=
  ok x' O W ∧ Txn.id (Transaction.inner x') = Txn.id (Transaction.inner x).

Lemma keeps_ok x op h i O W :
  txn_ok strict (dom (Txn.write_locks (Transaction.inner x))) i O W → keeps x op h W.
Proof. intros Hi. eapply txn_ok_inv, Hi. apply gives_up_mono. Qed.

Lemma ok_start x O W :
  ok x O W → txn_ok strict (dom (Txn.write_locks (Transaction.inner x))) (Transaction.inner x) O W.
Proof. by intros [Hb _]. Qed.

Lemma ok_evolves x i O W :
  ok x O W → ∀ O' W', base_ok strict i O' W' → evolves (Transaction.inner x) i →
  ok (Transaction.set_inner x i) O' W'.
Proof.
  intros [_ Hl] O' W' Hi [_ Hs]. split; [done|]. intros E Ht. simpl in *.
  destruct (Hl E Ht), Hs as [->|[]]; auto.
Qed.

(** The methods of the inner transaction. *)
Definition ipost (x : Transaction.t) (_ : list ev) (O W : gset Z) (i : Txn.t) : Prop :=
  base_ok strict i O W ∧ Txn.id i = Txn.id (Transaction.inner x) ∧
  (strict = true → evolves (Transaction.inner x) i).

Lemma run_inner_safe x op O W p :
  ok x O W → safe (keeps x op) (ipost x) [] O W p →
  safe (keeps x op) (post x) [] O W (let* i := p in Ret (Transaction.set_inner x i)).
Proof.
  intros Hx Hp. apply safe_seq. eapply safe_mono; [|exact Hp].
  intros h O' W' i Hi (Hb & Hid & He). apply safe_ret; [done|]. split; [|done].
  split; [done|]. intros E. by apply (ok_live _ _ _ (ok_evolves x i O W Hx O' W' Hb (He E))).
Qed.

Lemma ret_ipost x op h O W i :
  txn_ok strict (dom (Txn.write_locks (Transaction.inner x))) i O W → evolves (Transaction.inner x) i →
  safe (keeps x op) (ipost x) h O W (Ret i).
Proof.
  intros Hi He. apply safe_ret; [eapply keeps_ok, Hi|]. unfold ipost. split_and!; [apply Hi|apply He|done].
Qed.

Lemma state_of_kept x op h O W (R : Type) (p : Prog (Txn.t * R)) :
  (∀ Q, kept strict (dom (Txn.write_locks (Transaction.inner x))) (Transaction.inner x) h Q →
     safe (keeps x op) Q h O W p) →
  safe (keeps x op) (ipost x) h O W (state_of p).
Proof.
  intros Hp. apply safe_seq, Hp. intros O' W' i r Hi He. by apply ret_ipost.
Qed.

Lemma state_of_ended x op h O W (R : Type) (p : Prog (Txn.t * R)) :
  strict = false →
  (∀ Q, ended strict (Transaction.inner x) h Q → safe (keeps x op) Q h O W p) →
  safe (keeps x op) (ipost x) h O W (state_of p).
Proof.
  intros E Hp. apply safe_seq, Hp. intros h' O' W' i r _ Hi Hid. cbv beta match.
  apply safe_ret; [intros ?; congruence|]. unfold ipost. split_and!; [done..|congruence].
Qed.

Lemma undisciplined x op : (strict = true → disciplined_op x op) → (disciplined_op x op → False) → strict = false.
Proof. intros Hd Hf. destruct strict; [by destruct Hf; apply Hd|done]. Qed.

Lemma run_txn_safe x op O W :
  ok x O W → (strict = true → disciplined_op x op) →
  safe (keeps x op) (ipost x) [] O W (run_txn op (Transaction.inner x)).
Proof.
  intros Hx Hdis. pose proof (ok_start x O W Hx) as Hi. pose proof (gives_up_mono x op) as Hm.
  assert ((disciplined_op x op → False) → strict = false) as Hf by apply undisciplined, Hdis.
  assert (strict = false → ∀ h, free strict (dom (Txn.write_locks (Transaction.inner x))) (gives_up x op) h) as Hfree.
  { intros E h ?. congruence. }
  destruct op; simpl in Hdis; simpl run_txn;
    try (specialize (Hf (λ f, f)); specialize (Hfree Hf));
    try (apply ret_ipost; [by eapply txn_ok_same; [..|exact Hi]|by split; [|left]]).
  - apply state_of_kept. intros Q HQ. apply lock_safe; [done..|]. by apply kept_kept_lock.
  - apply state_of_kept. intros Q HQ. by apply release_lock_safe.
  - apply state_of_kept. intros Q HQ. by apply release_range_insert_safe.
  - apply safe_seq, demote_safe; [done|done|done|]. intros W' i r Hb Hinv He. cbv beta match.
    apply safe_ret; [done|]. unfold ipost. split_and!; [done|apply He|done].
  - apply state_of_kept. intros Q HQ. by apply move_safe.
  - destruct (abort_info_ok _ _ _ Hm _ lsn abort_lsn key data known_deleted db O W Hi) as [Hi' He].
    by apply ret_ipost.
  - apply state_of_ended; [done|]. intros Q HQ. apply after_lsn_change_safe; [done|done|apply Hi|done].
  - apply note_log_entry_safe; [done..|]. intros i Hi' He. unfold ipost. split_and!; [apply Hi'|apply He|done].
  - apply state_of_ended; [done|]. intros Q HQ. apply commit_safe; [done|apply Hi|done..].
  - apply state_of_ended; [done|]. intros Q HQ. apply abort_safe; [done|apply Hi|done..].
  - apply state_of_ended; [done|]. intros Q HQ.
    apply collect_undo_safe; [done|apply Hi|by apply (keeps_ok x _ _ (Transaction.inner x) O W)|by left|].
    intros h' i r Hh Hb Hid _. by apply HQ.
  - apply release_all_safe; [done|apply Hi|done|]. intros i Hb Hid _ _ _ _. unfold ipost.
    split_and!; [done..|congruence].
  - apply state_of_ended; [done|]. intros Q HQ. apply prepare_safe; [done|done|apply Hi|done].
  - apply state_of_ended; [done|]. intros Q HQ. unfold Txn.resolved_commit_after_prepare.
    destruct (Txn.is_prepared _); [|apply ret_ended with (Transaction.inner x) []; [apply Hi|done..]].
    apply commit_safe; [done| |done..]. destruct (tk_base _ _ _ _ _ Hi). split; [done|done|congruence].
  - apply state_of_ended; [done|]. intros Q HQ. unfold Txn.resolved_abort_after_prepare.
    destruct (Txn.is_prepared _); [|apply ret_ended with (Transaction.inner x) []; [apply Hi|done..]].
    apply abort_safe; [done| |done..]. destruct (tk_base _ _ _ _ _ Hi). split; [done|done|congruence].
  - assert (safe (keeps x OpClose) (ipost x) [] O W (state_of (Txn.abort (Transaction.inner x)))) as Hc.
    { apply state_of_ended; [done|]. intros Q HQ. apply abort_safe; [done|apply Hi|done..]. }
    unfold Txn.close. destruct (Txn.state (Transaction.inner x)); try done;
      (apply ret_ipost; [done|apply evolves_refl]).
  - destruct (only_abortable_ok _ _ _ _ _ Hi) as [Hi' He].
    by apply ret_ipost.
  - apply call_safe; [done..|by apply (keeps_ok x _ _ (Transaction.inner x) O W)|]. intros _.
    apply ret_ipost; [by eapply txn_ok_same; [..|exact Hi]|by split; [|left]].
  - apply state_of_kept. intros Q HQ. by apply lock_ln_mode_safe.
  - apply safe_seq, lock_ln_hold_safe; [done..|]. intros O' W' i r Hi' He. cbv beta match.
    destruct r; [|by apply ret_ipost]. apply release_held_safe; [done..|]. intros O2 W2 i2 Hi2 He2.
    unfold ipost. split_and!; [apply Hi2| |intros _; by eapply evolves_trans].
    by destruct (evolves_trans _ _ _ He He2).
  - apply state_of_kept. intros Q HQ. by apply contest_safe.
  - apply state_of_kept. intros Q HQ.
    apply (lock_then_safe _ _ _ Hm _ _ Write false (λ _ r, match r with Ok _ => Ok () | Err e => Err e end));
      [done|apply Write_disciplined|done].
  - apply state_of_kept. intros Q HQ. unfold Cursor.acquire_slot_write_lock.
    by apply (write_lock_safe _ _ _ Hm _ _ (λ _ r, match r with Ok (g, _) => Ok g | Err e => Err e end)).
  - apply state_of_kept. intros Q HQ. unfold Cursor.lock_write_before_log.
    by apply (write_lock_safe _ _ _ Hm _ _ (λ _ r, match r with Ok _ => Ok () | Err e => Err e end)).
  - apply revert_safe; [done..|]. intros O' W' i Hb Hinv He. unfold ipost. split_and!; [done|apply He|done].
  - apply state_of_kept. intros Q HQ. by apply finalize_safe.
Qed.

(** ** Commit and abort *)

Lemma ended_post x op h O W s i :
  keeps x op h W → base_ok strict i O W → Txn.id i = Txn.id (Transaction.inner x) →
  s ≠ Transaction.TrOpen → s ≠ Transaction.TrMustAbort →
  safe (keeps x op) (post x) h O W
    (Ret (Transaction.set_tr_state (Transaction.set_inner x i) s)).
Proof.
  intros Hk Hi Hid H1 H2. apply safe_ret; [done|]. split; [|done]. split; [done|].
  intros _ [?|?]; simpl in *; congruence.
Qed.

Lemma call_told {A} x op c (k : answer c → Prog A) Q h O W :
  (∀ a, own_after c a O = O) → (∀ a, held_after c a W = W) → keeps x op h W →
  (∀ a, safe (keeps x op) Q (h ++ events c a) O W (k a)) → safe (keeps x op) Q h O W (Do c k).
Proof. intros Ho Hh Hi Hk. apply safe_do; [done|]. intros a _. by rewrite Ho, Hh. Qed.

Lemma call_quiet {A} x op c (k : answer c → Prog A) Q h O W :
  (∀ a, events c a = []) → (∀ a, own_after c a O = O) → (∀ a, held_after c a W = W) → keeps x op h W →
  (∀ a, safe (keeps x op) Q h O W (k a)) → safe (keeps x op) Q h O W (Do c k).
Proof. apply call_safe. Qed.

(** The end entry of the log. *)
Lemma write_txn_end_safe x op y (is_commit : bool) fsync flush
    (Q : list ev → gset Z → gset Z → result unit Transaction.NoxuError → Prop) h O W :
  (∀ h, keeps x op h W) →
  (∀ h' r, h ⊆ h' →
     (r = Ok () → ∃ now, EvAppended (if is_commit then TxnCommit else TxnAbort)
        (Transaction.end_entry (Txn.id (Transaction.inner y)) now is_commit) flush fsync ∈ h') →
     Q h' O W r) →
  safe (keeps x op) Q h O W (Transaction.write_txn_end y is_commit fsync flush).
Proof.
  intros Hk HQ. unfold Transaction.write_txn_end. apply call_told; [done..|]. intros now.
  apply call_told; [done..|]. intros r. apply safe_ret; [done|].
  apply HQ; [set_solver|]. destruct r as [lsn|e]; [|done]. intros _. exists now. simpl. set_solver.
Qed.

(** An answer that is asked for only if a flag is set. *)
Ltac flag_call Hk Hgo :=
  match goal with
  | |- safe _ _ _ _ _ (if ?w then _ else _) =>
      destruct w; [apply call_quiet; [done|done|done|apply Hk|intros ?]|];
      (apply safe_ret; [apply Hk|first [apply Hgo|exact (Hgo false)|exact (Hgo None)]])
  end.

Lemma transaction_commit_safe x d O W :
  ok x O W →
  safe (keeps x (OpCommit d)) (post x) [] O W (state_of (Transaction.commit_with_durability x d)).
Proof.
  intros Hx. pose proof (ok_start x O W Hx) as Hi.
  assert (∀ h, keeps x (OpCommit d) h W) as Hk by (intros h; eapply keeps_ok, Hi).
  apply safe_seq. unfold Transaction.commit_with_durability.
  match goal with |- safe _ ?Q _ _ _ _ =>
    assert (∀ h (r : result unit Transaction.NoxuError), safe (keeps x (OpCommit d)) Q h O W (Ret (x, r))) as Hret end.
  { intros h r. apply safe_ret; [done|]. apply safe_ret; [done|]. by split. }
  apply call_told; [done..|]. intros valid. destruct valid; [|apply Hret].
  destruct (Transaction.check_open x); [|apply Hret]. cbv zeta. simpl negb. cbv iota.
  set (writes := negb (Transaction.read_only x) && _).
  apply safe_seq.
  match goal with |- safe _ ?F ?h _ _ _ => assert (∀ b, F h O W b) as Hgo end.
  { intros []; [apply Hret|]. apply safe_seq.
    match goal with |- safe _ ?F ?h _ _ _ => assert (∀ b, F h O W b) as Hgo end.
    { intros []; [apply Hret|]. apply safe_seq.
      match goal with |- safe _ ?F _ _ _ _ =>
        assert (∀ h r, (r = Ok () → commit_logged x d h) → F h O W r) as Hgo end.
      { intros h [[]|e] Hl; [|apply Hret]. specialize (Hl eq_refl). apply safe_seq.
        match goal with |- safe _ ?F _ _ _ _ => assert (∀ b, F h O W b) as Hgo end.
        { intros acked. apply safe_seq, commit_safe; [apply gives_up_mono|apply Hi| |].
          { intros _ l _. exact Hl. }
          intros h' O' W' i r Hh Hb Hid. cbv beta match.
          assert (keeps x (OpCommit d) h' W') as Hk'.
          { intros E l Hin. right. eapply (gives_up_mono x (OpCommit d)); [exact Hh|exact Hl]. }
          cbv zeta. apply safe_ret; [done|]. cbv beta match. by apply ended_post. }
        flag_call Hk Hgo. }
      destruct (writes && Transaction.log_manager x) eqn:Ew.
      - destruct (Transaction.sync_policy d) as [fsync flush] eqn:Es. apply write_txn_end_safe; [done|].
        intros h' r _ Hr. apply Hgo. intros -> _. rewrite Es. by apply Hr.
      - apply safe_ret; [done|]. apply (Hgo _ (Ok ())). intros _. unfold commit_logged. fold writes. congruence. }
    flag_call Hk Hgo. }
  flag_call Hk Hgo.
Qed.

Lemma insert_undo_perm u l : Transaction.insert_undo u l ≡ₚ u :: l.
Proof.
  induction l as [|v l IH]; simpl; [done|]. destruct (_ <=? _); [done|].
  rewrite IH. apply Permutation_swap.
Qed.

Lemma sort_undo_perm l : Transaction.sort_undo l ≡ₚ l.
Proof. induction l as [|u l IH]; simpl; [done|]. by rewrite insert_undo_perm, IH. Qed.

Lemma undone_mono u h h' : h ⊆ h' → undone u h → undone u h'.
Proof.
  unfold undone. intros Hh.
  destruct (u_abort_key u), (u_abort_known_deleted u), (u_abort_data u); auto.
Qed.

(** Each undo record is applied. *)
Lemma undo_all_safe {A} x op l (k : Prog A) Q h O W :
  (∀ h, keeps x op h W) →
  (∀ h', h ⊆ h' → (∀ u, u ∈ l → undone u h') → safe (keeps x op) Q h' O W k) →
  safe (keeps x op) Q h O W (for_each Transaction.apply_undo l k).
Proof.
  intros Hk. revert h. induction l as [|u l IH]; intros h HQ; simpl.
  { apply HQ; [done|]. by intros u ?%elem_of_nil. }
  apply safe_seq.
  assert (∀ h', h ⊆ h' → undone u h' → safe (keeps x op) Q h' O W (for_each Transaction.apply_undo l k)) as Hu.
  { intros h1 Hh1 Hu. apply IH. intros h2 Hh2 Hl. apply HQ; [set_solver|].
    intros v [->|Hv]%elem_of_cons; [by eapply undone_mono|by apply Hl]. }
  unfold Transaction.apply_undo.
  assert (undone u h → safe (keeps x op) (λ h O W _, safe (keeps x op) Q h O W (for_each Transaction.apply_undo l k))
            h O W (Ret ())) as Hret.
  { intros. apply safe_ret; [done|]. by apply Hu. }
  unfold undone in *. destruct (u_abort_key u) as [key|]; [|by apply Hret].
  destruct (u_abort_known_deleted u); [|destruct (u_abort_data u) as [data|]; [|by apply Hret]];
    (apply call_told; [done..|]; intros []; apply safe_ret; [done|]; apply Hu; simpl; set_solver).
Qed.

Lemma transaction_abort_safe x O W :
  ok x O W → safe (keeps x OpAbort) (post x) [] O W (state_of (Transaction.abort x)).
Proof.
  intros Hx. pose proof (ok_start x O W Hx) as Hi.
  assert (∀ h, keeps x OpAbort h W) as Hk by (intros h; eapply keeps_ok, Hi).
  apply safe_seq. unfold Transaction.abort.
  match goal with |- safe _ ?Q _ _ _ _ =>
    assert (∀ h (r : result unit Transaction.NoxuError), safe (keeps x OpAbort) Q h O W (Ret (x, r))) as Hret end.
  { intros h r. apply safe_ret; [done|]. apply safe_ret; [done|]. by split. }
  match goal with |- safe _ ?Q _ _ _ _ =>
    assert (∀ i h (r : result unit Transaction.NoxuError), base_ok strict i O W →
      Txn.id i = Txn.id (Transaction.inner x) → (strict = true → ∀ l, gives_up x OpAbort h l) →
      safe (keeps x OpAbort) Q h O W
        (let* i := Txn.release_all_locks i in
         Ret (Transaction.set_tr_state (Transaction.set_inner x i) Transaction.TrAborted, r))) as Hend end.
  { intros i h r Hb Hid Hg. apply safe_seq, release_all_safe; [apply gives_up_mono|done|by intros E l _; auto|].
    intros j Hj Hjd _ _ _ _.
    assert (keeps x OpAbort h ∅) by (intros E l _; right; auto).
    apply safe_ret; [done|]. cbv beta match. apply ended_post; [done|done|congruence|done..]. }
  assert (strict = true → Transaction.tr_state x = Transaction.TrOpen ∨ Transaction.tr_state x = Transaction.TrMustAbort →
    Txn.state (Transaction.inner x) = Open ∨ Txn.state (Transaction.inner x) = MustAbort) as Hlive by apply Hx.
  destruct (Transaction.tr_state x); try apply Hret;
    (apply call_told; [done..|]; intros valid; destruct valid; simpl negb; cbv iota;
     [|apply Hend; [apply Hi|done|]; intros _ l; left; simpl; set_solver]).
  all: apply safe_seq;
    match goal with |- safe _ ?F _ _ _ _ => assert (∀ h r, F h O W r) as Hgo end.
  1, 3: intros h [[]|e]; [|apply Hret]; apply safe_seq, collect_undo_safe;
    [apply gives_up_mono|apply Hi|apply Hk|destruct strict; auto|];
    intros h' i r Hh Hb Hid Hr; cbv beta match zeta; apply undo_all_safe; [done|];
    intros h2 Hh2 Hu; apply Hend; [done..|]; intros E l; right; intros u Hin; apply Hu;
    destruct (Hr E) as [_ ->]; by rewrite sort_undo_perm.
  all: destruct (_ && _ && _); [apply write_txn_end_safe; [done|]; intros h' r _ _; apply Hgo|];
    (apply safe_ret; [done|]; apply (Hgo _ (Ok ()))).
Qed.

(** Every method is safe. *)
Lemma run_safe x op O W :
  ok x O W → (strict = true → disciplined_op x op) →
  safe (keeps x op) (post x) [] O W (run op x).
Proof.
  intros Hx Hd. destruct op; try (apply run_inner_safe; [done|by apply run_txn_safe]).
  - by apply transaction_commit_safe.
  - by apply transaction_abort_safe.
Qed.

Lemma begun_ok x : begun x → (strict = true → own_frames (Transaction.inner x) = false) → ok x ∅ ∅.
Proof.
  intros (id & flags & o & ro & log & acks & ->) Hf. split; [|by auto].
  by apply (empty_ok strict (λ _ _, True)).
Qed.

End runs.

(** ** The theorems *)

Lemma owned_in sh m p lsn id t :
  sys_inv sh (mkSys m p) → get_owned_lock_type m lsn id = Some t →
  ∃ o, o ∈ ow m lsn ∧ locker_id o = id ∧ lock_type o = t.
Proof.
  intros Hi Ht. unfold get_owned_lock_type in Ht. destruct (get_lock m lsn) as [l|] eqn:Hl; [|done].
  rewrite get_owned_lock_type_repr in Ht. unfold LockImpl.get_owned_lock_type in Ht.
  rewrite get_owner_lock_info_find in Ht.
  destruct (find_locker id (owners (repr l))) as [o|] eqn:Hf; [|done]. injection Ht as <-.
  apply find_locker_Some in Hf as [Ho Hid]. exists o. split_and!; [|done..].
  by rewrite (ow_get m lsn l).
Qed.

Lemma read_exact_some n r x r' : read_exact n r = Some (x, r') → length r = (n + length r')%nat.
Proof.
  unfold read_exact. destruct (n <=? length r)%nat eqn:E; [|done]. intros [= _ <-].
  apply Nat.leb_le in E. rewrite length_drop. lia.
Qed.

(** The end entry that a transaction writes itself, 36 bytes without a type, is
    no entry for the reader of the log. *)
Lemma own_end_entry_unreadable id ts last master dtvlsn :
  TxnEnd.read_from_log (end_payload id ts last master dtvlsn) = None.
Proof.
  destruct (TxnEnd.read_from_log _) as [[e r]|] eqn:E; [exfalso|done].
  assert (length (end_payload id ts last master dtvlsn) = 36%nat) as Hl
    by (unfold end_payload; by rewrite !length_app, !length_be_bytes).
  unfold TxnEnd.read_from_log, Ln.read_i64, Ln.read_u64, Ln.read_i32 in E.
  repeat match type of E with
  | context [read_exact ?n ?l] =>
      let H := fresh "H" in destruct (read_exact n l) as [[? ?]|] eqn:H; simpl in E; [apply read_exact_some in H|done]
  end.
  lia.
Qed.

(** ** A transaction with a write lock, step by step *)

Section demo.
Context (initial : Transaction.t → Prop) (allowed : Transaction.t → Op → Prop).

Definition td_m0 : LockManager := configured 500 4 [].
Definition td_opts : Options :=
  {| lock_timeout_ms := 500; txn_timeout_ms := 0; txn_start := 0; read_uncommitted_default := false;
     no_wait := false; local_write := false; serializable_isolation := false;
     read_committed_isolation := false; has_log := true; sink := false; pre_commit_hook := None;
     post_commit_hook := None; group_commit := false |}.
Definition td_x0 : Transaction.t :=
  {| Transaction.tr_state := Transaction.TrOpen; Transaction.read_only := false;
     Transaction.log_manager := true; Transaction.acks := false;
     Transaction.inner := Txn.new_with_flags 1 SUPPRESS_OWN_END_FRAME td_opts |}.
Definition td_m1 : LockManager := (lock_attempt td_m0 100 1 Write false false).1.
Definition td_x1 : Transaction.t :=
  Transaction.set_inner td_x0
    (Txn.with_locks (Transaction.inner td_x0) ∅ {[100 := WriteLockInfo_new]}).
Definition td_x2 : Transaction.t :=
  Transaction.set_inner td_x1
    (Txn.with_lsns (Transaction.inner td_x1) 200 200 NULL_LSN NULL_LSN).

Definition td_idle (s : sys) (x : Transaction.t) : world := mkWorld s {[1 := Idle x]}.

Lemma td_method s x op w' :
  allowed x op → wreachable initial allowed td_m0 (td_idle s x) →
  (wreachable initial allowed td_m0 (mkWorld s {[1 := Running x op [] (run op x)]}) →
   wreachable initial allowed td_m0 w') →
  wreachable initial allowed td_m0 w'.
Proof.
  intros Ha Hw HQ. apply HQ. eapply wr_step; [exact Hw|].
  rewrite <- (insert_singleton_eq (M := gmap Z) 1 (Running x op [] (run op x)) (Idle x)).
  by apply ws_start; [apply lookup_singleton_eq|].
Qed.

Lemma td_call s s' x op h c k a w' :
  returns 1 s c a s' →
  (wreachable initial allowed td_m0 (mkWorld s' {[1 := Running x op (h ++ events c a) (k a)]}) →
   wreachable initial allowed td_m0 w') →
  wreachable initial allowed td_m0 (mkWorld s {[1 := Running x op h (Do c k)]}) →
  wreachable initial allowed td_m0 w'.
Proof.
  intros Hr HQ Hw. apply HQ. eapply wr_step; [exact Hw|].
  rewrite <- (insert_singleton_eq (M := gmap Z) 1 (Running x op (h ++ events c a) (k a)) (Running x op h (Do c k))).
  eapply ws_call; [apply lookup_singleton_eq|done].
Qed.

Lemma td_return s x op h x' :
  wreachable initial allowed td_m0 (mkWorld s {[1 := Running x op h (Ret x')]}) →
  wreachable initial allowed td_m0 (td_idle s x').
Proof.
  intros Hw. eapply wr_step; [exact Hw|]. unfold td_idle.
  rewrite <- (insert_singleton_eq (M := gmap Z) 1 (Idle x') (Running x op h (Ret x'))).
  eapply ws_return. apply lookup_singleton_eq.
Qed.

Lemma td_locked :
  initial td_x0 → allowed td_x0 (OpBeforeWrite 100) → allowed td_x1 (OpNote 200) →
  wreachable initial allowed td_m0 (td_idle (mkSys td_m1 ∅) td_x2).
Proof.
  intros Hi Hl Hn.
  assert (wreachable initial allowed td_m0 (td_idle (mkSys td_m0 ∅) td_x0)) as H0.
  { eapply wr_step; [apply wr_init|]. apply ws_begin; try done. intros lsn o Ho. unfold ow in Ho. simpl in Ho.
    rewrite (proj1 (proj2 (configured_facts 500 4 []))) in Ho. by apply elem_of_nil in Ho. }
  assert (wreachable initial allowed td_m0 (td_idle (mkSys td_m1 ∅) td_x1)) as H1.
  { eapply td_method; [exact Hl|exact H0|]. eapply td_call with (s' := mkSys td_m1 ∅) (a := Ok New); [|].
    { left. split; [done|]. exists td_m1. split; [|done]. vm_compute. reflexivity. }
    apply td_return. }
  eapply td_method; [exact Hn|exact H1|]. apply td_return.
Qed.

End demo.

(** C9: the lock table has no lock that a transaction does not know of.  In
    every interleaving of the methods of transactions, and of the calls of other
    lockers, a transaction between two methods waits for no lock, every lock
    that the table says it owns is one of its read or write locks, and when it
    is committed the table has none.  (A lock is demoted by an owner only.) *)
Theorem locks_are_in_the_books (timeout_ms : Z) (n : nat) (groups : list (Z * Z)) (w : world) (id : Z)
  (x : Transaction.t)
  (Hw : wreachable begun (λ _ _, True) (configured timeout_ms n groups) w)
  (Hx : w_threads w !! id = Some (Idle x)) :
  let m := mgr (w_sys w) in
  let i := Transaction.inner x in
  pending (w_sys w) !! id = None ∧
  (∀ lsn t, get_owned_lock_type m lsn id = Some t → lsn ∈ Txn.read_locks i ∨ lsn ∈ dom (Txn.write_locks i)) ∧
  (Txn.state i = Committed → ∀ lsn, get_owned_lock_type m lsn id = None).
Proof.
  intros m i. pose proof (same_share_group_sym (configured timeout_ms n groups)) as Hsym.
  assert (world_ok (ok false) (keeps false) (same_share_group (configured timeout_ms n groups)) w) as [Hi Hth].
  { eapply wreachable_ok; [| |exact Hsym|apply configured_inv|exact Hw].
    - intros y Hy. by apply begun_ok.
    - intros y op O W Hy _. by apply run_safe. }
  destruct (Hth id _ Hx) as (O & W & Ho & _ & [[Hown Hdone _] _] & Hp & _).
  assert (∀ lsn t, get_owned_lock_type m lsn id = Some t → lsn ∈ books i) as Hin.
  { intros lsn t Ht. destruct (w_sys w) as [m' p]. simpl in *.
    destruct (owned_in _ m' p lsn id t Hi Ht) as (o & Hin & Hid & _).
    apply Hown. by eapply own_idle. }
  split_and!; [done| |].
  - intros lsn t Ht. apply elem_of_union. by apply (Hin lsn t).
  - intros Hc lsn. destruct (get_owned_lock_type m lsn id) as [t|] eqn:Ht; [|done].
    specialize (Hin lsn t Ht). unfold i in Hin. rewrite (Hdone Hc) in Hin. by apply elem_of_empty in Hin.
Qed.

(** [id] owns [lsn] for writing and shares it with nobody of another group, or
    it was preempted. *)
Definition held_for_writing (m : LockManager) (id lsn : Z) : Prop :=
  id ∈ preempted m ∨
  ((∃ t, get_owned_lock_type m lsn id = Some t ∧ is_write_lock t = true) ∧
   ∀ id' t', id' ≠ id → get_owned_lock_type m lsn id' = Some t' → same_share_group m id id' = false →
     record_lock t' = false).

Lemma held_ok_for_writing sh id W m p lsn :
  sys_inv sh (mkSys m p) → held_ok id W (mkSys m p) → lsn ∈ W → held_for_writing m id lsn.
Proof.
  intros Hi Hh Hin. destruct (Hh lsn Hin) as [(o & Ho & Hid & Ht)|?]; [right|by left].
  simpl in Ho. assert (is_write_lock (lock_type o) = true) as Hwr.
  { destruct Ht as [->|Hc]; [done|]. unfold covers in Hc. by destruct (lock_type o). }
  split.
  - assert (holds_in (ow m lsn) id (lock_type o)) as Hho by (exists o; auto).
    destruct (holds_in_owned sh m p lsn id _ Hi Hho) as (t & Hg & Hc). exists t. split; [done|].
    destruct Hc as [->|Hc]; [done|]. unfold covers in Hc. by destruct (lock_type o), t.
  - intros id' t' Hne Hg Hs. destruct (owned_in sh m p lsn id' t' Hi Hg) as (o' & Ho' & Hid' & <-).
    destruct (si_owners _ _ Hi lsn) as [_ Hc].
    destruct (Hc o o' Ho Ho') as [Hsh|Ha]; [congruence| |].
    + pose proof (si_share _ _ Hi id id') as E. simpl in E. congruence.
    + destruct (record_lock (lock_type o')) eqn:E; [|done]. by eapply write_excludes_record in E.
Qed.


End books.

(** ** Witnesses *)

#[export] Instance elements_order : HashOrder := {| iter := elements; iter_perm := λ s, reflexivity _ |}.

Lemma locks_are_in_the_books_witness :
  get_owned_lock_type td_m1 100 1 = Some Write ∧
  (100 ∈ Txn.read_locks (Transaction.inner td_x2) ∨ 100 ∈ dom (Txn.write_locks (Transaction.inner td_x2))).
Proof.
  assert (get_owned_lock_type td_m1 100 1 = Some Write) as Ht by (vm_compute; reflexivity).
  split; [exact Ht|].
  eapply (locks_are_in_the_books 500 4 [] (td_idle (mkSys td_m1 ∅) td_x2) 1 td_x2); [|reflexivity|exact Ht].
  apply td_locked; [repeat eexists|exact I|exact I].
Defined.


(** ** Why reads have to be disciplined *)

Definition rc_opts : Options :=
  {| lock_timeout_ms := 500; txn_timeout_ms := 0; txn_start := 0; read_uncommitted_default := false;
     no_wait := false; local_write := false; serializable_isolation := false;
     read_committed_isolation := true; has_log := true; sink := false; pre_commit_hook := None;
     post_commit_hook := None; group_commit := false |}.
Definition rc_x : Transaction.t :=
  Transaction.set_inner td_x2 (Txn.set_options (Transaction.inner td_x2) rc_opts).
Definition rc_request : request := mkRequest 100 Write 500 None.
Definition rc_m2 : LockManager := (lock_attempt td_m1 100 2 Write false false).1.
Definition rc_m3 : LockManager := (lock_attempt rc_m2 100 1 Read true false).1.
Definition rc_pending : gmap Z waiting := {[2 := mkWaiting rc_request WaitNew [1] 0%nat Queued]}.

Lemma rc_steps :
  wreachable begun (λ _ _, True) td_m0 (td_idle (mkSys (release rc_m3 100 1) rc_pending) rc_x).
Proof.
  assert (wreachable begun (λ _ _, True) td_m0 (td_idle (mkSys td_m1 ∅) rc_x)) as H1.
  { apply (td_method begun (λ _ _, True) (mkSys td_m1 ∅) td_x2 (OpOptions rc_opts)); [exact I| |apply td_return].
    apply td_locked; [repeat eexists|exact I|exact I]. }
  assert (wreachable begun (λ _ _, True) td_m0 (td_idle (mkSys rc_m2 rc_pending) rc_x)) as H2.
  { eapply wr_step; [exact H1|]. apply (ws_other_waits _ _ _ _ 2 (LmLock rc_request false)); [done|].
    left. split; [done|]. exists rc_m2, WaitNew, [1], 0%nat. split; [vm_compute; reflexivity|].
    reflexivity. }
  eapply td_method; [exact I|exact H2|].
  instantiate (1 := OpRead false 100 false).
  eapply (td_call _ _ _ (mkSys rc_m2 rc_pending)) with (a := false); [split_and!; [done|done|vm_compute; reflexivity]|].
  eapply (td_call _ _ _ (mkSys rc_m3 rc_pending)) with (a := Ok Existing).
  { left. split; [done|]. exists rc_m3. split; [vm_compute; reflexivity|done]. }
  eapply (td_call _ _ _ (mkSys (release rc_m3 100 1) rc_pending)) with (a := tt); [by split|].
  apply td_return.
Qed.

(** A read under read-committed isolation can give a write lock away.  The
    transaction has write locked a record, has logged a change of it, and another
    one waits for the record; the transaction reads the record, the read takes a
    read lock that the write lock already covers, and releases it.  Afterwards
    the record belongs to the other transaction, although this one is open, was
    not preempted and still lists the write lock. *)
Theorem reread_gives_the_write_lock_away :
  ∃ w x,
    wreachable begun (λ _ _, True) (configured 500 4 []) w ∧ w_threads w !! 1 = Some (Idle x) ∧
    Txn.state (Transaction.inner x) = Open ∧ Txn.has_logged_entries (Transaction.inner x) = true ∧
    Txn.owns_write_lock (Transaction.inner x) 100 = true ∧ bool_decide (1 ∈ preempted (mgr (w_sys w))) = false ∧
    get_owned_lock_type (mgr (w_sys w)) 100 1 = None ∧
    get_owned_lock_type (mgr (w_sys w)) 100 2 = Some Write.
Proof.
  exists (td_idle (mkSys (release rc_m3 100 1) rc_pending) rc_x), rc_x.
  split_and!; [exact rc_steps|..]; vm_compute; reflexivity.
Qed.
