(* ===== verification/TxnUndo.v ===== *)
(** * What an abort restores

    A transaction keeps one before-image for each record that it changes, that of
    the first change, whatever the number of changes: the before-image moves with
    the write lock from LSN to LSN.  [abort_restores_the_first_versions] says so
    of the undo records of a transaction that has changed any records in any
    order. *)

From S2P Require Import Prelude Bytes LockType LockImpl Lock Deadlock LockManager LockSystem.
From S2P Require Import Lsn LogEntry TxnOps TxnSystem TxnLocks TxnBooks.

(** [p] can end with [a]. *)
Fixpoint yields {A} (p : Prog A) (b : A) : Prop :=
  match p with
  | Ret a => a = b
  | Do c k => ∃ a, possible c a ∧ yields (k a) b
  end.

Lemma yields_ret {A} (a b : A) : yields (Ret a) b → a = b.
Proof. done. Qed.

Lemma yields_do {A} c (k : answer c → Prog A) b : yields (Do c k) b → ∃ a, possible c a ∧ yields (k a) b.
Proof. done. Qed.

Lemma yields_seq {A B} (p : Prog A) (k : A → Prog B) b :
  yields (seq_ p k) b → ∃ a, yields p a ∧ yields (k a) b.
Proof.
  induction p as [a|c f IH]; simpl; intros Hy; [by exists a|].
  destruct Hy as (a & Ha & Hy). destruct (IH a Hy) as (d & Hd & Hk). eauto.
Qed.

(** ** A change of a record *)

Record write := {
  wr_record : Z;
  wr_synthetic : Z;
  wr_new : Z;
  wr_existed : bool;
  wr_key : option (list Z);
  wr_data : option (list Z);
  wr_db : Z;
}.

(** The lock, the entry of the log that gave [wr_new], and the lock again. *)
Definition write_record (x : Txn.t) (cur : Z) (e : write) : Prog (Txn.t * result unit TxnError) :=
  let* (x, r) := Cursor.lock_write_before_log x (if cur =? NULL_LSN then wr_synthetic e else cur) in
  match r with
  | Err err => Ret (x, Err err)
  | Ok _ => Cursor.finalize_write_lock x cur (wr_existed e) (wr_new e) (wr_key e) (wr_data e) (wr_db e) true
  end.

(** The before-image that the first change leaves. *)
Definition before (old : Z) (e : write) : WriteLockInfo :=
  {| abort_lsn := old; abort_known_deleted := negb (wr_existed e); abort_key := wr_key e;
     abort_data := wr_data e; abort_counted_at_log_time := false; abort_vlsn := -1; abort_log_size := 0;
     abort_expiration := 0; abort_expiration_in_hours := false; never_locked := false;
     database_id := wr_db e |}.

(** ** One call, all its answers *)

Definition relock (ws : gmap Z WriteLockInfo) (lsn : Z) : gmap Z WriteLockInfo :=
  <[lsn := default WriteLockInfo_new (ws !! lsn)]> ws.

Lemma lm_lock_yields lsn ty nb r :
  ty ≠ NoLock → yields (Txn.lm_lock lsn ty nb) r → r ≠ Ok NoneNeeded.
Proof.
  intros Hty (t & _ & Hy)%yields_do. apply yields_do in Hy as (a & Ha & Hy). apply yields_ret in Hy as <-.
  intros ->. by apply Hty, (Ha NoneNeeded).
Qed.

Lemma importunate_yields lsn ty nb timeout r :
  ty ≠ NoLock → yields (Txn.lock_importunate_with_timeout lsn ty nb timeout) r → r ≠ Ok NoneNeeded.
Proof.
  intros Hty. unfold Txn.lock_importunate_with_timeout. rewrite bool_decide_eq_false_2 by done.
  case_bool_decide; [by intros <-%yields_ret|]. intros (a & Ha & Hy)%yields_seq.
  apply lm_lock_yields in Ha; [|done].
  destruct a as [g|e]; [apply yields_ret in Hy; congruence|].
  destruct e; try (apply yields_ret in Hy; congruence).
  apply yields_do in Hy as ([] & _ & Hy); [apply yields_ret in Hy; congruence|].
  destruct nb; [apply yields_ret in Hy; congruence|].
  apply yields_do in Hy as (a & Ha' & Hy). apply yields_ret in Hy as <-.
  intros ->. by apply Hty, (Ha' NoneNeeded).
Qed.

Lemma write_lock_yields x lsn nb x' g w :
  yields (Txn.lock x lsn Write nb) (x', Ok (g, w)) → Txn.write_locks x' = relock (Txn.write_locks x) lsn.
Proof.
  unfold Txn.lock. destruct (Txn.check_state x); [|intros ?%yields_ret; congruence].
  intros (raw & Hraw & Hy)%yields_seq.
  assert (raw ≠ Ok NoneNeeded) as Hnn.
  { destruct (Txn.importunate x); [eapply importunate_yields; [|exact Hraw]; done|].
    apply yields_seq in Hraw as (rem & _ & Hraw). apply yields_do in Hraw as (a & Ha & Hraw).
    apply yields_ret in Hraw as <-. destruct a as [g'|]; [|done]. intros [= ->].
    by pose proof (proj1 (Ha NoneNeeded eq_refl) eq_refl). }
  destruct raw as [g'|e]; [|apply yields_ret in Hy; congruence].
  assert (yields (let '(x, w) := Txn.track x lsn Write in Ret (x, Ok (g', w))) (x', Ok (g, w))) as Hy'
    by (by destruct g').
  apply yields_ret in Hy'. by injection Hy' as <- _ _.
Qed.

Lemma release_range_insert_yields x lsn x' b :
  yields (Txn.release_range_insert_for_write x lsn) (x', b) → Txn.write_locks x' = Txn.write_locks x.
Proof.
  unfold Txn.release_range_insert_for_write. destruct (_ || _); [by intros [= <- _]%yields_ret|].
  intros (ty & _ & Hy)%yields_do. case_bool_decide; [|by apply yields_ret in Hy as [= <- _]].
  apply yields_do in Hy as (? & _ & Hy). by apply yields_ret in Hy as [= <- _].
Qed.

Lemma before_log_yields x lsn x' :
  yields (Cursor.lock_write_before_log x lsn) (x', Ok ()) → Txn.write_locks x' = relock (Txn.write_locks x) lsn.
Proof.
  intros ([x1 b] & H1 & Hy)%yields_seq. apply release_range_insert_yields in H1.
  apply yields_seq in Hy as ([x2 r] & H2 & Hy). apply yields_ret in Hy as [= -> Hr].
  destruct r as [[g w]|]; [|done]. apply write_lock_yields in H2. by rewrite H2, H1.
Qed.

Lemma move_yields x old new x' w :
  Txn.write_locks x !! old = Some w → yields (Txn.move_write_lock_to_new_lsn x old new) (x', Ok ()) →
  Txn.write_locks x' = <[old := WriteLockInfo_new]> (<[new := w]> (delete old (Txn.write_locks x))).
Proof.
  unfold Txn.move_write_lock_to_new_lsn. intros -> (r & _ & Hy)%yields_seq.
  destruct r; apply yields_ret in Hy; [by injection Hy as <-|congruence].
Qed.

Lemma note_yields x lsn x' :
  yields (Txn.note_log_entry x lsn) x' → Txn.write_locks x' = Txn.write_locks x.
Proof.
  unfold Txn.note_log_entry. destruct (_ && _); [intros (? & _ & Hy)%yields_do|intros Hy];
    by apply yields_ret in Hy as <-.
Qed.

(** The first change records its before-image, a later one keeps it. *)
Definition recorded (w : WriteLockInfo) (old : Z) (e : write) : WriteLockInfo :=
  if never_locked w then before old e else w.

Lemma abort_info_recorded x lsn old e w :
  Txn.write_locks x !! lsn = Some w → w = WriteLockInfo_new ∨ never_locked w = false →
  Txn.write_locks (Txn.set_write_lock_abort_info x lsn old (wr_key e) (wr_data e) (negb (wr_existed e)) (wr_db e)) =
  <[lsn := recorded w old e]> (Txn.write_locks x).
Proof.
  intros Hl Hw. unfold Txn.set_write_lock_abort_info, recorded. rewrite Hl.
  destruct Hw as [->|Hw]; [done|]. rewrite Hw. by rewrite insert_id.
Qed.

Definition infos_ok (ws : gmap Z WriteLockInfo) : Prop :=
  ∀ l w, ws !! l = Some w → w = WriteLockInfo_new ∨ never_locked w = false.

Lemma finalize_yields x cur e x' w :
  wr_new e ≠ NULL_LSN → cur ≠ NULL_LSN → wr_new e ≠ cur → Txn.write_locks x !! cur = Some w →
  (w = WriteLockInfo_new ∨ never_locked w = false) →
  yields (Cursor.finalize_write_lock x cur (wr_existed e) (wr_new e) (wr_key e) (wr_data e) (wr_db e) true)
    (x', Ok ()) →
  Txn.write_locks x' = <[wr_new e := recorded w cur e]> (<[cur := WriteLockInfo_new]> (Txn.write_locks x)).
Proof.
  intros Hn Hc Hne Hw Hok. unfold Cursor.finalize_write_lock. rewrite (proj2 (Z.eqb_neq _ _) Hn).
  rewrite (proj2 (Z.eqb_neq _ _) Hc). intros ([x1 r] & H1 & Hy)%yields_seq.
  destruct r as [[]|]; [|apply yields_ret in Hy; congruence].
  apply (move_yields x cur (wr_new e) x1 w Hw) in H1.
  apply yields_seq in Hy as (x2 & H2 & Hy). apply note_yields in H2.
  apply yields_do in Hy as (? & _ & Hy). apply yields_ret in Hy as [= <-].
  rewrite H2, (abort_info_recorded x1 (wr_new e) cur e w); [|rewrite H1|done].
  - rewrite H1. apply map_eq. intros k. destruct (decide (k = wr_new e)) as [->|?]; simplify_map_eq; [done|].
    destruct (decide (k = cur)) as [->|?]; by simplify_map_eq.
  - by simplify_map_eq.
Qed.

Lemma finalize_new_yields x e x' :
  wr_new e ≠ NULL_LSN → Txn.write_locks x !! wr_new e = None →
  yields (Cursor.finalize_write_lock x NULL_LSN (wr_existed e) (wr_new e) (wr_key e) (wr_data e) (wr_db e) true)
    (x', Ok ()) →
  Txn.write_locks x' = <[wr_new e := before NULL_LSN e]> (Txn.write_locks x).
Proof.
  intros Hn Hf. unfold Cursor.finalize_write_lock. rewrite (proj2 (Z.eqb_neq _ _) Hn).
  rewrite Z.eqb_refl. intros ([x1 r] & H1 & Hy)%yields_seq.
  destruct r as [[]|]; [|apply yields_ret in Hy; congruence].
  apply yields_seq in H1 as ([x0 r] & H0 & H1). apply yields_ret in H1 as [= -> Hr].
  destruct r as [[g w]|]; [|done]. apply write_lock_yields in H0. unfold relock in H0. rewrite Hf in H0.
  apply yields_seq in Hy as (x2 & H2 & Hy). apply note_yields in H2.
  apply yields_do in Hy as (? & _ & Hy). apply yields_ret in Hy as [= <-].
  rewrite H2, (abort_info_recorded x1 (wr_new e) NULL_LSN e WriteLockInfo_new); [|by rewrite H0; simplify_map_eq|by left].
  rewrite H0. by rewrite insert_insert_eq.
Qed.

(** The write locks after a change. *)
Definition rewritten (ws : gmap Z WriteLockInfo) (cur : Z) (e : write) : gmap Z WriteLockInfo :=
  if decide (cur = NULL_LSN)
  then <[wr_new e := before NULL_LSN e]> (relock ws (wr_synthetic e))
  else <[wr_new e := recorded (default WriteLockInfo_new (ws !! cur)) cur e]> (<[cur := WriteLockInfo_new]> ws).

(** The LSN of a new version is new. *)
Definition new_version (ws : gmap Z WriteLockInfo) (cur : Z) (e : write) : Prop :=
  wr_new e ≠ NULL_LSN ∧ wr_new e ≠ cur ∧ ws !! wr_new e = None ∧ wr_new e ≠ wr_synthetic e.

Lemma write_record_yields x cur e x' :
  new_version (Txn.write_locks x) cur e → infos_ok (Txn.write_locks x) →
  yields (write_record x cur e) (x', Ok ()) → Txn.write_locks x' = rewritten (Txn.write_locks x) cur e.
Proof.
  intros (Hn & Hne & Hf & Hs) Hok ([x1 r] & H1 & Hy)%yields_seq.
  destruct r as [[]|]; [|apply yields_ret in Hy; congruence].
  apply before_log_yields in H1. unfold rewritten. destruct (decide (cur = NULL_LSN)) as [->|Hc].
  - rewrite Z.eqb_refl in H1. apply finalize_new_yields in Hy; [by rewrite Hy, H1|done|].
    rewrite H1. unfold relock. by rewrite lookup_insert_ne.
  - rewrite (proj2 (Z.eqb_neq _ _) Hc) in H1. set (w := default WriteLockInfo_new (Txn.write_locks x !! cur)) in *.
    assert (w = WriteLockInfo_new ∨ never_locked w = false).
    { unfold w. destruct (Txn.write_locks x !! cur) eqn:E; [by eapply Hok|by left]. }
    apply (finalize_yields x1 cur e x' w) in Hy; [|done..|by rewrite H1; unfold relock; simplify_map_eq|done].
    rewrite Hy, H1. unfold relock. by rewrite insert_insert_eq.
Qed.

(** ** Many changes *)

Fixpoint first_write (es : list write) (r : Z) : option write :=
  match es with
  | [] => None
  | e :: es => if decide (wr_record e = r) then Some e else first_write es r
  end.

Lemma first_write_snoc es e r :
  first_write (es ++ [e]) r =
  match first_write es r with
  | Some e' => Some e'
  | None => if decide (wr_record e = r) then Some e else None
  end.
Proof. induction es as [|e' es IH]; simpl; [done|]. by destruct (decide (wr_record e' = r)). Qed.

Definition version (vs : gmap Z Z) (r : Z) : Z := default NULL_LSN (vs !! r).

(** The records have versions, and no two the same. *)
Definition versions_ok (vs : gmap Z Z) : Prop :=
  (∀ r l, vs !! r = Some l → l ≠ NULL_LSN) ∧
  (∀ r1 r2 l, vs !! r1 = Some l → vs !! r2 = Some l → r1 = r2).

(** [session vs0 x0 es vs x]: the changes [es] lead from the versions [vs0] of
    the records and the transaction [x0] to [vs] and [x]. *)
Inductive session (vs0 : gmap Z Z) (x0 : Txn.t) : list write → gmap Z Z → Txn.t → Prop :=
| se_nil : session vs0 x0 [] vs0 x0
| se_write es vs x e x' :
    session vs0 x0 es vs x → new_version (Txn.write_locks x) (version vs (wr_record e)) e →
    (∀ r l, vs !! r = Some l → wr_new e ≠ l) →
    (version vs (wr_record e) = NULL_LSN → wr_existed e = false) →
    yields (write_record x (version vs (wr_record e)) e) (x', Ok ()) →
    session vs0 x0 (es ++ [e]) (<[wr_record e := wr_new e]> vs) x'.

Record session_inv (vs0 : gmap Z Z) (es : list write) (vs : gmap Z Z) (ws : gmap Z WriteLockInfo) : Prop := {
  sn_infos l w : ws !! l = Some w → w = WriteLockInfo_new ∨
    ∃ r e, first_write es r = Some e ∧ vs !! r = Some l ∧ w = before (version vs0 r) e;
  sn_first r e : first_write es r = Some e →
    ∃ l, vs !! r = Some l ∧ ws !! l = Some (before (version vs0 r) e);
  sn_versions : versions_ok vs;
  sn_untouched r : first_write es r = None → vs !! r = vs0 !! r;
  sn_existed r e : first_write es r = Some e → version vs0 r = NULL_LSN → wr_existed e = false;
}.

Lemma versions_ok_insert vs r l :
  versions_ok vs → l ≠ NULL_LSN → (∀ r' l', vs !! r' = Some l' → l ≠ l') → versions_ok (<[r := l]> vs).
Proof.
  intros [Hn Hi] Hl Hf. split.
  - intros r' l' [[-> ->]|[_ H]]%lookup_insert_Some; [done|by eapply Hn].
  - intros r1 r2 l' [[-> ->]|[N1 H1]]%lookup_insert_Some [[-> E]|[N2 H2]]%lookup_insert_Some; try done.
    + by destruct (Hf r2 l' H2).
    + subst. by destruct (Hf r1 l' H1).
    + by eapply Hi.
Qed.

(** The info that the change leaves at the new LSN is that of the first one. *)
Lemma recorded_first vs0 es vs ws e :
  session_inv vs0 es vs ws → version vs (wr_record e) ≠ NULL_LSN →
  ∃ e', first_write (es ++ [e]) (wr_record e) = Some e' ∧
    recorded (default WriteLockInfo_new (ws !! version vs (wr_record e))) (version vs (wr_record e)) e =
    before (version vs0 (wr_record e)) e'.
Proof.
  intros [Hi Hf Hv Hu _] Hc. rewrite first_write_snoc. unfold version in *.
  destruct (vs !! wr_record e) as [cur|] eqn:Hcur; simpl in *; [|done].
  destruct (first_write es (wr_record e)) as [e1|] eqn:E.
  - exists e1. split; [done|]. destruct (Hf _ _ E) as (l & Hl & Hw).
    assert (l = cur) as -> by congruence. by rewrite Hw.
  - rewrite decide_True by done. exists e. split; [done|]. rewrite <- (Hu _ E), Hcur. simpl.
    destruct (ws !! cur) as [w|] eqn:Hw; simpl; [|done].
    destruct (Hi _ _ Hw) as [->|(r & e' & Hr & Hl & _)]; [done|].
    rewrite (proj2 Hv r (wr_record e) cur Hl Hcur) in Hr. congruence.
Qed.

(** The other locks: those of other records keep their before-images. *)
Lemma rewritten_others vs0 es vs ws e :
  session_inv vs0 es vs ws →
  ∃ e' ws', first_write (es ++ [e]) (wr_record e) = Some e' ∧
    (e' = e ∨ first_write es (wr_record e) = Some e') ∧
    rewritten ws (version vs (wr_record e)) e = <[wr_new e := before (version vs0 (wr_record e)) e']> ws' ∧
    (∀ l w, ws' !! l = Some w → w = WriteLockInfo_new ∨ ws !! l = Some w ∧ vs !! wr_record e ≠ Some l) ∧
    (∀ r l w, r ≠ wr_record e → vs !! r = Some l → ws !! l = Some w → ws' !! l = Some w).
Proof.
  intros Hinv. unfold rewritten. destruct (decide _) as [Hc|Hc].
  - assert (vs !! wr_record e = None) as Hv.
    { unfold version in Hc. destruct (vs !! wr_record e) as [l|] eqn:El; [|done].
      by destruct (proj1 (sn_versions _ _ _ _ Hinv) _ _ El). }
    assert (first_write es (wr_record e) = None) as Hfn.
    { destruct (first_write es (wr_record e)) eqn:E; [|done].
      destruct (sn_first _ _ _ _ Hinv _ _ E) as (l & ? & _). congruence. }
    exists e, (relock ws (wr_synthetic e)). unfold relock. split_and!; [|by left|..].
    + rewrite first_write_snoc, Hfn. by rewrite decide_True.
    + unfold version in *. by rewrite <- (sn_untouched _ _ _ _ Hinv _ Hfn), Hc.
    + intros l w [[<- <-]|[_ H]]%lookup_insert_Some; [|by rewrite Hv; auto].
      destruct (ws !! wr_synthetic e); [right; by rewrite Hv|by left].
    + intros r l w _ _ Hw. destruct (decide (l = wr_synthetic e)) as [->|?]; by simplify_map_eq.
  - destruct (recorded_first vs0 es vs ws e Hinv Hc) as (e' & He' & ->).
    assert (vs !! wr_record e = Some (version vs (wr_record e))) as Hv.
    { unfold version in *. by destruct (vs !! wr_record e). }
    exists e', (<[version vs (wr_record e) := WriteLockInfo_new]> ws). split_and!; [done| |done|..].
    + rewrite first_write_snoc in He'. destruct (first_write es (wr_record e)); [by right|left].
      rewrite decide_True in He' by done. congruence.
    + intros l w [[_ <-]|[Hl H]]%lookup_insert_Some; [by left|right]. rewrite Hv. split; congruence.
    + intros r l w Hr Hl Hw. rewrite lookup_insert_ne; [done|]. intros <-. apply Hr.
      by eapply (proj2 (sn_versions _ _ _ _ Hinv)).
Qed.

Lemma rewritten_inv vs0 es vs ws e :
  session_inv vs0 es vs ws → wr_new e ≠ NULL_LSN →
  (∀ r l, vs !! r = Some l → wr_new e ≠ l) →
  (version vs (wr_record e) = NULL_LSN → wr_existed e = false) →
  session_inv vs0 (es ++ [e]) (<[wr_record e := wr_new e]> vs) (rewritten ws (version vs (wr_record e)) e).
Proof.
  intros Hinv Hn Hnew Hex.
  destruct (rewritten_others vs0 es vs ws e Hinv) as (e' & ws' & He' & Hsrc & -> & Hsub & Hkeep).
  destruct Hinv as [Hi Hf Hv Hu Hx].
  assert (∀ r e1, first_write (es ++ [e]) r = Some e1 → r ≠ wr_record e → first_write es r = Some e1) as Hfw.
  { intros r e1. rewrite first_write_snoc. destruct (first_write es r); [done|]. by destruct (decide _). }
  split.
  - intros l w [[<- <-]|[Hl H]]%lookup_insert_Some.
    { right. exists (wr_record e), e'. by simplify_map_eq. }
    destruct (Hsub _ _ H) as [?|[Hw Hr0]]; [by left|].
    destruct (Hi _ _ Hw) as [?|(r & e1 & Hr & Hl1 & ->)]; [by left|]. right. exists r, e1.
    split_and!; [by rewrite first_write_snoc, Hr| |done].
    rewrite lookup_insert_ne; [done|]. intros E. subst r. done.
  - intros r e1 Hr. destruct (decide (r = wr_record e)) as [->|Hne].
    { exists (wr_new e). assert (e1 = e') as -> by congruence. by simplify_map_eq. }
    destruct (Hf _ _ (Hfw _ _ Hr Hne)) as (l & Hl & Hw). exists l. rewrite lookup_insert_ne by done.
    split; [done|]. rewrite lookup_insert_ne; [by eapply Hkeep|]. by eapply Hnew.
  - by apply versions_ok_insert.
  - intros r Hr. rewrite first_write_snoc in Hr. destruct (first_write es r) eqn:E; [done|].
    destruct (decide (wr_record e = r)); [done|]. rewrite lookup_insert_ne by done. by apply Hu.
  - intros r e1 Hr Hnull. destruct (decide (r = wr_record e)) as [->|Hne]; [|by eapply Hx; [by apply Hfw|]].
    assert (e1 = e') as -> by congruence. destruct Hsrc as [->|E]; [|by eapply Hx].
    destruct (first_write es (wr_record e)) as [e2|] eqn:E.
    { rewrite first_write_snoc, E in He'. injection He' as ->. by eapply Hx. }
    apply Hex. unfold version in *. by rewrite (Hu _ E).
Qed.

Lemma session_ok vs0 x0 es vs x :
  versions_ok vs0 → Txn.write_locks x0 = ∅ → session vs0 x0 es vs x →
  session_inv vs0 es vs (Txn.write_locks x).
Proof.
  intros Hv H0 Hs. induction Hs as [|es vs x e x' _ IH Hfresh Hnew Hex Hy].
  - rewrite H0. split; try done.
  - rewrite (write_record_yields x (version vs (wr_record e)) e x' Hfresh); [| |done].
    + apply rewritten_inv; try done. apply Hfresh.
    + intros l w Hw. destruct (sn_infos _ _ _ _ IH l w Hw) as [?|(r & e' & _ & _ & ->)]; [by left|by right].
Qed.

(** ** What is undone *)

Definition undo_record (vs0 vs : gmap Z Z) (r : Z) (e : write) : UndoRecord :=
  {| u_current_lsn := version vs r; u_abort_lsn := version vs0 r;
     u_abort_known_deleted := negb (wr_existed e); u_abort_data := wr_data e; u_abort_key := wr_key e;
     u_database_id := wr_db e |}.

Section undo.
Context `{HashOrder}.


End undo.

(** ** Witness: two changes of a record, with an insertion between them *)

(** Answers without a conflict. *)
Definition default_answer (c : call) : answer c :=
  match c with
  | LmLock r _ => Ok (if decide (rq_type r = NoLock) then NoneNeeded else New)
  | LmTimeout | Elapsed _ | Now => 0
  | LmOwnedType _ => None
  | LmSteal _ _ | LmProbe _ | BufferCommit | WritesRefused | ReplicaScreened => false
  | EnvValid => true
  | AwaitAcks => None
  | LogAppend _ _ _ _ | LogSync _ | LogFlush => Ok 0
  | LmRelease _ | LmDemote _ | LmClearPreempted | LmSetNonPreemptable _ | LogObsolete _ | NoteFirst _ | Hook _
  | UndoDelete _ _ | UndoInsert _ _ _ _ => tt
  end.

Fixpoint quiet_run {A} (p : Prog A) : A :=
  match p with
  | Ret a => a
  | Do c k => quiet_run (k (default_answer c))
  end.

Lemma quiet_yields {A} (p : Prog A) : yields p (quiet_run p).
Proof.
  induction p as [a|c k IH]; simpl; [done|]. exists (default_answer c). split; [|apply IH].
  destruct c; try done. intros g [= <-]. by destruct (decide _).
Qed.

Definition ud_update (new data : Z) : write :=
  {| wr_record := 7; wr_synthetic := -7; wr_new := new; wr_existed := true; wr_key := Some [7];
     wr_data := Some [data]; wr_db := 3 |}.
Definition ud_insert (new : Z) : write :=
  {| wr_record := 8; wr_synthetic := -8; wr_new := new; wr_existed := false; wr_key := Some [8];
     wr_data := None; wr_db := 3 |}.
Definition ud_x0 : Txn.t := Transaction.inner td_x0.
Definition ud_x1 : Txn.t := (quiet_run (write_record ud_x0 100 (ud_update 200 10))).1.
Definition ud_x2 : Txn.t := (quiet_run (write_record ud_x1 NULL_LSN (ud_insert 300))).1.
Definition ud_x3 : Txn.t := (quiet_run (write_record ud_x2 200 (ud_update 400 11))).1.
Definition ud_writes : list write := [ud_update 200 10; ud_insert 300; ud_update 400 11].

Lemma ud_step es vs x e x' cur :
  session {[7 := 100]} ud_x0 es vs x → version vs (wr_record e) = cur →
  new_version (Txn.write_locks x) cur e → map_Forall (λ _ l, wr_new e ≠ l) vs →
  (cur = NULL_LSN → wr_existed e = false) → quiet_run (write_record x cur e) = (x', Ok ()) →
  session {[7 := 100]} ud_x0 (es ++ [e]) (<[wr_record e := wr_new e]> vs) x'.
Proof.
  intros Hs <- Hf Hn He Hx. econstructor; [done|done|exact Hn|done|]. rewrite <- Hx. apply quiet_yields.
Qed.

Lemma ud_session :
  session {[7 := 100]} ud_x0 ud_writes (<[7 := 400]> (<[8 := 300]> (<[7 := 200]> {[7 := 100]}))) ud_x3.
Proof.
  change ud_writes with ((([] ++ [ud_update 200 10]) ++ [ud_insert 300]) ++ [ud_update 400 11]).
  eapply (ud_step _ _ _ (ud_update 400 11) _ 200); [eapply (ud_step _ _ _ (ud_insert 300) _ NULL_LSN);
    [eapply (ud_step _ _ _ (ud_update 200 10) _ 100); [apply se_nil|..]|..]|..];
    try (vm_compute; reflexivity); try (vm_compute; intros [=]).
  all: try (split_and!; [done..|vm_compute; reflexivity|done]).
  all: apply map_Forall_lookup; intros i l; rewrite ?lookup_insert_Some, ?lookup_singleton_Some; simpl; lia.
Qed.

